(* ===== verification/_CoqProject ===== *)
-Q . S2P
Prelude.v
Text.v
Proto.v
Scrub.v
Inference.v
Auth.v
ConfigMaps.v
Identity.v
Toolset.v
Codec.v
Conversation.v
ExecutionLog.v
Registry.v
GatewayState.v
Gateway.v
HarnessService.v
Internal.v
Turn.v
Agent.v
Dispatch.v
DispatchLive.v
ModelDispatch.v
Instructions.v
ChannelTools.v
RuntimeTools.v
ToolRouter.v
ClientCalls.v
Entrypoint.v
Sse.v
Providers.v
ToolFrames.v
Builtins.v
Jobs.v
Pods.v
Keepalive.v
Schema.v
Archive.v
Shell.v
Operator.v
Commands.v
Upgrade.v
Setup.v
Cli.v
Secrets.v
Startup.v
RelayBoot.v
HarnessBoot.v
Link.v
Approval.v
Credentials.v
