(* ===== verification/Prelude.v ===== *)
(** * Sycophant: a verification development

    Sycophant runs language-model agents in a Kubernetes cluster. Its Rust
    parts, under [src/crates] and [src/cli], are:

    - the relay ([relay-controller]): the only part clients talk to. The
      gateway service authenticates persons and channels with Kubernetes
      reviews, checks who may reach a workspace and who owns a conversation,
      holds the open client streams, and forwards to the workspace's harness;
      the internal service is what a harness may ask of the relay;
    - the harness ([harness]), one per workspace: it keeps the conversations
      (registry, logs on disk), runs the agent loop for each user message, and
      routes the model's tool calls;
    - the jobs: [inference-runtime] calls a model provider
      ([model-provider]) and streams scrubbed events back; [toolset-runtime]
      runs a tool;
    - [shared]: identities and tokens, watched ConfigMaps, toolset
      configuration, secret scrubbing;
    - the operator's command line ([src/cli]): it sets a cluster up, upgrades
      it and manages tenants by running [kubectl], [helm] and [docker].

    ** Files

    - [Prelude]: [Result], the state-and-error monad [handler] in which the
      stateful operations are written, [Status] codes, automation (hint
      database [syco]), list lemmas.
    - [Text]: what the code uses of [str], on UTF-8 bytes; [BTreeMap]s as
      sorted association lists.
    - [Proto]: the protobuf messages the parts exchange.
    - [Scrub] ([shared/src/scrub.rs], [inference-runtime/src/scrub_writer.rs]):
      [from_env_var], [from_secrets], [apply], the log writer.
    - [Inference] ([model-provider/src/lib.rs],
      [inference-runtime/src/server.rs]): [collect_tool_calls],
      [assemble_turn_complete], [scrub_turn_event], [run_model_call].
    - [Auth] ([shared/src/auth.rs]): reviews, usernames, ServiceAccount names.
    - [ConfigMaps] ([shared/src/configmap_watcher.rs], [watcher_retry.rs],
      [lib.rs]): the watch loop, merges, backoff.
    - [Identity] ([relay-controller/src/identity.rs], [capabilities.rs],
      [harness/src/model_config.rs]): the tables built from ConfigMaps.
    - [Toolset] ([shared/src/toolset.rs]): grants, tool declarations,
      argument validation, Kubernetes name segments.
    - [Codec]: the interface [LineCodec] of an append-only log's line format,
      and appending to and reading a file of lines.
    - [Conversation] ([harness/src/conversation.rs]): the store, the in-memory
      log, scopes, snapshots, frontmatter.
    - [ExecutionLog] ([harness/src/execution_log.rs]): frames of a tool result
      and their log.
    - [Registry] ([harness/src/registry.rs] and the conversation RPCs of
      [grpc_server.rs]).
    - [GatewayState] ([relay-controller/src/state.rs]).
    - [Gateway] ([relay-controller/src/gateway.rs], [listener.rs]): every RPC,
      over the interface [HarnessControl] of what a harness promises.
    - [HarnessService] ([harness/src/grpc_server.rs]): registry and router as
      one service, shown to keep the promises of [HarnessControl]; the
      witnesses of the gateway's theorems run on the two together.
    - [Internal] ([relay-controller/src/internal.rs]).
    - [Turn] ([harness/src/turn.rs]), [Agent] ([harness/src/agent.rs]).
    - [Dispatch] ([harness/src/dispatch.rs], tool calls): [DispatchState], and
      [begin_call] and its dial drivers as tasks that interleave;
      [DispatchLive] has their progress, and runs of the whole.
    - [ModelDispatch] ([harness/src/dispatch.rs], model turns): the choice of a
      model, its inference job or in-process provider, the turn sources.
    - [Instructions] ([harness/src/instructions.rs]): reading and listing of
      instruction files, over a file tree with links.
    - [ChannelTools] ([harness/src/tool_approval.rs],
      [channel_stream_tools.rs], [clients.rs]): what is asked of the client.
    - [RuntimeTools] ([harness/src/runtime_tools.rs]): the harness's own tools
      and the delegated sub-turn.
    - [ToolRouter] ([harness/src/tool_router.rs]): the catalog, and the calls
      the model makes; [ClientCalls]: the calls a client makes and awaits.
    - [Entrypoint] ([harness/src/runtime_entrypoint.rs],
      [message_source.rs]): the message loop, which puts the turn together from
      [Registry], [Instructions], [Agent] and [ModelDispatch].
    - [Sse] ([model-provider/src/lib.rs], [claude.rs], [openai.rs]): reading of
      server-sent events; [Providers] ([claude.rs], [openai.rs], [gemini.rs],
      [merge.rs]): the requests and the calls.
    - [ToolFrames] ([toolset-runtime/src/parts.rs], [execute.rs]): a tool's
      output as result frames, buffered and live; [Builtins]
      ([toolset-runtime/src/stdlib.rs], [execute.rs], [server.rs]): the standard
      tools and the pod's [Run] call.
    - [Jobs] ([harness/src/job.rs], [shared/src/podspec.rs],
      [scheduling.rs]): the Jobs of tool and model calls; [Pods]
      ([toolset-runtime/src/main.rs], [inference-runtime/src/main.rs],
      [config.rs], [server.rs]): the pods that come up from them; [Keepalive]
      ([shared/src/keepalive.rs], [toolset-runtime/src/server.rs]): when a pod
      shuts down.
    - [Schema] ([shared/src/toolset.rs]): the parameter schema of a tool.
    - [Shell] ([cli/src/runner.rs], [scope.rs], [sync.rs], [interrupt.rs],
      [commands/common.rs]): programs run, private files, prompts and
      interrupts, as a tree of effects ([Prog]) with its run relation [exec];
      on it [Operator] ([commands/operator.rs]: the operator's login),
      [Commands] (the tenant, secret, registry and connect commands),
      [Upgrade], [Setup] ([setup.rs], [build.rs]) and [Cli] ([main.rs]: the
      whole program). [Archive] ([commands/instructions.rs]) packs instruction
      folders, byte for byte; [Secrets] is about all commands together.
    - [Startup] ([shared/src/watcher_retry.rs], [grpc_client.rs]): waiting for a
      watched table and dialling, against the clock; on it [RelayBoot]
      ([relay-controller/src/main.rs], [harness_client.rs],
      [identity_watcher.rs]) and [HarnessBoot] ([harness/src/lib.rs],
      [config.rs], [healthz.rs]): how the two processes come up.
    - [Link] ([harness/src/clients.rs], [message_source.rs], the interceptor of
      [shared/src/auth.rs], [subscribe] of [relay-controller/src/internal.rs]):
      the harness's calls to the relay and its subscription, over the relay's
      own handlers.
    - [Approval] and [Credentials] model no code of their own: they put the
      parts together, the one router, relay and gateway around the approval of a
      call, the other Job, pod, dispatcher and client session around its answer.

    ** How the code is modelled

    A handler is a function from state to state and result, written with the
    code's calls in the code's order; an early return is an [Err]. Where
    locks are held across all of an operation it is one step; where they are
    not, the operation is cut at its awaits ([BeginPhase], [DriverPhase],
    [call_step]); interleavings of operations are sequences of steps
    ([reg_steps], [gw_reach], [sys_reach], [call_reach], [LogOp], [SrOp]), and the theorems quantify over
    all of them. The world outside is an argument: the API server answers
    reviews ([KubeApi], a different one per request), each file-system call
    succeeds, fails or is cut short ([AppendIo], [MetaIo], [DeleteIo]), fresh
    ids and clock readings are given, a model stream is the list of its events
    with timeouts and cancellation among them ([SourceStep], [poll]); the
    tool router's calls to the dispatch state, the runtime tools and the client
    are the effects it records ([Effect]). A command of the operator is the
    tree of what it asks of the system; a run of it ([exec]) may get any answer
    to each request, and may be cut off after any of them. Parsers
    and encoders of other packages (JSON, YAML, base64, URL, UUID) are
    parameters; where a theorem needs something of them it is a class or a
    hypothesis, with an instance ([bits_encode] of [Codec]) that meets it.

    Queues to clients are unbounded here where the code has channels of 16:
    a full channel delays the sender and changes no result. The broadcast bus
    to a harness, the result channel of a tool call and the fan-out to its
    subscribers keep their capacities, since they drop when full.
    Logging is left out. A panic is [None].

    ** What is proved

    - Who may do what: admission to a workspace, exactly
      ([authorize_workspace_spec]); a stream is cut at the first item after a
      revocation ([reauthorized_spec]); in every reachable state of relay and
      harnesses only the owner deletes, renames or cancels a conversation
      ([conversation_writes_owner_only]), only the opener of a stream speaks on
      it ([ingest_admits_opener_only]), only the dispatcher of a tool call gets
      its result ([tool_calls_dispatcher_only]); a harness touches no stream of
      another workspace ([harness_confined_to_its_workspace]); a request is
      answered by its own response ([client_response_answers_own_request]).
    - From end to end: a message is answered on the stream it came from, through
      bus, turn and deliveries ([message_answered_on_its_stream]), and a poll
      reads the state that was delivered ([delivered_state_is_polled]); a
      subscription is a queue that is only ever cut off, never gapped
      ([subscription_is_prefix]); a toolset call begins only on the word of a
      member of the workspace that came in through the gateway
      ([tool_runs_on_members_word]); what a client is served for a call comes
      from a pod of its tool and grant and holds no credential of that pod
      ([credential_stays_in_pod]).
    - What may run: nothing without the user's approval
      ([approval_gates_calls]), only what is bound, declared and selected
      ([toolset_calls_are_configured], [catalog_follows_table],
      [client_dispatch_is_grantless]), only on a pod of the call's own grant
      ([calls_run_on_their_grant]) that will still be there
      ([attach_leaves_margin]), only on the model named and allowed
      ([turn_reaches_named_model], [turn_fails_closed]); a local model and an
      inference job are one to the loop ([local_source_is_model_call]); reads
      of instructions stay in the workspace ([reads_stay_in_workspace],
      [listed_paths_readable]).
    - What ends: tool calls under every schedule ([tasks_come_to_rest],
      [accepted_calls_end]), awaits of them with the call's frames
      ([await_serves_call], [await_ends]), delegations with an answer
      ([delegation_always_answers]), turns with one outcome for the client
      ([turn_delivers_one_outcome]), and no failure of a model ends the
      harness ([model_failures_spare_harness]).
    - What is kept apart: a turn changes its own conversation
      ([turn_stays_in_conversation]), a sub-turn its child's
      ([delegation_stays_in_child]).
    - What is kept: owners never change ([owner_never_changes]), restarts
      recover the registry and the logs ([registry_restart_recovers],
      [conversations_survive_reboot], [conversation_log_durable],
      [exec_read_replays]), deleted conversations
      stay deleted ([deleted_never_resurrects]).
    - What the model sees: the agent loop ends ([llm_loop_bounded]), sends only
      well-formed histories ([requests_provider_valid]) and logs what it sent
      ([log_mirrors_model_view]); scopes do not mix
      ([history_scope_isolation]); the provider gets calls and results in pairs
      ([claude_results_follow_calls], [openai_history_kept],
      [anthropic_managed_fields]), and what it streams is what the turn is
      made of ([chunks_do_not_matter], [openai_turn_assembled]).
    - What the client sees: the streamed-item protocol
      ([stream_items_protocol]), one outcome per turn
      ([drain_stops_at_first_terminal], [inference_single_terminal]).
    - What leaves a job: no registered secret in any frame
      ([scrub_apply_redacts], [inference_frames_redacted],
      [tool_frames_redacted], [tool_pod_answers]); a tool's frames tell how it
      ended ([terminal_tells_end], [streamed_as_buffered]); the standard tools
      do what they say ([edit_replaces_unique], [read_prints_page],
      [truncate_middle_bounds]).
    - What comes up: a relay and a harness serve only with their tables listed
      and their configuration read ([relay_serves_closed],
      [harness_boots_configured], [grants_as_declared]); a failing watch is tried
      four times in the time it has ([few_runs_in_time]); racing calls share one
      client of a workspace ([pool_one_client]).
    - What a pod may do: exactly what its grant gives it
      ([tool_pod_authority_is_its_grant], [granted_pod_redacts_credential],
      [inference_pod_serves_model]), until it is idle ([quiet_pod_exits],
      [watcher_returns_when_due]).
    - What the operator's commands do: secrets reach only standard input and
      private files ([secrets_only_piped]), an interrupt leaves no such file and
      the terminal echoing ([interrupt_leaves_nothing]), an upgrade changes
      nothing unless every check passed ([upgrade_applies_only_when_sound]), a
      packed folder unpacks to itself ([archive_holds_folder]).
    - What configuration means: tables, grants, declarations and arguments
      ([handle_resolves_iff_sole], [grant_accepted_iff],
      [validate_call_input_spec] and their neighbours); a tool's schema accepts
      what its check accepts ([schema_agrees_with_check]).
    - Where the code departs from its comments: the theorems
      [cancel_leaves_calls_unanswered], [append_after_torn_lost],
      [torn_tail_tolerated_iff_utf8], [strip_frontmatter_header],
      [inference_split_secret_leaks], [reply_reaches_every_subject],
      [turn_state_loses_identity], [early_cancel_is_lost],
      [eviction_crosses_grants], [catalog_change_mixes_credentials],
      [empty_message_stops_harness], [split_character_destroyed],
      [file_block_panics], [multiline_secret_leaks], [truncation_cuts_secret],
      [accented_output_panics], [inference_logs_unscrubbed],
      [long_call_ends_keepalive], [first_setup_fails],
      [crashed_watcher_serves_empty], [grant_name_crosses_toolsets], and the
      lemmas
      [slow_subscriber_told_failure], [unlogged_call_forgotten],
      [unprivileged_workspace_confused], [watcher_delay_never_resets],
      [reserved_mount_slash_alias].

    ** Fuel

    [Agent.loop] takes fuel, because [max_iterations] is configuration;
    [llm_loop_bounded] shows that [max 1 max_iterations] rounds are enough, and
    [Entrypoint] and [RuntimeTools] (sixteen rounds) run it with that much.
    [ModelDispatch.read_source] reads a source at most so many times;
    [local_source_is_model_call] shows that two reads more than the provider
    has items reach its end. [Instructions.resolve] follows at most 40 links,
    as the kernel does, and then fails as it does. [Sse.sse_events] and
    [Providers.claude_api_messages] recur on a shorter buffer or list, by
    well-founded recursion. A wait of the command line for [s] seconds polls
    [s / 2 + 1] times, as the code's deadline and nap allow, and the wait for
    the identity provider 61 times. Everything else recurs on its data.

    ** Not modelled

    Generated code (the protobuf bindings and the build scripts that make them)
    and the test doubles have no behaviour of the program. Transport is I/O: HTTP
    and gRPC framing, TLS, the accept loops of the servers and of the health
    probe; a call over it is answered, not sent, or loses its answer
    ([Link.Transport]), or is an argument. Of the command line, argument parsing
    (clap) and progress output are left out, and the programs it runs are its
    environment; JSON, YAML, base64 and SHA-256 are parameters ([Libs]). Logging
    and metrics are left out everywhere. What else of the sources no definition
    maps to is imports, constructors and accessors that hand fields on, trait
    declarations whose implementations are modelled, and the tests that stand in
    the same files. *)

From stdpp Require Export base gmap strings list sets.
From Stdlib Require Export Ascii.
From Stdlib Require Export Sorted.
From Stdlib Require String.

#[global] Set Default Proof Using "Type".
#[global] Open Scope string_scope.
#[global] Open Scope list_scope.
#[global] Open Scope nat_scope.

(** ** Rust's [Result], and a state-and-error monad for handlers *)

Inductive result (A E : Type) : Type :=
| Ok (a : A)
| Err (e : E).
Arguments Ok {A E} a.
Arguments Err {A E} e.

#[export] Instance result_eq_dec {A E} `{EqDecision A, EqDecision E} :
  EqDecision (result A E).
Proof. solve_decision. Defined.

#[export] Instance result_ret E : MRet (λ A, result A E) := λ A, Ok.

(** [e?] in Rust: continue on [Ok], return the error at once on [Err]. *)
Definition rbind {A B E} (r : result A E) (k : A → result B E) : result B E :=
  match r with Ok a => k a | Err e => Err e end.

Definition ok_or {A E} (o : option A) (e : E) : result A E :=
  match o with Some a => Ok a | None => Err e end.

Definition map_err {A E F} (f : E → F) (r : result A E) : result A F :=
  match r with Ok a => Ok a | Err e => Err (f e) end.

Definition rok {A E} (r : result A E) : option A :=
  match r with Ok a => Some a | Err _ => None end.

Definition is_ok {A E} (r : result A E) : bool :=
  match r with Ok _ => true | Err _ => false end.

(** [iter.map(f).collect::<Result<Vec<_>, _>>()]: stops at the first error. *)
Fixpoint try_map {A B E} (f : A → result B E) (l : list A) : result (list B) E :=
  match l with
  | [] => Ok []
  | x :: l => rbind (f x) (λ y, rbind (try_map f l) (λ ys, Ok (y :: ys)))
  end.

Declare Scope rust_scope.
Delimit Scope rust_scope with rust.
Notation "'let?' x := e 'in' k" := (rbind e (λ x, k))
  (at level 10, x pattern, e at level 200, k at level 200) : rust_scope.
#[global] Open Scope rust_scope.

(** A handler over a state [S]: the state it leaves, and its answer. An error
    keeps the state changes made before it, as an early [return Err(..)] does. *)
Definition handler (S A E : Type) : Type := S → S * result A E.

Definition hret {S A E} (a : A) : handler S A E := λ s, (s, Ok a).
Definition herr {S A E} (e : E) : handler S A E := λ s, (s, Err e).
Definition hbind {S A B E} (c : handler S A E) (k : A → handler S B E) : handler S B E :=
  λ s, match c s with (s', Ok a) => k a s' | (s', Err e) => (s', Err e) end.
(** An effect-free step that may fail, and one that only reads the state. *)
Definition hlift {S A E} (r : result A E) : handler S A E := λ s, (s, r).
Definition hget {S A E} (f : S → A) : handler S A E := λ s, (s, Ok (f s)).
Definition hmodify {S E} (f : S → S) : handler S unit E := λ s, (f s, Ok tt).

Notation "'do' x <- c ; k" := (hbind c (λ x, k))
  (at level 10, x pattern, c at level 200, k at level 200) : rust_scope.
Notation "'do?' x <- r ; k" := (hbind (hlift r) (λ x, k))
  (at level 10, x pattern, r at level 200, k at level 200) : rust_scope.

(** gRPC statuses: the code; the messages carry no decision. *)
Inductive Code : Type :=
| InvalidArgument | NotFound | PermissionDenied | FailedPrecondition
| Unavailable | Internal.

#[export] Instance Code_eq_dec : EqDecision Code.
Proof. solve_decision. Defined.

Record Status : Type := mkStatus { status_code : Code; status_message : string }.

#[export] Instance Status_eq_dec : EqDecision Status.
Proof. solve_decision. Defined.

(** ** Automation *)

Create HintDb syco.
Create Rewrite HintDb syco.

Ltac simplify_result :=
  repeat match goal with
    | H : Ok _ = Ok _ |- _ => injection H as H
    | H : Err _ = Err _ |- _ => injection H as H
    | H : Ok _ = Err _ |- _ => discriminate H
    | H : Err _ = Ok _ |- _ => discriminate H
    | H : (_, _) = (_, _) |- _ => injection H as H
    end; simplify_eq/=.

(** Split every [match] whose scrutinee appears in a hypothesis or the goal. *)
Ltac destruct_matches :=
  repeat (case_match; simplify_result); try done.

(** Decide a closed goal by evaluation. *)
Ltac by_compute := apply (bool_decide_unpack _); vm_compute; exact I.

Lemma rbind_Ok {A B E} (r : result A E) (k : A → result B E) b :
  rbind r k = Ok b ↔ ∃ a, r = Ok a ∧ k a = Ok b.
Proof. destruct r; simpl; naive_solver. Qed.

Lemma rbind_Err {A B E} (r : result A E) (k : A → result B E) e :
  rbind r k = Err e ↔ r = Err e ∨ ∃ a, r = Ok a ∧ k a = Err e.
Proof. destruct r; simpl; naive_solver. Qed.

Lemma ok_or_Ok {A E} (o : option A) (e : E) a : ok_or o e = Ok a ↔ o = Some a.
Proof. destruct o; simpl; naive_solver. Qed.

Lemma map_err_Ok {A E F} (f : E → F) (r : result A E) a :
  map_err f r = Ok a ↔ r = Ok a.
Proof. destruct r; simpl; naive_solver. Qed.

Lemma try_map_Ok {A B E} (f : A → result B E) l ys :
  try_map f l = Ok ys ↔ Forall2 (λ x y, f x = Ok y) l ys.
Proof.
  revert ys. induction l as [|x l IH]; intros ys; simpl.
  - split; [intros [= <-]; constructor | by inversion 1].
  - rewrite rbind_Ok. setoid_rewrite rbind_Ok. setoid_rewrite IH. split.
    + intros (y & Hy & ys' & Hys & [= <-]). by constructor.
    + inversion 1; subst. eauto 10.
Qed.

Lemma hbind_Ok {S A B E} (c : handler S A E) (k : A → handler S B E) s s' b :
  hbind c k s = (s', Ok b) ↔
  ∃ s1 a, c s = (s1, Ok a) ∧ k a s1 = (s', Ok b).
Proof.
  unfold hbind. destruct (c s) as [s1 [a|e]]; split; intros H.
  - eauto.
  - by destruct H as (? & ? & [= <- <-] & ?).
  - simplify_result.
  - by destruct H as (? & ? & [=] & ?).
Qed.

Lemma hbind_cases {S A B E} (c : handler S A E) (k : A → handler S B E) s s' r :
  hbind c k s = (s', r) →
  (∃ e, c s = (s', Err e) ∧ r = Err e) ∨ ∃ s1 a, c s = (s1, Ok a) ∧ k a s1 = (s', r).
Proof. unfold hbind. destruct (c s) as [s1 [a|e]]; [eauto|]. intros [= <- <-]. eauto. Qed.

Lemma hlift_Ok {S A E} (r : result A E) (s s' : S) a :
  hlift r s = (s', Ok a) ↔ s' = s ∧ r = Ok a.
Proof. unfold hlift. naive_solver. Qed.

#[export] Hint Rewrite @rbind_Ok @ok_or_Ok @map_err_Ok @try_map_Ok @hbind_Ok
  @hlift_Ok : syco.

(** ** Lists *)

(** [sub p s]: [p] occurs in [s] as a contiguous block ([str::contains]). *)
Definition sub {A} (p s : list A) : Prop := ∃ l r, s = l ++ p ++ r.

(** Whether any split point of [s] starts with [p]. *)
Fixpoint starts_with {A} `{EqDecision A} (p s : list A) : bool :=
  match p, s with
  | [], _ => true
  | _ :: _, [] => false
  | a :: p, b :: s => bool_decide (a = b) && starts_with p s
  end.

Fixpoint contains {A} `{EqDecision A} (p s : list A) : bool :=
  starts_with p s || match s with [] => false | _ :: s => contains p s end.

(** A stable insertion sort; any stable sort computes the same list. *)
Fixpoint insert_by {A} (leb : A → A → bool) (x : A) (l : list A) : list A :=
  match l with
  | [] => [x]
  | y :: l' => if leb x y then x :: l else y :: insert_by leb x l'
  end.

Definition sort_by {A} (leb : A → A → bool) (l : list A) : list A :=
  foldr (insert_by leb) [] l.

Lemma starts_with_spec {A} `{EqDecision A} (p s : list A) :
  starts_with p s = true ↔ ∃ r, s = p ++ r.
Proof.
  revert s. induction p as [|a p IH]; intros s; simpl; [naive_solver|].
  destruct s as [|b s]; [split; [done | by intros [? [=]]]|].
  rewrite andb_true_iff, bool_decide_eq_true, IH. naive_solver.
Qed.

Lemma contains_spec {A} `{EqDecision A} (p s : list A) :
  contains p s = true ↔ sub p s.
Proof.
  induction s as [|b s IH]; simpl; rewrite orb_true_iff, starts_with_spec.
  - split.
    + intros [[r Hr]|[=]]. by exists [], r.
    + intros (l & r & H). left. destruct l; [|done]. by exists r.
  - rewrite IH. split.
    + intros [[r Hr]|(l & r & ->)]; [by exists [], r | by exists (b :: l), r].
    + intros ([|c l] & r & H); simplify_eq/=; [left; eauto | right; by exists l, r].
Qed.

#[export] Instance sub_dec {A} `{EqDecision A} (p s : list A) : Decision (sub p s).
Proof.
  refine (cast_if (decide (contains p s = true))); by rewrite <- contains_spec.
Defined.

Lemma sub_refl {A} (s : list A) : sub s s.
Proof. exists [], []. by rewrite app_nil_r. Qed.

Lemma sub_trans {A} (p q s : list A) : sub p q → sub q s → sub p s.
Proof.
  intros (l & r & ->) (l' & r' & ->). exists (l' ++ l), (r ++ r').
  by rewrite <- !app_assoc.
Qed.

Lemma sub_app_l {A} (p s t : list A) : sub p s → sub p (s ++ t).
Proof. intros (l & r & ->). exists l, (r ++ t). by rewrite <- !app_assoc. Qed.

Lemma sub_app_r {A} (p s t : list A) : sub p t → sub p (s ++ t).
Proof. intros (l & r & ->). exists (s ++ l), r. by rewrite <- !app_assoc. Qed.

Lemma sub_length {A} (p s : list A) : sub p s → length p ≤ length s.
Proof. intros (l & r & ->). rewrite !length_app. lia. Qed.

#[export] Hint Resolve sub_refl sub_app_l sub_app_r : syco.

Lemma insert_by_perm {A} (leb : A → A → bool) x l :
  Permutation (insert_by leb x l) (x :: l).
Proof.
  induction l as [|y l IH]; simpl; [done|]. case_match; [done|].
  rewrite IH. by constructor.
Qed.

Lemma sort_by_perm {A} (leb : A → A → bool) l : Permutation (sort_by leb l) l.
Proof.
  induction l as [|x l IH]; simpl; [done|]. by rewrite insert_by_perm, IH.
Qed.

Section sort_by.
Context {A : Type} (leb : A → A → bool).
Context (leb_total : ∀ x y, leb x y = false → leb y x = true).
Context (leb_trans : ∀ x y z, leb x y = true → leb y z = true → leb x z = true).

Lemma insert_by_sorted x l :
  StronglySorted (λ a b, leb a b = true) l →
  StronglySorted (λ a b, leb a b = true) (insert_by leb x l).
Proof using Type*.
  induction 1 as [|y l Hl IH Hy]; simpl; [by repeat constructor|].
  destruct (leb x y) eqn:E; constructor; try done.
  - by constructor.
  - constructor; [done|]. eapply Forall_impl; [done|]. eauto.
  - rewrite insert_by_perm. constructor; [by apply leb_total | done].
Qed.

Lemma sort_by_sorted l : StronglySorted (λ a b, leb a b = true) (sort_by leb l).
Proof using Type*.
  induction l as [|x l IH]; simpl; [constructor | by apply insert_by_sorted].
Qed.

Lemma insert_by_head x l : Forall (λ y, leb x y = true) l → insert_by leb x l = x :: l.
Proof. destruct 1 as [|y l Hy]; simpl; [done | by rewrite Hy]. Qed.

Lemma sort_by_id l : StronglySorted (λ a b, leb a b = true) l → sort_by leb l = l.
Proof.
  induction 1 as [|x l Hl IH Hx]; [done|]. simpl. rewrite IH. by apply insert_by_head.
Qed.

Lemma filter_insert_by (P : A → Prop) `{∀ x, Decision (P x)} x l :
  StronglySorted (λ a b, leb a b = true) l →
  filter P (insert_by leb x l) = if decide (P x) then insert_by leb x (filter P l) else filter P l.
Proof using leb_trans.
  induction 1 as [|y l Hl IH Hy]; simpl.
  - rewrite filter_cons. by case_decide.
  - destruct (leb x y) eqn:E.
    + rewrite filter_cons. case_decide; [|done]. rewrite insert_by_head; [done|].
      apply Forall_forall. intros z [_ Hz]%list_elem_of_filter. apply elem_of_cons in Hz as [->|Hz]; [done|].
      rewrite Forall_forall in Hy. eauto.
    + rewrite !filter_cons, IH. repeat case_decide; simpl; rewrite ?E; done.
Qed.

(** A stable sort commutes with a filter. *)
Lemma filter_sort_by (P : A → Prop) `{∀ x, Decision (P x)} l :
  filter P (sort_by leb l) = sort_by leb (filter P l).
Proof using Type*.
  induction l as [|x l IH]; [done|]. simpl sort_by. rewrite filter_insert_by by apply sort_by_sorted.
  rewrite filter_cons, IH. by case_decide.
Qed.
End sort_by.
