(* ===== verification/Text.v ===== *)
(** * Rust's string operations, on UTF-8 bytes

    A Rust [&str]/[String] is a byte sequence; [string] holds those bytes (an
    [ascii] is eight bits). The algorithms work on [list ascii] and are
    wrapped for [string]. What the components use of [str] is here:
    [strip_prefix], [strip_suffix], [split_once], [split], [replace],
    [lines], [trim], [chars().count()], [is_char_boundary], the ASCII
    classes, UTF-8 validity, and [BTreeMap]'s key order. Byte-wise matching of
    a UTF-8 pattern finds the same places as character-wise matching, because
    no UTF-8 encoding occurs inside another one. *)

From S2P Require Import Prelude.

Abbreviation bytes := (list ascii).

Definition B (s : string) : bytes := String.list_ascii_of_string s.
Definition str_of (l : bytes) : string := String.string_of_list_ascii l.

Definition byte_val (c : ascii) : N := N_of_ascii c.
Definition byte_of (n : N) : ascii := ascii_of_N n.
Definition newline : ascii := byte_of 10.
Definition carriage : ascii := byte_of 13.

(** ** Prefixes, suffixes, splitting *)

Fixpoint strip_prefix (p s : bytes) : option bytes :=
  match p, s with
  | [], _ => Some s
  | _ :: _, [] => None
  | a :: p, b :: s => if decide (a = b) then strip_prefix p s else None
  end.

Definition strip_suffix (p s : bytes) : option bytes :=
  reverse <$> strip_prefix (reverse p) (reverse s).

(** [str::split_once] on a one-byte separator: around its first occurrence. *)
Fixpoint split_once (c : ascii) (s : bytes) : option (bytes * bytes) :=
  match s with
  | [] => None
  | b :: s => if decide (b = c) then Some ([], s)
              else '(l, r) ← split_once c s; Some (b :: l, r)
  end.

(** [str::split] on a one-byte separator: one more piece than separators. *)
Fixpoint split (c : ascii) (s : bytes) : list bytes :=
  match s with
  | [] => [[]]
  | b :: s => if decide (b = c) then [] :: split c s
              else match split c s with
                   | [] => [[b]]
                   | p :: ps => (b :: p) :: ps
                   end
  end.

(** ** [str::replace] *)

Definition is_continuation (c : ascii) : bool :=
  (128 <=? byte_val c)%N && (byte_val c <? 192)%N.

(** Leftmost, non-overlapping matches of a non-empty pattern. [skip] counts
    the bytes of the current match still to be passed over. *)
Fixpoint replace_go (pat rep : bytes) (skip : nat) (s : bytes) : bytes :=
  match s with
  | [] => []
  | c :: s' =>
      match skip with
      | S k => replace_go pat rep k s'
      | O => if starts_with pat s then rep ++ replace_go pat rep (length pat - 1) s'
             else c :: replace_go pat rep 0 s'
      end
  end.

(** An empty pattern matches at every character boundary. *)
Definition replace_bytes (pat rep s : bytes) : bytes :=
  match pat with
  | [] => (c ← s; if is_continuation c then [c] else rep ++ [c]) ++ rep
  | _ => replace_go pat rep 0 s
  end.

(** ** [str::lines] *)

Definition strip_cr (l : bytes) : bytes :=
  default l (strip_suffix [carriage] l).

(** A line ended by [\n] also loses a final [\r]; an unterminated last line
    keeps it, and an empty unterminated last line is no line. *)
Fixpoint lines_of (pieces : list bytes) : list bytes :=
  match pieces with
  | [] => []
  | [last] => match last with [] => [] | _ => [last] end
  | l :: ps => strip_cr l :: lines_of ps
  end.

Definition lines_bytes (s : bytes) : list bytes := lines_of (split newline s).

(** ** [str::trim]: Unicode [White_Space], by UTF-8 encoding *)

Definition ws1 (a : ascii) : bool :=
  let n := byte_val a in ((9 <=? n) && (n <=? 13) || (n =? 32))%N.
Definition ws2 (a b : ascii) : bool :=
  ((byte_val a =? 194) && ((byte_val b =? 133) || (byte_val b =? 160)))%N.
Definition ws3 (a b c : ascii) : bool :=
  let x := byte_val a in let y := byte_val b in let z := byte_val c in
  ((x =? 225) && (y =? 154) && (z =? 128)
   || (x =? 226) && (y =? 128)
      && ((128 <=? z) && (z <=? 138) || (z =? 168) || (z =? 169) || (z =? 175))
   || (x =? 226) && (y =? 129) && (z =? 159)
   || (x =? 227) && (y =? 128) && (z =? 128))%N.

Fixpoint trim_start (s : bytes) : bytes :=
  match s with
  | [] => []
  | a :: s1 =>
      if ws1 a then trim_start s1 else
      match s1 with
      | [] => s
      | b :: s2 =>
          if ws2 a b then trim_start s2 else
          match s2 with
          | [] => s
          | c :: s3 => if ws3 a b c then trim_start s3 else s
          end
      end
  end.

(** The same on the reversed bytes, so the encodings are read backwards. *)
Fixpoint trim_start_rev (s : bytes) : bytes :=
  match s with
  | [] => []
  | a :: s1 =>
      if ws1 a then trim_start_rev s1 else
      match s1 with
      | [] => s
      | b :: s2 =>
          if ws2 b a then trim_start_rev s2 else
          match s2 with
          | [] => s
          | c :: s3 => if ws3 c b a then trim_start_rev s3 else s
          end
      end
  end.

Definition trim_end (s : bytes) : bytes := reverse (trim_start_rev (reverse s)).
Definition trim_bytes (s : bytes) : bytes := trim_end (trim_start s).

(** ** UTF-8 *)

Definition in_range (lo hi : N) (c : ascii) : bool :=
  ((lo <=? byte_val c) && (byte_val c <=? hi))%N.

(** [std::str::from_utf8]: the well-formed sequences of the Unicode standard. *)
Fixpoint utf8_valid (s : bytes) : bool :=
  match s with
  | [] => true
  | a :: s1 =>
      if in_range 0 127 a then utf8_valid s1 else
      match s1 with
      | [] => false
      | b :: s2 =>
          if in_range 194 223 a && is_continuation b then utf8_valid s2 else
          match s2 with
          | [] => false
          | c :: s3 =>
              if ((in_range 224 224 a && in_range 160 191 b)
                  || (in_range 225 236 a && is_continuation b)
                  || (in_range 237 237 a && in_range 128 159 b)
                  || (in_range 238 239 a && is_continuation b))
                 && is_continuation c then utf8_valid s3 else
              match s3 with
              | [] => false
              | d :: s4 =>
                  if ((in_range 240 240 a && in_range 144 191 b)
                      || (in_range 241 243 a && is_continuation b)
                      || (in_range 244 244 a && in_range 128 143 b))
                     && is_continuation c && is_continuation d
                  then utf8_valid s4 else false
              end
          end
      end
  end.

(** [s.chars().count()]: every byte that is not a continuation starts one. *)
Definition chars_count (s : bytes) : nat :=
  length (filter (λ c, is_continuation c = false) s).

(** [str::is_char_boundary]: the ends, or a byte that starts a character. *)
Definition is_char_boundary (s : bytes) (i : nat) : bool :=
  match s !! i with
  | Some c => negb (is_continuation c)
  | None => i =? length s
  end.

(** [b as char] pushed on a [String]: U+0000..U+00FF in UTF-8. *)
Definition push_byte_as_char (b : ascii) : bytes :=
  if (byte_val b <? 128)%N then [b]
  else [byte_of (192 + byte_val b / 64); byte_of (128 + byte_val b mod 64)].

Definition is_ascii_uppercase (c : ascii) : bool := in_range 65 90 c.
Definition is_ascii_lowercase (c : ascii) : bool := in_range 97 122 c.
Definition is_ascii_digit (c : ascii) : bool := in_range 48 57 c.
Definition to_ascii_lowercase (c : ascii) : ascii :=
  if is_ascii_uppercase c then byte_of (byte_val c + 32) else c.

(** ** The same on [string] *)

Definition str_is_empty (s : string) : bool := bool_decide (s = "").
Definition str_starts_with (p s : string) : bool := starts_with (B p) (B s).
Definition str_strip_prefix (p s : string) : option string :=
  str_of <$> strip_prefix (B p) (B s).
Definition str_strip_suffix (p s : string) : option string :=
  str_of <$> strip_suffix (B p) (B s).
Definition str_split_once (c : ascii) (s : string) : option (string * string) :=
  '(l, r) ← split_once c (B s); Some (str_of l, str_of r).
Definition str_split (c : ascii) (s : string) : list string :=
  str_of <$> split c (B s).
Definition str_replace (pat rep s : string) : string :=
  str_of (replace_bytes (B pat) (B rep) (B s)).
Definition str_lines (s : string) : list string := str_of <$> lines_bytes (B s).
Definition str_trim (s : string) : string := str_of (trim_bytes (B s)).
Definition dq : string := str_of [byte_of 34].
Definition str_contains_char (c : ascii) (s : string) : bool :=
  bool_decide (c ∈ B s).
Definition str_chars_count (s : string) : nat := chars_count (B s).
(** [Vec<String>::join]. *)
Fixpoint str_join (sep : string) (l : list string) : string :=
  match l with
  | [] => ""
  | [s] => s
  | s :: l => s +:+ sep +:+ str_join sep l
  end.

(** ** [BTreeMap<String, V>]: an association list with increasing keys *)

Definition str_ltb (a b : string) : bool :=
  match String.compare a b with Lt => true | _ => false end.

Fixpoint bt_get {V} (k : string) (m : list (string * V)) : option V :=
  match m with
  | [] => None
  | (k', v) :: m => if decide (k = k') then Some v else bt_get k m
  end.

Fixpoint bt_insert {V} (k : string) (v : V) (m : list (string * V)) : list (string * V) :=
  match m with
  | [] => [(k, v)]
  | (k', v') :: m' =>
      match String.compare k k' with
      | Lt => (k, v) :: m
      | Eq => (k, v) :: m'
      | Gt => (k', v') :: bt_insert k v m'
      end
  end.

Fixpoint bt_remove {V} (k : string) (m : list (string * V)) : list (string * V) :=
  match m with
  | [] => []
  | (k', v') :: m => if decide (k = k') then bt_remove k m else (k', v') :: bt_remove k m
  end.

(** The type invariant of a [BTreeMap]: keys strictly increasing. *)
Definition bt_sorted {V} (m : list (string * V)) : Prop :=
  StronglySorted (λ a b, String.compare a.1 b.1 = Lt) m.

#[global] Arguments B : simpl never.
#[global] Arguments str_of : simpl never.
#[global] Arguments str_strip_prefix : simpl never.
#[global] Arguments str_strip_suffix : simpl never.
#[global] Arguments str_split_once : simpl never.
#[global] Arguments str_replace : simpl never.
#[global] Arguments str_trim : simpl never.
#[global] Arguments str_is_empty : simpl never.
#[global] Arguments str_starts_with : simpl never.

(** ** Lemmas *)

Lemma B_str_of l : B (str_of l) = l.
Proof. apply String.list_ascii_of_string_of_list_ascii. Qed.

Lemma str_of_B s : str_of (B s) = s.
Proof. apply String.string_of_list_ascii_of_string. Qed.

#[export] Instance B_inj : Inj (=) (=) B.
Proof. intros s t H. by rewrite <- (str_of_B s), <- (str_of_B t), H. Qed.

#[export] Instance str_of_inj : Inj (=) (=) str_of.
Proof. intros s t H. by rewrite <- (B_str_of s), <- (B_str_of t), H. Qed.

Lemma B_app s t : B (s +:+ t) = B s ++ B t.
Proof. unfold B. induction s as [|c s IH]; simpl; [done|]. by f_equal. Qed.

Lemma str_of_app s t : str_of (s ++ t) = str_of s +:+ str_of t.
Proof. apply (inj B). by rewrite B_app, !B_str_of. Qed.

Lemma B_nil s : B s = [] ↔ s = "".
Proof. by destruct s. Qed.

Lemma string_app_assoc (a b c : string) : (a +:+ b) +:+ c = a +:+ (b +:+ c).
Proof. apply (inj B). by rewrite !B_app, app_assoc. Qed.

Lemma string_app_empty_r (a : string) : a +:+ "" = a.
Proof. apply (inj B). rewrite B_app. apply app_nil_r. Qed.

Lemma string_app_inj_l (a b c : string) : a +:+ b = a +:+ c → b = c.
Proof. intros H%(f_equal B). rewrite !B_app in H. by apply (inj B), (inj (B a ++.)). Qed.

#[export] Hint Rewrite B_str_of str_of_B B_app : syco.

Lemma strip_prefix_Some p s r : strip_prefix p s = Some r ↔ s = p ++ r.
Proof.
  revert s. induction p as [|a p IH]; intros s; simpl; [naive_solver|].
  destruct s as [|b s]; [naive_solver|]. case_decide; [rewrite IH|]; naive_solver.
Qed.

Lemma strip_prefix_None p s : strip_prefix p s = None ↔ ¬ ∃ r, s = p ++ r.
Proof.
  setoid_rewrite <- strip_prefix_Some.
  destruct (strip_prefix p s); split; naive_solver.
Qed.

Lemma strip_suffix_Some p s r : strip_suffix p s = Some r ↔ s = r ++ p.
Proof.
  unfold strip_suffix. rewrite fmap_Some. setoid_rewrite strip_prefix_Some. split.
  - intros (l & H & ->). apply (f_equal reverse) in H.
    by rewrite reverse_involutive, reverse_app, reverse_involutive in H.
  - intros ->. exists (reverse r). by rewrite reverse_app, reverse_involutive.
Qed.

Lemma strip_suffix_None p s : strip_suffix p s = None ↔ ¬ ∃ r, s = r ++ p.
Proof.
  setoid_rewrite <- strip_suffix_Some.
  destruct (strip_suffix p s); split; naive_solver.
Qed.

Lemma str_strip_prefix_Some p s r :
  str_strip_prefix p s = Some r ↔ s = p +:+ r.
Proof.
  unfold str_strip_prefix. rewrite fmap_Some. setoid_rewrite strip_prefix_Some. split.
  - intros (l & H & ->). apply (inj B). by rewrite B_app, B_str_of.
  - intros ->. exists (B r). by rewrite B_app, str_of_B.
Qed.

Lemma str_strip_suffix_Some p s r :
  str_strip_suffix p s = Some r ↔ s = r +:+ p.
Proof.
  unfold str_strip_suffix. rewrite fmap_Some. setoid_rewrite strip_suffix_Some. split.
  - intros (l & H & ->). apply (inj B). by rewrite B_app, B_str_of.
  - intros ->. exists (B r). by rewrite B_app, str_of_B.
Qed.

Lemma str_starts_with_spec p s :
  str_starts_with p s = true ↔ ∃ r, s = p +:+ r.
Proof.
  unfold str_starts_with. rewrite starts_with_spec. split; intros [r H].
  - exists (str_of r). apply (inj B). by rewrite B_app, B_str_of.
  - exists (B r). by rewrite H, B_app.
Qed.

Lemma split_once_Some c s l r :
  split_once c s = Some (l, r) ↔ s = l ++ c :: r ∧ c ∉ l.
Proof.
  revert l. induction s as [|b s IH]; intros l; simpl.
  - split; [done|]. by intros [H%(f_equal length) _]; rewrite length_app in H; simpl in H; lia.
  - case_decide as Hb.
    + subst. split; [intros [= <- <-]; set_solver|].
      intros [H Hc]. destruct l; simplify_eq/=; [done | set_solver].
    + rewrite bind_Some. split.
      * intros ([l' r'] & Hs & [= <- <-]). apply IH in Hs as [-> ?]. set_solver.
      * intros [H Hc]. destruct l as [|a l]; simplify_eq/=.
        exists (l, r). split; [|done]. apply IH. set_solver.
Qed.

Lemma str_split_once_Some c s l r :
  str_split_once c s = Some (l, r) ↔ B s = B l ++ c :: B r ∧ c ∉ B l.
Proof.
  unfold str_split_once. rewrite bind_Some. split.
  - intros ([l' r'] & Hs & [= <- <-]). apply split_once_Some in Hs.
    by rewrite !B_str_of.
  - intros H. exists (B l, B r). rewrite !str_of_B. by apply split_once_Some in H as ->.
Qed.

Lemma split_ne c s : split c s ≠ [].
Proof. destruct s; simpl; [done|]. by repeat case_match. Qed.

Lemma split_no_sep c s : c ∉ s → split c s = [s].
Proof.
  induction s as [|b s IH]; simpl; [done|]. intros Hc.
  rewrite decide_False, IH by set_solver. done.
Qed.

Lemma split_app c s t : c ∉ s → split c (s ++ c :: t) = s :: split c t.
Proof.
  induction s as [|b s IH]; simpl; intros Hc.
  - by rewrite decide_True.
  - rewrite decide_False, IH by set_solver. done.
Qed.

Lemma lines_of_cons l ps : ps ≠ [] → lines_of (l :: ps) = strip_cr l :: lines_of ps.
Proof. by destruct ps. Qed.

(** A text of terminated lines is read back as those lines. *)
Lemma lines_bytes_unlines (ls : list bytes) :
  Forall (λ l, (newline ∉ l) ∧ ¬ (∃ l', l = l' ++ [carriage])) ls →
  lines_bytes (ls ≫= (λ l, l ++ [newline])) = ls.
Proof.
  unfold lines_bytes. induction 1 as [|l ls [Hn Hc] _ IH]; [done|].
  rewrite bind_cons, <- app_assoc. cbn [app]. rewrite split_app by done.
  rewrite lines_of_cons, IH by apply split_ne. unfold strip_cr.
  replace (strip_suffix [carriage] l) with (@None bytes); [done|].
  symmetry. by apply strip_suffix_None.
Qed.

(** ** Lemmas on [replace] *)

(** [replace] cuts [s] at the matches: [s] is its pieces joined by the
    pattern, the result is the same pieces joined by the replacement, and no
    piece contains the pattern. *)
Fixpoint join {A} (sep : list A) (ps : list (list A)) : list A :=
  match ps with
  | [] => []
  | [p] => p
  | p :: ps => p ++ sep ++ join sep ps
  end.

Lemma join_cons {A} (sep p : list A) ps :
  ps ≠ [] → join sep (p :: ps) = p ++ sep ++ join sep ps.
Proof. by destruct ps. Qed.

Lemma replace_go_skip pat rep k s :
  replace_go pat rep k s = replace_go pat rep 0 (drop k s).
Proof.
  revert k. induction s as [|c s IH]; intros k; simpl; [by rewrite drop_nil|].
  destruct k as [|k]; [done|]. by rewrite IH.
Qed.

Lemma replace_go_cases pat rep s :
  pat ≠ [] →
  replace_go pat rep 0 s =
    match s with
    | [] => []
    | c :: s' => match strip_prefix pat s with
                 | Some r => rep ++ replace_go pat rep 0 r
                 | None => c :: replace_go pat rep 0 s'
                 end
    end.
Proof.
  intros Hpat. destruct s as [|c s]; [done|].
  cbn [replace_go]. destruct (strip_prefix pat (c :: s)) as [r|] eqn:E.
  - apply strip_prefix_Some in E as E'.
    replace (starts_with pat (c :: s)) with true
      by (symmetry; apply starts_with_spec; eauto).
    rewrite replace_go_skip. do 2 f_equal.
    destruct pat as [|a pat]; [done|]. simplify_eq/=.
    by rewrite Nat.sub_0_r, drop_app_length.
  - destruct (starts_with pat (c :: s)) eqn:F; [|done].
    apply starts_with_spec in F. by apply strip_prefix_None in E.
Qed.

Lemma replace_go_pieces pat rep s :
  pat ≠ [] →
  ∃ ps, ps ≠ [] ∧ s = join pat ps ∧ replace_go pat rep 0 s = join rep ps
        ∧ Forall (λ p, ¬ sub pat p) ps.
Proof.
  intros Hpat. induction s as [s IH] using (induction_ltof1 _ length); unfold ltof in IH.
  rewrite replace_go_cases by done. destruct s as [|c s].
  - exists [[]]. split_and!; try done.
    constructor; [|done]. intros (l & r & H). by destruct l, pat.
  - destruct (strip_prefix pat (c :: s)) as [r|] eqn:E.
    + apply strip_prefix_Some in E. destruct (IH r) as (ps & Hne & Hs & Hr & Hf).
      { rewrite E, length_app. destruct pat; simpl; [done | lia]. }
      exists ([] :: ps). split_and!; try done.
      * rewrite join_cons by done. simpl. congruence.
      * rewrite join_cons by done. simpl. congruence.
      * constructor; [|done]. intros (l & r' & H). by destruct l, pat.
    + destruct (IH s) as (ps & Hne & Hs & Hr & Hf); [simpl; lia|].
      destruct ps as [|p ps]; [done|]. exists ((c :: p) :: ps). split_and!; try done.
      * rewrite Hs. by destruct ps.
      * rewrite Hr. by destruct ps.
      * inversion Hf as [|? ? Hp Hps]; subst. constructor; [|done].
        intros (l & r & H). destruct l as [|a l].
        -- apply strip_prefix_None in E. apply E. simpl in H.
           destruct ps as [|q ps]; [by exists r|].
           exists (r ++ pat ++ join pat (q :: ps)).
           rewrite join_cons by done.
           change (c :: p ++ pat ++ join pat (q :: ps)) with
             ((c :: p) ++ pat ++ join pat (q :: ps)).
           by rewrite H, <- app_assoc.
        -- simplify_eq/=. apply Hp. by exists l, r.
Qed.

Lemma sub_join {A} (sep p : list A) ps : p ∈ ps → sub p (join sep ps).
Proof.
  induction ps as [|q ps IH]; [set_solver|].
  intros [->|Hp]%elem_of_cons; destruct ps as [|r ps].
  - apply sub_refl.
  - rewrite join_cons by done. apply sub_app_l, sub_refl.
  - set_solver.
  - rewrite join_cons by done. apply sub_app_r, sub_app_r. by apply IH.
Qed.

(** ** Association lists with distinct keys *)

Lemma bt_get_None {V} k (l : list (string * V)) : k ∉ l.*1 → bt_get k l = None.
Proof.
  induction l as [|[i v] l IH]; simpl; [done|]. intros [Hi Hl]%not_elem_of_cons.
  rewrite decide_False by done. auto.
Qed.

Lemma bt_get_omap {D V} (g : string → D → option V) (l : list (string * D)) k :
  NoDup l.*1 →
  bt_get k (omap (λ '(i, d), (i,.) <$> g i d) l) = bt_get k l ≫= g k.
Proof.
  induction l as [|[i d] l IH]; simpl; [done|]. intros [Hi Hl]%NoDup_cons.
  destruct (decide (k = i)) as [->|Hk].
  - destruct (g i d) as [v|] eqn:E; simpl; [by rewrite decide_True|].
    specialize (IH Hl). rewrite (bt_get_None i l) in IH by done. by rewrite E.
  - destruct (g i d) as [v|]; simpl; [rewrite decide_False by done|]; auto.
Qed.

Lemma bt_get_map_to_list {V} (m : gmap string V) k : bt_get k (map_to_list m) = m !! k.
Proof.
  induction m as [|i v m Hi IH] using map_ind; [by rewrite map_to_list_empty|].
  assert (∀ l l' : list (string * V), NoDup l.*1 → l ≡ₚ l' → bt_get k l = bt_get k l') as Hp.
  { clear. intros l l' Hnd Hp. induction Hp as [|[i v] l l' _ IH|[i v] [j w] l|l l' l'' H1 IH1 H2 IH2];
      simpl in *; [done| | |].
    - apply NoDup_cons in Hnd as [_ Hnd]. case_decide; auto.
    - apply NoDup_cons in Hnd as [Hij _]. repeat case_decide; subst; try done. set_solver.
    - rewrite IH1 by done. apply IH2. by rewrite <- H1. }
  rewrite (Hp _ _ (NoDup_fst_map_to_list _) (map_to_list_insert m i v Hi)). simpl.
  case_decide; subst; [by rewrite lookup_insert_eq|]. by rewrite lookup_insert_ne.
Qed.
