(* ===== verification/Proto.v ===== *)
(** * The wire vocabulary

    The messages of [proto-common] and [toolset-proto] the components
    exchange, as the generated Rust types have them: a [oneof] is an [option]
    of an inductive type, an enum field is its [i32], read back by
    [try_from]. The constructors [text_block], [image_block] and the text
    reader [content_text] are those of [crates/proto-common/src/lib.rs]. *)

From S2P Require Import Prelude Text.

(** ** Content, messages, tool calls *)

Inductive Block : Type :=
| BText (text : string)
| BImage (media_type : string) (data : bytes)
| BThinking (text : string)
| BFile (filename mime_type : string) (size : N).

Record ContentBlock : Type := mkContentBlock { cb_block : option Block }.

Record ToolCall : Type := mkToolCall {
  tc_id : string; tc_name : string; tc_input_json : string }.

Record Message : Type := mkMessage {
  msg_role : string;
  msg_content : list ContentBlock;
  msg_tool_calls : list ToolCall;
  msg_tool_call_id : option string;
  msg_is_error : option bool }.

Record ToolDefinition : Type := mkToolDefinition {
  td_name : string; td_description : string; td_parameters_json : string }.

Record ToolInfo : Type := mkToolInfo {
  ti_name : string; ti_description : string; ti_parameters_json : string;
  ti_toolset : string }.

Record CallToolResponse : Type := mkCallToolResponse {
  ctr_content : list ContentBlock; ctr_is_error : bool }.

Definition text_block (text : string) : ContentBlock :=
  mkContentBlock (Some (BText text)).
Definition image_block (media_type : string) (data : bytes) : ContentBlock :=
  mkContentBlock (Some (BImage media_type data)).
Definition file_block (filename mime_type : string) (size : N) : ContentBlock :=
  mkContentBlock (Some (BFile filename mime_type size)).
Definition text_content (s : string) : list ContentBlock := [text_block s].

(** The text parts, joined by newlines; other parts are skipped. *)
Definition content_text (parts : list ContentBlock) : string :=
  str_join (str_of [newline])
    (omap (λ b, match cb_block b with Some (BText t) => Some t | _ => None end) parts).

(** ** Enums *)

Inductive StopReason : Type := StopUnspecified | EndTurn | ToolUse | MaxTokens.
Inductive ToolOutcome : Type := OutcomeUnspecified | OutcomeDone | OutcomeFailed | OutcomeCanceled.
Inductive TurnState : Type := TsUnspecified | TsIdle | TsWorking | TsFailed | TsCancelled.

Definition stop_reason_i32 (r : StopReason) : Z :=
  match r with StopUnspecified => 0 | EndTurn => 1 | ToolUse => 2 | MaxTokens => 3 end.
Definition stop_reason_try_from (z : Z) : option StopReason :=
  match z with
  | 0 => Some StopUnspecified | 1 => Some EndTurn | 2 => Some ToolUse | 3 => Some MaxTokens
  | _ => None
  end%Z.

Definition tool_outcome_i32 (o : ToolOutcome) : Z :=
  match o with
  | OutcomeUnspecified => 0 | OutcomeDone => 1 | OutcomeFailed => 2 | OutcomeCanceled => 3
  end.
(** [ToolComplete::outcome()]: an unknown value reads as the default. *)
Definition tool_outcome_of (z : Z) : ToolOutcome :=
  match z with
  | 1 => OutcomeDone | 2 => OutcomeFailed | 3 => OutcomeCanceled | _ => OutcomeUnspecified
  end%Z.

Definition turn_state_i32 (s : TurnState) : Z :=
  match s with
  | TsUnspecified => 0 | TsIdle => 1 | TsWorking => 2 | TsFailed => 5 | TsCancelled => 6
  end.
Definition turn_state_try_from (z : Z) : option TurnState :=
  match z with
  | 0 => Some TsUnspecified | 1 => Some TsIdle | 2 => Some TsWorking
  | 5 => Some TsFailed | 6 => Some TsCancelled | _ => None
  end%Z.

(** ** Tool result frames *)

Inductive Frame : Type :=
| Stdout (s : string)
| Stderr (s : string)
| Image (media_type : string) (data : bytes)
| Complete (outcome : Z) (exit_code : Z).

(** [ToolResultFrame { frame: Option<Frame> }]. *)
Record ToolResultFrame : Type := mkFrame { tf_frame : option Frame }.

(** ** Turn events: what an inference stream carries *)

Inductive TurnEventKind : Type :=
| EvContentDelta (text : string)
| EvToolUseStart (id name : string)
| EvToolUseInput (partial_json : string)
| EvComplete (stop_reason : Z) (content : list ContentBlock) (tool_calls : list ToolCall)
| EvError (code : Z) (message : string)
| EvWarning (field reason : string).

Record TurnEvent : Type := mkTurnEvent { te_event : option TurnEventKind }.

(** ** Streamed items and channel-stream frames *)

Inductive Phase : Type :=
| PhStartText
| PhStartToolUse (name : string)
| PhDeltaText (text : string)
| PhDeltaToolInput (json : string)
| PhStop.

Record StreamItem : Type := mkStreamItem {
  si_event_id : string; si_item_id : string; si_conversation_id : string;
  si_parent_conversation_id : string; si_agent_name : string;
  si_phase : option Phase }.

Record TurnStateEvent : Type := mkTurnStateEvent {
  tse_state : Z; tse_conversation_id : string; tse_reason : string; tse_code : string;
  tse_agent_name : string; tse_system_prompt_sha256 : string }.

(** [TurnStateEvent { state, conversation_id, reason, code, ..Default::default() }]. *)
Definition turn_state_event (state : Z) (conversation_id reason code : string) : TurnStateEvent :=
  mkTurnStateEvent state conversation_id reason code "" "".

Record ServerRequest : Type := mkServerRequest {
  sr_request_id : string; sr_method : string; sr_params_json : string }.

Inductive Command : Type :=
| CmdAck (channel_stream_id : string)
| CmdSendMessage (content : list ContentBlock) (conversation_id : string)
| CmdTurnState (e : TurnStateEvent)
| CmdServerRequest (r : ServerRequest)
| CmdStreamItem (i : StreamItem)
| CmdHeartbeat.

Record ChannelStreamOutbound : Type := mkOutbound { out_command : option Command }.

Record UserMessage : Type := mkUserMessage {
  um_content : list ContentBlock; um_sender : string;
  um_reply_channel_stream : option string; um_conversation_id : string;
  um_grants : list (string * string) }.

(** [ClientResponseError]. *)
Record ClientResponseError : Type := mkClientResponseError {
  cre_code : Z; cre_message : string }.

Record ClientResponse : Type := mkClientResponse {
  cr_request_id : string; cr_result_json : string; cr_error : option ClientResponseError }.

#[export] Instance Block_eq_dec : EqDecision Block.
Proof. solve_decision. Defined.
#[export] Instance ContentBlock_eq_dec : EqDecision ContentBlock.
Proof. solve_decision. Defined.
#[export] Instance ToolCall_eq_dec : EqDecision ToolCall.
Proof. solve_decision. Defined.
#[export] Instance Message_eq_dec : EqDecision Message.
Proof. solve_decision. Defined.
#[export] Instance StopReason_eq_dec : EqDecision StopReason.
Proof. solve_decision. Defined.
#[export] Instance ToolOutcome_eq_dec : EqDecision ToolOutcome.
Proof. solve_decision. Defined.
#[export] Instance TurnState_eq_dec : EqDecision TurnState.
Proof. solve_decision. Defined.
#[export] Instance Frame_eq_dec : EqDecision Frame.
Proof. solve_decision. Defined.
#[export] Instance ToolResultFrame_eq_dec : EqDecision ToolResultFrame.
Proof. solve_decision. Defined.

#[export] Instance Block_countable : Countable Block.
Proof.
  apply (inj_countable'
    (λ b, match b with
          | BText t => inl (inl t) | BImage m d => inl (inr (m, d))
          | BThinking t => inr (inl t) | BFile f m n => inr (inr (f, m, n)) end)
    (λ x, match x with
          | inl (inl t) => BText t | inl (inr (m, d)) => BImage m d
          | inr (inl t) => BThinking t | inr (inr (f, m, n)) => BFile f m n end)).
  by intros [].
Defined.
#[export] Instance ContentBlock_countable : Countable ContentBlock.
Proof. apply (inj_countable' cb_block mkContentBlock). by intros []. Defined.
#[export] Instance ToolCall_countable : Countable ToolCall.
Proof.
  apply (inj_countable' (λ c, (tc_id c, tc_name c, tc_input_json c))
                        (λ '(i, n, j), mkToolCall i n j)). by intros [].
Defined.
#[export] Instance Message_countable : Countable Message.
Proof.
  apply (inj_countable'
    (λ m, (msg_role m, msg_content m, msg_tool_calls m, msg_tool_call_id m, msg_is_error m))
    (λ '(r, c, t, i, e), mkMessage r c t i e)). by intros [].
Defined.

Lemma stop_reason_roundtrip r : stop_reason_try_from (stop_reason_i32 r) = Some r.
Proof. by destruct r. Qed.

Lemma turn_state_roundtrip s : turn_state_try_from (turn_state_i32 s) = Some s.
Proof. by destruct s. Qed.

Lemma tool_outcome_roundtrip o : tool_outcome_of (tool_outcome_i32 o) = o.
Proof. by destruct o. Qed.

#[export] Hint Rewrite stop_reason_roundtrip turn_state_roundtrip tool_outcome_roundtrip : syco.
