(* ===== verification/Scrub.v ===== *)
(** * The secret scrubber

    Models [crates/shared/src/scrub.rs] ([ScrubEntry], [ScrubSet] with
    [from_env_var], [from_secrets], [apply], [is_empty]) and the log writer
    of [crates/inference-runtime/src/scrub_writer.rs]. The base64 and
    url-encoding crates, [serde_json], the process environment and the file
    system are parameters. *)

From S2P Require Import Prelude Text.

(** ** Definitions *)

Record ScrubEntry : Type := mkScrubEntry {
  se_name : string; se_env : option string; se_file : option string }.

Record ScrubSet : Type := mkScrubSet { replacements : list (string * string) }.

Definition scrub_empty_set : ScrubSet := mkScrubSet [].

(** [format!("[REDACTED:{name}]")]. *)
Definition redaction_tag (name : string) : string := "[REDACTED:" +:+ name +:+ "]".

Section scrub_set.
Context (base64_encode url_encode : string → string).

(** The replacements one [(name, value)] pair pushes. *)
Definition secret_replacements (secret : string * string) : list (string * string) :=
  let (name, value) := secret in
  let value := str_trim value in
  if str_is_empty value then [] else
  let tag := redaction_tag name in
  let b64 := base64_encode value in
  let url := url_encode value in
  [(value, tag)]
  ++ (if decide (b64 = value) then [] else [(b64, tag)])
  ++ (if decide (url = value) then [] else [(url, tag)]).

(** [a.0.len() >= b.0.len()]: the order the stable sort establishes. *)
Definition longer_first (a b : string * string) : bool :=
  length (B b.1) <=? length (B a.1).

Definition from_secrets (secrets : list (string * string)) : ScrubSet :=
  mkScrubSet (sort_by longer_first (secrets ≫= secret_replacements)).

(** [std::env::var] (None when unset or not UTF-8), [fs::read_to_string] and
    [serde_json::from_str::<Vec<ScrubEntry>>]. *)
Context (env_var read_file : string → option string).
Context (parse_entries : string → option (list ScrubEntry)).

Definition entry_secret (e : ScrubEntry) : option (string * string) :=
  match se_env e, se_file e with
  | Some env_name, _ => Some (se_name e, default "" (env_var env_name))
  | None, Some file_path => Some (se_name e, default "" (read_file file_path))
  | None, None => None
  end.

Definition from_env_var (env_var_name : string) : ScrubSet :=
  match env_var env_var_name with
  | None => scrub_empty_set
  | Some json =>
      if str_is_empty json then scrub_empty_set else
      match parse_entries json with
      | None => scrub_empty_set
      | Some entries => from_secrets (omap entry_secret entries)
      end
  end.
End scrub_set.

Definition scrub_apply (set : ScrubSet) (input : string) : string :=
  foldl (λ result pr, str_replace pr.1 pr.2 result) input (replacements set).

Definition scrub_is_empty (set : ScrubSet) : bool :=
  match replacements set with [] => true | _ => false end.

(** [ScrubWriter::write]: what reaches the inner writer, given its
    [write] and [write_all]; the answer counts the consumed input bytes. *)
Section scrub_writer.
Context {W E : Type} (inner_write : W → bytes → W * result nat E)
  (inner_write_all : W → bytes → W * result unit E).

Definition scrub_write (set : ScrubSet) (w : W) (buf : bytes) : W * result nat E :=
  if scrub_is_empty set then inner_write w buf else
  let raw := if utf8_valid buf then str_of buf else "" in
  let scrubbed := scrub_apply set raw in
  match inner_write_all w (B scrubbed) with
  | (w', Ok _) => (w', Ok (length buf))
  | (w', Err e) => (w', Err e)
  end.
End scrub_writer.

(** ** What makes a set safe

    A redaction tag is opaque to the set's patterns when no pattern touches a
    bracket and none occurs inside a tag: then a replacement can neither
    create nor split an occurrence. *)

Definition lbracket : ascii := "["%char.
Definition rbracket : ascii := "]"%char.

Definition opaque_to (p t : string) : bool :=
  negb (str_is_empty p)
  && negb (str_contains_char lbracket p) && negb (str_contains_char rbracket p)
  && negb (contains (B p) (B t)).

Definition tags_opaque (set : ScrubSet) : bool :=
  forallb (λ p, forallb (λ t, opaque_to p.1 t.2) (replacements set)) (replacements set).

Definition bracketed (t : string) : Prop :=
  ∃ mid, B t = lbracket :: mid ++ [rbracket].

(** ** Lemmas *)

Lemma redaction_tag_bracketed name : bracketed (redaction_tag name).
Proof.
  exists (B "REDACTED:" ++ B name). unfold redaction_tag.
  by rewrite !B_app, <- app_assoc.
Qed.

Lemma secret_replacements_tag b64 url secret p t :
  (p, t) ∈ secret_replacements b64 url secret → t = redaction_tag secret.1.
Proof.
  destruct secret as [name value]. unfold secret_replacements.
  repeat case_match; set_solver.
Qed.

Lemma from_secrets_elem b64 url secrets pr :
  pr ∈ replacements (from_secrets b64 url secrets) ↔
  ∃ s, s ∈ secrets ∧ pr ∈ secret_replacements b64 url s.
Proof.
  unfold from_secrets; simpl.
  rewrite sort_by_perm, list_elem_of_bind. naive_solver.
Qed.

Lemma from_secrets_bracketed b64 url secrets p t :
  (p, t) ∈ replacements (from_secrets b64 url secrets) → bracketed t.
Proof.
  intros (s & _ & Hs)%from_secrets_elem. apply secret_replacements_tag in Hs as ->.
  apply redaction_tag_bracketed.
Qed.

Lemma sub_app_cons {A} (c : A) (p x y : list A) :
  c ∉ p → sub p (x ++ c :: y) → sub p x ∨ sub p y.
Proof.
  intros Hc (l & r & H). apply app_eq_inv in H as [(k & -> & H)|(k & -> & H)].
  - apply app_eq_inv in H as [(k' & -> & H)|(k' & -> & H)].
    + destruct k' as [|c' k']; simplify_eq/=; [|set_solver].
      left. exists l, []. by rewrite !app_nil_r.
    + left. by exists l, k'.
  - destruct k as [|c' k]; simplify_eq/=.
    + destruct p as [|c' p]; simplify_eq/=; [|set_solver]. left. exists x, []. by rewrite !app_nil_r.
    + right. by exists k, r.
Qed.

Lemma opaque_to_spec p t :
  opaque_to p t = true ↔
  B p ≠ [] ∧ (lbracket ∉ B p) ∧ (rbracket ∉ B p) ∧ ¬ sub (B p) (B t).
Proof.
  unfold opaque_to, str_is_empty, str_contains_char.
  rewrite !andb_true_iff, !negb_true_iff, !bool_decide_eq_false, B_nil.
  rewrite <- contains_spec. destruct (contains (B p) (B t)); naive_solver.
Qed.

(** Around a bracketed block [t] that [p] does not occur in, [p] occurs only
    on one side of it. *)
Lemma sub_around_bracketed (p t x y : bytes) :
  lbracket ∉ p → rbracket ∉ p → ¬ sub p t →
  (∃ mid, t = lbracket :: mid ++ [rbracket]) →
  sub p (x ++ t ++ y) → sub p x ∨ sub p y.
Proof.
  intros Hl Hr Ht [mid ->] H.
  replace (x ++ (lbracket :: mid ++ [rbracket]) ++ y)
    with (x ++ lbracket :: (mid ++ rbracket :: y)) in H
    by (simpl; by rewrite <- app_assoc).
  apply sub_app_cons in H as [?|H]; [by left| |done].
  apply sub_app_cons in H as [H|?]; [|by right|done].
  destruct Ht. by apply (sub_app_r p [lbracket]), sub_app_l.
Qed.

(** What a replacement by an opaque tag leaves: no pattern it opens on its
    own, and no occurrence of its own pattern. *)
Lemma str_replace_opaque p t q s :
  B p ≠ [] → bracketed t → opaque_to q t = true →
  sub (B q) (B (str_replace p t s)) → sub (B q) (B s) ∧ q ≠ p.
Proof.
  intros Hp Ht (Hq & Hl & Hr & Hqt)%opaque_to_spec.
  unfold str_replace, replace_bytes. rewrite B_str_of.
  destruct (B p) as [|a pat] eqn:Ep; [done|].
  destruct (replace_go_pieces (a :: pat) (B t) (B s)) as (ps & Hne & Hs & -> & Hf); [done|].
  intros Hsub. enough (∃ piece, piece ∈ ps ∧ sub (B q) piece) as (piece & Hin & Hq').
  { split.
    - rewrite Hs. eapply sub_trans; [done|]. by apply sub_join.
    - intros ->. rewrite Ep in Hq'. eapply Forall_forall in Hf; [|done]. done. }
  clear Hs Hf. induction ps as [|x ps IH]; [done|]. destruct ps as [|x' ps].
  { exists x. set_solver. }
  rewrite join_cons in Hsub by done.
  apply sub_around_bracketed in Hsub as [Hx|Hx]; try done.
  - exists x. set_solver.
  - destruct IH as (piece & ? & ?); [done..|]. exists piece. set_solver.
Qed.

Lemma scrub_fold_opaque (rs : list (string * string)) q s :
  Forall (λ pr, B pr.1 ≠ [] ∧ bracketed pr.2 ∧ opaque_to q pr.2 = true) rs →
  sub (B q) (B (foldl (λ result pr, str_replace pr.1 pr.2 result) s rs)) →
  sub (B q) (B s) ∧ q ∉ rs.*1.
Proof.
  revert s. induction rs as [|[p t] rs IH]; simpl; intros s Hf Hq; [set_solver|].
  inversion Hf as [|? ? (Hp & Ht & Ho) Hf']; subst; simpl in *.
  apply IH in Hq as [Hq Hrs]; [|done].
  apply str_replace_opaque in Hq as [Hq Hne]; [|done..]. set_solver.
Qed.

Lemma str_replace_absent p t s :
  B p ≠ [] → ¬ sub (B p) (B s) → str_replace p t s = s.
Proof.
  intros Hp Hs. unfold str_replace, replace_bytes.
  destruct (B p) as [|a pat]; [done|].
  destruct (replace_go_pieces (a :: pat) (B t) (B s)) as (ps & Hne & Hj & -> & Hf); [done|].
  destruct ps as [|x [|x' ps]]; [done| |].
  - simpl in *. by rewrite <- Hj, str_of_B.
  - destruct Hs. rewrite Hj, join_cons by done. apply sub_app_r, sub_app_l, sub_refl.
Qed.

Lemma longer_first_total a b : longer_first a b = false → longer_first b a = true.
Proof. unfold longer_first. rewrite Nat.leb_gt, Nat.leb_le. lia. Qed.

Lemma longer_first_trans a b c :
  longer_first a b = true → longer_first b c = true → longer_first a c = true.
Proof. unfold longer_first. rewrite !Nat.leb_le. lia. Qed.

Lemma tags_opaque_spec set p t p' t' :
  tags_opaque set = true →
  (p, t) ∈ replacements set → (p', t') ∈ replacements set → opaque_to p t' = true.
Proof.
  unfold tags_opaque. rewrite List.forallb_forall.
  intros H Hp%list_elem_of_In Ht%list_elem_of_In.
  specialize (H _ Hp). simpl in H. rewrite List.forallb_forall in H.
  by specialize (H _ Ht).
Qed.

Lemma secret_replacements_variants b64 url name value :
  str_trim value ≠ "" →
  ∀ v, v ∈ [str_trim value; b64 (str_trim value); url (str_trim value)] →
  (v, redaction_tag name) ∈ secret_replacements b64 url (name, value).
Proof.
  intros Hne v Hv. unfold secret_replacements, str_is_empty.
  rewrite bool_decide_eq_false_2 by done.
  rewrite !elem_of_cons, elem_of_nil in Hv. rewrite !elem_of_app, list_elem_of_singleton.
  destruct Hv as [->|[->|[->|[]]]].
  - by left.
  - destruct (decide (b64 (str_trim value) = str_trim value)) as [E|E];
      [left; by rewrite E | right; left; by apply list_elem_of_singleton].
  - destruct (decide (url (str_trim value) = str_trim value)) as [E|E];
      [left; by rewrite E | right; right; by apply list_elem_of_singleton].
Qed.

Lemma scrub_no_variant b64 url secrets name value v input :
  let set := from_secrets b64 url secrets in
  tags_opaque set = true →
  (name, value) ∈ secrets → str_trim value ≠ "" →
  v ∈ [str_trim value; b64 (str_trim value); url (str_trim value)] →
  ¬ sub (B v) (B (scrub_apply set input)).
Proof.
  intros set Ho Hs Hne Hv Hsub.
  assert ((v, redaction_tag name) ∈ replacements set) as Hin.
  { apply from_secrets_elem. exists (name, value). split; [done|].
    by apply secret_replacements_variants. }
  apply scrub_fold_opaque in Hsub as [_ Hni].
  - apply Hni, list_elem_of_fmap. by exists (v, redaction_tag name).
  - apply Forall_forall. intros [p t] Hpt. simpl. split_and!.
    + eapply tags_opaque_spec in Ho; [|exact Hpt|exact Hpt].
      by apply opaque_to_spec in Ho as [? _].
    + by eapply from_secrets_bracketed.
    + eapply tags_opaque_spec; [done|exact Hin|exact Hpt].
Qed.

(** ** Theorems *)

(** Scrubbed output carries no secret: for every registered secret with a
    non-empty trimmed value, neither that value nor its base64 nor its
    url-encoded form occurs anywhere in what [apply] returns, whatever the
    input, as long as the redaction tags are opaque to the patterns. *)
Theorem scrub_apply_redacts b64 url secrets name value v input :
  let set := from_secrets b64 url secrets in
  tags_opaque set = true →
  (name, value) ∈ secrets → str_trim value ≠ "" →
  v ∈ [str_trim value; b64 (str_trim value); url (str_trim value)] →
  ¬ sub (B v) (B (scrub_apply set input)).
Proof. apply scrub_no_variant. Qed.

(** The witness: one secret, in a text that carries it raw. *)
Lemma scrub_apply_redacts_witness :
  ¬ sub (B "hunter2") (B (scrub_apply (from_secrets (λ s, s +:+ "=") (λ s, s)
        [("db", " hunter2 ")]) "pw: hunter2!")).
Proof.
  apply (scrub_apply_redacts (λ s, s +:+ "=") (λ s, s) [("db", " hunter2 ")]
           "db" " hunter2 " "hunter2" "pw: hunter2!"); [done| |done|]; set_solver.
Defined.

(** A text in which no registered pattern occurs passes through [apply]
    unchanged: scrubbing never damages clean output. *)
Theorem scrub_apply_clean set input :
  Forall (λ pr, pr.1 ≠ "" ∧ ¬ sub (B pr.1) (B input)) (replacements set) →
  scrub_apply set input = input.
Proof.
  unfold scrub_apply. induction 1 as [|[p t] rs [Hne Hp] _ IH]; simpl; [done|].
  rewrite str_replace_absent; [done| |done]. by rewrite B_nil.
Qed.

Lemma scrub_apply_clean_witness :
  scrub_apply (mkScrubSet [("k1", "[REDACTED:a]")]) "nothing here" = "nothing here".
Proof. apply scrub_apply_clean. by_compute. Defined.

(** The replacements run longest pattern first, and are exactly those of
    the secrets: a secret that contains another one is redacted whole before
    the shorter one can cut it. *)
Theorem from_secrets_longest_first b64 url secrets :
  let rs := replacements (from_secrets b64 url secrets) in
  StronglySorted (λ a b, length (B b.1) ≤ length (B a.1)) rs
  ∧ rs ≡ₚ secrets ≫= secret_replacements b64 url.
Proof.
  simpl. split; [|apply sort_by_perm].
  assert (∀ l, StronglySorted (λ a b, longer_first a b = true) l →
               StronglySorted (λ a b, length (B b.1) ≤ length (B a.1)) l) as Himp.
  { induction 1; constructor; [done|]. eapply Forall_impl; [done|].
    intros. by apply Nat.leb_le. }
  apply Himp, sort_by_sorted; [apply longer_first_total | apply longer_first_trans].
Qed.
