(* ===== verification/Inference.v ===== *)
(** * The inference job: provider events to scrubbed turn events

    Models the event helpers of [crates/model-provider/src/lib.rs]
    ([collect_tool_calls], [collect_text], [stream_event_to_turn_event],
    [assemble_turn_complete], [error_turn_event]) and the drain loop of
    [crates/inference-runtime/src/server.rs] ([scrub_turn_event],
    [scrub_turn_complete], [run_model_call]). The provider call itself is the
    list of what the [select!] resolves to. *)

From S2P Require Import Prelude Text Proto Scrub.

(** ** Definitions *)

Inductive StreamEvent : Type :=
| SeContentDelta (text : string)
| SeThinkingDelta (text : string)
| SeToolUseStart (id name : string)
| SeToolUseInput (json : string)
| SeDone (stop_reason : string)
| SeWarning (field reason : string).

(** [tool_calls.last_mut()]: update the last element, if any. *)
Fixpoint update_last {A} (f : A → A) (l : list A) : list A :=
  match l with
  | [] => []
  | [x] => [f x]
  | x :: l => x :: update_last f l
  end.

Definition push_input (json : string) (tc : ToolCall) : ToolCall :=
  mkToolCall (tc_id tc) (tc_name tc) (tc_input_json tc +:+ json).

Definition normalize_input (tc : ToolCall) : ToolCall :=
  if str_is_empty (tc_input_json tc)
  then mkToolCall (tc_id tc) (tc_name tc) "{}" else tc.

Definition collect_step (tool_calls : list ToolCall) (event : StreamEvent) : list ToolCall :=
  match event with
  | SeToolUseStart id name => tool_calls ++ [mkToolCall id name ""]
  | SeToolUseInput json => update_last (push_input json) tool_calls
  | SeDone _ => normalize_input <$> tool_calls
  | SeContentDelta _ | SeThinkingDelta _ | SeWarning _ _ => tool_calls
  end.

Definition collect_tool_calls (events : list StreamEvent) : list ToolCall :=
  foldl collect_step [] events.

Definition collect_text (events : list StreamEvent) : option string :=
  let text := foldl (λ acc e, match e with SeContentDelta t => acc +:+ t | _ => acc end)
                    "" events in
  if str_is_empty text then None else Some text.

Definition stream_event_to_turn_event (event : StreamEvent) : option TurnEvent :=
  match event with
  | SeContentDelta text => Some (mkTurnEvent (Some (EvContentDelta text)))
  | SeToolUseStart id name => Some (mkTurnEvent (Some (EvToolUseStart id name)))
  | SeToolUseInput json => Some (mkTurnEvent (Some (EvToolUseInput json)))
  | SeWarning field reason => Some (mkTurnEvent (Some (EvWarning field reason)))
  | SeThinkingDelta _ | SeDone _ => None
  end.

Definition stop_of (stop_reason : string) : StopReason :=
  if decide (stop_reason = "end_turn") then EndTurn
  else if decide (stop_reason = "tool_use") then ToolUse
  else if decide (stop_reason = "max_tokens") then MaxTokens
  else EndTurn.

Definition assemble_turn_complete (events : list StreamEvent) (stop_reason : string) : TurnEvent :=
  let content := match collect_text events with
                 | Some text => [text_block text]
                 | None => []
                 end in
  mkTurnEvent (Some (EvComplete (stop_reason_i32 (stop_of stop_reason)) content
                                (collect_tool_calls events))).

Definition error_turn_event (message : string) : TurnEvent :=
  mkTurnEvent (Some (EvError 0 message)).

(** Scrubbing, field by field. *)
Definition scrub_block (set : ScrubSet) (b : ContentBlock) : ContentBlock :=
  match cb_block b with
  | Some (BText t) => mkContentBlock (Some (BText (scrub_apply set t)))
  | Some (BThinking t) => mkContentBlock (Some (BThinking (scrub_apply set t)))
  | _ => b
  end.

Definition scrub_call (set : ScrubSet) (c : ToolCall) : ToolCall :=
  mkToolCall (scrub_apply set (tc_id c)) (scrub_apply set (tc_name c))
             (scrub_apply set (tc_input_json c)).

Definition scrub_turn_event (set : ScrubSet) (event : TurnEvent) : TurnEvent :=
  mkTurnEvent
    ((λ e, match e with
           | EvContentDelta text => EvContentDelta (scrub_apply set text)
           | EvToolUseStart id name =>
               EvToolUseStart (scrub_apply set id) (scrub_apply set name)
           | EvToolUseInput json => EvToolUseInput (scrub_apply set json)
           | EvComplete r content calls =>
               EvComplete r (scrub_block set <$> content) (scrub_call set <$> calls)
           | EvError code message => EvError code (scrub_apply set message)
           | EvWarning field reason =>
               EvWarning (scrub_apply set field) (scrub_apply set reason)
           end) <$> te_event event).

(** What one iteration of the [select!] resolves to. Cancellation is polled
    first, so a fired token is [PollCancelled] whatever the stream holds. *)
Inductive poll : Type :=
| PollCancelled
| PollItem (item : result StreamEvent string)
| PollEnd.

Section run_model_call.
(** [recv_open n]: the receiver still exists when the [n]-th frame is sent. *)
Context (set : ScrubSet) (recv_open : nat → bool).

Definition send (out : list TurnEvent) (e : TurnEvent) : list TurnEvent * bool :=
  if recv_open (length out) then (out ++ [scrub_turn_event set e], true) else (out, false).

(** The loop. The boolean says whether it returned; [false] is a loop still
    waiting for the provider when the polls run out. *)
Fixpoint drain (polls : list poll) (events : list StreamEvent) (out : list TurnEvent)
  : list TurnEvent * bool :=
  match polls with
  | [] => (out, false)
  | PollCancelled :: _ => (out, true)
  | PollItem (Ok event) :: polls =>
      let events := events ++ [event] in
      match event with
      | SeDone stop_reason =>
          ((send out (assemble_turn_complete events stop_reason)).1, true)
      | _ =>
          match stream_event_to_turn_event event with
          | Some frame =>
              match send out frame with
              | (out, true) => drain polls events out
              | (out, false) => (out, true)
              end
          | None => drain polls events out
          end
      end
  | PollItem (Err e) :: _ =>
      ((send out (error_turn_event ("model stream error: " +:+ e))).1, true)
  | PollEnd :: _ =>
      ((send out (error_turn_event "model stream ended without completion")).1, true)
  end.

(** [provider.call(..)] either opens the stream or fails. *)
Definition run_model_call (opened : result (list poll) string) : list TurnEvent * bool :=
  match opened with
  | Err e => ((send [] (error_turn_event ("model call failed: " +:+ e))).1, true)
  | Ok polls => drain polls [] []
  end.
End run_model_call.

(** Every string an event exposes to the harness. *)
Definition block_texts (b : ContentBlock) : list string :=
  match cb_block b with
  | Some (BText t) | Some (BThinking t) => [t]
  | Some (BImage m _) => [m]
  | Some (BFile f m _) => [f; m]
  | None => []
  end.

Definition event_texts (e : TurnEvent) : list string :=
  match te_event e with
  | None => []
  | Some (EvContentDelta t) => [t]
  | Some (EvToolUseStart id name) => [id; name]
  | Some (EvToolUseInput j) => [j]
  | Some (EvComplete _ content calls) =>
      (content ≫= block_texts)
      ++ (calls ≫= λ c, [tc_id c; tc_name c; tc_input_json c])
  | Some (EvError _ m) => [m]
  | Some (EvWarning f r) => [f; r]
  end.

Definition is_terminal_event (e : TurnEvent) : bool :=
  match te_event e with Some (EvComplete _ _ _) | Some (EvError _ _) => true | _ => false end.

(** The concatenated text of the deltas, as a client renders it. *)
Definition delta_text (es : list TurnEvent) : string :=
  foldl (λ acc e, match te_event e with
                  | Some (EvContentDelta t) => acc +:+ t
                  | _ => acc
                  end) "" es.

(** Content the harness receives from a model call is text only. *)
Definition text_only (e : TurnEvent) : Prop :=
  match te_event e with
  | Some (EvComplete _ content _) => Forall (λ b, ∃ t, b = text_block t) content
  | _ => True
  end.

(** ** Lemmas *)

Lemma scrub_event_texts set e :
  text_only e →
  ∀ t, t ∈ event_texts (scrub_turn_event set e) → ∃ t', t = scrub_apply set t'.
Proof.
  destruct e as [[e|]]; [|set_solver]. unfold event_texts, text_only; simpl.
  destruct e; simpl; intros Hc t Ht.
  all: try (rewrite !elem_of_cons, elem_of_nil in Ht; naive_solver).
  apply elem_of_app in Ht as [Ht|Ht]; apply list_elem_of_bind in Ht as (x & Hx & Ht);
    apply list_elem_of_fmap in Ht as (y & -> & Hy).
  - rewrite Forall_forall in Hc. destruct (Hc _ Hy) as [t' ->].
    unfold block_texts in Hx; simpl in Hx. set_solver.
  - simpl in Hx. rewrite !elem_of_cons, elem_of_nil in Hx. naive_solver.
Qed.

Lemma assemble_text_only events r : text_only (assemble_turn_complete events r).
Proof.
  unfold assemble_turn_complete, text_only; simpl.
  destruct (collect_text events); repeat constructor. eauto.
Qed.

Lemma forwarded_text_only ev f :
  stream_event_to_turn_event ev = Some f → text_only f ∧ is_terminal_event f = false.
Proof. destruct ev; simpl; intros [= <-]; done. Qed.

Lemma scrub_terminal set e : is_terminal_event (scrub_turn_event set e) = is_terminal_event e.
Proof. by destruct e as [[[]|]]. Qed.

(** The shape of a run: what is already out, then scrubbed non-terminal
    frames, then at most one scrubbed terminal. *)
Inductive run_shape (set : ScrubSet) (out : list TurnEvent) : list TurnEvent → Prop :=
| run_shape_intro mid last :
    Forall (λ e, text_only e ∧ is_terminal_event e = false) mid →
    Forall (λ e, text_only e ∧ is_terminal_event e = true) last →
    length last ≤ 1 →
    run_shape set out (out ++ (scrub_turn_event set <$> mid ++ last)).

Lemma run_shape_refl set out : run_shape set out out.
Proof.
  rewrite <- (app_nil_r out) at 2. by apply (run_shape_intro set out [] []); simpl; try lia.
Qed.

Lemma run_shape_last set recv_open out e :
  text_only e → is_terminal_event e = true →
  run_shape set out (send set recv_open out e).1.
Proof.
  intros He Ht. unfold send. case_match; simpl; [|apply run_shape_refl].
  apply (run_shape_intro set out [] [e]); simpl; auto.
Qed.

Lemma run_shape_step set out f r :
  text_only f → is_terminal_event f = false →
  run_shape set (out ++ [scrub_turn_event set f]) r → run_shape set out r.
Proof.
  intros Hf Ht [mid last Hm Hl Hn]. rewrite <- app_assoc.
  apply (run_shape_intro set out (f :: mid) last); auto.
Qed.

Lemma drain_shape set recv_open polls events out :
  run_shape set out (drain set recv_open polls events out).1.
Proof.
  revert events out. induction polls as [|p polls IH]; intros events out.
  { apply run_shape_refl. }
  destruct p as [|[ev|e]|]; simpl; try (apply run_shape_refl); try by apply run_shape_last.
  destruct ev; simpl; try (apply IH);
    try (apply run_shape_last; [apply assemble_text_only|done]).
  all: unfold send; destruct (recv_open (length out)); simpl; [|apply run_shape_refl];
    (eapply run_shape_step; [..|apply IH]; done).
Qed.

Lemma run_model_call_shape set recv_open opened :
  run_shape set [] (run_model_call set recv_open opened).1.
Proof. destruct opened; simpl; [apply drain_shape | by apply run_shape_last]. Qed.

(** ** Theorems *)

(** No text of a call's frames holds a form of a registered secret. *)
Lemma run_model_call_redacted b64 url secrets name value v recv_open opened :
  let set := from_secrets b64 url secrets in
  tags_opaque set = true → (name, value) ∈ secrets → str_trim value ≠ "" →
  v ∈ [str_trim value; b64 (str_trim value); url (str_trim value)] →
  Forall (λ e, Forall (λ t, ¬ sub (B v) (B t)) (event_texts e))
         (run_model_call set recv_open opened).1.
Proof.
  intros set Ho Hs Hne Hv. destruct (run_model_call_shape set recv_open opened)
    as [mid last Hm Hl _].
  apply Forall_forall. intros e He. apply list_elem_of_fmap in He as (e' & -> & He').
  apply Forall_forall. intros t Ht. apply scrub_event_texts in Ht as [t' ->].
  - by eapply scrub_no_variant.
  - rewrite Forall_forall in Hm, Hl. apply elem_of_app in He' as [?|?]; naive_solver.
Qed.

(** Every frame an inference job puts on the wire is scrubbed: no string
    field of any event of a run contains a registered secret, raw, base64 or
    url-encoded. *)
Theorem inference_frames_redacted b64 url secrets name value v recv_open opened :
  let set := from_secrets b64 url secrets in
  tags_opaque set = true → (name, value) ∈ secrets → str_trim value ≠ "" →
  v ∈ [str_trim value; b64 (str_trim value); url (str_trim value)] →
  Forall (λ e, Forall (λ t, ¬ sub (B v) (B t)) (event_texts e))
         (run_model_call set recv_open opened).1.
Proof. apply run_model_call_redacted. Qed.

(** A run ends on at most one terminal frame ([TurnComplete] or
    [TurnError]), and nothing follows it. *)
Theorem inference_single_terminal set recv_open opened :
  ∃ mid last, (run_model_call set recv_open opened).1 = mid ++ last ∧
    Forall (λ e, is_terminal_event e = false) mid ∧
    Forall (λ e, is_terminal_event e = true) last ∧ length last ≤ 1.
Proof.
  destruct (run_model_call_shape set recv_open opened) as [mid last Hm Hl Hn].
  exists (scrub_turn_event set <$> mid), (scrub_turn_event set <$> last).
  rewrite fmap_app, length_fmap. split_and!; [done| |  |done];
    rewrite Forall_fmap; eapply Forall_impl; try done;
    intros e [_ He]; simpl; by rewrite scrub_terminal.
Qed.

(** Scrubbing is per frame, so a secret the model emits across two
    deltas reaches the harness: each frame is clean, their concatenation
    is not. *)
Theorem inference_split_secret_leaks :
  ∃ secrets polls v,
    let set := from_secrets (λ s, s +:+ "=") (λ s, s) secrets in
    let out := (run_model_call set (λ _, true) (Ok polls)).1 in
    tags_opaque set = true ∧ ("key", v) ∈ secrets ∧ str_trim v = v ∧
    sub (B v) (B (delta_text out)).
Proof.
  exists [("key", "hunter2")],
    [PollItem (Ok (SeContentDelta "hun")); PollItem (Ok (SeContentDelta "ter2"))], "hunter2".
  split_and!; [done|set_solver|done|by_compute].
Qed.

Lemma collect_tool_calls_snoc events e :
  collect_tool_calls (events ++ [e]) = collect_step (collect_tool_calls events) e.
Proof. unfold collect_tool_calls. by rewrite foldl_snoc. Qed.

(** The input fragments up to the next tool call, and the calls of a stream
    with the fragments that follow each. *)
Fixpoint fragments (events : list StreamEvent) : string :=
  match events with
  | [] | SeToolUseStart _ _ :: _ => ""
  | SeToolUseInput json :: events => json +:+ fragments events
  | _ :: events => fragments events
  end.

Fixpoint calls_of (events : list StreamEvent) : list ToolCall :=
  match events with
  | [] => []
  | SeToolUseStart id name :: events => mkToolCall id name (fragments events) :: calls_of events
  | _ :: events => calls_of events
  end.

Definition is_done (e : StreamEvent) : bool := match e with SeDone _ => true | _ => false end.

Lemma update_last_snoc {A} (f : A → A) l x : update_last f (l ++ [x]) = l ++ [f x].
Proof.
  induction l as [|y l IH]; [done|]. destruct (l ++ [x]) eqn:E; [by destruct l|].
  simpl. rewrite E. rewrite <- E, <- IH, E. done.
Qed.

Lemma update_last_push j k l :
  update_last (push_input k) (update_last (push_input j) l) = update_last (push_input (j +:+ k)) l.
Proof.
  induction l as [|c l _] using rev_ind; [done|]. rewrite !update_last_snoc. unfold push_input. simpl.
  by rewrite string_app_assoc.
Qed.

Lemma push_input_nil c : push_input "" c = c.
Proof. destruct c. unfold push_input. simpl. by rewrite string_app_empty_r. Qed.

Lemma update_last_id l : update_last (push_input "") l = l.
Proof.
  induction l as [|c l _] using rev_ind; [done|]. by rewrite update_last_snoc, push_input_nil.
Qed.

Lemma collect_fold events acc :
  Forall (λ e, is_done e = false) events →
  foldl collect_step acc events = update_last (push_input (fragments events)) acc ++ calls_of events.
Proof.
  intros Hd. revert acc. induction Hd as [|e events He Hd IH]; intros acc; simpl.
  - by rewrite update_last_id, app_nil_r.
  - rewrite IH. destruct e; simpl; try done.
    + by rewrite update_last_snoc, update_last_id, <- app_assoc.
    + by rewrite update_last_push.
Qed.

(** The tool calls of a completed turn: one per [ToolUseStart], in order,
    each with its id, its name and the input fragments streamed between it and
    the next one; a call without input gets [{}]. Fragments before the first
    start are dropped, text, thinking and warnings in between do not matter. *)
Theorem collect_tool_calls_complete events stop_reason :
  Forall (λ e, is_done e = false) events →
  collect_tool_calls (events ++ [SeDone stop_reason]) = normalize_input <$> calls_of events.
Proof.
  intros Hd. rewrite collect_tool_calls_snoc. simpl. unfold collect_tool_calls.
  by rewrite collect_fold.
Qed.

Lemma collect_tool_calls_complete_witness :
  collect_tool_calls ([SeToolUseStart "a" "ls"; SeToolUseStart "b" "read"; SeToolUseInput "[1,";
                       SeContentDelta "hm"; SeToolUseInput "2]"] ++ [SeDone "tool_use"])
  = normalize_input <$> [mkToolCall "a" "ls" ""; mkToolCall "b" "read" "[1,2]"].
Proof. apply collect_tool_calls_complete. repeat constructor. Defined.

Lemma inference_frames_redacted_witness :
  Forall (λ e, Forall (λ t, ¬ sub (B "hunter2") (B t)) (event_texts e))
    (run_model_call (from_secrets (λ s, s +:+ "=") (λ s, s) [("key", "hunter2")]) (λ _, true)
       (Ok [PollItem (Ok (SeContentDelta "hunter2")); PollItem (Ok (SeDone "end_turn"))])).1.
Proof.
  apply (inference_frames_redacted (λ s, s +:+ "=") (λ s, s) [("key", "hunter2")]
           "key" "hunter2"); [done|set_solver|done|set_solver].
Defined.
