(* ===== verification/Auth.v ===== *)
(** * Authentication and identity parsing

    Models [crates/shared/src/auth.rs]: the reviews it builds, the decision on
    a completed [TokenReview], and the ServiceAccount-name grammar; and
    [channel_from_service_account] of the gateway. The Kubernetes apiserver
    is the function that answers a review. *)

From S2P Require Import Prelude Text.

(** ** Definitions *)

Record TokenReviewStatus : Type := mkTokenReviewStatus {
  trs_authenticated : option bool;
  trs_audiences : option (list string);
  (** [status.user.username]: the user object, then its name *)
  trs_user : option (option string) }.

Record TokenReview : Type := mkTokenReview {
  tr_token : option string;
  tr_audiences : option (list string);
  tr_status : option TokenReviewStatus }.

Definition build_token_review (token : string) (audience : option string) : TokenReview :=
  mkTokenReview (Some token) ((λ a, [a]) <$> audience) None.

Definition permission_denied (m : string) : Status := mkStatus PermissionDenied m.
Definition internal (m : string) : Status := mkStatus Internal m.
Definition invalid_argument (m : string) : Status := mkStatus InvalidArgument m.
Definition not_found (m : string) : Status := mkStatus NotFound m.
Definition unavailable (m : string) : Status := mkStatus Unavailable m.
Definition failed_precondition (m : string) : Status := mkStatus FailedPrecondition m.

Definition username_from_review (review : TokenReview) (expected_audience : option string)
  : result string Status :=
  let? status := ok_or (tr_status review) (internal "no TokenReview status") in
  if negb (default false (trs_authenticated status))
  then Err (permission_denied "invalid token") else
  let? _ := match expected_audience with
            | None => Ok tt
            | Some expected =>
                let audience_ok := match trs_audiences status with
                                   | Some auds => bool_decide (expected ∈ auds)
                                   | None => false
                                   end in
                if audience_ok then Ok tt
                else Err (permission_denied "audience echo mismatch")
            end in
  let? username := ok_or (trs_user status ≫= id) (internal "no username in TokenReview") in
  if str_is_empty username
  then Err (permission_denied "authenticated token carries no username")
  else Ok username.

Definition SERVICEACCOUNT_USERNAME_PREFIX : string := "system:serviceaccount:".
Definition WORKSPACE_PREFIX : string := "ws-".
Definition UNPRIVILEGED_SA_SUFFIX : string := "-unprivileged".
Definition CHANNEL_RELAY_AUDIENCE : string := "channel.relay.sycophant.md".
Definition HARNESS_RELAY_AUDIENCE : string := "harness.relay.sycophant.md".
Definition CHANNEL_SA_NAME_PREFIX : string := "ch-".

Definition colon : ascii := ":"%char.

Definition serviceaccount_from_username (username : string) : option (string * string) :=
  rest ← str_strip_prefix SERVICEACCOUNT_USERNAME_PREFIX username;
  str_split_once colon rest.

Definition unprivileged_sa (workspace : string) : string :=
  WORKSPACE_PREFIX +:+ workspace +:+ UNPRIVILEGED_SA_SUFFIX.

Definition parse_workspace_from_sa (sa_name : string) : option string :=
  rest ← str_strip_prefix WORKSPACE_PREFIX sa_name;
  let workspace := default rest (str_strip_suffix UNPRIVILEGED_SA_SUFFIX rest) in
  if str_is_empty workspace then None else Some workspace.

Definition workspace_from_username (username : string) : result string Status :=
  let? sa_name := ok_or (snd <$> serviceaccount_from_username username)
                        (permission_denied "caller is not a ServiceAccount") in
  ok_or (parse_workspace_from_sa sa_name)
        (permission_denied ("ServiceAccount " +:+ sa_name +:+ " is not a workspace SA")).

(** The [authorization] metadata: [None] when absent, [Some None] when its
    value is not visible ASCII ([to_str] fails). *)
Definition extract_bearer_token (authorization : option (option string)) : result string Status :=
  let? value := ok_or authorization (permission_denied "missing authorization metadata") in
  let? value := ok_or value (permission_denied "invalid authorization encoding") in
  ok_or (str_strip_prefix "Bearer " value)
        (permission_denied "authorization must be Bearer token").

(** The attributes of the [SubjectAccessReview] the relay submits. *)
Record SubjectAccessReview : Type := mkSAR {
  sar_user : string; sar_verb : string; sar_group : string; sar_resource : string;
  sar_name : string; sar_namespace : string }.

Definition build_subject_access_review (subject workspace namespace : string)
  : SubjectAccessReview :=
  mkSAR subject "get" "" "services" (WORKSPACE_PREFIX +:+ workspace) namespace.

(** The apiserver: what it answers to the two reviews, or an API error. *)
Record KubeApi : Type := mkKubeApi {
  kube_token_review : TokenReview → result TokenReview string;
  kube_access_review : SubjectAccessReview → result (option bool) string }.

Definition review_token_username (client : KubeApi) (token : string) (audience : option string)
  : result string Status :=
  let? review := map_err (λ e, internal ("TokenReview API error: " +:+ e))
                   (kube_token_review client (build_token_review token audience)) in
  username_from_review review audience.

(** [K8sTokenVerifier::verify_token]. *)
Definition verify_token (client : KubeApi) (audience token : string) : result string Status :=
  let? username := review_token_username client token (Some audience) in
  workspace_from_username username.

Definition channel_from_service_account (username namespace : string) : option string :=
  '(ns, sa) ← serviceaccount_from_username username;
  sa ← (if decide (ns = namespace) then Some sa else None);
  channel ← str_strip_prefix CHANNEL_SA_NAME_PREFIX sa;
  if str_is_empty channel then None else Some channel.

(** The username the apiserver gives a ServiceAccount. *)
Definition sa_username (namespace name : string) : string :=
  SERVICEACCOUNT_USERNAME_PREFIX +:+ namespace +:+ ":" +:+ name.

(** ** Lemmas *)

Lemma serviceaccount_from_username_spec ns name username :
  serviceaccount_from_username username = Some (ns, name) ↔
  username = sa_username ns name ∧ colon ∉ B ns.
Proof.
  unfold serviceaccount_from_username, sa_username. rewrite bind_Some.
  setoid_rewrite str_strip_prefix_Some. setoid_rewrite str_split_once_Some. split.
  - intros (rest & -> & Hr & Hc). split; [|done]. f_equal.
    apply (inj B). by rewrite !B_app, Hr.
  - intros [-> Hc]. eexists. split; [done|]. split; [|done]. by rewrite !B_app.
Qed.

Lemma channel_from_service_account_spec username namespace channel :
  channel_from_service_account username namespace = Some channel ↔
  channel ≠ "" ∧ username = sa_username namespace ("ch-" +:+ channel) ∧ colon ∉ B namespace.
Proof.
  unfold channel_from_service_account. rewrite bind_Some. split.
  - intros ([ns sa] & Hs & H). apply serviceaccount_from_username_spec in Hs as [-> Hc].
    case_decide; [|done]. subst. simpl in H. apply bind_Some in H as (ch & Hp & H).
    apply str_strip_prefix_Some in Hp as ->. unfold str_is_empty in H.
    case_bool_decide; simplify_eq. done.
  - intros (Hne & -> & Hc). exists (namespace, "ch-" +:+ channel).
    split; [by apply serviceaccount_from_username_spec|].
    rewrite decide_True by done.
    apply bind_Some. eexists. split; [done|]. apply bind_Some. exists channel.
    split; [by apply str_strip_prefix_Some|]. unfold str_is_empty.
    by rewrite bool_decide_eq_false_2.
Qed.

(** ** Theorems *)

(** A username is accepted only from a review that says authenticated,
    that carries a non-empty username, and, when an audience is pinned, that
    echoes that audience back; and every such review is accepted. *)
Theorem username_from_review_spec review audience username :
  username_from_review review audience = Ok username ↔
  ∃ status, tr_status review = Some status ∧
    trs_authenticated status = Some true ∧
    trs_user status = Some (Some username) ∧ username ≠ "" ∧
    ∀ a, audience = Some a → ∃ auds, trs_audiences status = Some auds ∧ a ∈ auds.
Proof.
  unfold username_from_review. rewrite rbind_Ok. setoid_rewrite ok_or_Ok. unfold str_is_empty.
  split; intros ([auth auds user] & Hs & H); exists (mkTokenReviewStatus auth auds user);
    (split; [done|]); simpl in *; clear Hs.
  - destruct auth as [[|]|]; simpl in H; [|done..].
    apply rbind_Ok in H as (? & Ha & H). apply rbind_Ok in H as (name & Hu & H).
    apply ok_or_Ok in Hu. case_bool_decide; [done|]. simplify_result.
    destruct user as [user|]; [|done]. simpl in Hu. subst. split_and!; [done..|].
    intros a ->. destruct auds as [auds|]; [|done]. case_bool_decide; naive_solver.
  - destruct H as (-> & -> & Hne & Ha). simpl. apply rbind_Ok. exists tt. split.
    + destruct audience as [a|]; [|done]. destruct (Ha a eq_refl) as (l & -> & Hl).
      by rewrite bool_decide_eq_true_2.
    + by rewrite bool_decide_eq_false_2.
Qed.

(** The workspace a ServiceAccount name stands for. Both identities of a
    workspace, [ws-<w>] and [ws-<w>-unprivileged], map back to it, provided
    its own name does not end in [-unprivileged]. *)
Theorem parse_workspace_roundtrip w :
  w ≠ "" → (∀ w', w ≠ w' +:+ UNPRIVILEGED_SA_SUFFIX) →
  parse_workspace_from_sa (WORKSPACE_PREFIX +:+ w) = Some w
  ∧ parse_workspace_from_sa (unprivileged_sa w) = Some w.
Proof.
  intros Hne Hsuf. unfold parse_workspace_from_sa, unprivileged_sa.
  assert (∀ r, str_strip_prefix WORKSPACE_PREFIX (WORKSPACE_PREFIX +:+ r) = Some r) as Hp
    by (intros; by apply str_strip_prefix_Some).
  rewrite !Hp. simpl. unfold str_is_empty. split.
  - destruct (str_strip_suffix UNPRIVILEGED_SA_SUFFIX w) as [w'|] eqn:E.
    { apply str_strip_suffix_Some in E. by destruct (Hsuf w'). }
    simpl. by rewrite bool_decide_eq_false_2.
  - replace (str_strip_suffix _ _) with (Some w) by (symmetry; by apply str_strip_suffix_Some).
    simpl. by rewrite bool_decide_eq_false_2.
Qed.

Lemma parse_workspace_roundtrip_witness :
  parse_workspace_from_sa "ws-hello" = Some "hello"
  ∧ parse_workspace_from_sa "ws-hello-unprivileged" = Some "hello".
Proof.
  apply (parse_workspace_roundtrip "hello"); [done|].
  intros w' H%(f_equal B). rewrite B_app in H. apply (f_equal length) in H.
  rewrite length_app in H. simpl in H. lia.
Defined.

(** A workspace whose name ends in [-unprivileged] is not told apart
    from the workspace it extends: the harness of [<w>-unprivileged] is
    authenticated as [w], whatever namespace its account lives in. *)
Theorem unprivileged_workspace_confused w namespace :
  w ≠ "" → colon ∉ B namespace →
  workspace_from_username (sa_username namespace (WORKSPACE_PREFIX +:+ (w +:+ UNPRIVILEGED_SA_SUFFIX)))
  = Ok w.
Proof.
  intros Hne Hc. unfold workspace_from_username.
  replace (serviceaccount_from_username _) with
    (Some (namespace, WORKSPACE_PREFIX +:+ (w +:+ UNPRIVILEGED_SA_SUFFIX)))
    by (symmetry; by apply serviceaccount_from_username_spec).
  simpl. replace (parse_workspace_from_sa _) with (Some w); [done|].
  unfold parse_workspace_from_sa.
  replace (str_strip_prefix _ _) with (Some (w +:+ UNPRIVILEGED_SA_SUFFIX))
    by (symmetry; by apply str_strip_prefix_Some). simpl.
  replace (str_strip_suffix _ _) with (Some w) by (symmetry; by apply str_strip_suffix_Some).
  simpl. unfold str_is_empty. by rewrite bool_decide_eq_false_2.
Qed.

Lemma unprivileged_workspace_confused_witness :
  workspace_from_username "system:serviceaccount:tenant-b:ws-prod-unprivileged" = Ok "prod".
Proof. apply (unprivileged_workspace_confused "prod" "tenant-b"); [done|by_compute]. Defined.
