(* ===== verification/ConfigMaps.v ===== *)
(** * Watched ConfigMaps: merging, the watch loop, retries

    Models [crates/shared/src/configmap_watcher.rs] ([merge_configmaps],
    [merge_labelled], [watch_configmaps] with [install]),
    [crates/shared/src/watcher_retry.rs] ([run_watcher_forever]) and
    [retry_with_backoff] of [crates/shared/src/lib.rs]. A [BTreeMap] is an
    association list with increasing keys, a [HashMap] is a [gmap]. *)

From S2P Require Import Prelude Text.

(** ** Definitions *)

Record ConfigMap : Type := mkConfigMap {
  cm_name : option string;
  cm_labels : option (list (string * string));
  cm_data : option (list (string * string)) }.

Definition unnamed (cm : ConfigMap) : string := default "<unnamed>" (cm_name cm).

(** One pass over the ConfigMaps, folding each into the map or the errors. *)
Section merge.
Context {V : Type}.

Definition merge_one (data_key : string) (parse : string → result (list (string * V)) string)
    (acc : gmap string V * list string) (cm : ConfigMap) : gmap string V * list string :=
  let (map, errors) := acc in
  match cm_data cm ≫= bt_get data_key with
  | None => (map, errors ++ [unnamed cm +:+ ": no " +:+ data_key +:+ " key"])
  | Some raw =>
      match parse raw with
      | Ok parsed => (foldl (λ m kv, <[kv.1 := kv.2]> m) map parsed, errors)
      | Err e => (map, errors ++ [unnamed cm +:+ ": " +:+ e])
      end
  end.

Definition merge_configmaps (cms : list ConfigMap) (data_key : string)
    (parse : string → result (list (string * V)) string) : gmap string V * list string :=
  foldl (merge_one data_key parse) (∅, []) cms.

Definition NAME_LABEL : string := "app.kubernetes.io/name".

Definition merge_labelled_one (parse : list (string * string) → result V string)
    (acc : gmap string V * list string) (cm : ConfigMap) : gmap string V * list string :=
  let (map, errors) := acc in
  match cm_labels cm ≫= bt_get NAME_LABEL with
  | None => (map, errors ++ [unnamed cm +:+ ": no app.kubernetes.io/name label"])
  | Some key =>
      match parse (default [] (cm_data cm)) with
      | Ok value => (<[key := value]> map, errors)
      | Err e => (map, errors ++ [unnamed cm +:+ ": " +:+ e])
      end
  end.

Definition merge_labelled (cms : list ConfigMap) (parse : list (string * string) → result V string)
  : gmap string V * list string :=
  foldl (merge_labelled_one parse) (∅, []) cms.
End merge.

(** *** The watch loop *)

Inductive watch_event : Type :=
| EvInit
| EvInitApply (cm : ConfigMap)
| EvInitDone
| EvApply (cm : ConfigMap)
| EvDelete (cm : ConfigMap).

Definition cm_key (cm : ConfigMap) : string := default "" (cm_name cm).

(** The loop's two sets, the shared table and the ready flag. *)
Record watch_state (T : Type) : Type := mkWatch {
  w_current : list (string * ConfigMap);
  w_scratch : list (string * ConfigMap);
  w_table : T;
  w_ready : bool }.
Arguments mkWatch {T}.
Arguments w_current {T}.
Arguments w_scratch {T}.
Arguments w_table {T}.
Arguments w_ready {T}.

Section watch.
Context {T : Type} (merge : list (string * ConfigMap) → T * list string).

Definition install (w : watch_state T) (current : list (string * ConfigMap)) : watch_state T :=
  mkWatch current (w_scratch w) (merge current).1 (w_ready w).

Definition watch_step (w : watch_state T) (e : watch_event) : watch_state T :=
  match e with
  | EvInit => mkWatch (w_current w) [] (w_table w) (w_ready w)
  | EvInitApply cm =>
      mkWatch (w_current w) (bt_insert (cm_key cm) cm (w_scratch w)) (w_table w) (w_ready w)
  | EvInitDone =>
      let w := install (mkWatch (w_current w) [] (w_table w) (w_ready w)) (w_scratch w) in
      mkWatch (w_current w) (w_scratch w) (w_table w) true
  | EvApply cm => install w (bt_insert (cm_key cm) cm (w_current w))
  | EvDelete cm => install w (bt_remove (cm_key cm) (w_current w))
  end.

(** [watch_configmaps] starts from empty sets; the table is the one it was
    handed, so a restart keeps serving the previous table until a re-list. *)
Definition watch_start (table : T) (ready : bool) : watch_state T := mkWatch [] [] table ready.

Definition watch_run (w : watch_state T) (es : list watch_event) : watch_state T :=
  foldl watch_step w es.
End watch.

(** *** Backoff *)

(** [run_watcher_forever]: the delay slept after the [n]-th return of the
    closure, and the one after it. The outcome is matched only to log it. *)
Definition max_delay : nat := 30.
Definition next_delay {E} (outcome : result unit E) (delay : nat) : nat :=
  match outcome with
  | Ok _ => Nat.min (delay * 2) max_delay
  | Err _ => Nat.min (delay * 2) max_delay
  end.

Fixpoint watcher_delays {E} (delay : nat) (outcomes : list (result unit E)) : list nat :=
  match outcomes with
  | [] => []
  | o :: outcomes => delay :: watcher_delays (next_delay o delay) outcomes
  end.

(** [retry_with_backoff]: the answer and the seconds slept between attempts.
    [None] is the [assert!] panic on [max_attempts = 0]. *)
Fixpoint retry_go {A E} (op : nat → result A E) (attempt rest : nat) (slept : list nat)
  : result A E * list nat :=
  match op attempt with
  | Ok v => (Ok v, slept)
  | Err e => match rest with
             | O => (Err e, slept)
             | S rest => retry_go op (S attempt) rest (slept ++ [attempt])
             end
  end.

Definition retry_with_backoff {A E} (max_attempts : nat) (op : nat → result A E)
  : option (result A E * list nat) :=
  match max_attempts with
  | O => None
  | S rest => Some (retry_go op 1 rest [])
  end.

(** ** Lemmas *)

Lemma string_compare_eq a b : String.compare a b = Eq ↔ a = b.
Proof.
  split; [apply String.compare_eq_iff|]. intros ->.
  induction b as [|c b IH]; simpl; [done|]. unfold Ascii.compare. by rewrite N.compare_refl.
Qed.

Lemma string_compare_trans a b c :
  String.compare a b = Lt → String.compare b c = Lt → String.compare a c = Lt.
Proof.
  revert b c. induction a as [|x a IH]; intros [|y b] [|z c]; simpl; try done.
  unfold Ascii.compare.
  destruct (N.compare_spec (N_of_ascii x) (N_of_ascii y)) as [Exy|Hxy|Hxy];
    destruct (N.compare_spec (N_of_ascii y) (N_of_ascii z)) as [Eyz|Hyz|Hyz]; try done;
    destruct (N.compare_spec (N_of_ascii x) (N_of_ascii z)) as [Exz|Hxz|Hxz];
    try done; try lia. apply IH.
Qed.

Lemma bt_get_insert {V} k k' (v : V) m :
  bt_get k' (bt_insert k v m) = if decide (k' = k) then Some v else bt_get k' m.
Proof.
  induction m as [|[k1 v1] m IH]; simpl; [done|].
  destruct (String.compare k k1) eqn:E; simpl.
  - apply string_compare_eq in E as ->. by repeat case_decide.
  - done.
  - rewrite IH. repeat case_decide; subst; try done.
    assert (String.compare k1 k1 = Eq) by by apply string_compare_eq. congruence.
Qed.

Lemma bt_get_remove {V} k k' (m : list (string * V)) :
  bt_get k' (bt_remove k m) = if decide (k' = k) then None else bt_get k' m.
Proof.
  induction m as [|[k1 v1] m IH]; simpl; [by case_decide|].
  repeat (case_decide; simpl); subst; try done; rewrite IH; by case_decide.
Qed.

Definition event_installs (e : watch_event) : bool :=
  match e with EvInitDone | EvApply _ | EvDelete _ => true | _ => false end.

(** What an event history, newest event first, says of one key: of the re-list
    being received, and of the live set. *)
Fixpoint listed (k : string) (es : list watch_event) : option ConfigMap :=
  match es with
  | [] | EvInit :: _ | EvInitDone :: _ => None
  | EvInitApply cm :: es => if decide (k = cm_key cm) then Some cm else listed k es
  | (EvApply _ | EvDelete _) :: es => listed k es
  end.

Fixpoint live (k : string) (es : list watch_event) : option ConfigMap :=
  match es with
  | [] => None
  | (EvInit | EvInitApply _) :: es => live k es
  | EvInitDone :: es => listed k es
  | EvApply cm :: es => if decide (k = cm_key cm) then Some cm else live k es
  | EvDelete cm :: es => if decide (k = cm_key cm) then None else live k es
  end.

Section watch_spec.
Context {T : Type} (merge : list (string * ConfigMap) → T * list string).

Lemma watch_run_snoc w es e :
  watch_run merge w (es ++ [e]) = watch_step merge (watch_run merge w es) e.
Proof. unfold watch_run. by rewrite foldl_snoc. Qed.

Lemma watch_sets table ready es k :
  let w := watch_run merge (watch_start table ready) es in
  bt_get k (w_current w) = live k (reverse es) ∧ bt_get k (w_scratch w) = listed k (reverse es).
Proof.
  induction es as [|e es [IHc IHs]] using rev_ind; [done|].
  rewrite watch_run_snoc, reverse_snoc.
  destruct e; simpl; rewrite ?bt_get_insert, ?bt_get_remove, ?IHc, ?IHs; done.
Qed.

Lemma watch_table table ready es :
  let w := watch_run merge (watch_start table ready) es in
  w_table w = if existsb event_installs es then (merge (w_current w)).1 else table.
Proof.
  induction es as [|e es IH] using rev_ind; [done|].
  rewrite watch_run_snoc, existsb_app. simpl. destruct e; simpl; rewrite ?orb_false_r, ?orb_true_r; done.
Qed.

Lemma watch_scratch_relist w cms :
  w_current (watch_run merge (watch_step merge w EvInit) (EvInitApply <$> cms)) = w_current w
  ∧ w_table (watch_run merge (watch_step merge w EvInit) (EvInitApply <$> cms)) = w_table w
  ∧ w_scratch (watch_run merge (watch_step merge w EvInit) (EvInitApply <$> cms))
    = foldl (λ m cm, bt_insert (cm_key cm) cm m) [] cms.
Proof.
  induction cms as [|cm cms IH] using rev_ind; [done|].
  set (w0 := watch_step merge w EvInit) in *.
  rewrite fmap_app, foldl_snoc. cbn [fmap list_fmap]. rewrite watch_run_snoc. cbn -[w0].
  destruct IH as (H1 & H2 & H3). by rewrite H1, H2, H3.
Qed.
End watch_spec.

Lemma watcher_delays_length {E} d (os : list (result unit E)) :
  length (watcher_delays d os) = length os.
Proof. revert d. induction os; simpl; auto. Qed.

Lemma watcher_delays_lookup {E} d (os : list (result unit E)) n :
  d ≤ max_delay → n < length os →
  watcher_delays d os !! n = Some (Nat.min (d * 2 ^ n) max_delay).
Proof.
  revert d n. induction os as [|o os IH]; intros d n Hd Hn; simpl in *; [lia|].
  destruct n as [|n]; simpl.
  - f_equal. lia.
  - assert (next_delay o d = Nat.min (d * 2) max_delay) as -> by by destruct o.
    rewrite IH by lia. f_equal. unfold max_delay in *.
    assert (2 ^ n ≥ 1) by (clear; induction n; simpl; lia). nia.
Qed.

Lemma retry_go_spec {A E} (op : nat → result A E) attempt rest slept :
  ∃ n, n ≤ rest ∧ (retry_go op attempt rest slept).1 = op (attempt + n)
    ∧ (retry_go op attempt rest slept).2 = slept ++ seq attempt n
    ∧ (∀ i, i < n → is_ok (op (attempt + i)) = false)
    ∧ (is_ok (op (attempt + n)) = false → n = rest).
Proof.
  revert attempt slept. induction rest as [|rest IH]; intros attempt slept; simpl.
  - exists 0. rewrite Nat.add_0_r, app_nil_r. destruct (op attempt); split_and!; try done; lia.
  - destruct (op attempt) eqn:E1.
    + exists 0. rewrite Nat.add_0_r, app_nil_r, E1. split_and!; try done; lia.
    + destruct (IH (S attempt) (slept ++ [attempt])) as (n & Hn & -> & -> & Hi & Hl).
      exists (S n). rewrite Nat.add_succ_r, <- app_assoc. split_and!; try done; try lia.
      * intros i Hin. destruct i as [|i]; [by rewrite Nat.add_0_r, E1|].
        rewrite Nat.add_succ_r. apply Hi. lia.
      * intros H. f_equal. by apply Hl.
Qed.

(** ** Theorems *)

(** The table a watcher serves is the merge of the live set, at every
    moment from its first delivery on, and the table it was started with
    before that. The live set is what the event history says: the last
    finished re-list as updated by the applies and deletes after it. A re-list
    in progress does not show. *)
Theorem watch_table_tracks_current {T} (merge : list (string * ConfigMap) → T * list string)
    table ready es :
  let w := watch_run merge (watch_start table ready) es in
  w_table w = (if existsb event_installs es then (merge (w_current w)).1 else table) ∧
  ∀ k, bt_get k (w_current w) = live k (reverse es).
Proof. split; [apply watch_table|]. intros k. apply (watch_sets merge table ready es k). Qed.

(** A finished re-list makes the live set exactly the ConfigMaps listed:
    one deleted while the watch was down is gone, whatever was served before,
    and while the list is being received the served table does not change. *)
Theorem watch_relist_replaces {T} (merge : list (string * ConfigMap) → T * list string) w cms :
  let listing := watch_run merge w (EvInit :: (EvInitApply <$> cms)) in
  let after := watch_step merge listing EvInitDone in
  w_table listing = w_table w ∧ w_ready after = true ∧
  w_table after = (merge (w_current after)).1 ∧
  ∀ k, bt_get k (w_current after) = snd <$> list_find (λ cm, cm_key cm = k) (reverse cms).
Proof.
  intros listing after. destruct (watch_scratch_relist merge w cms) as (_ & Ht & Hs).
  assert (w_current after = foldl (λ m cm, bt_insert (cm_key cm) cm m) [] cms) as Hc by exact Hs.
  split_and!; [exact Ht|done|done|]. rewrite Hc. intros k. clear.
  induction cms as [|cm cms IH] using rev_ind; [done|].
  rewrite foldl_snoc, reverse_snoc, bt_get_insert, IH. simpl.
  repeat case_decide; subst; try done. by destruct (list_find _ _) as [[]|].
Qed.

(** The restart delays of a watcher double from one second to the cap of
    thirty and stay there: they are never reset, whatever the closure
    returned (the comment on the loop says an [Ok] resets them). *)
Theorem watcher_delay_never_resets {E} (outcomes : list (result unit E)) n :
  n < length outcomes →
  watcher_delays 1 outcomes !! n = Some (Nat.min (2 ^ n) 30).
Proof. intros Hn. rewrite watcher_delays_lookup; [|unfold max_delay; lia|done].
  f_equal. unfold max_delay. lia. Qed.

Lemma watcher_delay_never_resets_witness :
  watcher_delays 1 (replicate 7 (@Ok unit string tt)) !! 6 = Some 30.
Proof. apply (watcher_delay_never_resets (replicate 7 (@Ok unit string tt)) 6). simpl. lia. Defined.

(** [retry_with_backoff] answers with the first success, or with the last
    error after exactly [max_attempts] attempts, and has slept 1, 2, ..., n
    seconds before attempt [n+1]. *)
Theorem retry_with_backoff_spec {A E} max_attempts (op : nat → result A E) :
  max_attempts ≥ 1 →
  ∃ n, n < max_attempts ∧
    retry_with_backoff max_attempts op = Some (op (S n), seq 1 n)
    ∧ (∀ i, i < n → is_ok (op (S i)) = false)
    ∧ (is_ok (op (S n)) = false → S n = max_attempts).
Proof.
  intros Hm. destruct max_attempts as [|rest]; [lia|]. simpl.
  destruct (retry_go_spec op 1 rest []) as (n & Hn & H1 & H2 & Hi & Hl). simpl in *.
  exists n. split_and!; try done; try lia.
  - f_equal. destruct (retry_go op 1 rest []). simpl in *. congruence.
  - intros H. f_equal. by apply Hl.
Qed.

Lemma retry_with_backoff_spec_witness :
  ∃ n, n < 3 ∧ retry_with_backoff 3 (λ k, if decide (k = 2) then Ok k else Err k)
    = Some ((if decide (S n = 2) then Ok (S n) else Err (S n)), seq 1 n)
    ∧ (∀ i, i < n → is_ok (if decide (S i = 2) then @Ok nat nat (S i) else Err (S i)) = false)
    ∧ (is_ok (if decide (S n = 2) then @Ok nat nat (S n) else Err (S n)) = false → S n = 3).
Proof. apply (retry_with_backoff_spec 3 (λ k, if decide (k = 2) then Ok k else Err k)). lia. Defined.
