(* ===== verification/Identity.v ===== *)
(** * The relay's identity table, grant names, and the harness's model table

    Models [crates/relay-controller/src/identity.rs] ([parse_configmap],
    [apply_delivery], [IdentityTable]),
    [crates/relay-controller/src/capabilities.rs] ([BindingEntry],
    [CapabilityGrants]) and [crates/harness/src/model_config.rs]
    ([ModelConfig::from_data], [ModelTable]). YAML parsing is a parameter. *)

From S2P Require Import Prelude Text ConfigMaps.

(** ** Identity: definitions *)

Record SubjectRow : Type := mkSubjectRow {
  row_subject : string;
  row_workspaces : list string;
  row_handles : list (string * string) }.

Record RowError : Type := mkRowError { re_key : string; re_reason : string }.

Record IdentityTable : Type := mkIdentityTable {
  by_subject : gmap string (list string);
  handles : gmap (string * string) string }.

Definition empty_identity : IdentityTable := mkIdentityTable ∅ ∅.

Definition workspaces_for (t : IdentityTable) (subject : string) : list string :=
  default [] (by_subject t !! subject).

Definition resolve_handle (t : IdentityTable) (channel handle : string) : option string :=
  handles t !! (channel, handle).

Definition nonblank (s : string) : bool := negb (str_is_empty (str_trim s)).

Definition comma : ascii := ","%char.

Definition parse_workspaces (w : string) : list string :=
  filter (λ ws, ws ≠ "") (str_trim <$> str_split comma w).

(** The loop over the data keys, with its early return. *)
Fixpoint parse_handles (data : list (string * string)) : result (list (string * string)) string :=
  match data with
  | [] => Ok []
  | (key, value) :: data =>
      match str_strip_prefix "handle." key with
      | Some channel =>
          if str_is_empty channel || str_is_empty (str_trim value)
          then Err ("handle key " +:+ key +:+ " has an empty channel or value")
          else let? hs := parse_handles data in Ok ((channel, str_trim value) :: hs)
      | None => parse_handles data
      end
  end.

Definition parse_configmap (data : list (string * string)) : result SubjectRow string :=
  let? subject := ok_or (match bt_get "subject" data with
                         | Some s => if nonblank s then Some s else None
                         | None => None
                         end) "no subject key" in
  let workspaces := default [] (parse_workspaces <$> bt_get "workspaces" data) in
  let? hs := parse_handles data in
  Ok (mkSubjectRow (str_trim subject) workspaces hs).

(** The loop state of [apply_delivery]. *)
Record delivery : Type := mkDelivery {
  d_by_subject : gmap string (list string);
  d_claims : gmap (string * string) (list string);
  d_errors : list RowError }.

Definition push_claim (subject : string) (claims : gmap (string * string) (list string))
    (key : string * string) : gmap (string * string) (list string) :=
  <[key := default [] (claims !! key) ++ [subject]]> claims.

Definition deliver_one (d : delivery) (cm : ConfigMap) : delivery :=
  match parse_configmap (default [] (cm_data cm)) with
  | Ok row =>
      mkDelivery (<[row_subject row := row_workspaces row]> (d_by_subject d))
                 (foldl (push_claim (row_subject row)) (d_claims d) (row_handles row))
                 (d_errors d)
  | Err reason => mkDelivery (d_by_subject d) (d_claims d)
                    (d_errors d ++ [mkRowError (unnamed cm) reason])
  end.

Definition sole {A} (l : list A) : option A := match l with [x] => Some x | _ => None end.

Definition conflict_error (kv : string * string * list string) : RowError :=
  let '((channel, handle), subjects) := kv in
  mkRowError ("handle." +:+ channel +:+ "." +:+ handle)
    ("handle " +:+ handle +:+ " on channel " +:+ channel
     +:+ " is claimed by multiple subjects: " +:+ str_join ", " subjects).

(** The conflict errors come in the order of a [HashMap] iteration, which is
    unspecified; [map_to_list] picks one. *)
Definition apply_delivery (cms : list ConfigMap) : IdentityTable * list RowError :=
  let d := foldl deliver_one (mkDelivery ∅ ∅ []) cms in
  (mkIdentityTable (d_by_subject d) (omap sole (d_claims d)),
   d_errors d ++ (conflict_error <$> filter (λ kv, sole kv.2 = None) (map_to_list (d_claims d)))).

(** The rows a delivery carries, and who claims a handle among them. *)
Definition valid_rows (cms : list ConfigMap) : list SubjectRow :=
  omap (λ cm, rok (parse_configmap (default [] (cm_data cm)))) cms.

Definition claimants (rows : list SubjectRow) (key : string * string) : list string :=
  rows ≫= λ r, (λ _, row_subject r) <$> filter (λ k, k = key) (row_handles r).

(** ** Grant names: definitions *)

Section capabilities.
(** A YAML value: whether it is a string, and [from_value::<RawGrantedEntry>]
    (the toolset name and the grant names, in name order). *)
Context {Y : Type} (yaml_is_string : Y → bool)
  (raw_granted : Y → result (string * list string) string)
  (yaml_bindings : string → result (list (string * list Y)) string).

Inductive BindingEntry : Type := Bare | Granted (name : string) (grants : list string).

Definition binding_entry (v : Y) : result BindingEntry string :=
  if yaml_is_string v then Ok Bare
  else let? (name, grants) := raw_granted v in Ok (Granted name grants).

Definition granted_pair (e : BindingEntry) : option (string * list string) :=
  match e with
  | Bare => None
  | Granted _ [] => None
  | Granted name grants => Some (name, grants)
  end.

Definition parse_grants (yaml : string)
  : result (list (string * list (string * list string))) string :=
  let? parsed := map_err (λ e, "parse bindings: " +:+ e)
      (let? m := yaml_bindings yaml in
       try_map (λ kv : string * list Y, let? es := try_map binding_entry kv.2 in Ok (kv.1, es)) m) in
  Ok ((λ kv : string * list BindingEntry, (kv.1, omap granted_pair kv.2)) <$> parsed).

Definition GRANTS_DATA_KEY : string := "grants.yaml".

Definition CapabilityGrants_merge (cms : list ConfigMap)
  : gmap string (list (string * list string)) * list string :=
  merge_configmaps cms GRANTS_DATA_KEY parse_grants.
End capabilities.
Arguments BindingEntry : clear implicits.

Definition for_workspace (g : gmap string (list (string * list string))) (workspace : string)
  : list (string * list string) := default [] (g !! workspace).

(** ** Models: definitions *)

Inductive ModelConfig : Type :=
| Local (format model : string)
| Remote (format model base_url image : string) (secret : option string).

Definition mc_format (m : ModelConfig) : string :=
  match m with Local f _ => f | Remote f _ _ _ _ => f end.
Definition mc_model (m : ModelConfig) : string :=
  match m with Local _ m => m | Remote _ m _ _ _ => m end.

Definition nonempty_field (data : list (string * string)) (k : string) : option string :=
  match bt_get k data with Some v => if str_is_empty v then None else Some v | None => None end.

Definition model_field (data : list (string * string)) (k : string) : result string string :=
  ok_or (nonempty_field data k) ("missing " +:+ k).

Definition model_from_data (data : list (string * string)) : result ModelConfig string :=
  let? format := model_field data "format" in
  let? model := model_field data "model" in
  if bool_decide (is_Some (bt_get "server.image" data)) then Ok (Local format model) else
  let? base_url := model_field data "baseUrl" in
  let? image := model_field data "image" in
  Ok (Remote format model base_url image (nonempty_field data "secret")).

Definition ModelTable_merge (cms : list ConfigMap) : gmap string ModelConfig * list string :=
  merge_labelled cms model_from_data.

(** ** Lemmas *)

Lemma push_claims_lookup subject hs claims key :
  default [] (foldl (push_claim subject) claims hs !! key)
  = default [] (claims !! key) ++ ((λ _, subject) <$> filter (λ k, k = key) hs).
Proof.
  revert claims. induction hs as [|h hs IH]; intros claims; simpl.
  { by rewrite app_nil_r. }
  rewrite IH. unfold push_claim. rewrite filter_cons.
  destruct (decide (h = key)) as [->|Hne].
  - rewrite lookup_insert_eq. simpl. by rewrite <- app_assoc.
  - by rewrite lookup_insert_ne.
Qed.

Lemma deliver_claims cms d key :
  default [] (d_claims (foldl deliver_one d cms) !! key)
  = default [] (d_claims d !! key) ++ claimants (valid_rows cms) key.
Proof.
  revert d. induction cms as [|cm cms IH]; intros d; simpl; [by rewrite app_nil_r|].
  rewrite IH. unfold deliver_one, valid_rows. simpl.
  destruct (parse_configmap _) as [row|e]; simpl; [|done].
  rewrite push_claims_lookup, <- app_assoc. done.
Qed.

Lemma deliver_by_subject cms d :
  d_by_subject (foldl deliver_one d cms)
  = foldl (λ m r, <[row_subject r := row_workspaces r]> m) (d_by_subject d) (valid_rows cms).
Proof.
  revert d. induction cms as [|cm cms IH]; intros d; simpl; [done|].
  rewrite IH. unfold deliver_one, valid_rows. simpl. by destruct (parse_configmap _).
Qed.

Lemma sole_Some {A} (l : list A) x : sole l = Some x ↔ l = [x].
Proof. destruct l as [|y [|z l]]; naive_solver. Qed.

Lemma resolve_handle_claimants cms channel handle :
  resolve_handle (apply_delivery cms).1 channel handle
  = sole (claimants (valid_rows cms) (channel, handle)).
Proof.
  unfold resolve_handle, apply_delivery; simpl. rewrite lookup_omap.
  pose proof (deliver_claims cms (mkDelivery ∅ ∅ []) (channel, handle)) as H. simpl in H.
  rewrite lookup_empty in H. simpl in H. rewrite <- H. by destruct (_ !! _).
Qed.

Lemma by_subject_last rows (m : gmap string (list string)) s :
  foldl (λ m r, <[row_subject r := row_workspaces r]> m) m rows !! s
  = match list_find (λ r, row_subject r = s) (reverse rows) with
    | Some (_, r) => Some (row_workspaces r)
    | None => m !! s
    end.
Proof.
  induction rows as [|r rows IH] using rev_ind; [done|].
  rewrite foldl_snoc, reverse_snoc. simpl. case_decide as Hr.
  - by rewrite <- Hr, lookup_insert_eq.
  - rewrite lookup_insert_ne, IH by done. by destruct (list_find _ _) as [[]|].
Qed.

(** ** Theorems *)

(** A channel handle resolves to a subject exactly when one binding in
    the delivery names it: no binding or two of them resolve to nothing, so
    no one silently receives another person's messages. *)
Theorem handle_resolves_iff_sole cms channel handle subject :
  resolve_handle (apply_delivery cms).1 channel handle = Some subject ↔
  claimants (valid_rows cms) (channel, handle) = [subject].
Proof. rewrite resolve_handle_claimants. apply sole_Some. Qed.

(** Invalid is absent: the table of a delivery is the table of its valid
    ConfigMaps alone, so a broken one never suppresses, and never revives,
    another subject; and every invalid one is reported. *)
Theorem invalid_configmap_absent cms :
  let valid := filter (λ cm, is_ok (parse_configmap (default [] (cm_data cm))) = true) cms in
  (apply_delivery cms).1 = (apply_delivery valid).1
  ∧ ∀ cm reason, cm ∈ cms → parse_configmap (default [] (cm_data cm)) = Err reason →
      mkRowError (unnamed cm) reason ∈ (apply_delivery cms).2.
Proof.
  intros valid. split.
  - unfold apply_delivery. simpl. generalize (mkDelivery ∅ ∅ []) as d.
    assert (∀ d d', d_by_subject d = d_by_subject d' → d_claims d = d_claims d' →
      d_by_subject (foldl deliver_one d cms) = d_by_subject (foldl deliver_one d' valid)
      ∧ d_claims (foldl deliver_one d cms) = d_claims (foldl deliver_one d' valid)) as H.
    { subst valid. induction cms as [|cm cms IH]; [done|]. intros d d' H1 H2.
      rewrite filter_cons. simpl. unfold deliver_one at 2 5.
      destruct (parse_configmap (default [] (cm_data cm))) as [row|e] eqn:E; simpl.
      - unfold deliver_one at 3 6. rewrite E. apply IH; simpl; by rewrite ?H1, ?H2.
      - by apply IH. }
    intros d. destruct (H d d) as [-> ->]; done.
  - intros cm reason Hcm He. unfold apply_delivery; simpl. apply elem_of_app. left.
    clear valid. generalize (mkDelivery ∅ ∅ []) as d.
    assert (∀ l d e, e ∈ d_errors d → e ∈ d_errors (foldl deliver_one d l)) as Hmono.
    { induction l as [|x l IHl]; simpl; [done|]. intros d e Hin. apply IHl.
      unfold deliver_one. case_match; simpl; set_solver. }
    induction cms as [|cm' cms IH]; [set_solver|]. intros d. simpl.
    apply elem_of_cons in Hcm as [<-|Hcm]; [|by apply IH].
    apply Hmono. unfold deliver_one. rewrite He. simpl. set_solver.
Qed.

(** [ListWorkspaces] answers with the workspaces of the last valid
    ConfigMap of the subject, and with nothing for a subject no valid
    ConfigMap names: removing or breaking it revokes the list. *)
Theorem workspaces_for_delivery cms subject :
  workspaces_for (apply_delivery cms).1 subject
  = match list_find (λ r, row_subject r = subject) (reverse (valid_rows cms)) with
    | Some (_, r) => row_workspaces r
    | None => []
    end.
Proof.
  unfold workspaces_for, apply_delivery; simpl. rewrite deliver_by_subject, by_subject_last.
  simpl. rewrite lookup_empty. by destruct (list_find _ _) as [[]|].
Qed.

(** A binding whose grants are malformed fails the load of its
    ConfigMap; it is never read as a bare toolset name. *)
Theorem malformed_binding_fails {Y} (is_string : Y → bool) raw bindings yaml m ws vs v e :
  bindings yaml = Ok m → (ws, vs) ∈ m → v ∈ vs →
  is_string v = false → raw v = Err e →
  is_ok (parse_grants is_string raw bindings yaml) = false.
Proof.
  intros Hm Hws Hv Hs He. unfold parse_grants. rewrite Hm. simpl.
  destruct (try_map _ m) as [parsed|e'] eqn:E; [|done]. exfalso.
  apply try_map_Ok in E. apply list_elem_of_lookup in Hws as [i Hi].
  destruct (Forall2_lookup_l _ _ _ _ _ E Hi) as (y & _ & Hy).
  apply rbind_Ok in Hy as (es & Hes & _). apply try_map_Ok in Hes. simpl in Hes.
  apply list_elem_of_lookup in Hv as [j Hj].
  destruct (Forall2_lookup_l _ _ _ _ _ Hes Hj) as (b & _ & Hb).
  unfold binding_entry in Hb. by rewrite Hs, He in Hb.
Qed.

Lemma malformed_binding_fails_witness :
  is_ok (parse_grants (λ b : bool, b) (λ _, Err "bad") (λ _, Ok [("ws", [true; false])]) "") = false.
Proof.
  apply (malformed_binding_fails (λ b : bool, b) (λ _, Err "bad") (λ _, Ok [("ws", [true; false])])
           "" [("ws", [true; false])] "ws" [true; false] false "bad"); set_solver.
Defined.

(** A model ConfigMap gives a model with a non-empty format and model id,
    local exactly when it names a server image, and a remote one carries a
    non-empty base URL and image; a missing field is refused, never
    defaulted. *)
Theorem model_from_data_spec data m :
  model_from_data data = Ok m →
  mc_format m ≠ "" ∧ mc_model m ≠ "" ∧
  match m with
  | Local _ _ => is_Some (bt_get "server.image" data)
  | Remote _ _ base_url image secret =>
      bt_get "server.image" data = None ∧ base_url ≠ "" ∧ image ≠ "" ∧ secret ≠ Some ""
  end.
Proof.
  assert (∀ k v, nonempty_field data k = Some v → v ≠ "") as Hne.
  { unfold nonempty_field, str_is_empty. intros k v. case_match; [|done].
    case_bool_decide; naive_solver. }
  assert (∀ k v, model_field data k = Ok v → v ≠ "") as Hf.
  { intros k v H. apply ok_or_Ok in H. eauto. }
  unfold model_from_data. intros H. apply rbind_Ok in H as (f & Hfm & H).
  apply rbind_Ok in H as (mo & Hmo & H). case_bool_decide as Hs.
  - simplify_result. eauto.
  - apply rbind_Ok in H as (b & Hb & H). apply rbind_Ok in H as (i & Hi & H). simplify_result.
    split_and!; eauto; [by apply eq_None_not_Some | by intros ?%Hne].
Qed.

Lemma model_from_data_spec_witness :
  mc_format (Local "openai" "qwen") ≠ "" ∧ mc_model (Local "openai" "qwen") ≠ ""
  ∧ is_Some (bt_get "server.image" [("format", "openai"); ("model", "qwen"); ("server.image", "x")]).
Proof.
  apply (model_from_data_spec [("format", "openai"); ("model", "qwen"); ("server.image", "x")]
           (Local "openai" "qwen")). reflexivity.
Defined.
