(* ===== verification/Toolset.v ===== *)
(** * Toolset configuration and tool-call validation

    Models [crates/shared/src/toolset.rs]: the grant checks, the flat
    ConfigMap grammar of a toolset, the Kubernetes name segment of a tool, and
    the validation of a model's arguments. [serde_json] is a parameter: the
    parser of the arguments and the printer of numbers and schemas. *)

From S2P Require Import Prelude Text ConfigMaps.

(** ** Capability grants: definitions *)

Definition WORKSPACE_MOUNT_PATH : string := "/workspace".
Definition SA_TOKEN_MOUNT_PATH : string := "/var/run/secrets/kubernetes.io/serviceaccount".
Definition DISPATCH_MOUNT_PATH : string := "/etc/toolset".

Record CapabilityGrant : Type := mkGrant {
  grant_secret : string; grant_path : option string; grant_egress : option string }.

(** [RawGrant], the deserialized shape. *)
Record RawGrant : Type := mkRawGrant {
  raw_secret : string; raw_path : option string; raw_egress : option string }.

Definition reserved_mount (path : string) : bool :=
  bool_decide (path = SA_TOKEN_MOUNT_PATH) || bool_decide (path = DISPATCH_MOUNT_PATH)
  || str_starts_with (DISPATCH_MOUNT_PATH +:+ "/") path
  || bool_decide (path = WORKSPACE_MOUNT_PATH).

Definition grant_try_from (raw : RawGrant) : result CapabilityGrant string :=
  if str_is_empty (raw_secret raw)
  then Err "a grant names exactly one Secret, so `secret` must not be empty" else
  let? _ := match raw_path raw with
            | None => Ok tt
            | Some path =>
                if negb (str_starts_with "/" path)
                then Err ("grant `path` must be an absolute mount target, got " +:+ path)
                else if reserved_mount path
                then Err ("grant `path` " +:+ path +:+ " is a reserved mount the tool job already depends on")
                else Ok tt
            end in
  Ok (mkGrant (raw_secret raw) (raw_path raw) (raw_egress raw)).

(** ** Toolset entries: definitions *)

Inductive ArgType : Type := ATString | ATInteger | ATNumber | ATBoolean.

#[export] Instance ArgType_eq_dec : EqDecision ArgType.
Proof. solve_decision. Defined.

Definition as_schema_str (t : ArgType) : string :=
  match t with
  | ATString => "string" | ATInteger => "integer" | ATNumber => "number" | ATBoolean => "boolean"
  end.

Definition from_schema_str (s : string) : option ArgType :=
  if decide (s = "string") then Some ATString
  else if decide (s = "integer") then Some ATInteger
  else if decide (s = "number") then Some ATNumber
  else if decide (s = "boolean") then Some ATBoolean
  else None.

Record ArgDecl : Type := mkArgDecl {
  arg_name : string; arg_ty : ArgType; arg_required : bool; arg_env : string;
  arg_description : option string }.

Record ToolDecl : Type := mkToolDecl {
  tool_name : string; tool_description : string; tool_args : list ArgDecl }.

Record ToolsetEntry : Type := mkToolsetEntry {
  te_image : option string; te_keepalive : bool; te_deadline_seconds : option Z;
  te_env : gmap string string; te_tools : list ToolDecl }.

Definition default_entry : ToolsetEntry := mkToolsetEntry None false None ∅ [].

(** [str::parse::<i64>]: an optional sign, then digits, in range. *)
Fixpoint digits_val (acc : Z) (s : bytes) : option Z :=
  match s with
  | [] => Some acc
  | c :: s => if is_ascii_digit c then digits_val (acc * 10 + (Z.of_N (byte_val c) - 48)) s else None
  end.

Definition unsigned_val (s : bytes) : option Z :=
  match s with [] => None | _ => digits_val 0 s end.

Definition in_i64 (z : Z) : option Z :=
  if bool_decide (-9223372036854775808 ≤ z ≤ 9223372036854775807)%Z then Some z else None.

Definition parse_i64 (s : string) : option Z :=
  match B s with
  | [] => None
  | c :: rest =>
      if decide (c = "+"%char) then unsigned_val rest ≫= in_i64
      else if decide (c = "-"%char) then (Z.opp <$> unsigned_val rest) ≫= in_i64
      else unsigned_val (c :: rest) ≫= in_i64
  end.

(** [str::parse] of an unsigned number below [bound]. *)
Definition parse_below (bound : Z) (s : string) : option N :=
  v ← unsigned_val (match B s with "+"%char :: r => r | r => r end);
  if decide (0 ≤ v < bound)%Z then Some (Z.to_N v) else None.

Definition dot : ascii := "."%char.

(** One tool's slot while the keys are read: its description and its args'
    attributes, keyed by arg name then attribute ([BTreeMap]s). *)
Definition tool_slot : Type := string * list (string * list (string * string)).

Definition set_attr (slot : tool_slot) (arg attr value : string) : tool_slot :=
  (slot.1, bt_insert arg (bt_insert attr value (default [] (bt_get arg slot.2))) slot.2).

(** One key of the flat data. *)
Definition read_key (acc : ToolsetEntry * list (string * tool_slot)) (kv : string * string)
  : result (ToolsetEntry * list (string * tool_slot)) string :=
  let '(entry, tools) := acc in
  let '(key, value) := kv in
  let unknown := "unknown key " +:+ key in
  if decide (key = "image") then
    Ok (mkToolsetEntry (Some value) (te_keepalive entry) (te_deadline_seconds entry)
                       (te_env entry) (te_tools entry), tools)
  else if decide (key = "keepalive") then
    Ok (mkToolsetEntry (te_image entry) (bool_decide (value = "true"))
                       (te_deadline_seconds entry) (te_env entry) (te_tools entry), tools)
  else if decide (key = "deadlineSeconds") then
    let? n := ok_or (parse_i64 value) ("deadlineSeconds " +:+ value +:+ " is not a number") in
    Ok (mkToolsetEntry (te_image entry) (te_keepalive entry) (Some n) (te_env entry)
                       (te_tools entry), tools)
  else match str_strip_prefix "env." key with
  | Some name =>
      Ok (mkToolsetEntry (te_image entry) (te_keepalive entry) (te_deadline_seconds entry)
                         (<[name := value]> (te_env entry)) (te_tools entry), tools)
  | None =>
      let? rest := ok_or (str_strip_prefix "tool." key) unknown in
      let? (tool, field) := ok_or (str_split_once dot rest) unknown in
      let slot := default ("", []) (bt_get tool tools) in
      if decide (field = "description") then Ok (entry, bt_insert tool (value, slot.2) tools)
      else
        let? (arg, attr) := ok_or (a ← str_strip_prefix "arg." field; str_split_once dot a) unknown in
        Ok (entry, bt_insert tool (set_attr slot arg attr value) tools)
  end.

Fixpoint read_keys (acc : ToolsetEntry * list (string * tool_slot)) (data : list (string * string))
  : result (ToolsetEntry * list (string * tool_slot)) string :=
  match data with
  | [] => Ok acc
  | kv :: data => let? acc := read_key acc kv in read_keys acc data
  end.

Definition build_arg (name : string) (a : string * list (string * string)) : result ArgDecl string :=
  let '(arg, attrs) := a in
  let field attr := ok_or (bt_get attr attrs)
                      ("tool." +:+ name +:+ ".arg." +:+ arg +:+ "." +:+ attr +:+ " is missing") in
  let? ty := field "type" in
  let? t := ok_or (from_schema_str ty)
              ("tool." +:+ name +:+ ".arg." +:+ arg +:+ ".type " +:+ ty +:+ " is unknown") in
  let? env := field "env" in
  Ok (mkArgDecl arg t (bool_decide (bt_get "required" attrs = Some "true")) env
                (bt_get "description" attrs)).

Definition build_tool (t : string * tool_slot) : result ToolDecl string :=
  let '(name, (description, args)) := t in
  let? args := try_map (build_arg name) args in
  Ok (mkToolDecl name description args).

Definition entry_from_data (data : list (string * string)) : result ToolsetEntry string :=
  let? (entry, tools) := read_keys (default_entry, []) data in
  let? tools := try_map build_tool tools in
  Ok (mkToolsetEntry (te_image entry) (te_keepalive entry) (te_deadline_seconds entry)
                     (te_env entry) tools).

(** [ToolsetConfig]: the live table. *)
Definition ToolsetConfig_merge (cms : list ConfigMap) : gmap string ToolsetEntry * list string :=
  merge_labelled cms entry_from_data.

(** [forwarded_env]: the pairs in key order. *)
Definition str_leb (a b : string) : bool :=
  match String.compare a b with Gt => false | _ => true end.
Definition forwarded_env (e : ToolsetEntry) : list (string * string) :=
  sort_by (λ a b, str_leb a.1 b.1) (map_to_list (te_env e)).

(** ** Kubernetes name segments: definitions *)

Definition hyphen : ascii := "-"%char.
Definition underscore : ascii := "_"%char.

Definition ends_with_hyphen (out : bytes) : bool := bool_decide (last out = Some hyphen).

(** The byte loop; [prev] is [bytes[i - 1]], the tail of [s] gives [bytes[i + 1]]. *)
Fixpoint segment_go (prev : option ascii) (s out : bytes) : bytes :=
  match s with
  | [] => out
  | b :: s =>
      let out' :=
        if decide (b = underscore) then
          if ends_with_hyphen out then out else out ++ [hyphen]
        else if is_ascii_uppercase b then
          let prev_lower_or_digit :=
            match prev with Some p => is_ascii_lowercase p || is_ascii_digit p | None => false end in
          let prev_upper := match prev with Some p => is_ascii_uppercase p | None => false end in
          let next_lower := match s with c :: _ => is_ascii_lowercase c | [] => false end in
          (if negb (ends_with_hyphen out) && (prev_lower_or_digit || (prev_upper && next_lower))
           then out ++ [hyphen] else out) ++ [to_ascii_lowercase b]
        else out ++ push_byte_as_char b
      in segment_go (Some b) s out'
  end.

Fixpoint trim_hyphens_start (s : bytes) : bytes :=
  match s with c :: s' => if decide (c = hyphen) then trim_hyphens_start s' else s | [] => [] end.
Definition trim_hyphens (s : bytes) : bytes :=
  reverse (trim_hyphens_start (reverse (trim_hyphens_start s))).

Definition tool_name_to_k8s_segment (name : string) : string :=
  str_of (trim_hyphens (segment_go None (B name) [])).

(** ** Argument validation: definitions *)

Section json.
(** [serde_json]: numbers are opaque, with the two questions and the printer
    the code uses. Object keys are unique (a [serde_json::Map]). *)
Context {Num : Type} (is_i64 is_u64 : Num → bool) (num_to_string : Num → string).

Inductive Json : Type :=
| JNull
| JBool (b : bool)
| JNumber (n : Num)
| JString (s : string)
| JArray (l : list Json)
| JObject (fields : list (string * Json)).

Context (json_parse : string → result Json string).

Inductive ArgValidationError : Type :=
| NotJson (e : string)
| NotObject
| UnknownField (field : string)
| MissingRequired (name : string)
| WrongType (field expected : string).

(** A provided value as the environment string of a declared argument. *)
Definition arg_value (ty : ArgType) (v : Json) : option string :=
  match ty, v with
  | ATString, JString s => Some s
  | ATInteger, JNumber n => if is_i64 n || is_u64 n then Some (num_to_string n) else None
  | ATNumber, JNumber n => Some (num_to_string n)
  | ATBoolean, JBool b => Some (if b then "true" else "false")
  | _, _ => None
  end.

Fixpoint bind_args (obj : list (string * Json)) (args : list ArgDecl) (env_map : gmap string string)
  : result (gmap string string) ArgValidationError :=
  match args with
  | [] => Ok env_map
  | arg :: args =>
      match bt_get (arg_name arg) obj with
      | None => if arg_required arg then Err (MissingRequired (arg_name arg))
                else bind_args obj args env_map
      | Some value =>
          match arg_value (arg_ty arg) value with
          | Some s => bind_args obj args (<[arg_env arg := s]> env_map)
          | None => Err (WrongType (arg_name arg) (as_schema_str (arg_ty arg)))
          end
      end
  end.

(** [declared.contains(key)], over the keys in object order. *)
Definition undeclared (obj : list (string * Json)) (args : list ArgDecl) : option string :=
  snd <$> list_find (λ k, k ∉ arg_name <$> args) (fst <$> obj).

Definition validate_call_input (input_json : string) (args : list ArgDecl)
  : result (gmap string string) ArgValidationError :=
  let? parsed := map_err NotJson (json_parse input_json) in
  match parsed with
  | JObject obj =>
      match undeclared obj args with
      | Some field => Err (UnknownField field)
      | None => bind_args obj args ∅
      end
  | _ => Err NotObject
  end.
End json.
Arguments Json : clear implicits.

(** ** Lemmas: grants and entries *)

Lemma grant_try_from_Ok raw g :
  grant_try_from raw = Ok g ↔
  g = mkGrant (raw_secret raw) (raw_path raw) (raw_egress raw) ∧ raw_secret raw ≠ "" ∧
  ∀ p, raw_path raw = Some p → str_starts_with "/" p = true ∧ reserved_mount p = false.
Proof.
  unfold grant_try_from, str_is_empty. case_bool_decide; [naive_solver|].
  destruct (raw_path raw) as [p|] eqn:Ep; simpl.
  - destruct (str_starts_with "/" p) eqn:E1, (reserved_mount p) eqn:E2; simpl;
      (split; [intros; simplify_result; split_and!; try done; by intros ? [= <-]|]);
      intros (-> & _ & Hp); destruct (Hp p eq_refl); congruence.
  - split; [intros; by simplify_result | by intros (-> & _)].
Qed.

Lemma bt_insert_sorted {V} k (v : V) m : bt_sorted m → bt_sorted (bt_insert k v m).
Proof.
  unfold bt_sorted. intros H.
  enough (StronglySorted (λ a b, String.compare a.1 b.1 = Lt) (bt_insert k v m)
          ∧ ∀ j, String.compare j k = Lt → Forall (λ b, String.compare j b.1 = Lt) m →
              Forall (λ b, String.compare j b.1 = Lt) (bt_insert k v m)) by tauto.
  induction H as [|[k1 v1] m Hm [IH1 IH2] Hf]; simpl.
  { split; [by repeat constructor|]. by repeat constructor. }
  destruct (String.compare k k1) eqn:E.
  - apply string_compare_eq in E as ->. split; [by constructor|].
    intros j Hj Hall. inversion Hall; by constructor.
  - split.
    + constructor; [by constructor|]. constructor; [done|].
      eapply Forall_impl; [done|]. intros b Hb. simpl in *. by eapply string_compare_trans.
    + intros j Hj Hall. by constructor.
  - split.
    + constructor; [done|]. apply IH2; [|done].
      simpl. rewrite String.compare_antisym, E. done.
    + intros j Hj Hall. inversion Hall; subst. constructor; auto.
Qed.

Lemma read_key_sorted entry tools kv entry' tools' :
  bt_sorted tools → read_key (entry, tools) kv = Ok (entry', tools') → bt_sorted tools'.
Proof.
  intros Hs H. destruct kv as [key value]. unfold read_key in H.
  repeat (case_decide; [simplify_result; try done|]).
  { apply rbind_Ok in H as (n & _ & H). by simplify_result. }
  destruct (str_strip_prefix "env." key); [by simplify_result|].
  apply rbind_Ok in H as (rest & _ & H). apply rbind_Ok in H as ([tool field] & _ & H).
  case_decide; [simplify_result; by apply bt_insert_sorted|].
  apply rbind_Ok in H as ([arg attr] & _ & H). simplify_result. by apply bt_insert_sorted.
Qed.

Lemma read_keys_sorted data entry tools entry' tools' :
  bt_sorted tools → read_keys (entry, tools) data = Ok (entry', tools') → bt_sorted tools'.
Proof.
  revert entry tools. induction data as [|kv data IH]; intros entry tools Hs H; simpl in H.
  { by simplify_result. }
  apply rbind_Ok in H as ([e1 t1] & H1 & H). eapply IH; [|done]. by eapply read_key_sorted.
Qed.

(** The grammar of the flat keys. *)
Definition known_key (key : string) : bool :=
  bool_decide (key ∈ ["image"; "keepalive"; "deadlineSeconds"])
  || str_starts_with "env." key
  || match str_strip_prefix "tool." key ≫= str_split_once dot with
     | Some (_, field) =>
         bool_decide (field = "description")
         || bool_decide (is_Some (str_strip_prefix "arg." field ≫= str_split_once dot))
     | None => false
     end.

Lemma read_key_known acc kv acc' : read_key acc kv = Ok acc' → known_key kv.1 = true.
Proof.
  destruct acc as [entry tools], kv as [key value]. unfold read_key, known_key. simpl. intros H.
  destruct (decide (key ∈ ["image"; "keepalive"; "deadlineSeconds"])) as [Ek|Ek];
    [by rewrite bool_decide_eq_true_2 by done|].
  rewrite bool_decide_eq_false_2 by done. cbn [orb].
  repeat (case_decide; [set_solver|]).
  destruct (str_strip_prefix "env." key) as [r|] eqn:Ee.
  { apply str_strip_prefix_Some in Ee. apply orb_true_iff. left.
    apply str_starts_with_spec. eauto. }
  apply orb_true_iff. right.
  apply rbind_Ok in H as (rest & Hr%ok_or_Ok & H).
  apply rbind_Ok in H as ([tool field] & Hs%ok_or_Ok & H).
  rewrite Hr. cbn [mbind option_bind]. rewrite Hs.
  case_decide; [by rewrite bool_decide_eq_true_2|].
  apply rbind_Ok in H as ([arg attr] & Ha%ok_or_Ok & H).
  apply orb_true_iff. right. apply bool_decide_eq_true.
  apply bind_Some in Ha as (a & Ha1 & Ha2). exists (arg, attr). apply bind_Some. eauto.
Qed.

Lemma read_keys_known data acc acc' :
  read_keys acc data = Ok acc' → Forall (λ kv, known_key kv.1 = true) data.
Proof.
  revert acc. induction data as [|kv data IH]; intros acc H; simpl in H; constructor;
    apply rbind_Ok in H as (a1 & H1 & H); eauto using read_key_known.
Qed.

Lemma build_tool_name t d : build_tool t = Ok d → tool_name d = t.1.
Proof.
  destruct t as [n [desc args]]. simpl. intros H. apply rbind_Ok in H as (? & _ & H).
  by simplify_result.
Qed.

(** ** Lemmas: argument validation *)

Section json_lemmas.
Context {Num : Type} (is_i64 is_u64 : Num → bool) (num_to_string : Num → string).

Abbreviation value_of := (arg_value is_i64 is_u64 num_to_string).

Definition provided (obj : list (string * Json Num)) (arg : ArgDecl) : option string :=
  bt_get (arg_name arg) obj ≫= value_of (arg_ty arg).

(** What the loop requires of one declared argument. *)
Definition arg_ok (obj : list (string * Json Num)) (arg : ArgDecl) : Prop :=
  match bt_get (arg_name arg) obj with
  | None => arg_required arg = false
  | Some v => is_Some (value_of (arg_ty arg) v)
  end.

Definition env_of (obj : list (string * Json Num)) (args : list ArgDecl) (m : gmap string string)
  : gmap string string :=
  foldl (λ m arg, match provided obj arg with Some s => <[arg_env arg := s]> m | None => m end) m args.

Lemma bind_args_Ok obj args m env :
  bind_args is_i64 is_u64 num_to_string obj args m = Ok env ↔
  Forall (arg_ok obj) args ∧ env = env_of obj args m.
Proof.
  revert m. induction args as [|arg args IH]; intros m; simpl.
  { split; [intros [= <-]; by split; [constructor|] | by intros [_ ->]]. }
  rewrite Forall_cons. unfold arg_ok at 1, provided.
  destruct (bt_get (arg_name arg) obj) as [v|]; simpl.
  - destruct (value_of (arg_ty arg) v); [|split; [done|by intros [[[? [=]] _] _]]].
    rewrite IH. naive_solver.
  - destruct (arg_required arg); [naive_solver|]. rewrite IH. naive_solver.
Qed.

Lemma env_of_other obj args m e :
  e ∉ arg_env <$> args → env_of obj args m !! e = m !! e.
Proof.
  revert m. induction args as [|arg args IH]; intros m He; simpl in *; [done|].
  rewrite IH by set_solver. destruct (provided obj arg); [|done].
  rewrite lookup_insert_ne by set_solver. done.
Qed.

Lemma env_of_lookup obj args m e s :
  NoDup (arg_env <$> args) →
  env_of obj args m !! e = Some s ↔
  (∃ arg, arg ∈ args ∧ arg_env arg = e ∧ provided obj arg = Some s)
  ∨ m !! e = Some s ∧ ∀ arg, arg ∈ args → arg_env arg = e → provided obj arg = None.
Proof.
  revert m. induction args as [|arg args IH]; intros m Hnd; simpl in *; [set_solver|].
  apply NoDup_cons in Hnd as [Hni Hnd]. rewrite IH by done.
  setoid_rewrite elem_of_cons.
  assert (∀ a, a ∈ args → arg_env a ≠ arg_env arg) as Hdiff.
  { intros a Ha E. apply Hni. rewrite <- E. by apply list_elem_of_fmap_2. }
  destruct (provided obj arg) as [s'|] eqn:Ep.
  - destruct (decide (arg_env arg = e)) as [<-|Hne].
    + rewrite lookup_insert_eq. naive_solver.
    + rewrite lookup_insert_ne by done. naive_solver.
  - naive_solver.
Qed.

Lemma undeclared_None (obj : list (string * Json Num)) args :
  undeclared obj args = None ↔ ∀ k, k ∈ fst <$> obj → k ∈ arg_name <$> args.
Proof.
  unfold undeclared. rewrite fmap_None, list_find_None, Forall_forall.
  apply forall_proper. intros k. split; intros H Hk; specialize (H Hk).
  - by destruct (decide (k ∈ arg_name <$> args)).
  - by intros ?.
Qed.
End json_lemmas.

(** ** Theorems *)

(** A grant is accepted exactly when it names a Secret and, if it mounts
    a file, the path is absolute and is none of the mounts a tool job relies
    on; its fields are carried over unchanged. *)
Theorem grant_accepted_iff raw g :
  grant_try_from raw = Ok g ↔
  g = mkGrant (raw_secret raw) (raw_path raw) (raw_egress raw) ∧ raw_secret raw ≠ "" ∧
  ∀ p, raw_path raw = Some p →
    (∃ r, p = "/" +:+ r) ∧ p ≠ SA_TOKEN_MOUNT_PATH ∧ p ≠ WORKSPACE_MOUNT_PATH ∧
    p ≠ DISPATCH_MOUNT_PATH ∧ ∀ r, p ≠ DISPATCH_MOUNT_PATH +:+ "/" +:+ r.
Proof.
  rewrite grant_try_from_Ok. unfold reserved_mount.
  assert (∀ p, str_starts_with (DISPATCH_MOUNT_PATH +:+ "/") p = false ↔
               ∀ r, p ≠ DISPATCH_MOUNT_PATH +:+ "/" +:+ r) as Hd.
  { intros p. pose proof (str_starts_with_spec (DISPATCH_MOUNT_PATH +:+ "/") p) as Hs.
    destruct (str_starts_with _ p); split; try done.
    - intros H. exfalso. destruct (proj1 Hs eq_refl) as [r ->]. by apply (H r).
    - intros _ r ->. destruct Hs as [_ Hs]. discriminate Hs. by exists r. }
  setoid_rewrite orb_false_iff. setoid_rewrite orb_false_iff. setoid_rewrite orb_false_iff.
  setoid_rewrite bool_decide_eq_false. setoid_rewrite str_starts_with_spec.
  setoid_rewrite Hd. naive_solver.
Qed.

(** The reserved-mount check compares paths as text: a trailing slash
    names the same directory and is let through, so a grant can mount its
    Secret over the workspace or the ServiceAccount token. *)
Theorem reserved_mount_slash_alias secret egress :
  secret ≠ "" →
  is_ok (grant_try_from (mkRawGrant secret (Some (WORKSPACE_MOUNT_PATH +:+ "/")) egress)) = true
  ∧ is_ok (grant_try_from (mkRawGrant secret (Some (SA_TOKEN_MOUNT_PATH +:+ "/")) egress)) = true.
Proof.
  intros Hs. unfold grant_try_from, str_is_empty. simpl.
  rewrite bool_decide_eq_false_2 by done. by split.
Qed.

Lemma reserved_mount_slash_alias_witness :
  is_ok (grant_try_from (mkRawGrant "s" (Some "/workspace/") None)) = true
  ∧ is_ok (grant_try_from (mkRawGrant "s" (Some (SA_TOKEN_MOUNT_PATH +:+ "/")) None)) = true.
Proof. by apply (reserved_mount_slash_alias "s" None). Defined.

(** Arguments a model supplies reach the tool only if they are a JSON
    object with declared keys, every required argument present and every
    present one of its declared type; the environment then holds exactly the
    provided arguments, each under its declared variable. *)
Theorem validate_call_input_spec {Num} is_i64 is_u64 (num_to_string : Num → string) json_parse
    input args env :
  NoDup (arg_env <$> args) →
  validate_call_input is_i64 is_u64 num_to_string json_parse input args = Ok env ↔
  ∃ obj, json_parse input = Ok (JObject obj) ∧
    (∀ k, k ∈ fst <$> obj → k ∈ arg_name <$> args) ∧
    (∀ arg, arg ∈ args → arg_ok is_i64 is_u64 num_to_string obj arg) ∧
    (∀ e s, env !! e = Some s ↔
       ∃ arg, arg ∈ args ∧ arg_env arg = e ∧ provided is_i64 is_u64 num_to_string obj arg = Some s).
Proof.
  intros Hnd. unfold validate_call_input. rewrite rbind_Ok. setoid_rewrite map_err_Ok. split.
  - intros (j & Hj & H). destruct j; try done. exists fields. split; [done|].
    destruct (undeclared fields args) eqn:Eu; [done|].
    apply bind_args_Ok in H as [Hok ->]. rewrite Forall_forall in Hok.
    split; [by apply undeclared_None|]. split; [done|].
    intros e s. rewrite env_of_lookup by done. set_solver.
  - intros (obj & Hj & Hk & Hok & He). exists (JObject obj). split; [done|].
    apply undeclared_None in Hk as ->. apply bind_args_Ok. split; [by apply Forall_forall|].
    apply map_eq. intros e. apply option_eq. intros s. rewrite He, env_of_lookup by done.
    set_solver.
Qed.

Lemma validate_call_input_spec_witness :
  validate_call_input (λ _ : nat, true) (λ _, true) (λ _, "7")
      (λ _, Ok (JObject [("count", JNumber 7)])) "{count: 7}"
      [mkArgDecl "count" ATInteger true "COUNT" None] = Ok {["COUNT" := "7"]} ↔
  ∃ obj, @Ok (Json nat) string (JObject [("count", JNumber 7)]) = Ok (JObject obj) ∧
    (∀ k, k ∈ fst <$> obj → k ∈ arg_name <$> [mkArgDecl "count" ATInteger true "COUNT" None]) ∧
    (∀ arg, arg ∈ [mkArgDecl "count" ATInteger true "COUNT" None] →
       arg_ok (λ _ : nat, true) (λ _, true) (λ _, "7") obj arg) ∧
    (∀ e s, ({["COUNT" := "7"]} : gmap string string) !! e = Some s ↔
       ∃ arg, arg ∈ [mkArgDecl "count" ATInteger true "COUNT" None] ∧ arg_env arg = e ∧
         provided (λ _ : nat, true) (λ _, true) (λ _, "7") obj arg = Some s).
Proof.
  apply (validate_call_input_spec (λ _ : nat, true) (λ _, true) (λ _, "7")
           (λ _, Ok (JObject [("count", JNumber 7)])) "{count: 7}"
           [mkArgDecl "count" ATInteger true "COUNT" None] {["COUNT" := "7"]}). by_compute.
Defined.



(** ** Kubernetes name segments *)

Definition seg_char (c : ascii) : bool :=
  is_ascii_lowercase c || is_ascii_digit c || bool_decide (c = hyphen).

(** An RFC 1123 label: lower-case letters, digits and inner hyphens. *)
Definition rfc1123 (s : bytes) : Prop :=
  s ≠ [] ∧ Forall (λ c, seg_char c = true) s ∧ head s ≠ Some hyphen ∧ last s ≠ Some hyphen.

(** The identifiers tool names are written with. *)
Definition ident_char (c : ascii) : bool :=
  is_ascii_uppercase c || is_ascii_lowercase c || is_ascii_digit c
  || bool_decide (c = underscore) || bool_decide (c = hyphen).
Definition alnum (c : ascii) : bool :=
  is_ascii_uppercase c || is_ascii_lowercase c || is_ascii_digit c.

Lemma ascii_forall (P : ascii → bool) :
  forallb (λ n, P (ascii_of_nat n)) (seq 0 256) = true → ∀ c, P c = true.
Proof.
  intros H c. rewrite List.forallb_forall in H.
  rewrite <- (ascii_nat_embedding c). apply H, List.in_seq.
  pose proof (nat_ascii_bounded c). lia.
Qed.

Lemma lower_seg c : is_ascii_uppercase c = true → is_ascii_lowercase (to_ascii_lowercase c) = true.
Proof.
  intros H. pose proof (ascii_forall (λ c, negb (is_ascii_uppercase c)
    || is_ascii_lowercase (to_ascii_lowercase c)) ltac:(vm_compute; reflexivity) c) as Hc.
  simpl in Hc. rewrite H in Hc. done.
Qed.

Definition ident_other_check (c : ascii) : bool :=
  negb (ident_char c) || bool_decide (c = underscore) || is_ascii_uppercase c
  || (bool_decide (push_byte_as_char c = [c]) && seg_char c).

Lemma ident_other c :
  ident_char c = true → c ≠ underscore → is_ascii_uppercase c = false →
  push_byte_as_char c = [c] ∧ seg_char c = true
  ∧ (alnum c = true → is_ascii_lowercase c || is_ascii_digit c = true).
Proof.
  intros Hi Hu Hup.
  pose proof (ascii_forall ident_other_check ltac:(vm_compute; reflexivity) c) as H.
  unfold ident_other_check in H. rewrite Hi, Hup, bool_decide_eq_false_2 in H by done. simpl in H.
  apply andb_true_iff in H as [H1%bool_decide_eq_true H2]. split_and!; [done..|].
  unfold alnum. by rewrite Hup.
Qed.

Definition low_alnum (c : ascii) : bool := is_ascii_lowercase c || is_ascii_digit c.

Lemma segment_go_inv s prev out :
  Forall (λ c, ident_char c = true) s →
  Forall (λ c, seg_char c = true) out →
  Forall (λ c, seg_char c = true) (segment_go prev s out)
  ∧ (Exists (λ c, low_alnum c = true) out ∨ Exists (λ c, alnum c = true) s →
     Exists (λ c, low_alnum c = true) (segment_go prev s out)).
Proof.
  revert prev out. induction s as [|b s IH]; intros prev out Hs Ho; cbn [segment_go].
  { split; [done|]. intros [?|H]; [done|]. by inversion H. }
  inversion Hs as [|? ? Hb Hs']; subst.
  match goal with |- context [segment_go _ s ?o] => set (out' := o) end.
  assert (Forall (λ c, seg_char c = true) out'
    ∧ (Exists (λ c, low_alnum c = true) out ∨ alnum b = true →
       Exists (λ c, low_alnum c = true) out')) as [Hf He].
  { subst out'. destruct (decide (b = underscore)) as [->|Hu].
    - split; [case_match; [done|]; apply Forall_app; by repeat constructor|].
      intros [?|[=]]. case_match; [done|]. apply Exists_app. by left.
    - destruct (is_ascii_uppercase b) eqn:Eup.
      + apply lower_seg in Eup. split.
        * apply Forall_app. split; [|constructor; [|done]; unfold seg_char; by rewrite Eup].
          case_match; [apply Forall_app; by repeat constructor|done].
        * intros _. apply Exists_app. right. constructor. unfold low_alnum. by rewrite Eup.
      + destruct (ident_other b) as (-> & Hsg & Hal); [done..|]. split.
        * apply Forall_app. by repeat constructor.
        * intros [?|?]; apply Exists_app; [by left|right]. constructor. by apply Hal. }
  destruct (IH (Some b) out' Hs' Hf) as [IH1 IH2]. split; [done|].
  intros [H|H]; apply IH2; [left; auto|]. inversion H; subst; auto.
Qed.

Lemma trim_hyphens_start_spec s :
  ∃ k, s = replicate k hyphen ++ trim_hyphens_start s ∧ head (trim_hyphens_start s) ≠ Some hyphen.
Proof.
  induction s as [|c s (k & Hs & Hh)]; simpl; [by exists 0|].
  case_decide; [subst|exists 0; simpl; split; congruence].
  exists (S k). simpl. split; [congruence|done].
Qed.

Lemma trim_hyphens_spec s :
  Exists (λ c, low_alnum c = true) s → Forall (λ c, seg_char c = true) s → rfc1123 (trim_hyphens s).
Proof.
  intros He Hf. unfold trim_hyphens.
  destruct (trim_hyphens_start_spec s) as (k & Hs & Hh).
  set (s1 := trim_hyphens_start s) in *.
  destruct (trim_hyphens_start_spec (reverse s1)) as (k' & Hr & Hh').
  set (s2 := trim_hyphens_start (reverse s1)) in *. clearbody s2. clearbody s1.
  apply (f_equal reverse) in Hr as H1.
  rewrite reverse_involutive, reverse_app, reverse_replicate in H1.
  assert (∀ n, Exists (λ c, low_alnum c = true) (replicate n hyphen) → False) as Hrep.
  { induction n; inversion 1; subst; [done|auto]. }
  assert (Exists (λ c, low_alnum c = true) (reverse s2)) as He2.
  { rewrite Hs, H1 in He. rewrite !Exists_app in He. naive_solver. }
  unfold rfc1123. split_and!.
  - intros E. rewrite E in He2. by inversion He2.
  - rewrite Hs, H1 in Hf. by apply Forall_app in Hf as [_ [? _]%Forall_app].
  - destruct (reverse s2) as [|c r] eqn:E; [done|]. rewrite H1 in Hh. done.
  - rewrite last_reverse. done.
Qed.

(** The Kubernetes segment of a tool name is a valid RFC 1123 label, for
    every name made of letters, digits, [_] and [-] with at least one letter
    or digit. *)
Theorem tool_name_segment_rfc1123 name :
  Forall (λ c, ident_char c = true) (B name) → Exists (λ c, alnum c = true) (B name) →
  rfc1123 (B (tool_name_to_k8s_segment name)).
Proof.
  intros Hf He. unfold tool_name_to_k8s_segment. rewrite B_str_of.
  destruct (segment_go_inv (B name) None []) as [H1 H2]; [done|constructor|].
  apply trim_hyphens_spec; [apply H2; by right|done].
Qed.

Lemma tool_name_segment_rfc1123_witness :
  rfc1123 (B (tool_name_to_k8s_segment "XMLHttp_Get")).
Proof. apply tool_name_segment_rfc1123; by_compute. Defined.
