(* ===== verification/Codec.v ===== *)
(** * One record per line

    The interface both append-only logs (conversation and execution) put
    their records behind, the file operations they share, and an instance
    that shows the interface can be met. *)

From S2P Require Import Prelude Text.

(** ** Line codecs

    What a component that stores records one per line relies on: printing
    puts a record on one non-blank line, and parsing reads it back. *)

Class LineCodec (A : Type) : Type := {
  encode_line : A → string;
  decode_line : string → option A;
  decode_line_encode : ∀ a, decode_line (encode_line a) = Some a;
  encode_no_newline : ∀ a, newline ∉ B (encode_line a);
  encode_no_trailing_cr : ∀ a, ¬ ∃ l, B (encode_line a) = l ++ [carriage];
  encode_nonblank : ∀ a, str_trim (encode_line a) ≠ "";
  encode_utf8 : ∀ a, utf8_valid (B (encode_line a)) = true }.

(** Two more facts of a printer that writes one JSON object per record: a
    record cut short does not parse, nor does a cut (or whole) record with
    another one right behind it. *)
Class SelfDelimiting (A : Type) `{LineCodec A} : Prop := {
  decode_prefix : ∀ (a : A) n, n < length (B (encode_line a)) →
    decode_line (A:=A) (str_of (take n (B (encode_line a)))) = None;
  decode_joined : ∀ (a b : A) n, 0 < n →
    decode_line (A:=A) (str_of (take n (B (encode_line a))) +:+ encode_line b) = None }.

(** A log file: what one append adds, and the tolerant reader. *)
Definition line_of {A} `{LineCodec A} (a : A) : string := encode_line a +:+ str_of [newline].

Definition read_lines {A} `{LineCodec A} (contents : string) : list A :=
  omap (λ line, if str_is_empty (str_trim line) then None else decode_line line)
       (str_lines contents).


(** [fs::read_to_string] on the file: [None] when the bytes are not UTF-8. *)
Definition read_file {A} `{LineCodec A} (contents : string) : option (list A) :=
  if utf8_valid (B contents) then Some (read_lines contents) else None.

(** What can happen to one append: the record is written; an earlier call
    fails; or the write stops after some bytes, by an error or a crash. *)
Inductive AppendIo : Type :=
| AppendDone
| AppendRefused (err : string)
| AppendTorn (err : string) (written : nat).

Definition append_line {A} `{LineCodec A} (io : AppendIo) (file : option string) (a : A)
  : option string * result unit string :=
  match io with
  | AppendDone => (Some (default "" file +:+ line_of a), Ok tt)
  | AppendRefused err => (file, Err err)
  | AppendTorn err n => (Some (default "" file +:+ str_of (take n (B (line_of a)))), Err err)
  end.

(** A file holds whole lines, or ends in a line torn by a crash. *)
Definition terminated (s : bytes) : Prop := s = [] ∨ ∃ s', s = s' ++ [newline].

(** ** An instance: a countable type, in brackets, in binary *)

Fixpoint bits_of (p : positive) : bytes :=
  match p with
  | xH => []
  | xO p => "0"%char :: bits_of p
  | xI p => "1"%char :: bits_of p
  end.

Fixpoint of_bits (s : bytes) : option positive :=
  match s with
  | [] => Some xH
  | c :: s => if decide (c = "0"%char) then xO <$> of_bits s
              else if decide (c = "1"%char) then xI <$> of_bits s else None
  end.

(** The opening mark is not ASCII, as a JSON record's text need not be. *)
Definition bits_open : bytes := ["{"%char; byte_of 195; byte_of 169].

Definition bits_encode {A} `{Countable A} (a : A) : string :=
  str_of (bits_open ++ bits_of (encode a) ++ ["}"%char]).

Definition bits_decode {A} `{Countable A} (s : string) : option A :=
  rest ← strip_prefix bits_open (B s);
  body ← strip_suffix (B "}") rest;
  p ← of_bits body;
  decode p.

(** ** Lemmas *)

Lemma split_app_gen c s t : split c (s ++ c :: t) = split c s ++ split c t.
Proof.
  induction s as [|b s IH]; simpl; [by rewrite decide_True|].
  case_decide; [by rewrite IH|]. rewrite IH.
  destruct (split c s) eqn:E; [by apply split_ne in E|done].
Qed.

Lemma lines_of_app ps qs : qs ≠ [] → lines_of (ps ++ qs) = (strip_cr <$> ps) ++ lines_of qs.
Proof.
  intros Hq. induction ps as [|p ps IH]; [done|].
  change ((p :: ps) ++ qs) with (p :: (ps ++ qs)). rewrite lines_of_cons.
  - by rewrite IH.
  - by destruct ps, qs.
Qed.

Lemma lines_bytes_app s t : terminated s → lines_bytes (s ++ t) = lines_bytes s ++ lines_bytes t.
Proof.
  intros [->|[s' ->]]; [done|]. unfold lines_bytes.
  rewrite <- app_assoc. change ([newline] ++ t) with (newline :: t).
  rewrite !split_app_gen, lines_of_app by apply split_ne.
  change (split newline []) with ([[]] : list bytes). rewrite lines_of_app by done.
  by rewrite app_nil_r.
Qed.

Lemma lines_bytes_single l :
  newline ∉ l → ¬ (∃ l', l = l' ++ [carriage]) → lines_bytes (l ++ [newline]) = [l].
Proof.
  intros Hn Hc. unfold lines_bytes. rewrite split_app by done. simpl. unfold strip_cr.
  by replace (strip_suffix [carriage] l) with (@None bytes)
    by (symmetry; by apply strip_suffix_None).
Qed.

Lemma lines_bytes_unterminated l : newline ∉ l → l ≠ [] → lines_bytes l = [l].
Proof. intros Hn Hl. unfold lines_bytes. rewrite split_no_sep by done. by destruct l. Qed.

Lemma terminated_app s t : terminated t → t ≠ [] → terminated (s ++ t).
Proof. intros [->|[t' ->]] Ht; [done|]. right. exists (s ++ t'). by rewrite app_assoc. Qed.

Section line_codec.
Context {A : Type} `{LineCodec A}.

Definition decode_one (line : string) : option A :=
  if str_is_empty (str_trim line) then None else decode_line line.

Lemma decode_one_encode (a : A) : decode_one (encode_line a) = Some a.
Proof.
  unfold decode_one, str_is_empty. pose proof (encode_nonblank a).
  rewrite bool_decide_eq_false_2 by done. apply decode_line_encode.
Qed.

Lemma B_line_of (a : A) : B (line_of a) = B (encode_line a) ++ [newline].
Proof. unfold line_of. by rewrite B_app, B_str_of. Qed.

Lemma line_of_terminated (a : A) : terminated (B (line_of a)).
Proof. right. exists (B (encode_line a)). apply B_line_of. Qed.

Lemma line_of_ne (a : A) : B (line_of a) ≠ [].
Proof. rewrite B_line_of. by destruct (B (encode_line a)). Qed.

(** Appending a record to a file of whole lines appends it to what is read. *)
Lemma read_lines_append (c : string) (a : A) :
  terminated (B c) → read_lines (c +:+ line_of a) = read_lines c ++ [a].
Proof.
  intros Ht. unfold read_lines, str_lines.
  rewrite B_app, lines_bytes_app, B_line_of, lines_bytes_single
    by (done || apply encode_no_newline || apply encode_no_trailing_cr).
  rewrite fmap_app, omap_app. f_equal. simpl. rewrite str_of_B.
  pose proof (decode_one_encode a) as Hd. unfold decode_one in Hd. by rewrite Hd.
Qed.

(** A torn last line that does not parse is skipped. *)
Lemma read_lines_torn (c : string) (torn : bytes) :
  terminated (B c) → newline ∉ torn → decode_one (str_of torn) = None →
  read_lines (c +:+ str_of torn) = read_lines c.
Proof.
  intros Ht Hn Hd. unfold read_lines, str_lines. rewrite B_app, B_str_of, lines_bytes_app by done.
  destruct (decide (torn = [])) as [->|Hne].
  { change (lines_bytes []) with ([] : list bytes). by rewrite app_nil_r. }
  rewrite (lines_bytes_unterminated torn) by done. rewrite fmap_app, omap_app. simpl.
  unfold decode_one in Hd. rewrite Hd. by rewrite app_nil_r.
Qed.

(** The record appended after a torn line shares its line. *)
Lemma read_lines_append_torn (c : string) (torn : bytes) (a : A) :
  terminated (B c) → newline ∉ torn →
  decode_one (str_of torn +:+ encode_line a) = None →
  read_lines ((c +:+ str_of torn) +:+ line_of a) = read_lines c.
Proof.
  intros Ht Hn Hd. unfold read_lines, str_lines.
  rewrite !B_app, B_str_of, B_line_of, <- app_assoc, lines_bytes_app by done.
  rewrite app_assoc, lines_bytes_single.
  - rewrite fmap_app, omap_app. simpl. rewrite <- (B_str_of torn), <- B_app, str_of_B.
    unfold decode_one in Hd. rewrite Hd. by rewrite app_nil_r.
  - pose proof (encode_no_newline a). set_solver.
  - intros [l' Hl]. apply (encode_no_trailing_cr a).
    destruct (decide (B (encode_line a) = [])) as [E|E].
    { destruct (encode_nonblank a). apply B_nil in E. by rewrite E. }
    destruct (exists_last E) as (l & x & Hx). exists l. rewrite Hx in *.
    rewrite app_assoc in Hl. apply app_inj_tail in Hl as [_ ->]. done.
Qed.
End line_codec.

Lemma of_bits_bits p : of_bits (bits_of p) = Some p.
Proof. induction p as [p IH|p IH|]; simpl; [by rewrite IH..|done]. Qed.

Lemma bits_of_chars p c : c ∈ bits_of p → c = "0"%char ∨ c = "1"%char.
Proof. induction p; simpl; set_solver. Qed.


Lemma bits_nonblank p : trim_bytes (bits_open ++ bits_of p ++ ["}"%char]) ≠ [].
Proof.
  assert (∀ s, trim_start ("{"%char :: s) = "{"%char :: s) as Hs by (by intros [|? [|??]]).
  assert (∀ s, trim_start_rev ("}"%char :: s) = "}"%char :: s) as He.
  { intros [|b [|c s]]; [done|simpl..]; unfold ws2, ws3; simpl; by rewrite ?andb_false_r. }
  unfold trim_bytes, trim_end. change (bits_open ++ ?s) with ("{"%char :: drop 1 bits_open ++ s).
  rewrite Hs, app_comm_cons, app_assoc, reverse_snoc, He, reverse_cons. by destruct (reverse _).
Qed.

Lemma utf8_valid_ascii s : Forall (λ c, in_range 0 127 c = true) s → utf8_valid s = true.
Proof. induction 1 as [|c s Hc _ IH]; [done|]. cbn [utf8_valid]. by rewrite Hc. Qed.

Lemma utf8_valid_app s t : utf8_valid s = true → utf8_valid (s ++ t) = utf8_valid t.
Proof.
  remember (length s) as n eqn:Hn. revert s Hn.
  induction n as [n IH] using lt_wf_ind. intros s ->.
  destruct s as [|a s1]; [done|]. cbn [utf8_valid app]. case_match.
  { intros. apply (IH (length s1)); simpl; auto with lia. }
  destruct s1 as [|b s2]; [done|]. cbn [app]. case_match.
  { intros. apply (IH (length s2)); simpl; auto with lia. }
  destruct s2 as [|c s3]; [done|]. cbn [app]. case_match.
  { intros. apply (IH (length s3)); simpl; auto with lia. }
  destruct s3 as [|d s4]; [done|]. cbn [app]. case_match; [|done].
  intros. apply (IH (length s4)); simpl; auto with lia.
Qed.

#[export] Program Instance bits_codec {A} `{Countable A} : LineCodec A := {|
  encode_line := bits_encode; decode_line := bits_decode |}.
Next Obligation.
  intros A ? ? a. unfold bits_decode, bits_encode. rewrite B_str_of.
  apply bind_Some. exists (bits_of (encode a) ++ ["}"%char]).
  split; [by apply strip_prefix_Some|]. apply bind_Some. exists (bits_of (encode a)).
  split; [by apply strip_suffix_Some|]. rewrite of_bits_bits. simpl. apply decode_encode.
Qed.
Next Obligation.
  intros A ? ? a. unfold bits_encode. rewrite B_str_of, !elem_of_app, list_elem_of_singleton.
  intros [Ho|[[[=]|[=]]%bits_of_chars|[=]]]. revert Ho. by_compute.
Qed.
Next Obligation.
  intros A ? ? a [l Hl]. unfold bits_encode in Hl. rewrite B_str_of, app_assoc in Hl.
  by apply app_inj_tail in Hl as [_ [=]].
Qed.
Next Obligation.
  intros A ? ? a Hl. apply (f_equal B) in Hl. unfold str_trim, bits_encode in Hl.
  rewrite !B_str_of in Hl. by apply bits_nonblank in Hl.
Qed.
Next Obligation.
  intros A ? ? a. unfold bits_encode. rewrite B_str_of, utf8_valid_app by done.
  apply utf8_valid_ascii, Forall_app_2; [|by repeat constructor].
  apply Forall_forall. intros c [-> | ->]%bits_of_chars; done.
Qed.

Lemma of_bits_chars s p : of_bits s = Some p → Forall (λ c, c = "0"%char ∨ c = "1"%char) s.
Proof.
  revert p. induction s as [|c s IH]; intros p; [constructor|]. simpl.
  repeat case_decide; intros Hs; [apply fmap_Some in Hs as (q & Hq & _)..|done];
    constructor; eauto.
Qed.

Lemma bits_decode_Some {A} `{Countable A} s (a : A) :
  bits_decode s = Some a →
  ∃ body, B s = bits_open ++ body ++ ["}"%char] ∧ "{"%char ∉ body ∧ "}"%char ∉ body.
Proof.
  unfold bits_decode. intros H'.
  apply bind_Some in H' as (rest & Hr & H'). apply bind_Some in H' as (body & Hb & H').
  apply bind_Some in H' as (p & Hp & _).
  apply strip_prefix_Some in Hr. apply strip_suffix_Some in Hb. subst rest.
  apply of_bits_chars in Hp. rewrite Forall_forall in Hp. exists body. split; [done|].
  split; intros Hc; by destruct (Hp _ Hc).
Qed.

Lemma bits_decode_prefix {A} `{Countable A} (a : A) n :
  n < length (B (bits_encode a)) →
  bits_decode (A:=A) (str_of (take n (B (bits_encode a)))) = None.
Proof.
  intros Hn. destruct (bits_decode _) as [x|] eqn:E; [exfalso|done].
  apply bits_decode_Some in E as (body & E & _ & Hb). rewrite B_str_of in E.
  pose proof (take_drop n (B (bits_encode a))) as Ht. rewrite E in Ht.
  destruct (decide (drop n (B (bits_encode a)) = [])) as [Ed|Ed].
  { apply (f_equal length) in Ed. rewrite length_drop in Ed. cbn [length] in Ed. lia. }
  apply exists_last in Ed as (r & x' & Ed). rewrite Ed in Ht.
  unfold bits_encode in Ht. rewrite B_str_of in Ht.
  rewrite <- (app_assoc bits_open) in Ht. apply app_inv_head in Ht. rewrite app_assoc in Ht.
  apply app_inj_tail in Ht as [Ht _].
  assert ("}"%char ∈ bits_of (encode a)) as Hin by (rewrite <- Ht; set_solver).
  by apply bits_of_chars in Hin as [[=]|[=]].
Qed.

Lemma bits_decode_joined {A} `{Countable A} (a b : A) n :
  0 < n → bits_decode (A:=A) (str_of (take n (B (bits_encode a))) +:+ bits_encode b) = None.
Proof.
  intros Hn. destruct (bits_decode _) as [x|] eqn:E; [exfalso|done].
  apply bits_decode_Some in E as (body & E & Hb & _). rewrite B_app, B_str_of in E.
  unfold bits_encode in E. rewrite !B_str_of in E.
  destruct n as [|[|[|n]]]; [lia|by apply (f_equal (lookup 1)) in E|by apply (f_equal (lookup 2)) in E|].
  rewrite !app_assoc in E. apply app_inj_tail in E as [E _].
  apply (f_equal (drop 3)) in E. change (drop 3 (bits_open ++ body)) with body in E.
  apply Hb. rewrite <- E. simpl. set_solver.
Qed.

#[export] Instance bits_self_delimiting {A} `{Countable A} : SelfDelimiting A.
Proof. split; [apply bits_decode_prefix|apply bits_decode_joined]. Qed.
