(* ===== verification/Conversation.v ===== *)
(** * The conversation log

    Models [crates/harness/src/conversation.rs]: the append-only ND-JSON log
    and its [meta.json] sidecar in one conversation directory
    ([LocalFsStore]), the in-memory [ConversationLog] over it, history scopes,
    snapshots, and [strip_frontmatter]. [serde_json] enters through the
    interface [LineCodec], the clock and the outcome of each file-system call
    are arguments. *)

From S2P Require Import Prelude Text Proto Codec.

(** ** Entries *)

Record LogEntry : Type := mkLogEntry {
  le_ts : string; le_role : string; le_content : list ContentBlock;
  le_tool_calls : list ToolCall; le_tool_call_id : option string; le_is_error : option bool;
  le_tag : option string; le_model : option string; le_system_prompt_sha256 : option string;
  le_warnings : list string }.

Record AssistantAttribution : Type := mkAttribution {
  at_model : option string; at_system_prompt_sha256 : option string; at_warnings : list string }.

Definition default_attribution : AssistantAttribution := mkAttribution None None [].

Record Entry : Type := mkEntry {
  en_ts : string; en_message : Message; en_tag : option string;
  en_attribution : AssistantAttribution }.

(** One conversation's directory: [conversation.json], [meta.json] and its
    temporary, [execution.json]. *)
Record ConvDir : Type := mkConvDir {
  cd_log : option string; cd_meta : option string; cd_meta_tmp : option string;
  cd_exec : option string }.

Definition empty_dir : ConvDir := mkConvDir None None None None.

(** Image bytes of a tool message are not persisted. *)
Definition redact_block (b : ContentBlock) : ContentBlock :=
  match cb_block b with
  | Some (BImage media_type _) => image_block media_type []
  | _ => b
  end.

Definition entry_to_log_entry (e : Entry) : LogEntry :=
  let m := en_message e in
  let content := if decide (msg_role m = "tool") then redact_block <$> msg_content m
                 else msg_content m in
  mkLogEntry (en_ts e) (msg_role m) content (msg_tool_calls m) (msg_tool_call_id m)
             (msg_is_error m) (en_tag e) (at_model (en_attribution e))
             (at_system_prompt_sha256 (en_attribution e)) (at_warnings (en_attribution e)).

Definition log_entry_to_entry (l : LogEntry) : Entry :=
  mkEntry (le_ts l)
    (mkMessage (le_role l) (le_content l) (le_tool_calls l) (le_tool_call_id l) (le_is_error l))
    (le_tag l)
    (mkAttribution (le_model l) (le_system_prompt_sha256 l) (le_warnings l)).

(** ** The [meta.json] sidecar *)

Record MetaFile : Type := mkMetaFile { mf_name : string; mf_owner : string }.

(** What can happen to a sidecar write: it is renamed into place; an earlier
    call fails; the temporary is cut short; the rename fails. *)
Inductive MetaIo : Type :=
| MetaDone
| MetaRefused (err : string)
| MetaTorn (err : string) (written : nat)
| MetaNotRenamed (err : string).

Section meta.
Context `{LineCodec MetaFile}.

Definition write_meta (io : MetaIo) (d : ConvDir) (name owner : string)
  : ConvDir * result unit string :=
  let payload := encode_line (mkMetaFile name owner) in
  match io with
  | MetaDone => (mkConvDir (cd_log d) (Some payload) None (cd_exec d), Ok tt)
  | MetaRefused err => (d, Err err)
  | MetaTorn err n =>
      (mkConvDir (cd_log d) (cd_meta d) (Some (str_of (take n (B payload)))) (cd_exec d), Err err)
  | MetaNotRenamed err =>
      (mkConvDir (cd_log d) (cd_meta d) (Some payload) (cd_exec d), Err err)
  end.

Definition read_meta (io : option string) (d : ConvDir) : result (option (string * string)) string :=
  match io, cd_meta d with
  | Some err, _ => Err err
  | None, None => Ok None
  | None, Some c =>
      let? meta := ok_or (decode_line c) "malformed meta.json" in
      Ok (Some (mf_name meta, mf_owner meta))
  end.
End meta.

(** ** The store, with the outcome of its file-system calls *)

Section store.
Context `{LineCodec LogEntry}.

Definition append_event (io : AppendIo) (d : ConvDir) (e : LogEntry)
  : ConvDir * result unit string :=
  let '(file, r) := append_line io (cd_log d) e in
  (mkConvDir file (cd_meta d) (cd_meta_tmp d) (cd_exec d), r).

(** [io] is the error of a read that fails for another reason than a missing
    file; bytes that are not UTF-8 fail it too. *)
Definition read_all (io : option string) (d : ConvDir) : result (list LogEntry) string :=
  match io, cd_log d with
  | Some err, _ => Err err
  | None, None => Ok []
  | None, Some c => ok_or (read_file c) "stream did not contain valid UTF-8"
  end.

(** ** [ConversationLog] *)

Record ConversationLog : Type := mkLog { cl_entries : list Entry; cl_dir : ConvDir }.

Definition log_new (d : ConvDir) : ConversationLog := mkLog [] d.

Definition log_rebuild (io : option string) (d : ConvDir) : result ConversationLog string :=
  let? persisted := read_all io d in
  Ok (mkLog (log_entry_to_entry <$> persisted) d).

(** Persist, then push. *)
Definition push_entry (io : AppendIo) (e : Entry) : handler ConversationLog unit string :=
  λ l, match append_event io (cl_dir l) (entry_to_log_entry e) with
       | (d, Ok _) => (mkLog (cl_entries l ++ [e]) d, Ok tt)
       | (d, Err err) => (mkLog (cl_entries l) d, Err err)
       end.

Definition append_tagged (io : AppendIo) (now : string) (message : Message)
    (tag : option string) : handler ConversationLog unit string :=
  if decide (msg_role message = "assistant")
  then herr "append_tagged rejects role=assistant; use append_assistant_tagged"
  else push_entry io (mkEntry now message tag default_attribution).

Definition append_assistant_tagged (io : AppendIo) (now : string) (message : Message)
    (tag : option string) (attribution : AssistantAttribution)
  : handler ConversationLog unit string :=
  if decide (msg_role message ≠ "assistant")
  then herr ("append_assistant_tagged requires role=assistant, got " +:+ msg_role message)
  else match msg_content message, msg_tool_calls message with
       | [], [] => herr "refusing to persist assistant message with no content and no tool_calls"
       | _, _ => push_entry io (mkEntry now message tag attribution)
       end.

(** [append_many_tagged]: stops at the first failure. *)
Fixpoint append_many_tagged (io : nat → AppendIo) (now : string) (messages : list Message)
    (tag : option string) : handler ConversationLog unit string :=
  match messages with
  | [] => hret tt
  | m :: messages => do _ <- append_tagged (io 0) now m tag;
                     append_many_tagged (λ n, io (S n)) now messages tag
  end.
End store.

Definition log_len (l : ConversationLog) : nat := length (cl_entries l).
Definition log_history (l : ConversationLog) : list Message := en_message <$> cl_entries l.

(** ** Scopes *)

Definition DELEGATE_TAG_PREFIX : string := "delegate:".

Inductive HistoryScope : Type :=
| Orchestrator
| Delegate (call_id parent_conversation_id agent_name : string).

Definition entry_in_scope (e : Entry) (scope : HistoryScope) : bool :=
  match scope with
  | Orchestrator =>
      negb (match en_tag e with Some t => str_starts_with DELEGATE_TAG_PREFIX t | None => false end)
  | Delegate call_id _ _ => bool_decide (en_tag e = Some (DELEGATE_TAG_PREFIX +:+ call_id))
  end.

(** [agent.rs] [scope_tag]: the tag entries appended in a scope carry. *)
Definition scope_tag (scope : HistoryScope) : option string :=
  match scope with
  | Orchestrator => None
  | Delegate call_id _ _ => Some (DELEGATE_TAG_PREFIX +:+ call_id)
  end.

(** [derive_tag], with [is_delegate] for [role = Some(TurnRole::Delegate)]. *)
Definition derive_tag (is_delegate : bool) (conversation_id : option string) : option string :=
  if is_delegate then (λ id, DELEGATE_TAG_PREFIX +:+ id) <$> conversation_id else None.

Definition history_for_provider (l : ConversationLog) (scope : HistoryScope) : list Message :=
  en_message <$> filter (λ e, entry_in_scope e scope = true) (cl_entries l).

Definition last_assistant_model (l : ConversationLog) (scope : HistoryScope) : option string :=
  '(_, e) ← list_find (λ e, msg_role (en_message e) = "assistant"
                             ∧ at_model (en_attribution e) ≠ None)
              (filter (λ e, entry_in_scope e scope = true) (reverse (cl_entries l)));
  at_model (en_attribution e).

(** ** Snapshots *)

Record EntrySnapshot : Type := mkEntrySnapshot {
  es_seq : nat; es_ts : string; es_message : Message; es_tag : option string }.

Definition log_snapshot (l : ConversationLog) (limit : option nat) : list EntrySnapshot * nat :=
  let total := length (cl_entries l) in
  let effective_limit := match limit with None | Some 0 => total | Some n => Nat.min n total end in
  let skip := total - effective_limit in
  (drop skip (imap (λ idx e, mkEntrySnapshot (idx + 1) (en_ts e) (en_message e) (en_tag e))
                   (cl_entries l)), total).

(** ** Frontmatter *)

(** The YAML a frontmatter block parses to, as far as the code looks. *)
Inductive YVal : Type := YStr (s : string) | YSeq (l : list YVal) | YElse.
Inductive YDoc : Type := YMapping (m : list (string * YVal)) | YNotMapping | YBad.

Record Frontmatter : Type := mkFrontmatter {
  fm_model : option string; fm_tools : option (list string) }.
Definition default_frontmatter : Frontmatter := mkFrontmatter None None.

Definition y_as_str (v : YVal) : option string := match v with YStr s => Some s | _ => None end.
Definition y_as_sequence (v : YVal) : option (list YVal) := match v with YSeq l => Some l | _ => None end.

Definition FRONTMATTER_SCAN_LIMIT : nat := Z.to_nat 4096.

Definition dashes : bytes := B "---".

(** The newline-terminated lines of the scan region: the first that reads
    [---], as (where it starts, where the next line starts); otherwise where
    the unterminated last line starts. *)
Fixpoint find_closer (pos line_start : nat) (line region : bytes) : (nat * nat) + nat :=
  match region with
  | [] => inr line_start
  | b :: region =>
      if decide (b = newline) then
        if decide (strip_cr line = dashes) then inl (line_start, S pos)
        else find_closer (S pos) (S pos) [] region
      else find_closer (S pos) line_start (line ++ [b]) region
  end.

Section frontmatter.
Context (yaml_parse : string → YDoc).

Definition frontmatter_of (yaml_text : string) : option Frontmatter :=
  match yaml_parse yaml_text with
  | YMapping m => Some (mkFrontmatter (bt_get "model" m ≫= y_as_str)
                          ((λ l : list YVal, omap y_as_str l) <$> (bt_get "tools" m ≫= y_as_sequence)))
  | YNotMapping => Some default_frontmatter
  | YBad => None
  end.

Definition BOM : bytes := [byte_of 239; byte_of 187; byte_of 191].

Definition opener_len (after_bom : bytes) : option nat :=
  if starts_with (dashes ++ [newline]) after_bom then Some 4
  else if starts_with (dashes ++ [carriage; newline]) after_bom then Some 5
  else None.

(** [None] is the panic of [&after_bom[opener_len..scan_end]] when byte
    [scan_end] is inside a character; the other slices cut at newlines or at
    the end. *)
Definition strip_frontmatter (input : string) : option (string * Frontmatter) :=
  let raw := B input in
  let after_bom := if starts_with BOM raw then drop 3 raw else raw in
  let unchanged := Some (input, default_frontmatter) in
  match opener_len after_bom with
  | None => unchanged
  | Some n =>
      let scan_end := Nat.min (length after_bom) FRONTMATTER_SCAN_LIMIT in
      if is_char_boundary after_bom scan_end then
        let region := drop n (take scan_end after_bom) in
        let closer :=
          match find_closer 0 0 [] region with
          | inl c => Some c
          | inr line_start =>
              if (length region <? FRONTMATTER_SCAN_LIMIT - n)
                 && bool_decide (strip_cr (drop line_start region) = dashes)
              then Some (line_start, length region) else None
          end in
        match closer with
        | None => unchanged
        | Some (yaml_end, body_start) =>
            match frontmatter_of (str_of (take yaml_end region)) with
            | None => unchanged
            | Some fm => Some (str_of (drop (n + body_start) after_bom), fm)
            end
        end
      else None
  end.
End frontmatter.

(** ** The log on disk *)

(** What a restart keeps of an entry. *)
Definition redact_entry (e : Entry) : Entry :=
  let m := en_message e in
  mkEntry (en_ts e)
    (if decide (msg_role m = "tool")
     then mkMessage (msg_role m) (redact_block <$> msg_content m) (msg_tool_calls m)
                    (msg_tool_call_id m) (msg_is_error m)
     else m) (en_tag e) (en_attribution e).

Lemma log_entry_roundtrip e : log_entry_to_entry (entry_to_log_entry e) = redact_entry e.
Proof.
  destruct e as [ts m tag at']. unfold log_entry_to_entry, entry_to_log_entry, redact_entry. simpl.
  destruct m, at'. simpl. by case_decide.
Qed.

(** What a log sees over its life: appends, and restarts. *)
Inductive LogOp : Type :=
| OpTagged (io : AppendIo) (now : string) (m : Message) (tag : option string)
| OpAssistant (io : AppendIo) (now : string) (m : Message) (tag : option string)
              (at' : AssistantAttribution)
| OpMany (io : nat → AppendIo) (now : string) (ms : list Message) (tag : option string)
| OpRestart.

(** The entries an operation is to add. *)
Definition done_only (io : AppendIo) (e : Entry) : list Entry :=
  match io with AppendDone => [e] | _ => [] end.

Fixpoint accepted_many (io : nat → AppendIo) (now : string) (ms : list Message)
    (tag : option string) : list Entry :=
  match ms with
  | [] => []
  | m :: ms =>
      match io 0 with
      | AppendDone =>
          if decide (msg_role m = "assistant") then []
          else mkEntry now m tag default_attribution :: accepted_many (λ n, io (S n)) now ms tag
      | _ => []
      end
  end.

Definition accepted (o : LogOp) : list Entry :=
  match o with
  | OpTagged io now m tag =>
      if decide (msg_role m = "assistant") then []
      else done_only io (mkEntry now m tag default_attribution)
  | OpAssistant io now m tag at' =>
      if decide (msg_role m = "assistant" ∧ (msg_content m ≠ [] ∨ msg_tool_calls m ≠ []))
      then done_only io (mkEntry now m tag at') else []
  | OpMany io now ms tag => accepted_many io now ms tag
  | OpRestart => []
  end.

Section disk.
Context `{LineCodec LogEntry}.

Definition run_op (o : LogOp) : handler ConversationLog unit string :=
  match o with
  | OpTagged io now m tag => append_tagged io now m tag
  | OpAssistant io now m tag at' => append_assistant_tagged io now m tag at'
  | OpMany io now ms tag => append_many_tagged io now ms tag
  | OpRestart => λ l, match log_rebuild None (cl_dir l) with
                      | Ok l' => (l', Ok tt)
                      | Err e => (l, Err e)
                      end
  end.

(** The caller goes on after a failed append. *)
Definition run_ops (ops : list LogOp) (l : ConversationLog) : ConversationLog :=
  foldl (λ l o, (run_op o l).1) l ops.

Definition untorn (io : AppendIo) : Prop :=
  match io with AppendTorn _ _ => False | _ => True end.

Definition op_untorn (o : LogOp) : Prop :=
  match o with
  | OpTagged io _ _ _ | OpAssistant io _ _ _ _ => untorn io
  | OpMany io _ _ _ => ∀ n, untorn (io n)
  | OpRestart => True
  end.

(** The file holds whole lines, one per entry. *)
Definition log_agrees (l : ConversationLog) : Prop :=
  let c := default "" (cd_log (cl_dir l)) in
  terminated (B c) ∧ utf8_valid (B c) = true ∧
  read_lines c = entry_to_log_entry <$> cl_entries l.

Lemma utf8_line_of (a : LogEntry) : utf8_valid (B (line_of a)) = true.
Proof. rewrite B_line_of, utf8_valid_app by apply encode_utf8. done. Qed.

Lemma log_agrees_new : log_agrees (log_new empty_dir).
Proof. split; [by left|done]. Qed.

Lemma entry_to_log_entry_redacted e : entry_to_log_entry (redact_entry e) = entry_to_log_entry e.
Proof.
  destruct e as [ts m tag at']. unfold entry_to_log_entry, redact_entry. simpl.
  case_decide as Hr; simpl; [|by rewrite decide_False]. rewrite decide_True by done.
  f_equal. rewrite <- list_fmap_compose. apply list_fmap_ext. intros _ [[[]|]] _; done.
Qed.

(** [step_adds f es]: [f] keeps the file in agreement and adds [es], up to
    what a restart drops. *)
Definition step_adds (f : ConversationLog → ConversationLog) (es : list Entry) : Prop :=
  ∀ l, log_agrees l → log_agrees (f l) ∧
       redact_entry <$> cl_entries (f l) = redact_entry <$> (cl_entries l ++ es).

Lemma step_adds_nil : step_adds id [].
Proof. intros l Hl. by rewrite app_nil_r. Qed.

Lemma step_adds_compose f g es es' :
  step_adds f es → step_adds g es' → step_adds (λ l, g (f l)) (es ++ es').
Proof.
  intros Hf Hg l Hl. destruct (Hf l Hl) as [Hl' E]. destruct (Hg _ Hl') as [Hl'' E'].
  split; [done|]. by rewrite E', app_assoc, !(fmap_app _ (_ ++ _)), <- E, fmap_app.
Qed.

Lemma push_entry_adds io e : untorn io → step_adds (λ l, (push_entry io e l).1) (done_only io e).
Proof.
  intros Hio l (Ht & Hu & Hr). unfold push_entry, append_event. destruct io; [| |done].
  - unfold log_agrees. simpl. rewrite B_app, utf8_valid_app, utf8_line_of by done.
    split_and!; [|done| |done].
    + apply terminated_app; [apply line_of_terminated|apply line_of_ne].
    + by rewrite read_lines_append, Hr, fmap_app.
  - split; [done|]. by rewrite app_nil_r.
Qed.

Lemma append_tagged_adds io now m tag :
  untorn io → step_adds (λ l, (append_tagged io now m tag l).1) (accepted (OpTagged io now m tag)).
Proof.
  intros. unfold append_tagged. simpl. case_decide; [apply step_adds_nil|]. by apply push_entry_adds.
Qed.

Lemma append_many_adds io now ms tag :
  (∀ n, untorn (io n)) →
  step_adds (λ l, (append_many_tagged io now ms tag l).1) (accepted_many io now ms tag).
Proof.
  revert io. induction ms as [|m ms IH]; intros io Hio; [apply step_adds_nil|].
  intros l Hl. pose proof (append_tagged_adds (io 0) now m tag (Hio 0) l Hl) as Ha.
  pose proof (Hio 0) as H0. simpl in *. unfold hbind, append_tagged, push_entry, append_event in *.
  destruct (io 0) eqn:E0; [| |done].
  - case_decide; simpl in *; [by apply step_adds_nil|].
    destruct Ha as [Ha Ea]. destruct (IH (λ n, io (S n)) (λ n, Hio (S n)) _ Ha) as [Hb Eb].
    split; [done|]. rewrite Eb. simpl. by rewrite <- app_assoc.
  - case_decide; [by apply step_adds_nil|exact Ha].
Qed.

Lemma log_agrees_rebuild l :
  log_agrees l →
  log_rebuild None (cl_dir l) = Ok (mkLog (redact_entry <$> cl_entries l) (cl_dir l)).
Proof.
  intros (_ & Hu & Hr). unfold log_rebuild, read_all.
  assert (log_entry_to_entry <$> (entry_to_log_entry <$> cl_entries l)
          = redact_entry <$> cl_entries l) as He.
  { rewrite <- list_fmap_compose. apply list_fmap_ext. intros. apply log_entry_roundtrip. }
  destruct (cd_log (cl_dir l)) as [c|]; simpl in *.
  - unfold read_file. rewrite Hu. simpl. by rewrite Hr, He.
  - by rewrite <- He, <- Hr.
Qed.

Lemma redact_entry_idemp e : redact_entry (redact_entry e) = redact_entry e.
Proof. by rewrite <- log_entry_roundtrip, entry_to_log_entry_redacted, log_entry_roundtrip. Qed.

Lemma restart_adds : step_adds (λ l, (run_op OpRestart l).1) [].
Proof.
  intros l Hl. simpl. rewrite (log_agrees_rebuild l Hl), app_nil_r. simpl.
  rewrite <- list_fmap_compose. split.
  - destruct Hl as (Ht & Hu & Hr). split_and!; [done..|]. simpl. rewrite Hr, <- list_fmap_compose.
    apply list_fmap_ext. intros. simpl. by rewrite entry_to_log_entry_redacted.
  - apply list_fmap_ext. intros. apply redact_entry_idemp.
Qed.

Lemma run_op_adds o : op_untorn o → step_adds (λ l, (run_op o l).1) (accepted o).
Proof.
  destruct o as [io now m tag|io now m tag at'|io now ms tag|]; simpl; intros Hio.
  - by apply append_tagged_adds.
  - unfold append_assistant_tagged. case_decide as Hr.
    { rewrite decide_False by naive_solver. apply step_adds_nil. }
    destruct (msg_content m), (msg_tool_calls m);
      [rewrite decide_False by naive_solver; apply step_adds_nil
      |rewrite decide_True by naive_solver; by apply push_entry_adds..].
  - by apply append_many_adds.
  - apply restart_adds.
Qed.

Lemma run_ops_adds ops : Forall op_untorn ops → step_adds (run_ops ops) (mjoin (accepted <$> ops)).
Proof.
  induction 1 as [|o ops Ho _ IH]; [apply step_adds_nil|].
  exact (step_adds_compose (λ l, (run_op o l).1) (run_ops ops) _ _ (run_op_adds o Ho) IH).
Qed.

(** C25. Durability of the conversation log: over any sequence of appends,
    batches and restarts in which no write is cut short (it may still be
    refused), rebuilding the log from its directory succeeds and gives exactly
    the accepted entries in order, with only the image bytes of tool messages
    dropped; rejected messages (an assistant message in [append_tagged], an
    empty or non-assistant one in [append_assistant_tagged], everything after
    the first failure of a batch) leave no trace. *)
Theorem conversation_log_durable (ops : list LogOp) :
  Forall op_untorn ops →
  let l := run_ops ops (log_new empty_dir) in
  log_rebuild None (cl_dir l)
  = Ok (mkLog (redact_entry <$> mjoin (accepted <$> ops)) (cl_dir l)).
Proof.
  intros Ho l. destruct (run_ops_adds ops Ho (log_new empty_dir) log_agrees_new) as [Hl He].
  fold l in Hl, He. by rewrite log_agrees_rebuild, He.
Qed.

(** The bytes a torn append leaves behind. *)
Definition torn_bytes (e : Entry) (n : nat) : bytes :=
  take n (B (encode_line (entry_to_log_entry e))).

Context `{!SelfDelimiting LogEntry}.

Lemma torn_newline_free e n : newline ∉ torn_bytes e n.
Proof. intros Hin%elem_of_take. destruct Hin as (i & Hi & _).
  eapply encode_no_newline, list_elem_of_lookup_2, Hi. Qed.

Lemma push_torn err e n l :
  n ≤ length (B (encode_line (entry_to_log_entry e))) →
  cl_entries (push_entry (AppendTorn err n) e l).1 = cl_entries l ∧
  cd_log (cl_dir (push_entry (AppendTorn err n) e l).1)
  = Some (default "" (cd_log (cl_dir l)) +:+ str_of (torn_bytes e n)).
Proof.
  intros Hn. unfold push_entry, append_event. simpl. split; [done|]. do 3 f_equal.
  unfold torn_bytes. by rewrite B_line_of, take_app_le.
Qed.

(** The reader after a crash in the middle of an append: cut before its
    last byte, the half-written record is skipped and every earlier entry is
    recovered, provided the cut does not fall inside a UTF-8 character; if it
    does, rebuilding the conversation fails as a whole. *)
Theorem torn_tail_tolerated_iff_utf8 (ops : list LogOp) (err : string) (e : Entry) (n : nat) :
  Forall op_untorn ops →
  n < length (B (encode_line (entry_to_log_entry e))) →
  let l := run_ops ops (log_new empty_dir) in
  let d := cl_dir (push_entry (AppendTorn err n) e l).1 in
  log_rebuild None d
  = if utf8_valid (torn_bytes e n)
    then Ok (mkLog (redact_entry <$> mjoin (accepted <$> ops)) d)
    else Err "stream did not contain valid UTF-8".
Proof using Type*.
  intros Ho Hn l d. destruct (run_ops_adds ops Ho _ log_agrees_new) as [Hl He].
  fold l in Hl, He. destruct (push_torn err e n l) as [_ Hd]; [lia|]. fold d in Hd.
  destruct Hl as (Ht & Hu & Hr). unfold log_rebuild, read_all, read_file. rewrite Hd, B_app, B_str_of.
  rewrite utf8_valid_app by done. destruct (utf8_valid (torn_bytes e n)); [|done]. simpl.
  rewrite read_lines_torn, Hr; [| done | apply torn_newline_free |].
  - rewrite app_nil_l in He. rewrite <- He, <- list_fmap_compose. do 2 f_equal.
    apply list_fmap_ext. intros. apply log_entry_roundtrip.
  - unfold decode_one. case_match; [done|]. by apply decode_prefix.
Qed.

(** The append after a torn one is lost: it reports success and is in the
    in-memory history, but it shares a line with the torn bytes, so no later
    restart ever reads it back. *)
Theorem append_after_torn_lost (ops : list LogOp) (err : string) (e : Entry) (n : nat)
    (now : string) (m : Message) (tag : option string) :
  Forall op_untorn ops →
  0 < n ≤ length (B (encode_line (entry_to_log_entry e))) →
  utf8_valid (torn_bytes e n) = true →
  msg_role m ≠ "assistant" →
  let l := (push_entry (AppendTorn err n) e (run_ops ops (log_new empty_dir))).1 in
  let '(l', r) := append_tagged AppendDone now m tag l in
  r = Ok tt ∧ log_history l' = log_history l ++ [m] ∧
  log_rebuild None (cl_dir l')
  = Ok (mkLog (redact_entry <$> mjoin (accepted <$> ops)) (cl_dir l')).
Proof using Type*.
  intros Ho Hn Hu' Hm l. destruct (run_ops_adds ops Ho _ log_agrees_new) as [Hl He].
  destruct (push_torn err e n (run_ops ops (log_new empty_dir))) as [Hen Hd]; [lia|]. fold l in Hen, Hd.
  clearbody l. unfold append_tagged. rewrite decide_False by done. unfold push_entry, append_event. simpl.
  rewrite Hd. simpl. split_and!; [done|by unfold log_history; simpl; rewrite fmap_app|].
  destruct Hl as (Ht & Hu & Hr). unfold log_rebuild, read_all, read_file. simpl.
  rewrite !B_app, B_str_of, <- app_assoc, !utf8_valid_app, utf8_line_of by done. simpl.
  rewrite read_lines_append_torn, Hr; [| done | apply torn_newline_free |].
  - rewrite app_nil_l in He. rewrite <- He, <- list_fmap_compose. do 2 f_equal.
    apply list_fmap_ext. intros. apply log_entry_roundtrip.
  - unfold decode_one. case_match; [done|]. apply decode_joined. lia.
Qed.
End disk.

(** ** Witnesses of the disk theorems *)

#[export] Instance LogEntry_eq_dec : EqDecision LogEntry.
Proof. solve_decision. Defined.
#[export] Instance LogEntry_countable : Countable LogEntry.
Proof.
  apply (inj_countable'
    (λ e, (le_ts e, le_role e, le_content e, le_tool_calls e, le_tool_call_id e,
           (le_is_error e, le_tag e, le_model e, le_system_prompt_sha256 e, le_warnings e)))
    (λ '(a, b, c, d, e, (f, g, h, i, j)), mkLogEntry a b c d e f g h i j)). by intros [].
Defined.
#[export] Instance MetaFile_eq_dec : EqDecision MetaFile.
Proof. solve_decision. Defined.
#[export] Instance MetaFile_countable : Countable MetaFile.
Proof. apply (inj_countable' (λ m, (mf_name m, mf_owner m)) (λ '(n, o), mkMetaFile n o)). by intros []. Defined.

Definition sample_message (role : string) : Message :=
  mkMessage role [text_block "hi"; image_block "image/png" [byte_of 1]] [] None None.
Definition sample_entry : Entry := mkEntry "t" (sample_message "user") None default_attribution.
Definition sample_ops : list LogOp :=
  [OpTagged AppendDone "t" (sample_message "user") None; OpRestart;
   OpMany (λ _, AppendDone) "t" [sample_message "tool"; sample_message "assistant"] (Some "delegate:1");
   OpAssistant (AppendRefused "disk full") "t" (sample_message "assistant") None default_attribution].

Lemma sample_ops_untorn : Forall op_untorn sample_ops.
Proof. by repeat constructor. Qed.

Lemma conversation_log_durable_witness :
  let l := run_ops sample_ops (log_new empty_dir) in
  log_rebuild None (cl_dir l)
  = Ok (mkLog (redact_entry <$> mjoin (accepted <$> sample_ops)) (cl_dir l)).
Proof. apply (conversation_log_durable sample_ops), sample_ops_untorn. Defined.

(** Cut after one byte the record is skipped, cut inside the two-byte
    character of the opening mark the conversation is unreadable. *)
Lemma torn_tail_witness :
  let l := run_ops sample_ops (log_new empty_dir) in
  let d n := cl_dir (push_entry (AppendTorn "crash" n) sample_entry l).1 in
  log_rebuild None (d 1) = Ok (mkLog (redact_entry <$> mjoin (accepted <$> sample_ops)) (d 1)) ∧
  log_rebuild None (d 2) = Err "stream did not contain valid UTF-8".
Proof.
  assert (utf8_valid (torn_bytes sample_entry 1) = true) as H1 by by_compute.
  assert (utf8_valid (torn_bytes sample_entry 2) = false) as H2 by by_compute.
  pose proof (λ n, torn_tail_tolerated_iff_utf8 sample_ops "crash" sample_entry n sample_ops_untorn)
    as Hw.
  split; [pose proof (Hw 1) as H'; rewrite H1 in H'|pose proof (Hw 2) as H'; rewrite H2 in H'];
    apply H'; by_compute.
Defined.

Lemma append_after_torn_lost_witness :
  let l := (push_entry (AppendTorn "crash" 1) sample_entry
              (run_ops sample_ops (log_new empty_dir))).1 in
  let '(l', r) := append_tagged AppendDone "t" (sample_message "user") None l in
  r = Ok tt ∧ log_history l' = log_history l ++ [sample_message "user"] ∧
  log_rebuild None (cl_dir l')
  = Ok (mkLog (redact_entry <$> mjoin (accepted <$> sample_ops)) (cl_dir l')).
Proof.
  apply (append_after_torn_lost sample_ops "crash" sample_entry 1 "t" (sample_message "user") None);
    [apply sample_ops_untorn|by_compute..].
Defined.

(** ** Scopes *)

Definition same_scope (s s' : HistoryScope) : bool :=
  match s, s' with
  | Orchestrator, Orchestrator => true
  | Delegate c _ _, Delegate c' _ _ => bool_decide (c = c')
  | _, _ => false
  end.

Lemma scope_tag_in_scope now m at' s s' :
  entry_in_scope (mkEntry now m (scope_tag s) at') s' = same_scope s s'.
Proof.
  destruct s as [|c p a], s' as [|c' p' a']; simpl; try done.
  apply bool_decide_ext. split; [|by intros ->]. by intros [= ?%string_app_inj_l].
Qed.

Lemma history_push `{LineCodec LogEntry} now m at' s s' l :
  history_for_provider (push_entry AppendDone (mkEntry now m (scope_tag s) at') l).1 s'
  = history_for_provider l s' ++ if same_scope s s' then [m] else [].
Proof.
  unfold history_for_provider, push_entry, append_event. simpl. rewrite filter_app, fmap_app.
  f_equal. rewrite filter_cons, scope_tag_in_scope. by destruct (same_scope s s').
Qed.

(** Isolation of histories: an entry appended under a scope's tag is added
    to what the provider is shown in that scope, and changes what it is shown
    in no other: the orchestrator never sees a delegate's entries, nor a
    delegate the orchestrator's or another delegate's. *)
Theorem history_scope_isolation `{LineCodec LogEntry} now m at' (s s' : HistoryScope)
    (l : ConversationLog) :
  history_for_provider (push_entry AppendDone (mkEntry now m (scope_tag s) at') l).1 s'
  = history_for_provider l s' ++ if same_scope s s' then [m] else [].
Proof. apply history_push. Qed.

(** ** Snapshots *)

Lemma drop_imap {A B} (f : nat → A → B) n l :
  drop n (imap f l) = imap (λ i, f (n + i)) (drop n l).
Proof.
  apply list_eq. intros i. rewrite lookup_drop, !list_lookup_imap, lookup_drop. done.
Qed.

(** A snapshot is the tail of the log the limit asks for (all of it for no
    limit or a zero one), each entry with its position in the whole log, and
    the total beside it. *)
Theorem log_snapshot_tail (l : ConversationLog) (limit : option nat) :
  let total := log_len l in
  let k := match limit with None | Some 0 => total | Some n => Nat.min n total end in
  log_snapshot l limit
  = (imap (λ i e, mkEntrySnapshot (total - k + i + 1) (en_ts e) (en_message e) (en_tag e))
          (drop (total - k) (cl_entries l)), total)
  ∧ length (log_snapshot l limit).1 = k.
Proof.
  intros total k. unfold log_snapshot. fold total. split.
  - f_equal. apply drop_imap.
  - simpl. rewrite length_drop, length_imap. fold (log_len l) total.
    subst k. destruct limit as [[|n]|]; lia.
Qed.

(** ** Frontmatter *)

Lemma find_closer_line pos st acc l r :
  newline ∉ l →
  find_closer pos st acc (l ++ newline :: r)
  = if decide (strip_cr (acc ++ l) = dashes) then inl (st, S (pos + length l))
    else find_closer (S (pos + length l)) (S (pos + length l)) [] r.
Proof.
  revert pos acc. induction l as [|b l IH]; intros pos acc Hl; cbn [find_closer app length].
  - rewrite decide_True, app_nil_r, Nat.add_0_r by done. done.
  - apply not_elem_of_cons in Hl as [Hb Hl]. rewrite decide_False by done.
    rewrite IH by done. rewrite <- app_assoc. simpl. by rewrite Nat.add_succ_r.
Qed.

(** The text of some lines. *)
Definition text_of (ls : list bytes) : bytes := mjoin ((λ l, l ++ [newline]) <$> ls).

Lemma text_of_cons l ls : text_of (l :: ls) = l ++ newline :: text_of ls.
Proof. unfold text_of. cbn. by rewrite <- app_assoc. Qed.

Lemma find_closer_block ls pos r :
  Forall (λ l, newline ∉ l ∧ strip_cr l ≠ dashes) ls →
  find_closer pos pos [] (text_of ls ++ dashes ++ newline :: r)
  = inl (pos + length (text_of ls), pos + length (text_of ls) + 4).
Proof.
  intros Hls. revert pos. induction Hls as [|l ls [Hn Hd] _ IH]; intros pos.
  - change (text_of []) with ([] : bytes). rewrite app_nil_l.
    rewrite find_closer_line, decide_True by by_compute. simpl. f_equal. f_equal; lia.
  - rewrite text_of_cons, <- app_assoc. cbn [app].
    rewrite find_closer_line, decide_False, IH by done.
    rewrite length_app. simpl. f_equal. f_equal; lia.
Qed.

Lemma take_dashes k (body : bytes) :
  take (4 + k) (dashes ++ newline :: body) = dashes ++ newline :: take k body.
Proof. done. Qed.

(** A prompt that starts with a closed header of at most 4096 bytes is
    stripped to its body and the header's fields (left as it is when the
    header is not YAML), except that the scan window's end must not fall
    inside a character of the prompt: there the slice panics, although the
    header was already closed before it. *)
Theorem strip_frontmatter_header (yaml_parse : string → YDoc) (ls : list bytes) (body : bytes) :
  Forall (λ l, newline ∉ l ∧ strip_cr l ≠ dashes) ls →
  8 + length (text_of ls) ≤ FRONTMATTER_SCAN_LIMIT →
  let raw := dashes ++ newline :: text_of ls ++ dashes ++ newline :: body in
  strip_frontmatter yaml_parse (str_of raw)
  = if is_char_boundary raw (Nat.min (length raw) FRONTMATTER_SCAN_LIMIT) then
      Some match frontmatter_of yaml_parse (str_of (text_of ls)) with
           | Some fm => (str_of body, fm)
           | None => (str_of raw, default_frontmatter)
           end
    else None.
Proof.
  intros Hls Hlen raw. unfold strip_frontmatter. rewrite B_str_of.
  change (starts_with BOM raw) with false. cbv beta iota zeta.
  change (opener_len raw) with (Some 4). cbv beta iota zeta.
  destruct (is_char_boundary raw _); [|done].
  set (limit := Nat.min (length raw) FRONTMATTER_SCAN_LIMIT).
  assert (∃ body', drop 4 (take limit raw) = text_of ls ++ dashes ++ newline :: body') as [body' Hb].
  { rewrite skipn_firstn_comm.
    change (drop 4 raw) with (text_of ls ++ dashes ++ newline :: body).
    exists (take (limit - 4 - length (text_of ls) - 4) body).
    assert (8 + length (text_of ls) ≤ limit).
    { assert (length raw = 8 + length (text_of ls) + length body) as Hr; [|lia].
      subst raw. change (dashes ++ newline :: ?x) with (dashes ++ [newline] ++ x).
      rewrite !length_app. cbn [length dashes]. change (length dashes) with 3. lia. }
    rewrite take_app, take_ge by lia. f_equal.
    replace (limit - 4 - length (text_of ls)) with (4 + (limit - 4 - length (text_of ls) - 4)) by lia.
    rewrite take_dashes. do 3 f_equal. lia. }
  rewrite Hb, find_closer_block by done. simpl. rewrite take_app_length.
  case_match; [|done]. do 2 f_equal. f_equal.
  change (drop (4 + (length (text_of ls) + 4)) raw) with
    (drop (length (text_of ls) + 4) (text_of ls ++ dashes ++ newline :: body)).
  by rewrite drop_app_add'.
Qed.

Definition sample_yaml (_ : string) : YDoc := YMapping [("model", YStr "m")].

Definition sample_prompt (body : bytes) : string :=
  str_of (dashes ++ newline :: text_of [B "model: m"] ++ dashes ++ newline :: body).

Definition straddling_body : bytes :=
  replicate (FRONTMATTER_SCAN_LIMIT - 18) "a"%char ++ [byte_of 195; byte_of 169].

Lemma strip_frontmatter_header_witness :
  strip_frontmatter sample_yaml (sample_prompt (B "You are m."))
  = Some ("You are m.", mkFrontmatter (Some "m") None) ∧
  strip_frontmatter sample_yaml (sample_prompt straddling_body) = None.
Proof.
  split; unfold sample_prompt; rewrite strip_frontmatter_header.
  - vm_compute. reflexivity.
  - by_compute.
  - apply Nat.leb_le. vm_compute. reflexivity.
  - vm_compute. reflexivity.
  - by_compute.
  - apply Nat.leb_le. vm_compute. reflexivity.
Defined.
