(* ===== verification/ExecutionLog.v ===== *)
(** * Tool-result frames and the execution log

    Models [crates/harness/src/execution_log.rs]: the fold of a frame stream
    into the model-facing result and its inverse, and the per-conversation
    append-only [execution.json] a dropped result stream is replayed from. *)

From S2P Require Import Prelude Text Proto Codec.

(** ** Frames and results *)

Definition push_line (buf line : string) : string :=
  (if str_is_empty buf then buf else buf +:+ str_of [newline]) +:+ line.

(** The accumulators of the loop in [assemble_from_frames]. *)
Record Assembly : Type := mkAssembly {
  as_stdout : string; as_stderr : string; as_images : list ContentBlock;
  as_exit_code : Z; as_is_error : bool }.

Definition assemble_step (a : Assembly) (frame : ToolResultFrame) : Assembly :=
  match tf_frame frame with
  | Some (Stdout s) =>
      mkAssembly (push_line (as_stdout a) s) (as_stderr a) (as_images a) (as_exit_code a) (as_is_error a)
  | Some (Stderr s) =>
      mkAssembly (as_stdout a) (push_line (as_stderr a) s) (as_images a) (as_exit_code a) (as_is_error a)
  | Some (Image media_type data) =>
      mkAssembly (as_stdout a) (as_stderr a) (as_images a ++ [image_block media_type data])
                 (as_exit_code a) (as_is_error a)
  | Some (Complete outcome exit_code) =>
      mkAssembly (as_stdout a) (as_stderr a) (as_images a) exit_code
                 (bool_decide (tool_outcome_of outcome ≠ OutcomeDone))
  | None => a
  end.

(** On a non-zero exit the stderr is folded into the text. *)
Definition assemble_text (a : Assembly) : string :=
  if bool_decide (as_exit_code a ≠ 0%Z) && negb (str_is_empty (as_stderr a))
  then (if str_is_empty (as_stdout a) then as_stdout a else as_stdout a +:+ str_of [newline])
       +:+ as_stderr a
  else as_stdout a.

Definition assemble_finish (a : Assembly) : CallToolResponse :=
  let text := assemble_text a in
  let content :=
    if bool_decide (as_images a = []) || negb (str_is_empty text)
    then as_images a ++ [text_block text] else as_images a in
  mkCallToolResponse content (as_is_error a).

Definition assemble_from_frames (frames : list ToolResultFrame) : CallToolResponse :=
  assemble_finish (foldl assemble_step (mkAssembly "" "" [] 0 false) frames).

Definition frames_from_response (response : CallToolResponse) : list ToolResultFrame :=
  omap (λ b, match cb_block b with
             | Some (BText t) => Some (mkFrame (Some (Stdout t)))
             | Some (BImage m d) => Some (mkFrame (Some (Image m d)))
             | _ => None
             end) (ctr_content response)
  ++ [let (outcome, exit_code) := if ctr_is_error response then (OutcomeFailed, 1%Z)
                                  else (OutcomeDone, 0%Z) in
      mkFrame (Some (Complete (tool_outcome_i32 outcome) exit_code))].

(** ** The persisted record *)

Inductive RecordBody : Type :=
| RStdout (text : string)
| RStderr (text : string)
| RComplete (outcome exit_code : Z).

Record ExecutionRecord : Type := mkRecord {
  er_call_id : string; er_conversation_id : string; er_body : RecordBody }.

Definition frame_to_record (call_id conversation_id : string) (frame : ToolResultFrame)
  : option ExecutionRecord :=
  f ← tf_frame frame;
  body ← match f with
         | Stdout s => Some (RStdout s)
         | Stderr s => Some (RStderr s)
         | Image _ _ => None
         | Complete outcome exit_code => Some (RComplete outcome exit_code)
         end;
  Some (mkRecord call_id conversation_id body).

Definition record_to_frame (r : ExecutionRecord) : ToolResultFrame :=
  mkFrame (Some match er_body r with
                | RStdout text => Stdout text
                | RStderr text => Stderr text
                | RComplete outcome exit_code => Complete outcome exit_code
                end).

(** [PersistedCall]: the frames, in arrival order. *)
Definition PersistedCall : Type := list ToolResultFrame.

Definition has_terminal (p : PersistedCall) : bool :=
  match last p with Some (mkFrame (Some (Complete _ _))) => true | _ => false end.

(** ** The store of one conversation: its [execution.json] *)

Section store.
Context `{LineCodec ExecutionRecord}.
Context (conversation_id : string).

Definition append_frame (io : AppendIo) (file : option string) (call_id : string)
    (frame : ToolResultFrame) : option string * result unit string :=
  match frame_to_record call_id conversation_id frame with
  | None => (file, Ok tt)
  | Some record => append_line io file record
  end.

Definition exec_read (file : option string) (call_id : string) : option PersistedCall :=
  text ← file;
  records ← read_file (A := ExecutionRecord) text;
  match record_to_frame <$> filter (λ r, er_call_id r = call_id) records with
  | [] => None
  | frames => Some frames
  end.

(** ** Replay *)

(** The appends of all the calls of a conversation, in the order the append
    lock admits them. *)
Definition run_appends (file : option string) (l : list (AppendIo * string * ToolResultFrame))
  : option string :=
  foldl (λ file '(io, call_id, frame), (append_frame io file call_id frame).1) file l.

Definition untorn_io (io : AppendIo) : Prop :=
  match io with AppendTorn _ _ => False | _ => True end.

(** What one append leaves behind for a call: its frame, unless it was
    refused, is empty or carries an image. *)
Definition persisted (x : AppendIo * string * ToolResultFrame) : list ExecutionRecord :=
  match x with
  | (AppendDone, call_id, frame) => option_list (frame_to_record call_id conversation_id frame)
  | _ => []
  end.

Definition replayable (call_id : string) (x : AppendIo * string * ToolResultFrame)
  : list ToolResultFrame :=
  match x with
  | (AppendDone, id, frame) =>
      if decide (id = call_id) then
        match tf_frame frame with Some (Image _ _) | None => [] | _ => [frame] end
      else []
  | _ => []
  end.

Definition exec_agrees (file : option string) (rs : list ExecutionRecord) : Prop :=
  let c := default "" file in
  terminated (B c) ∧ utf8_valid (B c) = true ∧ read_lines c = rs.

Lemma append_frame_agrees io call_id frame file rs :
  untorn_io io → exec_agrees file rs →
  exec_agrees (append_frame io file call_id frame).1 (rs ++ persisted (io, call_id, frame)).
Proof.
  intros Hio Ha. unfold append_frame, persisted.
  destruct (frame_to_record call_id conversation_id frame) as [r|]; simpl;
    [|destruct io; by rewrite app_nil_r].
  destruct io; simpl in *; [|by rewrite app_nil_r|done].
  destruct Ha as (Ht & Hu & <-). unfold exec_agrees. simpl. split_and!.
  - rewrite B_app. apply terminated_app; [apply line_of_terminated|apply line_of_ne].
  - rewrite B_app, utf8_valid_app, B_line_of, utf8_valid_app by (done || apply encode_utf8). done.
  - by apply read_lines_append.
Qed.

Lemma run_appends_agrees l file rs :
  Forall (λ x, untorn_io x.1.1) l → exec_agrees file rs →
  exec_agrees (run_appends file l) (rs ++ (l ≫= persisted)).
Proof.
  intros Hl. revert file rs. induction Hl as [|[[io id] f] l Hio _ IH]; intros file rs Ha.
  - by rewrite app_nil_r.
  - rewrite bind_cons, app_assoc. apply IH, append_frame_agrees; done.
Qed.

Lemma persisted_replayable call_id l :
  record_to_frame <$> filter (λ r, er_call_id r = call_id) (l ≫= persisted)
  = l ≫= replayable call_id.
Proof.
  induction l as [|[[io id] [f]] l IH]; [done|].
  rewrite !bind_cons, filter_app, fmap_app, IH. f_equal.
  destruct io, f as [[]|]; simpl; try done; try (by case_decide);
    rewrite ?filter_cons; simpl; case_decide; done.
Qed.

(** Replay: whatever the interleaving of the conversation's calls, reading
    a call back gives exactly the frames appended under its id, in order and
    without those of any other call, less the image frames and the appends
    that were refused; and [None] when that leaves nothing. *)
Theorem exec_read_replays (l : list (AppendIo * string * ToolResultFrame)) (call_id : string) :
  Forall (λ x, untorn_io x.1.1) l →
  exec_read (run_appends None l) call_id
  = match l ≫= replayable call_id with [] => None | frames => Some frames end.
Proof.
  intros Hl. destruct (run_appends_agrees l None [] Hl) as (_ & Hu & Hr).
  { split; [by left|done]. }
  rewrite app_nil_l in Hr. rewrite <- persisted_replayable, <- Hr. unfold exec_read.
  destruct (run_appends None l) as [c|]; simpl in *; [|done].
  unfold read_file. by rewrite Hu.
Qed.
End store.

#[export] Instance RecordBody_eq_dec : EqDecision RecordBody.
Proof. solve_decision. Defined.
#[export] Instance RecordBody_countable : Countable RecordBody.
Proof.
  apply (inj_countable'
    (λ b, match b with RStdout t => inl (inl t) | RStderr t => inl (inr t)
                     | RComplete o e => inr (o, e) end)
    (λ x, match x with inl (inl t) => RStdout t | inl (inr t) => RStderr t
                     | inr (o, e) => RComplete o e end)). by intros [].
Defined.
#[export] Instance ExecutionRecord_eq_dec : EqDecision ExecutionRecord.
Proof. solve_decision. Defined.
#[export] Instance ExecutionRecord_countable : Countable ExecutionRecord.
Proof.
  apply (inj_countable' (λ r, (er_call_id r, er_conversation_id r, er_body r))
                        (λ '(a, b, c), mkRecord a b c)). by intros [].
Defined.

Lemma exec_read_replays_witness :
  exec_read (run_appends "conv" None
    [(AppendDone, "a", mkFrame (Some (Stdout "one"))); (AppendDone, "b", mkFrame (Some (Stderr "x")));
     (AppendRefused "full", "a", mkFrame (Some (Stdout "two")));
     (AppendDone, "a", mkFrame (Some (Image "image/png" [])));
     (AppendDone, "a", mkFrame (Some (Complete 1 0)))]) "a"
  = Some [mkFrame (Some (Stdout "one")); mkFrame (Some (Complete 1 0))].
Proof. rewrite exec_read_replays; [reflexivity|by repeat constructor]. Defined.

(** ** Assembly and its inverse *)

Lemma push_line_empty s : push_line "" s = s.
Proof. done. Qed.

Lemma assemble_images imgs a :
  foldl assemble_step a ((λ '(m, d), mkFrame (Some (Image m d))) <$> imgs)
  = mkAssembly (as_stdout a) (as_stderr a) (as_images a ++ (uncurry image_block <$> imgs))
               (as_exit_code a) (as_is_error a).
Proof.
  revert a. induction imgs as [|[m d] imgs IH]; intros a; simpl.
  - destruct a. by rewrite app_nil_r.
  - rewrite IH. simpl. by rewrite <- app_assoc.
Qed.

(** What [assemble_from_frames] collects. *)
Lemma assemble_images_only frames a imgs :
  as_images a = uncurry image_block <$> imgs →
  ∃ imgs', as_images (foldl assemble_step a frames) = uncurry image_block <$> imgs'.
Proof.
  revert a imgs. induction frames as [|[f] frames IH]; intros a imgs Ha; simpl; [eauto|].
  destruct f as [[s|s|m d|o e]|]; try (by eapply IH).
  apply (IH _ (imgs ++ [(m, d)])). simpl. by rewrite Ha, fmap_app.
Qed.

Lemma assemble_canonical frames :
  ∃ imgs text e, assemble_from_frames frames =
    mkCallToolResponse ((uncurry image_block <$> imgs)
      ++ (if bool_decide (imgs = []) || negb (str_is_empty text) then [text_block text] else [])) e.
Proof.
  unfold assemble_from_frames.
  destruct (assemble_images_only frames (mkAssembly "" "" [] 0 false) []) as [imgs Hi]; [done|].
  unfold assemble_finish. rewrite Hi. exists imgs, (assemble_text (foldl assemble_step
    (mkAssembly "" "" [] 0 false) frames)). eexists. f_equal.
  replace (bool_decide (uncurry image_block <$> imgs = [])) with (bool_decide (imgs = []))
    by (apply bool_decide_ext; destruct imgs; naive_solver).
  case_match; [done|by rewrite app_nil_r].
Qed.

(** [frames_from_response] inverts the fold: splitting an assembled result
    into frames and folding them again gives the same result, error bit
    included, whatever frame stream it came from. *)
Theorem assemble_frames_roundtrip (frames : list ToolResultFrame) :
  let r := assemble_from_frames frames in
  assemble_from_frames (frames_from_response r) = r.
Proof.
  intros r. destruct (assemble_canonical frames) as (imgs & text & e & Hr). fold r in Hr. rewrite Hr.
  unfold frames_from_response, assemble_from_frames. cbn [ctr_content ctr_is_error].
  rewrite omap_app, !foldl_app.
  replace (omap _ (uncurry image_block <$> imgs))
    with ((λ '(m, d), mkFrame (Some (Image m d))) <$> imgs)
    by (clear; induction imgs as [|[m d] imgs IH]; simpl; [done|by f_equal]).
  rewrite assemble_images. cbn [as_stdout as_stderr as_images as_exit_code as_is_error app].
  assert (bool_decide (uncurry image_block <$> imgs = []) = bool_decide (imgs = [])) as Hb.
  { apply bool_decide_ext; destruct imgs; naive_solver. }
  destruct (bool_decide (imgs = []) || negb (str_is_empty text)) eqn:Ht; destruct e; simpl;
    unfold assemble_finish, assemble_text; simpl; rewrite ?push_line_empty, Hb, ?Ht, ?app_nil_r; try done;
    rewrite ?andb_false_r; simpl; rewrite ?Ht; try done.
  all: apply orb_false_iff in Ht as [Hi Ht]; rewrite Hi; done.
Qed.
