(* ===== verification/Registry.v ===== *)
(** * The conversation registry and its RPCs

    Models [crates/harness/src/registry.rs] and the conversation RPCs of
    [crates/harness/src/grpc_server.rs]. A harness runs one workspace: its
    registry holds, per conversation id, the metadata (name, opaque owner), the
    in-memory log and the in-flight turn's cancellation token, over one
    directory per conversation on disk. The UUID parser, the clock, the fresh
    ids and the outcome of each file-system call are arguments.

    [HarnessControl] states what the registry promises the relay; the relay's
    theorems are proved against it. *)

From S2P Require Import Prelude Text Proto Codec Auth Conversation.

(** ** State *)

Record ConversationMeta : Type := mkMeta {
  cm_last_touched_ms : Z; cm_name : string; cm_owner : string }.

Record Registry : Type := mkRegistry {
  rg_disk : gmap string ConvDir;             (* the directories under the store root *)
  rg_logs : gmap string (list Entry);        (* logs: the entries of each loaded log *)
  rg_exec_logs : gset string;                (* exec_logs: the cached writers *)
  rg_meta : gmap string ConversationMeta;    (* meta *)
  rg_turns : gmap string nat;                (* turns: the token of each in-flight turn *)
  rg_next_token : nat;                       (* tokens are distinct objects *)
  rg_fired : gset nat }.                     (* the tokens that were cancelled *)

Definition set_disk (f : gmap string ConvDir → gmap string ConvDir) (r : Registry) : Registry :=
  mkRegistry (f (rg_disk r)) (rg_logs r) (rg_exec_logs r) (rg_meta r) (rg_turns r)
             (rg_next_token r) (rg_fired r).
Definition set_logs (f : gmap string (list Entry) → gmap string (list Entry)) (r : Registry)
  : Registry :=
  mkRegistry (rg_disk r) (f (rg_logs r)) (rg_exec_logs r) (rg_meta r) (rg_turns r)
             (rg_next_token r) (rg_fired r).
Definition set_meta (f : gmap string ConversationMeta → gmap string ConversationMeta)
    (r : Registry) : Registry :=
  mkRegistry (rg_disk r) (rg_logs r) (rg_exec_logs r) (f (rg_meta r)) (rg_turns r)
             (rg_next_token r) (rg_fired r).

(** [ConversationRegistry::new] over a store root. *)
Definition registry_new (disk : gmap string ConvDir) : Registry :=
  mkRegistry disk ∅ ∅ ∅ ∅ 0 ∅.

Definition dir_of (r : Registry) (conv_id : string) : ConvDir :=
  default empty_dir (rg_disk r !! conv_id).

(** [conv_id.chars().take(8)] of an ASCII id. *)
Definition default_name_for_conversation (conv_id : string) : string := str_of (take 8 (B conv_id)).

(** [remove_dir_all] as a whole; when it fails, what is left of the directory. *)
Inductive DeleteIo : Type :=
| DeleteDone
| DeleteFailed (err : string) (keep_log keep_meta keep_tmp keep_exec : bool).

Definition MAX_CONVERSATION_NAME_CHARS : nat := 200.
Definition MAX_HISTORY_LIMIT : nat := 500.

Section registry.
Context (uuid_parse : string → bool).
Context `{LineCodec LogEntry} `{LineCodec MetaFile}.

Definition validate_conversation_id (conv_id : string) : result unit string :=
  if uuid_parse conv_id then Ok tt
  else Err ("conversation id is not a well-formed UUID: " +:+ conv_id).

(** ** Turns *)

Definition register_turn (conv_id : string) (r : Registry) : Registry * nat :=
  let token := rg_next_token r in
  (mkRegistry (rg_disk r) (rg_logs r) (rg_exec_logs r) (rg_meta r)
              (<[conv_id := token]> (rg_turns r)) (S token) (rg_fired r), token).

Definition end_turn (conv_id : string) (r : Registry) : Registry :=
  mkRegistry (rg_disk r) (rg_logs r) (rg_exec_logs r) (rg_meta r)
             (delete conv_id (rg_turns r)) (rg_next_token r) (rg_fired r).

Definition cancel (conv_id : string) (r : Registry) : Registry * bool :=
  match rg_turns r !! conv_id with
  | Some token =>
      (mkRegistry (rg_disk r) (rg_logs r) (rg_exec_logs r) (rg_meta r)
                  (delete conv_id (rg_turns r)) (rg_next_token r) ({[token]} ∪ rg_fired r), true)
  | None => (r, false)
  end.

(** ** Logs *)

Definition execution_log_for (conv_id : string) (r : Registry) : Registry * option string :=
  match validate_conversation_id conv_id with
  | Err _ => (r, None)
  | Ok _ => (mkRegistry (rg_disk r) (rg_logs r) ({[conv_id]} ∪ rg_exec_logs r) (rg_meta r)
                        (rg_turns r) (rg_next_token r) (rg_fired r), Some conv_id)
  end.

(** [get_or_create] loads the log; it never touches [meta]. *)
Definition get_or_create (io : option string) (conv_id : string)
  : handler Registry ConversationLog string :=
  do? _ <- validate_conversation_id conv_id;
  λ r, match rg_logs r !! conv_id with
       | Some entries => (r, Ok (mkLog entries (dir_of r conv_id)))
       | None =>
           match log_rebuild io (dir_of r conv_id) with
           | Err e => (r, Err e)
           | Ok log => (set_logs (insert conv_id (cl_entries log)) r, Ok log)
           end
       end.

(** An append through a loaded log: its file is written even when the
    conversation was deleted under it, the cached entries only when it is
    still cached. *)
Definition append_entry (io : AppendIo) (conv_id : string) (e : Entry) (r : Registry) : Registry :=
  let '(d, res) := append_event io (dir_of r conv_id) (entry_to_log_entry e) in
  let r := set_disk (insert conv_id d) r in
  match res with
  | Ok _ => set_logs (alter (λ es, es ++ [e]) conv_id) r
  | Err _ => r
  end.

(** ** Metadata *)

(** [id] is the new UUID, [now] the clock. *)
Definition mint (io : MetaIo) (id : string) (now : Z) (owner : string)
  : handler Registry string string :=
  λ r, let name := default_name_for_conversation id in
       match write_meta io (dir_of r id) name owner with
       | (d, Err e) => (set_disk (insert id d) r, Err e)
       | (d, Ok _) => (set_meta (insert id (mkMeta now name owner)) (set_disk (insert id d) r), Ok id)
       end.

Definition set_name (io : MetaIo) (conv_id new_name : string) : handler Registry unit string :=
  do? _ <- validate_conversation_id conv_id;
  λ r, let owner := default "" (cm_owner <$> rg_meta r !! conv_id) in
       match write_meta io (dir_of r conv_id) new_name owner with
       | (d, Err e) => (set_disk (insert conv_id d) r, Err e)
       | (d, Ok _) =>
           (set_meta (alter (λ m, mkMeta (cm_last_touched_ms m) new_name (cm_owner m)) conv_id)
                     (set_disk (insert conv_id d) r), Ok tt)
       end.

Definition keep {A} (b : bool) (o : option A) : option A := if b then o else None.

Definition delete_all (io : DeleteIo) (conv_id : string) (r : Registry)
  : Registry * result unit string :=
  match io with
  | DeleteDone => (set_disk (delete conv_id) r, Ok tt)
  | DeleteFailed err kl km kt ke =>
      (set_disk (alter (λ d, mkConvDir (keep kl (cd_log d)) (keep km (cd_meta d))
                                       (keep kt (cd_meta_tmp d)) (keep ke (cd_exec d))) conv_id) r,
       Err err)
  end.

Definition registry_delete (io : DeleteIo) (conv_id : string) : handler Registry unit string :=
  λ r, match delete_all io conv_id r with
       | (r, Err e) => (r, Err e)
       | (r, Ok _) => (set_logs (delete conv_id) (set_meta (delete conv_id) r), Ok tt)
       end.

Definition owns (conv_id : string) (r : Registry) : bool :=
  bool_decide (is_Some (rg_meta r !! conv_id)).
Definition owner_of (conv_id : string) (r : Registry) : option string :=
  cm_owner <$> rg_meta r !! conv_id.
Definition owned_by (conv_id owner : string) (r : Registry) : bool :=
  match rg_meta r !! conv_id with
  | Some m => bool_decide (cm_owner m = owner)
  | None => false
  end.

Definition touch (conv_id : string) (now : Z) : Registry → Registry :=
  set_meta (alter (λ m, mkMeta now (cm_name m) (cm_owner m)) conv_id).

Definition list_summaries (owner : string) (r : Registry) : list (string * Z * string) :=
  (λ '(id, m), (id, cm_last_touched_ms m, cm_name m))
    <$> filter (λ x, cm_owner x.2 = owner) (map_to_list (rg_meta r)).

(** [walk_conversations]: a directory whose sidecar is missing, malformed or
    unreadable is skipped. [io] are the errors of the single reads. *)
Definition walk_conversations (io : string → option string) (disk : gmap string ConvDir)
  : list (string * string * string) :=
  omap (λ '(id, d), match read_meta (io id) d with
                    | Ok (Some (name, owner)) => Some (id, name, owner)
                    | _ => None
                    end) (map_to_list disk).

(** [meta.entry(id).or_insert(..)]: an entry already there is kept. *)
Definition or_insert (meta : gmap string ConversationMeta) (x : string * string * string)
  : gmap string ConversationMeta :=
  let '(id, name, owner) := x in
  match meta !! id with Some _ => meta | None => <[id := mkMeta 0 name owner]> meta end.

(** [dir_io]: the error of reading the workspace directory, if it fails. *)
Definition rebuild_from_disk (dir_io : option string) (io : string → option string)
  : handler Registry unit string :=
  λ r, match dir_io with
       | Some err => (r, Err err)
       | None =>
           (set_meta (λ meta, foldl or_insert meta (walk_conversations io (rg_disk r))) r, Ok tt)
       end.

(** ** The conversation RPCs *)

Definition effective_history_limit (requested : option N) : option nat :=
  match requested with
  | None | Some 0%N => None
  | Some n => Some (Nat.min (N.to_nat n) MAX_HISTORY_LIMIT)
  end.

Definition rpc_mint_conversation (io : MetaIo) (id : string) (now : Z) (owner : string)
  : handler Registry string Status :=
  λ r, let '(r, res) := mint io id now owner r in
       (r, map_err (λ e, internal ("failed to mint conversation: " +:+ e)) res).

Record ConversationSummary : Type := mkSummary {
  su_conversation_id : string; su_last_touched_ms : Z; su_name : string; su_owner : string }.

Definition rpc_list_conversations (owner : string) : handler Registry (list ConversationSummary) Status :=
  hget (λ r, (λ '(id, ts, name), mkSummary id ts name owner) <$> list_summaries owner r).

Definition require_owned (conv_id : string) : handler Registry unit Status :=
  do known <- hget (owns conv_id);
  if (known : bool) then hret tt else herr (not_found "conversation_id not found").

Definition require_id (what conv_id : string) : handler Registry unit Status :=
  if str_is_empty conv_id then herr (invalid_argument (what +:+ "conversation_id required"))
  else hret tt.

Definition rpc_delete_conversation (io : DeleteIo) (conv_id : string) : handler Registry unit Status :=
  do _ <- require_id "DeleteConversationRequest." conv_id;
  do _ <- require_owned conv_id;
  λ r, let '(r, res) := registry_delete io conv_id r in
       (r, map_err (λ e, internal ("failed to delete conversation: " +:+ e)) res).

Definition rpc_set_conversation_name (io : MetaIo) (conv_id name : string)
  : handler Registry unit Status :=
  do _ <- require_id "SetConversationNameRequest." conv_id;
  do _ <- if MAX_CONVERSATION_NAME_CHARS <? str_chars_count name
          then herr (invalid_argument "name exceeds 200-character limit") else hret tt;
  do _ <- require_owned conv_id;
  λ r, let '(r, res) := set_name io conv_id name r in
       (r, map_err (λ e, internal ("failed to persist conversation name: " +:+ e)) res).

Definition rpc_cancel_turn (conv_id : string) : handler Registry bool Status :=
  do _ <- require_id "CancelTurnRequest." conv_id;
  do _ <- require_owned conv_id;
  λ r, let '(r, cancelled) := cancel conv_id r in (r, Ok cancelled).

Record History : Type := mkHistory {
  hi_entries : list EntrySnapshot; hi_total_seq : nat; hi_truncated : bool }.

Definition rpc_get_conversation_history (io : option string) (conv_id owner : string)
    (limit : option N) : handler Registry History Status :=
  do _ <- require_id "" conv_id;
  do mine <- hget (owned_by conv_id owner);
  if negb mine then herr (not_found "conversation_id not found") else
  do log <- (λ r, let '(r, res) := get_or_create io conv_id r in
                  (r, map_err (λ e, internal ("load conversation: " +:+ e)) res));
  let (entries, total) := log_snapshot log (effective_history_limit limit) in
  hret (mkHistory entries total (length entries <? total)).

(** ** The life of a registry *)

(** What happens to a registry: the RPCs, the turn loop's calls and restarts. *)
Inductive RegOp : Type :=
| RMint (io : MetaIo) (id : string) (now : Z) (owner : string)
| RSetName (io : MetaIo) (conv_id name : string)
| RDelete (io : DeleteIo) (conv_id : string)
| RCancel (conv_id : string)
| RHistory (io : option string) (conv_id owner : string) (limit : option N)
| RLoad (io : option string) (conv_id : string)
| RAppend (io : AppendIo) (conv_id : string) (e : Entry)
| RExecLog (conv_id : string)
| RTouch (conv_id : string) (now : Z)
| RTurn (conv_id : string)
| REndTurn (conv_id : string)
| RRestart (dir_io : option string) (io : string → option string).

Definition reg_exec (o : RegOp) (r : Registry) : Registry :=
  match o with
  | RMint io id now owner => (rpc_mint_conversation io id now owner r).1
  | RSetName io id name => (rpc_set_conversation_name io id name r).1
  | RDelete io id => (rpc_delete_conversation io id r).1
  | RCancel id => (rpc_cancel_turn id r).1
  | RHistory io id owner limit => (rpc_get_conversation_history io id owner limit r).1
  | RLoad io id => (get_or_create io id r).1
  | RAppend io id e => append_entry io id e r
  | RExecLog id => (execution_log_for id r).1
  | RTouch id now => touch id now r
  | RTurn id => (register_turn id r).1
  | REndTurn id => end_turn id r
  | RRestart dir_io io => (rebuild_from_disk dir_io io (registry_new (rg_disk r))).1
  end.

(** The ids minted so far and their owners; a fresh UUID was never used. *)
Definition minted_after (o : RegOp) (minted : gmap string string) : gmap string string :=
  match o with RMint _ id _ owner => <[id := owner]> minted | _ => minted end.

Definition op_fresh (minted : gmap string string) (o : RegOp) : Prop :=
  match o with RMint _ id _ _ => minted !! id = None | _ => True end.

(** The failures that leave disk and memory apart: a directory deleted in
    part, and a restart that cannot read the disk. *)
Definition op_clean (o : RegOp) : Prop :=
  match o with
  | RDelete (DeleteFailed _ _ _ _ _) _ => False
  | RRestart dir_io io => dir_io = None ∧ ∀ id, io id = None
  | _ => True
  end.

(** Runs of operations, each satisfying [P], from a start. *)
Inductive reg_steps (P : RegOp → Prop) :
  gmap string string * Registry → gmap string string * Registry → Prop :=
| reg_refl m r : reg_steps P (m, r) (m, r)
| reg_step m0 r0 m r o :
    reg_steps P (m0, r0) (m, r) → P o → op_fresh m o →
    reg_steps P (m0, r0) (minted_after o m, reg_exec o r).

(** What a sidecar on disk says, and what the registry says. *)
Definition sidecar (r : Registry) (id : string) : option (string * string) :=
  d ← rg_disk r !! id; c ← cd_meta d; m ← decode_line (A := MetaFile) c; Some (mf_name m, mf_owner m).
Definition registered (r : Registry) (id : string) : option (string * string) :=
  (λ m, (cm_name m, cm_owner m)) <$> rg_meta r !! id.

(** ** What each operation does to the sidecars and the registry *)

Definition upd {V} (id : string) (v : V) (f : string → V) : string → V :=
  λ j, if decide (j = id) then v else f j.

Definition unchanged (r r' : Registry) : Prop :=
  (∀ j, sidecar r' j = sidecar r j) ∧ (∀ j, registered r' j = registered r j).
Definition both_set (id : string) (v : option (string * string)) (r r' : Registry) : Prop :=
  (∀ j, sidecar r' j = upd id v (sidecar r) j) ∧ (∀ j, registered r' j = upd id v (registered r) j).

Definition op_effect (o : RegOp) (r r' : Registry) : Prop :=
  match o with
  | RMint MetaDone id _ owner =>
      both_set id (Some (default_name_for_conversation id, owner)) r r'
  | RSetName _ id name =>
      unchanged r r' ∨
      ∃ old owner, registered r id = Some (old, owner) ∧ both_set id (Some (name, owner)) r r'
  | RDelete DeleteDone id => unchanged r r' ∨ both_set id None r r'
  | RDelete _ _ =>
      (∀ j, sidecar r' j = sidecar r j ∨ sidecar r' j = None) ∧
      (∀ j, registered r' j = registered r j)
  | RRestart dir_io io =>
      (∀ j, sidecar r' j = sidecar r j) ∧
      (∀ j, registered r' j = if decide (dir_io = None ∧ io j = None) then sidecar r j else None)
  | _ => unchanged r r'
  end.

Lemma unchanged_meta r r' :
  rg_meta r' = rg_meta r →
  (∀ j, (cd_meta <$> rg_disk r' !! j) ≫= id = (cd_meta <$> rg_disk r !! j) ≫= id) →
  unchanged r r'.
Proof.
  intros Hm Hd. split; intros j; unfold sidecar, registered; [|by rewrite Hm].
  specialize (Hd j). destruct (rg_disk r' !! j), (rg_disk r !! j); simpl in *;
    first [done | by rewrite Hd | by rewrite <- Hd].
Qed.

Lemma unchanged_refl r : unchanged r r.
Proof. done. Qed.

Lemma dir_insert_meta r id d :
  cd_meta d = cd_meta (dir_of r id) → unchanged r (set_disk (insert id d) r).
Proof.
  intros Hd. apply unchanged_meta; [done|]. intros j. simpl.
  destruct (decide (j = id)) as [->|Hj]; [|by rewrite lookup_insert_ne].
  rewrite lookup_insert_eq. simpl. rewrite Hd. unfold dir_of. by destruct (rg_disk r !! id).
Qed.

Lemma write_meta_cases io d name owner :
  let '(d', res) := write_meta io d name owner in
  (res = Ok tt ∧ io = MetaDone ∧ cd_meta d' = Some (encode_line (mkMetaFile name owner))) ∨
  (∃ e, res = Err e ∧ io ≠ MetaDone ∧ cd_meta d' = cd_meta d).
Proof. destruct io; simpl; [by left|right; by eexists..]. Qed.

Lemma sidecar_insert r id d j :
  sidecar (set_disk (insert id d) r) j
  = upd id (c ← cd_meta d; m ← decode_line (A := MetaFile) c; Some (mf_name m, mf_owner m)) (sidecar r) j.
Proof.
  unfold sidecar, upd. simpl. case_decide as Hj; subst;
    [by rewrite lookup_insert_eq | by rewrite lookup_insert_ne].
Qed.

Lemma mint_effect io id now owner r :
  op_effect (RMint io id now owner) r (reg_exec (RMint io id now owner) r).
Proof.
  unfold reg_exec, rpc_mint_conversation, mint.
  pose proof (write_meta_cases io (dir_of r id) (default_name_for_conversation id) owner) as Hw.
  destruct (write_meta _ _ _ _) as [d res]. destruct Hw as [(-> & -> & Hd)|(e & -> & Hio & Hd)]; simpl.
  - split; intros j.
    + change (sidecar _ j) with (sidecar (set_disk (insert id d) r) j).
      rewrite sidecar_insert, Hd. simpl. by rewrite decode_line_encode.
    + unfold registered, upd. simpl. case_decide; subst;
        [by rewrite lookup_insert_eq | by rewrite lookup_insert_ne].
  - destruct io; [done|by apply dir_insert_meta..].
Qed.

Lemma require_id_bind {A} what id (k : unit → handler Registry A Status) r :
  hbind (require_id what id) k r
  = if str_is_empty id then (r, Err (invalid_argument (what +:+ "conversation_id required")))
    else k tt r.
Proof. unfold hbind, require_id. by destruct (str_is_empty id). Qed.

Lemma require_owned_bind {A} id (k : unit → handler Registry A Status) r :
  hbind (require_owned id) k r
  = if owns id r then k tt r else (r, Err (not_found "conversation_id not found")).
Proof. unfold hbind, require_owned, hbind, hget. by destruct (owns id r). Qed.

Lemma owns_Some id r : owns id r = true ↔ is_Some (rg_meta r !! id).
Proof. apply bool_decide_eq_true. Qed.

Lemma set_name_effect io id name r :
  op_effect (RSetName io id name) r (reg_exec (RSetName io id name) r).
Proof.
  unfold reg_exec, rpc_set_conversation_name. rewrite require_id_bind.
  destruct (str_is_empty id); [by left|].
  unfold hbind at 1. destruct (_ <? _); [by left|]. unfold hret at 1. rewrite require_owned_bind.
  destruct (owns id r) eqn:Ho; [|by left]. apply owns_Some in Ho as [m Hm].
  unfold set_name, hbind, hlift. destruct (validate_conversation_id id) as [[]|]; [|by left].
  pose proof (write_meta_cases io (dir_of r id) name (default "" (cm_owner <$> rg_meta r !! id))) as Hw.
  destruct (write_meta _ _ _ _) as [d res]. rewrite Hm in Hw. simpl in Hw.
  destruct Hw as [(-> & -> & Hd)|(e & -> & Hio & Hd)]; simpl.
  - right. exists (cm_name m), (cm_owner m). unfold registered. rewrite Hm. split; [done|].
    split; intros j.
    + change (sidecar _ j) with (sidecar (set_disk (insert id d) r) j).
      rewrite sidecar_insert, Hd. simpl. by rewrite decode_line_encode.
    + unfold registered, upd. simpl. case_decide; subst;
        [by rewrite lookup_alter_eq, Hm | by rewrite lookup_alter_ne].
  - left. by apply dir_insert_meta.
Qed.

Lemma delete_effect io id r :
  op_effect (RDelete io id) r (reg_exec (RDelete io id) r).
Proof.
  unfold reg_exec, rpc_delete_conversation. destruct io as [|err kl km kt ke]; simpl.
  - rewrite require_id_bind. destruct (str_is_empty id); [by left|].
    rewrite require_owned_bind. destruct (owns id r); [|by left]. right. split; intros j; unfold sidecar, registered, upd; simpl; case_decide; subst;
      by rewrite ?lookup_delete_eq, ?lookup_delete_ne.
  - rewrite require_id_bind. destruct (str_is_empty id); [by split; [left|]|].
    rewrite require_owned_bind. destruct (owns id r); [|by split; [left|]].
    simpl. split; intros j; [|done]. unfold sidecar. simpl.
    destruct (decide (j = id)) as [->|]; [|left; by rewrite lookup_alter_ne].
    rewrite lookup_alter_eq. destruct (rg_disk r !! id) as [d|]; [|by left]. simpl.
    destruct km; [by left|by right].
Qed.

Lemma foldl_or_insert l meta id :
  foldl or_insert meta l !! id
  = match meta !! id with
    | Some m => Some m
    | None => (λ '(n, o), mkMeta 0 n o) <$> bt_get id ((λ '(i, n, o), (i, (n, o))) <$> l)
    end.
Proof.
  revert meta. induction l as [|[[i n] o] l IH]; intros meta; simpl; [by destruct (meta !! id)|].
  rewrite IH. unfold or_insert. case_decide as Hi; subst.
  - destruct (meta !! i) eqn:E; [by rewrite E|]. by rewrite lookup_insert_eq.
  - destruct (meta !! i) eqn:E; [done|]. by rewrite lookup_insert_ne.
Qed.

Lemma walk_lookup io (disk : gmap string ConvDir) id :
  bt_get id ((λ '(i, n, o), (i, (n, o))) <$> walk_conversations io disk)
  = d ← disk !! id; match read_meta (io id) d with Ok p => p | Err _ => None end.
Proof.
  rewrite <- bt_get_map_to_list,
    <- (bt_get_omap (λ i d, match read_meta (io i) d with Ok p => p | Err _ => None end))
    by apply NoDup_fst_map_to_list.
  f_equal. unfold walk_conversations. induction (map_to_list disk) as [|[i d] l IH]; simpl; [done|].
  destruct (read_meta (io i) d) as [[[n o]|]|]; simpl; [by f_equal|exact IH..].
Qed.

Lemma restart_effect dir_io io r :
  op_effect (RRestart dir_io io) r (reg_exec (RRestart dir_io io) r).
Proof.
  unfold reg_exec, rebuild_from_disk. destruct dir_io as [err|].
  - split; [done|]. intros j. rewrite decide_False; [done|]. by intros [[=] _].
  - split; [done|]. intros j. unfold registered. simpl rg_meta.
    rewrite foldl_or_insert, lookup_empty, walk_lookup. unfold sidecar.
    change (rg_disk (registry_new (rg_disk r))) with (rg_disk r).
    destruct (rg_disk r !! j) as [d|]; [|by case_decide].
    destruct (io j) as [err|] eqn:Ej.
    + rewrite decide_False; [done|]. by intros [_ [=]].
    + rewrite decide_True by done. cbn. unfold read_meta. destruct (cd_meta d) as [c|]; cbn; [|done].
      by destruct (decode_line c).
Qed.

Lemma get_or_create_unchanged io id r : unchanged r (get_or_create io id r).1.
Proof.
  unfold get_or_create, hbind, hlift. destruct (validate_conversation_id id); [|done].
  destruct (rg_logs r !! id); [done|]. by destruct (log_rebuild io (dir_of r id)).
Qed.

Lemma history_unchanged io id owner limit r :
  unchanged r (rpc_get_conversation_history io id owner limit r).1.
Proof.
  unfold rpc_get_conversation_history. rewrite require_id_bind. destruct (str_is_empty id); [done|].
  unfold hbind at 1, hget. destruct (owned_by id owner r); [|done]. simpl. unfold hbind.
  pose proof (get_or_create_unchanged io id r) as Hu.
  destruct (get_or_create io id r) as [r' [log|e]]; [|done]. simpl.
  by destruct (log_snapshot log (effective_history_limit limit)).
Qed.

Lemma append_entry_unchanged io id e r : unchanged r (append_entry io id e r).
Proof.
  unfold append_entry, append_event. destruct io; simpl;
    apply (dir_insert_meta r id); done.
Qed.

Lemma cancel_unchanged id r : unchanged r (rpc_cancel_turn id r).1.
Proof.
  unfold rpc_cancel_turn. rewrite require_id_bind. destruct (str_is_empty id); [done|].
  rewrite require_owned_bind. destruct (owns id r); [|done]. unfold cancel.
  by destruct (rg_turns r !! id).
Qed.

Lemma touch_unchanged id now r : unchanged r (touch id now r).
Proof.
  split; intros j; [done|]. unfold registered, touch. simpl.
  destruct (decide (j = id)) as [->|]; [|by rewrite lookup_alter_ne].
  rewrite lookup_alter_eq. by destruct (rg_meta r !! id).
Qed.

Lemma op_effect_exec o r : op_effect o r (reg_exec o r).
Proof.
  destruct o; [apply mint_effect|apply set_name_effect|apply delete_effect|apply cancel_unchanged
    |apply history_unchanged|apply get_or_create_unchanged|apply append_entry_unchanged| |
    apply touch_unchanged|done|done|apply restart_effect].
  simpl. unfold execution_log_for. by destruct (validate_conversation_id conv_id).
Qed.

(** ** Ownership over a registry's life *)

(** Every owner on record, in memory or on disk, is the one minted. *)
Definition owners_ok (minted : gmap string string) (r : Registry) : Prop :=
  (∀ j p, registered r j = Some p → minted !! j = Some p.2) ∧
  (∀ j p, sidecar r j = Some p → minted !! j = Some p.2).

(** Disk and memory agree. *)
Definition in_sync (r : Registry) : Prop := ∀ j, registered r j = sidecar r j.

Lemma owners_ok_new : owners_ok ∅ (registry_new ∅).
Proof. by split. Qed.

Lemma both_set_ok minted id n o r r' :
  owners_ok minted r → both_set id (Some (n, o)) r r' → owners_ok (<[id := o]> minted) r'.
Proof.
  intros [Hr Hs] [Es Er]. split; intros j p; rewrite ?Es, ?Er; unfold upd; case_decide as Hj.
  1,3: intros [= <-]; subst; by rewrite lookup_insert_eq.
  all: intros Hp; rewrite lookup_insert_ne by done; eauto.
Qed.

Lemma owners_ok_unchanged minted r r' : unchanged r r' → owners_ok minted r → owners_ok minted r'.
Proof. intros [Es Er] [Hr Hs]. split; intros j p; rewrite ?Es, ?Er; eauto. Qed.

Lemma owners_ok_step minted o r :
  owners_ok minted r → op_fresh minted o → owners_ok (minted_after o minted) (reg_exec o r).
Proof.
  intros Hok Hf. pose proof (op_effect_exec o r) as He.
  assert (∀ io id now owner, o = RMint io id now owner → io ≠ MetaDone → unchanged r (reg_exec o r) →
            owners_ok (<[id := owner]> minted) (reg_exec o r)) as Hmint.
  { intros io id now owner -> _ [Es Er]. destruct Hok as [Hr Hs]. simpl in Hf.
    split; intros j p; rewrite ?Es, ?Er; intros Hp; rewrite lookup_insert_ne; eauto; intros ->;
      [apply Hr in Hp|apply Hs in Hp]; congruence. }
  destruct o as [[] id now owner|io id name|[] id| | | | | | | | |dir_io io]; simpl in *;
    try (by eapply owners_ok_unchanged); try (by eapply Hmint).
  - by eapply both_set_ok.
  - destruct He as [He|(old & owner & Ho & He)]; [by eapply owners_ok_unchanged|].
    pose proof (both_set_ok _ _ _ _ _ _ Hok He) as H'.
    rewrite insert_id in H'; [done|]. by apply (proj1 Hok id (old, owner)).
  - destruct He as [He|[Es Er]]; [by eapply owners_ok_unchanged|]. destruct Hok as [Hr Hs].
    split; intros j p; rewrite ?Es, ?Er; unfold upd; case_decide; [done|eauto|done|eauto].
  - destruct He as [Es Er], Hok as [Hr Hs]. split; intros j p; rewrite ?Er; [eauto|].
    destruct (Es j) as [-> | ->]; [eauto|done].
  - destruct He as [Es Er], Hok as [Hr Hs]. split; intros j p; rewrite ?Es, ?Er; [|eauto].
    case_decide; [eauto|done].
Qed.

Lemma owners_ok_steps P m r :
  reg_steps P (∅, registry_new ∅) (m, r) → owners_ok m r.
Proof.
  intros Hs. remember (∅, registry_new ∅) as a eqn:Ea. remember (m, r) as b eqn:Eb.
  revert m r Eb. induction Hs as [m r|m0 r0 m r o Hs IH HP Hf]; intros m' r' [= <- <-].
  - simplify_eq. apply owners_ok_new.
  - apply owners_ok_step; auto.
Qed.


Lemma in_sync_step o r : op_clean o → in_sync r → in_sync (reg_exec o r).
Proof.
  intros Hc Hy. pose proof (op_effect_exec o r) as He.
  assert (unchanged r (reg_exec o r) → in_sync (reg_exec o r)) as Hu.
  { intros [Es Er] j. by rewrite Es, Er. }
  assert (∀ id v, both_set id v r (reg_exec o r) → in_sync (reg_exec o r)) as Hb.
  { intros id v [Es Er] j. rewrite Es, Er. unfold upd. by case_decide. }
  destruct o as [[]| |[]| | | | | | | | |dir_io io]; simpl in He, Hc; eauto; try done.
  - destruct He as [|(? & ? & _ & ?)]; eauto.
  - destruct He; eauto.
  - destruct He as [Es Er]. intros j. rewrite Es, Er. by rewrite decide_True by naive_solver.
Qed.

Lemma in_sync_steps m r : reg_steps op_clean (∅, registry_new ∅) (m, r) → in_sync r.
Proof.
  intros Hs. remember (∅, registry_new ∅) as a eqn:Ea. remember (m, r) as b eqn:Eb.
  revert m r Eb. induction Hs as [m r|m0 r0 m r o Hs IH HP Hf]; intros m' r' [= <- <-].
  - by simplify_eq.
  - apply in_sync_step; [done|by eapply IH].
Qed.

(** Restart recovery: a registry whose deletions and reloads did not fail
    half-way comes back from its disk with exactly the conversations it had,
    under the same names and owners, failed and torn sidecar writes
    notwithstanding. *)
Theorem registry_restart_recovers (minted : gmap string string) (r : Registry) :
  reg_steps op_clean (∅, registry_new ∅) (minted, r) →
  let r' := reg_exec (RRestart None (λ _, None)) r in
  ∀ id, registered r' id = registered r id.
Proof.
  intros Hs%in_sync_steps r' id.
  destruct (op_effect_exec (RRestart None (λ _, None)) r) as [_ Er]. rewrite Er.
  rewrite decide_True by done. by rewrite Hs.
Qed.

Lemma gone_step m o r id :
  in_sync r → is_Some (m !! id) → op_fresh m o → op_clean o →
  registered r id = None → registered (reg_exec o r) id = None.
Proof.
  intros Hy [owner Hid] Hf Hc Hn. pose proof (op_effect_exec o r) as He.
  assert (unchanged r (reg_exec o r) → registered (reg_exec o r) id = None) as Hu.
  { intros [_ Er]. by rewrite Er. }
  assert (∀ j v, both_set j v r (reg_exec o r) → j ≠ id ∨ v = None →
                 registered (reg_exec o r) id = None) as Hb.
  { intros j v [_ Er] Hj. rewrite Er. unfold upd. case_decide; naive_solver. }
  destruct o as [[] j| |[]| | | | | | | | |dir_io io]; simpl in *; auto; try done.
  - eapply Hb; [done|]. left. intros ->. congruence.
  - destruct He as [|(? & ? & Ho & He)]; [auto|]. eapply Hb; [done|]. left. intros ->. congruence.
  - destruct He as [|He]; [auto|]. eapply Hb; [done|by right].
  - destruct He as [_ Er]. rewrite Er, decide_True by naive_solver. by rewrite <- Hy.
Qed.

(** No resurrection: an id that was minted and is gone (deleted, or its
    mint failed) stays gone, through later loads, appends by a turn still in
    flight, renames, and restarts. *)
Theorem deleted_never_resurrects (m m' : gmap string string) (r r' : Registry) (id : string) :
  reg_steps op_clean (∅, registry_new ∅) (m, r) →
  is_Some (m !! id) → owns id r = false →
  reg_steps op_clean (m, r) (m', r') →
  owns id r' = false ∧ is_Some (m' !! id).
Proof.
  intros Hy%in_sync_steps Hm Hn Hs. remember (m, r) as a eqn:Ea. remember (m', r') as b eqn:Eb.
  revert m' r' Eb. cut (∀ m' r', b = (m', r') → in_sync r' ∧ is_Some (m' !! id) ∧ registered r' id = None).
  { intros Hc m' r' (_ & ? & Hr)%Hc. split; [|done]. apply bool_decide_eq_false.
    rewrite <- eq_None_not_Some. by apply fmap_None in Hr. }
  induction Hs as [m1 r1|m1 r1 m2 r2 o Hs IH HP Hf]; intros m' r' [= <- <-].
  - simplify_eq. split_and!; [done..|]. unfold registered. apply fmap_None.
    apply eq_None_not_Some. by apply bool_decide_eq_false in Hn.
  - destruct (IH Ea _ _ eq_refl) as (Hy2 & Hm2 & Hr2).
    assert (is_Some (minted_after o m2 !! id)) as Hm3.
    { destruct o; simpl; try done. destruct (decide (id0 = id)) as [->|];
        [rewrite lookup_insert_eq; eauto|by rewrite lookup_insert_ne]. }
    split_and!; [by apply in_sync_step|done|]. by apply (gone_step m2).
Qed.

(** A run, executed. *)
Fixpoint reg_run (ops : list RegOp) (s : gmap string string * Registry)
  : gmap string string * Registry :=
  match ops with
  | [] => s
  | o :: ops => reg_run ops (minted_after o s.1, reg_exec o s.2)
  end.

Fixpoint fresh_run (ops : list RegOp) (m : gmap string string) : Prop :=
  match ops with [] => True | o :: ops => op_fresh m o ∧ fresh_run ops (minted_after o m) end.

Lemma reg_run_steps P s0 ops s :
  reg_steps P s0 s → Forall P ops → fresh_run ops s.1 → reg_steps P s0 (reg_run ops s).
Proof.
  intros Hs HP. revert s Hs. induction HP as [|o ops Ho _ IH]; intros [m r] Hs; simpl; [done|].
  intros [Hf Hfs]. apply IH; [|done]. destruct s0. by constructor.
Qed.
End registry.

(** ** Witnesses *)

Definition sample_uuid (_ : string) : bool := true.
Definition sample_life : list RegOp :=
  [RMint MetaDone "u-alice" 1 "alice"; RMint MetaDone "u-bob" 2 "bob";
   RMint (MetaTorn "full" 3) "u-none" 3 "alice";
   RSetName (MetaNotRenamed "io") "u-alice" "lost"; RSetName MetaDone "u-alice" "trip";
   RAppend AppendDone "u-bob" sample_entry; RDelete DeleteDone "u-bob";
   RRestart None (λ _, None)].

Definition sample_state : gmap string string * Registry :=
  reg_run sample_uuid sample_life (∅, registry_new ∅).

Lemma sample_reached P :
  Forall P sample_life → reg_steps sample_uuid P (∅, registry_new ∅) sample_state.
Proof.
  intros HP. apply reg_run_steps; [constructor|done|].
  repeat split; simpl; try (vm_compute; reflexivity).
Qed.

Lemma sample_clean : Forall op_clean sample_life.
Proof. by repeat constructor. Qed.


Lemma registry_restart_recovers_witness :
  registered (reg_exec sample_uuid (RRestart None (λ _, None)) sample_state.2) "u-alice"
  = Some ("trip", "alice").
Proof.
  rewrite (registry_restart_recovers sample_uuid sample_state.1 sample_state.2); [by_compute|].
  rewrite <- surjective_pairing. apply sample_reached, sample_clean.
Defined.

Definition sample_later : gmap string string * Registry :=
  reg_run sample_uuid [RAppend AppendDone "u-bob" sample_entry; RRestart None (λ _, None)] sample_state.

Lemma deleted_never_resurrects_witness : owns "u-bob" sample_later.2 = false.
Proof.
  apply (deleted_never_resurrects sample_uuid sample_state.1 sample_later.1 sample_state.2
    sample_later.2 "u-bob").
  - rewrite <- surjective_pairing. apply sample_reached, sample_clean.
  - by_compute.
  - by_compute.
  - rewrite <- !surjective_pairing. unfold sample_later.
    apply reg_run_steps; [|by repeat constructor|done].
    destruct sample_state. constructor.
Defined.
