(* ===== verification/GatewayState.v ===== *)
(** * The relay's in-memory state

    Models [crates/relay-controller/src/state.rs]: the channel streams and
    their outbound queues, the recorded turn phases, the per-workspace bus to
    the harness, the conversation-owner and dispatched-call caches, and the
    registry of pending server requests. A stream's receiver is alive or gone
    ([tx.send] fails); its queue is what was sent to it. *)

From S2P Require Import Prelude Text Proto Identity.

(** ** State *)

Inductive ServerRequestOutcome : Type :=
| OutResult (result_json : string)
| OutError (e : ClientResponseError).

Inductive ServerRequestError : Type :=
| UnknownChannelStream | UnsupportedMethod | SendFailed | Timeout | Disconnected.

Inductive ChannelStreamOpener : Type :=
| OpenerPerson
| OpenerChannel (channel sender : string).

Record ChannelStreamEntry : Type := mkStream {
  cs_opener : ChannelStreamOpener; cs_subject : string; cs_workspace : string;
  cs_alive : bool; cs_queue : list ChannelStreamOutbound;
  cs_current_state : TurnState; cs_supported_methods : gset string; cs_heartbeat : bool }.

Record TurnStateRecord : Type := mkTurnStateRecord {
  tsr_state : TurnState; tsr_reason : string; tsr_code : string }.

(** One [Subscribe] stream's receiver on its workspace's bus (capacity 16): a
    receiver that falls behind loses the oldest messages and is told so, which
    ends its forwarding loop. *)
Record Subscriber : Type := mkSubscriber { sb_queue : list UserMessage; sb_lagged : bool }.

Definition BUS_CAPACITY : nat := 16.

Record GatewayState : Type := mkGateway {
  gs_streams : gmap string ChannelStreamEntry;
  gs_last_turn_state : gmap (string * string) TurnStateRecord;
  gs_senders : gmap string (list Subscriber);
  gs_identity : IdentityTable;
  gs_conversation_owners : gmap string string;
  gs_dispatched_calls : gmap string (string * string);
  gs_capabilities : gmap string (list (string * list string));
  gs_namespace : string;
  gs_idp : string * string * string;
  gs_pending : gmap (string * string) nat;     (* the oneshot of each pending request *)
  gs_outcomes : gmap nat ServerRequestOutcome; (* what was sent on each oneshot *)
  gs_next_oneshot : nat;
  gs_heartbeat_interval : N }.

#[export] Instance ChannelStreamOpener_eq_dec : EqDecision ChannelStreamOpener.
Proof. solve_decision. Defined.

(** [GatewayState::new_with_idp]. *)
Definition gateway_new (namespace : string) (idp : string * string * string) : GatewayState :=
  mkGateway ∅ ∅ ∅ empty_identity ∅ ∅ ∅ namespace idp ∅ ∅ 0 15.

Definition set_streams (f : gmap string ChannelStreamEntry → gmap string ChannelStreamEntry)
    (g : GatewayState) : GatewayState :=
  mkGateway (f (gs_streams g)) (gs_last_turn_state g) (gs_senders g) (gs_identity g)
    (gs_conversation_owners g) (gs_dispatched_calls g) (gs_capabilities g) (gs_namespace g)
    (gs_idp g) (gs_pending g) (gs_outcomes g) (gs_next_oneshot g) (gs_heartbeat_interval g).
Definition set_turn_states (f : gmap (string * string) TurnStateRecord → gmap (string * string) TurnStateRecord)
    (g : GatewayState) : GatewayState :=
  mkGateway (gs_streams g) (f (gs_last_turn_state g)) (gs_senders g) (gs_identity g)
    (gs_conversation_owners g) (gs_dispatched_calls g) (gs_capabilities g) (gs_namespace g)
    (gs_idp g) (gs_pending g) (gs_outcomes g) (gs_next_oneshot g) (gs_heartbeat_interval g).
Definition set_senders (f : gmap string (list Subscriber) → gmap string (list Subscriber))
    (g : GatewayState) : GatewayState :=
  mkGateway (gs_streams g) (gs_last_turn_state g) (f (gs_senders g)) (gs_identity g)
    (gs_conversation_owners g) (gs_dispatched_calls g) (gs_capabilities g) (gs_namespace g)
    (gs_idp g) (gs_pending g) (gs_outcomes g) (gs_next_oneshot g) (gs_heartbeat_interval g).
Definition set_identity (t : IdentityTable) (g : GatewayState) : GatewayState :=
  mkGateway (gs_streams g) (gs_last_turn_state g) (gs_senders g) t
    (gs_conversation_owners g) (gs_dispatched_calls g) (gs_capabilities g) (gs_namespace g)
    (gs_idp g) (gs_pending g) (gs_outcomes g) (gs_next_oneshot g) (gs_heartbeat_interval g).
Definition set_capabilities (c : gmap string (list (string * list string))) (g : GatewayState)
  : GatewayState :=
  mkGateway (gs_streams g) (gs_last_turn_state g) (gs_senders g) (gs_identity g)
    (gs_conversation_owners g) (gs_dispatched_calls g) c (gs_namespace g)
    (gs_idp g) (gs_pending g) (gs_outcomes g) (gs_next_oneshot g) (gs_heartbeat_interval g).
Definition set_owners (f : gmap string string → gmap string string) (g : GatewayState)
  : GatewayState :=
  mkGateway (gs_streams g) (gs_last_turn_state g) (gs_senders g) (gs_identity g)
    (f (gs_conversation_owners g)) (gs_dispatched_calls g) (gs_capabilities g) (gs_namespace g)
    (gs_idp g) (gs_pending g) (gs_outcomes g) (gs_next_oneshot g) (gs_heartbeat_interval g).
Definition set_calls (f : gmap string (string * string) → gmap string (string * string))
    (g : GatewayState) : GatewayState :=
  mkGateway (gs_streams g) (gs_last_turn_state g) (gs_senders g) (gs_identity g)
    (gs_conversation_owners g) (f (gs_dispatched_calls g)) (gs_capabilities g) (gs_namespace g)
    (gs_idp g) (gs_pending g) (gs_outcomes g) (gs_next_oneshot g) (gs_heartbeat_interval g).
Definition set_pending (pending : gmap (string * string) nat) (outcomes : gmap nat ServerRequestOutcome)
    (next : nat) (g : GatewayState) : GatewayState :=
  mkGateway (gs_streams g) (gs_last_turn_state g) (gs_senders g) (gs_identity g)
    (gs_conversation_owners g) (gs_dispatched_calls g) (gs_capabilities g) (gs_namespace g)
    (gs_idp g) pending outcomes next (gs_heartbeat_interval g).

(** ** The bus to the harness *)

Definition subscribe_or_create (workspace : string) : GatewayState → GatewayState :=
  set_senders (λ m, <[workspace := default [] (m !! workspace) ++ [mkSubscriber [] false]]> m).

Definition bus_push (msg : UserMessage) (s : Subscriber) : Subscriber :=
  let q := sb_queue s ++ [msg] in
  if BUS_CAPACITY <? length q then mkSubscriber (drop 1 q) true else mkSubscriber q (sb_lagged s).

(** No-op when no subscriber ever opened the workspace; lost when none is
    left. *)
Definition notify_subscriber (workspace : string) (msg : UserMessage) : GatewayState → GatewayState :=
  set_senders (alter (fmap (bus_push msg)) workspace).

(** ** Caches *)

Definition conversation_owner (conversation_id : string) (g : GatewayState) : option string :=
  gs_conversation_owners g !! conversation_id.
Definition record_conversation_owner (conversation_id subject : string) : GatewayState → GatewayState :=
  set_owners (insert conversation_id subject).
Definition record_dispatched_call (call_id subject workspace : string) : GatewayState → GatewayState :=
  set_calls (insert call_id (subject, workspace)).
Definition dispatched_call (call_id : string) (g : GatewayState) : option (string * string) :=
  gs_dispatched_calls g !! call_id.

(** ** Channel streams *)

(** [id] is the fresh UUID. *)
Definition mint_channel_stream (id : string) (opener : ChannelStreamOpener)
    (subject workspace : string) : GatewayState → GatewayState :=
  set_streams (insert id (mkStream opener subject workspace true [] TsIdle ∅ false)).

Definition unregister_channel_stream (id : string) : GatewayState → GatewayState :=
  set_streams (delete id).

(** [tx.send(msg).await.is_ok()] on one entry. *)
Definition enqueue (msg : ChannelStreamOutbound) (e : ChannelStreamEntry) : ChannelStreamEntry :=
  if cs_alive e
  then mkStream (cs_opener e) (cs_subject e) (cs_workspace e) true (cs_queue e ++ [msg])
                (cs_current_state e) (cs_supported_methods e) (cs_heartbeat e)
  else e.

Definition in_workspace (workspace : string) (e : ChannelStreamEntry) : bool :=
  bool_decide (cs_workspace e = workspace).

(** The streams of a workspace that satisfy [p] get [msg]. *)
Definition fan_out (workspace : string) (p : ChannelStreamEntry → bool) (msg : ChannelStreamOutbound)
  : GatewayState → GatewayState :=
  set_streams (fmap (λ e, if in_workspace workspace e && p e then enqueue msg e else e)).

Definition workspace_streams (workspace : string) (g : GatewayState) : list ChannelStreamEntry :=
  snd <$> filter (λ x, in_workspace workspace x.2 = true) (map_to_list (gs_streams g)).

Definition send_to_workspace (workspace : string) (msg : ChannelStreamOutbound) (g : GatewayState)
  : GatewayState * nat :=
  (fan_out workspace (λ _, true) msg g,
   length (filter (λ e, cs_alive e = true) (workspace_streams workspace g))).

Definition spawn_heartbeat (id : string) (g : GatewayState) : GatewayState :=
  if (gs_heartbeat_interval g =? 0)%N then g
  else set_streams (alter (λ e, mkStream (cs_opener e) (cs_subject e) (cs_workspace e) (cs_alive e)
                                  (cs_queue e) (cs_current_state e) (cs_supported_methods e) true) id) g.

Definition heartbeat_frame : ChannelStreamOutbound := mkOutbound (Some CmdHeartbeat).

(** One tick of the task [spawn_heartbeat] starts. *)
Definition heartbeat_tick (id : string) : GatewayState → GatewayState :=
  set_streams (alter (λ e, if cs_heartbeat e then enqueue heartbeat_frame e else e) id).

Definition channel_stream_binding (id : string) (g : GatewayState)
  : option (ChannelStreamOpener * string * string) :=
  (λ e, (cs_opener e, cs_subject e, cs_workspace e)) <$> gs_streams g !! id.

Definition send_to_channel_stream (id : string) (msg : ChannelStreamOutbound) (g : GatewayState)
  : GatewayState * bool :=
  (set_streams (alter (enqueue msg) id) g,
   match gs_streams g !! id with Some e => cs_alive e | None => false end).

(** ** Turn phases *)

Definition record_turn_state (subject conversation_id : string) (record : TurnStateRecord)
  : GatewayState → GatewayState :=
  if str_is_empty conversation_id then id
  else set_turn_states (insert (subject, conversation_id) record).

Definition turn_state_record (subject conversation_id : string) (g : GatewayState)
  : option TurnStateRecord := gs_last_turn_state g !! (subject, conversation_id).

Definition turn_state_frame (state : Z) (conversation_id reason code : string) : ChannelStreamOutbound :=
  mkOutbound (Some (CmdTurnState (turn_state_event state conversation_id reason code))).

Definition set_and_broadcast_turn_state (stream_id subject conversation_id : string)
    (state : TurnState) (g : GatewayState) : GatewayState * bool :=
  let g := record_turn_state subject conversation_id (mkTurnStateRecord state "" "") g in
  match gs_streams g !! stream_id with
  | None => (g, false)
  | Some e =>
      let e := mkStream (cs_opener e) (cs_subject e) (cs_workspace e) (cs_alive e) (cs_queue e) state
                        (cs_supported_methods e) (cs_heartbeat e) in
      (set_streams (insert stream_id
         (enqueue (turn_state_frame (turn_state_i32 state) conversation_id "" "") e)) g, cs_alive e)
  end.

Definition replay_turn_state (stream_id : string) (g : GatewayState) : GatewayState * bool :=
  match gs_streams g !! stream_id with
  | None => (g, false)
  | Some e =>
      (set_streams (insert stream_id
         (enqueue (turn_state_frame (turn_state_i32 (cs_current_state e)) "" "" "") e)) g, cs_alive e)
  end.

Definition update_supported_methods (stream_id : string) (methods : list string)
  : GatewayState → GatewayState :=
  set_streams (alter (λ e, mkStream (cs_opener e) (cs_subject e) (cs_workspace e) (cs_alive e)
                         (cs_queue e) (cs_current_state e) (list_to_set methods) (cs_heartbeat e)) stream_id).

(** ** Server requests *)

Definition supports (method : string) (e : ChannelStreamEntry) : bool :=
  bool_decide (method ∈ cs_supported_methods e).

Definition server_request_frame (request_id method params_json : string) : ChannelStreamOutbound :=
  mkOutbound (Some (CmdServerRequest (mkServerRequest request_id method params_json))).

Definition send_server_notification (workspace method params_json : string) (g : GatewayState)
  : GatewayState * result unit ServerRequestError :=
  let streams := workspace_streams workspace g in
  match streams with
  | [] => (g, Err UnknownChannelStream)
  | _ =>
      let g' := fan_out workspace (supports method) (server_request_frame "" method params_json) g in
      if existsb (λ e, supports method e && cs_alive e) streams then (g', Ok tt)
      else (g', Err UnsupportedMethod)
  end.

(** The first half of [send_server_request_and_await]: up to the wait. [Ok]
    carries the oneshot waited on. *)
Definition send_server_request (workspace request_id method params_json : string) (g : GatewayState)
  : GatewayState * result nat ServerRequestError :=
  let streams := workspace_streams workspace g in
  match streams with
  | [] => (g, Err UnknownChannelStream)
  | _ =>
      if negb (existsb (supports method) streams) then (g, Err UnsupportedMethod) else
      let slot := gs_next_oneshot g in
      let g := set_pending (<[(workspace, request_id) := slot]> (gs_pending g)) (gs_outcomes g) (S slot) g in
      let g := fan_out workspace (λ _, true) (server_request_frame request_id method params_json) g in
      if existsb cs_alive streams then (g, Ok slot)
      else (set_pending (delete (workspace, request_id) (gs_pending g)) (gs_outcomes g)
                        (gs_next_oneshot g) g, Err SendFailed)
  end.

(** The second half: the oneshot resolved, its sender was dropped (the slot was
    replaced), or the wait timed out, which clears the slot by its key. *)
Definition await_server_request (workspace request_id : string) (slot : nat) (timed_out : bool)
    (g : GatewayState) : GatewayState * option (result ServerRequestOutcome ServerRequestError) :=
  match gs_outcomes g !! slot with
  | Some outcome => (g, Some (Ok outcome))
  | None =>
      if decide (map_Forall (λ _ s, s ≠ slot) (gs_pending g)) then (g, Some (Err Disconnected))
      else if timed_out
      then (set_pending (delete (workspace, request_id) (gs_pending g)) (gs_outcomes g)
                        (gs_next_oneshot g) g, Some (Err Timeout))
      else (g, None)
  end.

(** [awaited]: the waiting RPC still holds its receiver. *)
Definition deliver_client_response (awaited : bool) (workspace request_id : string)
    (outcome : ServerRequestOutcome) (g : GatewayState) : GatewayState * bool :=
  match gs_pending g !! (workspace, request_id) with
  | None => (g, false)
  | Some slot =>
      (set_pending (delete (workspace, request_id) (gs_pending g))
         (if awaited then <[slot := outcome]> (gs_outcomes g) else gs_outcomes g)
         (gs_next_oneshot g) g, awaited)
  end.
