(* ===== verification/Gateway.v ===== *)
(** * The external gateway

    Models [crates/relay-controller/src/gateway.rs]: authentication by the
    listener's credential class, the per-request reach review, the ownership
    check in front of the harness, the re-authorized streams, and every
    handler of the [RelayGateway] service. The apiserver is an argument of
    each request (its answers change over time); each workspace's harness is a
    state behind the interface [HarnessControl]. *)

From S2P Require Import Prelude Text Proto Codec Auth Identity Conversation Registry GatewayState.

(** ** What a harness promises the relay *)

(** A client tool call as the relay forwards it. *)
Record ToolRequest : Type := mkToolRequest {
  tq_name : string; tq_input_json : string; tq_conversation_id : string }.

Class HarnessControl (H : Type) : Type := {
  hc_env : Type;                                  (* fresh ids, clock, I/O outcomes *)
  hc_mint : hc_env → string → handler H string Status;
  hc_list : string → handler H (list ConversationSummary) Status;
  hc_delete : hc_env → string → handler H unit Status;
  hc_cancel_turn : string → handler H bool Status;
  hc_set_name : hc_env → string → string → handler H unit Status;
  hc_history : hc_env → string → string → option N → handler H History Status;
  hc_watch_tools : handler H (list (result (list ToolInfo) Status)) Status;
  hc_dispatch_tool : hc_env → ToolRequest → handler H string Status;
  hc_await_tool : string → string → handler H (list (result ToolResultFrame Status)) Status;
  hc_cancel_tool : hc_env → string → handler H bool Status;
  (* everything else that happens inside a harness: turns, appends, restarts *)
  hc_internal : H → H → Prop;

  hc_owner : H → string → option string;
  hc_inv : gmap string string → H → Prop;

  (* its records agree with what was ever minted, and stay so *)
  hc_inv_owner m h id o : hc_inv m h → hc_owner h id = Some o → m !! id = Some o;
  hc_inv_mono m m' h : m ⊆ m' → hc_inv m h → hc_inv m' h;
  hc_inv_internal m h h' : hc_inv m h → hc_internal h h' → hc_inv m h';
  hc_mint_law m e o h h' r :
    hc_inv m h → hc_mint e o h = (h', r) →
    hc_inv (match r with Ok id => <[id := o]> m | Err _ => m end) h';
  hc_list_law o h h' r :
    hc_list o h = (h', r) → h' = h ∧
    ∀ l, r = Ok l → ∀ id, id ∈ su_conversation_id <$> l ↔ hc_owner h id = Some o;
  hc_delete_law m e id h h' r :
    hc_inv m h → hc_delete e id h = (h', r) → hc_inv m h' ∧
    match r with
    | Ok _ => is_Some (hc_owner h id) ∧ hc_owner h' id = None ∧
              ∀ j, j ≠ id → hc_owner h' j = hc_owner h j
    | Err _ => ∀ j, hc_owner h' j = hc_owner h j
    end;
  hc_cancel_law m id h h' r :
    hc_inv m h → hc_cancel_turn id h = (h', r) → hc_inv m h' ∧
    (∀ j, hc_owner h' j = hc_owner h j) ∧ ∀ c, r = Ok c → is_Some (hc_owner h id);
  hc_set_name_law m e id name h h' r :
    hc_inv m h → hc_set_name e id name h = (h', r) → hc_inv m h' ∧
    (∀ j, hc_owner h' j = hc_owner h j) ∧ (r = Ok tt → is_Some (hc_owner h id));
  hc_history_law m e id o limit h h' r :
    hc_inv m h → hc_history e id o limit h = (h', r) → hc_inv m h' ∧
    (∀ j, hc_owner h' j = hc_owner h j) ∧ ∀ x, r = Ok x → hc_owner h id = Some o;
  hc_tools_law m h h' :
    hc_inv m h →
    (∃ r, hc_watch_tools h = (h', r)) ∨ (∃ e q r, hc_dispatch_tool e q h = (h', r)) ∨
    (∃ c i r, hc_await_tool c i h = (h', r)) ∨ (∃ e c r, hc_cancel_tool e c h = (h', r)) →
    hc_inv m h' ∧ ∀ j, hc_owner h' j = hc_owner h j }.

(** ** Requests *)

Inductive ListenerClass : Type := PersonToken | ChannelToken.

(** What the middleware and the client put on a request. *)
Record Req : Type := mkReq {
  rq_class : option ListenerClass; rq_authorization : option (option string) }.

Inductive Caller : Type :=
| CallerPerson (subject : string)
| CallerChannel (channel : string).

Inductive ConversationAccess : Type := Allow | Deny | ResolveWithHarness.

Definition conversation_access (cached_owner : option string) (verified_subject : string)
  : ConversationAccess :=
  match cached_owner with
  | Some owner => if decide (owner = verified_subject) then Allow else Deny
  | None => ResolveWithHarness
  end.

Definition denied_conversation : Status :=
  permission_denied "conversation belongs to a different subject".
Definition denied_call : Status :=
  permission_denied "call belongs to a different subject or workspace".
Definition denied_sender : Status := permission_denied "sender has no operator handle binding".

Definition resolve_sender (identity : IdentityTable) (channel sender : string) : result string Status :=
  ok_or (resolve_handle identity channel sender) denied_sender.

Definition require_sender (identity : IdentityTable) (channel sender subject : string)
  : result unit Status :=
  let? s := resolve_sender identity channel sender in
  if decide (s = subject) then Ok tt else Err denied_sender.

Definition require_workspace (workspace : string) : result unit Status :=
  if str_is_empty workspace then Err (invalid_argument "request must name its workspace") else Ok tt.

Definition require_conversation_name_within_limit (name : string) : result unit Status :=
  if MAX_CONVERSATION_NAME_CHARS <? str_chars_count name
  then Err (invalid_argument "name exceeds 200-character limit") else Ok tt.

(** [None]: the gateway has no kube client. *)
Definition kube_client (kube : option KubeApi) : result KubeApi Status :=
  ok_or kube (unavailable "no kube client configured").

Definition review_reach (client : KubeApi) (namespace subject workspace : string)
  : result unit Status :=
  let? status := map_err (λ e, internal ("SubjectAccessReview API error: " +:+ e))
                   (kube_access_review client (build_subject_access_review subject workspace namespace)) in
  if default false status then Ok tt
  else Err (permission_denied "caller cannot reach the named workspace").

Definition authenticate (kube : option KubeApi) (namespace : string) (req : Req)
  : result Caller Status :=
  let? class := ok_or (rq_class req)
                  (permission_denied "missing listener class; middleware must populate it") in
  let? token := extract_bearer_token (rq_authorization req) in
  let? client := kube_client kube in
  match class with
  | PersonToken =>
      let? subject := review_token_username client token None in
      Ok (CallerPerson subject)
  | ChannelToken =>
      let? username := review_token_username client token (Some CHANNEL_RELAY_AUDIENCE) in
      let? channel := ok_or (channel_from_service_account username namespace)
                        (permission_denied "caller is not a channel ServiceAccount of the namespace") in
      Ok (CallerChannel channel)
  end.

Definition reach (kube : option KubeApi) (namespace subject workspace : string) : result unit Status :=
  let? client := kube_client kube in
  review_reach client namespace subject workspace.

Definition person_subject (kube : option KubeApi) (namespace : string) (req : Req)
  : result string Status :=
  let? caller := authenticate kube namespace req in
  match caller with
  | CallerPerson subject => Ok subject
  | CallerChannel _ => Err (permission_denied "person RPCs are not served on the channel listener")
  end.

Definition authorize_workspace (kube : option KubeApi) (namespace : string) (req : Req)
    (workspace : string) : result string Status :=
  let? _ := require_workspace workspace in
  let? subject := person_subject kube namespace req in
  let? _ := reach kube namespace subject workspace in
  Ok subject.

Definition authorize_receive (kube : option KubeApi) (namespace : string) (identity : IdentityTable)
    (req : Req) (workspace sender : string) : result (ChannelStreamOpener * string) Status :=
  let? caller := authenticate kube namespace req in
  let? _ := require_workspace workspace in
  let? (opener, subject) :=
    match caller with
    | CallerPerson subject =>
        if negb (str_is_empty sender)
        then Err (invalid_argument "ChannelStreamReceiveRequest.sender is for the channel path only")
        else Ok (OpenerPerson, subject)
    | CallerChannel channel =>
        if str_is_empty sender
        then Err (invalid_argument "ChannelStreamReceiveRequest.sender required")
        else let? subject := resolve_sender identity channel sender in
             Ok (OpenerChannel channel sender, subject)
    end in
  let? _ := reach kube namespace subject workspace in
  Ok (opener, subject).

(** ** Streams *)

Record TokenCheck : Type := mkTokenCheck { tk_token : string; tk_audience : option string }.

Definition token_check (req : Req) : result TokenCheck Status :=
  let audience := match rq_class req with
                  | Some ChannelToken => Some CHANNEL_RELAY_AUDIENCE
                  | _ => None
                  end in
  let? token := extract_bearer_token (rq_authorization req) in
  Ok (mkTokenCheck token audience).

(** What an open stream is re-authorized with; the handle is a channel's
    [(channel, sender)]. *)
Record StreamAuth : Type := mkStreamAuth {
  sa_token : TokenCheck; sa_subject : string; sa_workspace : string; sa_namespace : string;
  sa_handle : option (string * string) }.

(** The checks in front of one item, against the apiserver and the identity
    table of that moment. *)
Definition stream_check (a : StreamAuth) (client : KubeApi) (identity : IdentityTable)
  : result unit Status :=
  let? _ := review_token_username client (tk_token (sa_token a)) (tk_audience (sa_token a)) in
  let? _ := match sa_handle a with
            | Some (channel, sender) => require_sender identity channel sender (sa_subject a)
            | None => Ok tt
            end in
  review_reach client (sa_namespace a) (sa_subject a) (sa_workspace a).

(** [reauthorized]: [env n] is the world when the [n]th item is about to go
    out. *)
Fixpoint reauthorized {T} (a : StreamAuth) (env : nat → KubeApi * IdentityTable)
    (inner : list (result T Status)) : list (result T Status) :=
  match inner with
  | [] => []
  | item :: inner =>
      match stream_check a (env 0).1 (env 0).2 with
      | Err e => [Err e]
      | Ok _ => item :: reauthorized a (λ n, env (S n)) inner
      end
  end.

(** ** The world a handler runs in *)

Record World (H : Type) : Type := mkWorld { w_gateway : GatewayState; w_harness : gmap string H }.
Arguments mkWorld {H} _ _.
Arguments w_gateway {H} _.
Arguments w_harness {H} _.

Section gateway.
Context {H : Type} `{HarnessControl H}.

Definition on_gateway {A E} (f : GatewayState → GatewayState * A) : handler (World H) A E :=
  λ w, let '(g, a) := f (w_gateway w) in (mkWorld g (w_harness w), Ok a).
Definition update_gateway {E} (f : GatewayState → GatewayState) : handler (World H) unit E :=
  on_gateway (λ g, (f g, tt)).

(** [self.harness(workspace).await?] and one RPC on it; [dial] is the error of
    connecting, if it fails. *)
Definition forward {A} (dial : string → option string) (workspace : string)
    (call : handler H A Status) : handler (World H) A Status :=
  λ w, match dial workspace, w_harness w !! workspace with
       | Some e, _ => (w, Err (unavailable ("harness unavailable: " +:+ e)))
       | None, None => (w, Err (unavailable "harness unavailable: dial failed"))
       | None, Some h =>
           let '(h', r) := call h in
           (mkWorld (w_gateway w) (<[workspace := h']> (w_harness w)), r)
       end.

(** What the environment contributes to one request. *)
Context (kube : option KubeApi) (dial : string → option string).

Definition ns (w : World H) : string := gs_namespace (w_gateway w).

Definition authorized (req : Req) (workspace : string) : handler (World H) string Status :=
  λ w, (w, authorize_workspace kube (ns w) req workspace).

Definition resolve_conversation_owner (workspace subject conversation_id : string)
  : handler (World H) unit Status :=
  do listed <- forward dial workspace (hc_list subject);
  if existsb (λ c, bool_decide (su_conversation_id c = conversation_id)) listed
  then update_gateway (record_conversation_owner conversation_id subject)
  else herr denied_conversation.

Definition require_conversation_subject (workspace subject conversation_id : string)
  : handler (World H) unit Status :=
  if str_is_empty conversation_id then hret tt else
  do cached <- hget (λ w, conversation_owner conversation_id (w_gateway w));
  match conversation_access cached subject with
  | Allow => hret tt
  | Deny => herr denied_conversation
  | ResolveWithHarness => resolve_conversation_owner workspace subject conversation_id
  end.

Definition owned_call (call_id subject : string) : handler (World H) string Status :=
  do found <- hget (λ w, dispatched_call call_id (w_gateway w));
  do? (owner, workspace) <-
    ok_or found (not_found "call_id is not registered (call DispatchTool first)");
  if decide (owner ≠ subject) then herr denied_call else hret workspace.

Definition require_named (message id : string) : handler (World H) unit Status :=
  if str_is_empty id then herr (invalid_argument message) else hret tt.

(** ** Handlers *)

Definition discover : handler (World H) (string * string * string) Status :=
  hget (λ w, gs_idp (w_gateway w)).

Definition list_workspaces (req : Req) : handler (World H) (list string) Status :=
  do subject <- (λ w, (w, person_subject kube (ns w) req));
  hget (λ w, workspaces_for (gs_identity (w_gateway w)) subject).

Definition list_grants (req : Req) (workspace : string)
  : handler (World H) (list (string * list string)) Status :=
  do _ <- authorized req workspace;
  hget (λ w, for_workspace (gs_capabilities (w_gateway w)) workspace).

Definition mint_conversation (env : hc_env) (req : Req) (workspace : string)
  : handler (World H) string Status :=
  do subject <- authorized req workspace;
  do id <- forward dial workspace (hc_mint env subject);
  do _ <- update_gateway (record_conversation_owner id subject);
  hret id.

Definition list_conversations (req : Req) (workspace : string)
  : handler (World H) (list ConversationSummary) Status :=
  do subject <- authorized req workspace;
  forward dial workspace (hc_list subject).

Definition delete_conversation (env : hc_env) (req : Req) (workspace conversation_id : string)
  : handler (World H) unit Status :=
  do subject <- authorized req workspace;
  do _ <- require_named "DeleteConversationRequest.conversation_id required" conversation_id;
  do _ <- require_conversation_subject workspace subject conversation_id;
  forward dial workspace (hc_delete env conversation_id).

Definition cancel_turn (req : Req) (workspace conversation_id : string)
  : handler (World H) bool Status :=
  do subject <- authorized req workspace;
  do _ <- require_named "CancelTurnRequest.conversation_id required" conversation_id;
  do _ <- require_conversation_subject workspace subject conversation_id;
  forward dial workspace (hc_cancel_turn conversation_id).

Definition set_conversation_name (env : hc_env) (req : Req) (workspace conversation_id name : string)
  : handler (World H) unit Status :=
  do subject <- authorized req workspace;
  do _ <- require_named "SetConversationNameRequest.conversation_id required" conversation_id;
  do? _ <- require_conversation_name_within_limit name;
  do _ <- require_conversation_subject workspace subject conversation_id;
  forward dial workspace (hc_set_name env conversation_id name).

Definition get_conversation_history (env : hc_env) (req : Req) (workspace conversation_id : string)
    (limit : option N) : handler (World H) History Status :=
  do subject <- authorized req workspace;
  do _ <- require_named "conversation_id required" conversation_id;
  forward dial workspace (hc_history env conversation_id subject limit).

Definition get_turn_state (req : Req) (workspace conversation_id : string)
  : handler (World H) TurnStateEvent Status :=
  do subject <- authorized req workspace;
  do _ <- require_named "conversation_id required" conversation_id;
  hget (λ w, match turn_state_record subject conversation_id (w_gateway w) with
             | Some rec => turn_state_event (turn_state_i32 (tsr_state rec)) conversation_id
                                            (tsr_reason rec) (tsr_code rec)
             | None => turn_state_event (turn_state_i32 TsIdle) conversation_id "" ""
             end).

(** The payload of an ingest request. *)
Record IngestRequest : Type := mkIngest {
  ig_channel_stream_id : string; ig_conversation_id : string;
  ig_supported_methods : list string;
  ig_user_message : option (list ContentBlock * string * list (string * string));
  ig_client_response : option ClientResponse }.

(** Whether the caller is the one who opened the stream. *)
Definition opened_by_caller (identity : IdentityTable) (caller : Caller) (opener : ChannelStreamOpener)
    (subject : string) : result bool Status :=
  match caller, opener with
  | CallerPerson caller_subject, OpenerPerson => Ok (bool_decide (caller_subject = subject))
  | CallerChannel channel, OpenerChannel opener sender =>
      if decide (channel ≠ opener) then Ok false
      else let? _ := require_sender identity opener sender subject in Ok true
  | _, _ => Ok false
  end.

Definition ingest_user_message (env : hc_env) (stream_id subject workspace conversation_id : string)
    (um : list ContentBlock * string * list (string * string))
  : handler (World H) (string * string) Status :=
  let '(content, sender, grants) := um in
  do conversation_id <-
    (if str_is_empty conversation_id then
       do minted <- forward dial workspace (hc_mint env subject);
       do _ <- update_gateway (record_conversation_owner minted subject);
       hret minted
     else hret conversation_id);
  do _ <- update_gateway (notify_subscriber workspace
            (mkUserMessage content sender (Some stream_id) conversation_id grants));
  do _ <- on_gateway (set_and_broadcast_turn_state stream_id subject conversation_id TsWorking);
  hret (stream_id, conversation_id).

Definition ingest_client_response (awaited : bool) (stream_id workspace : string) (cr : ClientResponse)
  : handler (World H) (string * string) Status :=
  let result_set := negb (str_is_empty (cr_result_json cr)) in
  do? outcome <-
    match cr_error cr with
    | Some e => if result_set
                then Err (invalid_argument "ClientResponse must carry exactly one of result_json or error")
                else Ok (OutError e)
    | None => if result_set then Ok (OutResult (cr_result_json cr))
              else Err (invalid_argument "ClientResponse must carry result_json or error")
    end;
  do _ <- on_gateway (deliver_client_response awaited workspace (cr_request_id cr) outcome);
  hret (stream_id, "").

(** [Ok (channel_stream_id, conversation_id)] is the ack. *)
Definition channel_stream_ingest (env : hc_env) (awaited : bool) (req : Req) (ig : IngestRequest)
  : handler (World H) (string * string) Status :=
  do caller <- (λ w, (w, authenticate kube (ns w) req));
  do _ <- require_named "ChannelStreamIngestRequest.channel_stream_id required" (ig_channel_stream_id ig);
  do bound <- hget (λ w, channel_stream_binding (ig_channel_stream_id ig) (w_gateway w));
  do? (opener, subject, workspace) <-
    ok_or bound (not_found "ChannelStreamIngestRequest.channel_stream_id is not registered");
  do mine <- (λ w, (w, opened_by_caller (gs_identity (w_gateway w)) caller opener subject));
  if negb mine then herr (permission_denied "caller did not open this channel stream") else
  do _ <- (λ w, (w, reach kube (ns w) subject workspace));
  do _ <- require_conversation_subject workspace subject (ig_conversation_id ig);
  do _ <- match ig_supported_methods ig with
          | [] => hret tt
          | methods => update_gateway (update_supported_methods (ig_channel_stream_id ig) methods)
          end;
  match ig_user_message ig, ig_client_response ig with
  | Some _, Some _ =>
      herr (invalid_argument "ChannelStreamIngestRequest must carry exactly one of user_message or client_response")
  | None, None =>
      herr (invalid_argument "ChannelStreamIngestRequest must carry user_message or client_response")
  | Some um, None =>
      ingest_user_message env (ig_channel_stream_id ig) subject workspace (ig_conversation_id ig) um
  | None, Some cr => ingest_client_response awaited (ig_channel_stream_id ig) workspace cr
  end.

(** [id] is the fresh stream id. The items of the stream are what its queue
    receives, through [reauthorized]. *)
Definition channel_stream_receive (id : string) (req : Req) (workspace sender : string)
  : handler (World H) (string * StreamAuth) Status :=
  do (opener, subject) <- (λ w, (w, authorize_receive kube (ns w) (gs_identity (w_gateway w)) req workspace sender));
  do? token <- token_check req;
  let handle := match opener with
                | OpenerChannel channel sender => Some (channel, sender)
                | OpenerPerson => None
                end in
  do _ <- update_gateway (mint_channel_stream id opener subject workspace);
  do _ <- on_gateway (send_to_channel_stream id (mkOutbound (Some (CmdAck id))));
  do _ <- on_gateway (replay_turn_state id);
  do _ <- update_gateway (spawn_heartbeat id);
  do? _ <- kube_client kube;
  do namespace <- hget ns;
  hret (id, mkStreamAuth token subject workspace namespace handle).

Definition watch_tools (req : Req) (workspace : string)
  : handler (World H) (list (result (list ToolInfo) Status) * StreamAuth) Status :=
  do subject <- authorized req workspace;
  do? token <- token_check req;
  do upstream <- forward dial workspace hc_watch_tools;
  do? _ <- kube_client kube;
  do namespace <- hget ns;
  hret (upstream, mkStreamAuth token subject workspace namespace None).

Definition dispatch_tool (env : hc_env) (req : Req) (workspace : string) (q : ToolRequest)
  : handler (World H) string Status :=
  do subject <- authorized req workspace;
  do _ <- require_conversation_subject workspace subject (tq_conversation_id q);
  do call_id <- forward dial workspace (hc_dispatch_tool env q);
  do _ <- update_gateway (record_dispatched_call call_id subject workspace);
  hret call_id.

Definition await_tool_result (req : Req) (workspace call_id conversation_id : string)
  : handler (World H) (list (result ToolResultFrame Status) * StreamAuth) Status :=
  do subject <- authorized req workspace;
  do? token <- token_check req;
  do _ <- require_named "AwaitToolResultRequest.call_id required" call_id;
  do call_workspace <- owned_call call_id subject;
  if decide (call_workspace ≠ workspace) then herr denied_call else
  do _ <- require_conversation_subject workspace subject conversation_id;
  do upstream <- forward dial workspace (hc_await_tool call_id conversation_id);
  do? _ <- kube_client kube;
  do namespace <- hget ns;
  hret (upstream, mkStreamAuth token subject workspace namespace None).

Definition cancel_tool (env : hc_env) (req : Req) (call_id : string) : handler (World H) bool Status :=
  do subject <- (λ w, (w, person_subject kube (ns w) req));
  do _ <- require_named "CancelToolRequest.call_id required" call_id;
  do workspace <- owned_call call_id subject;
  do _ <- (λ w, (w, reach kube (ns w) subject workspace));
  forward dial workspace (hc_cancel_tool env call_id).
End gateway.

(** ** What an admitted request proves *)

(** The bearer is a person's token, which the apiserver reviews to [subject]. *)
Definition person_verified (kube : option KubeApi) (req : Req) (subject : string) : Prop :=
  rq_class req = Some PersonToken ∧
  ∃ client token, kube = Some client ∧ rq_authorization req = Some (Some ("Bearer " +:+ token)) ∧
    review_token_username client token None = Ok subject.

(** The bearer is a channel ServiceAccount's token for the relay's audience. *)
Definition channel_verified (kube : option KubeApi) (namespace : string) (req : Req)
    (channel : string) : Prop :=
  rq_class req = Some ChannelToken ∧
  ∃ client token username, kube = Some client ∧
    rq_authorization req = Some (Some ("Bearer " +:+ token)) ∧
    review_token_username client token (Some CHANNEL_RELAY_AUDIENCE) = Ok username ∧
    channel_from_service_account username namespace = Some channel.

(** The apiserver allows [subject] the workspace's Service in [namespace]. *)
Definition can_reach (kube : option KubeApi) (namespace subject workspace : string) : Prop :=
  ∃ client, kube = Some client ∧
    kube_access_review client (build_subject_access_review subject workspace namespace) = Ok (Some true).

Lemma extract_bearer_Ok a token :
  extract_bearer_token a = Ok token ↔ a = Some (Some ("Bearer " +:+ token)).
Proof.
  unfold extract_bearer_token. destruct a as [[v|]|]; simpl; [|naive_solver..].
  rewrite ok_or_Ok, str_strip_prefix_Some. naive_solver.
Qed.

Lemma authenticate_Ok kube namespace req caller :
  authenticate kube namespace req = Ok caller ↔
  match caller with
  | CallerPerson s => person_verified kube req s
  | CallerChannel c => channel_verified kube namespace req c
  end.
Proof.
  unfold authenticate, person_verified, channel_verified, kube_client.
  rewrite rbind_Ok. setoid_rewrite ok_or_Ok. setoid_rewrite rbind_Ok.
  setoid_rewrite extract_bearer_Ok. setoid_rewrite rbind_Ok. setoid_rewrite ok_or_Ok. split.
  - intros (class & Hc & token & Ht & client & Hk & Hr). destruct class.
    + apply rbind_Ok in Hr as (s & Hs & [= <-]). eauto 10.
    + apply rbind_Ok in Hr as (u & Hu & Hr). apply rbind_Ok in Hr as (c & Hr & [= <-]).
      apply ok_or_Ok in Hr. eauto 12.
  - destruct caller as [s|c].
    + intros (Hc & client & token & Hk & Ht & Hs). exists PersonToken. split; [done|].
      exists token. split; [done|]. exists client. split; [done|]. by rewrite Hs.
    + intros (Hc & client & token & u & Hk & Ht & Hu & Hn). exists ChannelToken. split; [done|].
      exists token. split; [done|]. exists client. split; [done|]. rewrite Hu. simpl. by rewrite Hn.
Qed.

Lemma review_reach_Ok client namespace subject workspace :
  review_reach client namespace subject workspace = Ok tt ↔
  kube_access_review client (build_subject_access_review subject workspace namespace) = Ok (Some true).
Proof.
  unfold review_reach. destruct (kube_access_review _ _) as [[[]|]|]; simpl; naive_solver.
Qed.

Lemma reach_Ok kube namespace subject workspace u :
  reach kube namespace subject workspace = Ok u ↔ can_reach kube namespace subject workspace.
Proof.
  destruct u. unfold reach, can_reach, kube_client. rewrite rbind_Ok.
  setoid_rewrite ok_or_Ok. by setoid_rewrite review_reach_Ok.
Qed.

Lemma person_subject_Ok kube namespace req s :
  person_subject kube namespace req = Ok s ↔ person_verified kube req s.
Proof.
  unfold person_subject. rewrite rbind_Ok. setoid_rewrite authenticate_Ok. split.
  - intros ([s'|c] & Ha & [= <-]). done.
  - intros Hs. by exists (CallerPerson s).
Qed.

Lemma authorize_Ok kube namespace req workspace s :
  authorize_workspace kube namespace req workspace = Ok s ↔
  workspace ≠ "" ∧ person_verified kube req s ∧ can_reach kube namespace s workspace.
Proof.
  unfold authorize_workspace, require_workspace, str_is_empty.
  rewrite rbind_Ok. setoid_rewrite rbind_Ok. setoid_rewrite person_subject_Ok.
  setoid_rewrite rbind_Ok. setoid_rewrite reach_Ok. split.
  - intros (u & Hw & s' & Hp & u' & Hr & [= <-]). by case_bool_decide.
  - intros (Hw & Hp & Hr). exists tt. rewrite bool_decide_eq_false_2 by done.
    split; [done|]. exists s. split; [done|]. by exists tt.
Qed.

(** Admission to a workspace, on every branch: a person RPC runs as
    [subject] exactly when the request names a workspace, the listener stamped
    it as a person's, the apiserver reviews its bearer token to that subject,
    and a [SubjectAccessReview] for that subject, that workspace's Service and
    the relay's own namespace is allowed at that moment. A channel token, a
    missing class, a failed or undecided review admits nobody. *)
Theorem authorize_workspace_spec kube namespace req workspace s :
  authorize_workspace kube namespace req workspace = Ok s ↔
  workspace ≠ "" ∧ person_verified kube req s ∧ can_reach kube namespace s workspace.
Proof. apply authorize_Ok. Qed.

(** Everything that admitted a stream holds now. *)
Definition stream_authorized (a : StreamAuth) (client : KubeApi) (identity : IdentityTable) : Prop :=
  (∃ username, review_token_username client (tk_token (sa_token a)) (tk_audience (sa_token a)) = Ok username) ∧
  (∀ channel sender, sa_handle a = Some (channel, sender) →
     resolve_handle identity channel sender = Some (sa_subject a)) ∧
  kube_access_review client
    (build_subject_access_review (sa_subject a) (sa_workspace a) (sa_namespace a)) = Ok (Some true).

Lemma require_sender_Ok identity channel sender subject u :
  require_sender identity channel sender subject = Ok u ↔
  resolve_handle identity channel sender = Some subject.
Proof.
  destruct u. unfold require_sender, resolve_sender.
  destruct (resolve_handle identity channel sender); simpl; [|naive_solver].
  case_decide; naive_solver.
Qed.

Lemma stream_check_Ok a client identity :
  stream_check a client identity = Ok tt ↔ stream_authorized a client identity.
Proof.
  unfold stream_check, stream_authorized. rewrite rbind_Ok. setoid_rewrite rbind_Ok.
  setoid_rewrite review_reach_Ok. split.
  - intros (u & Hu & v & Hv & Hr). split_and!; [eauto|..|done].
    intros channel sender Hh. rewrite Hh in Hv. by apply require_sender_Ok in Hv.
  - intros ((u & Hu) & Hh & Hr). exists u. split; [done|]. exists tt. split; [|done].
    destruct (sa_handle a) as [[channel sender]|]; [|done]. apply require_sender_Ok. auto.
Qed.

(** A re-authorized stream forwards its items unchanged up to the first
    one in front of which a check fails, then one error and nothing more: each
    forwarded item was preceded by a token review, the handle check of a
    channel's sender and a reach review that all held at that moment. *)
Theorem reauthorized_spec {T} (a : StreamAuth) (env : nat → KubeApi * IdentityTable)
    (inner : list (result T Status)) :
  ∃ n, (∀ i, i < n → stream_authorized a (env i).1 (env i).2) ∧
    ((n = length inner ∧ reauthorized a env inner = inner) ∨
     (n < length inner ∧ ~ stream_authorized a (env n).1 (env n).2 ∧
      ∃ e, reauthorized a env inner = take n inner ++ [Err e])).
Proof.
  revert env. induction inner as [|item inner IH]; intros env; simpl.
  - exists 0. split; [lia|by left].
  - destruct (stream_check a (env 0).1 (env 0).2) as [[]|e] eqn:E.
    + destruct (IH (λ n, env (S n))) as (n & Hn & Hr). exists (S n). split.
      * intros [|i] Hi; [by apply stream_check_Ok|]. apply Hn. lia.
      * destruct Hr as [[-> ->]|(Hlt & Hna & e & ->)]; [by left|]. right.
        split; [lia|]. split; [done|]. by exists e.
    + exists 0. split; [lia|]. right. split; [lia|]. split; [|by exists e].
      rewrite <- stream_check_Ok, E. done.
Qed.

(** ** The relay and its harnesses as one system *)

Section system.
Context {H : Type} `{!HarnessControl H}.
(** The ids handed out so far, those of the running request included. *)
Context (used : gset string).

(** Every owner the relay caches, and every owner a harness holds, is the one
    the conversation was minted for. *)
Definition owners_cached_ok (m : gmap string string) (g : GatewayState) : Prop :=
  ∀ id s, gs_conversation_owners g !! id = Some s → m !! id = Some s.

Definition winv (m : gmap string string) (w : World H) : Prop :=
  dom m ⊆ used ∧ owners_cached_ok m (w_gateway w) ∧
  ∀ ws h, w_harness w !! ws = Some h → hc_inv m h.

(** Hoare triples of handlers for [winv]; the minted map grows. *)
Definition triple {A} (m : gmap string string) (f : handler (World H) A Status)
    (Q : gmap string string → A → Prop) : Prop :=
  ∀ w, winv m w →
    ∃ m', m ⊆ m' ∧ winv m' (f w).1 ∧ ∀ a, (f w).2 = Ok a → Q m' a.

Lemma triple_ret {A} m (a : A) (Q : gmap string string → A → Prop) : Q m a → triple m (hret a) Q.
Proof. intros HQ w Hw. exists m. split_and!; [done..|]. by intros ? [= <-]. Qed.

Lemma triple_err {A} m e (Q : gmap string string → A → Prop) : triple m (herr e) Q.
Proof. intros w Hw. by exists m. Qed.

Lemma triple_read {A} m (g : World H → result A Status) (Q : gmap string string → A → Prop) :
  (∀ w a, winv m w → g w = Ok a → Q m a) → triple m (λ w, (w, g w)) Q.
Proof. intros HQ w Hw. exists m. split_and!; [done..|]. eauto. Qed.

Lemma triple_lift {A} m (r : result A Status) (Q : gmap string string → A → Prop) :
  (∀ a, r = Ok a → Q m a) → triple m (hlift r) Q.
Proof. intros HQ. apply triple_read. auto. Qed.

Lemma triple_get {A} m (g : World H → A) (Q : gmap string string → A → Prop) :
  (∀ w, winv m w → Q m (g w)) → triple m (hget g) Q.
Proof. intros HQ. apply triple_read. intros w a Hw [= <-]. auto. Qed.

Lemma triple_bind {A B} m (c : handler (World H) A Status) (k : A → handler (World H) B Status)
    (R : gmap string string → A → Prop) (Q : gmap string string → B → Prop) :
  triple m c R → (∀ m' a, m ⊆ m' → R m' a → triple m' (k a) Q) → triple m (hbind c k) Q.
Proof.
  intros Hc Hk w Hw. destruct (Hc w Hw) as (m1 & Hm1 & Hw1 & HR). unfold hbind.
  destruct (c w) as [w1 [a|e]]; simpl in *; [|by exists m1].
  destruct (Hk m1 a Hm1 (HR a eq_refl) w1 Hw1) as (m2 & Hm2 & Hw2 & HQ).
  exists m2. split; [by transitivity m1|done].
Qed.

Lemma triple_gateway {A} m (f : GatewayState → GatewayState * A) (Q : gmap string string → A → Prop) :
  (∀ g, owners_cached_ok m g → owners_cached_ok m (f g).1 ∧ Q m (f g).2) →
  triple m (on_gateway f) Q.
Proof.
  intros Hf w (Hd & Ho & Hh). unfold on_gateway. destruct (Hf _ Ho) as [Ho' HQ].
  destruct (f (w_gateway w)) as [g a]. exists m. split_and!; [done|by split|]. by intros ? [= <-].
Qed.

Lemma triple_forward {A} m dial ws (call : handler H A Status) (Q : gmap string string → A → Prop) :
  (∀ h h' r, hc_inv m h → call h = (h', r) →
     ∃ m', m ⊆ m' ∧ (dom m ⊆ used → dom m' ⊆ used) ∧ hc_inv m' h' ∧ ∀ a, r = Ok a → Q m' a) →
  triple m (forward dial ws call) Q.
Proof.
  intros Hc w (Hd & Ho & Hh). unfold forward. destruct (dial ws); [by exists m|].
  destruct (w_harness w !! ws) as [h|] eqn:E; [|by exists m].
  destruct (call h) as [h' r] eqn:Ec. destruct (Hc h h' r (Hh _ _ E) Ec) as (m' & Hm & Hd' & Hi & HQ).
  exists m'. split_and!; [done| |done]. split; [auto|]. split; simpl.
  - intros id s Hs. eapply lookup_weaken, Hm. by apply Ho.
  - intros ws' h0 Hl. destruct (decide (ws' = ws)) as [->|Hne].
    + rewrite lookup_insert_eq in Hl. by simplify_eq.
    + rewrite lookup_insert_ne in Hl by done. eapply hc_inv_mono; [done|eauto].
Qed.

(** A call that keeps the harness's invariant, whatever it answers. *)
Lemma triple_forward_keep {A} m dial ws (call : handler H A Status) :
  (∀ h h' r, hc_inv m h → call h = (h', r) → hc_inv m h') →
  triple m (forward dial ws call) (λ _ _, True).
Proof. intros Hc. apply triple_forward. intros h h' r Hi E. exists m. eauto. Qed.

(** The fresh UUID a request's mint would use was never minted. *)
Definition env_fresh (m : gmap string string) (env : hc_env) : Prop :=
  ∀ o h h' id, hc_mint env o h = (h', Ok id) → m !! id = None ∧ id ∈ used.

Lemma triple_mint m dial ws env s :
  env_fresh m env → triple m (forward dial ws (hc_mint env s)) (λ m' id, m' !! id = Some s).
Proof.
  intros Hf. apply triple_forward. intros h h' r Hi E.
  pose proof (hc_mint_law m env s h h' r Hi E) as Hl. destruct r as [id|e].
  - destruct (Hf _ _ _ _ E) as [Hn Hu]. exists (<[id := s]> m). split_and!; [| |done|].
    + by apply insert_subseteq.
    + rewrite dom_insert. set_solver.
    + intros ? [= <-]. apply lookup_insert_eq.
  - by exists m.
Qed.

Lemma triple_record m id s : m !! id = Some s →
  triple m (update_gateway (E := Status) (record_conversation_owner id s)) (λ m' _, m' = m).
Proof.
  intros Hm. apply triple_gateway. intros g Hg. split; [|done]. simpl.
  intros j t. simpl. destruct (decide (j = id)) as [->|];
    [rewrite lookup_insert_eq; naive_solver|rewrite lookup_insert_ne by done; apply Hg].
Qed.

Lemma triple_require_subject m dial ws s id :
  triple m (require_conversation_subject dial ws s id)
    (λ m' _, m' = m ∧ (id = "" ∨ m !! id = Some s)).
Proof.
  unfold require_conversation_subject, str_is_empty. case_bool_decide; [apply triple_ret; by auto|].
  eapply triple_bind with (R := λ m' c, m' = m ∧ ∀ o, c = Some o → m !! id = Some o).
  { apply triple_get. intros w (_ & Ho & _). split; [done|]. intros o Hc. by apply Ho. }
  intros m' [o|] _ [-> Hc]; simpl.
  - case_decide; subst; [apply triple_ret; auto|apply triple_err].
  - unfold resolve_conversation_owner.
    eapply triple_bind with (R := λ m' l, m' = m ∧ ∀ j, j ∈ su_conversation_id <$> l → m !! j = Some s).
    { apply triple_forward. intros h h' r Hi E. apply hc_list_law in E as [-> Hl].
      exists m. split_and!; [done..|]. intros l ->. split; [done|]. intros j Hj.
      eapply hc_inv_owner; [done|]. by eapply Hl. }
    intros m2 l _ [-> Hl]. destruct (existsb _ l) eqn:E; [|apply triple_err].
    apply existsb_exists in E as (c & Hin & Hid). apply bool_decide_eq_true in Hid.
    assert (m !! id = Some s) as Hm.
    { apply Hl. rewrite <- Hid. apply list_elem_of_fmap_2. by apply list_elem_of_In. }
    intros w Hw. destruct (triple_record m id s Hm w Hw) as (m3 & Hm3 & Hw3 & HQ).
    exists m3. split_and!; [done..|]. intros a Ha. split; [by eapply HQ|by right].
Qed.

(** A step on the relay's state that leaves the owner cache alone. *)
Lemma triple_same {A} m (f : GatewayState → GatewayState * A) :
  (∀ g, gs_conversation_owners (f g).1 = gs_conversation_owners g) →
  triple m (on_gateway f) (λ _ _, True).
Proof.
  intros Hf. apply triple_gateway. intros g Hg. split; [|done]. intros id s. rewrite Hf. apply Hg.
Qed.

Lemma record_turn_state_owners subject id rec g :
  gs_conversation_owners (record_turn_state subject id rec g) = gs_conversation_owners g.
Proof. unfold record_turn_state. by destruct (str_is_empty id). Qed.

Lemma set_and_broadcast_owners sid subject id st g :
  gs_conversation_owners (set_and_broadcast_turn_state sid subject id st g).1 = gs_conversation_owners g.
Proof.
  unfold set_and_broadcast_turn_state. destruct (gs_streams _ !! sid); simpl;
    apply record_turn_state_owners.
Qed.

Lemma replay_owners sid g :
  gs_conversation_owners (replay_turn_state sid g).1 = gs_conversation_owners g.
Proof. unfold replay_turn_state. by destruct (gs_streams g !! sid). Qed.

Lemma spawn_heartbeat_owners sid g :
  gs_conversation_owners (spawn_heartbeat sid g) = gs_conversation_owners g.
Proof. unfold spawn_heartbeat. by case_match. Qed.

Lemma deliver_response_owners aw ws rid o g :
  gs_conversation_owners (deliver_client_response aw ws rid o g).1 = gs_conversation_owners g.
Proof. unfold deliver_client_response. by destruct (gs_pending g !! (ws, rid)). Qed.

(** The RPCs of the gateway. *)
Inductive Rpc : Type :=
| RpcDiscover
| RpcListWorkspaces
| RpcListGrants (workspace : string)
| RpcMint (env : hc_env) (workspace : string)
| RpcList (workspace : string)
| RpcDelete (env : hc_env) (workspace conversation_id : string)
| RpcCancelTurn (workspace conversation_id : string)
| RpcSetName (env : hc_env) (workspace conversation_id name : string)
| RpcHistory (env : hc_env) (workspace conversation_id : string) (limit : option N)
| RpcGetTurnState (workspace conversation_id : string)
| RpcIngest (env : hc_env) (awaited : bool) (ig : IngestRequest)
| RpcReceive (id workspace sender : string)
| RpcWatchTools (workspace : string)
| RpcDispatchTool (env : hc_env) (workspace : string) (q : ToolRequest)
| RpcAwaitTool (workspace call_id conversation_id : string)
| RpcCancelTool (env : hc_env) (call_id : string).

Definition rpc_exec (kube : option KubeApi) (dial : string → option string) (req : Req) (r : Rpc)
    (w : World H) : World H :=
  match r with
  | RpcDiscover => (discover w).1
  | RpcListWorkspaces => (list_workspaces kube req w).1
  | RpcListGrants ws => (list_grants kube req ws w).1
  | RpcMint env ws => (mint_conversation kube dial env req ws w).1
  | RpcList ws => (list_conversations kube dial req ws w).1
  | RpcDelete env ws id => (delete_conversation kube dial env req ws id w).1
  | RpcCancelTurn ws id => (cancel_turn kube dial req ws id w).1
  | RpcSetName env ws id name => (set_conversation_name kube dial env req ws id name w).1
  | RpcHistory env ws id limit => (get_conversation_history kube dial env req ws id limit w).1
  | RpcGetTurnState ws id => (get_turn_state kube req ws id w).1
  | RpcIngest env awaited ig => (channel_stream_ingest kube dial env awaited req ig w).1
  | RpcReceive id ws sender => (channel_stream_receive kube id req ws sender w).1
  | RpcWatchTools ws => (watch_tools kube dial req ws w).1
  | RpcDispatchTool env ws q => (dispatch_tool kube dial env req ws q w).1
  | RpcAwaitTool ws call_id id => (await_tool_result kube dial req ws call_id id w).1
  | RpcCancelTool env call_id => (cancel_tool kube dial env req call_id w).1
  end.

Definition rpc_fresh (m : gmap string string) (r : Rpc) : Prop :=
  match r with RpcMint env _ | RpcIngest env _ _ => env_fresh m env | _ => True end.

(** *** Every RPC keeps the invariant *)

Lemma triple_authorized m kube req ws : triple m (authorized kube req ws) (λ m' _, m' = m).
Proof. by apply triple_read. Qed.

Lemma triple_named m message id : triple m (require_named message id) (λ m' _, m' = m).
Proof. unfold require_named. destruct (str_is_empty id); [apply triple_err|by apply triple_ret]. Qed.

Lemma triple_owned_call m call_id s : triple m (owned_call call_id s) (λ m' _, m' = m).
Proof.
  unfold owned_call. eapply triple_bind; [by apply (triple_get m _ (λ m' _, m' = m))|].
  intros m' found _ ->. eapply triple_bind; [by apply (triple_lift m _ (λ m' _, m' = m))|].
  intros m' [owner ws] _ ->. case_decide; [apply triple_err|by apply triple_ret].
Qed.

(** Runs through a handler up to its forward. *)
Ltac triple_step :=
  match goal with
  | |- triple _ (hbind (authorized _ _ _) _) _ =>
      eapply triple_bind; [apply triple_authorized|intros ? ? _ ->]
  | |- triple _ (hbind (require_named _ _) _) _ =>
      eapply triple_bind; [apply triple_named|intros ? [] _ ->]
  | |- triple _ (hbind (owned_call _ _) _) _ =>
      eapply triple_bind; [apply triple_owned_call|intros ? ? _ ->]
  | |- triple _ (hbind (require_conversation_subject _ _ _ _) _) _ =>
      eapply triple_bind; [apply triple_require_subject|intros ? [] _ [-> ?]]
  | |- triple ?m (hbind (hlift _) _) _ =>
      eapply triple_bind; [by apply (triple_lift m _ (λ m' _, m' = m))|intros ? ? _ ->]
  | |- triple ?m (hbind (hget _) _) _ =>
      eapply triple_bind; [by apply (triple_get m _ (λ m' _, m' = m))|intros ? ? _ ->]
  | |- triple ?m (hbind (λ w, (w, _)) _) _ =>
      eapply triple_bind; [by apply (triple_read m _ (λ m' _, m' = m))|intros ? ? _ ->]
  | |- triple _ (hret _) _ => by apply triple_ret
  | |- triple _ (herr _) _ => apply triple_err
  | |- triple _ (hget _) _ => by apply triple_get
  end.

Lemma triple_mint_record {A} m dial ws env s (k : string → handler (World H) A Status) Q :
  env_fresh m env →
  (∀ m' id, m ⊆ m' → m' !! id = Some s → triple m' (k id) Q) →
  triple m (do id <- forward dial ws (hc_mint env s);
            do _ <- update_gateway (record_conversation_owner id s); k id) Q.
Proof.
  intros Hf Hk. eapply triple_bind; [by apply triple_mint|]. intros m1 id Hm1 Hid.
  eapply triple_bind; [by apply triple_record|]. intros m2 [] _ ->. by apply Hk.
Qed.

Lemma triple_ingest m kube dial env awaited req ig :
  env_fresh m env → triple m (channel_stream_ingest kube dial env awaited req ig) (λ _ _, True).
Proof.
  intros Hf. unfold channel_stream_ingest. do 3 triple_step. triple_step.
  destruct a1 as [[opener subject] ws]. triple_step. destruct a1; simpl; [|triple_step].
  do 2 triple_step.
  eapply triple_bind with (R := λ m' _, m' = m).
  { destruct (ig_supported_methods ig); [by apply triple_ret|].
    apply triple_gateway. intros g Hg. split; [|done]. exact Hg. }
  intros m' [] _ ->.
  destruct (ig_user_message ig) as [[[content sender] grants]|], (ig_client_response ig) as [cr|];
    try triple_step.
  - unfold ingest_user_message.
    eapply triple_bind with (R := λ _ _, True).
    { destruct (str_is_empty (ig_conversation_id ig)); [|by apply triple_ret].
      apply triple_mint_record; [done|]. intros. by apply triple_ret. }
    intros m1 id _ _. eapply triple_bind; [by apply triple_same|]. intros m2 [] _ _.
    eapply triple_bind; [apply triple_same, set_and_broadcast_owners|]. intros m3 ? _ _. triple_step.
  - unfold ingest_client_response. triple_step.
    eapply triple_bind; [apply triple_same; intros; apply deliver_response_owners|].
    intros ? ? _ _. triple_step.
Qed.

Lemma rpc_keeps_winv m kube dial req r w :
  rpc_fresh m r → winv m w → ∃ m', m ⊆ m' ∧ winv m' (rpc_exec kube dial req r w).
Proof.
  intros Hf Hw.
  assert (∀ A (f : handler (World H) A Status), triple m f (λ _ _, True) →
            ∃ m', m ⊆ m' ∧ winv m' (f w).1) as Ht.
  { intros A f Hf'. destruct (Hf' w Hw) as (m' & ? & ? & _). eauto. }
  destruct r; cbn [rpc_exec rpc_fresh] in *; apply Ht; clear Ht.
  - by apply triple_get.
  - unfold list_workspaces. by repeat triple_step.
  - unfold list_grants. by repeat triple_step.
  - unfold mint_conversation. triple_step. apply triple_mint_record; [done|]. intros. triple_step.
  - unfold list_conversations. triple_step. apply triple_forward_keep.
    intros h h' r Hi [-> _]%hc_list_law. done.
  - unfold delete_conversation. do 3 triple_step. apply triple_forward_keep.
    intros h h' r Hi E. by apply (hc_delete_law m) in E as [? _].
  - unfold cancel_turn. do 3 triple_step. apply triple_forward_keep.
    intros h h' r Hi E. by apply (hc_cancel_law m) in E as [? _].
  - unfold set_conversation_name. do 4 triple_step. apply triple_forward_keep.
    intros h h' r Hi E. by apply (hc_set_name_law m) in E as [? _].
  - unfold get_conversation_history. do 2 triple_step. apply triple_forward_keep.
    intros h h' r Hi E. by apply (hc_history_law m) in E as [? _].
  - unfold get_turn_state. by repeat triple_step.
  - by apply triple_ingest.
  - unfold channel_stream_receive. triple_step. destruct a as [opener subject]. triple_step.
    eapply triple_bind; [by apply triple_same|]. intros ? [] _ _.
    eapply triple_bind; [by apply triple_same|]. intros ? ? _ _.
    eapply triple_bind; [apply triple_same, replay_owners|]. intros ? ? _ _.
    eapply triple_bind; [apply triple_same; intros; apply spawn_heartbeat_owners|]. intros ? [] _ _.
    by repeat triple_step.
  - unfold watch_tools. do 2 triple_step.
    eapply triple_bind; [apply triple_forward_keep|intros ? ? _ _; by repeat triple_step].
    intros h h' r Hi E. apply (hc_tools_law m h h'); eauto.
  - unfold dispatch_tool. do 2 triple_step.
    eapply triple_bind; [apply triple_forward_keep|intros ? ? _ _].
    { intros h h' r Hi E. apply (hc_tools_law m h h'); eauto 10. }
    eapply triple_bind; [by apply triple_same|]. intros ? [] _ _. triple_step.
  - unfold await_tool_result. do 4 triple_step. case_decide; [triple_step|]. triple_step.
    eapply triple_bind; [apply triple_forward_keep|intros ? ? _ _; by repeat triple_step].
    intros h h' r Hi E. apply (hc_tools_law m h h'); eauto 10.
  - unfold cancel_tool. do 4 triple_step. apply triple_forward_keep.
    intros h h' r Hi E. apply (hc_tools_law m h h'); eauto 10.
Qed.

Lemma winv_cached m w id s :
  winv m w → gs_conversation_owners (w_gateway w) !! id = Some s → m !! id = Some s.
Proof. intros (_ & Ho & _). apply Ho. Qed.

Lemma winv_owner m w ws h id o :
  winv m w → w_harness w !! ws = Some h → hc_owner h id = Some o → m !! id = Some o.
Proof. intros (_ & _ & Hh) E Ho. eapply hc_inv_owner; eauto. Qed.
End system.

(** *** Reachable worlds

    Requests of anybody, with any answers of the apiserver and any failure;
    whatever else the relay or a harness does; restarts of the relay. [used]
    are the UUIDs generated so far. *)

Section reach.
Context {H : Type} `{!HarnessControl H}.

Inductive gw_reach : gset string → World H → Prop :=
| gw_init namespace idp harnesses :
    (∀ ws h, harnesses !! ws = Some h → hc_inv ∅ h) →
    gw_reach ∅ (mkWorld (gateway_new namespace idp) harnesses)
| gw_rpc used used' w kube dial req r :
    gw_reach used w → used ⊆ used' →
    (∀ env, (∃ ws, r = RpcMint env ws) ∨ (∃ aw ig, r = RpcIngest env aw ig) →
       ∀ o h h' id, hc_mint env o h = (h', Ok id) → id ∉ used ∧ id ∈ used') →
    gw_reach used' (rpc_exec kube dial req r w)
| gw_internal used w ws h h' :
    gw_reach used w → w_harness w !! ws = Some h → hc_internal h h' →
    gw_reach used (mkWorld (w_gateway w) (<[ws := h']> (w_harness w)))
| gw_other used w g :
    gw_reach used w → gs_conversation_owners g = gs_conversation_owners (w_gateway w) →
    gw_reach used (mkWorld g (w_harness w))
| gw_relay_restart used w namespace idp :
    gw_reach used w → gw_reach used (mkWorld (gateway_new namespace idp) (w_harness w)).

Lemma winv_weaken used used' m (w : World H) : used ⊆ used' → winv used m w → winv used' m w.
Proof. intros Hu (Hd & Hr). split; [set_solver|done]. Qed.

Lemma gw_reach_winv used w : gw_reach used w → ∃ m, winv used m w.
Proof.
  induction 1 as [namespace idp hs Hi|used used' w kube dial req r _ [m Hm] Hu Hf
    |used w ws h h' _ [m Hm] Hl Hi|used w g _ [m Hm] Ho|used w namespace idp _ [m Hm]].
  - exists ∅. split_and!; [set_solver|done|done].
  - apply (winv_weaken used used') in Hm as Hm'; [|done].
    destruct (rpc_keeps_winv used' m kube dial req r w) as (m' & _ & ?); [|done|eauto].
    assert (∀ env, (∃ ws, r = RpcMint env ws) ∨ (∃ aw ig, r = RpcIngest env aw ig) →
              env_fresh used' m env) as He.
    { intros env Hr o h h' id E. destruct (Hf env Hr o h h' id E) as [Hn Hy]. split; [|done].
      destruct Hm as [Hd _]. apply not_elem_of_dom. set_solver. }
    destruct r; simpl; eauto.
  - exists m. destruct Hm as (Hd & Ho & Hh). split_and!; [done..|]. intros ws' h0. simpl.
    destruct (decide (ws' = ws)) as [->|];
      [rewrite lookup_insert_eq; intros [= <-]; eapply hc_inv_internal; eauto
      |rewrite lookup_insert_ne by done; apply Hh].
  - exists m. destruct Hm as (Hd & Ho' & Hh). split_and!; [done| |done]. intros id s. simpl.
    rewrite Ho. apply Ho'.
  - exists m. destruct Hm as (Hd & _ & Hh). by split_and!.
Qed.

(** *** Only the owner writes *)

Lemma forward_list_harness dial ws s (w : World H) :
  w_harness (forward dial ws (hc_list s) w).1 = w_harness w.
Proof.
  unfold forward. destruct (dial ws); [done|]. destruct (w_harness w !! ws) as [h|] eqn:E; [|done].
  destruct (hc_list s h) as [h' r] eqn:El. apply hc_list_law in El as [-> _]. simpl.
  by apply insert_id.
Qed.

Lemma require_subject_harness dial ws s id (w : World H) :
  w_harness (require_conversation_subject dial ws s id w).1 = w_harness w.
Proof.
  unfold require_conversation_subject. destruct (str_is_empty id); [done|].
  unfold hbind at 1, hget. destruct (conversation_access _ _); [done..|].
  unfold resolve_conversation_owner, hbind. pose proof (forward_list_harness dial ws s w) as Hh.
  destruct (forward dial ws (hc_list s) w) as [w' [l|e]]; [|done].
  by destruct (existsb _ l).
Qed.

Lemma require_subject_Ok used m dial ws s id (w w' : World H) :
  winv used m w → id ≠ "" → require_conversation_subject dial ws s id w = (w', Ok tt) →
  m !! id = Some s ∧ w_harness w' = w_harness w.
Proof.
  intros Hw Hid E. destruct (triple_require_subject used m dial ws s id w Hw) as (m' & _ & _ & HQ).
  pose proof (require_subject_harness dial ws s id w) as Hh. rewrite E in HQ, Hh.
  destruct (HQ tt eq_refl) as [_ [|]]; done.
Qed.

(** The caller is [s], may reach [ws], and [id] is its conversation there. *)
Definition owns_conversation (kube : option KubeApi) (req : Req) (w : World H)
    (ws id s : string) (h : H) : Prop :=
  person_verified kube req s ∧ can_reach kube (ns w) s ws ∧
  w_harness w !! ws = Some h ∧ hc_owner h id = Some s.

(** A write behind the ownership check reaches the harness of the named
    workspace, and only for a conversation the caller owns there. *)
Lemma owned_forward_Ok {A} used m kube dial req ws id msg (call : handler H A Status) (w w' : World H) a
    (pre : handler (World H) unit Status) :
  winv used m w →
  (∀ w, (pre w).1 = w) →
  (∀ h h' r, hc_inv m h → call h = (h', r) → ∀ a, r = Ok a → is_Some (hc_owner h id)) →
  (do subject <- authorized kube req ws;
   do _ <- require_named msg id;
   do _ <- pre;
   do _ <- require_conversation_subject dial ws subject id;
   forward dial ws call) w = (w', Ok a) →
  ∃ s h h', owns_conversation kube req w ws id s h ∧ call h = (h', Ok a) ∧
    w_harness w' = <[ws := h']> (w_harness w).
Proof.
  intros Hw Hpre Hcall E. unfold owns_conversation. apply hbind_Ok in E as (w1 & s & Ha & E).
  injection Ha as <- Ha. apply authorize_Ok in Ha as (_ & Hp & Hr).
  apply hbind_Ok in E as (w2 & [] & Hn & E). unfold require_named, str_is_empty in Hn.
  case_bool_decide as Hid; [done|]. injection Hn as <-.
  apply hbind_Ok in E as (w3 & [] & Hq & E). pose proof (Hpre w) as Hw3. rewrite Hq in Hw3.
  simpl in Hw3. subst w3. apply hbind_Ok in E as (w4 & [] & Hs & E).
  destruct (require_subject_Ok used m _ _ _ _ _ _ Hw Hid Hs) as [Hm Hh].
  unfold forward in E. rewrite Hh in E. destruct (dial ws); [done|].
  destruct (w_harness w !! ws) as [h|] eqn:El; [|done].
  destruct (call h) as [h' r] eqn:Ec. injection E as <- ->. exists s, h, h'.
  destruct (Hcall h h' (Ok a) (proj2 (proj2 Hw) _ _ El) Ec a eq_refl) as [o Ho].
  pose proof (winv_owner used m w ws h id o Hw El Ho) as Hm'. split_and!; try done.
  by simplify_eq.
Qed.

(** C1. Only its owner can delete, cancel or rename a conversation, although
    the harness checks no owner and two subjects may share the workspace: in
    every reachable world, whatever the relay has cached, a successful call
    was made by a verified person who may reach the workspace and is the owner
    the harness has on record for that conversation; a deletion removes that
    conversation and no other, in no other workspace. *)
Theorem conversation_writes_owner_only (used : gset string) (w w' : World H)
    kube dial env req ws id name c :
  gw_reach used w →
  (delete_conversation kube dial env req ws id w = (w', Ok tt) →
     ∃ s h h', owns_conversation kube req w ws id s h ∧
       w_harness w' = <[ws := h']> (w_harness w) ∧
       hc_owner h' id = None ∧ ∀ j, j ≠ id → hc_owner h' j = hc_owner h j) ∧
  (cancel_turn kube dial req ws id w = (w', Ok c) →
     ∃ s h, owns_conversation kube req w ws id s h) ∧
  (set_conversation_name kube dial env req ws id name w = (w', Ok tt) →
     ∃ s h, owns_conversation kube req w ws id s h).
Proof.
  intros [m Hw]%gw_reach_winv. split_and!; intros E.
  - unfold delete_conversation in E.
    apply (owned_forward_Ok used m _ _ _ _ _ _ _ _ _ _ (hret tt)) in E
      as (s & h & h' & Ho & Ec & Eh); [|done|done|].
    + exists s, h, h'. apply (hc_delete_law m) in Ec as (_ & _ & Hn & Hj); [done|].
      destruct Ho as (_ & _ & Hl & _). eapply Hw, Hl.
    + intros h h' r Hi Ec a ->. by apply (hc_delete_law m) in Ec as (_ & Hs & _).
  - unfold cancel_turn in E.
    apply (owned_forward_Ok used m _ _ _ _ _ _ _ _ _ _ (hret tt)) in E
      as (s & h & h' & Ho & _); [eauto|done|done|].
    intros h h' r Hi Ec a ->. apply (hc_cancel_law m) in Ec as (_ & _ & Hs); eauto.
  - unfold set_conversation_name in E.
    apply (owned_forward_Ok used m _ _ _ _ _ _ _ _ _ _
             (hlift (require_conversation_name_within_limit name))) in E
      as (s & h & h' & Ho & _); [eauto|done|done|].
    intros h h' r Hi Ec [] ->. apply (hc_set_name_law m) in Ec as (_ & _ & Hs); eauto.
Qed.

(** *** Who may feed a stream, and who may read a call *)

(** The request comes from whoever opened the stream [e]. *)
Definition opener_verified (kube : option KubeApi) (req : Req) (w : World H) (e : ChannelStreamEntry)
  : Prop :=
  match cs_opener e with
  | OpenerPerson => person_verified kube req (cs_subject e)
  | OpenerChannel channel sender =>
      channel_verified kube (ns w) req channel ∧
      resolve_handle (gs_identity (w_gateway w)) channel sender = Some (cs_subject e)
  end.

Lemma opened_by_caller_Ok kube req (w : World H) caller e :
  authenticate kube (ns w) req = Ok caller →
  opened_by_caller (gs_identity (w_gateway w)) caller (cs_opener e) (cs_subject e) = Ok true →
  opener_verified kube req w e.
Proof.
  intros Ha%authenticate_Ok. unfold opened_by_caller, opener_verified.
  destruct caller as [s|c], (cs_opener e) as [|ch sender]; try done.
  - intros [= Hs%bool_decide_eq_true]. by subst.
  - case_decide as Hc; [done|]. subst. rewrite rbind_Ok.
    intros (u & Hu%require_sender_Ok & _). done.
Qed.

(** C14. A message enters a stream only from the caller that opened it: an
    accepted ingest names a registered stream; for a person's stream the
    request is that person's, for a channel's it is that channel's and the
    sender's handle still resolves to the stream's subject; the subject may
    reach the stream's workspace at that moment; and a conversation it names is
    no other subject's, in any harness. *)
Theorem ingest_admits_opener_only (used : gset string) (w w' : World H) kube dial env awaited req ig
    (ack : string * string) :
  gw_reach used w →
  channel_stream_ingest kube dial env awaited req ig w = (w', Ok ack) →
  ∃ e, gs_streams (w_gateway w) !! ig_channel_stream_id ig = Some e ∧
    opener_verified kube req w e ∧
    can_reach kube (ns w) (cs_subject e) (cs_workspace e) ∧
    (ig_conversation_id ig ≠ "" → ∀ ws h o,
       w_harness w !! ws = Some h → hc_owner h (ig_conversation_id ig) = Some o → o = cs_subject e).
Proof.
  intros [m Hw]%gw_reach_winv E. unfold channel_stream_ingest in E.
  apply hbind_Ok in E as (w1 & caller & Ha & E). injection Ha as <- Ha.
  apply hbind_Ok in E as (w2 & [] & Hn & E). unfold require_named in Hn.
  destruct (str_is_empty (ig_channel_stream_id ig)); [done|]. injection Hn as <-.
  apply hbind_Ok in E as (w3 & bound & Hb & E). injection Hb as <- <-.
  unfold channel_stream_binding in E.
  apply hbind_Ok in E as (w4 & [[opener subject] workspace] & Hb & E).
  apply hlift_Ok in Hb as [-> Hb]. apply ok_or_Ok, fmap_Some in Hb as (e & He & Heq). simplify_eq.
  apply hbind_Ok in E as (w5 & mine & Hm & E). injection Hm as <- Hm.
  destruct mine; [|done]. simpl in E. apply hbind_Ok in E as (w6 & [] & Hr & E). injection Hr as <- Hr.
  apply hbind_Ok in E as (w7 & [] & Hs & E). apply reach_Ok in Hr.
  exists e. split_and!; [done|by eapply opened_by_caller_Ok|done|].
  intros Hid ws h o Hl Ho. destruct (require_subject_Ok used m _ _ _ _ _ _ Hw Hid Hs) as [Hms _].
  pose proof (winv_owner used m w ws h _ o Hw Hl Ho). congruence.
Qed.

Lemma owned_call_Ok call_id s (w w' : World H) ws :
  owned_call call_id s w = (w', Ok ws) → w' = w ∧ dispatched_call call_id (w_gateway w) = Some (s, ws).
Proof.
  unfold owned_call. intros (w1 & found & Hf & E)%hbind_Ok. injection Hf as <- <-.
  apply hbind_Ok in E as (w2 & [owner ws'] & Hl & E). apply hlift_Ok in Hl as [-> Hl].
  apply ok_or_Ok in Hl. case_decide as Ho; [done|]. by injection E as <- <-; subst.
Qed.

(** C15. A dispatched call belongs to its dispatcher: dispatching records the
    verified subject and the workspace it was admitted to, and only that
    subject, in that workspace and still able to reach it, gets the call's
    result stream or cancels it; holding the call id is no credential. *)
Theorem tool_calls_dispatcher_only (w w' : World H) kube dial env req ws q call_id conv up c :
  (dispatch_tool kube dial env req ws q w = (w', Ok call_id) →
     ∃ s, person_verified kube req s ∧ can_reach kube (ns w) s ws ∧
       dispatched_call call_id (w_gateway w') = Some (s, ws)) ∧
  (await_tool_result kube dial req ws call_id conv w = (w', Ok up) →
     ∃ s, person_verified kube req s ∧ can_reach kube (ns w) s ws ∧
       dispatched_call call_id (w_gateway w) = Some (s, ws) ∧
       sa_subject up.2 = s ∧ sa_workspace up.2 = ws) ∧
  (cancel_tool kube dial env req call_id w = (w', Ok c) →
     ∃ s ws', person_verified kube req s ∧ can_reach kube (ns w) s ws' ∧
       dispatched_call call_id (w_gateway w) = Some (s, ws')).
Proof.
  split_and!; intros E.
  - unfold dispatch_tool in E. apply hbind_Ok in E as (w1 & s & Ha & E). injection Ha as <- Ha.
    apply authorize_Ok in Ha as (_ & Hp & Hr). exists s.
    apply hbind_Ok in E as (w2 & [] & _ & E). apply hbind_Ok in E as (w3 & cid & _ & E).
    apply hbind_Ok in E as (w4 & [] & Hu & E). injection E as -> ->.
    injection Hu as <-. split_and!; [done..|]. apply lookup_insert_eq.
  - unfold await_tool_result in E. apply hbind_Ok in E as (w1 & s & Ha & E). injection Ha as <- Ha.
    apply authorize_Ok in Ha as (_ & Hp & Hr). exists s.
    apply hbind_Ok in E as (w2 & token & Ht & E). apply hlift_Ok in Ht as [-> _].
    apply hbind_Ok in E as (w3 & [] & Hn & E). unfold require_named in Hn.
    destruct (str_is_empty call_id); [done|]. injection Hn as <-.
    apply hbind_Ok in E as (w4 & cws & Hc & E). apply owned_call_Ok in Hc as [-> Hc].
    case_decide as Hws; [done|]. subst cws.
    apply hbind_Ok in E as (w5 & [] & _ & E). apply hbind_Ok in E as (w6 & ups & _ & E).
    apply hbind_Ok in E as (w7 & client & _ & E). apply hbind_Ok in E as (w8 & nsp & _ & E).
    injection E as _ <-. done.
  - unfold cancel_tool in E. apply hbind_Ok in E as (w1 & s & Ha & E). injection Ha as <- Ha.
    apply person_subject_Ok in Ha. apply hbind_Ok in E as (w3 & [] & Hn & E). unfold require_named in Hn.
    destruct (str_is_empty call_id); [done|]. injection Hn as <-.
    apply hbind_Ok in E as (w4 & cws & Hc & E). apply owned_call_Ok in Hc as [-> Hc].
    apply hbind_Ok in E as (w5 & [] & Hr & E). injection Hr as <- Hr%reach_Ok. eauto.
Qed.
End reach.
