(* ===== verification/HarnessService.v ===== *)
(** * The harness behind the relay

    Models [HarnessService] of [crates/harness/src/grpc_server.rs], the
    conversation registry and the tool router behind one RPC surface, and
    proves that it keeps what [HarnessControl] promises the relay, so the
    theorems of [Gateway] hold of the two together. The router enters through
    its four client operations. *)

From S2P Require Import Prelude Text Proto Codec Auth Identity Conversation Registry GatewayState Gateway.

(** ** The service *)

(** [dispatch_client_tool], [await_client_tool], [cancel_client_tool] and
    [tool_definitions] of a router with state [T]. *)
Record ToolOps (T : Type) : Type := mkToolOps {
  to_definitions : T → list ToolDefinition;
  to_dispatch : string → ToolRequest → handler T string string;
  to_await : string → string → T → result (list (result ToolResultFrame Status)) Status;
  to_cancel : string → T → T * bool }.
Arguments to_definitions {T} _ _.
Arguments to_dispatch {T} _ _ _.
Arguments to_await {T} _ _ _ _.
Arguments to_cancel {T} _ _ _.

(** What the environment contributes to a harness RPC. *)
Record HarnessEnv : Type := mkEnv {
  he_meta_io : MetaIo; he_id : string; he_now : Z; he_delete_io : DeleteIo;
  he_read_io : option string; he_call_id : string }.

Section service.
Context (uuid_parse : string → bool).
Context `{!LineCodec LogEntry} `{!LineCodec MetaFile}.
Context {T : Type} (ops : ToolOps T).

Definition Service : Type := Registry * T.

Definition on_registry {A} (f : handler Registry A Status) : handler Service A Status :=
  λ s, let '(r, res) := f s.1 in ((r, s.2), res).

Definition svc_watch_tools : handler Service (list (result (list ToolInfo) Status)) Status :=
  λ s, (s, Ok [Ok ((λ t, mkToolInfo (td_name t) (td_description t) (td_parameters_json t) "")
                    <$> to_definitions ops s.2)]).

Definition svc_dispatch_tool (env : HarnessEnv) (q : ToolRequest) : handler Service string Status :=
  λ s, if negb (str_is_empty (tq_conversation_id q)) && negb (owns (tq_conversation_id q) s.1)
       then (s, Err (not_found "conversation_id not found"))
       else let '(t, res) := to_dispatch ops (he_call_id env) q s.2 in
            ((s.1, t), map_err (λ e, internal ("dispatch_tool: " +:+ e)) res).

Definition svc_await_tool_result (call_id conversation_id : string)
  : handler Service (list (result ToolResultFrame Status)) Status :=
  λ s, if str_is_empty call_id
       then (s, Err (invalid_argument "AwaitToolResultRequest.call_id required"))
       else (s, to_await ops call_id conversation_id s.2).

Definition svc_cancel_tool (env : HarnessEnv) (call_id : string) : handler Service bool Status :=
  λ s, if str_is_empty call_id
       then (s, Err (invalid_argument "CancelToolRequest.call_id required"))
       else let '(t, cancelled) := to_cancel ops call_id s.2 in ((s.1, t), Ok cancelled).

(** What else happens to a service: the registry's other operations (loads,
    appends, turns, restarts; no mint), and anything in the router. *)
Definition svc_internal (s s' : Service) : Prop :=
  (∃ o, (∀ io id now owner, o ≠ RMint io id now owner) ∧ s'.1 = reg_exec uuid_parse o s.1) ∨
  s'.1 = s.1.

(** ** The interface's laws *)

Lemma owner_registered r id : owner_of id r = snd <$> registered r id.
Proof. unfold owner_of, registered. by destruct (rg_meta r !! id). Qed.

Lemma owner_unchanged r r' : unchanged r r' → ∀ j, owner_of j r' = owner_of j r.
Proof. intros [_ Hr] j. by rewrite !owner_registered, Hr. Qed.

Lemma owns_owner id r : owns id r = true → is_Some (owner_of id r).
Proof. intros [m Hm]%owns_Some. unfold owner_of. rewrite Hm. eauto. Qed.

Lemma owners_ok_op m o r :
  (∀ io id now owner, o ≠ RMint io id now owner) → owners_ok m r → owners_ok m (reg_exec uuid_parse o r).
Proof.
  intros Hn Hok. pose proof (owners_ok_step uuid_parse m o r Hok) as Hs.
  destruct o; try exact (Hs I). by destruct (Hn io id now owner).
Qed.

Lemma mint_law m io id now owner r r' res :
  owners_ok m r → rpc_mint_conversation io id now owner r = (r', res) →
  owners_ok (match res with Ok i => <[i := owner]> m | Err _ => m end) r'.
Proof using LineCodec0 LineCodec1 uuid_parse.
  intros Hok E. pose proof (mint_effect uuid_parse io id now owner r) as He. unfold reg_exec in He.
  rewrite E in He. unfold rpc_mint_conversation, mint in E.
  destruct io; simpl in E; injection E as <- <-; simpl in *;
    [by eapply both_set_ok|by eapply owners_ok_unchanged..].
Qed.

Lemma delete_law m io id r r' res :
  owners_ok m r → rpc_delete_conversation io id r = (r', res) → owners_ok m r' ∧
  match res with
  | Ok _ => is_Some (owner_of id r) ∧ owner_of id r' = None ∧ ∀ j, j ≠ id → owner_of j r' = owner_of j r
  | Err _ => ∀ j, owner_of j r' = owner_of j r
  end.
Proof using LineCodec0 LineCodec1 uuid_parse.
  intros Hok E. split.
  { replace r' with (reg_exec uuid_parse (RDelete io id) r) by (simpl; by rewrite E).
    by apply owners_ok_op. }
  unfold rpc_delete_conversation in E. rewrite require_id_bind in E.
  destruct (str_is_empty id); [by injection E as <- <-|]. rewrite require_owned_bind in E.
  destruct (owns id r) eqn:Ho; [|by injection E as <- <-].
  destruct io; simpl in E; injection E as <- <-; [|done].
  split_and!; [by apply owns_owner|by unfold owner_of; simpl; rewrite lookup_delete_eq|].
  intros j Hj. unfold owner_of. simpl. by rewrite lookup_delete_ne.
Qed.

Lemma cancel_law m id r r' res :
  owners_ok m r → rpc_cancel_turn id r = (r', res) → owners_ok m r' ∧
  (∀ j, owner_of j r' = owner_of j r) ∧ ∀ c, res = Ok c → is_Some (owner_of id r).
Proof.
  intros Hok E. pose proof (cancel_unchanged id r) as Hu. rewrite E in Hu.
  split_and!; [by eapply owners_ok_unchanged|by apply owner_unchanged|].
  unfold rpc_cancel_turn in E. rewrite require_id_bind in E.
  destruct (str_is_empty id); [by injection E as <- <-|]. rewrite require_owned_bind in E.
  destruct (owns id r) eqn:Ho; [|by injection E as <- <-]. intros. by apply owns_owner.
Qed.

Lemma set_name_law m io id name r r' res :
  owners_ok m r → rpc_set_conversation_name uuid_parse io id name r = (r', res) → owners_ok m r' ∧
  (∀ j, owner_of j r' = owner_of j r) ∧ (res = Ok tt → is_Some (owner_of id r)).
Proof using LineCodec0 LineCodec1 uuid_parse.
  intros Hok E. pose proof (set_name_effect uuid_parse io id name r) as Hu.
  assert (r' = reg_exec uuid_parse (RSetName io id name) r) as Hr by (simpl; by rewrite E).
  rewrite <- Hr in Hu. split_and!.
  - rewrite Hr. by apply owners_ok_op.
  - destruct Hu as [Hu|(old & owner & Ho & _ & Hu)]; [by apply owner_unchanged|].
    intros j. rewrite !owner_registered, Hu. unfold upd. case_decide; subst; [by rewrite Ho|done].
  - unfold rpc_set_conversation_name in E. rewrite require_id_bind in E.
    destruct (str_is_empty id); [by injection E as <- <-|]. unfold hbind at 1 in E.
    destruct (_ <? _); [by injection E as <- <-|]. unfold hret at 1 in E. rewrite require_owned_bind in E.
    destruct (owns id r) eqn:Ho; [|by injection E as <- <-]. intros. by apply owns_owner.
Qed.

Lemma history_law m io id o limit r r' res :
  owners_ok m r → rpc_get_conversation_history uuid_parse io id o limit r = (r', res) → owners_ok m r' ∧
  (∀ j, owner_of j r' = owner_of j r) ∧ ∀ x, res = Ok x → owner_of id r = Some o.
Proof.
  intros Hok E. pose proof (history_unchanged uuid_parse io id o limit r) as Hu. rewrite E in Hu.
  split_and!; [by eapply owners_ok_unchanged|by apply owner_unchanged|].
  unfold rpc_get_conversation_history in E. rewrite require_id_bind in E.
  destruct (str_is_empty id); [by injection E as <- <-|]. unfold hbind at 1, hget in E.
  destruct (owned_by id o r) eqn:Ho; [|by injection E as <- <-]. intros x _.
  unfold owned_by in Ho. unfold owner_of. destruct (rg_meta r !! id); [|done]. simpl.
  by apply bool_decide_eq_true in Ho as ->.
Qed.

Lemma list_law o r id :
  id ∈ su_conversation_id <$> ((λ '(id, ts, name), mkSummary id ts name o) <$> list_summaries o r)
  ↔ owner_of id r = Some o.
Proof.
  unfold list_summaries. rewrite <- !list_fmap_compose, list_elem_of_fmap. unfold owner_of. split.
  - intros ([i m] & -> & [Ho Hin]%list_elem_of_filter). simpl in *.
    apply elem_of_map_to_list in Hin as ->. simpl. by rewrite Ho.
  - intros (m & Hm & ->)%fmap_Some. exists (id, m). split; [done|].
    apply list_elem_of_filter. split; [done|]. by apply elem_of_map_to_list.
Qed.

#[export] Program Instance service_control : HarnessControl Service := {|
  hc_env := HarnessEnv;
  hc_mint e o := on_registry (rpc_mint_conversation (he_meta_io e) (he_id e) (he_now e) o);
  hc_list o := on_registry (rpc_list_conversations o);
  hc_delete e id := on_registry (rpc_delete_conversation (he_delete_io e) id);
  hc_cancel_turn id := on_registry (rpc_cancel_turn id);
  hc_set_name e id name := on_registry (rpc_set_conversation_name uuid_parse (he_meta_io e) id name);
  hc_history e id o limit := on_registry (rpc_get_conversation_history uuid_parse (he_read_io e) id o limit);
  hc_watch_tools := svc_watch_tools;
  hc_dispatch_tool := svc_dispatch_tool;
  hc_await_tool := svc_await_tool_result;
  hc_cancel_tool := svc_cancel_tool;
  hc_internal := svc_internal;
  hc_owner s id := owner_of id s.1;
  hc_inv m s := owners_ok m s.1 |}.
Next Obligation.
  intros m [r t] id o [Hr _] Ho. simpl in *. rewrite owner_registered in Ho.
  apply fmap_Some in Ho as ([n o'] & Hp & ->). by apply (Hr id (n, o')).
Qed.
Next Obligation.
  intros m m' [r t] Hm [Hr Hs]. split; intros j p Hp; eapply lookup_weaken; eauto.
Qed.
Next Obligation.
  intros m [r t] [r' t'] Hok [(o & Hn & Hr)|Hr]; simpl in *; subst; [by apply owners_ok_op|done].
Qed.
Next Obligation.
  intros m e o [r t] h' res Hok. unfold on_registry. simpl in *.
  destruct (rpc_mint_conversation _ _ _ _ _) as [r' res'] eqn:E. intros [= <- <-].
  by eapply mint_law.
Qed.
Next Obligation.
  intros o [r t] h' res [= <- <-]. split; [done|]. intros l [= <-] id. apply list_law.
Qed.
Next Obligation.
  intros m e id [r t] h' res Hok. unfold on_registry. simpl in *.
  destruct (rpc_delete_conversation _ _ _) as [r' res'] eqn:E. intros [= <- <-].
  by eapply delete_law.
Qed.
Next Obligation.
  intros m id [r t] h' res Hok. unfold on_registry. simpl in *.
  destruct (rpc_cancel_turn _ _) as [r' res'] eqn:E. intros [= <- <-]. by eapply cancel_law.
Qed.
Next Obligation.
  intros m e id name [r t] h' res Hok. unfold on_registry. simpl in *.
  destruct (rpc_set_conversation_name _ _ _ _ _) as [r' res'] eqn:E. intros [= <- <-].
  by eapply set_name_law.
Qed.
Next Obligation.
  intros m e id o limit [r t] h' res Hok. unfold on_registry. simpl in *.
  destruct (rpc_get_conversation_history _ _ _ _ _ _) as [r' res'] eqn:E. intros [= <- <-].
  by eapply history_law.
Qed.
Next Obligation.
  intros m [r t] h' Hok [(? & E)|[(e & q & res & E)|[(c & i & res & E)|(e & c & res & E)]]]; simpl in *.
  - by injection E as <- <-.
  - unfold svc_dispatch_tool in E. simpl in E. case_match; [by injection E as <- <-|].
    destruct (to_dispatch ops _ _ _). by injection E as <- <-.
  - unfold svc_await_tool_result in E. case_match; by injection E as <- <-.
  - unfold svc_cancel_tool in E. simpl in E. case_match; [by injection E as <- <-|].
    destruct (to_cancel ops _ _). by injection E as <- <-.
Qed.
End service.

(** ** Witnesses of the gateway's theorems *)

(** An apiserver that takes a token for its user's name, and lets alice and
    bob reach every workspace. *)
Definition sample_kube : KubeApi :=
  mkKubeApi
    (λ tr, Ok (mkTokenReview (tr_token tr) (tr_audiences tr)
                 (Some (mkTokenReviewStatus (Some true) (tr_audiences tr) (Some (tr_token tr))))))
    (λ sar, Ok (Some (bool_decide (sar_user sar = "alice" ∨ sar_user sar = "bob")))).

Definition sample_req (who : string) : Req := mkReq (Some PersonToken) (Some (Some ("Bearer " +:+ who))).
Definition no_dial (_ : string) : option string := None.

(** A router that knows the calls it dispatched. *)
Definition sample_tools : ToolOps (gset string) :=
  mkToolOps _ (λ _, []) (λ id _ t, ({[id]} ∪ t, Ok id))
    (λ id _ t, if decide (id ∈ t) then Ok [Ok (mkFrame (Some (Complete 1 0)))]
               else Err (not_found "unknown call_id"))
    (λ id t, (t, bool_decide (id ∈ t))).

Definition SampleService : Type := Service (T := gset string).
#[export] Instance sample_control : HarnessControl (SampleService) :=
  service_control sample_uuid sample_tools.

Definition sample_env (id : string) : hc_env (HarnessControl := sample_control) := mkEnv MetaDone id 7 DeleteDone None "call-1".

Definition world0 : World (SampleService) :=
  mkWorld (gateway_new "ns" ("", "", "")) {["home" := (registry_new ∅, ∅)]}.

(** Alice mints a conversation, and opens a stream. *)
Definition world1 : World (SampleService) :=
  rpc_exec (Some sample_kube) no_dial (sample_req "alice") (RpcMint (sample_env "conv-1") "home") world0.
Definition world2 : World (SampleService) :=
  rpc_exec (Some sample_kube) no_dial (sample_req "alice") (RpcReceive "stream-1" "home" "") world1.

Lemma sample_mint_id id o (h h' : SampleService) i :
  hc_mint (sample_env id) o h = (h', Ok i) → i = id.
Proof. destruct h as [r t]. vm_compute. by intros [= _ <-]. Qed.

Lemma world1_reached : gw_reach {["conv-1"]} world1.
Proof.
  apply (gw_rpc ∅).
  - apply gw_init. intros ws h Hl. destruct (decide (ws = "home")) as [->|Hne].
    + rewrite lookup_singleton_eq in Hl. injection Hl as <-. apply owners_ok_new.
    + by rewrite lookup_singleton_ne in Hl.
  - set_solver.
  - intros env [[ws [= <- _]]|(? & ? & [=])] o h h' id Hm. apply sample_mint_id in Hm as ->.
    set_solver.
Qed.

Lemma world2_reached : gw_reach {["conv-1"]} world2.
Proof.
  eapply gw_rpc; [apply world1_reached|done|]. intros env [[ws [=]]|(? & ? & [=])].
Qed.

(** Alice deletes her conversation; the theorem names her as its owner. *)
Lemma conversation_writes_owner_only_witness :
  ∃ s h, owns_conversation (Some sample_kube) (sample_req "alice") world1 "home" "conv-1" s h.
Proof.
  destruct (delete_conversation (H := SampleService) (Some sample_kube) no_dial (sample_env "") (sample_req "alice") "home"
              "conv-1" world1) as [w' r] eqn:E.
  assert (r = Ok tt) as Hr. { apply (f_equal snd) in E. change (snd (w', r)) with r in E. rewrite <- E. vm_compute. reflexivity. }
  rewrite Hr in E.
  destruct (conversation_writes_owner_only (H := SampleService) {["conv-1"]} world1 w' (Some sample_kube) no_dial
              (sample_env "") (sample_req "alice") "home" "conv-1" "" true world1_reached) as [Hd _].
  destruct (Hd E) as (s & h & h' & Ho & _). exists s, h. exact Ho.
Defined.

Definition sample_ingest : IngestRequest :=
  mkIngest "stream-1" "conv-1" ["ask"] (Some (text_content "hi", "alice", [])) None.

Lemma ingest_admits_opener_only_witness :
  ∃ e, gs_streams (w_gateway world2) !! "stream-1" = Some e ∧
    opener_verified (Some sample_kube) (sample_req "alice") world2 e.
Proof.
  destruct (channel_stream_ingest (H := SampleService) (Some sample_kube) no_dial (sample_env "") true (sample_req "alice")
              sample_ingest world2) as [w' r] eqn:E.
  assert (r = Ok ("stream-1", "conv-1")) as Hr.
  { apply (f_equal snd) in E. change (snd (w', r)) with r in E. rewrite <- E. vm_compute. reflexivity. }
  rewrite Hr in E.
  destruct (ingest_admits_opener_only (H := SampleService) {["conv-1"]} world2 w' (Some sample_kube) no_dial (sample_env "")
              true (sample_req "alice") sample_ingest ("stream-1", "conv-1") world2_reached E)
    as (e & He & Ho & _).
  exists e. split; [exact He|exact Ho].
Defined.

(** Bob, in the same workspace, is refused alice's conversation, from the cache
    and after a restart of the relay from the harness. *)
Example bob_is_refused :
  (delete_conversation (H := SampleService) (Some sample_kube) no_dial (sample_env "") (sample_req "bob") "home" "conv-1" world1).2
  = Err denied_conversation ∧
  (delete_conversation (H := SampleService) (Some sample_kube) no_dial (sample_env "") (sample_req "bob") "home" "conv-1"
     (mkWorld (gateway_new "ns" ("", "", "")) (w_harness world1))).2 = Err denied_conversation.
Proof. split; vm_compute; reflexivity. Qed.

(** Alice dispatches a tool call and reads its result; Bob cannot. *)
Definition world3 : World (SampleService) :=
  rpc_exec (Some sample_kube) no_dial (sample_req "alice")
    (RpcDispatchTool (sample_env "") "home" (mkToolRequest "read" "{}" "")) world1.

Lemma tool_calls_dispatcher_only_witness :
  ∃ s, dispatched_call "call-1" (w_gateway world3) = Some (s, "home") ∧
       (await_tool_result (H := SampleService) (Some sample_kube) no_dial (sample_req "bob") "home" "call-1" "" world3).2
       = Err denied_call.
Proof.
  destruct (await_tool_result (H := SampleService) (Some sample_kube) no_dial (sample_req "alice") "home" "call-1" "" world3)
    as [w' [up|e]] eqn:E; [|exfalso; apply (f_equal snd) in E; vm_compute in E; discriminate E].
  destruct (tool_calls_dispatcher_only (H := SampleService) world3 w' (Some sample_kube) no_dial (sample_env "")
              (sample_req "alice") "home" (mkToolRequest "" "" "") "call-1" "" up true) as (_ & Ha & _).
  destruct (Ha E) as (s & _ & _ & Hd & _). exists s. split; [exact Hd|vm_compute; reflexivity].
Defined.
