(* ===== verification/Internal.v ===== *)
(** * The in-cluster surface

    Models [crates/relay-controller/src/internal.rs]: what a harness, known by
    its ServiceAccount token, can have the relay do: subscribe to its
    workspace's messages, push replies, turn states and stream items to the
    workspace's channel streams, and ask its clients. The verifier answers for
    a token with the workspace it belongs to ([K8sTokenVerifier]). *)

From S2P Require Import Prelude Text Proto Auth Identity GatewayState.

Definition DEFAULT_AWAIT_SECS : N := 30.
Definition MAX_AWAIT_SECS : N := 300.

Definition clamp_await_secs (requested : N) : N :=
  if (requested =? 0)%N then DEFAULT_AWAIT_SECS else N.min requested MAX_AWAIT_SECS.

Record DeliverTurnStateRequest : Type := mkDeliverTurnState {
  dt_turn_state : option TurnStateEvent; dt_subject : string; dt_channel_stream_id : string }.

Record AwaitResponse : Type := mkAwaitResponse {
  aw_result_json : string; aw_error : option ClientResponseError; aw_timed_out : bool;
  aw_unknown_channel_stream : bool; aw_unsupported_method : bool }.

Section internal.
(** [None]: no kube client is configured. *)
Context (verifier : option (string → result string Status)).

Definition verify_caller (authorization : option (option string)) : result string Status :=
  let? verify := ok_or verifier (failed_precondition "no token verifier configured: caller identity cannot be established") in
  let? token := extract_bearer_token authorization in
  verify token.

Definition subscribe (authorization : option (option string)) : handler GatewayState unit Status :=
  do? workspace <- verify_caller authorization;
  hmodify (subscribe_or_create workspace).

Definition internal_send_server_notification (authorization : option (option string))
    (method params_json : string) : handler GatewayState bool Status :=
  do? workspace <- verify_caller authorization;
  if str_is_empty method then herr (invalid_argument "method required") else
  λ g, let '(g, r) := send_server_notification workspace method params_json g in (g, Ok (is_ok r)).

(** What the RPC answers for each way the wait can end. *)
Definition await_response (r : result ServerRequestOutcome ServerRequestError) : AwaitResponse :=
  match r with
  | Ok (OutResult result_json) => mkAwaitResponse result_json None false false false
  | Ok (OutError e) => mkAwaitResponse "" (Some e) false false false
  | Err UnsupportedMethod => mkAwaitResponse "" None false false true
  | Err Timeout => mkAwaitResponse "" None true false false
  | Err _ => mkAwaitResponse "" None false true false
  end.

(** Up to the wait: an answer at once, or the oneshot waited on and for how
    long. *)
Definition internal_send_server_request (authorization : option (option string))
    (request_id method params_json : string) (timeout_seconds : N)
  : handler GatewayState (AwaitResponse + (string * string * nat * N)) Status :=
  do? workspace <- verify_caller authorization;
  if str_is_empty request_id
  then herr (invalid_argument "request_id required (notifications use SendServerNotification)")
  else if str_is_empty method then herr (invalid_argument "method required") else
  λ g, match send_server_request workspace request_id method params_json g with
       | (g, Ok slot) => (g, Ok (inr (workspace, request_id, slot, clamp_await_secs timeout_seconds)))
       | (g, Err e) => (g, Ok (inl (await_response (Err e))))
       end.

Definition deliver_reply (authorization : option (option string)) (content : list ContentBlock)
    (conversation_id : string) : handler GatewayState bool Status :=
  do? workspace <- verify_caller authorization;
  λ g, let '(g, delivered) :=
         send_to_workspace workspace (mkOutbound (Some (CmdSendMessage content conversation_id))) g in
       (g, Ok (0 <? delivered)).

Definition turn_state_subject (workspace : string) (req : DeliverTurnStateRequest) (g : GatewayState)
  : string :=
  if str_is_empty (dt_subject req) then
    match channel_stream_binding (dt_channel_stream_id req) g with
    | Some (_, subject, bound) => if decide (bound = workspace) then subject else ""
    | None => ""
    end
  else dt_subject req.

Definition deliver_turn_state (authorization : option (option string)) (req : DeliverTurnStateRequest)
  : handler GatewayState bool Status :=
  do? workspace <- verify_caller authorization;
  match dt_turn_state req with
  | None => herr (invalid_argument "turn_state required")
  | Some ts =>
      λ g, let subject := turn_state_subject workspace req g in
           let state := default TsUnspecified (turn_state_try_from (tse_state ts)) in
           let g :=
             if decide (state = TsFailed)
             then record_turn_state subject (tse_conversation_id ts)
                    (mkTurnStateRecord state (tse_reason ts) (tse_code ts)) g
             else if negb (str_is_empty subject)
             then record_turn_state subject (tse_conversation_id ts) (mkTurnStateRecord state "" "") g
             else g in
           let '(g, delivered) :=
             send_to_workspace workspace
               (turn_state_frame (tse_state ts) (tse_conversation_id ts) (tse_reason ts) (tse_code ts)) g in
           (g, Ok (0 <? delivered))
  end.

Definition deliver_stream_item (authorization : option (option string)) (item : option StreamItem)
  : handler GatewayState bool Status :=
  do? workspace <- verify_caller authorization;
  match item with
  | None => herr (invalid_argument "item required")
  | Some item =>
      λ g, let '(g, delivered) := send_to_workspace workspace (mkOutbound (Some (CmdStreamItem item))) g in
           (g, Ok (0 <? delivered))
  end.
End internal.

(** ** Fan-out *)

Lemma fan_out_lookup workspace p msg g id :
  gs_streams (fan_out workspace p msg g) !! id
  = (λ e, if in_workspace workspace e && p e then enqueue msg e else e) <$> gs_streams g !! id.
Proof. apply lookup_fmap. Qed.

Lemma in_workspace_spec workspace e : in_workspace workspace e = true ↔ cs_workspace e = workspace.
Proof. apply bool_decide_eq_true. Qed.

Lemma workspace_streams_elem workspace g e :
  e ∈ workspace_streams workspace g ↔ ∃ id, gs_streams g !! id = Some e ∧ cs_workspace e = workspace.
Proof.
  unfold workspace_streams. rewrite list_elem_of_fmap. split.
  - intros ([id e'] & -> & [Hw Hin]%list_elem_of_filter). apply in_workspace_spec in Hw.
    apply elem_of_map_to_list in Hin. simpl. eauto.
  - intros (id & Hl & Hw). exists (id, e). split; [done|]. apply list_elem_of_filter.
    split; [by apply in_workspace_spec|]. by apply elem_of_map_to_list.
Qed.

(** What the streams of other workspaces see of a request: nothing. *)
Definition isolated (workspace : string) (g g' : GatewayState) : Prop :=
  ∀ id e, gs_streams g !! id = Some e → cs_workspace e ≠ workspace → gs_streams g' !! id = Some e.

Lemma fan_out_isolated workspace p msg g : isolated workspace g (fan_out workspace p msg g).
Proof.
  intros id e He Hw. rewrite fan_out_lookup, He. simpl.
  unfold in_workspace. by rewrite bool_decide_eq_false_2.
Qed.

Lemma record_turn_state_streams subject id rec g :
  gs_streams (record_turn_state subject id rec g) = gs_streams g.
Proof. unfold record_turn_state. by destruct (str_is_empty id). Qed.

(** C16. The workspace boundary of the harness link: whatever a harness sends
    (replies, turn states, stream items, notifications, requests), accepted or
    not, no stream of a workspace other than the one its token belongs to
    changes in any way. *)
Theorem harness_confined_to_its_workspace verify auth workspace g :
  verify_caller (Some verify) auth = Ok workspace →
  (∀ content conv, isolated workspace g (deliver_reply (Some verify) auth content conv g).1) ∧
  (∀ req, isolated workspace g (deliver_turn_state (Some verify) auth req g).1) ∧
  (∀ item, isolated workspace g (deliver_stream_item (Some verify) auth item g).1) ∧
  (∀ method params,
     isolated workspace g (internal_send_server_notification (Some verify) auth method params g).1) ∧
  (∀ rid method params t,
     isolated workspace g (internal_send_server_request (Some verify) auth rid method params t g).1).
Proof.
  intros Hv. split_and!.
  - intros content conv. unfold deliver_reply, hbind, hlift. rewrite Hv. apply fan_out_isolated.
  - intros req. unfold deliver_turn_state, hbind, hlift. rewrite Hv.
    destruct (dt_turn_state req) as [ts|]; [|by intros ???]. simpl. intros id e He Hw.
    apply fan_out_isolated; [|done]. repeat case_match; by rewrite ?record_turn_state_streams.
  - intros [item|]; unfold deliver_stream_item, hbind, hlift; rewrite Hv; [|by intros ???].
    apply fan_out_isolated.
  - intros method params. unfold internal_send_server_notification, hbind, hlift. rewrite Hv.
    destruct (str_is_empty method); [by intros ???|]. unfold send_server_notification.
    destruct (workspace_streams workspace g); [by intros ???|].
    destruct (existsb _ _); apply fan_out_isolated.
  - intros rid method params t. unfold internal_send_server_request, hbind, hlift. rewrite Hv.
    destruct (str_is_empty rid); [by intros ???|]. destruct (str_is_empty method); [by intros ???|].
    unfold send_server_request. destruct (workspace_streams workspace g); [by intros ???|].
    destruct (negb _); [by intros ???|]. destruct (existsb _ _);
      exact (fan_out_isolated workspace (λ _, true) (server_request_frame rid method params) g).
Qed.

Lemma send_to_workspace_reaches workspace msg g id e :
  gs_streams g !! id = Some e → cs_workspace e = workspace → cs_alive e = true →
  let '(g', n) := send_to_workspace workspace msg g in
  (0 <? n) = true ∧
  (λ e', (cs_subject e', cs_queue e')) <$> gs_streams g' !! id
  = Some (cs_subject e, cs_queue e ++ [msg]).
Proof.
  intros He Hw Ha. unfold send_to_workspace. split.
  - apply Nat.ltb_lt. destruct (filter _ _) eqn:Ef; [|simpl; lia].
    apply (f_equal (λ l, e ∈ l)) in Ef. exfalso. apply (not_elem_of_nil e). rewrite <- Ef.
    apply list_elem_of_filter. split; [done|]. apply workspace_streams_elem. eauto.
  - rewrite fan_out_lookup, He. simpl.
    assert (in_workspace workspace e = true) as -> by by apply in_workspace_spec.
    unfold enqueue. simpl. by rewrite Ha.
Qed.

(** Inside a workspace there is no boundary: a reply of one subject's
    conversation is queued on every live stream of the workspace, whichever
    subject opened it. *)
Theorem reply_reaches_every_subject verify auth workspace content conv g id e :
  verify_caller (Some verify) auth = Ok workspace →
  gs_streams g !! id = Some e → cs_workspace e = workspace → cs_alive e = true →
  let '(g', r) := deliver_reply (Some verify) auth content conv g in
  r = Ok true ∧
  (λ e', (cs_subject e', cs_queue e')) <$> gs_streams g' !! id
  = Some (cs_subject e, cs_queue e ++ [mkOutbound (Some (CmdSendMessage content conv))]).
Proof.
  intros Hv He Hw Ha. unfold deliver_reply, hbind, hlift. rewrite Hv. cbv beta iota zeta.
  pose proof (send_to_workspace_reaches workspace (mkOutbound (Some (CmdSendMessage content conv)))
                g id e He Hw Ha) as H.
  destruct (send_to_workspace _ _ g) as [g' n]. destruct H as [-> Hq]. done.
Qed.

(** A turn state the harness delivers reaches every live stream of the
    workspace with its state, conversation, reason and code, and without the
    agent identity it came with: the name and the system prompt hash of the
    frame sent on are empty, whatever the harness put there. *)
Theorem turn_state_loses_identity verify auth workspace req ts g id e :
  verify_caller (Some verify) auth = Ok workspace → dt_turn_state req = Some ts →
  gs_streams g !! id = Some e → cs_workspace e = workspace → cs_alive e = true →
  let '(g', r) := deliver_turn_state (Some verify) auth req g in
  r = Ok true ∧
  cs_queue <$> gs_streams g' !! id
  = Some (cs_queue e ++
          [mkOutbound (Some (CmdTurnState
             (mkTurnStateEvent (tse_state ts) (tse_conversation_id ts) (tse_reason ts) (tse_code ts) "" "")))]).
Proof.
  intros Hv Ht He Hw Ha. unfold deliver_turn_state, hbind, hlift. rewrite Hv, Ht. cbv beta iota zeta.
  set (g1 := if decide _ then _ else _).
  assert (gs_streams g1 !! id = Some e) as He1
    by (subst g1; repeat case_match; by rewrite ?record_turn_state_streams).
  pose proof (send_to_workspace_reaches workspace
    (turn_state_frame (tse_state ts) (tse_conversation_id ts) (tse_reason ts) (tse_code ts))
    g1 id e He1 Hw Ha) as H.
  destruct (send_to_workspace _ _ g1) as [g' n]. destruct H as [-> Hq]. split; [done|].
  destruct (gs_streams g' !! id); simplify_eq/=. by f_equal.
Qed.

(** ** Server requests and their answers *)

(** What happens to the pending requests: a harness asks, a client answers, a
    wait ends, streams come and go. *)
Inductive SrOp : Type :=
| SrSend (workspace request_id method params_json : string)
| SrDeliver (awaited : bool) (workspace request_id : string) (outcome : ServerRequestOutcome)
| SrAwait (workspace request_id : string) (slot : nat) (timed_out : bool)
| SrStreams (f : gmap string ChannelStreamEntry → gmap string ChannelStreamEntry).

(** The state, and which request each oneshot waits for. *)
Definition sr_step (s : GatewayState * gmap nat (string * string)) (o : SrOp)
  : GatewayState * gmap nat (string * string) :=
  let '(g, asked) := s in
  match o with
  | SrSend ws rid method params =>
      match send_server_request ws rid method params g with
      | (g, Ok slot) => (g, <[slot := (ws, rid)]> asked)
      | (g, Err _) => (g, asked)
      end
  | SrDeliver awaited ws rid outcome => ((deliver_client_response awaited ws rid outcome g).1, asked)
  | SrAwait ws rid slot timed_out => ((await_server_request ws rid slot timed_out g).1, asked)
  | SrStreams f => (set_streams f g, asked)
  end.

Definition sr_run (ops : list SrOp) (g : GatewayState) : GatewayState * gmap nat (string * string) :=
  foldl sr_step (g, ∅) ops.

Definition no_requests (g : GatewayState) : Prop := gs_pending g = ∅ ∧ gs_outcomes g = ∅.

(** Each pending slot waits for its key; each outcome was sent for its key. *)
Definition sr_inv (ops : list SrOp) (s : GatewayState * gmap nat (string * string)) : Prop :=
  (∀ slot k, s.2 !! slot = Some k → slot < gs_next_oneshot s.1) ∧
  (∀ k slot, gs_pending s.1 !! k = Some slot → s.2 !! slot = Some k) ∧
  (∀ slot out, gs_outcomes s.1 !! slot = Some out →
     ∃ ws rid, s.2 !! slot = Some (ws, rid) ∧ SrDeliver true ws rid out ∈ ops).

Lemma sr_inv_weaken ops o s : sr_inv ops s → sr_inv (ops ++ [o]) s.
Proof.
  intros (H1 & H2 & H3). split_and!; [done..|]. intros slot out Ho.
  destruct (H3 slot out Ho) as (ws & rid & Hk & Hin). exists ws, rid. set_solver.
Qed.

(** Dropping pending entries keeps the invariant. *)
Lemma sr_inv_shrink ops g asked pending :
  pending ⊆ gs_pending g → sr_inv ops (g, asked) →
  sr_inv ops (set_pending pending (gs_outcomes g) (gs_next_oneshot g) g, asked).
Proof.
  intros Hp (H1 & H2 & H3). split_and!; [done| |done]. intros k slot Hk. simpl in *.
  apply H2. by eapply lookup_weaken.
Qed.

Lemma sr_inv_send ops ws rid method params g asked :
  sr_inv ops (g, asked) → sr_inv ops (sr_step (g, asked) (SrSend ws rid method params)).
Proof.
  intros Hi. simpl. unfold send_server_request.
  destruct (workspace_streams ws g) as [|e l]; [done|]. destruct (negb _); [done|].
  destruct Hi as (H1 & H2 & H3). destruct (existsb cs_alive (e :: l)).
  - split_and!; simpl in *.
    + intros slot k. destruct (decide (slot = gs_next_oneshot g)) as [->|]; [lia|].
      rewrite lookup_insert_ne by done. intros Hk. apply H1 in Hk. lia.
    + intros k slot. destruct (decide (k = (ws, rid))) as [->|].
      * rewrite lookup_insert_eq. intros [= <-]. by rewrite lookup_insert_eq.
      * rewrite lookup_insert_ne by done. intros Hk. apply H2 in Hk.
        rewrite lookup_insert_ne; [done|]. apply H1 in Hk. lia.
    + intros slot out Ho. destruct (H3 slot out Ho) as (ws' & rid' & Hk & Hin).
      exists ws', rid'. split; [|done]. rewrite lookup_insert_ne; [done|]. apply H1 in Hk. lia.
  - split_and!; simpl in *.
    + intros slot k Hk. apply H1 in Hk. lia.
    + intros k slot. rewrite delete_insert_eq. intros Hk%lookup_delete_Some. apply H2. apply Hk.
    + done.
Qed.

Lemma sr_inv_step ops o s : sr_inv ops s → sr_inv (ops ++ [o]) (sr_step s o).
Proof.
  destruct s as [g asked]. intros Hi. apply (sr_inv_weaken _ o) in Hi.
  destruct o as [ws rid method params|awaited ws rid out|ws rid slot timed_out|f].
  - by apply sr_inv_send.
  - simpl. unfold deliver_client_response.
    destruct (gs_pending g !! (ws, rid)) as [slot|] eqn:E; [|done]. simpl.
    destruct awaited; [|apply sr_inv_shrink; [apply delete_subseteq|done]].
    destruct Hi as (H1 & H2 & H3). split_and!; simpl in *; [done| |].
    + intros k slot' [_ Hk]%lookup_delete_Some. by apply H2.
    + intros slot' out'. destruct (decide (slot' = slot)) as [->|].
      * rewrite lookup_insert_eq. intros [= <-]. exists ws, rid. split; [by apply H2|set_solver].
      * rewrite lookup_insert_ne by done. apply H3.
  - simpl. unfold await_server_request. repeat case_match; try done.
    apply sr_inv_shrink; [apply delete_subseteq|done].
  - done.
Qed.

Lemma sr_run_inv ops g : no_requests g → sr_inv ops (sr_run ops g).
Proof.
  intros [Hp Ho]. unfold sr_run. induction ops as [|o ops IH] using rev_ind.
  - split_and!; simpl; [done|by rewrite Hp|by rewrite Ho].
  - rewrite foldl_app. by apply sr_inv_step.
Qed.

(** Answers stay with their question: whatever the interleaving of
    requests, re-used request ids, answers, timeouts and streams, the outcome
    a waiting harness receives was sent by an ingest for the very workspace and
    request id it asked under; an answer from another workspace, or for another
    request, never resolves it. *)
Theorem client_response_answers_own_request (ops : list SrOp) (g : GatewayState) slot out :
  no_requests g →
  gs_outcomes (sr_run ops g).1 !! slot = Some out →
  ∃ ws rid, (sr_run ops g).2 !! slot = Some (ws, rid) ∧ SrDeliver true ws rid out ∈ ops.
Proof. intros Hg Ho. by apply (sr_run_inv ops g Hg). Qed.

(** ** Witnesses *)

Definition sample_verify (token : string) : result string Status := Ok token.
Definition sample_auth : option (option string) := Some (Some "Bearer home").
Definition sample_streams : GatewayState :=
  update_supported_methods "s-bob" ["ask"]
    (mint_channel_stream "s-bob" OpenerPerson "bob" "home"
       (mint_channel_stream "s-eve" OpenerPerson "eve" "office" (gateway_new "ns" ("", "", "")))).

Lemma harness_confined_witness :
  (deliver_reply (Some sample_verify) sample_auth (text_content "hi") "alice-conv" sample_streams).2 = Ok true ∧
  isolated "home" sample_streams
    (deliver_reply (Some sample_verify) sample_auth (text_content "hi") "alice-conv" sample_streams).1.
Proof.
  split; [vm_compute; reflexivity|].
  apply (harness_confined_to_its_workspace sample_verify sample_auth "home" sample_streams). done.
Defined.

(** A reply of alice's conversation lands on bob's stream. *)
Lemma reply_reaches_every_subject_witness :
  let '(g', r) :=
    deliver_reply (Some sample_verify) sample_auth (text_content "secret") "alice-conv" sample_streams in
  r = Ok true ∧
  (λ e', (cs_subject e', cs_queue e')) <$> gs_streams g' !! "s-bob"
  = Some ("bob", [mkOutbound (Some (CmdSendMessage (text_content "secret") "alice-conv"))]).
Proof.
  apply (reply_reaches_every_subject sample_verify sample_auth "home" (text_content "secret") "alice-conv"
           sample_streams "s-bob"
           (mkStream OpenerPerson "bob" "home" true [] TsIdle {["ask"]} false));
    vm_compute; reflexivity.
Defined.

Definition sample_turn_start : TurnStateEvent :=
  mkTurnStateEvent (turn_state_i32 TsWorking) "alice-conv" "" "" "orchestrator" "5e88".

Lemma turn_state_loses_identity_witness :
  let '(g', r) :=
    deliver_turn_state (Some sample_verify) sample_auth
      (mkDeliverTurnState (Some sample_turn_start) "alice" "") sample_streams in
  r = Ok true ∧
  cs_queue <$> gs_streams g' !! "s-bob"
  = Some [mkOutbound (Some (CmdTurnState
            (mkTurnStateEvent (turn_state_i32 TsWorking) "alice-conv" "" "" "" "")))].
Proof.
  apply (turn_state_loses_identity sample_verify sample_auth "home"
           (mkDeliverTurnState (Some sample_turn_start) "alice" "") sample_turn_start
           sample_streams "s-bob"
           (mkStream OpenerPerson "bob" "home" true [] TsIdle {["ask"]} false));
    vm_compute; reflexivity.
Defined.

Definition sample_sr : list SrOp :=
  [SrSend "home" "r1" "ask" "{}"; SrDeliver true "office" "r1" (OutResult "no");
   SrDeliver true "home" "r1" (OutResult "yes")].

Lemma client_response_witness :
  ∃ ws rid, (sr_run sample_sr sample_streams).2 !! 0 = Some (ws, rid) ∧
            SrDeliver true ws rid (OutResult "yes") ∈ sample_sr.
Proof.
  apply client_response_answers_own_request; [split; reflexivity|vm_compute; reflexivity].
Defined.
