(* ===== verification/Turn.v ===== *)
(** * One inference turn, streamed

    Models [crates/harness/src/turn.rs]: the streamed-item frames a turn's
    events produce and the bookkeeping of open runs ([EmitState]), the scrub
    seam, and the loop that drains a turn's stream until its terminal event, an
    error, the idle gap or a cancellation. *)

From stdpp Require Import pretty.
From S2P Require Import Prelude Text Proto Scrub.

(** ** Emitting frames *)

Record EmitState : Type := mkEmit {
  em_conversation_id : string; em_parent_conversation_id : string; em_agent_name : string;
  em_text_item : option string; em_tool_item : option string; em_text_runs : N;
  em_events : nat }.   (* how many event ids were drawn *)

Definition emit_new (conversation_id : string) : EmitState :=
  mkEmit conversation_id "" "" None None 0 0.
Definition emit_new_subagent (conversation_id parent_conversation_id agent_name : string) : EmitState :=
  mkEmit conversation_id parent_conversation_id agent_name None None 0 0.

Definition set_runs (text_item tool_item : option string) (text_runs : N) (s : EmitState) : EmitState :=
  mkEmit (em_conversation_id s) (em_parent_conversation_id s) (em_agent_name s)
         text_item tool_item text_runs (em_events s).

Definition text_run_id (n : N) : string := "text-" +:+ pretty n.

Section emit.
(** The UUIDs drawn for event ids. *)
Context (uuid : nat → string).

Definition next_frame (s : EmitState) (item_id : string) (phase : Phase) : EmitState * StreamItem :=
  (mkEmit (em_conversation_id s) (em_parent_conversation_id s) (em_agent_name s)
          (em_text_item s) (em_tool_item s) (em_text_runs s) (S (em_events s)),
   mkStreamItem (uuid (em_events s)) item_id (em_conversation_id s) (em_parent_conversation_id s)
                (em_agent_name s) (Some phase)).

Definition stream_items_for (event : TurnEvent) (s : EmitState) : EmitState * list StreamItem :=
  match te_event event with
  | Some (EvContentDelta text) =>
      if str_is_empty text then (s, []) else
      match em_text_item s with
      | Some id =>
          let '(s, f) := next_frame s id (PhDeltaText text) in (s, [f])
      | None =>
          let runs := (em_text_runs s + 1)%N in
          let id := text_run_id runs in
          let s := set_runs (Some id) (em_tool_item s) runs s in
          let '(s, f1) := next_frame s id PhStartText in
          let '(s, f2) := next_frame s id (PhDeltaText text) in
          (s, [f1; f2])
      end
  | Some (EvToolUseStart id name) =>
      let '(s, stop) :=
        match em_text_item s with
        | Some text_id =>
            let '(s, f) := next_frame (set_runs None (em_tool_item s) (em_text_runs s) s) text_id PhStop in
            (s, [f])
        | None => (s, [])
        end in
      let s := set_runs (em_text_item s) (Some id) (em_text_runs s) s in
      let '(s, f) := next_frame s id (PhStartToolUse name) in
      (s, stop ++ [f])
  | Some (EvToolUseInput partial_json) =>
      match em_tool_item s with
      | Some id => let '(s, f) := next_frame s id (PhDeltaToolInput partial_json) in (s, [f])
      | None => (s, [])
      end
  | _ => (s, [])
  end.

(** ** The scrub seam *)

Definition scrub_frame (scrub : ScrubSet) (frame : StreamItem) : StreamItem :=
  if scrub_is_empty scrub then frame else
  let set_phase p := mkStreamItem (si_event_id frame) (si_item_id frame) (si_conversation_id frame)
                       (si_parent_conversation_id frame) (si_agent_name frame) (Some p) in
  match si_phase frame with
  | Some (PhStartToolUse name) => set_phase (PhStartToolUse (scrub_apply scrub name))
  | Some (PhDeltaToolInput json) => set_phase (PhDeltaToolInput (scrub_apply scrub json))
  | _ => frame
  end.

(** ** Draining a turn *)

Record TurnResult : Type := mkTurnResult {
  tr_stop_reason : StopReason; tr_content : list ContentBlock; tr_tool_calls : list ToolCall }.

Inductive TurnAbort : Type := Ended (e : string) | Cancelled.

Definition process_turn_event (event : TurnEvent) : result (option TurnResult) string :=
  match te_event event with
  | Some (EvComplete stop_reason content tool_calls) =>
      Ok (Some (mkTurnResult (default StopUnspecified (stop_reason_try_from stop_reason))
                             content tool_calls))
  | Some (EvError code message) => Err ("turn error " +:+ pretty code +:+ ": " +:+ message)
  | _ => Ok None
  end.

(** What one round of the [select!] yields: the token (polled first), the idle
    timeout, a stream error, or an event. A stream that has no more rounds has
    ended. *)
Inductive SourceStep : Type :=
| StepCancelled
| StepIdle
| StepStreamError (e : string)
| StepEvent (event : TurnEvent).

Fixpoint consume_turn_stream_cancellable (scrub : ScrubSet) (idle_secs : N) (source : list SourceStep)
    (emit : EmitState) : EmitState * list StreamItem * result TurnResult TurnAbort :=
  match source with
  | [] => (emit, [], Err (Ended "stream ended without TurnComplete"))
  | StepCancelled :: _ => (emit, [], Err Cancelled)
  | StepIdle :: _ =>
      (emit, [], Err (Ended ("idle timeout: no inference-job progress in " +:+ pretty idle_secs +:+ "s")))
  | StepStreamError e :: _ => (emit, [], Err (Ended e))
  | StepEvent event :: source =>
      let '(emit, frames) := stream_items_for event emit in
      let frames := scrub_frame scrub <$> frames in
      match process_turn_event event with
      | Err e => (emit, frames, Err (Ended e))
      | Ok (Some result) => (emit, frames, Ok result)
      | Ok None =>
          let '(emit, rest, r) := consume_turn_stream_cancellable scrub idle_secs source emit in
          (emit, frames ++ rest, r)
      end
  end.

(** The frames of a sequence of events. *)
Fixpoint stream_items (events : list TurnEvent) (s : EmitState) : EmitState * list StreamItem :=
  match events with
  | [] => (s, [])
  | event :: events =>
      let '(s, frames) := stream_items_for event s in
      let '(s, rest) := stream_items events s in
      (s, frames ++ rest)
  end.

(** ** The frame protocol *)

(** A client's view: items are started, updated only while open, and stopped
    only while open. *)
Fixpoint frames_wf (open : list string) (frames : list StreamItem) : option (list string) :=
  match frames with
  | [] => Some open
  | f :: frames =>
      match si_phase f with
      | Some PhStartText | Some (PhStartToolUse _) => frames_wf (si_item_id f :: open) frames
      | Some (PhDeltaText _) | Some (PhDeltaToolInput _) =>
          if decide (si_item_id f ∈ open) then frames_wf open frames else None
      | Some PhStop =>
          if decide (si_item_id f ∈ open)
          then frames_wf (filter (λ x, x ≠ si_item_id f) open) frames else None
      | None => None
      end
  end.

Definition event_tool_id (event : TurnEvent) : option string :=
  match te_event event with Some (EvToolUseStart id _) => Some id | _ => None end.

(** What an event and a frame carry of the streamed text and tool input. *)
Definition event_text (event : TurnEvent) : string :=
  match te_event event with Some (EvContentDelta t) => t | _ => "" end.
Definition frame_text (f : StreamItem) : string :=
  match si_phase f with Some (PhDeltaText t) => t | _ => "" end.

(** Open runs are open items, and text runs are named apart from tools. *)
Definition emit_ok (s : EmitState) (open : list string) : Prop :=
  (∀ id, em_text_item s = Some id → id ∈ open ∧ str_starts_with "text-" id = true) ∧
  (∀ id, em_tool_item s = Some id → id ∈ open ∧ str_starts_with "text-" id = false).

Lemma frames_wf_app open fs gs :
  frames_wf open (fs ++ gs) = frames_wf open fs ≫= λ open', frames_wf open' gs.
Proof.
  revert open. induction fs as [|f fs IH]; intros open; simpl; [done|].
  destruct (si_phase f) as [[]|]; try done; by case_decide.
Qed.

Lemma text_run_prefixed n : str_starts_with "text-" (text_run_id n) = true.
Proof. apply str_starts_with_spec. by exists (pretty n). Qed.

Lemma stream_items_for_wf event s open :
  emit_ok s open →
  (∀ id, event_tool_id event = Some id → str_starts_with "text-" id = false) →
  let '(s', frames) := stream_items_for event s in
  ∃ open', frames_wf open frames = Some open' ∧ emit_ok s' open' ∧
    foldr (λ f t, frame_text f +:+ t) "" frames = event_text event.
Proof.
  intros [Ht Hi] Hid. unfold stream_items_for, event_tool_id, event_text in *.
  destruct (te_event event) as [[text|id name|json| | |]|]; try (exists open; split_and!; done).
  - unfold str_is_empty. case_bool_decide as He; [subst; exists open; by split_and!|].
    destruct (em_text_item s) as [id|] eqn:Es; simpl.
    + destruct (Ht id eq_refl) as [Hin Hp]. rewrite decide_True by done. exists open.
      split_and!; [done| |unfold frame_text; simpl; by rewrite string_app_empty_r].
      split; simpl; [|done]. intros id'. rewrite Es. auto.
    + rewrite decide_True by set_solver. eexists. split_and!; [done| |].
      * split; simpl; [intros ? [= <-]; split; [set_solver|apply text_run_prefixed]|].
        intros id' H'. destruct (Hi id' H'). split; [set_solver|done].
      * unfold frame_text. simpl. by rewrite string_app_empty_r.
  - specialize (Hid id eq_refl). destruct (em_text_item s) as [tid|] eqn:Es; simpl.
    + destruct (Ht tid eq_refl) as [Hin Hp]. rewrite decide_True by done. eexists. split_and!; [done| |done].
      split; simpl; [done|]. intros ? [= <-]. split; [apply list_elem_of_here|done].
    + eexists. split_and!; [done| |done]. split; simpl; [by rewrite Es|].
      intros ? [= <-]. split; [apply list_elem_of_here|done].
  - destruct (em_tool_item s) as [id|] eqn:Es; simpl;
      [|exists open; split_and!; [done| |done]; split; [done|by rewrite Es]].
    destruct (Hi id eq_refl) as [Hin Hp]. rewrite decide_True by done. exists open.
    split_and!; [done| |done]. split; simpl; [done|]. intros id'. rewrite Es. auto.
Qed.

Lemma stream_items_wf events s open :
  emit_ok s open →
  (∀ event id, event ∈ events → event_tool_id event = Some id → str_starts_with "text-" id = false) →
  let '(s', frames) := stream_items events s in
  (∃ open', frames_wf open frames = Some open' ∧ emit_ok s' open') ∧
  foldr (λ f t, frame_text f +:+ t) "" frames = foldr (λ e t, event_text e +:+ t) "" events.
Proof.
  revert s open. induction events as [|event events IH]; intros s open Hs Hid; simpl; [eauto|].
  pose proof (stream_items_for_wf event s open Hs (λ id, Hid event id (list_elem_of_here _ _))) as Hf.
  destruct (stream_items_for event s) as [s1 fs]. destruct Hf as (open1 & Hw1 & Hs1 & Ht1).
  specialize (IH s1 open1 Hs1 (λ e id He, Hid e id (list_elem_of_further _ _ _ He))).
  destruct (stream_items events s1) as [s2 rest]. destruct IH as [(open2 & Hw2 & Hs2) Ht2].
  split.
  - exists open2. rewrite frames_wf_app, Hw1. done.
  - rewrite <- Ht1, <- Ht2. clear. induction fs as [|f fs IH]; simpl; [done|].
    by rewrite IH, string_app_assoc.
Qed.

(** The streamed-item protocol: for any sequence of turn events, across
    continuation turns, every delta and every stop the client receives is for
    an item that was started before and is still open, and the text deltas put
    together are the model's text, nothing lost, repeated or reordered; given
    that upstream tool ids do not look like text-run ids. *)
Theorem stream_items_protocol (conversation_id : string) (events : list TurnEvent) :
  (∀ event id, event ∈ events → event_tool_id event = Some id → str_starts_with "text-" id = false) →
  let frames := (stream_items events (emit_new conversation_id)).2 in
  is_Some (frames_wf [] frames) ∧
  foldr (λ f t, frame_text f +:+ t) "" frames = foldr (λ e t, event_text e +:+ t) "" events.
Proof.
  intros Hid. pose proof (stream_items_wf events (emit_new conversation_id) []) as Hw.
  destruct (stream_items events (emit_new conversation_id)) as [s' frames].
  destruct Hw as [(open & Hw & _) Ht]; [by split|done|]. split; [by exists open|done].
Qed.

(** ** Draining *)

Definition terminal (event : TurnEvent) : bool :=
  match te_event event with Some (EvComplete _ _ _) | Some (EvError _ _) => true | _ => false end.

(** How a drain that meets [step] (or the end) after only progress events ends. *)
Definition drain_end (idle_secs : N) (step : option SourceStep) : result TurnResult TurnAbort :=
  match step with
  | None => Err (Ended "stream ended without TurnComplete")
  | Some StepCancelled => Err Cancelled
  | Some StepIdle =>
      Err (Ended ("idle timeout: no inference-job progress in " +:+ pretty idle_secs +:+ "s"))
  | Some (StepStreamError e) => Err (Ended e)
  | Some (StepEvent event) =>
      match process_turn_event event with
      | Ok (Some r) => Ok r
      | Ok None => Err Cancelled
      | Err e => Err (Ended e)
      end
  end.

Lemma process_progress event : terminal event = false → process_turn_event event = Ok None.
Proof. unfold terminal, process_turn_event. by destruct (te_event event) as [[]|]. Qed.

Lemma consume_progress scrub idle events rest emit :
  Forall (λ e, terminal e = false) events →
  consume_turn_stream_cancellable scrub idle ((StepEvent <$> events) ++ rest) emit
  = let '(emit1, frames) := stream_items events emit in
    let '(emit2, frames2, r) := consume_turn_stream_cancellable scrub idle rest emit1 in
    (emit2, (scrub_frame scrub <$> frames) ++ frames2, r).
Proof.
  intros He. revert emit. induction He as [|event events Ht _ IH]; intros emit; simpl.
  - by destruct (consume_turn_stream_cancellable scrub idle rest emit) as [[]].
  - destruct (stream_items_for event emit) as [emit1 fs]. rewrite process_progress, IH by done.
    destruct (stream_items events emit1) as [emit2 fs2].
    destruct (consume_turn_stream_cancellable scrub idle rest emit2) as [[emit3 fs3] r].
    by rewrite fmap_app, app_assoc.
Qed.

(** Draining a turn stops at the first decisive step and looks no further:
    after any number of progress events, whose frames were all emitted through
    the scrub seam, a cancellation, the idle gap, a stream error, the end of
    the stream or a terminal event alone decides the result, whatever the
    source still holds; a cancelled turn never reports a result. *)
Theorem drain_stops_at_first_terminal scrub idle events (step : option SourceStep) later emit :
  Forall (λ e, terminal e = false) events →
  (∀ event, step = Some (StepEvent event) → terminal event = true) →
  let source := (StepEvent <$> events) ++
                match step with Some s => s :: later | None => [] end in
  let '(_, frames, r) := consume_turn_stream_cancellable scrub idle source emit in
  frames = scrub_frame scrub <$> (stream_items events emit).2 ∧ r = drain_end idle step.
Proof.
  intros He Ht source. unfold source. rewrite consume_progress by done.
  destruct (stream_items events emit) as [emit1 fs]. simpl.
  destruct step as [[| |e|event]|]; simpl; try by rewrite app_nil_r.
  specialize (Ht event eq_refl). unfold terminal, stream_items_for, process_turn_event in *.
  destruct (te_event event) as [[]|]; try done; simpl; by rewrite app_nil_r.
Qed.
End emit.

Definition sample_events : list TurnEvent :=
  [mkTurnEvent (Some (EvContentDelta "Hel")); mkTurnEvent (Some (EvContentDelta "lo"));
   mkTurnEvent (Some (EvToolUseStart "toolu_1" "read")); mkTurnEvent (Some (EvToolUseInput "{}"));
   mkTurnEvent (Some (EvContentDelta "!"))].

Lemma stream_items_protocol_witness :
  is_Some (frames_wf [] (stream_items (λ _, "e") sample_events (emit_new "c")).2) ∧
  foldr (λ f t, frame_text f +:+ t) "" (stream_items (λ _, "e") sample_events (emit_new "c")).2 = "Hello!".
Proof.
  apply (stream_items_protocol (λ _, "e") "c" sample_events). intros event id Hin Hid.
  repeat (apply elem_of_cons in Hin as [->|Hin]; [vm_compute in Hid; try discriminate Hid;
    injection Hid as <-; vm_compute; reflexivity|]). by apply elem_of_nil in Hin.
Defined.

Lemma drain_witness :
  let '(_, frames, r) :=
    consume_turn_stream_cancellable (λ _, "e") scrub_empty_set 600
      ((StepEvent <$> sample_events) ++ [StepCancelled; StepEvent (mkTurnEvent (Some (EvComplete 1 [] [])))])
      (emit_new "c") in
  frames = scrub_frame scrub_empty_set <$> (stream_items (λ _, "e") sample_events (emit_new "c")).2
  ∧ r = Err Cancelled.
Proof.
  apply (drain_stops_at_first_terminal (λ _, "e") scrub_empty_set 600 sample_events (Some StepCancelled)
           [StepEvent (mkTurnEvent (Some (EvComplete 1 [] [])))] (emit_new "c")).
  - by repeat constructor.
  - intros event [=].
Defined.
