(* ===== verification/Agent.v ===== *)
(** * The agent loop

    Models [crates/harness/src/agent.rs]: [llm_loop] drives one user message
    through model turns and tool calls until the model stops, persisting each
    assistant turn and tool result to the conversation log and resending the
    whole history on every turn. The model ([toolset.turn]), the tool router
    and the outcome of each append are the environment. *)

From S2P Require Import Prelude Text Proto Codec Conversation Scrub Turn.

(** ** Requests, halts, environment *)

Record TurnRequest : Type := mkTurnRequest {
  trq_system : option string; trq_tools : list ToolDefinition; trq_messages : list Message;
  trq_model : option string; trq_reply_channel_stream : option string;
  trq_role : option Z; trq_correlation_id : option string; trq_conversation_id : string }.

Inductive LoopHalt : Type :=
| IterationLimit (limit : nat)
| HaltMaxTokens (partial : string)
| UnknownStop (reason : StopReason).

Inductive LoopError : Type :=
| Halt (h : LoopHalt)
| ToolsetRpcError (e : string)
| StreamEnded (e : string)
| LoopCancelled.

Inductive DispatchAbort : Type := DispatchError (e : string) | DispatchCancelled.

(** The [n]th model call, tool call and append of the run. *)
Record AgentEnv : Type := mkAgentEnv {
  ae_turn : nat → TurnRequest → result (list SourceStep) string;
  ae_call : nat → ToolCall → result CallToolResponse DispatchAbort;
  ae_io : nat → AppendIo;
  ae_now : nat → string }.

Record LoopState : Type := mkLoop {
  ls_log : ConversationLog; ls_messages : list Message; ls_emit : EmitState;
  ls_frames : list StreamItem;      (* what the sink received *)
  ls_requests : list TurnRequest;   (* what the model was sent *)
  ls_calls : list ToolCall;         (* what the router was asked *)
  ls_appends : nat; ls_cancels : nat }.

(** [ContinuationCtx]. *)
Record ContinuationCtx : Type := mkCtx {
  cx_system : option string; cx_tools : list ToolDefinition; cx_model : option string;
  cx_reply_channel_stream : option string; cx_conversation_id : string }.

Definition build_continuation (ctx : ContinuationCtx) (messages : list Message) : TurnRequest :=
  mkTurnRequest (cx_system ctx) (cx_tools ctx) messages (cx_model ctx) (cx_reply_channel_stream ctx)
                None None (cx_conversation_id ctx).

Definition assistant_message (r : TurnResult) : Message :=
  mkMessage "assistant" (tr_content r) (tr_tool_calls r) None None.

Definition tool_message (content : list ContentBlock) (id : string) (is_error : bool) : Message :=
  mkMessage "tool" content [] (Some id) (if is_error then Some true else None).

Definition cancelled_message (id : string) : Message :=
  tool_message [text_block "tool call cancelled"] id true.

Section agent.
Context `{LineCodec LogEntry} (uuid : nat → string) (env : AgentEnv).
Context (ctx : ContinuationCtx) (tag : option string) (attribution : AssistantAttribution).
Context (scrub : ScrubSet) (idle_secs : N) (max_iterations : nat).

Definition with_log (log : ConversationLog) (s : LoopState) : LoopState :=
  mkLoop log (ls_messages s) (ls_emit s) (ls_frames s) (ls_requests s) (ls_calls s)
         (S (ls_appends s)) (ls_cancels s).

Definition push_message (m : Message) (s : LoopState) : LoopState :=
  mkLoop (ls_log s) (ls_messages s ++ [m]) (ls_emit s) (ls_frames s) (ls_requests s) (ls_calls s)
         (ls_appends s) (ls_cancels s).

(** A failed append is logged, not fatal. *)
Definition persist_assistant (m : Message) (s : LoopState) : LoopState :=
  with_log (append_assistant_tagged (ae_io env (ls_appends s)) (ae_now env (ls_appends s)) m tag
              attribution (ls_log s)).1 s.

Definition persist_tool (m : Message) (s : LoopState) : LoopState :=
  with_log (append_tagged (ae_io env (ls_appends s)) (ae_now env (ls_appends s)) m tag (ls_log s)).1 s.

Definition ask_router (tc : ToolCall) (s : LoopState) : LoopState :=
  mkLoop (ls_log s) (ls_messages s) (ls_emit s) (ls_frames s) (ls_requests s) (ls_calls s ++ [tc])
         (ls_appends s) (ls_cancels s).

(** The calls of one tool-use turn, in order; [true] when one was cancelled. *)
Fixpoint run_tools (calls : list ToolCall) (s : LoopState) : LoopState * bool :=
  match calls with
  | [] => (s, false)
  | tc :: calls =>
      let r := ae_call env (length (ls_calls s)) tc in
      let s := ask_router tc s in
      match r with
      | Err DispatchCancelled => (persist_tool (cancelled_message (tc_id tc)) s, true)
      | Ok resp =>
          let m := tool_message (ctr_content resp) (tc_id tc) (ctr_is_error resp) in
          run_tools calls (push_message m (persist_tool m s))
      | Err (DispatchError e) =>
          let m := tool_message [text_block ("tool call error: " +:+ e)] (tc_id tc) true in
          run_tools calls (push_message m (persist_tool m s))
      end
  end.

(** [toolset.turn(request)]. *)
Definition ask_model (req : TurnRequest) (s : LoopState) : LoopState * result (list SourceStep) string :=
  (mkLoop (ls_log s) (ls_messages s) (ls_emit s) (ls_frames s) (ls_requests s ++ [req]) (ls_calls s)
          (ls_appends s) (ls_cancels s),
   ae_turn env (length (ls_requests s)) req).

Definition drain_turn (stream : list SourceStep) (s : LoopState) : LoopState * result TurnResult TurnAbort :=
  let '(emit, frames, r) := consume_turn_stream_cancellable uuid scrub idle_secs stream (ls_emit s) in
  (mkLoop (ls_log s) (ls_messages s) emit (ls_frames s ++ frames) (ls_requests s) (ls_calls s)
          (ls_appends s) (ls_cancels s), r).

Definition fire_cancel (s : LoopState) : LoopState :=
  mkLoop (ls_log s) (ls_messages s) (ls_emit s) (ls_frames s) (ls_requests s) (ls_calls s)
         (ls_appends s) (S (ls_cancels s)).

(** One round of the loop, with [iterations] tool-use rounds behind it: the
    loop's result, or the next stream. *)
Definition loop_round (iterations : nat) (stream : list SourceStep) (s : LoopState)
  : LoopState * (result string LoopError + list SourceStep) :=
  match drain_turn stream s with
  | (s, Err (Ended e)) => (s, inl (Err (StreamEnded e)))
  | (s, Err Cancelled) => (fire_cancel s, inl (Err LoopCancelled))
  | (s, Ok r) =>
      match tr_stop_reason r with
      | EndTurn => (persist_assistant (assistant_message r) s, inl (Ok (content_text (tr_content r))))
      | MaxTokens =>
          (persist_assistant (assistant_message r) s,
           inl (Err (Halt (HaltMaxTokens (content_text (tr_content r))))))
      | ToolUse =>
          match tr_tool_calls r with
          | [] => (persist_assistant (assistant_message r) s, inl (Ok (content_text (tr_content r))))
          | calls =>
              if max_iterations <=? S iterations
              then (s, inl (Err (Halt (IterationLimit max_iterations))))
              else
                let a := assistant_message r in
                let '(s, cancelled) := run_tools calls (push_message a (persist_assistant a s)) in
                if cancelled then (s, inl (Err LoopCancelled)) else
                match ask_model (build_continuation ctx (ls_messages s)) s with
                | (s, Err e) => (s, inl (Err (ToolsetRpcError e)))
                | (s, Ok stream) => (s, inr stream)
                end
          end
      | other => (s, inl (Err (Halt (UnknownStop other))))
      end
  end.

Fixpoint loop (fuel iterations : nat) (stream : list SourceStep) (s : LoopState)
  : LoopState * option (result string LoopError) :=
  match fuel with
  | 0 => (s, None)
  | S fuel =>
      match loop_round iterations stream s with
      | (s, inl r) => (s, Some r)
      | (s, inr stream) => loop fuel (S iterations) stream s
      end
  end.

(** [llm_loop] after its set-up; [initial_request] carries the history. *)
Definition llm_loop (fuel : nat) (initial_request : TurnRequest) (s : LoopState)
  : LoopState * option (result string LoopError) :=
  match ask_model initial_request s with
  | (s, Err e) => (s, Some (Err (ToolsetRpcError e)))
  | (s, Ok stream) => loop fuel 0 stream s
  end.
End agent.

(** The state [llm_loop] starts in. *)
Definition loop_start (log : ConversationLog) (scope : HistoryScope) (req : TurnRequest) : LoopState :=
  let emit := match scope with
              | Delegate _ parent_conversation_id agent_name =>
                  emit_new_subagent (trq_conversation_id req) parent_conversation_id agent_name
              | Orchestrator => emit_new (trq_conversation_id req)
              end in
  mkLoop log (trq_messages req) emit [] [] [] 0 0.

Definition ctx_of (req : TurnRequest) (reply_channel_stream : option string) : ContinuationCtx :=
  mkCtx (trq_system req) (trq_tools req) (trq_model req) reply_channel_stream (trq_conversation_id req).

(** ** Termination *)

Section proofs.
Context `{LineCodec LogEntry} (uuid : nat → string) (env : AgentEnv).
Context (ctx : ContinuationCtx) (attribution : AssistantAttribution).
Context (scrub : ScrubSet) (idle_secs : N) (max_iterations : nat).

Lemma run_tools_requests tag calls s : ls_requests (run_tools env tag calls s).1 = ls_requests s.
Proof.
  revert s. induction calls as [|tc calls IH]; intros s; simpl; [done|].
  destruct (ae_call env _ tc) as [resp|[e|]]; rewrite ?IH; done.
Qed.

Lemma drain_turn_fields stream s :
  let '(s', _) := drain_turn uuid scrub idle_secs stream s in
  ls_requests s' = ls_requests s ∧ ls_messages s' = ls_messages s ∧ ls_log s' = ls_log s ∧
  ls_appends s' = ls_appends s ∧ ls_calls s' = ls_calls s.
Proof.
  unfold drain_turn. by destruct (consume_turn_stream_cancellable uuid scrub idle_secs stream (ls_emit s))
    as [[emit frames] r].
Qed.

(** A round that goes on has room for another, and sent one request. *)
Lemma loop_round_continues tag it stream s s' stream' :
  loop_round uuid env ctx tag attribution scrub idle_secs max_iterations it stream s = (s', inr stream') →
  S it < max_iterations ∧ length (ls_requests s') = S (length (ls_requests s)).
Proof.
  unfold loop_round. pose proof (drain_turn_fields stream s) as Hd.
  destruct (drain_turn uuid scrub idle_secs stream s) as [s1 [r|[e|]]]; [|done|done].
  destruct Hd as (Hr & _). destruct (tr_stop_reason r); try done.
  destruct (tr_tool_calls r) as [|c cs]; [done|]. destruct (max_iterations <=? S it) eqn:E; [done|].
  apply Nat.leb_gt in E.
  pose proof (run_tools_requests tag (c :: cs)
    (push_message (assistant_message r) (persist_assistant env tag attribution (assistant_message r) s1))) as Hq.
  destruct (run_tools _ _ _ _) as [s2 []]; [done|]. unfold ask_model.
  destruct (ae_turn _ _ _); [|done]. intros [= <- <-]. split; [done|].
  simpl in *. rewrite length_app, Hq, Hr. simpl. lia.
Qed.

Lemma loop_round_ends tag it stream s s' r :
  loop_round uuid env ctx tag attribution scrub idle_secs max_iterations it stream s = (s', inl r) →
  length (ls_requests s') ≤ length (ls_requests s) + (if max_iterations <=? S it then 0 else 1).
Proof.
  unfold loop_round. pose proof (drain_turn_fields stream s) as Hd.
  destruct (drain_turn uuid scrub idle_secs stream s) as [s1 [t|[e|]]]; destruct Hd as (Hr & _);
    [|intros [= <- <-]; simpl; rewrite Hr; lia..].
  destruct (tr_stop_reason t); try (intros [= <- <-]; simpl; rewrite Hr; lia).
  destruct (tr_tool_calls t) as [|c cs]; [intros [= <- <-]; simpl; rewrite Hr; lia|].
  destruct (max_iterations <=? S it); [intros [= <- <-]; rewrite Hr; lia|].
  pose proof (run_tools_requests tag (c :: cs)
    (push_message (assistant_message t) (persist_assistant env tag attribution (assistant_message t) s1))) as Hq.
  destruct (run_tools _ _ _ _) as [s2 []]; [intros [= <- <-]; simpl in *; rewrite Hq, Hr; lia|].
  unfold ask_model. destruct (ae_turn _ _ _); [done|]. intros [= <- <-]. simpl in *.
  rewrite length_app, Hq, Hr. simpl. lia.
Qed.

Lemma loop_terminates tag fuel it stream s :
  0 < fuel → max_iterations ≤ it + fuel →
  let '(s', r) := loop uuid env ctx tag attribution scrub idle_secs max_iterations fuel it stream s in
  is_Some r ∧ length (ls_requests s') ≤ length (ls_requests s) + (max_iterations - S it).
Proof.
  revert it stream s. induction fuel as [|fuel IH]; intros it stream s Hf Hm; [lia|]. simpl.
  destruct (loop_round uuid env ctx tag attribution scrub idle_secs max_iterations it stream s)
    as [s1 [r|stream1]] eqn:E.
  - split; [eauto|]. apply loop_round_ends in E. destruct (max_iterations <=? S it) eqn:El; [lia|].
    apply Nat.leb_gt in El. lia.
  - apply loop_round_continues in E as [Hlt Hr]. specialize (IH (S it) stream1 s1).
    destruct (loop _ _ _ _ _ _ _ _ fuel (S it) stream1 s1) as [s2 r]. destruct IH as [? ?]; [lia..|].
    split; [done|]. lia.
Qed.

(** The agent loop always comes to an end: whatever the model streams and
    the tools answer, at most [max_iterations] model calls (one, if that is
    zero) are made before it returns, so that much fuel is enough. *)
Theorem llm_loop_bounded tag req s fuel :
  1 `max` max_iterations ≤ fuel →
  let '(s', r) := llm_loop uuid env ctx tag attribution scrub idle_secs max_iterations fuel req s in
  is_Some r ∧ length (ls_requests s') ≤ length (ls_requests s) + 1 `max` max_iterations.
Proof.
  intros Hf. unfold llm_loop, ask_model. destruct (ae_turn env _ req) as [stream|e].
  - set (s0 := mkLoop _ _ _ _ _ _ _ _).
    assert (length (ls_requests s0) = S (length (ls_requests s))) as Hs0.
    { subst s0. simpl. rewrite length_app. simpl. lia. }
    pose proof (loop_terminates tag fuel 0 stream s0) as Hl.
    destruct (loop _ _ _ _ _ _ _ _ fuel 0 stream s0) as [s' r]. destruct Hl as [? ?]; [lia..|].
    split; [done|]. lia.
  - split; [eauto|]. simpl. rewrite length_app. simpl. lia.
Qed.

(** ** What the model is sent *)

(** One tool-use turn and its answers: the assistant message, then one result
    per call, in order and under the call's id. *)
Definition answers (tc : ToolCall) (m : Message) : Prop :=
  msg_role m = "tool" ∧ msg_tool_call_id m = Some (tc_id tc) ∧ msg_tool_calls m = [].

Definition round_wf (ms : list Message) : Prop :=
  ∃ a results, ms = a :: results ∧ msg_role a = "assistant" ∧ msg_tool_calls a ≠ [] ∧
    Forall2 answers (msg_tool_calls a) results.

Lemma tool_message_answers content tc e : answers tc (tool_message content (tc_id tc) e).
Proof. done. Qed.

Lemma run_tools_answers tag calls s s' :
  run_tools env tag calls s = (s', false) →
  ∃ results, Forall2 answers calls results ∧ ls_messages s' = ls_messages s ++ results.
Proof.
  revert s. induction calls as [|tc calls IH]; intros s; simpl.
  - intros [= <-]. exists []. by rewrite app_nil_r.
  - destruct (ae_call env _ tc) as [resp|[e|]]; [| |done]; intros (results & Hr & Hm)%IH;
      eexists (_ :: results); (split; [constructor; [apply tool_message_answers|done]|]);
      rewrite Hm; simpl; by rewrite <- app_assoc.
Qed.

(** A request's history: the one the loop was given, then whole rounds. *)
Definition request_wf (init : list Message) (req : TurnRequest) : Prop :=
  ∃ rounds, Forall round_wf rounds ∧ trq_messages req = init ++ mjoin rounds.

Definition state_wf (init : list Message) (s : LoopState) : Prop :=
  (∃ rounds, Forall round_wf rounds ∧ ls_messages s = init ++ mjoin rounds) ∧
  ∀ req, req ∈ ls_requests s → request_wf init req.

Lemma state_wf_eq init s s' :
  ls_messages s' = ls_messages s → ls_requests s' = ls_requests s → state_wf init s → state_wf init s'.
Proof. intros Hm Hr [Hw Hq]. split; [by rewrite Hm|by rewrite Hr]. Qed.

Lemma mjoin_snoc {A} (rounds : list (list A)) r : mjoin (rounds ++ [r]) = mjoin rounds ++ r.
Proof.
  rewrite join_app. f_equal. apply app_nil_r.
Qed.

(** Whether the loop goes on or not, what was sent is well formed; while it
    goes on, so is what will be. *)
Lemma loop_round_wf tag init it stream s :
  state_wf init s →
  let '(s', next) :=
    loop_round uuid env ctx tag attribution scrub idle_secs max_iterations it stream s in
  (∀ req, req ∈ ls_requests s' → request_wf init req) ∧
  (∀ stream', next = inr stream' → state_wf init s').
Proof.
  intros Hs. unfold loop_round. pose proof (drain_turn_fields stream s) as Hd.
  destruct (drain_turn uuid scrub idle_secs stream s) as [s1 [r|[e|]]]; destruct Hd as (Hr & Hm & _);
    apply (state_wf_eq init s s1 Hm Hr) in Hs; clear Hr Hm.
  2,3: split; [apply Hs|done].
  destruct (tr_stop_reason r); try (split; [apply Hs|done]).
  destruct (tr_tool_calls r) as [|c cs] eqn:Ec; [split; [apply Hs|done]|].
  destruct (max_iterations <=? S it); [split; [apply Hs|done]|].
  set (a := assistant_message r). set (s2 := push_message a (persist_assistant env tag attribution a s1)).
  pose proof (run_tools_requests tag (c :: cs) s2) as Hq.
  destruct (run_tools env tag (c :: cs) s2) as [s3 []] eqn:Et; simpl in Hq; [rewrite Hq; split; [apply Hs|done]|].
  apply run_tools_answers in Et as (results & Hres & Hm3).
  destruct Hs as [(rounds & Hrw & Hm1) Hreq].
  assert (∃ rounds, Forall round_wf rounds ∧ ls_messages s3 = init ++ mjoin rounds) as Hw3.
  { exists (rounds ++ [a :: results]). split.
    - apply Forall_app. split; [done|]. constructor; [|done]. exists a, results. subst a. simpl.
      rewrite Ec. done.
    - rewrite Hm3, mjoin_snoc. subst s2. simpl. rewrite Hm1, <- !app_assoc. done. }
  assert (∀ req, req ∈ ls_requests s3 ++ [build_continuation ctx (ls_messages s3)] → request_wf init req) as Hq3.
  { intros req [Hin|Hin]%elem_of_app; [rewrite Hq in Hin; by apply Hreq|].
    apply list_elem_of_singleton in Hin as ->. exact Hw3. }
  unfold ask_model. destruct (ae_turn _ _ _) as [stream'|e]; simpl.
  - split; [done|]. intros _ _. by split.
  - split; [done|]. intros ? [=].
Qed.

Lemma loop_wf tag init fuel it stream s :
  state_wf init s →
  ∀ req, req ∈ ls_requests (loop uuid env ctx tag attribution scrub idle_secs max_iterations fuel it stream s).1 →
  request_wf init req.
Proof.
  revert it stream s. induction fuel as [|fuel IH]; intros it stream s Hs; [apply Hs|]. simpl.
  pose proof (loop_round_wf tag init it stream s Hs) as Hl.
  destruct (loop_round _ _ _ _ _ _ _ _ it stream s) as [s1 [r|stream1]]; destruct Hl as [Hq Hn];
    [done|]. apply IH. by eapply Hn.
Qed.

Lemma llm_loop_requests_wf tag req log scope fuel :
  ∀ sent, sent ∈ ls_requests (llm_loop uuid env ctx tag attribution scrub idle_secs max_iterations fuel req
                                (loop_start log scope req)).1 →
  request_wf (trq_messages req) sent.
Proof.
  assert (request_wf (trq_messages req) req) as Hreq.
  { exists []. split; [done|]. by rewrite app_nil_r. }
  unfold llm_loop, ask_model. intros sent. destruct (ae_turn env _ req) as [stream|e]; simpl.
  - apply loop_wf. split; simpl; [exact Hreq|]. intros q [->|[]%elem_of_nil]%elem_of_cons. done.
  - intros [->|[]%elem_of_nil]%elem_of_cons. done.
Qed.

(** C10. Everything sent to the model is provider-valid: each request of the
    loop, the failing ones included, carries the history the turn started with
    followed by whole rounds, an assistant message with tool calls and then
    exactly one result per call, in call order and under the call's id. *)
Theorem requests_provider_valid tag req log scope fuel :
  ∀ sent, sent ∈ ls_requests (llm_loop uuid env ctx tag attribution scrub idle_secs max_iterations fuel req
                                (loop_start log scope req)).1 →
  request_wf (trq_messages req) sent.
Proof. intros sent Hs. by apply llm_loop_requests_wf in Hs. Qed.

(** ** The log and the model's view *)

Section mirror.
Context (scope : HistoryScope) (io_done : ∀ n, ae_io env n = AppendDone).
Context (init h0 : list Message).

(** The log has gained what was added to the provider's context. *)
Definition mirror (s : LoopState) : Prop :=
  ∃ ms, ls_messages s = init ++ ms ∧ history_for_provider (ls_log s) scope = h0 ++ ms.

Lemma same_scope_refl : same_scope scope scope = true.
Proof. destruct scope; simpl; [done|]. by apply bool_decide_eq_true. Qed.

Lemma persist_tool_history content id e s :
  let m := tool_message content id e in
  history_for_provider (ls_log (persist_tool env (scope_tag scope) m s)) scope
  = history_for_provider (ls_log s) scope ++ [m].
Proof using io_done.
  intros m. unfold persist_tool, append_tagged. rewrite decide_False by done.
  cbn [ls_log with_log]. rewrite io_done, history_push, same_scope_refl. done.
Qed.

Lemma persist_assistant_history r s :
  history_for_provider (ls_log (persist_assistant env (scope_tag scope) attribution (assistant_message r) s)) scope
  = history_for_provider (ls_log s) scope ++
    (if decide (tr_content r = [] ∧ tr_tool_calls r = []) then [] else [assistant_message r]).
Proof using io_done.
  unfold persist_assistant, append_assistant_tagged. rewrite decide_False by (by intros Hn; apply Hn).
  cbn [ls_log with_log msg_content msg_tool_calls assistant_message]. rewrite io_done.
  destruct (tr_content r) eqn:Ec, (tr_tool_calls r) eqn:Et;
    [rewrite decide_True by done; simpl; by rewrite app_nil_r|rewrite decide_False by (intros [? ?]; discriminate)..];
    unfold assistant_message; rewrite Ec, Et, history_push, same_scope_refl; done.
Qed.

Lemma mirror_push_tool content id e s :
  let m := tool_message content id e in
  mirror s → mirror (push_message m (persist_tool env (scope_tag scope) m s)).
Proof using io_done.
  intros m (ms & Hm & Hh). exists (ms ++ [m]). split; [simpl; by rewrite Hm, app_assoc|].
  unfold push_message. cbn [ls_log]. subst m. rewrite persist_tool_history, Hh, app_assoc. done.
Qed.

Lemma run_tools_mirror calls s s' :
  run_tools env (scope_tag scope) calls s = (s', false) → mirror s → mirror s'.
Proof using io_done.
  revert s. induction calls as [|tc calls IH]; intros s; simpl; [by intros [= <-]|].
  destruct (ae_call env _ tc) as [resp|[e|]]; [| |done]; intros Hr Hm; eapply IH; try done;
    by apply mirror_push_tool.
Qed.

(** At the head of a round the last request carries the loop's messages. *)
Definition head_ok (s : LoopState) : Prop :=
  mirror s ∧ trq_messages <$> last (ls_requests s) = Some (ls_messages s).

Lemma loop_round_mirror it stream s :
  head_ok s →
  let '(s', next) :=
    loop_round uuid env ctx (scope_tag scope) attribution scrub idle_secs max_iterations it stream s in
  match next with
  | inr _ => head_ok s'
  | inl (Ok text) =>
      ∃ ms final, history_for_provider (ls_log s') scope = h0 ++ ms ++ final ∧
        trq_messages <$> last (ls_requests s') = Some (init ++ ms) ∧
        text = content_text (mjoin (msg_content <$> final)) ∧
        (final = [] ∨ ∃ a, final = [a] ∧ msg_role a = "assistant")
  | inl (Err _) => True
  end.
Proof using io_done.
  intros [(ms & Hm & Hh) Hq]. unfold loop_round. pose proof (drain_turn_fields stream s) as Hd.
  destruct (drain_turn uuid scrub idle_secs stream s) as [s1 [r|[e|]]];
    destruct Hd as (Dr & Dm & Dl & _); [|done|done].
  assert (∀ r', ∃ ms final,
      history_for_provider (ls_log (persist_assistant env (scope_tag scope) attribution (assistant_message r') s1)) scope
        = h0 ++ ms ++ final ∧
      trq_messages <$> last (ls_requests s1) = Some (init ++ ms) ∧
      content_text (tr_content r') = content_text (mjoin (msg_content <$> final)) ∧
      (final = [] ∨ ∃ a, final = [a] ∧ msg_role a = "assistant")) as Hfinal.
  { intros r'. exists ms, (if decide (tr_content r' = [] ∧ tr_tool_calls r' = []) then []
                           else [assistant_message r']).
    rewrite persist_assistant_history, Dl, Hh, app_assoc, Dr, Hq, Hm. split_and!; [done..| |].
    - case_decide as Hd; [by destruct Hd as [-> _]|]. simpl. by rewrite app_nil_r.
    - case_decide; [by left|right; by eexists]. }
  destruct (tr_stop_reason r); try done; try apply Hfinal.
  destruct (tr_tool_calls r) as [|c cs] eqn:Ec; [apply Hfinal|].
  destruct (max_iterations <=? S it); [done|].
  set (a := assistant_message r).
  assert (mirror (push_message a (persist_assistant env (scope_tag scope) attribution a s1))) as Hma.
  { exists (ms ++ [a]). split; [simpl; by rewrite Dm, Hm, app_assoc|].
    unfold push_message. cbn [ls_log]. subst a. rewrite persist_assistant_history, Dl, Hh.
    rewrite decide_False by (rewrite Ec; by intros [_ [=]]). by rewrite app_assoc. }
  destruct (run_tools _ _ (c :: cs) _) as [s3 []] eqn:Et; [done|].
  apply run_tools_mirror in Et; [|done]. unfold ask_model.
  destruct (ae_turn _ _ _); [|done]. split; [exact Et|]. simpl. by rewrite last_snoc.
Qed.

Lemma loop_mirror fuel it stream s s' text :
  head_ok s →
  loop uuid env ctx (scope_tag scope) attribution scrub idle_secs max_iterations fuel it stream s
  = (s', Some (Ok text)) →
  ∃ ms final, history_for_provider (ls_log s') scope = h0 ++ ms ++ final ∧
    trq_messages <$> last (ls_requests s') = Some (init ++ ms) ∧
    text = content_text (mjoin (msg_content <$> final)) ∧
    (final = [] ∨ ∃ a, final = [a] ∧ msg_role a = "assistant").
Proof using io_done.
  revert it stream s. induction fuel as [|fuel IH]; intros it stream s Hs; [done|]. simpl.
  pose proof (loop_round_mirror it stream s Hs) as Hl.
  destruct (loop_round _ _ _ _ _ _ _ _ it stream s) as [s1 [[t|e]|stream1]].
  - by intros [= <- <-].
  - done.
  - intros E. by eapply IH.
Qed.
End mirror.

(** C31. The log and the model agree: when a turn ends with an answer and no
    append failed, what the log shows in the turn's scope has grown by exactly
    the messages the model's last request added to the first one, followed by
    the final assistant message whose text is returned (and none when that
    message was empty). So the next turn is assembled from what the model saw. *)
Theorem log_mirrors_model_view (scope : HistoryScope) req log fuel s' text :
  (∀ n, ae_io env n = AppendDone) →
  llm_loop uuid env ctx (scope_tag scope) attribution scrub idle_secs max_iterations fuel req
    (loop_start log scope req) = (s', Some (Ok text)) →
  ∃ ms final,
    history_for_provider (ls_log s') scope = history_for_provider log scope ++ ms ++ final ∧
    trq_messages <$> last (ls_requests s') = Some (trq_messages req ++ ms) ∧
    text = content_text (mjoin (msg_content <$> final)) ∧
    (final = [] ∨ ∃ a, final = [a] ∧ msg_role a = "assistant").
Proof.
  intros Hio. unfold llm_loop, ask_model. destruct (ae_turn env _ req) as [stream|e]; [|done].
  apply (loop_mirror scope Hio (trq_messages req) (history_for_provider log scope)).
  split; [|done]. exists []. by rewrite !app_nil_r.
Qed.

(** A cancelled tool call leaves the turn's other calls unanswered in the
    log: with several calls in one assistant message and the first one
    cancelled, the log ends in that message and one cancellation marker, so a
    later call's tool_use has no result, although the next turn resends it. *)
Theorem cancel_leaves_calls_unanswered (scope : HistoryScope) log fuel req r c1 c2 cs stream :
  (∀ n, ae_io env n = AppendDone) →
  ae_turn env 0 req = Ok stream →
  (consume_turn_stream_cancellable uuid scrub idle_secs stream (ls_emit (loop_start log scope req))).2 = Ok r →
  tr_stop_reason r = ToolUse → tr_tool_calls r = c1 :: c2 :: cs →
  1 < max_iterations → 0 < fuel → ae_call env 0 c1 = Err DispatchCancelled → tc_id c2 ≠ tc_id c1 →
  let '(s', res) := llm_loop uuid env ctx (scope_tag scope) attribution scrub idle_secs max_iterations fuel
                      req (loop_start log scope req) in
  res = Some (Err LoopCancelled) ∧
  history_for_provider (ls_log s') scope
  = history_for_provider log scope ++ [assistant_message r; cancelled_message (tc_id c1)] ∧
  c2 ∈ msg_tool_calls (assistant_message r) ∧
  ∀ m, m ∈ [assistant_message r; cancelled_message (tc_id c1)] → ¬ answers c2 m.
Proof.
  intros Hio Ht Hc Hs Hcalls Hmax Hfuel Hcall Hne.
  unfold llm_loop, ask_model. change (length (ls_requests (loop_start log scope req))) with 0. rewrite Ht.
  destruct fuel as [|fuel]; [lia|]. simpl loop. unfold loop_round, drain_turn.
  cbn [ls_emit ls_requests]. destruct (consume_turn_stream_cancellable _ _ _ _ _) as [[emit frames] r'] eqn:E.
  simpl in Hc. subst r'. rewrite Hs, Hcalls.
  destruct (max_iterations <=? 1) eqn:El; [apply Nat.leb_le in El; lia|].
  set (s1 := push_message _ _). unfold run_tools. change (length (ls_calls s1)) with 0. rewrite Hcall.
  split_and!; [done| |simpl; rewrite Hcalls; set_solver|].
  - unfold cancelled_message. rewrite persist_tool_history by done. subst s1. cbn [ls_log ask_router push_message].
    rewrite persist_assistant_history by done. rewrite decide_False by (rewrite Hcalls; by intros [_ [=]]).
    by rewrite <- app_assoc.
  - intros m [->|[->|[]%elem_of_nil]%elem_of_cons]%elem_of_cons (Hrole & Hid & _); [done|].
    simpl in Hid. congruence.
Qed.
End proofs.

(** ** Witnesses *)

Definition complete_step (stop : StopReason) (text : string) (calls : list ToolCall) : list SourceStep :=
  [StepEvent (mkTurnEvent (Some (EvComplete (stop_reason_i32 stop) (text_content text) calls)))].

(** A model that asks for [calls] first and then answers. *)
Definition sample_agent (calls : list ToolCall) (tool : result CallToolResponse DispatchAbort) : AgentEnv :=
  mkAgentEnv (λ n _, Ok (if decide (n = 0) then complete_step ToolUse "let me look" calls
                         else complete_step EndTurn "done" []))
             (λ _ _, tool) (λ _, AppendDone) (λ _, "t").

Definition sample_call (id : string) : ToolCall := mkToolCall id "read" "{}".
Definition sample_tool_ok : result CallToolResponse DispatchAbort :=
  Ok (mkCallToolResponse (text_content "contents") false).
Definition sample_request : TurnRequest :=
  mkTurnRequest None [] [sample_message "user"] (Some "m") None None None "c".
Definition sample_log : ConversationLog := log_new empty_dir.

#[local] Notation sample_run env :=
  (llm_loop (λ _, "e") env (ctx_of sample_request None) (scope_tag Orchestrator) default_attribution
    scrub_empty_set 600 5 5 sample_request (loop_start sample_log Orchestrator sample_request)).

Lemma llm_loop_bounded_witness :
  let '(s', r) := sample_run (sample_agent [sample_call "1"] sample_tool_ok) in
  is_Some r ∧ length (ls_requests s') ≤ 5.
Proof.
  apply (llm_loop_bounded (λ _, "e") (sample_agent [sample_call "1"] sample_tool_ok)
           (ctx_of sample_request None) default_attribution scrub_empty_set 600 5
           (scope_tag Orchestrator) sample_request (loop_start sample_log Orchestrator sample_request) 5).
  lia.
Defined.

Lemma requests_provider_valid_witness :
  ∃ sent, last (ls_requests (sample_run (sample_agent [sample_call "1"] sample_tool_ok)).1) = Some sent ∧
          length (trq_messages sent) = 3 ∧ request_wf [sample_message "user"] sent.
Proof.
  destruct (last (ls_requests (sample_run (sample_agent [sample_call "1"] sample_tool_ok)).1))
    as [sent|] eqn:E; [|vm_compute in E; discriminate E].
  exists sent. split; [reflexivity|]. split.
  - assert (length ∘ trq_messages <$> Some sent = Some 3) as Hs; [|by injection Hs].
    rewrite <- E. vm_compute. reflexivity.
  - apply (requests_provider_valid (λ _, "e") (sample_agent [sample_call "1"] sample_tool_ok)
             (ctx_of sample_request None) default_attribution scrub_empty_set 600 5
             (scope_tag Orchestrator) sample_request sample_log Orchestrator 5).
    exact (last_Some_elem_of _ _ E).
Defined.

Lemma log_mirrors_model_view_witness :
  ∃ s', sample_run (sample_agent [sample_call "1"] sample_tool_ok) = (s', Some (Ok "done")) ∧
  ∃ ms final, history_for_provider (ls_log s') Orchestrator = ms ++ final ∧
    trq_messages <$> last (ls_requests s') = Some ([sample_message "user"] ++ ms).
Proof.
  destruct (sample_run (sample_agent [sample_call "1"] sample_tool_ok)) as [s' r] eqn:E.
  assert (r = Some (Ok "done")) as Hr.
  { apply (f_equal snd) in E. change (snd (s', r)) with r in E. rewrite <- E. vm_compute. reflexivity. }
  exists s'. split; [by rewrite Hr|]. rewrite Hr in E.
  destruct (log_mirrors_model_view (λ _, "e") (sample_agent [sample_call "1"] sample_tool_ok)
              (ctx_of sample_request None) default_attribution scrub_empty_set 600 5
              Orchestrator sample_request sample_log 5 s' "done" (λ _, eq_refl) E)
    as (ms & final & Hh & Hl & _).
  exists ms, final. split; [exact Hh|exact Hl].
Defined.

Lemma cancel_leaves_calls_unanswered_witness :
  let '(s', res) := sample_run (sample_agent [sample_call "1"; sample_call "2"] (Err DispatchCancelled)) in
  res = Some (Err LoopCancelled) ∧ length (history_for_provider (ls_log s') Orchestrator) = 2.
Proof.
  pose proof (cancel_leaves_calls_unanswered (λ _, "e")
    (sample_agent [sample_call "1"; sample_call "2"] (Err DispatchCancelled))
    (ctx_of sample_request None) default_attribution scrub_empty_set 600 5 Orchestrator sample_log 5
    sample_request (mkTurnResult ToolUse (text_content "let me look") [sample_call "1"; sample_call "2"])
    (sample_call "1") (sample_call "2") []
    (complete_step ToolUse "let me look" [sample_call "1"; sample_call "2"])
    (λ _, eq_refl) eq_refl eq_refl eq_refl eq_refl ltac:(lia) ltac:(lia) eq_refl ltac:(by_compute)) as Hw.
  destruct (llm_loop _ _ _ _ _ _ _ _ _ _ _) as [s' res].
  destruct Hw as (Hr & Hh & _). split; [exact Hr|]. by rewrite Hh.
Defined.
