(* ===== verification/Dispatch.v ===== *)
(** * In-process tool-call dispatch

    Models [DispatchState] of [crates/harness/src/dispatch.rs]: the calls
    waiting for a tool job, the job each [(tool, grant)] pair has running, the
    senders of the calls' result frames, and the two kinds of task that work on
    them: [begin_call], which spawns or attaches to a job and publishes a call,
    and the dial driver, which claims a call, runs it on the job's pod and
    cleans up. Tasks interleave between any two lock acquisitions, so each
    phase of a task below is one critical section. The clock, the API server's
    answer to a job creation, the pod's answers and the iteration order of the
    hash maps are the environment. The harness has a kube client; without one,
    as in the unit tests, no job is created. *)

From S2P Require Import Prelude Text Proto Toolset.

(** ** Jobs and calls *)

(** An instant or a duration, in nanoseconds. *)
Definition secs (n : N) : N := n * 1000000000.

Definition RESULT_CHANNEL_CAPACITY : nat := 64.
Definition TOOL_KEEPALIVE_IDLE_SECONDS : N := 600.
Definition KEEPALIVE_ATTACH_MARGIN : N := secs 60.

Abbreviation ActiveKey := (string * option string)%type.

Record ActiveJob : Type := mkActive {
  aj_job_name : string; aj_job_id : string; aj_tool_name : string; aj_keepalive_seconds : N;
  aj_grant : option string; aj_last_activity : N }.

Record PendingCall : Type := mkPending {
  pc_call_id : string; pc_tool_name : string; pc_args : gmap string string; pc_working_dir : string;
  pc_grant : option string; pc_target_job_id : string }.

Definition attachable (active : ActiveJob) (now : N) : bool :=
  if str_is_empty (aj_job_id active) || (aj_keepalive_seconds active =? 0)%N then false
  else (now - aj_last_activity active + KEEPALIVE_ATTACH_MARGIN <? secs (aj_keepalive_seconds active))%N.

(** ** The frames of one call

    [ch_frames] is what was sent into the call's channel, [ch_open] whether a
    sender is left. *)
Record Channel : Type := mkChannel { ch_frames : list ToolResultFrame; ch_open : bool }.

Definition failed_terminal : ToolResultFrame :=
  mkFrame (Some (Complete (tool_outcome_i32 OutcomeFailed) (-1))).

Definition is_terminal_frame (f : ToolResultFrame) : bool :=
  match tf_frame f with Some (Complete _ _) => true | _ => false end.

(** Dropping a [ToolResultGuard] that was not marked complete: the synthetic
    terminal goes out if the channel has room. *)
Definition guard_drop (room : bool) : list ToolResultFrame := if room then [failed_terminal] else [].

(** One try to reach the pod. *)
Inductive DialAttempt : Type :=
| DialCancelled                       (* the token was cancelled before the attempt *)
| DialConnected
| DialFailed (past_deadline : bool).  (* refused, or not answered in time *)

(** The dial loop; the attempts go at least to the one that decides. *)
Fixpoint dial (attempts : list DialAttempt) : bool :=
  match attempts with
  | [] | DialCancelled :: _ => false
  | DialConnected :: _ => true
  | DialFailed past_deadline :: attempts => if past_deadline then false else dial attempts
  end.

(** The frame loop: up to the pod's terminal, an error or the end. *)
Fixpoint forward_frames (frames : list (result ToolResultFrame Status)) : list ToolResultFrame * bool :=
  match frames with
  | [] | Err _ :: _ => ([], false)
  | Ok f :: frames =>
      if is_terminal_frame f then ([f], true)
      else let '(fs, saw_terminal) := forward_frames frames in (f :: fs, saw_terminal)
  end.

(** What one run of a pod is, as seen from the harness. *)
Record PodRun : Type := mkPodRun {
  pr_attempts : list DialAttempt;
  pr_run : result (list (result ToolResultFrame Status)) string;
  pr_room : bool }.

(** [dial_and_run]: the frames sent into the channel, and whether the pod's
    terminal was among them. *)
Definition dial_and_run (p : PodRun) : list ToolResultFrame * bool :=
  if dial (pr_attempts p) then
    match pr_run p with
    | Ok frames =>
        let '(fs, saw_terminal) := forward_frames frames in
        (fs ++ if saw_terminal then [] else guard_drop (pr_room p), saw_terminal)
    | Err _ => (guard_drop (pr_room p), false)
    end
  else (guard_drop (pr_room p), false).

Definition pod_dial_name (job_id service namespace : string) : string :=
  job_id +:+ "." +:+ service +:+ "." +:+ namespace +:+ ".svc.cluster.local".

(** ** The shared state *)

Record DispatchState : Type := mkDispatch {
  ds_pending : gmap ActiveKey (list PendingCall);
  ds_result_txs : gset string;            (* calls whose guard is parked here *)
  ds_call_ids : gmap string string;       (* the shadow: call id to tool *)
  ds_tokens : gset string;                (* calls with a registered cancel token *)
  ds_active : gmap ActiveKey ActiveJob;
  ds_locks : gset string;                 (* tools whose dispatch lock is held *)
  ds_channels : gmap string Channel;      (* every call's result channel *)
  ds_cancelled : gset string }.           (* tokens that were cancelled *)

Definition dispatch_new : DispatchState := mkDispatch ∅ ∅ ∅ ∅ ∅ ∅ ∅ ∅.

Definition set_pending (f : gmap ActiveKey (list PendingCall) → gmap ActiveKey (list PendingCall))
    (s : DispatchState) : DispatchState :=
  mkDispatch (f (ds_pending s)) (ds_result_txs s) (ds_call_ids s) (ds_tokens s) (ds_active s)
             (ds_locks s) (ds_channels s) (ds_cancelled s).

Definition set_txs (f : gset string → gset string) (s : DispatchState) : DispatchState :=
  mkDispatch (ds_pending s) (f (ds_result_txs s)) (ds_call_ids s) (ds_tokens s) (ds_active s)
             (ds_locks s) (ds_channels s) (ds_cancelled s).

Definition set_shadow (f : gmap string string → gmap string string) (s : DispatchState) : DispatchState :=
  mkDispatch (ds_pending s) (ds_result_txs s) (f (ds_call_ids s)) (ds_tokens s) (ds_active s)
             (ds_locks s) (ds_channels s) (ds_cancelled s).

Definition set_tokens (f : gset string → gset string) (s : DispatchState) : DispatchState :=
  mkDispatch (ds_pending s) (ds_result_txs s) (ds_call_ids s) (f (ds_tokens s)) (ds_active s)
             (ds_locks s) (ds_channels s) (ds_cancelled s).

Definition set_active (f : gmap ActiveKey ActiveJob → gmap ActiveKey ActiveJob) (s : DispatchState)
  : DispatchState :=
  mkDispatch (ds_pending s) (ds_result_txs s) (ds_call_ids s) (ds_tokens s) (f (ds_active s))
             (ds_locks s) (ds_channels s) (ds_cancelled s).

Definition set_locks (f : gset string → gset string) (s : DispatchState) : DispatchState :=
  mkDispatch (ds_pending s) (ds_result_txs s) (ds_call_ids s) (ds_tokens s) (ds_active s)
             (f (ds_locks s)) (ds_channels s) (ds_cancelled s).

Definition set_channels (f : gmap string Channel → gmap string Channel) (s : DispatchState)
  : DispatchState :=
  mkDispatch (ds_pending s) (ds_result_txs s) (ds_call_ids s) (ds_tokens s) (ds_active s)
             (ds_locks s) (f (ds_channels s)) (ds_cancelled s).

Definition set_cancelled (f : gset string → gset string) (s : DispatchState) : DispatchState :=
  mkDispatch (ds_pending s) (ds_result_txs s) (ds_call_ids s) (ds_tokens s) (ds_active s)
             (ds_locks s) (ds_channels s) (f (ds_cancelled s)).

(** *** The call queue *)

Definition enqueue_call (call : PendingCall) : DispatchState → DispatchState :=
  set_pending (λ m, let k := (pc_tool_name call, pc_grant call) in
                    <[k := default [] (m !! k) ++ [call]]> m).

(** [calls.iter().position(|c| c.target_job_id == job_id)] and [remove]. *)
Fixpoint take_targeted (job_id : string) (calls : list PendingCall)
  : option (PendingCall * list PendingCall) :=
  match calls with
  | [] => None
  | c :: calls =>
      if decide (pc_target_job_id c = job_id) then Some (c, calls)
      else (λ x, (x.1, c :: x.2)) <$> take_targeted job_id calls
  end.

(** [order] is the order in which the buckets are met. *)
Fixpoint dequeue_from (tool_name job_id : string) (order : list ActiveKey)
    (pending : gmap ActiveKey (list PendingCall))
  : option (PendingCall * gmap ActiveKey (list PendingCall)) :=
  match order with
  | [] => None
  | k :: order =>
      if decide (k.1 = tool_name) then
        match pending !! k ≫= take_targeted job_id with
        | Some (c, rest) => Some (c, <[k := rest]> pending)
        | None => dequeue_from tool_name job_id order pending
        end
      else dequeue_from tool_name job_id order pending
  end.

Definition dequeue_call (order : list ActiveKey) (tool_name job_id : string) (s : DispatchState)
  : DispatchState * option PendingCall :=
  if str_is_empty job_id then (s, None) else
  match dequeue_from tool_name job_id order (ds_pending s) with
  | Some (c, pending) => (set_pending (λ _, pending) s, Some c)
  | None => (s, None)
  end.

Definition remove_pending_call (tool_name : string) (grant : option string) (call_id : string)
    (s : DispatchState) : DispatchState * bool :=
  let k := (tool_name, grant) in
  match ds_pending s !! k with
  | None => (s, false)
  | Some calls =>
      let left := filter (λ c, pc_call_id c ≠ call_id) calls in
      (set_pending (insert k left) s, negb (length left =? length calls))
  end.

(** *** Results, cancellation, jobs *)

(** The guards of [ids] are dropped: each of their channels gets the synthetic
    terminal and has no sender left. *)
Definition drop_guard (s : DispatchState) (id : string) : DispatchState :=
  set_channels (alter (λ c, mkChannel
     (ch_frames c ++ guard_drop (length (ch_frames c) <? RESULT_CHANNEL_CAPACITY)) false) id) s.

Definition drop_guards (ids : list string) (s : DispatchState) : DispatchState := foldl drop_guard s ids.

Definition fire_call_cancel (call_id : string) (s : DispatchState) : DispatchState * bool :=
  if decide (call_id ∈ ds_tokens s)
  then (set_cancelled ({[call_id]} ∪.) (set_tokens (.∖ {[call_id]}) s), true)
  else (s, false).

Definition get_active_job (k : ActiveKey) (s : DispatchState) : option ActiveJob := ds_active s !! k.

Definition set_active_job (job : ActiveJob) : DispatchState → DispatchState :=
  set_active (insert (aj_tool_name job, aj_grant job) job).

Inductive RecordEviction : Type := Removed | NoRecord | SupersededByAnotherJob.

(** [order] is the order in which the records are met. *)
Definition remove_active_job_named (order : list ActiveKey) (tool_name job_name : string)
    (s : DispatchState) : DispatchState * RecordEviction :=
  match list_find (λ k, k.1 = tool_name ∧ aj_job_name <$> ds_active s !! k = Some job_name) order with
  | Some (_, k) => (set_active (delete k) s, Removed)
  | None =>
      (s, if existsb (λ k, bool_decide (k.1 = tool_name ∧ is_Some (ds_active s !! k))) order
          then SupersededByAnotherJob else NoRecord)
  end.

Definition bump_last_activity (tool_name job_name : string) (now : N) : DispatchState → DispatchState :=
  set_active (map_imap (λ k j,
    Some (if decide (k.1 = tool_name ∧ aj_job_name j = job_name)
          then mkActive (aj_job_name j) (aj_job_id j) (aj_tool_name j) (aj_keepalive_seconds j)
                        (aj_grant j) now
          else j))).

(** ** The tasks *)

(** A call as [begin_call] has it once its toolset is looked up. *)
Record CallReq : Type := mkCallReq {
  cr_id : string; cr_tool : string; cr_args : gmap string string; cr_grant : option string;
  cr_keepalive : bool }.

Definition begin_lookup (toolsets : gmap string ToolsetEntry) (tool_name toolset_name : string)
    (args : gmap string string) (grant : option (string * CapabilityGrant)) (call_id : string)
  : result CallReq string :=
  let? entry := ok_or (toolsets !! toolset_name) ("toolset " +:+ toolset_name +:+ " not found") in
  Ok (mkCallReq call_id tool_name args (fst <$> grant) (te_keepalive entry)).

Definition cr_key (r : CallReq) : ActiveKey := (cr_tool r, cr_grant r).

(** The name [build_tool_job] gives the Job of a call. *)
Definition tool_job_name (r : CallReq) : string :=
  "tool-" +:+ tool_name_to_k8s_segment (cr_tool r) +:+ "-" +:+ str_of (take 8 (B (cr_id r))).

Definition keepalive_seconds (r : CallReq) : N :=
  if cr_keepalive r then TOOL_KEEPALIVE_IDLE_SECONDS else 0.

Definition pending_of (r : CallReq) (target_job_id : string) : PendingCall :=
  mkPending (cr_id r) (cr_tool r) (cr_args r) WORKSPACE_MOUNT_PATH (cr_grant r) target_job_id.

Inductive BeginPhase : Type :=
| BLock | BChoose | BCreate | BRecord
| BSend (target_job_id target_job_name : string)
| BShadow (target_job_id target_job_name : string)
| BToken (target_job_id target_job_name : string)
| BEnqueue (target_job_id target_job_name : string)
| BCheck (target_job_id target_job_name : string)
| BRemove (target_job_id target_job_name : string)
| BFinishToken | BFinishShadow | BTake | BDrop.

Inductive DriverPhase : Type :=
| DClaim
| DToken (call : PendingCall)
| DTake (call : PendingCall) (registered : bool)
| DShadow (call : PendingCall) (registered : bool)
| DRun (call : PendingCall) (registered : bool) (tool : string)
| DFinishToken (call : PendingCall) (tool : string) (completed : bool)
| DFinishShadow (call : PendingCall) (tool : string) (completed : bool)
| DSettle (tool : string) (completed : bool)
| DEvict
| DRead (evicted : list PendingCall)
| DTxs (evicted : list PendingCall) (ids : list string)
| DUnshadow (evicted : list PendingCall) (ids guards : list string)
| DFire (evicted : list PendingCall).

Inductive Task : Type :=
| TBegin (r : CallReq) (phase : BeginPhase)
| TDriver (tool_name target_job_id job_name : string) (phase : DriverPhase).

(** The shared state with its history: the calls begun, the jobs created (by
    the id of the call that spawned them), what ran where, and the calls
    [begin_call] returned [Ok] for. *)
Record Shared : Type := mkShared {
  sh_state : DispatchState; sh_calls : gmap string CallReq; sh_jobs : gset string;
  sh_ran : list (string * PendingCall); sh_accepted : gset string }.

Definition with_state (f : DispatchState → DispatchState) (w : Shared) : Shared :=
  mkShared (f (sh_state w)) (sh_calls w) (sh_jobs w) (sh_ran w) (sh_accepted w).
Definition add_job (id : string) (w : Shared) : Shared :=
  mkShared (sh_state w) (sh_calls w) ({[id]} ∪ sh_jobs w) (sh_ran w) (sh_accepted w).
Definition add_run (job_id : string) (call : PendingCall) (w : Shared) : Shared :=
  mkShared (sh_state w) (sh_calls w) (sh_jobs w) (sh_ran w ++ [(job_id, call)]) (sh_accepted w).
Definition add_accepted (id : string) (w : Shared) : Shared :=
  mkShared (sh_state w) (sh_calls w) (sh_jobs w) (sh_ran w) ({[id]} ∪ sh_accepted w).

Record StepEnv : Type := mkStepEnv {
  ev_now : N; ev_created : bool; ev_order : list ActiveKey; ev_run : PodRun }.

(** [begin_call]; [None] when the task has to wait for the lock. *)
Definition begin_step (e : StepEnv) (r : CallReq) (phase : BeginPhase) (w : Shared)
  : option (Shared * list Task) :=
  let next ph w := Some (w, [TBegin r ph]) in
  let unlock := set_locks (.∖ {[cr_tool r]}) in
  match phase with
  | BLock =>
      if decide (cr_tool r ∈ ds_locks (sh_state w)) then None
      else next BChoose (with_state (set_locks ({[cr_tool r]} ∪.)) w)
  | BChoose =>
      match get_active_job (cr_key r) (sh_state w) with
      | Some active =>
          if attachable active (ev_now e)
          then next (BSend (aj_job_id active) (aj_job_name active)) (with_state unlock w)
          else next BCreate w
      | None => next BCreate w
      end
  | BCreate =>
      if ev_created e then next BRecord (add_job (cr_id r) w)
      else Some (with_state unlock w, [])
  | BRecord =>
      next (BSend (cr_id r) (tool_job_name r))
        (with_state (λ s, unlock (set_active_job
           (mkActive (tool_job_name r) (cr_id r) (cr_tool r)
                     (keepalive_seconds r) (cr_grant r) (ev_now e)) s)) w)
  | BSend job name =>
      next (BShadow job name)
        (with_state (λ s, set_txs ({[cr_id r]} ∪.) (set_channels (insert (cr_id r) (mkChannel [] true)) s)) w)
  | BShadow job name => next (BToken job name) (with_state (set_shadow (insert (cr_id r) (cr_tool r))) w)
  | BToken job name => next (BEnqueue job name) (with_state (set_tokens ({[cr_id r]} ∪.)) w)
  | BEnqueue job name => next (BCheck job name) (with_state (enqueue_call (pending_of r job)) w)
  | BCheck job name =>
      let retired :=
        str_is_empty job ||
        match get_active_job (cr_key r) (sh_state w) with
        | Some active => negb (bool_decide (aj_job_id active = job))
        | None => true
        end in
      if retired then next (BRemove job name) w
      else Some (add_accepted (cr_id r) w, [TDriver (cr_tool r) job name DClaim])
  | BRemove job name =>
      let '(s, removed) := remove_pending_call (cr_tool r) (cr_grant r) (cr_id r) (sh_state w) in
      if removed then next BFinishToken (with_state (λ _, s) w)
      else Some (add_accepted (cr_id r) (with_state (λ _, s) w), [TDriver (cr_tool r) job name DClaim])
  | BFinishToken => next BFinishShadow (with_state (set_tokens (.∖ {[cr_id r]})) w)
  | BFinishShadow => next BTake (with_state (set_shadow (delete (cr_id r))) w)
  | BTake =>
      if decide (cr_id r ∈ ds_result_txs (sh_state w))
      then next BDrop (with_state (set_txs (.∖ {[cr_id r]})) w) else Some (w, [])
  | BDrop => Some (with_state (λ s, drop_guard s (cr_id r)) w, [])
  end.

(** The spawned task of [spawn_dial_driver], with [retire_calls_for_tool_job]. *)
Definition driver_step (e : StepEnv) (tool_name target_job_id job_name : string) (phase : DriverPhase)
    (w : Shared) : option (Shared * list Task) :=
  let next ph w := Some (w, [TDriver tool_name target_job_id job_name ph]) in
  match phase with
  | DClaim =>
      match dequeue_call (ev_order e) tool_name target_job_id (sh_state w) with
      | (s, Some call) => next (DToken call) (with_state (λ _, s) w)
      | (s, None) => Some (with_state (λ _, s) w, [])
      end
  | DToken call => next (DTake call (bool_decide (pc_call_id call ∈ ds_tokens (sh_state w)))) w
  | DTake call registered =>
      if decide (pc_call_id call ∈ ds_result_txs (sh_state w))
      then next (DShadow call registered) (with_state (set_txs (.∖ {[pc_call_id call]})) w)
      else Some (w, [])
  | DShadow call registered =>
      next (DRun call registered (default "" (ds_call_ids (sh_state w) !! pc_call_id call))) w
  | DRun call registered tool =>
      if existsb (λ a, match a with DialCancelled => true | _ => false end) (pr_attempts (ev_run e))
         && negb (registered && bool_decide (pc_call_id call ∈ ds_cancelled (sh_state w)))
      then None
      else
        let '(frames, completed) := dial_and_run (ev_run e) in
        next (DFinishToken call tool completed)
          (add_run target_job_id call
             (with_state (set_channels (alter (λ c, mkChannel (ch_frames c ++ frames) false)
                                              (pc_call_id call))) w))
  | DFinishToken call tool completed =>
      next (DFinishShadow call tool completed) (with_state (set_tokens (.∖ {[pc_call_id call]})) w)
  | DFinishShadow call tool completed =>
      next (DSettle tool completed) (with_state (set_shadow (delete (pc_call_id call))) w)
  | DSettle tool completed =>
      if completed then Some (with_state (bump_last_activity tool job_name (ev_now e)) w, [])
      else
        match remove_active_job_named (ev_order e) tool_name job_name (sh_state w) with
        | (s, Removed) => next DEvict (with_state (λ _, s) w)
        | (s, _) => Some (with_state (λ _, s) w, [])
        end
  | DEvict =>
      let mine := filter (λ x : ActiveKey * list PendingCall, x.1.1 = tool_name) (ds_pending (sh_state w)) in
      next (DRead (mjoin (snd <$> map_to_list mine)))
           (with_state (set_pending (.∖ mine)) w)
  | DRead evicted =>
      next (DTxs evicted (fst <$> map_to_list (filter (λ x : string * string, x.2 = tool_name) (ds_call_ids (sh_state w))))) w
  | DTxs evicted ids =>
      next (DUnshadow evicted ids (filter (.∈ ds_result_txs (sh_state w)) ids))
           (with_state (set_txs (.∖ list_to_set ids)) w)
  | DUnshadow evicted ids guards =>
      next (DFire evicted)
        (with_state (λ s, drop_guards guards (set_shadow (λ m, foldr delete m ids) s)) w)
  | DFire [] => Some (w, [])
  | DFire (c :: evicted) => next (DFire evicted) (with_state (λ s, (fire_call_cancel (pc_call_id c) s).1) w)
  end.

Definition task_step (e : StepEnv) (t : Task) (w : Shared) : option (Shared * list Task) :=
  match t with
  | TBegin r phase => begin_step e r phase w
  | TDriver tool_name target_job_id job_name phase => driver_step e tool_name target_job_id job_name phase w
  end.

(** A hash map is met in some order, all of it. *)
Definition order_ok (e : StepEnv) (w : Shared) : Prop :=
  (∀ k, is_Some (ds_pending (sh_state w) !! k) → k ∈ ev_order e) ∧
  (∀ k, is_Some (ds_active (sh_state w) !! k) → k ∈ ev_order e).

Definition begin_call (r : CallReq) (w : Shared) : Shared :=
  mkShared (sh_state w) (<[cr_id r := r]> (sh_calls w)) (sh_jobs w) (sh_ran w) (sh_accepted w).

(** One step of the system: a call begins under a fresh id, a task moves, or
    somebody cancels a call; [P] restricts the environment. *)
Inductive sys_step (P : StepEnv → Prop) : Shared * list Task → Shared * list Task → Prop :=
| StepBegin r w ts :
    sh_calls w !! cr_id r = None → cr_id r ≠ "" →
    sys_step P (w, ts) (begin_call r w, ts ++ [TBegin r BLock])
| StepTask e ts1 t ts2 w w' new :
    P e → order_ok e w → task_step e t w = Some (w', new) →
    sys_step P (w, ts1 ++ t :: ts2) (w', ts1 ++ new ++ ts2)
| StepCancel id w ts :
    sys_step P (w, ts) (with_state (λ s, (fire_call_cancel id s).1) w, ts).

Definition sys_init : Shared * list Task := (mkShared dispatch_new ∅ ∅ [] ∅, []).
Definition sys_reach (P : StepEnv → Prop) (sys : Shared * list Task) : Prop :=
  rtc (sys_step P) sys_init sys.

(** ** Grant isolation *)

(** Job [job_id] was created for [k]. *)
Definition job_key (w : Shared) (job_id : string) (k : ActiveKey) : Prop :=
  job_id ∈ sh_jobs w ∧ ∃ r, sh_calls w !! job_id = Some r ∧ cr_key r = k.

Definition pc_key (c : PendingCall) : ActiveKey := (pc_tool_name c, pc_grant c).

Definition begin_job (phase : BeginPhase) : option string :=
  match phase with
  | BSend job _ | BShadow job _ | BToken job _ | BEnqueue job _ | BCheck job _ | BRemove job _ => Some job
  | _ => None
  end.

Definition driver_call (phase : DriverPhase) : option PendingCall :=
  match phase with
  | DToken c | DTake c _ | DShadow c _ | DRun c _ _ | DFinishToken c _ _ | DFinishShadow c _ _ => Some c
  | _ => None
  end.

Definition task_iso (w : Shared) (t : Task) : Prop :=
  match t with
  | TBegin r phase =>
      sh_calls w !! cr_id r = Some r ∧
      (phase = BRecord → cr_id r ∈ sh_jobs w) ∧
      (∀ job, begin_job phase = Some job → job_key w job (cr_key r))
  | TDriver tool job _ phase =>
      (∃ g, job_key w job (tool, g)) ∧
      (∀ c, driver_call phase = Some c → pc_target_job_id c = job ∧ job_key w job (pc_key c))
  end.

Record iso (w : Shared) (ts : list Task) : Prop := mkIso {
  iso_active k a : ds_active (sh_state w) !! k = Some a → job_key w (aj_job_id a) k;
  iso_pending k cs c : ds_pending (sh_state w) !! k = Some cs → c ∈ cs →
    pc_key c = k ∧ job_key w (pc_target_job_id c) k;
  iso_tasks t : t ∈ ts → task_iso w t;
  iso_ran job c : (job, c) ∈ sh_ran w → pc_target_job_id c = job ∧ job_key w job (pc_key c) }.

Definition grows (w w' : Shared) : Prop := sh_calls w ⊆ sh_calls w' ∧ sh_jobs w ⊆ sh_jobs w'.

#[export] Instance grows_po : PreOrder grows.
Proof. split; [by intros ?|]. intros ??? [] []. split; by etrans. Qed.

Lemma job_key_grows w w' job k : grows w w' → job_key w job k → job_key w' job k.
Proof.
  intros [Hc Hj] (H & r & Hr & Hk). split; [set_solver|]. exists r. split; [|done].
  by eapply lookup_weaken.
Qed.

Lemma task_iso_grows w w' t : grows w w' → task_iso w t → task_iso w' t.
Proof.
  intros Hg. destruct t as [r ph|tool job name ph]; simpl.
  - intros (Hr & Hb & Hj). split_and!; [by eapply lookup_weaken; [|apply Hg]| |].
    + intros E. apply Hg, Hb, E.
    + intros. eapply job_key_grows; eauto.
  - intros ((g & Hg') & Hc). split.
    + exists g. by eapply job_key_grows.
    + intros c E. destruct (Hc c E). split; [done|]. by eapply job_key_grows.
Qed.

Lemma take_targeted_Some job cs c rest :
  take_targeted job cs = Some (c, rest) →
  pc_target_job_id c = job ∧ cs ≡ₚ c :: rest.
Proof.
  revert rest. induction cs as [|x cs IH]; intros rest; simpl; [done|].
  case_decide as Hx; [by intros [= -> ->]|].
  destruct (take_targeted job cs) as [[c' rest']|]; simpl; [|done]. intros [= -> <-].
  destruct (IH rest' eq_refl) as [-> H]. split; [done|]. rewrite H. constructor.
Qed.

Lemma take_targeted_None job cs :
  take_targeted job cs = None → ∀ c, c ∈ cs → pc_target_job_id c ≠ job.
Proof.
  induction cs as [|x cs IH]; simpl; [set_solver|]. case_decide; [done|].
  destruct (take_targeted job cs); [done|]. set_solver.
Qed.

Lemma dequeue_from_Some tool job order m c m' :
  dequeue_from tool job order m = Some (c, m') →
  ∃ k cs rest, k.1 = tool ∧ m !! k = Some cs ∧ pc_target_job_id c = job ∧ cs ≡ₚ c :: rest ∧
    m' = <[k := rest]> m.
Proof.
  induction order as [|k order IH]; simpl; [done|]. case_decide as Hk; [|done].
  destruct (m !! k) as [cs|] eqn:E; simpl; [|done].
  destruct (take_targeted job cs) as [[c' rest]|] eqn:Et; [|done]. intros [= -> <-].
  apply take_targeted_Some in Et as [Hj Hp]. by exists k, cs, rest.
Qed.

Lemma dequeue_from_None tool job order m :
  dequeue_from tool job order m = None →
  ∀ k cs c, k ∈ order → k.1 = tool → m !! k = Some cs → c ∈ cs → pc_target_job_id c ≠ job.
Proof.
  induction order as [|k order IH]; simpl; [set_solver|]. case_decide as Hk.
  - destruct (m !! k) as [cs|] eqn:E; simpl.
    + destruct (take_targeted job cs) as [[]|] eqn:Et; [done|]. intros Hn k' cs' c Hin Ht Hl Hc.
      apply elem_of_cons in Hin as [->|Hin]; [|by eapply IH].
      rewrite E in Hl. injection Hl as <-. by eapply take_targeted_None.
    + intros Hn k' cs' c Hin Ht Hl Hc. apply elem_of_cons in Hin as [->|Hin]; [congruence|by eapply IH].
  - intros Hn k' cs' c Hin Ht Hl Hc. apply elem_of_cons in Hin as [->|Hin]; [done|by eapply IH].
Qed.

Lemma iso_frame w w' ts1 t ts2 new :
  iso w (ts1 ++ t :: ts2) → grows w w' → (∀ t', t' ∈ new → task_iso w' t') →
  (∀ k a, ds_active (sh_state w') !! k = Some a →
     (∃ a0, ds_active (sh_state w) !! k = Some a0 ∧ aj_job_id a0 = aj_job_id a) ∨ job_key w' (aj_job_id a) k) →
  (∀ k cs c, ds_pending (sh_state w') !! k = Some cs → c ∈ cs →
     (∃ cs0, ds_pending (sh_state w) !! k = Some cs0 ∧ c ∈ cs0) ∨
     (pc_key c = k ∧ job_key w' (pc_target_job_id c) k)) →
  (∀ job c, (job, c) ∈ sh_ran w' →
     (job, c) ∈ sh_ran w ∨ (pc_target_job_id c = job ∧ job_key w' job (pc_key c))) →
  iso w' (ts1 ++ new ++ ts2).
Proof.
  intros [Ia Ip It Ir] Hg Hn Ha Hp Hr. split.
  - intros k a E. destruct (Ha k a E) as [(a0 & E0 & <-)|]; [|done].
    eapply job_key_grows; [done|]. by apply Ia.
  - intros k cs c E Hc. destruct (Hp k cs c E Hc) as [(cs0 & E0 & Hc0)|]; [|done].
    destruct (Ip k cs0 c E0 Hc0). split; [done|]. by eapply job_key_grows.
  - intros t' [H|[H|H]%elem_of_app]%elem_of_app; [|by apply Hn|]; eapply task_iso_grows; try done;
      apply It; set_solver.
  - intros job c E. destruct (Hr job c E) as [E0|]; [|done].
    destruct (Ir job c E0). split; [done|]. by eapply job_key_grows.
Qed.

Lemma filter_length_all {A} (P : A → Prop) `{∀ x, Decision (P x)} l :
  length (filter P l) = length l → Forall P l.
Proof.
  induction l as [|x l IH]; [done|]. rewrite filter_cons. case_decide as Hx; simpl; intros Hl.
  - constructor; [done|]. apply IH. lia.
  - pose proof (length_filter P l). lia.
Qed.

Lemma remove_pending_call_spec tool grant id s s' b :
  remove_pending_call tool grant id s = (s', b) →
  s' = set_pending (λ m, match m !! (tool, grant) with
                         | Some cs => <[(tool, grant) := filter (λ c, pc_call_id c ≠ id) cs]> m
                         | None => m end) s ∧
  (b = true ↔ ∃ cs c, ds_pending s !! (tool, grant) = Some cs ∧ c ∈ cs ∧ pc_call_id c = id).
Proof.
  unfold remove_pending_call. destruct (ds_pending s !! (tool, grant)) as [cs|] eqn:E.
  - intros [= <- <-]. split.
    + unfold set_pending. by rewrite E.
    + rewrite negb_true_iff, Nat.eqb_neq. split.
      * intros Hn. destruct (decide (Forall (λ c, pc_call_id c ≠ id) cs)) as [Hf|Hf].
        -- exfalso. apply Hn. clear -Hf. induction Hf as [|c cs Hc _ IH]; [done|].
           rewrite filter_cons_True by done. simpl. lia.
        -- apply not_Forall_Exists in Hf; [|apply _]. apply Exists_exists in Hf as (c & Hc & Hid).
           exists cs, c. split_and!; [done..|]. by apply dec_stable.
      * intros (cs' & c & [= <-] & Hc & Hid) Hl.
        apply filter_length_all in Hl. rewrite Forall_forall in Hl. by apply (Hl c).
  - intros [= <- <-]. split; [unfold set_pending; rewrite E; by destruct s|].
    split; [done|]. by intros (cs & c & ? & _).
Qed.

(** Split a step of a task into the cases of its code. *)
Ltac split_step H :=
  repeat (simpl in H; match type of H with
    | context [match ?x with _ => _ end] => destruct x eqn:?
    end); simplify_eq/=.

Lemma begin_step_iso e r ph w w' new ts1 ts2 :
  iso w (ts1 ++ TBegin r ph :: ts2) → begin_step e r ph w = Some (w', new) → iso w' (ts1 ++ new ++ ts2).
Proof.
  intros I H. pose proof (iso_tasks _ _ I (TBegin r ph)) as Ht.
  destruct Ht as (Hr & Hb & Hj); [set_solver|].
  assert (grows w w') as Hg.
  { unfold begin_step in H. split_step H; split; simpl; set_solver. }
  assert (sh_calls w' = sh_calls w) as Hcs by (unfold begin_step in H; split_step H; done).
  eapply (iso_frame w w'); [exact I|exact Hg|..].
  - intros t' Hin. unfold begin_step in H.
    assert (∀ job, begin_job ph = Some job → job_key w' job (cr_key r)) as Hj'
      by (intros; eapply job_key_grows; eauto).
    destruct ph; split_step H; try (by apply not_elem_of_nil in Hin); apply list_elem_of_singleton in Hin;
      subst t'; simpl; rewrite ?Hcs; split_and!; try done; try (intros job [= <-]); auto;
      try (exists (cr_grant r); by apply Hj'); try set_solver.
    + by apply (iso_active _ _ I).
    + split; [simpl; auto|]. exists r. done.
  - destruct ph; unfold begin_step in H; split_step H; try (intros k' a' E'; left; by eauto).
    + intros k a. simpl. intros [[<- <-]|[_ E]]%lookup_insert_Some; [right|left; eauto].
      split; [by apply Hb|]. exists r. done.
    + apply remove_pending_call_spec in Heqp as [-> _]. intros k a E. left. eauto.
    + apply remove_pending_call_spec in Heqp as [-> _]. intros k a E. left. eauto.
  - destruct ph; unfold begin_step in H; split_step H; try (intros k' cs' c' E' Hc'; left; by eauto).
    + intros k cs c. simpl. intros [[<- <-]|[_ E]]%lookup_insert_Some Hc; [|left; eauto].
      apply elem_of_app in Hc as [Hc| ->%list_elem_of_singleton].
      * left. destruct (ds_pending (sh_state w) !! _) as [cs|] eqn:E; [eauto|set_solver].
      * right. split; [done|]. simpl. by apply Hj.
    + intros k cs c. simpl. apply remove_pending_call_spec in Heqp as [-> _]. simpl.
      destruct (ds_pending (sh_state w) !! (cr_tool r, cr_grant r)) as [cs0|] eqn:E0; [|eauto].
      intros [[<- <-]|[_ E]]%lookup_insert_Some Hc; left; [|by eauto].
      apply list_elem_of_filter in Hc as []. eauto.
    + intros k cs c. simpl. apply remove_pending_call_spec in Heqp as [-> _]. simpl.
      destruct (ds_pending (sh_state w) !! (cr_tool r, cr_grant r)) as [cs0|] eqn:E0; [|eauto].
      intros [[<- <-]|[_ E]]%lookup_insert_Some Hc; left; [|by eauto].
      apply list_elem_of_filter in Hc as []. eauto.
  - destruct ph; unfold begin_step in H; split_step H; by left.
Qed.

Lemma drop_guards_other ids s :
  ds_active (drop_guards ids s) = ds_active s ∧ ds_pending (drop_guards ids s) = ds_pending s ∧
  ds_result_txs (drop_guards ids s) = ds_result_txs s ∧ ds_call_ids (drop_guards ids s) = ds_call_ids s ∧
  ds_locks (drop_guards ids s) = ds_locks s.
Proof. revert s. induction ids as [|id ids IH]; intros s; simpl; [done|]. by destruct (IH (drop_guard s id)). Qed.

Lemma fire_call_cancel_other id s :
  ds_active (fire_call_cancel id s).1 = ds_active s ∧ ds_pending (fire_call_cancel id s).1 = ds_pending s ∧
  ds_result_txs (fire_call_cancel id s).1 = ds_result_txs s ∧
  ds_call_ids (fire_call_cancel id s).1 = ds_call_ids s ∧
  ds_channels (fire_call_cancel id s).1 = ds_channels s.
Proof. unfold fire_call_cancel. by case_decide. Qed.

Lemma dequeue_call_spec order tool job s s' o :
  dequeue_call order tool job s = (s', o) →
  match o with
  | Some c => ∃ k cs rest, k.1 = tool ∧ ds_pending s !! k = Some cs ∧ pc_target_job_id c = job ∧
                cs ≡ₚ c :: rest ∧ s' = set_pending (λ _, <[k := rest]> (ds_pending s)) s
  | None => s' = s ∧ (job = "" ∨ ∀ k cs c, k ∈ order → k.1 = tool → ds_pending s !! k = Some cs →
                       c ∈ cs → pc_target_job_id c ≠ job)
  end.
Proof.
  unfold dequeue_call, str_is_empty. case_bool_decide as Hj; [intros [= <- <-]; by auto|].
  destruct (dequeue_from _ _ _ _) as [[c m]|] eqn:E; intros [= <- <-].
  - apply dequeue_from_Some in E as (k & cs & rest & ? & ? & ? & ? & ->). by exists k, cs, rest.
  - split; [done|]. right. by apply dequeue_from_None.
Qed.

Lemma remove_active_job_named_spec order tool name s s' o :
  remove_active_job_named order tool name s = (s', o) →
  ∃ f, s' = set_active f s ∧ ∀ m k, f m !! k = m !! k ∨ f m !! k = None.
Proof.
  unfold remove_active_job_named. destruct (list_find _ _) as [[i k]|]; intros [= <- <-].
  - exists (delete k). split; [done|]. intros m k'. destruct (decide (k = k')) as [->|Hn].
    + right. by rewrite lookup_delete_eq.
    + left. by rewrite lookup_delete_ne.
  - exists (λ m, m). split; [by destruct s|auto].
Qed.

(** What a driver step leaves of the queue and the records. *)
Lemma driver_step_frame e tool job name ph w w' new :
  driver_step e tool job name ph w = Some (w', new) →
  sh_calls w' = sh_calls w ∧ sh_jobs w' = sh_jobs w ∧
  (∀ k a, ds_active (sh_state w') !! k = Some a →
     ∃ a0, ds_active (sh_state w) !! k = Some a0 ∧ aj_job_id a0 = aj_job_id a) ∧
  (∀ k cs c, ds_pending (sh_state w') !! k = Some cs → c ∈ cs →
     ∃ cs0, ds_pending (sh_state w) !! k = Some cs0 ∧ c ∈ cs0).
Proof.
  intros H. unfold driver_step in H. destruct ph; split_step H; split_and!; try done; try (by eauto).
  - apply dequeue_call_spec in Heqp as (k & cs & rest & _ & _ & _ & _ & ->). by eauto.
  - apply dequeue_call_spec in Heqp as (k & cs & rest & _ & Hl & _ & Hp & ->). simpl.
    intros k' cs' c [[<- <-]|[_ E]]%lookup_insert_Some Hc; [|by eauto].
    exists cs. split; [done|]. rewrite Hp. by right.
  - apply dequeue_call_spec in Heqp as [-> _]. by eauto.
  - apply dequeue_call_spec in Heqp as [-> _]. by eauto.
  - intros k a. rewrite map_lookup_imap. destruct (ds_active (sh_state w) !! k); simpl; [|done].
    intros [= <-]. case_decide; eauto.
  - apply remove_active_job_named_spec in Heqp as (f & -> & Hf). simpl. intros k a E.
    destruct (Hf (ds_active (sh_state w)) k) as [E'|E']; rewrite E' in E; eauto; done.
  - apply remove_active_job_named_spec in Heqp as (f & -> & _). by eauto.
  - apply remove_active_job_named_spec in Heqp as (f & -> & Hf). simpl. intros k a E.
    destruct (Hf (ds_active (sh_state w)) k) as [E'|E']; rewrite E' in E; eauto; done.
  - apply remove_active_job_named_spec in Heqp as (f & -> & _). by eauto.
  - apply remove_active_job_named_spec in Heqp as (f & -> & Hf). simpl. intros k a E.
    destruct (Hf (ds_active (sh_state w)) k) as [E'|E']; rewrite E' in E; eauto; done.
  - apply remove_active_job_named_spec in Heqp as (f & -> & _). by eauto.
  - intros k cs c [E _]%lookup_difference_Some. eauto.
  - destruct (drop_guards_other guards (set_shadow (λ m, foldr delete m ids) (sh_state w))) as (-> & _).
    by eauto.
  - destruct (drop_guards_other guards (set_shadow (λ m, foldr delete m ids) (sh_state w))) as (_ & -> & _).
    by eauto.
  - destruct (fire_call_cancel_other (pc_call_id p) (sh_state w)) as (-> & _). by eauto.
  - destruct (fire_call_cancel_other (pc_call_id p) (sh_state w)) as (_ & -> & _). by eauto.
Qed.

Lemma driver_step_iso e tool job name ph w w' new ts1 ts2 :
  iso w (ts1 ++ TDriver tool job name ph :: ts2) → driver_step e tool job name ph w = Some (w', new) →
  iso w' (ts1 ++ new ++ ts2).
Proof.
  intros I H. destruct (driver_step_frame _ _ _ _ _ _ _ _ H) as (Hc & Hj & Ha & Hp).
  assert (grows w w') as Hg by (split; by rewrite ?Hc, ?Hj).
  destruct (iso_tasks _ _ I (TDriver tool job name ph)) as (Hk & Hd); [set_solver|].
  eapply (iso_frame w w'); [exact I|exact Hg|..]; [|by left; eauto|by left; eauto|].
  - intros t' Hin. eapply task_iso_grows; [exact Hg|]. clear Hc Hj Ha Hp Hg. unfold driver_step in H.
    destruct ph; split_step H; try (by apply not_elem_of_nil in Hin); apply list_elem_of_singleton in Hin;
      subst t'; split; auto; intros c' [= <-]; try by apply Hd.
    apply dequeue_call_spec in Heqp as (k & cs & rest & Ht & Hl & Hj & Hp & ->). split; [done|].
    destruct (iso_pending _ _ I k cs p Hl) as [Hkey Hjob]; [rewrite Hp; by left|].
    rewrite Hkey, <- Hj. done.
  - intros job' c' Hin. clear Hc Hj Ha Hp. unfold driver_step in H.
    destruct ph; split_step H; try (by left). apply elem_of_app in Hin as [Hin|Hin]; [by left|right].
    apply list_elem_of_singleton in Hin. injection Hin as -> ->.
    destruct (Hd call eq_refl) as [-> Hjk]. split; [done|]. by eapply job_key_grows.
Qed.

Lemma sys_reach_iso P sys : sys_reach P sys → iso sys.1 sys.2.
Proof.
  revert sys. apply (rtc_ind_r (λ sys, iso sys.1 sys.2)); [split; simpl; intros; set_solver|].
  intros y z _ Hs IH. destruct Hs; simpl in *.
  - destruct IH as [Ia Ip It Ir].
    assert (grows w (begin_call r w)) as Hg by (split; [by apply insert_subseteq|done]).
    split; simpl.
    + intros k a E. eapply job_key_grows; eauto.
    + intros k cs c E Hc. destruct (Ip k cs c E Hc). split; [done|]. by eapply job_key_grows.
    + intros t [Hin|Hin]%elem_of_app; [eapply task_iso_grows; eauto|].
      apply list_elem_of_singleton in Hin as ->. simpl. split_and!; [by rewrite lookup_insert_eq|done..].
    + intros job c E. destruct (Ir job c E). split; [done|]. by eapply job_key_grows.
  - destruct t; [by eapply begin_step_iso|by eapply driver_step_iso].
  - destruct IH as [Ia Ip It Ir].
    destruct (fire_call_cancel_other id (sh_state w)) as (Ea & Ep & _). split; simpl; rewrite ?Ea, ?Ep; auto.
Qed.


(** ** No call is left waiting

    The sender of an accepted call's channel is parked in the state or held by
    exactly one task until the channel is closed behind a terminal frame; and
    while it is parked, some task is on its way to it. *)

Definition occ (c : string) (l : list string) : nat := length (filter (c =.) l).

Lemma occ_app c l k : occ c (l ++ k) = occ c l + occ c k.
Proof. unfold occ. by rewrite filter_app, length_app. Qed.

Lemma occ_cons c x l : occ c (x :: l) = (if decide (c = x) then 1 else 0) + occ c l.
Proof. unfold occ. rewrite filter_cons. by case_decide. Qed.

Lemma occ_elem c l : 0 < occ c l ↔ c ∈ l.
Proof.
  induction l as [|x l IH]; [split; [unfold occ; simpl; lia|set_solver]|].
  rewrite occ_cons, elem_of_cons, <- IH. case_decide; [|naive_solver lia]. subst. split; [auto|lia].
Qed.

Lemma occ_nodup c l : NoDup l → occ c l ≤ 1.
Proof.
  induction 1 as [|x l Hx _ IH]; [unfold occ; simpl; lia|]. rewrite occ_cons. case_decide; [|lia]. subst.
  rewrite <- occ_elem in Hx. lia.
Qed.

(** The senders a task holds, the call a [begin_call] is about, and the job a
    task will claim a call of. *)
Definition holds (t : Task) : list string :=
  match t with
  | TBegin r BDrop => [cr_id r]
  | TDriver _ _ _ (DShadow c _) | TDriver _ _ _ (DRun c _ _) => [pc_call_id c]
  | TDriver _ _ _ (DUnshadow _ _ guards) => guards
  | _ => []
  end.

Definition begins (t : Task) : list string := match t with TBegin r _ => [cr_id r] | _ => [] end.

Definition claims (t : Task) : list string :=
  match t with
  | TBegin _ (BCheck job _) | TBegin _ (BRemove job _) | TDriver _ job _ DClaim => [job]
  | _ => []
  end.

Definition has_channel (s : DispatchState) (c : string) : Prop := is_Some (ds_channels s !! c).
Definition is_closed (s : DispatchState) (c : string) : Prop :=
  ∃ ch, ds_channels s !! c = Some ch ∧ ch_open ch = false.
Definition parked (s : DispatchState) (c : string) : nat :=
  if decide (c ∈ ds_result_txs s) then 1 else 0.
Definition opened (s : DispatchState) (c : string) : nat :=
  match ds_channels s !! c with Some ch => if ch_open ch then 1 else 0 | None => 0 end.
Definition in_pending (s : DispatchState) (k : ActiveKey) (p : PendingCall) : Prop :=
  ∃ cs, ds_pending s !! k = Some cs ∧ p ∈ cs.

(** Where a [begin_call] is. *)
Definition early (phase : BeginPhase) : bool :=
  match phase with BLock | BChoose | BCreate | BRecord | BSend _ _ => true | _ => false end.
Definition published (phase : BeginPhase) : option string :=
  match phase with BCheck job _ | BRemove job _ => Some job | _ => None end.

Definition task_inv (s : DispatchState) (t : Task) : Prop :=
  match t with
  | TBegin r phase =>
      (if early phase then ds_channels s !! cr_id r = None else has_channel s (cr_id r)) ∧
      (∀ k p, in_pending s k p → pc_call_id p = cr_id r → published phase = Some (pc_target_job_id p)) ∧
      (match phase with
       | BToken _ _ | BEnqueue _ _ =>
           cr_id r ∈ ds_result_txs s → ds_call_ids s !! cr_id r = Some (cr_tool r)
       | _ => True
       end)
  | TDriver _ _ _ phase =>
      match phase with
      | DFinishToken c _ _ | DFinishShadow c _ _ => is_closed s (pc_call_id c)
      | DTxs _ ids => NoDup ids ∧ ∀ c, c ∈ ids → has_channel s c
      | DUnshadow _ ids _ => ∀ c, c ∈ ids → has_channel s c ∧ c ∉ ds_result_txs s
      | _ => True
      end
  end.

(** What covers a parked sender. *)
Definition covers (s : DispatchState) (c : string) (t : Task) : Prop :=
  match t with
  | TBegin r phase =>
      cr_id r = c ∧ match phase with
                    | BShadow _ _ | BToken _ _ | BEnqueue _ _ | BFinishToken | BFinishShadow | BTake => True
                    | _ => False
                    end
  | TDriver tool _ _ phase =>
      match phase with
      | DToken p | DTake p _ => pc_call_id p = c
      | DRead evicted => (∃ p, p ∈ evicted ∧ pc_call_id p = c) ∧ ds_call_ids s !! c = Some tool
      | DTxs _ ids => c ∈ ids
      | _ => False
      end
  end.

Definition waiting (s : DispatchState) (job : string) (k : ActiveKey) : nat :=
  length (filter (λ p, pc_target_job_id p = job) (default [] (ds_pending s !! k))).

(** At most one terminal, at the end; exactly one unless a full channel may
    swallow the synthetic one. *)
Definition ends_once (strict : Prop) (frames : list ToolResultFrame) : Prop :=
  ∃ body last, frames = body ++ last ∧ Forall (λ f, is_terminal_frame f = false) body ∧
    Forall (λ f, is_terminal_frame f = true) last ∧ length last ≤ 1 ∧ (strict → length last = 1).

Definition always_room (P : StepEnv → Prop) : Prop := ∀ e, P e → pr_room (ev_run e) = true.

Definition channel_wf (P : StepEnv → Prop) (ch : Channel) : Prop :=
  if ch_open ch then ch_frames ch = [] else ends_once (always_room P) (ch_frames ch).

Record inv (P : StepEnv → Prop) (w : Shared) (ts : list Task) : Prop := mkInv {
  inv_hold c : parked (sh_state w) c + occ c (ts ≫= holds) = opened (sh_state w) c;
  inv_wf c ch : ds_channels (sh_state w) !! c = Some ch → channel_wf P ch;
  inv_begin c : occ c (ts ≫= begins) ≤ 1;
  inv_dom c : has_channel (sh_state w) c → is_Some (sh_calls w !! c);
  inv_shadow c : is_Some (ds_call_ids (sh_state w) !! c) → has_channel (sh_state w) c;
  inv_pending k p : in_pending (sh_state w) k p →
    (∃ r, sh_calls w !! pc_call_id p = Some r ∧ cr_key r = k) ∧
    (pc_call_id p ∈ ds_result_txs (sh_state w) →
     ds_call_ids (sh_state w) !! pc_call_id p = Some (pc_tool_name p));
  inv_task t : t ∈ ts → task_inv (sh_state w) t;
  inv_cover c : c ∈ ds_result_txs (sh_state w) →
    (∃ k p, in_pending (sh_state w) k p ∧ pc_call_id p = c) ∨ (∃ t, t ∈ ts ∧ covers (sh_state w) c t);
  inv_claim job r : sh_calls w !! job = Some r →
    waiting (sh_state w) job (cr_key r) ≤ occ job (ts ≫= claims);
  inv_accepted c : c ∈ sh_accepted w → has_channel (sh_state w) c;
  inv_id : sh_calls w !! "" = None }.

(** What a step of a task about the calls [own] may change for the others. *)
Record changes (own : list string) (s s' : DispatchState) : Prop := mkChanges {
  chg_none c : ds_channels s !! c = None → c ∉ own → ds_channels s' !! c = None;
  chg_some c : has_channel s c → has_channel s' c;
  chg_closed c : is_closed s c → is_closed s' c;
  chg_parked c : c ∈ ds_result_txs s' → c ∈ ds_result_txs s ∨ (ds_channels s !! c = None ∧ c ∈ own);
  chg_shadow c : c ∈ ds_result_txs s' → c ∉ own → ds_call_ids s' !! c = ds_call_ids s !! c;
  chg_pending k p : in_pending s' k p → in_pending s k p ∨ pc_call_id p ∈ own }.

Lemma drop_guards_lookup gs s c :
  NoDup gs →
  ds_channels (drop_guards gs s) !! c
  = if decide (c ∈ gs)
    then (λ ch, mkChannel (ch_frames ch ++
            guard_drop (length (ch_frames ch) <? RESULT_CHANNEL_CAPACITY)) false) <$> ds_channels s !! c
    else ds_channels s !! c.
Proof.
  intros Hnd. revert s. induction Hnd as [|g gs Hg _ IH]; intros s; [done|].
  change (drop_guards (g :: gs) s) with (drop_guards gs (drop_guard s g)). rewrite IH.
  simpl. destruct (decide (c = g)) as [->|Hne].
  - rewrite (decide_False (P := g ∈ gs)), (decide_True (P := g ∈ g :: gs)) by set_solver.
    by rewrite lookup_alter_eq.
  - rewrite lookup_alter_ne by done. do 2 case_decide; set_solver.
Qed.

Lemma alter_has_channel (f : Channel → Channel) id s c :
  has_channel (set_channels (alter f id) s) c ↔ has_channel s c.
Proof.
  unfold has_channel. simpl. destruct (decide (c = id)) as [->|Hn].
  - rewrite lookup_alter_eq. apply fmap_is_Some.
  - by rewrite lookup_alter_ne.
Qed.

Lemma drop_guards_has_channel gs s c : has_channel (drop_guards gs s) c ↔ has_channel s c.
Proof.
  revert s. induction gs as [|g gs IH]; intros s; [done|].
  change (drop_guards (g :: gs) s) with (drop_guards gs (drop_guard s g)). rewrite IH.
  apply alter_has_channel.
Qed.

Lemma alter_closed (f : Channel → Channel) id s c :
  (∀ ch, ch_open (f ch) = false) → is_closed s c → is_closed (set_channels (alter f id) s) c.
Proof.
  intros Hf (ch & Hc & Ho). unfold is_closed. simpl. destruct (decide (c = id)) as [->|Hn].
  - rewrite lookup_alter_eq, Hc. simpl. eauto.
  - rewrite lookup_alter_ne by done. eauto.
Qed.

Lemma drop_guards_closed gs s c : is_closed s c → is_closed (drop_guards gs s) c.
Proof.
  revert s. induction gs as [|g gs IH]; intros s Hc; [done|].
  change (drop_guards (g :: gs) s) with (drop_guards gs (drop_guard s g)). apply IH.
  by apply alter_closed.
Qed.

Lemma none_has_channel s c : ds_channels s !! c = None ↔ ¬ has_channel s c.
Proof. unfold has_channel. by rewrite eq_None_not_Some. Qed.

Lemma foldr_delete_lookup {V} (ids : list string) (m : gmap string V) c :
  foldr delete m ids !! c = if decide (c ∈ ids) then None else m !! c.
Proof.
  induction ids as [|i ids IH]; simpl; [done|].
  destruct (decide (c = i)) as [->|Hn].
  - rewrite lookup_delete_eq, decide_True by set_solver. done.
  - rewrite lookup_delete_ne, IH by done. do 2 case_decide; set_solver.
Qed.

Lemma changes_refl own s : changes own s s.
Proof. split; eauto. Qed.

Lemma changes_of own (s s' : DispatchState) :
  ds_channels s' = ds_channels s → ds_result_txs s' = ds_result_txs s →
  (∀ c, c ∈ ds_result_txs s → c ∉ own → ds_call_ids s' !! c = ds_call_ids s !! c) →
  (∀ k p, in_pending s' k p → in_pending s k p ∨ pc_call_id p ∈ own) → changes own s s'.
Proof.
  intros Hc Ht Hs Hp. split; unfold has_channel, is_closed; rewrite ?Hc, ?Ht; auto.
Qed.

Lemma begin_step_changes e r ph w w' new :
  begin_step e r ph w = Some (w', new) → task_inv (sh_state w) (TBegin r ph) →
  changes [cr_id r] (sh_state w) (sh_state w').
Proof.
  intros H (Hch & _). unfold begin_step in H. destruct ph; split_step H;
    try (apply changes_of; simpl; by auto).
  - split; unfold has_channel, is_closed; simpl.
    + intros c Hc Hn. rewrite lookup_insert_ne by set_solver. done.
    + intros c Hc. destruct (decide (c = cr_id r)) as [->|Hn].
      * rewrite lookup_insert_eq. eauto.
      * by rewrite lookup_insert_ne.
    + intros c (ch & Hc & Ho). exists ch. rewrite lookup_insert_ne; [done|]. congruence.
    + set_solver.
    + done.
    + by left.
  - apply changes_of; simpl; [done..| |by auto].
    intros c _ Hn. rewrite lookup_insert_ne; set_solver.
  - apply changes_of; simpl; [done..|]. intros k p (cs & Hl & Hp). simpl in Hl.
    apply lookup_insert_Some in Hl as [[<- <-]|[_ Hl]]; [|left; by exists cs].
    apply elem_of_app in Hp as [Hp| ->%list_elem_of_singleton]; [left|right; set_solver].
    destruct (ds_pending (sh_state w) !! _) as [cs|] eqn:E; [by exists cs|set_solver].
  - apply remove_pending_call_spec in Heqp as [-> _]. apply changes_of; simpl; [done..|].
    intros k p (cs & Hl & Hp). simpl in Hl. left.
    destruct (ds_pending (sh_state w) !! (cr_tool r, cr_grant r)) as [cs0|] eqn:E0; [|by exists cs].
    apply lookup_insert_Some in Hl as [[<- <-]|[_ Hl]]; [|by exists cs].
    apply list_elem_of_filter in Hp as [_ Hp]. by exists cs0.
  - apply remove_pending_call_spec in Heqp as [-> _]. apply changes_of; simpl; [done..|].
    intros k p (cs & Hl & Hp). simpl in Hl. left.
    destruct (ds_pending (sh_state w) !! (cr_tool r, cr_grant r)) as [cs0|] eqn:E0; [|by exists cs].
    apply lookup_insert_Some in Hl as [[<- <-]|[_ Hl]]; [|by exists cs].
    apply list_elem_of_filter in Hp as [_ Hp]. by exists cs0.
  - apply changes_of; simpl; [done..| |by auto].
    intros c _ Hn. rewrite lookup_delete_ne; set_solver.
  - split; unfold has_channel, is_closed; simpl; eauto. set_solver.
  - unfold drop_guard. split; eauto; intros c.
    + rewrite !none_has_channel, alter_has_channel. auto.
    + by rewrite alter_has_channel.
    + by apply alter_closed.
Qed.

(** The senders of a closed channel are gone. *)
Lemma closed_not_parked P w ts c : inv P w ts → is_closed (sh_state w) c → c ∉ ds_result_txs (sh_state w).
Proof.
  intros I (ch & Hc & Ho) Hp. pose proof (inv_hold _ _ _ I c) as Hh.
  unfold parked, opened in Hh. rewrite Hc, Ho in Hh. rewrite decide_True in Hh by done. lia.
Qed.

Lemma held_open P w ts t c : inv P w ts → t ∈ ts → c ∈ holds t →
  c ∉ ds_result_txs (sh_state w) ∧ ∃ ch, ds_channels (sh_state w) !! c = Some ch ∧ ch_open ch = true ∧ occ c (ts ≫= holds) = 1.
Proof.
  intros I Ht Hc. pose proof (inv_hold _ _ _ I c) as Hh.
  assert (0 < occ c (ts ≫= holds)) by (apply occ_elem, list_elem_of_bind; eauto).
  unfold parked, opened in Hh. destruct (ds_channels (sh_state w) !! c) as [ch|]; [|lia].
  destruct (ch_open ch) eqn:Eo; [|lia]. case_decide; [lia|]. split; [done|]. exists ch. split_and!; [done..|lia].
Qed.

Lemma driver_step_changes P e tool job name ph w w' new ts :
  driver_step e tool job name ph w = Some (w', new) → inv P w ts →
  TDriver tool job name ph ∈ ts → changes [] (sh_state w) (sh_state w').
Proof.
  intros H I Hin. pose proof (inv_task _ _ _ I _ Hin) as Ht.
  destruct (driver_step_frame _ _ _ _ _ _ _ _ H) as (_ & _ & _ & Hp).
  assert (∀ k p, in_pending (sh_state w') k p → in_pending (sh_state w) k p ∨ pc_call_id p ∈ []) as Hp'.
  { intros k p (cs & Hl & Hc). left. by eapply Hp. }
  clear Hp. unfold driver_step in H. destruct ph; split_step H;
    try (apply changes_of; simpl; by auto).
  - apply dequeue_call_spec in Heqp as (k & cs & rest & _ & _ & _ & _ & ->).
    apply changes_of; simpl; by auto.
  - apply dequeue_call_spec in Heqp as [-> _]. apply changes_of; simpl; by auto.
  - split; unfold has_channel, is_closed; simpl; eauto. set_solver.
  - split; eauto; intros c.
    + rewrite !none_has_channel. simpl. rewrite alter_has_channel. auto.
    + simpl. by rewrite alter_has_channel.
    + by apply alter_closed.
  - apply changes_of; simpl; [done..| |done]. intros c Hc _. rewrite lookup_delete_ne; [done|].
    intros <-. by apply (closed_not_parked P w ts (pc_call_id call)).
  - apply remove_active_job_named_spec in Heqp as (f & -> & _). apply changes_of; simpl; by auto.
  - apply remove_active_job_named_spec in Heqp as (f & -> & _). apply changes_of; simpl; by auto.
  - apply remove_active_job_named_spec in Heqp as (f & -> & _). apply changes_of; simpl; by auto.
  - split; unfold has_channel, is_closed; simpl; eauto. set_solver.
  - set (s1 := set_shadow (λ m, foldr delete m ids) (sh_state w)).
    destruct (drop_guards_other guards s1) as (_ & _ & Et & Es & _). split; simpl; auto; intros c.
    + rewrite !none_has_channel, drop_guards_has_channel. auto.
    + by rewrite drop_guards_has_channel.
    + intros Hc. by apply (drop_guards_closed guards s1).
    + rewrite Et. auto.
    + rewrite Et, Es. intros Hc _. simpl in *. rewrite foldr_delete_lookup, decide_False; [done|].
      intros Hi. by destruct (Ht c Hi).
  - destruct (fire_call_cancel_other (pc_call_id p) (sh_state w)) as (_ & Ep & Et & Es & Ec).
    apply changes_of; simpl; auto. intros c _ _. by rewrite Es.
Qed.

(** Tasks other than the one that moved keep what they rely on. *)
Lemma task_inv_stable own s s' t :
  changes own s s' → (∀ c, c ∈ begins t → c ∉ own) → task_inv s t → task_inv s' t.
Proof.
  intros C Hb. destruct t as [r ph|tool job name ph]; simpl.
  - intros (Hc & Hp & Hs). assert (cr_id r ∉ own) as Ho by (apply Hb; simpl; set_solver).
    split_and!.
    + destruct (early ph); [by eapply chg_none|by eapply chg_some].
    + intros k p Hin Hid. destruct (chg_pending _ _ _ C k p Hin) as [Hin'|Hin'].
      * by eapply Hp.
      * by rewrite Hid in Hin'.
    + destruct ph; auto; intros Hin; rewrite (chg_shadow _ _ _ C) by done; apply Hs;
        by destruct (chg_parked _ _ _ C _ Hin) as [|[]].
  - destruct ph; auto.
    + by apply chg_closed with own.
    + by apply chg_closed with own.
    + intros [Hnd H]. split; [done|]. intros c Hc. eapply chg_some; [done|]. by apply H.
    + intros H c Hc. destruct (H c Hc) as [Hh Hn]. split; [by eapply chg_some|].
      intros Hin. destruct (chg_parked _ _ _ C _ Hin) as [|[Hnone _]]; [done|].
      by apply none_has_channel in Hnone.
Qed.

Lemma covers_stable s s' c t :
  ds_call_ids s' !! c = ds_call_ids s !! c → covers s c t → covers s' c t.
Proof. intros E. destruct t as [r ph|tool job name ph]; [done|]. destruct ph; auto. simpl. by rewrite E. Qed.

Lemma occ_bind {A} (f : A → list string) c (l1 l l2 : list A) :
  occ c ((l1 ++ l ++ l2) ≫= f) = occ c (l1 ≫= f) + occ c (l ≫= f) + occ c (l2 ≫= f).
Proof. rewrite !bind_app, !occ_app. lia. Qed.

Lemma occ_bind_cons {A} (f : A → list string) c (l1 : list A) t l2 :
  occ c ((l1 ++ t :: l2) ≫= f) = occ c (l1 ≫= f) + occ c (f t) + occ c (l2 ≫= f).
Proof. rewrite bind_app, bind_cons, !occ_app. lia. Qed.

Lemma occ_zero c l : c ∉ l → occ c l = 0.
Proof. intros H. destruct (Nat.eq_0_gt_0_cases (occ c l)) as [|H']; [done|]. by apply occ_elem in H'. Qed.

Lemma occ_NoDup l : (∀ c, occ c l ≤ 1) → NoDup l.
Proof.
  induction l as [|x l IH]; intros H; constructor.
  - intros Hx%occ_elem. specialize (H x). rewrite occ_cons, decide_True in H by done. lia.
  - apply IH. intros c. specialize (H c). rewrite occ_cons in H. lia.
Qed.

Lemma guards_nodup P w ts t : inv P w ts → t ∈ ts → NoDup (holds t).
Proof.
  intros I Ht. apply occ_NoDup. intros c. destruct (decide (c ∈ holds t)) as [Hc|Hc].
  - destruct (held_open P w ts t c I Ht Hc) as (_ & ch & _ & _ & Ho).
    apply list_elem_of_split in Ht as (l1 & l2 & ->). rewrite occ_bind_cons in Ho. lia.
  - rewrite occ_zero by done. lia.
Qed.

Lemma begins_step e t w w' new c :
  task_step e t w = Some (w', new) → occ c (new ≫= begins) ≤ occ c (begins t).
Proof.
  intros H. destruct t as [r ph|tool job name ph]; simpl in H.
  - unfold begin_step in H. destruct ph; split_step H; rewrite ?app_nil_r; unfold occ; simpl; lia.
  - unfold driver_step in H. destruct ph; split_step H; unfold occ; simpl; lia.
Qed.

Ltac open_unfold := unfold parked, opened; simpl.

(** The sender of a channel moves: parked, held, then closed. *)
Definition hold_moves (w w' : Shared) (t : Task) (new : list Task) (c : string) : Prop :=
  parked (sh_state w') c + occ c (new ≫= holds) + opened (sh_state w) c
  = parked (sh_state w) c + occ c (holds t) + opened (sh_state w') c.

Lemma hold_begin P e r ph w w' new ts c :
  inv P w ts → TBegin r ph ∈ ts → begin_step e r ph w = Some (w', new) → hold_moves w w' (TBegin r ph) new c.
Proof.
  intros I Ht H. unfold hold_moves. pose proof (inv_task _ _ _ I _ Ht) as Hinv.
  pose proof (λ c Hc, held_open P w ts _ c I Ht Hc) as Hheld. pose proof (inv_hold _ _ _ I c) as Hh.
  unfold begin_step in H. destruct ph; split_step H; try (open_unfold; lia).
  + destruct Hinv as [Hc _]. simpl in Hc. open_unfold. unfold parked, opened in Hh.
    destruct (decide (c = cr_id r)) as [->|Hn].
    * rewrite lookup_insert_eq, Hc in *. simpl. rewrite decide_True by set_solver.
      case_decide; lia.
    * rewrite lookup_insert_ne by done. do 2 case_decide; set_solver.
  + apply remove_pending_call_spec in Heqp as [-> _]. open_unfold. lia.
  + apply remove_pending_call_spec in Heqp as [-> _]. open_unfold. lia.
  + open_unfold. rewrite occ_cons. unfold occ; simpl. repeat case_decide; subst; try lia; set_solver.
  + destruct (Hheld (cr_id r)) as (_ & ch & Hc & Ho & _); [set_solver|]. open_unfold.
    rewrite occ_cons. unfold occ; simpl. destruct (decide (c = cr_id r)) as [->|Hn].
    * rewrite lookup_alter_eq, Hc. simpl. rewrite Ho. lia.
    * rewrite lookup_alter_ne by done. lia.
Qed.

Lemma hold_driver P e tool job name ph w w' new ts c :
  inv P w ts → TDriver tool job name ph ∈ ts → driver_step e tool job name ph w = Some (w', new) →
  hold_moves w w' (TDriver tool job name ph) new c.
Proof.
  intros I Ht H. unfold hold_moves. pose proof (inv_task _ _ _ I _ Ht) as Hinv.
  pose proof (λ c Hc, held_open P w ts _ c I Ht Hc) as Hheld. pose proof (guards_nodup P w ts _ I Ht) as Hnd.
  unfold driver_step in H. destruct ph; split_step H; try (open_unfold; lia).
  + apply dequeue_call_spec in Heqp as (k & cs & rest & _ & _ & _ & _ & ->). open_unfold. lia.
  + apply dequeue_call_spec in Heqp as [-> _]. open_unfold. lia.
  + open_unfold. rewrite occ_cons. unfold occ; simpl. repeat case_decide; subst; try lia; set_solver.
  + destruct (Hheld (pc_call_id call)) as (_ & ch & Hc & Ho & _); [set_solver|]. open_unfold.
    rewrite occ_cons. unfold occ; simpl. destruct (decide (c = pc_call_id call)) as [->|Hn].
    * rewrite lookup_alter_eq, Hc. simpl. rewrite Ho. lia.
    * rewrite lookup_alter_ne by done. lia.
  + apply remove_active_job_named_spec in Heqp as (f & -> & _). open_unfold. lia.
  + apply remove_active_job_named_spec in Heqp as (f & -> & _). open_unfold. lia.
  + apply remove_active_job_named_spec in Heqp as (f & -> & _). open_unfold. lia.
  + destruct Hinv as [Hids _]. open_unfold. rewrite app_nil_r.
    destruct (decide (c ∈ ids)) as [Hi|Hi].
    * rewrite (decide_False (P := c ∈ ds_result_txs (sh_state w) ∖ list_to_set ids)) by set_solver.
      case_decide as Hp.
      -- assert (c ∈ filter (λ x, x ∈ ds_result_txs (sh_state w)) ids) as Hf
           by (apply list_elem_of_filter; done).
         pose proof (occ_nodup c _ (NoDup_filter (λ x, x ∈ ds_result_txs (sh_state w)) ids Hids)).
         apply occ_elem in Hf. unfold occ at 2. simpl. lia.
      -- rewrite occ_zero; [unfold occ; simpl; lia|]. intros Hf%list_elem_of_filter. by destruct Hf.
    * rewrite (occ_zero c (filter _ _)); [|intros Hf%list_elem_of_filter; by destruct Hf].
      unfold occ; simpl. do 2 case_decide; try lia; set_solver.
  + set (s1 := set_shadow (λ m, foldr delete m ids) (sh_state w)).
    destruct (drop_guards_other guards s1) as (_ & _ & Et & _). open_unfold. rewrite Et. simpl.
    rewrite drop_guards_lookup by done. unfold occ at 1. simpl. destruct (decide (c ∈ guards)) as [Hg|Hg].
    * destruct (Hheld c Hg) as (_ & ch & Hc & Ho & _). rewrite Hc. simpl. rewrite Ho.
      pose proof (occ_nodup c _ Hnd). simpl in *. apply occ_elem in Hg. lia.
    * rewrite (occ_zero c guards) by done. simpl. lia.
  + destruct (fire_call_cancel_other (pc_call_id p) (sh_state w)) as (_ & _ & Et & _ & Ec).
    open_unfold. rewrite Et, Ec. lia.
Qed.

Lemma hold_step P e t w w' new ts c :
  inv P w ts → t ∈ ts → task_step e t w = Some (w', new) → hold_moves w w' t new c.
Proof. destruct t; [apply hold_begin|apply hold_driver]. Qed.

Lemma forward_frames_spec frames :
  let '(fs, b) := forward_frames frames in
  ∃ body last, fs = body ++ last ∧ Forall (λ f, is_terminal_frame f = false) body ∧
    Forall (λ f, is_terminal_frame f = true) last ∧ length last = if b then 1 else 0.
Proof.
  induction frames as [|[f|e] frames IH]; simpl; [by exists [], []| |by exists [], []].
  destruct (is_terminal_frame f) eqn:Et; [exists [], [f]; by repeat constructor|].
  destruct (forward_frames frames) as [fs b]. destruct IH as (body & last & -> & Hb & Hl & Hn).
  exists (f :: body), last. split_and!; [done|by constructor|done..].
Qed.

Lemma guard_drop_ends (strict : Prop) body room :
  Forall (λ f, is_terminal_frame f = false) body → (strict → room = true) →
  ends_once strict (body ++ guard_drop room).
Proof.
  intros Hb Hr. exists body, (guard_drop room). split_and!; [done..| | |].
  - destruct room; repeat constructor.
  - destruct room; simpl; lia.
  - intros Hs. by rewrite (Hr Hs).
Qed.

Lemma dial_and_run_ends P e : P e → ends_once (always_room P) (dial_and_run (ev_run e)).1.
Proof.
  intros He. assert (always_room P → pr_room (ev_run e) = true) as Hr by auto. unfold dial_and_run.
  destruct (dial _); [|by apply (guard_drop_ends _ [])].
  destruct (pr_run (ev_run e)) as [frames|?]; [|by apply (guard_drop_ends _ [])].
  pose proof (forward_frames_spec frames) as H. destruct (forward_frames frames) as [fs [|]]; simpl.
  - destruct H as (body & last & -> & Hb & Hl & Hn). rewrite app_nil_r.
    exists body, last. split_and!; [done..|lia|auto].
  - destruct H as (body & last & -> & Hb & Hl & Hn). destruct last; [|done].
    rewrite app_nil_r. by apply guard_drop_ends.
Qed.

Lemma wf_step P e t w w' new ts c ch :
  inv P w ts → t ∈ ts → P e → task_step e t w = Some (w', new) →
  ds_channels (sh_state w') !! c = Some ch → channel_wf P ch.
Proof.
  intros I Ht He H. pose proof (inv_wf _ _ _ I) as Hwf.
  pose proof (λ c Hc, held_open P w ts t c I Ht Hc) as Hheld.
  pose proof (guards_nodup P w ts t I Ht) as Hnd.
  assert (∀ ch0 frames, channel_wf P ch0 → ch_open ch0 = true → ends_once (always_room P) frames →
            channel_wf P (mkChannel (ch_frames ch0 ++ frames) false)) as Hclose.
  { intros ch0 frames Hw Ho Hf. unfold channel_wf in *. rewrite Ho in Hw. simpl. by rewrite Hw. }
  assert (∀ ch0, channel_wf P ch0 → ch_open ch0 = true →
            channel_wf P (mkChannel (ch_frames ch0 ++
              guard_drop (length (ch_frames ch0) <? RESULT_CHANNEL_CAPACITY)) false)) as Hdrop.
  { intros ch0 Hw Ho. apply Hclose; [done..|]. unfold channel_wf in Hw. rewrite Ho in Hw. rewrite Hw.
    by apply (guard_drop_ends _ []). }
  destruct t as [r ph|tool job name ph]; simpl in H.
  - unfold begin_step in H. destruct ph; split_step H; try (apply Hwf).
    + intros [[<- <-]|[_ E]]%lookup_insert_Some; [done|by eapply Hwf].
    + apply remove_pending_call_spec in Heqp as [-> _]. apply Hwf.
    + apply remove_pending_call_spec in Heqp as [-> _]. apply Hwf.
    + destruct (Hheld (cr_id r)) as (_ & ch0 & Hc & Ho & _); [set_solver|].
      intros [(<- & ch1 & E & ->)|[_ E]]%lookup_alter_Some; [|by eapply Hwf].
      rewrite Hc in E. injection E as <-. eauto.
  - unfold driver_step in H. destruct ph; split_step H; try (apply Hwf).
    + apply dequeue_call_spec in Heqp as (k & cs & rest & _ & _ & _ & _ & ->). apply Hwf.
    + apply dequeue_call_spec in Heqp as [-> _]. apply Hwf.
    + destruct (Hheld (pc_call_id call)) as (_ & ch0 & Hc & Ho & _); [set_solver|].
      intros [(<- & ch1 & E & ->)|[_ E]]%lookup_alter_Some; [|by eapply Hwf].
      rewrite Hc in E. injection E as <-. apply Hclose; [eauto..|].
      pose proof (dial_and_run_ends P e He) as Hd. by rewrite Heqp in Hd.
    + apply remove_active_job_named_spec in Heqp as (f & -> & _). apply Hwf.
    + apply remove_active_job_named_spec in Heqp as (f & -> & _). apply Hwf.
    + apply remove_active_job_named_spec in Heqp as (f & -> & _). apply Hwf.
    + rewrite drop_guards_lookup by done. simpl. case_decide as Hg; [|apply Hwf].
      destruct (Hheld c Hg) as (_ & ch0 & Hc & Ho & _). rewrite Hc. simpl. intros [= <-]. eauto.
    + destruct (fire_call_cancel_other (pc_call_id p) (sh_state w)) as (_ & _ & _ & _ & Ec).
      rewrite Ec. apply Hwf.
Qed.

Lemma step_changes P e t w w' new ts :
  inv P w ts → t ∈ ts → task_step e t w = Some (w', new) →
  changes (begins t) (sh_state w) (sh_state w').
Proof.
  intros I Ht H. destruct t as [r ph|tool job name ph].
  - eapply begin_step_changes; [exact H|]. by apply (inv_task _ _ _ I).
  - by eapply driver_step_changes.
Qed.

Lemma step_calls e t w w' new : task_step e t w = Some (w', new) → sh_calls w' = sh_calls w.
Proof.
  destruct t as [r ph|tool job name ph]; intros H.
  - simpl in H. unfold begin_step in H. destruct ph; split_step H; done.
  - by apply driver_step_frame in H as (-> & _).
Qed.

Lemma dom_step P e t w w' new ts c :
  inv P w ts → iso w ts → t ∈ ts → task_step e t w = Some (w', new) →
  has_channel (sh_state w') c → is_Some (sh_calls w' !! c).
Proof.
  intros I Is Ht H Hc. rewrite (step_calls _ _ _ _ _ H).
  destruct (ds_channels (sh_state w) !! c) eqn:E; [apply (inv_dom _ _ _ I); by eexists|].
  destruct (decide (c ∈ begins t)) as [Hb|Hb].
  - destruct t as [r ph|]; [|set_solver]. apply list_elem_of_singleton in Hb as ->.
    destruct (iso_tasks _ _ Is _ Ht) as (-> & _). eauto.
  - apply (chg_none _ _ _ (step_changes _ _ _ _ _ _ _ I Ht H)) in E; [|done].
    apply none_has_channel in E. done.
Qed.

Lemma shadow_step P e t w w' new ts c :
  inv P w ts → t ∈ ts → task_step e t w = Some (w', new) →
  is_Some (ds_call_ids (sh_state w') !! c) → has_channel (sh_state w') c.
Proof.
  intros I Ht H. pose proof (chg_some _ _ _ (step_changes _ _ _ _ _ _ _ I Ht H)) as Hm.
  assert (is_Some (ds_call_ids (sh_state w) !! c) → has_channel (sh_state w') c) as Ho
    by (intros; apply Hm, (inv_shadow _ _ _ I); done).
  pose proof (inv_task _ _ _ I _ Ht) as Hinv. clear I.
  destruct t as [r ph|tool job name ph]; simpl in H.
  - unfold begin_step in H. destruct ph; split_step H; auto.
    + destruct (decide (c = cr_id r)) as [->|Hn]; [intros _; apply Hm, Hinv|].
      rewrite lookup_insert_ne by done. auto.
    + apply remove_pending_call_spec in Heqp as [-> _]. auto.
    + apply remove_pending_call_spec in Heqp as [-> _]. auto.
    + intros [? [_ E]%lookup_delete_Some]. apply Ho. eauto.
  - unfold driver_step in H. destruct ph; split_step H; auto.
    + apply dequeue_call_spec in Heqp as (k & cs & rest & _ & _ & _ & _ & ->). auto.
    + apply dequeue_call_spec in Heqp as [-> _]. auto.
    + intros [? [_ E]%lookup_delete_Some]. apply Ho. eauto.
    + apply remove_active_job_named_spec in Heqp as (f & -> & _). auto.
    + apply remove_active_job_named_spec in Heqp as (f & -> & _). auto.
    + apply remove_active_job_named_spec in Heqp as (f & -> & _). auto.
    + set (s1 := set_shadow (λ m, foldr delete m ids) (sh_state w)) in *.
      destruct (drop_guards_other guards s1) as (_ & _ & _ & Es & _). rewrite Es. simpl.
      rewrite foldr_delete_lookup. case_decide; [by intros []|auto].
    + destruct (fire_call_cancel_other (pc_call_id p) (sh_state w)) as (_ & _ & _ & Es & _).
      rewrite Es. auto.
Qed.

(** A step of a call's own [begin_call] that finds it pending. *)
Lemma own_published P w ts r ph k p :
  inv P w ts → TBegin r ph ∈ ts → in_pending (sh_state w) k p → pc_call_id p = cr_id r →
  published ph = Some (pc_target_job_id p).
Proof. intros I Ht Hp Hid. apply (inv_task _ _ _ I) in Ht as (_ & Hpub & _). by eapply Hpub. Qed.

Lemma published_step e r ph w w' new job :
  begin_step e r ph w = Some (w', new) → published ph = Some job →
  ds_call_ids (sh_state w') = ds_call_ids (sh_state w) ∧
  ds_result_txs (sh_state w') = ds_result_txs (sh_state w).
Proof.
  intros H Hp. unfold begin_step in H. destruct ph; try done; split_step H; try done.
  - by apply remove_pending_call_spec in Heqp as [-> _].
  - by apply remove_pending_call_spec in Heqp as [-> _].
Qed.

Lemma pending_step P e t w w' new ts k p :
  inv P w ts → iso w ts → t ∈ ts → task_step e t w = Some (w', new) → in_pending (sh_state w') k p →
  (∃ r, sh_calls w' !! pc_call_id p = Some r ∧ cr_key r = k) ∧
  (pc_call_id p ∈ ds_result_txs (sh_state w') →
   ds_call_ids (sh_state w') !! pc_call_id p = Some (pc_tool_name p)).
Proof.
  intros I Is Ht H Hp. rewrite (step_calls _ _ _ _ _ H).
  pose proof (step_changes _ _ _ _ _ _ _ I Ht H) as C.
  assert (in_pending (sh_state w) k p ∨
          ∃ r job name, t = TBegin r (BEnqueue job name) ∧ p = pending_of r job ∧ k = cr_key r) as [Hold|Hnew].
  { destruct t as [r ph|]; [|destruct (chg_pending _ _ _ C k p Hp); [by left|set_solver]].
    simpl in H. unfold begin_step in H. destruct ph; split_step H; try (by left).
    - destruct Hp as (cs & Hl & Hin). simpl in Hl.
      apply lookup_insert_Some in Hl as [[<- <-]|[_ Hl]]; [|left; by exists cs].
      apply elem_of_app in Hin as [Hin| ->%list_elem_of_singleton]; [left|right; by eauto 10].
      destruct (ds_pending (sh_state w) !! _) as [cs|] eqn:E; [by exists cs|set_solver].
    - left. destruct (chg_pending _ _ _ C k p Hp) as [|Hid]; [done|].
      apply remove_pending_call_spec in Heqp0 as [-> _]. destruct Hp as (cs & Hl & Hin). simpl in Hl.
      destruct (ds_pending (sh_state w) !! (cr_tool r, cr_grant r)) as [cs0|] eqn:E0; [|by exists cs].
      apply lookup_insert_Some in Hl as [[<- <-]|[_ Hl]]; [|by exists cs].
      apply list_elem_of_filter in Hin as [_ Hin]. by exists cs0.
    - left. destruct (chg_pending _ _ _ C k p Hp) as [|Hid]; [done|].
      apply remove_pending_call_spec in Heqp0 as [-> _]. destruct Hp as (cs & Hl & Hin). simpl in Hl.
      destruct (ds_pending (sh_state w) !! (cr_tool r, cr_grant r)) as [cs0|] eqn:E0; [|by exists cs].
      apply lookup_insert_Some in Hl as [[<- <-]|[_ Hl]]; [|by exists cs].
      apply list_elem_of_filter in Hin as [_ Hin]. by exists cs0. }
  - destruct (inv_pending _ _ _ I k p Hold) as [Hr Hs]. split; [done|]. intros Hin.
    destruct (decide (pc_call_id p ∈ begins t)) as [Hb|Hb].
    + destruct t as [r ph|]; [|set_solver]. apply list_elem_of_singleton in Hb.
      pose proof (own_published _ _ _ _ _ _ _ I Ht Hold Hb) as Hpub.
      destruct (published_step _ _ _ _ _ _ _ H Hpub) as [E1 E2]. rewrite E1, E2 in *. auto.
    + rewrite (chg_shadow _ _ _ C) by done. apply Hs.
      by destruct (chg_parked _ _ _ C _ Hin) as [|[]].
  - destruct Hnew as (r & job & name & -> & -> & ->). simpl. split.
    + destruct (iso_tasks _ _ Is _ Ht) as (Hr & _). by exists r.
    + destruct (inv_task _ _ _ I _ Ht) as (_ & _ & Hs). simpl in H. injection H as <- <-. exact Hs.
Qed.

Lemma begins_unique P w ts1 t ts2 t' c :
  inv P w (ts1 ++ t :: ts2) → t' ∈ ts1 ++ ts2 → c ∈ begins t' → c ∉ begins t.
Proof.
  intros I Ht Hc Hc'. pose proof (inv_begin _ _ _ I c) as Hb. rewrite occ_bind_cons in Hb.
  assert (0 < occ c (ts1 ≫= begins) + occ c (ts2 ≫= begins)) as Hpos.
  { apply elem_of_app in Ht as [Ht|Ht].
    - assert (0 < occ c (ts1 ≫= begins)); [apply occ_elem, list_elem_of_bind; eauto|lia].
    - assert (0 < occ c (ts2 ≫= begins)); [apply occ_elem, list_elem_of_bind; eauto|lia]. }
  apply occ_elem in Hc'. lia.
Qed.

(** Removing a call leaves no pending entry of it. *)
Lemma removed_gone P w ts r s b k p :
  inv P w ts → iso w ts → sh_calls w !! cr_id r = Some r →
  remove_pending_call (cr_tool r) (cr_grant r) (cr_id r) (sh_state w) = (s, b) →
  in_pending s k p → pc_call_id p ≠ cr_id r.
Proof.
  intros I Is Hr Hs Hp Hid. apply remove_pending_call_spec in Hs as [-> _].
  destruct Hp as (cs & Hl & Hin). simpl in Hl.
  assert (in_pending (sh_state w) k p ∧ (k = (cr_tool r, cr_grant r) → pc_call_id p ≠ cr_id r)) as [Hold Hk].
  { destruct (ds_pending (sh_state w) !! (cr_tool r, cr_grant r)) as [cs0|] eqn:E0.
    - apply lookup_insert_Some in Hl as [[<- <-]|[Hne Hl]].
      + apply list_elem_of_filter in Hin as [Hn Hin]. split; [by exists cs0|done].
      + split; [by exists cs|]. by intros ->.
    - split; [by exists cs|]. intros ->. congruence. }
  destruct (inv_pending _ _ _ I k p Hold) as [(r' & Hr' & Hk') _]. rewrite Hid, Hr in Hr'.
  injection Hr' as <-. by apply Hk.
Qed.

Lemma new_task_step P e t w w' new ts t' :
  inv P w ts → iso w ts → t ∈ ts → task_step e t w = Some (w', new) → t' ∈ new →
  task_inv (sh_state w') t'.
Proof.
  intros I Is Ht H Hin. pose proof (inv_task _ _ _ I _ Ht) as Hinv.
  pose proof (iso_tasks _ _ Is _ Ht) as Hiso. pose proof (inv_shadow _ _ _ I) as Hsh.
  destruct t as [r ph|tool job name ph]; simpl in H.
  - destruct Hinv as (Hc & Hp & Hs). destruct Hiso as (Hr & _).
    unfold begin_step in H. destruct ph; split_step H;
      try (by apply not_elem_of_nil in Hin); apply list_elem_of_singleton in Hin; subst t'; simpl; auto.
    + split_and!; [exists (mkChannel [] true); apply lookup_insert_eq|apply Hp|done].
    + split_and!; [done|exact Hp|]. intros _. apply lookup_insert_eq.
    + split_and!; [done| |done]. intros k p (cs & Hl & Hc') Hid. simpl in Hl.
      apply lookup_insert_Some in Hl as [[<- <-]|[_ Hl]].
      * apply elem_of_app in Hc' as [Hc'| ->%list_elem_of_singleton]; [|done]. exfalso.
        destruct (ds_pending (sh_state w) !! _) as [cs|] eqn:E; [|set_solver].
        by assert (None = Some (pc_target_job_id p)) as [=]
          by (eapply Hp; [by exists cs|done]).
      * exfalso. by assert (None = Some (pc_target_job_id p)) as [=] by (eapply Hp; [by exists cs|done]).
    + split_and!; [|intros k p Hpd Hid; exfalso; by eapply removed_gone|done].
      apply remove_pending_call_spec in Heqp as [-> _]. done.
  - unfold driver_step in H. destruct ph; split_step H;
      try (by apply not_elem_of_nil in Hin); apply list_elem_of_singleton in Hin; subst t'; simpl; auto.
    + destruct (held_open P w ts _ (pc_call_id call) I Ht) as (_ & ch & Hc & Ho & _); [set_solver|].
      eexists. simpl. by rewrite lookup_alter_eq, Hc.
    + split; [apply NoDup_fst_map_to_list|]. intros c Hc. apply Hsh.
      apply list_elem_of_fmap in Hc as ([c' tool'] & -> & Hc%elem_of_map_to_list).
      apply map_lookup_filter_Some in Hc as [Hc _]. simpl. eauto.
    + destruct Hinv as [_ Hids]. intros c Hc. split; [by apply Hids|set_solver].
Qed.

Lemma parked_has_channel P w ts c :
  inv P w ts → c ∈ ds_result_txs (sh_state w) → has_channel (sh_state w) c.
Proof.
  intros I Hc. pose proof (inv_hold _ _ _ I c) as Hh. unfold parked, opened in Hh.
  rewrite decide_True in Hh by done. unfold has_channel.
  destruct (ds_channels (sh_state w) !! c); [eauto|lia].
Qed.

(** A queued call stays queued when another is taken out. *)
Lemma remove_pending_keeps tool grant id s s' b k p :
  remove_pending_call tool grant id s = (s', b) → in_pending s k p → pc_call_id p ≠ id → in_pending s' k p.
Proof.
  intros [-> _]%remove_pending_call_spec (cs & Hl & Hin) Hn. unfold in_pending. simpl.
  destruct (ds_pending s !! (tool, grant)) as [cs0|] eqn:E0; [|by exists cs].
  destruct (decide (k = (tool, grant))) as [->|Hk].
  - rewrite lookup_insert_eq. eexists. split; [done|]. simplify_eq. by apply list_elem_of_filter.
  - rewrite lookup_insert_ne by done. by exists cs.
Qed.

Lemma dequeue_keeps order tool job s s' c k p :
  dequeue_call order tool job s = (s', Some c) → in_pending s k p → pc_call_id p ≠ pc_call_id c → in_pending s' k p.
Proof.
  intros (k0 & cs0 & rest & _ & Hl0 & _ & Hperm & ->)%dequeue_call_spec (cs & Hl & Hin) Hn. unfold in_pending. simpl.
  destruct (decide (k = k0)) as [->|Hne].
  - rewrite lookup_insert_eq. exists rest. split; [done|]. rewrite Hl in Hl0. injection Hl0 as <-.
    rewrite Hperm in Hin. apply elem_of_cons in Hin as [->|Hin]; done.
  - rewrite lookup_insert_ne by done. by exists cs.
Qed.

(** It is still queued after a step, or the task that took it out covers it. *)
Definition pending_moves (w' : Shared) (new : list Task) (p : PendingCall) : Prop :=
  (∃ k' p', in_pending (sh_state w') k' p' ∧ pc_call_id p' = pc_call_id p) ∨
  ∃ t', t' ∈ new ∧ covers (sh_state w') (pc_call_id p) t'.

Lemma still_pending w' new k p : in_pending (sh_state w') k p → pending_moves w' new p.
Proof. intros H. left. by exists k, p. Qed.

Lemma begin_pending e r ph w w' new p :
  begin_step e r ph w = Some (w', new) → in_pending (sh_state w) (pc_key p) p →
  (pc_call_id p = cr_id r → pc_key p = cr_key r) → pending_moves w' new p.
Proof.
  intros H Hp Hkey. pose proof Hp as (cs & Hl & Hin).
  unfold begin_step in H. destruct ph; split_step H; try (by apply (still_pending _ _ (pc_key p))).
  - apply (still_pending _ _ (pc_key p)). destruct (decide (pc_key p = (cr_tool r, cr_grant r))) as [E|Hn].
    + eexists. simpl. rewrite E in *. rewrite lookup_insert_eq, Hl. simpl. split; [done|]. set_solver.
    + exists cs. simpl. by rewrite lookup_insert_ne.
  - destruct (decide (pc_call_id p = cr_id r)) as [E|Hn].
    { right. exists (TBegin r BFinishToken). split; [by left|]. done. }
    eapply still_pending. by eapply remove_pending_keeps.
  - destruct (decide (pc_call_id p = cr_id r)) as [E|Hn].
    { exfalso. apply remove_pending_call_spec in Heqp0 as [_ [_ Hb]].
      enough (false = true) by done. apply Hb. exists cs, p. split_and!; [|done..].
      rewrite <- Hl. f_equal. rewrite Hkey by done. done. }
    eapply still_pending. by eapply remove_pending_keeps.
Qed.

Lemma driver_pending e tool job name ph w w' new p :
  driver_step e tool job name ph w = Some (w', new) → in_pending (sh_state w) (pc_key p) p →
  pc_call_id p ∈ ds_result_txs (sh_state w') →
  (pc_call_id p ∈ ds_result_txs (sh_state w) → ds_call_ids (sh_state w) !! pc_call_id p = Some (pc_tool_name p)) →
  pending_moves w' new p.
Proof.
  intros H Hp Hpk Hsh. pose proof Hp as (cs & Hl & Hin).
  unfold driver_step in H. destruct ph; split_step H; try (by apply (still_pending _ _ (pc_key p))).
  - destruct (decide (pc_call_id p = pc_call_id p0)) as [E|Hn].
    { right. eexists. split; [by left|]. simpl. done. }
    eapply still_pending. by eapply dequeue_keeps.
  - apply dequeue_call_spec in Heqp0 as [-> _]. by apply (still_pending _ _ (pc_key p)).
  - apply remove_active_job_named_spec in Heqp0 as (f & -> & _). by apply (still_pending _ _ (pc_key p)).
  - apply remove_active_job_named_spec in Heqp0 as (f & -> & _). by apply (still_pending _ _ (pc_key p)).
  - apply remove_active_job_named_spec in Heqp0 as (f & -> & _). by apply (still_pending _ _ (pc_key p)).
  - destruct (decide (pc_tool_name p = tool)) as [<-|Hn].
    + right. eexists. split; [by left|]. simpl. split; [|by apply Hsh].
      exists p. split; [|done]. apply list_elem_of_join. exists cs. split; [done|].
      apply list_elem_of_fmap. exists (pc_key p, cs). split; [done|]. apply elem_of_map_to_list.
      apply map_lookup_filter_Some. done.
    + apply (still_pending _ _ (pc_key p)). exists cs. split; [|done]. simpl.
      apply lookup_difference_Some. split; [done|]. apply map_lookup_filter_None. right. naive_solver.
  - set (s1 := set_shadow (λ m, foldr delete m ids) (sh_state w)) in *.
    destruct (drop_guards_other guards s1) as (_ & Ep & _).
    apply (still_pending _ _ (pc_key p)). exists cs. change (ds_pending _) with (ds_pending (drop_guards guards s1)). by rewrite Ep.
  - destruct (fire_call_cancel_other (pc_call_id p0) (sh_state w)) as (_ & Ep & _).
    apply (still_pending _ _ (pc_key p)). exists cs. simpl. by rewrite Ep.
Qed.

Lemma pending_covered P e t w w' new ts k p :
  inv P w ts → iso w ts → t ∈ ts → task_step e t w = Some (w', new) →
  in_pending (sh_state w) k p → pc_call_id p ∈ ds_result_txs (sh_state w') → pending_moves w' new p.
Proof.
  intros I Is Ht H Hp Hpk. pose proof Hp as (cs & Hl & Hin). destruct (iso_pending _ _ Is k cs p Hl Hin) as [<- _].
  destruct (inv_pending _ _ _ I (pc_key p) p Hp) as [(r0 & Hr0 & Hk0) Hsh].
  destruct t as [r ph|tool job name ph]; simpl in H; [|by eapply driver_pending].
  pose proof (iso_tasks _ _ Is _ Ht) as (Hr & _). eapply begin_pending; [done..|]. intros E. congruence.
Qed.

(** The task that covers a sender moves on: it still covers it, has queued it,
    or has taken it. *)
Lemma cover_moves P e t w w' new ts c :
  inv P w ts → t ∈ ts → task_step e t w = Some (w', new) →
  covers (sh_state w) c t → c ∈ ds_result_txs (sh_state w') →
  (∃ k p, in_pending (sh_state w') k p ∧ pc_call_id p = c) ∨
  ∃ t', t' ∈ new ∧ covers (sh_state w') c t'.
Proof.
  intros I Ht H Hc Hp. destruct t as [r ph|tool job name ph]; simpl in H.
  - destruct Hc as [Hid Hph]. unfold begin_step in H.
    destruct ph; try done; split_step H; try (right; eexists; split; [by left|done]).
    + left. exists (cr_key r), (pending_of r target_job_id). split; [|done].
      eexists. simpl. rewrite lookup_insert_eq. split; [done|]. set_solver.
    + set_solver.
    + done.
  - unfold driver_step in H. destruct ph; try done; simpl in Hc; split_step H.
    + right. eexists. split; [by left|done].
    + set_solver.
    + done.
    + right. eexists. split; [by left|]. simpl. destruct Hc as [_ Hs].
      apply list_elem_of_fmap. exists (c, tool). split; [done|]. apply elem_of_map_to_list.
      by apply map_lookup_filter_Some.
    + set_solver.
Qed.

Lemma cover_step P e t w w' new ts1 ts2 c :
  inv P w (ts1 ++ t :: ts2) → iso w (ts1 ++ t :: ts2) → order_ok e w →
  task_step e t w = Some (w', new) → c ∈ ds_result_txs (sh_state w') →
  (∃ k p, in_pending (sh_state w') k p ∧ pc_call_id p = c) ∨
  ∃ t', t' ∈ ts1 ++ new ++ ts2 ∧ covers (sh_state w') c t'.
Proof.
  intros I Is Ho H Hc. assert (t ∈ ts1 ++ t :: ts2) as Ht by set_solver.
  pose proof (step_changes _ _ _ _ _ _ _ I Ht H) as C.
  assert ((∃ t', t' ∈ new ∧ covers (sh_state w') c t') →
          ∃ t', t' ∈ ts1 ++ new ++ ts2 ∧ covers (sh_state w') c t') as Hnew by set_solver.
  destruct (chg_parked _ _ _ C c Hc) as [Hold|[Hnone Hown]].
  - destruct (inv_cover _ _ _ I c Hold) as [(k & p & Hp & <-)|(t0 & Ht0 & Hcov)].
    + destruct (pending_covered _ _ _ _ _ _ _ _ _ I Is Ht H Hp Hc); auto.
    + assert (t0 = t ∨ t0 ∈ ts1 ++ ts2) as [->|Hin] by set_solver.
      { destruct (cover_moves _ _ _ _ _ _ _ _ I Ht H Hcov Hc); auto. }
      destruct (decide (ds_call_ids (sh_state w') !! c = ds_call_ids (sh_state w) !! c)) as [E|E].
      { right. exists t0. split; [set_solver|]. by eapply covers_stable. }
      right. apply Hnew. destruct (decide (c ∈ begins t)) as [Hb|Hb];
        [|exfalso; by apply E, (chg_shadow _ _ _ C)].
      destruct t as [r ph|]; [|set_solver]. apply list_elem_of_singleton in Hb as ->.
      simpl in H. unfold begin_step in H. destruct ph; split_step H; try done;
        try (eexists; split; [by left|done]).
      * apply remove_pending_call_spec in Heqp as [-> _]. done.
  - right. apply Hnew. apply none_has_channel in Hnone.
    destruct t as [r ph|]; [|set_solver]. apply list_elem_of_singleton in Hown as ->.
    assert (∀ c, c ∈ ds_result_txs (sh_state w) → has_channel (sh_state w) c) as Hpc
      by (intros; by eapply parked_has_channel).
    simpl in H. unfold begin_step in H. destruct ph; split_step H; try (by apply Hpc in Hc);
      try (eexists; split; [by left|done]).
    + apply remove_pending_call_spec in Heqp as [-> _]. by apply Hpc in Hc.
    + set_solver.
Qed.

Lemma filter_filter_le {A} (P Q : A → Prop) `{∀ x, Decision (P x), ∀ x, Decision (Q x)} l :
  length (filter P (filter Q l)) ≤ length (filter P l).
Proof.
  induction l as [|x l IH]; [done|]. rewrite (filter_cons Q). case_decide; rewrite !filter_cons; case_decide; simpl; lia.
Qed.

Lemma filter_filter_lt {A} (P Q : A → Prop) `{∀ x, Decision (P x), ∀ x, Decision (Q x)} l x :
  x ∈ l → P x → ¬ Q x → length (filter P (filter Q l)) < length (filter P l).
Proof.
  intros Hx HP HQ. induction l as [|y l IH]; [set_solver|]. apply elem_of_cons in Hx as [<-|Hx].
  - rewrite (filter_cons Q), decide_False, (filter_cons P), decide_True by done. simpl.
    pose proof (filter_filter_le P Q l). lia.
  - specialize (IH Hx). rewrite (filter_cons Q). case_decide; rewrite !filter_cons; case_decide; simpl; lia.
Qed.

Lemma waiting_pending s s' job k : ds_pending s' = ds_pending s → waiting s' job k = waiting s job k.
Proof. unfold waiting. by intros ->. Qed.

Lemma claim_begin P e r0 ph w w' new ts job k :
  inv P w ts → iso w ts → TBegin r0 ph ∈ ts → begin_step e r0 ph w = Some (w', new) →
  (∃ r, sh_calls w !! job = Some r ∧ cr_key r = k) →
  waiting (sh_state w') job k + occ job (claims (TBegin r0 ph))
  ≤ waiting (sh_state w) job k + occ job (new ≫= claims).
Proof.
  intros I Is Ht H Hr. pose proof (iso_tasks _ _ Is _ Ht) as (Hr0 & _ & Hj).
  pose proof (λ k p, own_published _ _ _ _ _ k p I Ht) as Hpub.
  unfold begin_step in H. destruct ph; split_step H;
    try first [lia | rewrite (waiting_pending (sh_state w)) by done; lia].
  - unfold waiting, occ. simpl. destruct (decide (k = (cr_tool r0, cr_grant r0))) as [E|Hn].
    + rewrite E, lookup_insert_eq. simpl. rewrite filter_app, length_app, !filter_cons. simpl.
      repeat case_decide; simplify_eq; simpl; lia.
    + rewrite lookup_insert_ne by done. lia.
  - apply remove_pending_call_spec in Heqp as [-> [Hb _]]. destruct (Hb eq_refl) as (cs & p & Hl & Hp & Hid).
    unfold waiting. simpl. rewrite Hl. rewrite occ_cons. unfold occ; simpl. case_decide as Hjob.
    + subst target_job_id. destruct (Hj job eq_refl) as (_ & r1 & Hr1 & Hk), Hr as (r & Hr & <-). rewrite Hr in Hr1.
      injection Hr1 as <-. rewrite Hk. unfold cr_key. rewrite lookup_insert_eq, Hl. simpl.
      assert (Some job = Some (pc_target_job_id p)) as [= Htg] by (eapply Hpub; [by exists cs|done]).
      pose proof (filter_filter_lt (λ p, pc_target_job_id p = job) (λ c, pc_call_id c ≠ cr_id r0) cs p) as Hlt.
      cut (length (filter (λ p, pc_target_job_id p = job) (filter (λ c, pc_call_id c ≠ cr_id r0) cs))
           < length (filter (λ p, pc_target_job_id p = job) cs)); [simpl; lia|].
      apply Hlt; [done|done|]. by intros Hn.
    + destruct (decide (k = (cr_tool r0, cr_grant r0))) as [E|Hn].
      * rewrite E, lookup_insert_eq, Hl. simpl.
        pose proof (filter_filter_le (λ p, pc_target_job_id p = job) (λ c, pc_call_id c ≠ cr_id r0) cs). lia.
      * rewrite lookup_insert_ne by done. lia.
  - apply remove_pending_call_spec in Heqp as [-> _]. unfold waiting. simpl.
    destruct (ds_pending (sh_state w) !! (cr_tool r0, cr_grant r0)) as [cs|] eqn:Hl; [|lia].
    destruct (decide (k = (cr_tool r0, cr_grant r0))) as [E|Hn].
    + rewrite E, lookup_insert_eq, Hl. simpl.
      pose proof (filter_filter_le (λ p, pc_target_job_id p = job) (λ c, pc_call_id c ≠ cr_id r0) cs). lia.
    + rewrite lookup_insert_ne by done. lia.
Qed.

Lemma claim_driver P e tool job0 name ph w w' new ts job k0 :
  inv P w ts → iso w ts → TDriver tool job0 name ph ∈ ts → order_ok e w →
  driver_step e tool job0 name ph w = Some (w', new) → (∃ r, sh_calls w !! job = Some r ∧ cr_key r = k0) →
  waiting (sh_state w') job k0 = 0 ∨
  waiting (sh_state w') job k0 + occ job (claims (TDriver tool job0 name ph))
  ≤ waiting (sh_state w) job k0 + occ job (new ≫= claims).
Proof.
  intros I Is Ht Ho H Hr. pose proof (iso_tasks _ _ Is _ Ht) as ((g & Hg) & _).
  unfold driver_step in H. destruct ph; split_step H;
    try (right; first [lia | rewrite (waiting_pending (sh_state w)) by done; lia]).
  - right. apply dequeue_call_spec in Heqp as (k & cs & rest & Hk & Hl & Htg & Hp & ->).
    unfold waiting. simpl. rewrite occ_cons. unfold occ; simpl.
    destruct (decide (k0 = k)) as [<-|Hn].
    + rewrite lookup_insert_eq, Hl. simpl. rewrite (Permutation_length (filter_Permutation _ _ _ Hp)).
      rewrite filter_cons. repeat case_decide; subst; simpl; try lia; done.
    + rewrite lookup_insert_ne by done. case_decide; [|lia]. subst job. exfalso. apply Hn.
      destruct (iso_pending _ _ Is k cs p Hl) as [_ (_ & r1 & Hr1 & <-)]; [rewrite Hp; by left|].
      destruct Hr as (r & Hr & <-). rewrite Htg, Hr in Hr1. by injection Hr1 as <-.
  - apply dequeue_call_spec in Heqp as [-> Hno]. rewrite occ_cons. unfold occ; simpl.
    destruct (decide (job = job0)) as [->|Hn]; [left|right; simpl; lia].
    destruct Hr as (r & Hr & Ek). destruct Hno as [->|Hno]; [by rewrite (inv_id _ _ _ I) in Hr|].
    destruct Hg as (_ & r1 & Hr1 & Hk). rewrite Hr in Hr1. injection Hr1 as <-.
    unfold waiting. simpl. destruct (ds_pending (sh_state w) !! k0) as [cs|] eqn:Hl; [|done]. simpl.
    apply length_zero_iff_nil. destruct (filter _ cs) as [|p ps] eqn:Ef; [done|]. exfalso.
    assert (p ∈ filter (λ p, pc_target_job_id p = job0) cs) as [Htg Hp]%list_elem_of_filter
      by (rewrite Ef; by left).
    eapply (Hno k0 cs p); [apply (proj1 Ho); eauto|by rewrite <- Ek, Hk|done..].
  - right. apply remove_active_job_named_spec in Heqp as (f & -> & _). unfold waiting. simpl. lia.
  - right. apply remove_active_job_named_spec in Heqp as (f & -> & _). unfold waiting. simpl. lia.
  - right. apply remove_active_job_named_spec in Heqp as (f & -> & _). unfold waiting. simpl. lia.
  - unfold waiting. simpl.
    set (mine := filter (λ x : ActiveKey * list PendingCall, x.1.1 = tool) (ds_pending (sh_state w))).
    destruct ((ds_pending (sh_state w) ∖ mine) !! k0) as [cs|] eqn:Hl; [right|by left].
    apply lookup_difference_Some in Hl as [-> _]. lia.
  - right. set (s1 := set_shadow (λ m, foldr delete m ids) (sh_state w)).
    destruct (drop_guards_other guards s1) as (_ & Ep & _). rewrite (waiting_pending (sh_state w)); [lia|done].
  - right. destruct (fire_call_cancel_other (pc_call_id p) (sh_state w)) as (_ & Ep & _).
    rewrite (waiting_pending (sh_state w)); [lia|done].
Qed.

Lemma accepted_step e t w w' new c :
  task_step e t w = Some (w', new) → c ∈ sh_accepted w' →
  c ∈ sh_accepted w ∨ ∃ r ph job, t = TBegin r ph ∧ cr_id r = c ∧ published ph = Some job.
Proof.
  intros H. destruct t as [r ph|tool job name ph]; simpl in H.
  - unfold begin_step in H. destruct ph; split_step H; try (by left).
    + intros [Hc|Hc]%elem_of_union; [right|by left]. apply elem_of_singleton in Hc as ->. eauto 10.
    + intros [Hc|Hc]%elem_of_union; [right|by left]. apply elem_of_singleton in Hc as ->. eauto 10.
  - unfold driver_step in H. destruct ph; split_step H; by left.
Qed.

Lemma task_step_inv P e t w w' new ts1 ts2 :
  inv P w (ts1 ++ t :: ts2) → iso w (ts1 ++ t :: ts2) → P e → order_ok e w →
  task_step e t w = Some (w', new) → inv P w' (ts1 ++ new ++ ts2).
Proof.
  intros I Is He Ho H. assert (t ∈ ts1 ++ t :: ts2) as Ht by set_solver.
  pose proof (step_changes _ _ _ _ _ _ _ I Ht H) as C. split.
  - intros c. pose proof (hold_step _ _ _ _ _ _ _ c I Ht H) as Hm. unfold hold_moves in Hm. pose proof (inv_hold _ _ _ I c) as Hh.
    rewrite occ_bind_cons in Hh. rewrite occ_bind. lia.
  - intros c ch. by eapply wf_step.
  - intros c. pose proof (begins_step _ _ _ _ _ c H). pose proof (inv_begin _ _ _ I c) as Hb.
    rewrite occ_bind_cons in Hb. rewrite occ_bind. lia.
  - intros c. by eapply dom_step.
  - intros c. by eapply shadow_step.
  - intros k p. by eapply pending_step.
  - intros t' Hin. assert (t' ∈ new ∨ t' ∈ ts1 ++ ts2) as [Hn|Ho'] by set_solver.
    + by eapply new_task_step.
    + eapply task_inv_stable; [exact C| |apply (inv_task _ _ _ I); set_solver].
      intros c Hc. by eapply begins_unique.
  - intros c. by eapply cover_step.
  - intros job r Hr. rewrite (step_calls _ _ _ _ _ H) in Hr.
    assert (∃ r', sh_calls w !! job = Some r' ∧ cr_key r' = cr_key r) as Hk by eauto.
    pose proof (inv_claim _ _ _ I job r Hr) as Hw. rewrite occ_bind_cons in Hw. rewrite occ_bind.
    destruct t as [r0 ph|tool job0 name ph].
    + pose proof (claim_begin _ _ _ _ _ _ _ _ _ _ I Is Ht H Hk). lia.
    + destruct (claim_driver _ _ _ _ _ _ _ _ _ _ _ _ I Is Ht Ho H Hk); lia.
  - intros c Hc. destruct (accepted_step _ _ _ _ _ _ H Hc) as [Hold|(r & ph & job & -> & <- & Hp)].
    + eapply chg_some; [exact C|]. by apply (inv_accepted _ _ _ I).
    + eapply chg_some; [exact C|]. destruct (inv_task _ _ _ I _ Ht) as [Hch _].
      by destruct ph.
  - rewrite (step_calls _ _ _ _ _ H). apply (inv_id _ _ _ I).
Qed.

Lemma begin_inv P r w ts :
  inv P w ts → iso w ts → sh_calls w !! cr_id r = None → cr_id r ≠ "" →
  inv P (begin_call r w) (ts ++ [TBegin r BLock]).
Proof.
  intros I Is Hr Hid. assert (∀ c, is_Some (sh_calls w !! c) → c ≠ cr_id r) as Hne.
  { intros c [? Hc] ->. congruence. }
  split; simpl.
  - intros c. rewrite bind_app, occ_app. pose proof (inv_hold _ _ _ I c). unfold occ at 2. simpl. lia.
  - apply (inv_wf _ _ _ I).
  - intros c. rewrite bind_app, occ_app, bind_singleton || rewrite bind_app, occ_app. simpl.
    rewrite occ_cons. unfold occ at 2. simpl. pose proof (inv_begin _ _ _ I c). case_decide; [|lia]. subst c.
    rewrite occ_zero; [lia|]. intros (t & Hin & Ht)%list_elem_of_bind.
    destruct t as [r' ph|]; [|set_solver]. apply list_elem_of_singleton in Hin.
    destruct (iso_tasks _ _ Is _ Ht) as (Hr' & _). congruence.
  - intros c Hc%(inv_dom _ _ _ I). rewrite lookup_insert_ne; [done|]. by apply not_eq_sym, Hne.
  - apply (inv_shadow _ _ _ I).
  - intros k p Hp. destruct (inv_pending _ _ _ I k p Hp) as [(r' & Hr' & Hk) Hs]. split; [|done].
    exists r'. split; [|done]. rewrite lookup_insert_ne; [done|]. apply not_eq_sym, Hne. eauto.
  - intros t [Ht| ->%list_elem_of_singleton]%elem_of_app; [by apply (inv_task _ _ _ I)|]. simpl.
    split_and!; [|intros k p Hp Hpid; exfalso|done].
    + apply none_has_channel. intros Hc%(inv_dom _ _ _ I). by apply Hne in Hc.
    + destruct (inv_pending _ _ _ I k p Hp) as [(r' & Hr' & _) _]. congruence.
  - intros c Hc. destruct (inv_cover _ _ _ I c Hc) as [|(t & Ht & Hcov)]; [by left|right].
    exists t. split; [set_solver|done].
  - intros job r' Hr'. rewrite bind_app, occ_app.
    destruct (decide (job = cr_id r)) as [->|Hn].
    + rewrite lookup_insert_eq in Hr'. injection Hr' as <-.
      destruct (waiting (sh_state w) (cr_id r) (cr_key r)) eqn:Ew; [lia|exfalso].
      unfold waiting in Ew. destruct (filter _ _) as [|p ps] eqn:Ef; [done|].
      assert (p ∈ filter (λ p, pc_target_job_id p = cr_id r) (default [] (ds_pending (sh_state w) !! cr_key r)))
        as [Htg Hp]%list_elem_of_filter by (rewrite Ef; by left).
      destruct (ds_pending (sh_state w) !! cr_key r) as [cs|] eqn:Hl; [|set_solver].
      destruct (iso_pending _ _ Is _ _ _ Hl Hp) as [_ (_ & r1 & Hr1 & _)]. congruence.
    + rewrite lookup_insert_ne in Hr' by done. pose proof (inv_claim _ _ _ I job r' Hr'). lia.
  - apply (inv_accepted _ _ _ I).
  - rewrite lookup_insert_ne by done. apply (inv_id _ _ _ I).
Qed.

Lemma cancel_inv P id w ts : inv P w ts → inv P (with_state (λ s, (fire_call_cancel id s).1) w) ts.
Proof.
  intros I. destruct (fire_call_cancel_other id (sh_state w)) as (_ & Ep & Et & Es & Ec).
  assert (changes [] (sh_state w) (fire_call_cancel id (sh_state w)).1) as C.
  { apply changes_of; auto; [intros; by rewrite Es|]. intros k p Hp. left. unfold in_pending in *. by rewrite Ep in Hp. }
  destruct I as [I1 I2 I3 I4 I5 I6 I7 I8 I9 I10 I11].
  split; simpl; unfold parked, opened, has_channel, in_pending, waiting; rewrite ?Ep, ?Et, ?Es, ?Ec; auto.
  - intros t Ht. eapply task_inv_stable; [exact C|set_solver|auto].
  - intros c Hc. destruct (I8 c Hc) as [|(t & Ht & Hcov)]; [by left|right].
    exists t. split; [done|]. eapply covers_stable; [|done]. by rewrite Es.
Qed.

Lemma sys_reach_inv P sys : sys_reach P sys → inv P sys.1 sys.2.
Proof.
  revert sys. apply (rtc_ind_r (λ sys, inv P sys.1 sys.2)).
  - split; simpl; unfold parked, opened, has_channel, in_pending; simpl;
      try (intros; set_solver); try (intros; by rewrite ?lookup_empty in *).
  - intros y z Hr Hs IH. apply sys_reach_iso in Hr as Is. destruct Hs; simpl in *.
    + by apply begin_inv.
    + by eapply task_step_inv.
    + by apply cancel_inv.
Qed.

(** C4. No call is left waiting: when the tasks have come to rest, the result
    channel of every call [begin_call] accepted is closed, behind exactly one
    terminal frame, its last one (at most one, if the drain let the channel
    fill up just when the synthetic terminal was due). This holds whatever was
    evicted, retired, refused or cancelled on the way. *)
Theorem accepted_calls_end (P : StepEnv → Prop) (w : Shared) (c : string) :
  sys_reach P (w, []) → c ∈ sh_accepted w →
  ∃ ch, ds_channels (sh_state w) !! c = Some ch ∧ ch_open ch = false ∧
    ends_once (always_room P) (ch_frames ch).
Proof.
  intros H Hc. pose proof (sys_reach_inv P _ H) as I. pose proof (sys_reach_iso P _ H) as Is. simpl in *.
  destruct (inv_accepted _ _ _ I c Hc) as [ch Hch]. exists ch. split; [done|].
  pose proof (inv_hold _ _ _ I c) as Hh. unfold opened in Hh. rewrite Hch in Hh.
  assert (parked (sh_state w) c = 0) as Hp.
  { unfold parked. case_decide as Hin; [exfalso|done].
    destruct (inv_cover _ _ _ I c Hin) as [(k & p & (cs & Hl & Hp) & _)|(t & Ht & _)]; [|set_solver].
    destruct (iso_pending _ _ Is _ _ _ Hl Hp) as [_ (_ & r & Hr & Hk)].
    pose proof (inv_claim _ _ _ I _ _ Hr) as Hw. unfold waiting, occ in Hw. simpl in Hw.
    rewrite Hk, Hl in Hw. simpl in Hw.
    assert (p ∈ filter (λ q, pc_target_job_id q = pc_target_job_id p) cs) as Hf
      by (by apply list_elem_of_filter).
    destruct (filter _ cs); [set_solver|simpl in Hw; lia]. }
  rewrite Hp in Hh. unfold occ in Hh. simpl in Hh. pose proof (inv_wf _ _ _ I c ch Hch) as Hwf.
  unfold channel_wf in Hwf. by destruct (ch_open ch).
Qed.
