(* ===== verification/DispatchLive.v ===== *)
(** * Dispatch tasks come to rest

    Progress and termination of the tasks of [Dispatch]: no step order lets
    them run for ever, and none leaves them stuck on a lock or on each other. *)

From S2P Require Import Prelude Text Proto Toolset Dispatch.

(** ** The tasks come to rest *)

Definition holds_lock (tool : string) (t : Task) : Prop :=
  match t with
  | TBegin r (BChoose | BCreate | BRecord) => cr_tool r = tool
  | _ => False
  end.

Lemma lock_step e t w w' new tool :
  task_step e t w = Some (w', new) → tool ∈ ds_locks (sh_state w') →
  (tool ∈ ds_locks (sh_state w) ∧ ¬ holds_lock tool t) ∨ ∃ t', t' ∈ new ∧ holds_lock tool t'.
Proof.
  intros H. destruct t as [r ph|tool0 job name ph]; simpl in H.
  - unfold begin_step in H. destruct ph; split_step H; intros Hl; simpl in Hl;
      try (left; split; [done|by intros []]).
    + apply elem_of_union in Hl as [Hl|Hl]; [right|left; split; [done|intros []]].
      apply elem_of_singleton in Hl as ->. eexists. split; [by left|done].
    + left. set_solver.
    + destruct (decide (tool = cr_tool r)) as [->|Hn]; [right; eexists; split; [by left|done]|].
      left. split; [done|]. by intros <-.
    + destruct (decide (tool = cr_tool r)) as [->|Hn]; [right; eexists; split; [by left|done]|].
      left. split; [done|]. by intros <-.
    + destruct (decide (tool = cr_tool r)) as [->|Hn]; [right; eexists; split; [by left|done]|].
      left. split; [done|]. by intros <-.
    + left. set_solver.
    + left. set_solver.
    + apply remove_pending_call_spec in Heqp as [-> _]. left. split; [done|intros []].
    + apply remove_pending_call_spec in Heqp as [-> _]. left. split; [done|intros []].
  - unfold driver_step in H. intros Hl. left. split; [|intros []]. destruct ph; split_step H; try done.
    + by apply dequeue_call_spec in Heqp as (k & cs & rest & _ & _ & _ & _ & ->).
    + by apply dequeue_call_spec in Heqp as [-> _].
    + by apply remove_active_job_named_spec in Heqp as (f & -> & _).
    + by apply remove_active_job_named_spec in Heqp as (f & -> & _).
    + by apply remove_active_job_named_spec in Heqp as (f & -> & _).
    + simpl in Hl. destruct (drop_guards_other guards (set_shadow (λ m, foldr delete m ids) (sh_state w)))
        as (_ & _ & _ & _ & E). by rewrite E in Hl.
    + unfold fire_call_cancel in Hl. by case_decide.
Qed.

Lemma sys_reach_lock P sys tool :
  sys_reach P sys → tool ∈ ds_locks (sh_state sys.1) → ∃ t, t ∈ sys.2 ∧ holds_lock tool t.
Proof.
  intros H. revert sys H. apply (rtc_ind_r (λ sys, tool ∈ ds_locks (sh_state sys.1) → ∃ t, t ∈ sys.2 ∧ holds_lock tool t)).
  - simpl. set_solver.
  - intros y z _ Hs IH. destruct Hs as [r w ts Hr Hid|e ts1 t ts2 w w' new He Ho Ht|id w ts]; simpl in *.
    + intros Hl. destruct (IH Hl) as (t & Ht & Hh). exists t. set_solver.
    + intros Hl. destruct (lock_step _ _ _ _ _ _ Ht Hl) as [[Hold Hn]|(t' & Hin & Hh)]; [|set_solver].
      destruct (IH Hold) as (t0 & Hin & Hh). exists t0. split; [|done].
      assert (t0 ≠ t) by (by intros ->). set_solver.
    + unfold fire_call_cancel. case_decide; apply IH.
Qed.

Definition some_env (w : Shared) : StepEnv :=
  mkStepEnv 0 true ((map_to_list (ds_pending (sh_state w))).*1 ++ (map_to_list (ds_active (sh_state w))).*1)
            (mkPodRun [] (Err "") true).

Lemma some_env_ok w : order_ok (some_env w) w.
Proof.
  split; intros k [x Hx]; simpl; apply elem_of_app; [left|right];
    apply list_elem_of_fmap; exists (k, x); (split; [done|]); by apply elem_of_map_to_list.
Qed.

Lemma can_step w t :
  (∀ r, t = TBegin r BLock → cr_tool r ∉ ds_locks (sh_state w)) →
  ∃ w' new, task_step (some_env w) t w = Some (w', new).
Proof.
  intros Hl. destruct t as [r ph|tool job name ph]; simpl.
  - destruct ph; simpl; try (repeat case_match; by eauto).
    rewrite decide_False by (by apply Hl). eauto.
  - destruct ph; simpl; try (repeat case_match; by eauto).
Qed.

Definition phase_rank (phase : BeginPhase) : nat :=
  match phase with
  | BLock => 24 | BChoose => 23 | BCreate => 22 | BRecord => 21 | BSend _ _ => 20 | BShadow _ _ => 19
  | BToken _ _ => 18 | BEnqueue _ _ => 17 | BCheck _ _ => 15 | BRemove _ _ => 14
  | BFinishToken => 4 | BFinishShadow => 3 | BTake => 2 | BDrop => 1
  end.

Definition rank (t : Task) : nat :=
  match t with
  | TBegin _ phase => phase_rank phase
  | TDriver _ _ _ phase =>
      match phase with
      | DClaim => 13 | DToken _ => 12 | DTake _ _ => 11 | DShadow _ _ => 10 | DRun _ _ _ => 9
      | DFinishToken _ _ _ => 8 | DFinishShadow _ _ _ => 7 | DSettle _ _ => 6 | DEvict => 5
      | DRead evicted => 4 + length evicted | DTxs evicted _ => 3 + length evicted
      | DUnshadow evicted _ _ => 2 + length evicted | DFire evicted => 1 + length evicted
      end
  end.

(** The calls in a queue. *)
Definition queued (m : gmap ActiveKey (list PendingCall)) : nat := length (mjoin (snd <$> map_to_list m)).

Definition work (sys : Shared * list Task) : nat :=
  sum_list_with rank sys.2 + queued (ds_pending (sh_state sys.1)).

Lemma queued_fresh m k cs : m !! k = None → queued (<[k := cs]> m) = length cs + queued m.
Proof.
  intros Hk. unfold queued. rewrite (map_to_list_insert m k cs Hk). simpl. by rewrite length_app.
Qed.

Lemma queued_insert m k cs :
  queued (<[k := cs]> m) + length (default [] (m !! k)) = length cs + queued m.
Proof.
  destruct (m !! k) as [cs0|] eqn:E; simpl; [|rewrite queued_fresh by done; lia].
  rewrite <- (insert_delete_id m k cs0 E) at 2. rewrite <- insert_delete_eq.
  rewrite !queued_fresh by apply lookup_delete_eq. lia.
Qed.

Lemma queued_union m1 m2 : m1 ##ₘ m2 → queued (m1 ∪ m2) = queued m1 + queued m2.
Proof.
  revert m1. apply (map_ind (λ m1, m1 ##ₘ m2 → queued (m1 ∪ m2) = queued m1 + queued m2)).
  - intros _. by rewrite (left_id_L ∅ (∪)).
  - intros k cs m1 Hk IH [Hd1 Hd2]%map_disjoint_insert_l. rewrite <- insert_union_l.
    rewrite !queued_fresh by (rewrite ?lookup_union_None; done). rewrite IH by done. lia.
Qed.

Lemma queued_difference m1 m2 : m1 ⊆ m2 → queued m2 = queued m1 + queued (m2 ∖ m1).
Proof.
  intros H. rewrite <- queued_union by (by apply map_disjoint_difference_r1). by rewrite map_difference_union.
Qed.

Lemma remove_pending_call_work tool grant id s s' b :
  remove_pending_call tool grant id s = (s', b) → queued (ds_pending s') ≤ queued (ds_pending s).
Proof.
  intros [-> _]%remove_pending_call_spec. simpl. destruct (ds_pending s !! (tool, grant)) as [cs|] eqn:E; [|done].
  pose proof (queued_insert (ds_pending s) (tool, grant) (filter (λ c, pc_call_id c ≠ id) cs)) as Hq.
  rewrite E in Hq. simpl in Hq. pose proof (length_filter (λ c, pc_call_id c ≠ id) cs). lia.
Qed.

Lemma begin_step_work e r ph w w' new :
  begin_step e r ph w = Some (w', new) →
  sum_list_with rank new + queued (ds_pending (sh_state w')) < phase_rank ph + queued (ds_pending (sh_state w)).
Proof.
  intros H. unfold begin_step in H. destruct ph; split_step H; try lia.
  - pose proof (queued_insert (ds_pending (sh_state w)) (cr_tool r, cr_grant r)
      (default [] (ds_pending (sh_state w) !! (cr_tool r, cr_grant r)) ++ [pending_of r target_job_id])) as Hq.
    rewrite length_app in Hq. simpl in *. lia.
  - apply remove_pending_call_work in Heqp. lia.
  - apply remove_pending_call_work in Heqp. lia.
Qed.

Lemma driver_step_work e tool job name ph w w' new :
  driver_step e tool job name ph w = Some (w', new) →
  sum_list_with rank new + queued (ds_pending (sh_state w'))
  < rank (TDriver tool job name ph) + queued (ds_pending (sh_state w)).
Proof.
  intros H. unfold driver_step in H. destruct ph; split_step H; try lia.
  - apply dequeue_call_spec in Heqp as (k & cs & rest & _ & Hl & _ & Hp & ->). simpl.
    pose proof (queued_insert (ds_pending (sh_state w)) k rest) as Hq. rewrite Hl in Hq. simpl in Hq.
    rewrite Hp in Hq. simpl in Hq. lia.
  - apply dequeue_call_spec in Heqp as [-> _]. lia.
  - apply remove_active_job_named_spec in Heqp as (f & -> & _). simpl. lia.
  - apply remove_active_job_named_spec in Heqp as (f & -> & _). simpl. lia.
  - apply remove_active_job_named_spec in Heqp as (f & -> & _). simpl. lia.
  - pose proof (queued_difference (filter (λ x : ActiveKey * list PendingCall, x.1.1 = tool)
      (ds_pending (sh_state w))) (ds_pending (sh_state w)) (map_filter_subseteq _ _)) as Hq.
    unfold queued at 2 in Hq. lia.
  - destruct (drop_guards_other guards (set_shadow (λ m, foldr delete m ids) (sh_state w))) as (_ & -> & _).
    simpl. lia.
  - destruct (fire_call_cancel_other (pc_call_id p) (sh_state w)) as (_ & -> & _). lia.
Qed.

(** A step of the tasks alone: nobody begins or cancels a call. *)
Definition task_only (P : StepEnv → Prop) (sys sys' : Shared * list Task) : Prop :=
  ∃ e ts1 t ts2 w w' new, P e ∧ order_ok e w ∧ task_step e t w = Some (w', new) ∧
    sys = (w, ts1 ++ t :: ts2) ∧ sys' = (w', ts1 ++ new ++ ts2).

Lemma task_only_sys P sys sys' : task_only P sys sys' → sys_step P sys sys'.
Proof. intros (e & ts1 & t & ts2 & w & w' & new & ? & ? & ? & -> & ->). by eapply StepTask. Qed.

Lemma task_only_work P sys sys' : task_only P sys sys' → work sys' < work sys.
Proof.
  intros (e & ts1 & t & ts2 & w & w' & new & _ & _ & H & -> & ->). unfold work. simpl.
  rewrite !sum_list_with_app. simpl.
  assert (sum_list_with rank new + queued (ds_pending (sh_state w')) < rank t + queued (ds_pending (sh_state w))) as Hw.
  { destruct t; [by eapply begin_step_work|by eapply driver_step_work]. }
  lia.
Qed.

(** *** Progress *)

Definition waits (t : Task) : bool := match t with TBegin _ BLock => true | _ => false end.

Lemma holder_runs tool t : holds_lock tool t → waits t = false.
Proof. by destruct t as [r []|]. Qed.

Lemma some_task_can_step P w ts :
  sys_reach P (w, ts) → ts ≠ [] →
  ∃ t w' new, t ∈ ts ∧ task_step (some_env w) t w = Some (w', new).
Proof.
  intros Hr Hne. destruct (decide (Exists (λ t, waits t = false) ts)) as [He|He].
  - apply Exists_exists in He as (t & Ht & Hw).
    destruct (can_step w t) as (w' & new & H); [by intros r ->|eauto].
  - destruct ts as [|t ts]; [done|].
    destruct (can_step w t) as (w' & new & H); [|exists t, w', new; split; [by left|done]].
    intros r -> Hl. apply (sys_reach_lock P (w, TBegin r BLock :: ts)) in Hl as (t & Ht & Hh); [|done].
    apply He, Exists_exists. exists t. split; [done|]. by eapply holder_runs.
Qed.

Lemma task_only_progress P w ts :
  (∀ w, P (some_env w)) → sys_reach P (w, ts) → ts ≠ [] → ∃ sys', task_only P (w, ts) sys'.
Proof.
  intros HP Hr Hne. destruct (some_task_can_step P w ts Hr Hne) as (t & w' & new & Ht & H).
  apply list_elem_of_split in Ht as (ts1 & ts2 & ->).
  exists (w', ts1 ++ new ++ ts2), (some_env w), ts1, t, ts2, w, w', new.
  split_and!; auto using some_env_ok.
Qed.

(** C13. The tasks always come to rest. From any reachable state, however the
    tasks are interleaved and whatever their environment answers, they take at
    most [work] further steps of their own; and as long as one is left some
    task can move, since the holder of a dispatch lock never waits. So no
    accepted call can hang on a lock, on a queue or on another task; a pod's
    run, which the code gives no time bound, is one step of its driver. *)
Theorem tasks_come_to_rest (P : StepEnv → Prop) (w : Shared) (ts : list Task) :
  (∀ w, P (some_env w)) → sys_reach P (w, ts) →
  (∀ n sys', nsteps (task_only P) n (w, ts) sys' → n ≤ work (w, ts)) ∧
  (∀ sys', rtc (task_only P) (w, ts) sys' → sys'.2 ≠ [] → ∃ sys'', task_only P sys' sys'') ∧
  (∃ w', rtc (task_only P) (w, ts) (w', [])).
Proof.
  intros HP Hr.
  assert (∀ sys sys', sys_reach P sys → rtc (task_only P) sys sys' → sys_reach P sys') as Hreach.
  { intros sys sys' H H'. unfold sys_reach in *. transitivity sys; [exact H|]. eapply rtc_subrel; [|exact H']. apply task_only_sys. }
  assert (∀ sys', rtc (task_only P) (w, ts) sys' → sys'.2 ≠ [] → ∃ sys'', task_only P sys' sys'') as Hprog.
  { intros [w' ts'] H Hne. apply task_only_progress; [done| |done]. by eapply Hreach. }
  split_and!; [|exact Hprog|].
  - generalize (w, ts). intros sys n. revert sys. induction n as [|n IH]; intros sys sys' H; [lia|].
    inversion H as [|? ? y ? Hs Hn]; subst. apply task_only_work in Hs. specialize (IH _ _ Hn). lia.
  - clear Hr Hreach. remember (work (w, ts)) as n eqn:En.
    assert (work (w, ts) ≤ n) as Hle by lia. clear En. revert w ts Hprog Hle.
    induction n as [n IH] using lt_wf_ind. intros w ts Hprog Hle. destruct ts as [|t ts]; [by exists w|].
    destruct (Hprog (w, t :: ts)) as [[w1 ts1] Hs]; [done|done|].
    pose proof (task_only_work _ _ _ Hs) as Hw.
    destruct (IH (work (w1, ts1)) ltac:(lia) w1 ts1) as [w' Hr']; [|done|].
    + intros sys' H. apply Hprog. by eapply rtc_l.
    + exists w'. by eapply rtc_l.
Qed.

(** ** Attaching to a warm pod *)

Definition keepalive_ok (s : DispatchState) : Prop :=
  ∀ k a, ds_active s !! k = Some a → (aj_keepalive_seconds a ≤ TOOL_KEEPALIVE_IDLE_SECONDS)%N.

Lemma task_step_keepalive e t w w' new :
  task_step e t w = Some (w', new) → keepalive_ok (sh_state w) → keepalive_ok (sh_state w').
Proof.
  intros H Hk. destruct t as [r ph|tool job name ph]; simpl in H.
  - unfold begin_step in H. destruct ph; split_step H; try exact Hk.
    + intros k a. simpl. intros [[_ <-]|[_ E]]%lookup_insert_Some; [|by eapply Hk]. simpl.
      unfold keepalive_seconds. destruct (cr_keepalive r); unfold TOOL_KEEPALIVE_IDLE_SECONDS; lia.
    + by apply remove_pending_call_spec in Heqp as [-> _].
    + by apply remove_pending_call_spec in Heqp as [-> _].
  - unfold driver_step in H. destruct ph; split_step H; try exact Hk.
    + by apply dequeue_call_spec in Heqp as (k & cs & rest & _ & _ & _ & _ & ->).
    + by apply dequeue_call_spec in Heqp as [-> _].
    + intros k a. simpl. rewrite map_lookup_imap. destruct (ds_active (sh_state w) !! k) eqn:E; simpl; [|done].
      intros [= <-]. case_decide; by eapply Hk in E.
    + apply remove_active_job_named_spec in Heqp as (f & -> & Hf). intros k a E. simpl in E.
      destruct (Hf (ds_active (sh_state w)) k) as [E'|E']; rewrite E' in E; [by eapply Hk|done].
    + apply remove_active_job_named_spec in Heqp as (f & -> & Hf). intros k a E. simpl in E.
      destruct (Hf (ds_active (sh_state w)) k) as [E'|E']; rewrite E' in E; [by eapply Hk|done].
    + apply remove_active_job_named_spec in Heqp as (f & -> & Hf). intros k a E. simpl in E.
      destruct (Hf (ds_active (sh_state w)) k) as [E'|E']; rewrite E' in E; [by eapply Hk|done].
    + intros k a. simpl.
      destruct (drop_guards_other guards (set_shadow (λ m, foldr delete m ids) (sh_state w))) as (-> & _). apply Hk.
    + intros k a. simpl. destruct (fire_call_cancel_other (pc_call_id p) (sh_state w)) as (-> & _). apply Hk.
Qed.

Lemma sys_reach_keepalive P sys : sys_reach P sys → keepalive_ok (sh_state sys.1).
Proof.
  revert sys. apply (rtc_ind_r (λ sys, keepalive_ok (sh_state sys.1))); [by intros k a|].
  intros y z _ Hs IH. destruct Hs as [| |id w ts]; simpl in *; [done|by eapply task_step_keepalive|].
  intros k a. simpl. destruct (fire_call_cancel_other id (sh_state w)) as (-> & _). apply IH.
Qed.

(** How long a job has been idle when a step looks at the clock. *)
Definition idle_for (e : StepEnv) (a : ActiveJob) : N := ev_now e - aj_last_activity a.

(** A call attaches only to a pod that will still be there: the job it
    attaches to is the one recorded for its own tool and grant, that job is
    kept alive, and it has been idle for less than 540 seconds, a minute short
    of the window after which the pod shuts itself down. *)
Theorem attach_leaves_margin (P : StepEnv → Prop) (e : StepEnv) (r : CallReq) (w w' : Shared) (ts : list Task)
    (job name : string) :
  sys_reach P (w, ts) → begin_step e r BChoose w = Some (w', [TBegin r (BSend job name)]) →
  ∃ a, ds_active (sh_state w) !! (cr_tool r, cr_grant r) = Some a ∧ aj_job_id a = job ∧ aj_job_name a = name ∧
    job ≠ "" ∧ aj_keepalive_seconds a ≠ 0%N ∧ (idle_for e a < secs 540)%N.
Proof.
  intros Hr H. apply sys_reach_keepalive in Hr. simpl in Hr. unfold begin_step, get_active_job, cr_key in H.
  destruct (ds_active (sh_state w) !! (cr_tool r, cr_grant r)) as [a|] eqn:E; [|done].
  destruct (attachable a (ev_now e)) eqn:Ea; simplify_eq/=. exists a. apply Hr in E as Hk.
  unfold attachable, str_is_empty in Ea. case_bool_decide as Hj; [done|].
  destruct (aj_keepalive_seconds a =? 0)%N eqn:E0; [done|]. simpl in Ea.
  apply N.ltb_lt in Ea. apply N.eqb_neq in E0. unfold idle_for, KEEPALIVE_ATTACH_MARGIN, TOOL_KEEPALIVE_IDLE_SECONDS, secs in *.
  split_and!; try done. lia.
Qed.

(** ** Concrete runs *)

Inductive Act : Type :=
| ActBegin (r : CallReq)
| ActTask (i : nat) (now : N) (run : PodRun)
| ActCancel (id : string).

(** The environment of a step: jobs are created, maps are met in key order. *)
Definition act_env (w : Shared) (now : N) (run : PodRun) : StepEnv :=
  mkStepEnv now true (ev_order (some_env w)) run.

Definition act_step (a : Act) (sys : Shared * list Task) : option (Shared * list Task) :=
  let '(w, ts) := sys in
  match a with
  | ActBegin r =>
      if decide (sh_calls w !! cr_id r = None ∧ cr_id r ≠ "")
      then Some (begin_call r w, ts ++ [TBegin r BLock]) else None
  | ActTask i now run =>
      t ← ts !! i;
      '(w', new) ← task_step (act_env w now run) t w;
      Some (w', take i ts ++ new ++ drop (S i) ts)
  | ActCancel id => Some (with_state (λ s, (fire_call_cancel id s).1) w, ts)
  end.

Fixpoint act_run (acts : list Act) (sys : Shared * list Task) : option (Shared * list Task) :=
  match acts with
  | [] => Some sys
  | a :: acts => act_step a sys ≫= act_run acts
  end.

Lemma act_step_sound (P : StepEnv → Prop) a sys sys' :
  (∀ i now run, a = ActTask i now run → ∀ w, P (act_env w now run)) →
  act_step a sys = Some sys' → sys_step P sys sys'.
Proof.
  intros HP. destruct sys as [w ts]. destruct a as [r|i now run|id]; simpl.
  - case_decide as H; [|done]. intros [= <-]. destruct H. by apply StepBegin.
  - destruct (ts !! i) as [t|] eqn:E; simpl; [|done].
    destruct (task_step _ t w) as [[w' new]|] eqn:Et; simpl; [|done]. intros [= <-].
    rewrite <- (take_drop_middle ts i t E) at 1. eapply StepTask; [by eapply HP| |exact Et].
    exact (some_env_ok w).
  - intros [= <-]. apply StepCancel.
Qed.

Lemma act_run_sound (P : StepEnv → Prop) acts sys sys' :
  (∀ i now run, ActTask i now run ∈ acts → ∀ w, P (act_env w now run)) →
  act_run acts sys = Some sys' → rtc (sys_step P) sys sys'.
Proof.
  revert sys. induction acts as [|a acts IH]; intros sys HP; simpl; [by intros [= ->]|].
  destruct (act_step a sys) as [sys1|] eqn:E; simpl; [|done]. intros H.
  eapply rtc_l; [eapply act_step_sound; [|exact E]|apply IH; [|done]].
  - intros i now run ->. apply (HP i). by left.
  - intros i now run Hin. apply (HP i). by right.
Qed.

(** The pod answered the one dial, streamed [frames] and closed. *)
Definition answered (frames : list ToolResultFrame) : PodRun := mkPodRun [DialConnected] (Ok (Ok <$> frames)) true.
Definition unreachable : PodRun := mkPodRun [DialFailed true] (Err "") true.
Definition done_frame : ToolResultFrame := mkFrame (Some (Complete (tool_outcome_i32 OutcomeDone) 0)).

Definition call_on (id : string) (grant : option string) : CallReq := mkCallReq id "sh" ∅ grant true.

(** [n] steps of the task at [i]. *)
Definition steps (n i : nat) (run : PodRun) : list Act := replicate n (ActTask i (secs 1) run).

Definition room (e : StepEnv) : Prop := pr_room (ev_run e) = true.

Definition act_room (a : Act) : bool := match a with ActTask _ _ run => pr_room run | _ => true end.

Lemma act_run_room acts sys sys' :
  forallb act_room acts = true → act_run acts sys = Some sys' → rtc (sys_step room) sys sys'.
Proof.
  rewrite List.forallb_forall. intros Hr. apply act_run_sound. intros i now run Hin w. red. simpl.
  apply (Hr (ActTask i now run)). by apply list_elem_of_In.
Qed.

(** The witness script: a call on grant [deploy] runs to its end. *)
Definition one_call : list Act := ActBegin (call_on "c1" (Some "deploy")) :: steps 17 0 (answered [done_frame]).

Definition end_of (acts : list Act) : Shared * list Task := default sys_init (act_run acts sys_init).

Lemma one_call_reach : sys_reach room ((end_of one_call).1, []).
Proof. apply (act_run_room one_call); by vm_compute. Qed.


Lemma accepted_calls_end_witness :
  "c1" ∈ sh_accepted (end_of one_call).1 ∧
  ∃ ch, ds_channels (sh_state (end_of one_call).1) !! "c1" = Some ch ∧ ch_open ch = false ∧
    ends_once (always_room room) (ch_frames ch).
Proof.
  assert ("c1" ∈ sh_accepted (end_of one_call).1) as H by (apply (bool_decide_unpack _); by vm_compute).
  split; [exact H|]. exact (accepted_calls_end room _ "c1" one_call_reach H).
Defined.

(** The script cut short: the call is queued, its driver is about to claim it. *)
Definition published : list Act := take 10 one_call.

Definition queued_task : Task := TDriver "sh" "c1" "tool-sh-c1" DClaim.

Lemma published_reach : sys_reach room ((end_of published).1, [queued_task]).
Proof. apply (act_run_room published); by vm_compute. Qed.

Lemma tasks_come_to_rest_witness :
  let sys := ((end_of published).1, [queued_task]) in
  (∀ n sys', nsteps (task_only room) n sys sys' → n ≤ work sys) ∧
  (∀ sys', rtc (task_only room) sys sys' → sys'.2 ≠ [] → ∃ sys'', task_only room sys' sys'') ∧
  (∃ w', rtc (task_only room) sys (w', [])).
Proof. exact (tasks_come_to_rest room (end_of published).1 [queued_task] (λ _, eq_refl) published_reach). Defined.

(** ** Two behaviours of the code *)

Definition frames_of (id : string) (w : Shared) : option (list ToolResultFrame) :=
  ch_frames <$> ds_channels (sh_state w) !! id.

(** A cancel that arrives before a driver claims the call is lost:
    [fire_call_cancel] finds the token and reports success, but it also removes
    it, so the driver that claims the call finds none, runs the call under a
    fresh token and lets it complete. *)
Theorem early_cancel_is_lost :
  ∃ w t w', sys_reach room (w, [t]) ∧
    (fire_call_cancel "c1" (sh_state w)).2 = true ∧
    rtc (sys_step room) (with_state (λ s, (fire_call_cancel "c1" s).1) w, [t]) (w', []) ∧
    frames_of "c1" w' = Some [done_frame].
Proof.
  exists (end_of published).1, queued_task,
    (end_of (published ++ ActCancel "c1" :: steps 8 0 (answered [done_frame]))).1.
  split_and!; [exact published_reach|by vm_compute| |by vm_compute].
  apply (act_run_room (steps 8 0 (answered [done_frame]))); by vm_compute.
Qed.

(** A call on grant [a] whose pod cannot be reached, while a call on grant [b]
    waits to be claimed for its own job. *)
Definition two_grants : list Act :=
  ActBegin (call_on "c1" (Some "a")) :: steps 9 0 unreachable ++
  ActBegin (call_on "c2" (Some "b")) :: steps 9 1 unreachable.

(** Grants are kept apart in the record of running jobs, but not when a job
    is given up: retiring the job of one grant also retires the calls that wait
    for the same tool under another grant. Their own job is recorded and was
    never dialled, yet they end as failed without having run. *)
Theorem eviction_crosses_grants :
  ∃ w w', sys_reach room (w, [TDriver "sh" "c1" "tool-sh-c1" DClaim; TDriver "sh" "c2" "tool-sh-c2" DClaim]) ∧
    rtc (sys_step room) (w, [TDriver "sh" "c1" "tool-sh-c1" DClaim; TDriver "sh" "c2" "tool-sh-c2" DClaim]) (w', []) ∧
    "c2" ∈ sh_accepted w ∧ frames_of "c2" w' = Some [failed_terminal] ∧
    (fst <$> sh_ran w') = ["c1"] ∧
    aj_job_id <$> ds_active (sh_state w') !! ("sh", Some "b") = Some "c2".
Proof.
  exists (end_of two_grants).1, (end_of (two_grants ++ steps 14 0 unreachable ++ steps 1 0 unreachable)).1.
  split_and!.
  - apply (act_run_room two_grants); by vm_compute.
  - apply (act_run_room (steps 14 0 unreachable ++ steps 1 0 unreachable)); by vm_compute.
  - apply (bool_decide_unpack _). by vm_compute.
  - by vm_compute.
  - by vm_compute.
  - by vm_compute.
Qed.

(** A second call on the same grant, 100 seconds after the first. *)
Definition second_call : CallReq := call_on "c2" (Some "deploy").
Definition warm : Shared * list Task :=
  end_of (one_call ++ ActBegin second_call :: steps 1 0 (answered [done_frame])).

Lemma attach_leaves_margin_witness :
  let e := act_env warm.1 (secs 101) (answered [done_frame]) in
  ∃ a, ds_active (sh_state warm.1) !! ("sh", Some "deploy") = Some a ∧ aj_job_id a = "c1" ∧
    aj_job_name a = "tool-sh-c1" ∧ "c1" ≠ "" ∧ aj_keepalive_seconds a ≠ 0%N ∧
    (idle_for e a < secs 540)%N.
Proof.
  assert (sys_reach room (warm.1, [TBegin second_call BChoose])) as Hr.
  { apply (act_run_room (one_call ++ ActBegin second_call :: steps 1 0 (answered [done_frame]))); by vm_compute. }
  refine (attach_leaves_margin room (act_env warm.1 (secs 101) (answered [done_frame])) second_call warm.1
            (match begin_step (act_env warm.1 (secs 101) (answered [done_frame])) second_call BChoose warm.1 with
             | Some x => x.1 | None => warm.1 end) [TBegin second_call BChoose] "c1" "tool-sh-c1" Hr _).
  by vm_compute.
Defined.
