(* ===== verification/ModelDispatch.v ===== *)
(** * Model dispatch

    Models the model-call half of [crates/harness/src/dispatch.rs]:
    [InferenceDispatch] resolves the model a turn names and opens a turn source
    for it, either a provider call made in process ([ProviderTurnSource], a
    local model) or the event stream of a per-call inference job
    ([RemoteTurnSource]); everything that goes wrong before is a source of one
    error ([ErrorTurnSource]). The provider clients, the decoding of a JSON
    string, the [Debug] rendering of a string, the API server and the job's pod
    are the environment. *)

From stdpp Require Import pretty.
From S2P Require Import Prelude Text Proto Scrub Inference Identity Turn Agent Dispatch.

(** ** Sources *)

Inductive Format : Type := Anthropic | OpenAi | Gemini.

Record ProviderConfig : Type := mkProviderConfig { pv_model : string; pv_api_key : string }.

(** A provider's client, bound to a format and a base URL. Its stream is the
    list of its items, then the end. *)
Definition Provider : Type :=
  list Message → option string → list ToolDefinition → ProviderConfig →
  result (list (result StreamEvent string)) string.

Record ProviderSource : Type := mkProviderSource {
  ps_provider : Provider; ps_config : ProviderConfig;
  ps_system : option string; ps_tools : list ToolDefinition; ps_messages : list Message;
  ps_stream : option (list (result StreamEvent string));
  ps_opened : bool; ps_events : list StreamEvent; ps_finished : bool }.

Definition provider_source (provider : Provider) (config : ProviderConfig) (request : TurnRequest)
  : ProviderSource :=
  mkProviderSource provider config (trq_system request) (trq_tools request) (trq_messages request)
                   None false [] false.

Definition ps_set (stream : list (result StreamEvent string)) (events : list StreamEvent) (finished : bool)
    (s : ProviderSource) : ProviderSource :=
  mkProviderSource (ps_provider s) (ps_config s) (ps_system s) (ps_tools s) (ps_messages s)
                   (Some stream) true events finished.

(** The loop of [ProviderTurnSource::next_event]: what is left of the stream,
    the events so far, whether the source is finished, and the event. *)
Fixpoint read_stream (stream : list (result StreamEvent string)) (events : list StreamEvent)
  : list (result StreamEvent string) * list StreamEvent * bool * TurnEvent :=
  match stream with
  | Ok event :: stream =>
      let events := events ++ [event] in
      match event with
      | SeDone stop_reason => (stream, events, true, assemble_turn_complete events stop_reason)
      | _ =>
          match stream_event_to_turn_event event with
          | Some frame => (stream, events, false, frame)
          | None => read_stream stream events
          end
      end
  | Err e :: stream => (stream, events, true, error_turn_event ("model stream error: " +:+ e))
  | [] => ([], events, true, error_turn_event "model stream ended without completion")
  end.

Definition provider_next_event (s : ProviderSource) : ProviderSource * option (result TurnEvent string) :=
  if ps_finished s then (s, None) else
  let read stream :=
    let '(stream, events, finished, event) := read_stream stream (ps_events s) in
    (ps_set stream events finished s, Some (Ok event)) in
  if ps_opened s then
    match ps_stream s with
    | Some stream => read stream
    | None => (s, None)        (* [expect]: an opened source that is not finished has its stream *)
    end
  else
    match ps_provider s (ps_messages s) (ps_system s) (ps_tools s) (ps_config s) with
    | Ok stream => read stream
    | Err e =>
        (mkProviderSource (ps_provider s) (ps_config s) (ps_system s) (ps_tools s) (ps_messages s)
                          (ps_stream s) true (ps_events s) true,
         Some (Ok (error_turn_event ("model call failed: " +:+ e))))
    end.

Inductive Source : Type :=
| ErrorSource (message : option string)
| LocalSource (s : ProviderSource)
| RemoteSource (frames : list (result TurnEvent string)).

Definition next_event (s : Source) : Source * option (result TurnEvent string) :=
  match s with
  | ErrorSource (Some m) => (ErrorSource None, Some (Ok (error_turn_event m)))
  | ErrorSource None => (s, None)
  | LocalSource p => let '(p, r) := provider_next_event p in (LocalSource p, r)
  | RemoteSource (Ok e :: frames) => (RemoteSource frames, Some (Ok e))
  | RemoteSource (Err e :: frames) => (RemoteSource frames, Some (Err ("stream error: " +:+ e)))
  | RemoteSource [] => (s, None)
  end.

(** Reading a source until it ends, at most [fuel] times; the boolean says
    whether it ended. *)
Fixpoint read_source (fuel : nat) (s : Source) : list (result TurnEvent string) * bool :=
  match fuel with
  | O => ([], false)
  | S fuel =>
      match next_event s with
      | (_, None) => ([], true)
      | (s, Some r) => let '(rs, ended) := read_source fuel s in (r :: rs, ended)
      end
  end.

(** ** Opening a model call *)

Definition LOCAL_INFERENCE_PORT : N := 8080.
Definition TOOL_JOB_PORT : N := 9090.

Definition local_service_base_url (key namespace : string) : string :=
  "http://inf-" +:+ key +:+ "." +:+ namespace +:+ ".svc.cluster.local:"
  +:+ pretty LOCAL_INFERENCE_PORT +:+ "/v1".

(** The arguments of [build_inference_job]. *)
Record InferenceJob : Type := mkInferenceJob {
  ij_call_id : string; ij_namespace : string; ij_service_name : string; ij_workspace : string;
  ij_model_key : string; ij_image : string; ij_format : string; ij_model : string;
  ij_base_url : string; ij_secret : option string }.

Record TurnAssignment : Type := mkTurnAssignment {
  ta_system : option string; ta_tools : list ToolDefinition; ta_messages : list Message;
  ta_conversation_id : string }.

Record InferenceDispatch : Type := mkInferenceDispatch {
  id_models : gmap string ModelConfig; id_allowed : list string; id_kube : bool;
  id_namespace : string; id_service_name : string; id_workspace : string }.

(** The world of one model call. *)
Record ModelEnv : Type := mkModelEnv {
  me_call_id : string;                               (* the fresh uuid *)
  me_create : InferenceJob → result unit string;     (* the API server *)
  me_dial : list DialAttempt;                        (* the tries to connect *)
  me_assignment_sent : bool;
  me_run : string → TurnAssignment → result (list (result TurnEvent string)) string }.

Section open.
Context (json_string : string → option string)      (* [serde_json] on a string literal *)
  (debug : string → string)                          (* [{:?}] of a string *)
  (build : Format → string → Provider).              (* [Format::build] *)

Definition format_of (name : string) : option Format :=
  if decide (name = "anthropic") then Some Anthropic
  else if decide (name = "openai") then Some OpenAi
  else if decide (name = "gemini") then Some Gemini
  else None.

Definition quote : string := str_of [byte_of 34].

Definition parse_format (format : string) : result Format string :=
  ok_or (json_string (quote +:+ format +:+ quote) ≫= format_of) ("unknown model format " +:+ debug format).

Definition dial_inference (env : ModelEnv) (endpoint : string) (assignment : TurnAssignment)
  : result (list (result TurnEvent string)) string :=
  if negb (dial (me_dial env)) then
    Err ("inference pod at " +:+ endpoint +:+ " did not answer within the readiness window")
  else if negb (me_assignment_sent env) then
    Err "inference outbound half closed before the assignment was sent"
  else match me_run env endpoint assignment with
       | Ok frames => Ok frames
       | Err e => Err ("inference Run failed: " +:+ e)
       end.

(** The source, and the jobs created. *)
Definition open (env : ModelEnv) (d : InferenceDispatch) (key : string) (config : ModelConfig)
    (request : TurnRequest) : Source * list InferenceJob :=
  match parse_format (mc_format config) with
  | Err e => (ErrorSource (Some e), [])
  | Ok format =>
      match config with
      | Local _ _ =>
          let base_url := local_service_base_url key (id_namespace d) in
          (LocalSource (provider_source (build format base_url)
                          (mkProviderConfig (mc_model config) "") request), [])
      | Remote _ _ base_url image secret =>
          if negb (id_kube d) then
            (ErrorSource (Some "a remote model needs a kube client to create its inference job"), [])
          else
            let call_id := me_call_id env in
            let job_spec := mkInferenceJob call_id (id_namespace d) (id_service_name d) (id_workspace d)
                              key image (mc_format config) (mc_model config) base_url secret in
            match me_create env job_spec with
            | Err e => (ErrorSource (Some ("failed to create inference job: " +:+ e)), [])
            | Ok _ =>
                let endpoint := "http://" +:+ pod_dial_name call_id (id_service_name d) (id_namespace d)
                                +:+ ":" +:+ pretty TOOL_JOB_PORT in
                let assignment := mkTurnAssignment (trq_system request) (trq_tools request)
                                    (trq_messages request) (trq_conversation_id request) in
                match dial_inference env endpoint assignment with
                | Ok source => (RemoteSource source, [job_spec])
                | Err e => (ErrorSource (Some e), [job_spec])
                end
            end
      end
  end.

Definition debug_list (l : list string) : string := "[" +:+ str_join ", " (debug <$> l) +:+ "]".

Definition turn (env : ModelEnv) (d : InferenceDispatch) (request : TurnRequest)
  : Source * list InferenceJob :=
  match trq_model request with
  | None =>
      (ErrorSource (Some "no model named for this turn; the harness refuses to default a model"), [])
  | Some key =>
      let config := if decide (key ∈ id_allowed d) then id_models d !! key else None in
      match config with
      | None =>
          (ErrorSource (Some ("unknown model " +:+ debug key +:+ "; this workspace's models: "
                              +:+ debug_list (id_allowed d))), [])
      | Some config => open env d key config request
      end
  end.
End open.

(** ** A local model answers as an inference job does *)

Lemma scrub_nothing set e : replacements set = [] → scrub_turn_event set e = e.
Proof.
  intros Hs. assert (∀ t, scrub_apply set t = t) as Ha by (intros t; unfold scrub_apply; by rewrite Hs).
  destruct e as [[e|]]; [|done]. unfold scrub_turn_event. simpl. do 2 f_equal.
  destruct e as [t|id name|j|r content calls|c m|f r]; rewrite ?Ha; try done. f_equal.
  - rewrite <- (list_fmap_id content) at 2. apply list_fmap_ext. intros _ [[[]|]] _; unfold scrub_block; simpl; by rewrite ?Ha.
  - rewrite <- (list_fmap_id calls) at 2. apply list_fmap_ext. intros _ [] _. unfold scrub_call. simpl. by rewrite !Ha.
Qed.

Definition polls_of (items : list (result StreamEvent string)) : list poll := (PollItem <$> items) ++ [PollEnd].

Lemma read_done fuel s : ps_finished s = true → read_source (S fuel) (LocalSource s) = ([], true).
Proof. intros Hf. simpl. unfold provider_next_event. by rewrite Hf. Qed.

(** One event of the source is what the job's loop sends next. *)
Lemma drain_reads set items events out :
  replacements set = [] →
  let '(rest, events', finished, e) := read_stream items events in
  drain set (λ _, true) (polls_of items) events out
  = (if finished then (out ++ [e], true) else drain set (λ _, true) (polls_of rest) events' (out ++ [e])) ∧
  length rest ≤ length items ∧ (finished = false → length rest < length items).
Proof.
  intros Hs. revert events. induction items as [|[event|e] items IH]; intros events; simpl.
  - unfold send. simpl. rewrite scrub_nothing by done. split_and!; [done|lia|done].
  - destruct event; simpl; unfold send; simpl; rewrite ?scrub_nothing by done; try (split_and!; [done|lia|lia]).
    specialize (IH (events ++ [SeThinkingDelta text])).
    destruct (read_stream items _) as [[[rest events'] finished] e]. destruct IH as (H1 & H2 & H3).
    split_and!; [done|lia|]. intros E. specialize (H3 E). lia.
  - unfold send. simpl. rewrite scrub_nothing by done. split_and!; [done|lia|done].
Qed.

Lemma read_local set s items out fuel :
  replacements set = [] → ps_stream s = Some items → ps_opened s = true → ps_finished s = false →
  length items + 2 ≤ fuel →
  let '(rs, ended) := read_source fuel (LocalSource s) in
  ended = true ∧ ∃ es, rs = Ok <$> es ∧
    drain set (λ _, true) (polls_of items) (ps_events s) out = (out ++ es, true).
Proof.
  intros Hs. revert s items out. induction fuel as [|fuel IH]; intros s items out Hst Ho Hf Hle; [lia|].
  simpl. unfold provider_next_event. rewrite Hf, Ho, Hst.
  pose proof (drain_reads set items (ps_events s) out Hs) as Hd.
  destruct (read_stream items (ps_events s)) as [[[rest events'] finished] e]. destruct Hd as (Hd & Hl & Hlt).
  destruct finished; simpl.
  - destruct fuel as [|fuel]; [lia|]. rewrite read_done by done. split; [done|]. by exists [e].
  - specialize (IH (ps_set rest events' false s) rest (out ++ [e]) eq_refl eq_refl eq_refl).
    specialize (Hlt eq_refl). specialize (IH ltac:(lia)).
    destruct (read_source fuel _) as [rs ended]. destruct IH as (-> & es & -> & Hd').
    split; [done|]. exists (e :: es). split; [done|]. rewrite Hd. simpl in Hd'. rewrite Hd'.
    by rewrite <- app_assoc.
Qed.

(** A local model and an inference job are the same turn source to the
    agent loop: read to its end, the in-process source yields exactly the
    events the job's [run_model_call] sends for the same provider answers, when
    there is no credential to scrub and nobody hangs up; and it does end, after
    at most two reads more than the provider has items. *)
Theorem local_source_is_model_call (set : ScrubSet) (provider : Provider) (config : ProviderConfig)
    (request : TurnRequest) (fuel : nat) :
  let opened := provider (trq_messages request) (trq_system request) (trq_tools request) config in
  replacements set = [] →
  match opened with Ok items => length items | Err _ => 0 end + 2 ≤ fuel →
  read_source fuel (LocalSource (provider_source provider config request))
  = (Ok <$> (run_model_call set (λ _, true)
       (match opened with Ok items => Ok (polls_of items) | Err e => Err e end)).1, true).
Proof.
  intros opened Hs Hle. destruct fuel as [|fuel]; [lia|]. simpl. unfold provider_next_event. simpl. fold opened.
  destruct opened as [items|e] eqn:E; simpl.
  - pose proof (drain_reads set items [] [] Hs) as Hd.
    destruct (read_stream items []) as [[[rest events'] finished] e]. destruct Hd as (Hd & Hl & Hlt).
    rewrite Hd. destruct finished; simpl.
    + destruct fuel as [|fuel]; [lia|]. by rewrite read_done.
    + specialize (Hlt eq_refl).
      pose proof (read_local set (ps_set rest events' false (provider_source provider config request)) rest [e] fuel
        Hs eq_refl eq_refl eq_refl ltac:(lia)) as H.
      destruct (read_source fuel _) as [rs ended]. destruct H as (-> & es & -> & Hd').
      simpl in Hd'. by rewrite Hd'.
  - destruct fuel as [|fuel]; [lia|]. rewrite read_done by done. unfold send. simpl.
    by rewrite scrub_nothing.
Qed.

(** ** Resolution *)

(** The model a turn may use: named, allowed to the workspace, and configured. *)
Definition resolved (d : InferenceDispatch) (request : TurnRequest) (key : string) (config : ModelConfig) : Prop :=
  trq_model request = Some key ∧ key ∈ id_allowed d ∧ id_models d !! key = Some config.

Section resolution.
Context (json_string : string → option string) (debug : string → string) (build : Format → string → Provider).
Abbreviation turn := (turn json_string debug build).
Abbreviation parse_format := (parse_format json_string debug).

Lemma turn_cases env d request :
  (∃ m, turn env d request = (ErrorSource (Some m), []) ∧ ∀ key config, ¬ resolved d request key config) ∨
  (∃ key config, resolved d request key config ∧
     turn env d request = open json_string debug build env d key config request).
Proof.
  unfold ModelDispatch.turn, resolved. destruct (trq_model request) as [key|]; [|left; eexists; split; [done|naive_solver]].
  case_decide as Ha; [|left; eexists; split; [done|naive_solver]].
  destruct (id_models d !! key) as [config|] eqn:Em; [right; by exists key, config|left; eexists; split; [done|naive_solver]].
Qed.

(** Models fail closed: a turn that names no model, a model the workspace
    is not allowed, one that is not configured or one of an unknown format
    creates no job and reaches no provider; the agent loop's drain of it ends
    at once with an error that is not a model result. *)
Theorem turn_fails_closed env d request uuid scrub idle emit :
  (∀ key config, resolved d request key config → ∃ e, parse_format (mc_format config) = Err e) →
  ∃ message, turn env d request = (ErrorSource (Some message), []) ∧
    (∀ fuel, read_source (2 + fuel) (turn env d request).1 = ([Ok (error_turn_event message)], true)) ∧
    (consume_turn_stream_cancellable uuid scrub idle [StepEvent (error_turn_event message)] emit).2
      = Err (Ended ("turn error 0: " +:+ message)).
Proof.
  intros Hn. assert (∃ message, turn env d request = (ErrorSource (Some message), [])) as [message Hm].
  { destruct (turn_cases env d request) as [(m & H & _)|(key & config & Hr & ->)]; [eauto|].
    destruct (Hn key config Hr) as [e He]. exists e. unfold open. by rewrite He. }
  exists message. split; [done|]. rewrite Hm. split; [done|].
  unfold consume_turn_stream_cancellable. by destruct (stream_items_for _ _ emit).
Qed.

(** C32. The model a turn reaches is the one it named: at most one inference job
    is created for a turn, and it carries the image, endpoint, model id and
    credential Secret of the configured remote model of that name, which the
    workspace is allowed; and a provider is called in process only for a
    configured local model, at that model's own Service and with an empty key. *)
Theorem turn_reaches_named_model env d request source jobs :
  turn env d request = (source, jobs) →
  length jobs ≤ 1 ∧
  (∀ job, job ∈ jobs → ∃ key format model base_url image secret,
     resolved d request key (Remote format model base_url image secret) ∧
     job = mkInferenceJob (me_call_id env) (id_namespace d) (id_service_name d) (id_workspace d)
             key image format model base_url secret) ∧
  (∀ p, source = LocalSource p → jobs = [] ∧ ∃ key name format model,
     resolved d request key (Local name model) ∧ parse_format name = Ok format ∧
     p = provider_source (build format (local_service_base_url key (id_namespace d)))
           (mkProviderConfig model "") request).
Proof.
  intros H. destruct (turn_cases env d request) as [(m & E & _)|(key & config & Hr & E)]; rewrite E in H.
  - simplify_eq. split_and!; [simpl; lia|set_solver|done].
  - unfold open in H. destruct (parse_format (mc_format config)) as [format|] eqn:Ef;
      [|simplify_eq; split_and!; [simpl; lia|set_solver|done]].
    destruct config as [name model|name model base_url image secret].
    + simplify_eq. split_and!; [simpl; lia|set_solver|]. intros p [= <-]. split; [done|].
      by exists key, name, format, model.
    + repeat case_match; simplify_eq; (split_and!; [simpl; lia| |done]); try set_solver;
        intros job ->%list_elem_of_singleton; by exists key, name, model, base_url, image, secret.
Qed.
End resolution.

(** ** Witnesses *)

Definition unquote (s : string) : option string :=
  str_strip_prefix quote s ≫= str_strip_suffix quote.

Definition sample_provider (_ : Format) (_ : string) : Provider :=
  λ _ _ _ _, Ok [Ok (SeThinkingDelta "hm"); Ok (SeContentDelta "hi"); Ok (SeDone "end_turn")].

Definition turn_request (model : option string) : TurnRequest :=
  mkTurnRequest None [] [] model None None None "conv".

Definition sample_dispatch : InferenceDispatch :=
  mkInferenceDispatch {[ "qwen" := Local "openai" "q"; "opus" := Remote "anthropic" "o" "https://x" "img" (Some "key");
                         "other" := Remote "anthropic" "o" "https://y" "img" (Some "theirs") ]}
    ["qwen"; "opus"] true "ns" "svc" "ws".

Definition sample_menv : ModelEnv :=
  mkModelEnv "call-1" (λ _, Ok tt) [DialFailed false; DialConnected] true (λ _ _, Ok []).

Lemma local_source_is_model_call_witness :
  read_source 5 (LocalSource (provider_source (sample_provider OpenAi "u") (mkProviderConfig "q" "") (turn_request None)))
  = (Ok <$> (run_model_call scrub_empty_set (λ _, true)
       (Ok (polls_of [Ok (SeThinkingDelta "hm"); Ok (SeContentDelta "hi"); Ok (SeDone "end_turn")]))).1, true).
Proof.
  apply (local_source_is_model_call scrub_empty_set (sample_provider OpenAi "u") (mkProviderConfig "q" "")
           (turn_request None) 5); [reflexivity|simpl; lia].
Defined.

Lemma turn_fails_closed_witness :
  ∃ message, turn unquote (λ s, s) sample_provider sample_menv sample_dispatch (turn_request (Some "other"))
             = (ErrorSource (Some message), []) ∧
    (∀ fuel, read_source (2 + fuel) (turn unquote (λ s, s) sample_provider sample_menv sample_dispatch
                                       (turn_request (Some "other"))).1
             = ([Ok (error_turn_event message)], true)) ∧
    (consume_turn_stream_cancellable (λ _, "e") scrub_empty_set 60 [StepEvent (error_turn_event message)] (emit_new "conv")).2
      = Err (Ended ("turn error 0: " +:+ message)).
Proof.
  apply turn_fails_closed. intros key config (Hk & Ha & _). injection Hk as <-.
  exfalso. revert Ha. vm_compute. set_solver.
Defined.

Lemma turn_reaches_named_model_witness :
  let r := turn unquote (λ s, s) sample_provider sample_menv sample_dispatch (turn_request (Some "opus")) in
  r.2 = [mkInferenceJob "call-1" "ns" "svc" "ws" "opus" "img" "anthropic" "o" "https://x" (Some "key")] ∧
  length r.2 ≤ 1.
Proof.
  split; [by vm_compute|].
  apply (turn_reaches_named_model unquote (λ s, s) sample_provider sample_menv sample_dispatch
           (turn_request (Some "opus"))
           (turn unquote (λ s, s) sample_provider sample_menv sample_dispatch (turn_request (Some "opus"))).1
           (turn unquote (λ s, s) sample_provider sample_menv sample_dispatch (turn_request (Some "opus"))).2).
  by vm_compute.
Defined.
