(* ===== verification/Instructions.v ===== *)
(** * The instruction tree of a workspace

    Models [crates/harness/src/instructions.rs]: reads of the mounted
    instruction volume, confined to the workspace's own directory, and the
    listing of that directory. The file system is a tree with symbolic links;
    [canonicalize] resolves them with the kernel's limit of 40. *)

From S2P Require Import Prelude Text Toolset.

(** ** The file system *)

Inductive Node : Type :=
| File (contents : bytes)
| Link (target : string)
| Dir (entries : list (string * Node))   (* in the order [read_dir] yields them *)
| Special.                               (* a device, a socket, an unreadable file *)

(** A canonical path is the list of its components. *)
Fixpoint node_at (n : Node) (path : list string) : option Node :=
  match path with
  | [] => Some n
  | c :: path => match n with Dir es => bt_get c es ≫= λ n, node_at n path | _ => None end
  end.

Definition slash : ascii := "/"%char.
Definition backslash : ascii := byte_of 92.

Inductive IoError : Type := IoNotFound | IoOther (e : string).

Definition SYMLINK_LIMIT : nat := 40.

Fixpoint resolve (links : nat) (fs : Node) : list string → list string → result (list string) IoError :=
  fix go (cur comps : list string) {struct comps} : result (list string) IoError :=
    match comps with
    | [] => Ok cur
    | c :: comps =>
        match node_at fs cur with
        | Some (Dir es) =>
            if decide (c = "" ∨ c = ".") then go cur comps
            else if decide (c = "..") then go (removelast cur) comps
            else match bt_get c es with
                 | None => Err IoNotFound
                 | Some (Link target) =>
                     match links with
                     | O => Err (IoOther "too many levels of symbolic links")
                     | S links =>
                         resolve links fs (if str_starts_with "/" target then [] else cur)
                                 (str_split slash target ++ comps)
                     end
                 | Some _ => go (cur ++ [c]) comps
                 end
        | _ => Err (IoOther "not a directory")
        end
    end.

Definition canonicalize (fs : Node) (path : list string) : result (list string) IoError :=
  resolve SYMLINK_LIMIT fs [] path.

Definition read_to_string (fs : Node) (path : list string) : result string IoError :=
  match node_at fs path with
  | Some (File contents) =>
      if utf8_valid contents then Ok (str_of contents)
      else Err (IoOther "stream did not contain valid UTF-8")
  | Some (Dir _) => Err (IoOther "is a directory")
  | Some _ => Err (IoOther "cannot be read")
  | None => Err IoNotFound
  end.

(** ** Names *)

Inductive InstructionsError : Type :=
| INotFound
| InvalidName (n : string)
| PathEscape
| IIo (e : IoError).

Definition validate_basename (name : string) : result unit InstructionsError :=
  if str_is_empty name then Err (InvalidName name)
  else if str_contains_char slash name || str_contains_char backslash name
          || bool_decide (name = ".") || bool_decide (name = "..") then Err (InvalidName name)
  else if str_starts_with "." name then Err (InvalidName name)
  else Ok tt.

Definition bad_component (component : string) : bool :=
  str_is_empty component || bool_decide (component = ".") || bool_decide (component = "..")
  || str_contains_char backslash component || str_starts_with "." component.

Definition validate_relpath (rel : string) : result unit InstructionsError :=
  if str_is_empty rel || str_starts_with "/" rel then Err (InvalidName rel)
  else if existsb bad_component (str_split slash rel) then Err (InvalidName rel)
  else Ok tt.

(** ** Line windows and descriptions *)

Definition slice_lines (body : string) (offset limit : option nat) : string :=
  match offset, limit with
  | None, None => body
  | _, _ =>
      let lines := str_lines body in
      let start := default 0 (Nat.pred <$> offset) `min` length lines in
      let finish := match limit with
                    | Some l => (start + l) `min` length lines
                    | None => length lines
                    end in
      str_join (str_of [newline]) (take (finish - start) (drop start lines))
  end.

Fixpoint paragraph_go (buf : string) (lines : list string) : string :=
  match lines with
  | [] => buf
  | line :: lines =>
      let trimmed := str_trim line in
      if str_is_empty trimmed then (if str_is_empty buf then paragraph_go buf lines else buf)
      else if str_starts_with "#" trimmed then paragraph_go buf lines
      else paragraph_go ((if str_is_empty buf then buf else buf +:+ " ") +:+ trimmed) lines
  end.

Definition first_paragraph (body : string) : string := paragraph_go "" (str_lines body).

(** ** Reading and listing *)

(** [collect_files]: the files below [n], by their path relative to the root. *)
Fixpoint collect_files (prefix : list string) (n : Node) : list string :=
  match n with
  | Dir entries =>
      (fix go (entries : list (string * Node)) : list string :=
         match entries with
         | [] => []
         | (name, child) :: entries =>
             match child with
             | Dir _ => collect_files (prefix ++ [name]) child
             | File _ =>
                 let rel := str_join "/" (prefix ++ [name]) in
                 if utf8_valid (B rel) then [rel] else []
             | Link _ | Special => []
             end ++ go entries
         end) entries
  | _ => []
  end.

Section instructions.
Context (fs : Node) (root : list string).

Definition workspace_root (workspace : string) : result (list string) InstructionsError :=
  let? _ := validate_basename workspace in
  Ok (root ++ [workspace]).

Definition canonical_or (path : list string) : result (list string) InstructionsError :=
  map_err (λ e, match e with IoNotFound => INotFound | IoOther _ => IIo e end) (canonicalize fs path).

(** The guard [read_rel] and [read_md] share: the canonical path, if it lies
    in the canonical root. *)
Definition confined (ws_root full : list string) : result (list string) InstructionsError :=
  let? canonical := canonical_or full in
  let? canonical_root := map_err IIo (canonicalize fs ws_root) in
  if decide (canonical_root `prefix_of` canonical) then Ok canonical else Err PathEscape.

Definition read_rel (workspace rel_path : string) : result string InstructionsError :=
  let? _ := validate_relpath rel_path in
  let? ws_root := workspace_root workspace in
  let? canonical := confined ws_root (ws_root ++ str_split slash rel_path) in
  map_err IIo (read_to_string fs canonical).

Definition read (workspace rel_path : string) (offset limit : option nat)
  : result string InstructionsError :=
  let? body := read_rel workspace rel_path in
  Ok (slice_lines body offset limit).

(** [Path::extension] of the last component. *)
Definition extension (path : list string) : option string :=
  name ← last path;
  match reverse (str_split dot name) with
  | ext :: (before :: rest) =>
      if decide (rest = [] ∧ before = "") then None else Some ext
  | _ => None
  end.

Definition read_md (workspace rel : string) : result string InstructionsError :=
  let? ws_root := workspace_root workspace in
  let? canonical := confined ws_root (ws_root ++ [rel]) in
  if decide (extension canonical = Some "md") then map_err IIo (read_to_string fs canonical)
  else Err (InvalidName rel).

Definition read_primary_agent (workspace : string) : result string InstructionsError :=
  read_md workspace "AGENTS.md".

Definition list_tree (workspace : string) (cap : nat) : list string :=
  match workspace_root workspace with
  | Err _ => []
  | Ok ws_root =>
      match canonicalize fs ws_root with
      | Err _ => []
      | Ok canonical_root =>
          take cap (sort_by str_leb (match node_at fs canonical_root with
                                     | Some n => collect_files [] n
                                     | None => []
                                     end))
      end
  end.
End instructions.

(** ** Resolving paths *)

(** What a file system can hold: names are not empty, not [.] or [..], have no
    slash, and are unique in their directory. *)
Definition plain_name (c : string) : Prop := c ≠ "" ∧ c ≠ "." ∧ c ≠ ".." ∧ slash ∉ B c.

#[export] Instance plain_name_dec c : Decision (plain_name c).
Proof. unfold plain_name. apply _. Defined.

Fixpoint tree_wf (n : Node) : Prop :=
  match n with
  | Dir entries =>
      NoDup entries.*1 ∧ Forall plain_name entries.*1 ∧
      (fix go (entries : list (string * Node)) : Prop :=
         match entries with
         | [] => True
         | (_, child) :: entries => tree_wf child ∧ go entries
         end) entries
  | _ => True
  end.

Definition is_link (n : Node) : bool := match n with Link _ => true | _ => false end.

Lemma tree_wf_entry entries name child :
  tree_wf (Dir entries) → (name, child) ∈ entries →
  bt_get name entries = Some child ∧ plain_name name ∧ tree_wf child.
Proof.
  intros (Hnd & Hp & Hw) Hin. split_and!.
  - clear Hp Hw. induction entries as [|[k v] entries IH]; [set_solver|]. simpl in *.
    apply NoDup_cons in Hnd as [Hk Hnd]. apply elem_of_cons in Hin as [[= <- <-]|Hin]; [by rewrite decide_True|].
    rewrite decide_False; [by apply IH|]. intros ->. apply Hk, list_elem_of_fmap. by exists (k, child).
  - rewrite Forall_forall in Hp. apply Hp, list_elem_of_fmap. by exists (name, child).
  - clear Hnd Hp. induction entries as [|[k v] entries IH]; [set_solver|]. destruct Hw as [Hv Hw].
    apply elem_of_cons in Hin as [[= <- <-]|Hin]; [done|by apply IH].
Qed.

Lemma bt_get_elem {V} k (l : list (string * V)) v : bt_get k l = Some v → (k, v) ∈ l.
Proof.
  induction l as [|[k' v'] l IH]; simpl; [done|]. case_decide as E; [intros [= ->]; subst; by left|].
  intros H. right. auto.
Qed.

Lemma node_at_wf n path m : tree_wf n → node_at n path = Some m → tree_wf m.
Proof.
  revert n. induction path as [|c path IH]; intros n Hw; simpl; [by intros [= <-]|].
  destruct n as [| |es|]; try done. destruct (bt_get c es) as [child|] eqn:E; simpl; [|done].
  apply IH. apply bt_get_elem in E. by eapply tree_wf_entry.
Qed.

Lemma node_at_app n p q : node_at n (p ++ q) = node_at n p ≫= λ m, node_at m q.
Proof.
  revert n. induction p as [|c p IH]; intros n; simpl; [done|]. destruct n as [| |es|]; try done.
  destruct (bt_get c es); simpl; [apply IH|done].
Qed.

(** Components that are there and are no links resolve to themselves. *)
Lemma resolve_plain links fs cur path n :
  Forall plain_name path → node_at fs (cur ++ path) = Some n → is_link n = false →
  resolve links fs cur path = Ok (cur ++ path).
Proof.
  intros Hp. revert cur. induction Hp as [|c path (Hc1 & Hc2 & Hc3 & _) Hp IH]; intros cur Hn Hl.
  - rewrite app_nil_r. by destruct links.
  - rewrite node_at_app in Hn. destruct (node_at fs cur) as [m|] eqn:Ec; simpl in Hn; [|done].
    destruct m as [| |es|]; try done. destruct (bt_get c es) as [child|] eqn:Eb; simpl in Hn; [|done].
    assert (resolve links fs (cur ++ [c]) path = Ok (cur ++ c :: path)) as Hr.
    { specialize (IH (cur ++ [c])). rewrite <- app_assoc in IH. apply IH; [|done]. simpl.
      rewrite node_at_app, Ec. simpl. by rewrite Eb. }
    assert (is_link child = false) as Hlc.
    { destruct child; try done. destruct path; simpl in Hn; [by injection Hn as <-|done]. }
    destruct links; simpl in *; rewrite Ec, decide_False by tauto; rewrite decide_False by done;
      rewrite Eb; by destruct child.
Qed.

Lemma resolve_step links fs cur c comps :
  resolve links fs cur (c :: comps) =
  match node_at fs cur with
  | Some (Dir es) =>
      if decide (c = "" ∨ c = ".") then resolve links fs cur comps
      else if decide (c = "..") then resolve links fs (removelast cur) comps
      else match bt_get c es with
           | None => Err IoNotFound
           | Some (Link target) =>
               match links with
               | O => Err (IoOther "too many levels of symbolic links")
               | S links => resolve links fs (if str_starts_with "/" target then [] else cur)
                                   (str_split slash target ++ comps)
               end
           | Some _ => resolve links fs (cur ++ [c]) comps
           end
  | _ => Err (IoOther "not a directory")
  end.
Proof. by destruct links. Qed.

Lemma resolve_below links fs cur comps c path n :
  resolve links fs cur comps = Ok c → Forall plain_name path →
  node_at fs (c ++ path) = Some n → is_link n = false →
  resolve links fs cur (comps ++ path) = Ok (c ++ path).
Proof.
  intros Hr Hp Hn Hl. revert cur comps Hr. induction links as [|links IHl]; intros cur comps.
  all: revert cur; induction comps as [|d comps IH]; intros cur Hr;
    [assert (cur = c) as -> by (simpl in Hr; congruence); by eapply resolve_plain|].
  all: rewrite <- app_comm_cons, resolve_step; rewrite resolve_step in Hr.
  all: destruct (node_at fs cur) as [[| |es|]|]; try done.
  all: repeat case_decide; try (by apply IH).
  all: destruct (bt_get d es) as [[]|]; try done; try (by apply IH).
  rewrite app_assoc. by apply IHl.
Qed.

(** ** Listing *)

Fixpoint node_size (n : Node) : nat :=
  match n with
  | Dir entries =>
      S ((fix go (entries : list (string * Node)) : nat :=
            match entries with [] => 0 | (_, child) :: entries => node_size child + go entries end) entries)
  | _ => 1
  end.

Lemma entry_size entries name child : (name, child) ∈ entries → node_size child < node_size (Dir entries).
Proof.
  intros Hin. simpl. induction entries as [|[k v] entries IH]; [set_solver|].
  apply elem_of_cons in Hin as [[= <- <-]|Hin]; [lia|]. specialize (IH Hin). lia.
Qed.

(** What one entry of a directory contributes. *)
Definition entry_files (prefix : list string) (e : string * Node) : list string :=
  match e.2 with
  | Dir _ => collect_files (prefix ++ [e.1]) e.2
  | File _ =>
      let rel := str_join "/" (prefix ++ [e.1]) in if utf8_valid (B rel) then [rel] else []
  | Link _ | Special => []
  end.

Lemma collect_files_dir prefix entries : collect_files prefix (Dir entries) = entries ≫= entry_files prefix.
Proof. simpl. by induction entries as [|[name child] entries IH]; simpl; [done|rewrite IH]. Qed.

Lemma collect_files_spec n prefix p :
  tree_wf n → p ∈ collect_files prefix n →
  ∃ path contents, path ≠ [] ∧ Forall plain_name path ∧ node_at n path = Some (File contents) ∧
    p = str_join "/" (prefix ++ path) ∧ utf8_valid (B p) = true.
Proof.
  revert prefix. induction n as [n IH] using (induction_ltof1 _ node_size). intros prefix Hw Hin.
  destruct n as [| |entries|]; [set_solver|set_solver| |set_solver].
  rewrite collect_files_dir in Hin. apply list_elem_of_bind in Hin as ([name child] & Hp & Hin).
  destruct (tree_wf_entry entries name child Hw Hin) as (Hb & Hpl & Hwc).
  destruct child as [contents|target|es|]; unfold entry_files in Hp; simpl in Hp; try set_solver.
  - destruct (utf8_valid _) eqn:Hu in Hp; [|set_solver]. apply list_elem_of_singleton in Hp as ->.
    exists [name], contents. split_and!; try done; [by apply Forall_singleton|]. simpl. by rewrite Hb.
  - destruct (IH (Dir es) (entry_size _ _ _ Hin) (prefix ++ [name]) Hwc Hp)
      as (path & contents & _ & Hf & Hn & -> & Hu).
    rewrite <- app_assoc in *. simpl in *. exists (name :: path), contents. simpl. rewrite Hb.
    split_and!; try done. by apply Forall_cons.
Qed.

Lemma split_join_path path :
  path ≠ [] → Forall plain_name path → str_split slash (str_join "/" path) = path.
Proof.
  intros Hne Hf. induction Hf as [|c path (_ & _ & _ & Hc) Hf IH]; [done|].
  unfold str_split in *. destruct path as [|d path]; simpl str_join.
  - rewrite split_no_sep by done. simpl. by rewrite str_of_B.
  - rewrite !B_app. change (B "/") with [slash]. simpl.
    rewrite split_app by done. simpl. rewrite str_of_B. f_equal. by apply IH.
Qed.

(** What [ListInstructions] lists, [ReadInstructions] can read, and it reads
    that very file: for a listed path the reader finds the regular file the
    listing saw, without following a link, and returns its text (an I/O error
    if it is not UTF-8). The one exception are paths the reader's name check
    refuses, which the listing does not leave out. *)
Theorem listed_paths_readable (fs : Node) (root : list string) (workspace : string) (cap : nat) (p : string) :
  tree_wf fs → p ∈ list_tree fs root workspace cap →
  ∃ croot path contents,
    canonicalize fs (root ++ [workspace]) = Ok croot ∧ p = str_join "/" path ∧
    node_at fs (croot ++ path) = Some (File contents) ∧
    read fs root workspace p None None =
      (let? _ := validate_relpath p in
       if utf8_valid contents then Ok (str_of contents)
       else Err (IIo (IoOther "stream did not contain valid UTF-8"))).
Proof.
  intros Hw. unfold list_tree, workspace_root. destruct (validate_basename workspace) as [[]|] eqn:Hv; [|set_solver].
  simpl. destruct (canonicalize fs (root ++ [workspace])) as [croot|] eqn:Hc; [|set_solver].
  intros (i & Hin%list_elem_of_lookup_2 & _)%elem_of_take. rewrite sort_by_perm in Hin.
  destruct (node_at fs croot) as [n|] eqn:En; [|set_solver].
  destruct (collect_files_spec n [] p) as (path & contents & Hne & Hf & Hn & -> & Hu); [|done|].
  { by eapply node_at_wf. }
  assert (node_at fs (croot ++ path) = Some (File contents)) as Hfile by (rewrite node_at_app, En; done).
  exists croot, path, contents. split_and!; try done.
  unfold read, read_rel. destruct (validate_relpath _) as [[]|]; simpl; [|done].
  unfold workspace_root. rewrite Hv. simpl. rewrite split_join_path by done.
  unfold confined, canonical_or, canonicalize in *.
  rewrite (resolve_below SYMLINK_LIMIT fs [] (root ++ [workspace]) croot path (File contents) Hc Hf Hfile eq_refl).
  rewrite Hc. simpl. rewrite decide_True by (by exists path). simpl.
  unfold read_to_string. rewrite Hfile. by destruct (utf8_valid contents).
Qed.

(** ** Confinement *)

Lemma confined_Ok fs ws_root full canonical :
  confined fs ws_root full = Ok canonical →
  ∃ croot rest, canonicalize fs ws_root = Ok croot ∧ canonicalize fs full = Ok canonical ∧ canonical = croot ++ rest.
Proof.
  unfold confined, canonical_or. rewrite rbind_Ok. intros (c & Hc%map_err_Ok & H).
  apply rbind_Ok in H as (croot & Hr%map_err_Ok & H). case_decide as Hp; [|done].
  injection H as <-. destruct Hp as [rest ->]. by exists croot, rest.
Qed.

Lemma read_to_string_Ok fs path body :
  read_to_string fs path = Ok body →
  ∃ contents, node_at fs path = Some (File contents) ∧ utf8_valid contents = true ∧ body = str_of contents.
Proof.
  unfold read_to_string. destruct (node_at fs path) as [[contents| | |]|]; try done.
  destruct (utf8_valid contents) eqn:E; [|done]. intros [= <-]. eauto.
Qed.

(** C6. Reads never leave the workspace: whatever links the instruction volume
    holds and whatever path the model asks for, text comes back only from a
    regular UTF-8 file that lies, with all links resolved, in the canonical
    directory of this workspace; the workspace name is a single plain
    component of the root and no requested component is empty, [.], [..],
    hidden or has a backslash. The same holds of the primary agent file, which
    must also be a [.md] file. *)
Theorem reads_stay_in_workspace (fs : Node) (root : list string) (workspace rel : string) (offset limit : option nat)
    (text : string) :
  read fs root workspace rel offset limit = Ok text ∨ read_primary_agent fs root workspace = Ok text →
  ∃ croot rest contents,
    validate_basename workspace = Ok tt ∧
    canonicalize fs (root ++ [workspace]) = Ok croot ∧
    node_at fs (croot ++ rest) = Some (File contents) ∧ utf8_valid contents = true ∧
    (text = str_of contents ∧ extension (croot ++ rest) = Some "md" ∨
     text = slice_lines (str_of contents) offset limit ∧
     Forall (λ c, bad_component c = false) (str_split slash rel)).
Proof.
  intros [H|H].
  - apply rbind_Ok in H as (body & H & [= <-]). apply rbind_Ok in H as ([] & Hv & H).
    apply rbind_Ok in H as (ws & Hws & H). apply rbind_Ok in Hws as ([] & Hb & [= <-]).
    apply rbind_Ok in H as (canonical & Hc & H%map_err_Ok).
    apply confined_Ok in Hc as (croot & rest & Hr & _ & ->).
    apply read_to_string_Ok in H as (contents & Hn & Hu & ->).
    exists croot, rest, contents. split_and!; try done. right. split; [done|].
    unfold validate_relpath in Hv. destruct (_ || _) in Hv; [done|].
    destruct (existsb _ _) eqn:E; [done|]. apply Forall_forall. intros c Hin.
    destruct (bad_component c) eqn:Ec; [|done]. exfalso. rewrite <- not_true_iff_false in E. apply E.
    apply existsb_exists. exists c. by rewrite <- list_elem_of_In.
  - unfold read_primary_agent, read_md in H. apply rbind_Ok in H as (ws & Hws & H).
    apply rbind_Ok in Hws as ([] & Hb & [= <-]). apply rbind_Ok in H as (canonical & Hc & H).
    apply confined_Ok in Hc as (croot & rest & Hr & _ & ->). case_decide as He; [|done].
    apply map_err_Ok, read_to_string_Ok in H as (contents & Hn & Hu & ->).
    exists croot, rest, contents. split_and!; try done. by left.
Qed.

(** ** Witnesses *)

(** A volume whose workspace holds a note, a hidden file and links in and out. *)
Definition sample_fs : Node :=
  Dir [("instructions", Dir [("ws", Dir [("AGENTS.md", Link "docs/agent.md");
                                         ("docs", Dir [("agent.md", File (B "hello"))]);
                                         (".notes", File (B "draft"));
                                         ("out", Link "/etc/shadow")]);
                             ("other", Dir [("x", File (B "theirs"))])]);
       ("etc", Dir [("shadow", File (B "root"))])].

Lemma reads_stay_in_workspace_witness :
  read sample_fs ["instructions"] "ws" "out" None None = Err PathEscape ∧
  ∃ croot rest contents,
    validate_basename "ws" = Ok tt ∧ canonicalize sample_fs ["instructions"; "ws"] = Ok croot ∧
    node_at sample_fs (croot ++ rest) = Some (File contents) ∧ utf8_valid contents = true ∧
    ("hello" = str_of contents ∧ extension (croot ++ rest) = Some "md" ∨
     "hello" = slice_lines (str_of contents) None None ∧
     Forall (λ c, bad_component c = false) (str_split slash "x")).
Proof.
  split; [by vm_compute|].
  apply (reads_stay_in_workspace sample_fs ["instructions"] "ws" "x" None None "hello"). right. by vm_compute.
Defined.

Lemma sample_fs_wf : tree_wf sample_fs.
Proof.
  simpl. repeat match goal with
    | |- _ ∧ _ => split
    | |- True => exact I
    | |- NoDup _ => by_compute
    | |- Forall _ _ => by_compute
    end.
Qed.

Lemma listed_paths_readable_witness :
  ∃ croot path contents,
    canonicalize sample_fs ["instructions"; "ws"] = Ok croot ∧ ".notes" = str_join "/" path ∧
    node_at sample_fs (croot ++ path) = Some (File contents) ∧
    read sample_fs ["instructions"] "ws" ".notes" None None =
      (let? _ := validate_relpath ".notes" in
       if utf8_valid contents then Ok (str_of contents)
       else Err (IIo (IoOther "stream did not contain valid UTF-8"))).
Proof.
  apply (listed_paths_readable sample_fs ["instructions"] "ws" 1000 ".notes" sample_fs_wf). by_compute.
Defined.

(** The listing offers a hidden file that the reader then refuses. *)
Example hidden_file_listed_not_readable :
  list_tree sample_fs ["instructions"] "ws" 1000 = [".notes"; "docs/agent.md"] ∧
  read sample_fs ["instructions"] "ws" ".notes" None None = Err (InvalidName ".notes") ∧
  read sample_fs ["instructions"] "ws" "docs/agent.md" None None = Ok "hello".
Proof. by vm_compute. Qed.
