(* ===== verification/ChannelTools.v ===== *)
(** * Asking the client: approval and channel-stream tools

    Models [crates/harness/src/tool_approval.rs] and
    [crates/harness/src/channel_stream_tools.rs], and the harness's side of the
    relay's server-request RPC ([clients.rs]). The relay's answer to a request
    is the environment; [approved_by_client] closes it with the relay's own
    model. JSON and the [Debug] rendering of a string are parameters; the
    descriptions and schemas of tools are texts that are only carried. *)

From stdpp Require Import pretty.
From S2P Require Import Prelude Text Proto Toolset Agent GatewayState Internal.

(** ** The relay, as the harness calls it *)

Inductive RequestOutcome : Type :=
| RoResult (json : string)
| RoError (code : Z) (message : string)
| RoTimedOut | RoUnknownChannelStream | RoUnsupportedMethod.

(** [RelayClient::send_server_request_and_await], on the answer of the RPC. *)
Definition request_outcome (resp : AwaitResponse) : RequestOutcome :=
  if aw_timed_out resp then RoTimedOut
  else if aw_unknown_channel_stream resp then RoUnknownChannelStream
  else if aw_unsupported_method resp then RoUnsupportedMethod
  else match aw_error resp with
       | Some err => RoError (cre_code err) (cre_message err)
       | None => RoResult (aw_result_json resp)
       end.

Record RequestCall : Type := mkRequestCall {
  rq_workspace : string; rq_request_id : string; rq_method : string; rq_params_json : string;
  rq_timeout_seconds : N }.

Record Relay : Type := mkRelay {
  rl_request : RequestCall → result RequestOutcome string;
  rl_notify : string → string → string → result bool string }.

Definition text_response (text : string) (is_error : bool) : CallToolResponse :=
  mkCallToolResponse [text_block text] is_error.

Definition tick (s : string) : string := "`" +:+ s +:+ "`".

(** ** Approval *)

Definition APPROVAL_METHOD : string := "RequestToolApproval".
Definition APPROVAL_TIMEOUT_SECONDS : N := 300.
Definition DENIED : string := "The user denied this tool call. Do not retry it. Wait for the user.".
Definition NO_ANSWER : string :=
  "The user did not answer in time. This tool call was denied. Do not retry it. Wait for the user.".

Inductive Approval : Type :=
| Approved
| Refused (response : CallToolResponse).

Definition unadvertised : string := "client did not advertise " +:+ tick APPROVAL_METHOD.
Definition refused (text : string) : Approval := Refused (text_response text true).

Section ask.
Context {Num : Type} (json_parse : string → result (Json Num) string)
  (params : string → string → string).      (* the object with [tool] and [input] *)

Definition is_approval (result_json : string) : bool :=
  match json_parse result_json with
  | Ok (JObject fields) =>
      match bt_get "approved" fields with Some (JBool b) => b | _ => false end
  | _ => false
  end.

(** The request [ask] makes. *)
Definition approval_request (workspace tool input_json request_id : string) : RequestCall :=
  mkRequestCall workspace request_id APPROVAL_METHOD (params tool input_json) APPROVAL_TIMEOUT_SECONDS.

(** [cancelled]: the token fires before the relay answers. *)
Definition ask (relay : option Relay) (workspace tool input_json request_id : string) (cancelled : bool)
  : result Approval DispatchAbort :=
  match relay with
  | None => Ok (refused unadvertised)
  | Some relay =>
      if cancelled then Err DispatchCancelled else
      let? outcome := map_err DispatchError
        (rl_request relay (approval_request workspace tool input_json request_id)) in
      Ok match outcome with
         | RoResult json => if is_approval json then Approved else refused DENIED
         | RoError _ _ => refused DENIED
         | RoTimedOut => refused NO_ANSWER
         | RoUnsupportedMethod | RoUnknownChannelStream => refused unadvertised
         end
  end.
End ask.

(** ** Channel-stream tools *)

Definition REVEAL_PATH : string := "RevealPath".
Definition REQUEST_USER_INPUT : string := "RequestUserInput".
Definition REQUEST_USER_AUTH : string := "RequestUserAuth".

Inductive Kind : Type := KNotification | KRequest.

Definition kind_of (name : string) : option Kind :=
  if decide (name = REVEAL_PATH) then Some KNotification
  else if decide (name = REQUEST_USER_INPUT ∨ name = REQUEST_USER_AUTH) then Some KRequest
  else None.

(** [describe] and [schema] are the texts of a tool. *)
Definition channel_tool_definitions (describe schema : string → string) : list ToolInfo :=
  (λ name, mkToolInfo name (describe name) (schema name) "")
    <$> [REVEAL_PATH; REQUEST_USER_INPUT; REQUEST_USER_AUTH].

Section dispatch.
Context (debug : string → string)
  (dispatched : string → string)             (* the object with [dispatched] and [method] *)
  (error_json : Z → string → string).        (* the object with [code] and [message] *)

Definition outcome_to_tool_response (method : string) (outcome : RequestOutcome) : CallToolResponse :=
  match outcome with
  | RoResult json => text_response json false
  | RoError code message => text_response (error_json code (debug message)) true
  | RoTimedOut =>
      text_response ("client did not respond to " +:+ tick method +:+ " within the server-side timeout") true
  | RoUnknownChannelStream => text_response "client channel stream is no longer registered" true
  | RoUnsupportedMethod => text_response ("client did not advertise " +:+ tick method) true
  end.

Definition channel_dispatch (name input_json : string) (gateway : Relay) (reply_channel_stream : option string)
    (tool_call_id workspace : string) : result CallToolResponse string :=
  match reply_channel_stream with
  | None =>
      Ok (text_response ("channel-stream tool " +:+ tick name +:+
            " requires a connected client; this turn has no reply_channel_stream") true)
  | Some _ =>
      match kind_of name with
      | None => Err ("unknown channel-stream tool: " +:+ name)
      | Some KNotification =>
          let? delivered := rl_notify gateway workspace name input_json in
          Ok (if (delivered : bool) then text_response (dispatched name) false
              else text_response ("client did not advertise " +:+ tick name
                                  +:+ "; the notification was not delivered") true)
      | Some KRequest =>
          let? outcome := rl_request gateway (mkRequestCall workspace tool_call_id name input_json 30) in
          Ok (outcome_to_tool_response name outcome)
      end
  end.
End dispatch.

(** ** What an approval means *)

(** The wire answer keeps what the relay found out: the harness reads back the
    client's answer, its error, or why there is none. *)
Lemma request_outcome_roundtrip r :
  request_outcome (await_response r) =
  match r with
  | Ok (OutResult json) => RoResult json
  | Ok (OutError e) => RoError (cre_code e) (cre_message e)
  | Err UnsupportedMethod => RoUnsupportedMethod
  | Err Timeout => RoTimedOut
  | Err _ => RoUnknownChannelStream
  end.
Proof. by destruct r as [[]|[]]. Qed.

Lemma ask_Approved {Num} (json_parse : string → result (Json Num) string) params relay workspace tool input id cancelled :
  ask json_parse params relay workspace tool input id cancelled = Ok Approved →
  cancelled = false ∧ ∃ rl json, relay = Some rl ∧
    rl_request rl (approval_request params workspace tool input id) = Ok (RoResult json) ∧
    is_approval json_parse json = true.
Proof.
  unfold ask. destruct relay as [rl|]; [|done]. destruct cancelled; [done|].
  destruct (rl_request rl _) as [outcome|] eqn:E; simpl; [|done].
  destruct outcome as [json| | | |]; try done. destruct (is_approval json_parse json) eqn:Ea; [|done].
  intros _. split; [done|]. by exists rl, json.
Qed.
