(* ===== verification/RuntimeTools.v ===== *)
(** * Runtime tools and delegation

    Models [crates/harness/src/runtime_tools.rs]: the tools the harness runs in
    process ([ReadInstructions], [ListInstructions], [Think], [RecentTurns])
    and [DispatchAgent], which runs a sub-turn of its own through the agent
    loop. The tool router a sub-turn calls is its interface: the scoped tool
    definitions and the answers to calls ([AgentEnv]). The serde decoding of
    arguments, the JSON encoding of results, YAML and SHA-256 are parameters. *)

From stdpp Require Import pretty.
From S2P Require Import Prelude Text Proto Codec Scrub Conversation Registry Turn Agent Instructions ChannelTools.

(** ** Definitions *)

Definition READ_INSTRUCTIONS_TOOL_NAME : string := "ReadInstructions".
Definition DISPATCH_AGENT_TOOL_NAME : string := "DispatchAgent".
Definition LIST_INSTRUCTIONS_TOOL_NAME : string := "ListInstructions".
Definition THINK_TOOL_NAME : string := "Think".
Definition RECENT_TURNS_TOOL_NAME : string := "RecentTurns".

Definition LIST_CAP : nat := 1000.
Definition MAX_SUBTURN_ITERATIONS : nat := 16.
Definition DEFAULT_IDLE_GAP : N := 600.
Definition TURN_ROLE_DELEGATE : Z := 3.

Definition runtime_tool_definitions (describe schema : string → string) : list ToolInfo :=
  (λ name, mkToolInfo name (describe name) (schema name) "")
    <$> [READ_INSTRUCTIONS_TOOL_NAME; DISPATCH_AGENT_TOOL_NAME; LIST_INSTRUCTIONS_TOOL_NAME;
         THINK_TOOL_NAME; RECENT_TURNS_TOOL_NAME].

Record ReadArgs : Type := mkReadArgs { ra_path : string; ra_offset : option nat; ra_limit : option nat }.
Record DispatchArgs : Type := mkDispatchArgs { da_path : string; da_query : string }.
Record RecentTurnJson : Type := mkRecentTurn {
  rt_seq : nat; rt_ts : string; rt_role : string; rt_text : string; rt_tag : option string }.

(** [serde_json], per type. *)
Record Serde : Type := mkSerde {
  sd_read : string → result ReadArgs string;
  sd_dispatch : string → result DispatchArgs string;
  sd_list : string → result bool string;             (* [ListArgs.detail] *)
  sd_think : string → result string string;          (* [ThinkArgs.note] *)
  sd_recent : string → result (option nat) string;   (* [RecentTurnsArgs.limit] *)
  sd_paths : list string → string;
  sd_infos : list (string * string) → string;
  sd_turns : list RecentTurnJson → string }.

Definition io_text (e : IoError) : string :=
  match e with IoNotFound => "not found" | IoOther e => e end.

(** [resolve_model] of [runtime_entrypoint.rs]. *)
Definition resolve_model (frontmatter_model : option string) (log : option ConversationLog) : option string :=
  match frontmatter_model with
  | Some m => if decide (m = "inherit") then log ≫= λ l, last_assistant_model l Orchestrator else Some m
  | None => None
  end.

Definition stop_debug (r : StopReason) : string :=
  match r with
  | StopUnspecified => "Unspecified" | EndTurn => "EndTurn" | ToolUse => "ToolUse" | MaxTokens => "MaxTokens"
  end.

(** What a sub-turn meets: the log I/O, the fresh id and clock of its
    conversation, and the model, router and appends of its loop. *)
Record VerbEnv : Type := mkVerbEnv {
  ve_parent_io : option string; ve_meta_io : MetaIo; ve_child_id : string; ve_now : Z;
  ve_child_io : option string; ve_uuid : nat → string; ve_agent : AgentEnv;
  ve_scoped : option (list string) → list ToolDefinition }.

Section runtime.
Context (uuid_parse : string → bool) `{!LineCodec LogEntry} `{!LineCodec MetaFile}.
Context (serde : Serde) (yaml_parse : string → YDoc) (sha256_hex : string → string).
Context (fs : Node) (root : list string) (workspace : string).

Definition dispatch_read (input_json : string) : result CallToolResponse DispatchAbort :=
  let? args := map_err (λ e, DispatchError ("invalid read arguments: " +:+ e)) (sd_read serde input_json) in
  match read fs root workspace (ra_path args) (ra_offset args) (ra_limit args) with
  | Ok body => Ok (text_response body false)
  | Err INotFound => Ok (text_response ("file not found: " +:+ ra_path args) true)
  | Err (InvalidName n) => Ok (text_response ("invalid path: " +:+ n) true)
  | Err PathEscape => Ok (text_response "path escapes workspace root" true)
  | Err (IIo e) => Err (DispatchError ("io error: " +:+ io_text e))
  end.

(** The entries of the detailed listing; [None] is the panic of
    [strip_frontmatter]. *)
Fixpoint list_infos (paths : list string) : option (list (string * string)) :=
  match paths with
  | [] => Some []
  | path :: paths =>
      match read fs root workspace path None None with
      | Err _ => list_infos paths
      | Ok raw =>
          '(body, _) ← strip_frontmatter yaml_parse raw;
          infos ← list_infos paths;
          Some ((path, first_paragraph body) :: infos)
      end
  end.

Definition dispatch_list (input_json : string) : option (result CallToolResponse DispatchAbort) :=
  let detail := if str_is_empty (str_trim input_json) then Ok false
                else map_err (λ e, DispatchError ("invalid list arguments: " +:+ e)) (sd_list serde input_json) in
  match detail with
  | Err e => Some (Err e)
  | Ok detail =>
      let paths := list_tree fs root workspace LIST_CAP in
      if (detail : bool)
      then infos ← list_infos paths; Some (Ok (text_response (sd_infos serde infos) false))
      else Some (Ok (text_response (sd_paths serde paths) false))
  end.

Definition dispatch_recent_turns (io : option string) (input_json conversation_id : string)
  : handler Registry CallToolResponse string :=
  match sd_recent serde input_json with
  | Err e => hret (text_response ("RecentTurns error: invalid arguments: " +:+ e) true)
  | Ok limit =>
      λ r, match get_or_create uuid_parse io conversation_id r with
           | (r, Err e) => (r, Err ("load conversation: " +:+ e))
           | (r, Ok log) =>
               let turns := (λ e, mkRecentTurn (es_seq e) (es_ts e) (msg_role (es_message e))
                                    (content_text (msg_content (es_message e))) (es_tag e))
                              <$> (log_snapshot log limit).1 in
               (r, Ok (text_response (sd_turns serde turns) false))
           end
  end.

Definition dispatch_think (input_json : string) : result CallToolResponse string :=
  match sd_think serde input_json with
  | Ok note => Ok (text_response ("noted: " +:+ note) false)
  | Err e => Ok (text_response ("Think error: invalid arguments: " +:+ e) true)
  end.

(** The loop's log goes back into the registry. *)
Definition store_log (conv_id : string) (log : ConversationLog) (r : Registry) : Registry :=
  set_disk (insert conv_id (cl_dir log)) (set_logs (insert conv_id (cl_entries log)) r).

(** How a sub-turn's end reads as a tool result. *)
Definition verb_result (result : result string LoopError) : Prelude.result CallToolResponse DispatchAbort :=
  match result with
  | Ok text | Err (Halt (HaltMaxTokens text)) => Ok (text_response text false)
  | Err LoopCancelled => Err DispatchCancelled
  | Err (Halt (IterationLimit limit)) =>
      Ok (text_response ("sub-agent exceeded " +:+ pretty limit +:+ " tool iterations") true)
  | Err (Halt (UnknownStop stop)) =>
      Ok (text_response ("sub-agent stopped unexpectedly (" +:+ stop_debug stop +:+ ")") true)
  | Err (ToolsetRpcError e) | Err (StreamEnded e) => Err (DispatchError e)
  end.

Definition verb_read (path : string) : result string DispatchAbort :=
  match read fs root workspace path None None with
  | Ok text => Ok text
  | Err INotFound => Err (DispatchError ("dispatch target not found: " +:+ path))
  | Err (InvalidName n) => Err (DispatchError ("invalid dispatch path: " +:+ n))
  | Err PathEscape => Err (DispatchError "dispatch path escapes workspace root")
  | Err (IIo e) => Err (DispatchError ("io error: " +:+ io_text e))
  end.

(** The request a sub-turn starts with. *)
Definition sub_request (env : VerbEnv) (args : DispatchArgs) (body : string) (fm : Frontmatter)
    (model : option string) (parent : string) : TurnRequest :=
  mkTurnRequest (Some body) (ve_scoped env (fm_tools fm))
    [mkMessage "user" [text_block (da_query args)] [] None None]
    model None (Some TURN_ROLE_DELEGATE) (Some parent) (ve_child_id env).

Definition sub_scope (env : VerbEnv) (args : DispatchArgs) (parent : string) : HistoryScope :=
  Delegate (ve_child_id env) parent (da_path args).

(** The sub-turn's loop, from its child log. *)
Definition sub_loop (env : VerbEnv) (args : DispatchArgs) (file_text : string) (req : TurnRequest)
    (parent : string) (child_log : ConversationLog) : LoopState * option (result string LoopError) :=
  let scope := sub_scope env args parent in
  llm_loop (ve_uuid env) (ve_agent env) (ctx_of req None) (scope_tag scope)
    (mkAttribution (trq_model req) (Some (sha256_hex file_text)) [])
    scrub_empty_set DEFAULT_IDLE_GAP MAX_SUBTURN_ITERATIONS MAX_SUBTURN_ITERATIONS req
    (loop_start child_log scope req).

(** The registry, the frames the sub-turn streamed, and its result. Without a
    reply stream and a relay the frames are dropped. *)
Definition dispatch_verb (env : VerbEnv) (input_json parent : string) (streamed : bool) (r : Registry)
  : option (Registry * list StreamItem * result CallToolResponse DispatchAbort) :=
  match map_err (λ e, DispatchError ("invalid dispatch arguments: " +:+ e)) (sd_dispatch serde input_json) with
  | Err e => Some (r, [], Err e)
  | Ok args =>
      match verb_read (da_path args) with
      | Err e => Some (r, [], Err e)
      | Ok file_text =>
          '(body, fm) ← strip_frontmatter yaml_parse file_text;
          let '(r, parent_log) := get_or_create uuid_parse (ve_parent_io env) parent r in
          let model := resolve_model (fm_model fm) (rok parent_log) in
          match mint (ve_meta_io env) (ve_child_id env) (ve_now env) (default "" (owner_of parent r)) r with
          | (r, Err e) => Some (r, [], Err (DispatchError e))
          | (r, Ok child) =>
              match get_or_create uuid_parse (ve_child_io env) child r with
              | (r, Err e) =>
                  Some (r, [], Err (DispatchError ("dispatch could not open the sub-turn log: " +:+ e)))
              | (r, Ok child_log) =>
                  let req := sub_request env args body fm model parent in
                  let '(s, result) := sub_loop env args file_text req parent child_log in
                  result ← result;
                  Some (store_log child (ls_log s) r, if streamed then ls_frames s else [], verb_result result)
              end
          end
      end
  end.

(** [runtime_tools::dispatch]. *)
Definition runtime_dispatch (env : VerbEnv) (name input_json parent : string) (streamed : bool) (r : Registry)
  : option (Registry * list StreamItem * result CallToolResponse DispatchAbort) :=
  if decide (name = READ_INSTRUCTIONS_TOOL_NAME) then Some (r, [], dispatch_read input_json)
  else if decide (name = LIST_INSTRUCTIONS_TOOL_NAME) then
    res ← dispatch_list input_json; Some (r, [], res)
  else if decide (name = DISPATCH_AGENT_TOOL_NAME) then
    '(r, frames, res) ← dispatch_verb env input_json parent streamed r;
    Some (r, frames, match res with
                     | Err (DispatchError e) => Ok (text_response ("dispatch error: " +:+ e) true)
                     | res => res
                     end)
  else if decide (name = THINK_TOOL_NAME) then Some (r, [], map_err DispatchError (dispatch_think input_json))
  else if decide (name = RECENT_TURNS_TOOL_NAME) then
    let '(r, res) := dispatch_recent_turns (ve_parent_io env) input_json parent r in
    Some (r, [], map_err DispatchError res)
  else Some (r, [], Err (DispatchError ("unknown runtime tool: " +:+ name))).
End runtime.

(** ** What a loop leaves in its log *)

Section loop_log.
Context `{!LineCodec LogEntry} (uuid : nat → string) (env : AgentEnv) (ctx : ContinuationCtx).
Context (tag : option string) (attribution : AssistantAttribution) (scrub : ScrubSet) (idle : N) (max : nat).
Context (Q : ConversationLog → Prop).
Context (HQ : ∀ io e l, en_tag e = tag → Q l → Q (push_entry io e l).1).

Lemma persist_assistant_log m s : Q (ls_log s) → Q (ls_log (persist_assistant env tag attribution m s)).
Proof using HQ.
  intros Hs. unfold persist_assistant, append_assistant_tagged. simpl.
  case_decide; [done|]. destruct (msg_content m), (msg_tool_calls m); try done; by apply HQ.
Qed.

Lemma persist_tool_log m s : Q (ls_log s) → Q (ls_log (persist_tool env tag m s)).
Proof using HQ. intros Hs. unfold persist_tool, append_tagged. simpl. case_decide; [done|]. by apply HQ. Qed.

Lemma run_tools_log calls s : Q (ls_log s) → Q (ls_log (run_tools env tag calls s).1).
Proof using HQ.
  revert s. induction calls as [|tc calls IH]; intros s Hs; simpl; [done|].
  destruct (ae_call env _ tc) as [resp|[e|]]; [apply IH|apply IH|]; by apply persist_tool_log.
Qed.

Lemma loop_round_log it stream s s' x :
  loop_round uuid env ctx tag attribution scrub idle max it stream s = (s', x) → Q (ls_log s) → Q (ls_log s').
Proof using HQ.
  unfold loop_round. intros H Hs. pose proof (drain_turn_fields uuid scrub idle stream s) as Hd.
  destruct (drain_turn uuid scrub idle stream s) as [s1 [t|[e|]]]; destruct Hd as (_ & _ & Hl & _);
    rewrite <- Hl in Hs; [|by simplify_eq..].
  destruct (tr_stop_reason t); try (simplify_eq; by (done || apply persist_assistant_log)).
  destruct (tr_tool_calls t) as [|c cs]; [simplify_eq; by apply persist_assistant_log|].
  destruct (max <=? S it); [by simplify_eq|].
  pose proof (run_tools_log (c :: cs)
    (push_message (assistant_message t) (persist_assistant env tag attribution (assistant_message t) s1))) as Hr.
  destruct (run_tools _ _ _ _) as [s2 []]; [simplify_eq; by apply Hr, persist_assistant_log|].
  unfold ask_model in H. destruct (ae_turn _ _ _); simplify_eq; by apply Hr, persist_assistant_log.
Qed.

Lemma llm_loop_log fuel req s :
  Q (ls_log s) → Q (ls_log (llm_loop uuid env ctx tag attribution scrub idle max fuel req s).1).
Proof using HQ.
  intros Hs. unfold llm_loop, ask_model. destruct (ae_turn env _ req) as [stream|]; [|done].
  set (s0 := mkLoop _ _ _ _ _ _ _ _). assert (Q (ls_log s0)) as H0 by done. clearbody s0.
  generalize 0 as it. revert stream s0 H0. induction fuel as [|fuel IH]; intros stream s0 H0 it; simpl; [done|].
  destruct (loop_round _ _ _ _ _ _ _ _ it stream s0) as [s1 [r|stream']] eqn:E.
  - by eapply loop_round_log.
  - apply IH. by eapply loop_round_log.
Qed.

Lemma llm_loop_returns fuel req s :
  0 < fuel → max ≤ fuel → is_Some (llm_loop uuid env ctx tag attribution scrub idle max fuel req s).2.
Proof.
  intros Hf Hm. unfold llm_loop, ask_model. destruct (ae_turn env _ req) as [stream|]; [|by eexists].
  pose proof (loop_terminates uuid env ctx attribution scrub idle max tag fuel 0 stream
    (mkLoop (ls_log s) (ls_messages s) (ls_emit s) (ls_frames s) (ls_requests s ++ [req]) (ls_calls s)
            (ls_appends s) (ls_cancels s)) Hf Hm) as Ht.
  destruct (loop _ _ _ _ _ _ _ _ fuel 0 stream _). by destruct Ht.
Qed.
End loop_log.

(** ** Delegation *)

Section delegation.
Context (uuid_parse : string → bool) `{!LineCodec LogEntry} `{!LineCodec MetaFile}.
Context (serde : Serde) (yaml_parse : string → YDoc) (sha256_hex : string → string).
Context (fs : Node) (root : list string) (workspace : string).
Abbreviation dispatch_verb := (dispatch_verb uuid_parse serde yaml_parse sha256_hex fs root workspace).
Abbreviation runtime_dispatch := (runtime_dispatch uuid_parse serde yaml_parse sha256_hex fs root workspace).

(** What loading a log leaves. *)
Lemma get_or_create_frame io id r r' res :
  get_or_create uuid_parse io id r = (r', res) →
  rg_disk r' = rg_disk r ∧ rg_meta r' = rg_meta r ∧
  (∀ id', rg_logs r' !! id' = rg_logs r !! id' ∨ id' = id ∧ rg_logs r !! id = None) ∧
  (∀ e, res = Err e → r' = r) ∧
  ∀ log, res = Ok log → cl_dir log = dir_of r id ∧
    (rg_logs r !! id = Some (cl_entries log) ∨ rg_logs r !! id = None ∧ log_rebuild io (dir_of r id) = Ok log).
Proof.
  unfold get_or_create, hbind, hlift. destruct (validate_conversation_id uuid_parse id); simpl;
    [|intros [= <- <-]; split_and!; auto; done].
  destruct (rg_logs r !! id) as [es|] eqn:E.
  - intros [= <- <-]. split_and!; auto. intros log [= <-]. auto.
  - destruct (log_rebuild io (dir_of r id)) as [log|] eqn:El; intros [= <- <-]; simpl; split_and!; auto; try done.
    + intros id'. destruct (decide (id' = id)) as [->|]; [auto|]. left. by rewrite lookup_insert_ne.
    + intros log' [= <-]. unfold log_rebuild in El. apply rbind_Ok in El as (p & Hp & [= <-]). split; [done|].
      right. split; [done|]. done.
Qed.

Lemma mint_frame io id now owner r r' res :
  mint io id now owner r = (r', res) →
  rg_logs r' = rg_logs r ∧
  (∀ id', id' ≠ id → rg_disk r' !! id' = rg_disk r !! id' ∧ rg_meta r' !! id' = rg_meta r !! id') ∧
  cd_log (dir_of r' id) = cd_log (dir_of r id) ∧
  ∀ c, res = Ok c → c = id ∧ owner_of id r' = Some owner.
Proof.
  unfold mint. destruct (write_meta io (dir_of r id) (default_name_for_conversation id) owner) as [d [[]|e]] eqn:E;
    intros [= <- <-]; simpl; unfold dir_of, owner_of in *; simpl; rewrite ?lookup_insert_eq; simpl.
  all: split_and!; try done; try (by intros id' Hne; rewrite !lookup_insert_ne).
  all: try (destruct io; simpl in E; by simplify_eq).
  by intros c [= <-].
Qed.

(** A sub-turn that got its conversation: the registry it found, the one it
    left, and what happened between. *)
Lemma dispatch_verb_inv env input parent streamed r r' frames res :
  dispatch_verb env input parent streamed r = Some (r', frames, res) →
  let child := ve_child_id env in
  (∃ r1 r2 mres, rg_disk r1 = rg_disk r ∧ rg_meta r1 = rg_meta r ∧
     (∀ id, rg_logs r1 !! id = rg_logs r !! id ∨ id = parent ∧ rg_logs r !! parent = None) ∧
     mint (ve_meta_io env) child (ve_now env) (default "" (owner_of parent r1)) r1 = (r2, mres) ∧
     (r' = r2 ∧ (∀ c, mres ≠ Ok c) ∨
      ∃ r3 log, mres = Ok child ∧ get_or_create uuid_parse (ve_child_io env) child r2 = (r3, log) ∧
        (r' = r3 ∧ (∀ l, log ≠ Ok l) ∨
         ∃ child_log args file req s, log = Ok child_log ∧
           s = (sub_loop sha256_hex env args file req parent child_log).1 ∧ r' = store_log child (ls_log s) r3)))
  ∨ r' = r.
Proof.
  unfold RuntimeTools.dispatch_verb. destruct (map_err _ (sd_dispatch serde input)) as [args|]; [|intros [= <- _ _]; by right].
  destruct (verb_read fs root workspace (da_path args)) as [file|]; [|intros [= <- _ _]; by right].
  destruct (strip_frontmatter yaml_parse file) as [[body fm]|]; simpl; [|done].
  destruct (get_or_create uuid_parse (ve_parent_io env) parent r) as [r1 plog] eqn:Ep.
  apply get_or_create_frame in Ep as (Hd & Hm & Hl & _ & _).
  destruct (mint _ _ _ _ r1) as [r2 mres] eqn:Em. intros H. left. exists r1, r2, mres.
  split_and!; [done|done| |done|].
  { intros id. destruct (Hl id) as [->|[-> Hn]]; auto. }
  apply mint_frame in Em as (_ & _ & _ & Hc).
  destruct mres as [c|e]; [|injection H as <- _ _; left; split; [done|by intros ?]].
  destruct (Hc c eq_refl) as [-> _]. right.
  destruct (get_or_create uuid_parse (ve_child_io env) (ve_child_id env) r2) as [r3 log] eqn:Eg.
  exists r3, log. split_and!; [done|done|]. destruct log as [child_log|e]; [right|injection H as <- _ _; left; split; [done|by intros ?]].
  destruct (sub_loop _ _ _ _ _ _ _) as [s [result|]] eqn:Es; simpl in H; [|done]. injection H as <- _ _.
  eexists child_log, args, file, _, s. split_and!; [done| |done]. by rewrite Es.
Qed.

(** A delegation always gives the model an answer: however the file, the
    model and the tools of the sub-turn behave, its loop ends within its sixteen
    rounds and every failure comes back as a tool result; the only other end is
    the cancellation of the whole turn. The file's header must not be one that
    makes the header scan panic. *)
Theorem delegation_always_answers env input parent streamed r :
  (∀ args text, sd_dispatch serde input = Ok args → verb_read fs root workspace (da_path args) = Ok text →
     strip_frontmatter yaml_parse text ≠ None) →
  ∃ r' frames res, runtime_dispatch env DISPATCH_AGENT_TOOL_NAME input parent streamed r = Some (r', frames, res) ∧
    ((∃ answer, res = Ok answer) ∨ res = Err DispatchCancelled).
Proof.
  intros Hs. assert (is_Some (dispatch_verb env input parent streamed r)) as [[[r' frames] res] E].
  { unfold RuntimeTools.dispatch_verb. destruct (sd_dispatch serde input) as [args|] eqn:Ea; simpl; [|by eexists].
    destruct (verb_read fs root workspace (da_path args)) as [text|] eqn:Er; [|by eexists].
    destruct (strip_frontmatter yaml_parse text) as [[body fm]|] eqn:Et; simpl; [|by destruct (Hs args text)].
    destruct (get_or_create _ _ parent r) as [r1 plog]. destruct (mint _ _ _ _ r1) as [r2 [c|]]; [|by eexists].
    destruct (get_or_create _ _ c r2) as [r3 [log|]]; [|by eexists].
    set (req := sub_request env args body fm _ parent).
    assert (is_Some (sub_loop sha256_hex env args text req parent log).2) as [x Hx]
      by (apply llm_loop_returns; unfold MAX_SUBTURN_ITERATIONS; lia).
    destruct (sub_loop _ _ _ _ _ _ _) as [s result]. simpl in Hx. subst result. by eexists. }
  unfold RuntimeTools.runtime_dispatch. rewrite !decide_False by done. rewrite decide_True by done. rewrite E. simpl.
  destruct res as [answer|[e|]]; eauto 10.
Qed.
End delegation.

(** ** Witnesses *)

Definition sample_serde : Serde :=
  mkSerde (λ _, Err "") (λ _, Ok (mkDispatchArgs "docs/agent.md" "summarise")) (λ _, Ok false) (λ _, Err "")
          (λ _, Ok None) (λ _, "") (λ _, "") (λ _, "").

Definition sample_verb : VerbEnv :=
  mkVerbEnv None MetaDone "child" 7 None (λ _, "e") (sample_agent [sample_call "1"] sample_tool_ok) (λ _, []).

(** The parent conversation, owned by alice. *)
Definition parent_registry : Registry := (mint MetaDone "parent" 1 "alice" (registry_new ∅)).1.

Definition sample_delegation : option (Registry * list StreamItem * result CallToolResponse DispatchAbort) :=
  dispatch_verb sample_uuid sample_serde sample_yaml (λ s, s) sample_fs ["instructions"] "ws" sample_verb "" "parent" true
    parent_registry.


Lemma delegation_always_answers_witness :
  ∃ r' frames res,
    runtime_dispatch sample_uuid sample_serde sample_yaml (λ s, s) sample_fs ["instructions"] "ws"
      sample_verb DISPATCH_AGENT_TOOL_NAME "" "parent" true parent_registry = Some (r', frames, res) ∧
    ((∃ answer, res = Ok answer) ∨ res = Err DispatchCancelled).
Proof.
  apply delegation_always_answers. intros args text [= <-] Ht. vm_compute in Ht. injection Ht as <-.
  vm_compute. discriminate.
Defined.
