(* ===== verification/ToolRouter.v ===== *)
(** * The tool router

    Models the catalog and the agent-turn half of
    [crates/harness/src/tool_router.rs] ([ToolRouter::new], [apply_toolsets],
    [tool_definitions_scoped], [call_tool], [ask_approval],
    [dispatch_toolset_in_process]) and [is_reserved_env] of [job.rs]. The
    catalog is swapped atomically, but every look at it loads it anew, so a
    call may see another catalog each time ([re_tools]). What a call does is
    recorded as its effects. Runtime tools, the dispatcher and the relay answer
    as the environment says; their own models are [RuntimeTools], [Dispatch]
    and [Internal]. *)

From S2P Require Import Prelude Text Proto ConfigMaps Toolset ExecutionLog GatewayState Internal Agent Dispatch ChannelTools RuntimeTools.

(** ** The catalog *)

Inductive Source : Type := SrcToolset | SrcRuntime | SrcChannelStream.

#[export] Instance Source_eq_dec : EqDecision Source.
Proof. solve_decision. Defined.

Record CatalogEntry : Type := mkCatalogEntry {
  ce_info : ToolInfo; ce_source : Source; ce_args : list ArgDecl; ce_grants : gmap string CapabilityGrant }.

Definition ce_name (e : CatalogEntry) : string := ti_name (ce_info e).
Abbreviation Catalog := (list CatalogEntry).

Definition is_reserved_env (name : string) : bool :=
  bool_decide (name = "HOME") || str_starts_with "TOOLSET_" name.

(** Why a toolset cannot be listed. *)
Fixpoint clash_tools (tools : list ToolDecl) (builtin : list string) : option string :=
  match tools with
  | [] => None
  | tool :: tools =>
      if decide (tool_name tool ∈ builtin) then Some ("tool " +:+ tool_name tool +:+ " is a built-in tool")
      else match list_find (λ a, is_reserved_env (arg_env a) = true) (tool_args tool) with
           | Some (_, arg) =>
               Some ("tool " +:+ tool_name tool +:+ " arg " +:+ arg_name arg
                     +:+ " maps to reserved env " +:+ arg_env arg)
           | None => clash_tools tools builtin
           end
  end.

Definition clash (entry : ToolsetEntry) (builtin : list string) : option string := clash_tools (te_tools entry) builtin.

Definition by_name (a b : CatalogEntry) : bool := str_leb (ce_name a) (ce_name b).

Section catalog.
Context (describe schema : string → string) (parameters_json : ToolDecl → string).

(** The catalog [ToolRouter::new] starts with; its names are distinct, as the
    code asserts. *)
Definition router_new : Catalog :=
  sort_by by_name
    (((λ t, mkCatalogEntry t SrcRuntime [] ∅) <$> runtime_tool_definitions describe schema)
     ++ ((λ t, mkCatalogEntry t SrcChannelStream [] ∅) <$> channel_tool_definitions describe schema)).

Section apply.
Context (toolset_scope : list string) (toolset_grants : gmap string (gmap string CapabilityGrant)).

Definition toolset_entries (name : string) (entry : ToolsetEntry) : Catalog :=
  (λ t, mkCatalogEntry (mkToolInfo (tool_name t) (tool_description t) (parameters_json t) name)
          SrcToolset (tool_args t) (default ∅ (toolset_grants !! name))) <$> te_tools entry.

(** One toolset of the scope: what it adds, and the warning. *)
Definition list_toolset (table : gmap string ToolsetEntry) (builtin : list string) (name : string)
  : Catalog * list string :=
  match table !! name with
  | None => ([], [])
  | Some entry =>
      match clash entry builtin with
      | Some reason => ([], ["toolset " +:+ name +:+ " left out: " +:+ reason])
      | None => (toolset_entries name entry, [])
      end
  end.

Definition apply_toolsets (table : gmap string ToolsetEntry) (tools : Catalog) : Catalog * list string :=
  let kept := filter (λ e, ce_source e ≠ SrcToolset) tools in
  let builtin := ce_name <$> kept in
  let listed := list_toolset table builtin <$> toolset_scope in
  (sort_by by_name (kept ++ (listed ≫= fst)), listed ≫= snd).
End apply.
End catalog.

Definition to_definition (e : CatalogEntry) : ToolDefinition :=
  mkToolDefinition (ti_name (ce_info e)) (ti_description (ce_info e)) (ti_parameters_json (ce_info e)).

Definition tool_definitions (tools : Catalog) : list ToolDefinition := to_definition <$> tools.

Definition tool_definitions_scoped (tools : Catalog) (agent_tools : option (list string)) : list ToolDefinition :=
  match agent_tools with
  | None => tool_definitions tools
  | Some names => to_definition <$> filter (λ e, ce_source e ≠ SrcToolset ∨ ce_name e ∈ names) tools
  end.

Definition entry_of (tools : Catalog) (name : string) : option CatalogEntry :=
  snd <$> list_find (λ e, ce_name e = name) tools.

Definition source_of (tools : Catalog) (name : string) : option Source := ce_source <$> entry_of tools name.
Definition toolset_of (tools : Catalog) (name : string) : option string :=
  (λ e, ti_toolset (ce_info e)) <$> entry_of tools name.
Definition args_for (tools : Catalog) (name : string) : option (list ArgDecl) := ce_args <$> entry_of tools name.
Definition grants_for (tools : Catalog) (name : string) : option (gmap string CapabilityGrant) :=
  ce_grants <$> entry_of tools name.

(** ** Calling a tool *)

(** How waiting for a begun call ends: the turn's token fires, the drain task
    is lost, or the call's channel yielded [frames] and closed. *)
Inductive DrainEnd : Type :=
| DrainCancelled
| DrainLost
| DrainFrames (frames : list ToolResultFrame).

(** The drain task: the frames up to the terminal. *)
Fixpoint drain_frames (frames : list ToolResultFrame) : list ToolResultFrame :=
  match frames with
  | [] => []
  | f :: frames => if is_terminal_frame f then [f] else f :: drain_frames frames
  end.

Inductive Effect : Type :=
| EffBegin (tool toolset : string) (args : gmap string string) (grant : option (string * CapabilityGrant))
| EffRuntime (name input_json : string)
| EffChannel (name input_json : string)
| EffCancel (call_id : string).

Record RouterEnv : Type := mkRouterEnv {
  re_tools : nat → Catalog;                 (* the catalog at the nth load *)
  re_dispatch : bool;                       (* a dispatcher is configured *)
  re_relay : option Relay;
  re_request_id : string;
  re_cancelled : bool;                      (* the token fires during the approval *)
  re_begin : string → string → gmap string string → option (string * CapabilityGrant) → result string string;
  re_end : DrainEnd;
  re_runtime : string → string → result CallToolResponse DispatchAbort }.

Section call.
Context {Num : Type} (is_i64 is_u64 : Num → bool) (num_to_string : Num → string).
Context (json_parse : string → result (Json Num) string) (error_text : ArgValidationError → string).
Context (approval_params : string → string → string) (debug dispatched : string → string)
  (error_json : Z → string → string) (workspace : string).

Definition ask_approval (env : RouterEnv) (name input_json : string) : result Approval DispatchAbort :=
  ask json_parse approval_params (re_relay env) workspace name input_json (re_request_id env) (re_cancelled env).

(** The turn's grant for the tool's toolset, which has to be one of its grants. *)
Definition select_grant (selected : option string) (grants : gmap string CapabilityGrant) (toolset_name : string)
  : result (option (string * CapabilityGrant)) DispatchAbort :=
  match selected with
  | None => Ok None
  | Some grant_name =>
      let? grant := ok_or (grants !! grant_name)
        (DispatchError ("selected grant " +:+ grant_name +:+ " is not in the " +:+ toolset_name +:+ " toolset grants")) in
      Ok (Some (grant_name, grant))
  end.

Definition dispatch_toolset_in_process (env : RouterEnv) (name input_json : string) (grants : gmap string string)
  : list Effect * result CallToolResponse DispatchAbort :=
  let begun :=
    let? toolset_name := ok_or (toolset_of (re_tools env 1) name) (DispatchError ("no toolset for tool " +:+ name)) in
    let arg_decls := default [] (args_for (re_tools env 2) name) in
    let? env_args := map_err (λ e, DispatchError (error_text e))
      (validate_call_input is_i64 is_u64 num_to_string json_parse input_json arg_decls) in
    let toolset_grants := default ∅ (grants_for (re_tools env 3) name) in
    let? grant_pair := select_grant (grants !! toolset_name) toolset_grants toolset_name in
    Ok (toolset_name, env_args, grant_pair) in
  match begun with
  | Err e => ([], Err e)
  | Ok (toolset_name, env_args, grant_pair) =>
      let begin := EffBegin name toolset_name env_args grant_pair in
      match re_begin env name toolset_name env_args grant_pair with
      | Err e => ([begin], Err (DispatchError e))
      | Ok call_id =>
          match re_end env with
          | DrainCancelled => ([begin; EffCancel call_id], Err DispatchCancelled)
          | DrainLost => ([begin], Err (DispatchError "dispatch drain task ended without a result"))
          | DrainFrames frames => ([begin], Ok (assemble_from_frames (drain_frames frames)))
          end
      end
  end.

Definition call_tool (env : RouterEnv) (name input_json : string) (grants : gmap string string)
    (reply_channel_stream : option string) (tool_call_id : string)
  : list Effect * result CallToolResponse DispatchAbort :=
  match source_of (re_tools env 0) name with
  | None => ([], Err (DispatchError ("unknown tool: " +:+ name)))
  | Some SrcToolset =>
      if re_dispatch env then
        match ask_approval env name input_json with
        | Err e => ([], Err e)
        | Ok (Refused refusal) => ([], Ok refusal)
        | Ok Approved => dispatch_toolset_in_process env name input_json grants
        end
      else ([], Err (DispatchError "tool dispatch is not configured"))
  | Some SrcRuntime =>
      let run := ([EffRuntime name input_json], re_runtime env name input_json) in
      if decide (name = DISPATCH_AGENT_TOOL_NAME) then
        match ask_approval env name input_json with
        | Err e => ([], Err e)
        | Ok (Refused refusal) => ([], Ok refusal)
        | Ok Approved => run
        end
      else run
  | Some SrcChannelStream =>
      match re_relay env with
      | None => ([], Err (DispatchError "relay gateway client not configured"))
      | Some gateway =>
          ([EffChannel name input_json],
           map_err DispatchError (channel_dispatch debug dispatched error_json name input_json gateway
                                    reply_channel_stream tool_call_id workspace))
      end
  end.
End call.

(** ** The catalog is rebuilt from the table *)

Lemma clash_tools_None tools builtin :
  clash_tools tools builtin = None →
  Forall (λ t, tool_name t ∉ builtin ∧ Forall (λ a, is_reserved_env (arg_env a) = false) (tool_args t)) tools.
Proof.
  induction tools as [|t tools IH]; simpl; [constructor|]. case_decide as Hb; [done|].
  destruct (list_find _ (tool_args t)) as [[i a]|] eqn:Ef; [done|]. intros H. constructor; [|auto].
  split; [done|]. apply list_find_None in Ef. eapply Forall_impl; [exact Ef|].
  intros a Ha. by apply not_true_is_false in Ha.
Qed.

Lemma str_leb_total a b : str_leb a b = false → str_leb b a = true.
Proof.
  unfold str_leb. rewrite (String.compare_antisym a b). destruct (String.compare b a); simpl; congruence.
Qed.

Lemma str_leb_trans a b c : str_leb a b = true → str_leb b c = true → str_leb a c = true.
Proof.
  unfold str_leb. destruct (String.compare a b) eqn:E1; [apply string_compare_eq in E1 as ->; done| |done].
  destruct (String.compare b c) eqn:E2; [apply string_compare_eq in E2 as <-; by rewrite E1| |done].
  by rewrite (string_compare_trans a b c).
Qed.

Lemma by_name_total a b : by_name a b = false → by_name b a = true.
Proof. apply str_leb_total. Qed.
Lemma by_name_trans a b c : by_name a b = true → by_name b c = true → by_name a c = true.
Proof. apply str_leb_trans. Qed.

Section catalog_facts.
Context (describe schema : string → string) (parameters_json : ToolDecl → string).
Context (scope : list string) (grants : gmap string (gmap string CapabilityGrant)).
Abbreviation apply_toolsets := (apply_toolsets parameters_json scope grants).

(** An entry a listing adds. *)
Definition listed_from (table : gmap string ToolsetEntry) (builtin : list string) (e : CatalogEntry) : Prop :=
  ∃ name entry t, name ∈ scope ∧ table !! name = Some entry ∧ clash entry builtin = None ∧ t ∈ te_tools entry ∧
    e = mkCatalogEntry (mkToolInfo (tool_name t) (tool_description t) (parameters_json t) name)
          SrcToolset (tool_args t) (default ∅ (grants !! name)).

Lemma listed_entries table builtin e :
  e ∈ (list_toolset parameters_json grants table builtin <$> scope) ≫= fst ↔ listed_from table builtin e.
Proof.
  unfold listed_from. rewrite list_elem_of_bind. setoid_rewrite list_elem_of_fmap. split.
  - intros (x & He & name & -> & Hn). unfold list_toolset in He.
    destruct (table !! name) as [entry|] eqn:Et; [|set_solver].
    destruct (clash entry builtin) eqn:Ec; [set_solver|].
    apply list_elem_of_fmap in He as (t & -> & Ht). by exists name, entry, t.
  - intros (name & entry & t & Hn & Et & Ec & Ht & ->). eexists. split; [|by exists name].
    unfold list_toolset. rewrite Et, Ec. apply list_elem_of_fmap. by exists t.
Qed.

Lemma listed_no_builtin table builtin e :
  listed_from table builtin e → ce_source e = SrcToolset ∧ ce_name e ∉ builtin.
Proof.
  intros (name & entry & t & _ & _ & Hc & Ht & ->). split; [done|].
  apply clash_tools_None in Hc. rewrite Forall_forall in Hc. by destruct (Hc t Ht).
Qed.

Lemma apply_elem table tools e :
  e ∈ (apply_toolsets table tools).1 ↔
  e ∈ tools ∧ ce_source e ≠ SrcToolset ∨
  listed_from table (ce_name <$> filter (λ e, ce_source e ≠ SrcToolset) tools) e.
Proof.
  unfold ToolRouter.apply_toolsets. simpl. rewrite sort_by_perm, elem_of_app, listed_entries, list_elem_of_filter. tauto.
Qed.

(** The built-in part of a catalog goes through an update unchanged. *)
Lemma apply_kept table tools :
  StronglySorted (λ a b, by_name a b = true) tools →
  filter (λ e, ce_source e ≠ SrcToolset) (apply_toolsets table tools).1
  = filter (λ e, ce_source e ≠ SrcToolset) tools.
Proof.
  intros Hs. unfold ToolRouter.apply_toolsets. simpl.
  set (kept := filter (λ e, ce_source e ≠ SrcToolset) tools).
  rewrite (filter_sort_by by_name by_name_total by_name_trans), filter_app.
  assert (filter (λ e, ce_source e ≠ SrcToolset)
    ((list_toolset parameters_json grants table (ce_name <$> kept) <$> scope) ≫= fst) = []) as ->.
  { apply elem_of_nil_inv. intros e [Hn He]%list_elem_of_filter. apply listed_entries, listed_no_builtin in He as [].
    done. }
  rewrite app_nil_r. assert (filter (λ e, ce_source e ≠ SrcToolset) kept = kept) as ->.
  { subst kept. clear Hs. induction tools as [|e tools IH]; [done|]. rewrite filter_cons. case_decide; [|done].
    rewrite filter_cons_True by done. by rewrite IH. }
  subst kept. rewrite <- (filter_sort_by by_name by_name_total by_name_trans). f_equal. by apply sort_by_id.
Qed.

Lemma apply_sorted table tools : StronglySorted (λ a b, by_name a b = true) (apply_toolsets table tools).1.
Proof. apply sort_by_sorted; [apply by_name_total|apply by_name_trans]. Qed.

Lemma apply_apply t1 t2 tools :
  StronglySorted (λ a b, by_name a b = true) tools →
  apply_toolsets t2 (apply_toolsets t1 tools).1 = apply_toolsets t2 tools.
Proof. intros Hs. unfold ToolRouter.apply_toolsets at 1. by rewrite apply_kept. Qed.

Lemma router_new_sorted : StronglySorted (λ a b, by_name a b = true) (router_new describe schema).
Proof. apply sort_by_sorted; [apply by_name_total|apply by_name_trans]. Qed.

Lemma router_new_builtin e : e ∈ router_new describe schema → ce_source e ≠ SrcToolset.
Proof. unfold router_new. rewrite sort_by_perm. set_solver. Qed.

Lemma router_new_names : NoDup (ce_name <$> router_new describe schema).
Proof.
  unfold router_new. rewrite (sort_by_perm by_name). simpl. unfold ce_name. simpl.
  apply (bool_decide_unpack _). by vm_compute.
Qed.

Lemma NoDup_fmap_inj {A B} (f : A → B) l x y : NoDup (f <$> l) → x ∈ l → y ∈ l → f x = f y → x = y.
Proof.
  intros Hn Hx Hy E. induction l as [|a l IH]; [set_solver|]. apply NoDup_cons in Hn as [Ha Hn].
  assert (∀ z, z ∈ l → f z ≠ f a) as Hz by (intros z Hz Ez; apply Ha; rewrite <- Ez; by apply list_elem_of_fmap_2).
  apply elem_of_cons in Hx as [->|Hx], Hy as [->|Hy]; auto; exfalso; by eapply Hz.
Qed.

Lemma entry_of_unique tools e :
  e ∈ tools → (∀ e', e' ∈ tools → ce_name e' = ce_name e → e' = e) → entry_of tools (ce_name e) = Some e.
Proof.
  intros He Hu. unfold entry_of. destruct (list_find (λ e', ce_name e' = ce_name e) tools) as [[i e']|] eqn:E; simpl.
  - apply list_find_Some in E as (Hl & Hn & _). f_equal. apply Hu; [|done]. by eapply list_elem_of_lookup_2.
  - apply list_find_None in E. rewrite Forall_forall in E. by destruct (E e He).
Qed.

(** The catalog is a function of the last table: after any sequence of
    table updates it is what the update alone would make of the initial
    catalog. So the runtime and channel-stream tools stay as they were built
    in, in every catalog each of them is found under its own name, and a
    toolset tool is offered only if its toolset is bound to the workspace and
    in the table, takes no built-in name and sets no reserved variable. *)
Theorem catalog_follows_table (tables : list (gmap string ToolsetEntry)) (table : gmap string ToolsetEntry) :
  let catalog := (apply_toolsets table (foldl (λ c t, (apply_toolsets t c).1) (router_new describe schema) tables)).1 in
  catalog = (apply_toolsets table (router_new describe schema)).1 ∧
  (∀ e, e ∈ router_new describe schema → entry_of catalog (ce_name e) = Some e) ∧
  (∀ e, e ∈ catalog → ce_source e = SrcToolset →
     ∃ entry t, ti_toolset (ce_info e) ∈ scope ∧ table !! ti_toolset (ce_info e) = Some entry ∧
       t ∈ te_tools entry ∧ tool_name t = ce_name e ∧ ce_args e = tool_args t ∧
       ce_grants e = default ∅ (grants !! ti_toolset (ce_info e)) ∧
       Forall (λ a, is_reserved_env (arg_env a) = false) (ce_args e) ∧
       ∀ b, b ∈ router_new describe schema → ce_name b ≠ ce_name e).
Proof.
  intros catalog. assert (catalog = (apply_toolsets table (router_new describe schema)).1) as Ec.
  { unfold catalog. clear catalog. generalize router_new_sorted. generalize (router_new describe schema) as c.
    induction tables as [|t tables IH]; intros c Hs; cbn [foldl]; [done|].
    rewrite IH by apply apply_sorted. by rewrite apply_apply. }
  split; [done|]. rewrite Ec. clear catalog Ec. split.
  - intros e He. apply entry_of_unique.
    + apply apply_elem. left. split; [done|]. by eapply router_new_builtin.
    + intros e' [[He' _]|He']%apply_elem En.
      * by apply (NoDup_fmap_inj ce_name (router_new describe schema)); [apply router_new_names|..].
      * exfalso. apply listed_no_builtin in He' as [_ Hn]. apply Hn. rewrite En. apply list_elem_of_fmap.
        exists e. split; [done|]. apply list_elem_of_filter. split; [|done]. by eapply router_new_builtin.
  - intros e [[He Hs]|(name & entry & t & Hn & Ht & Hc & Hin & ->)]%apply_elem Hsrc; [done|].
    exists entry, t. simpl. apply clash_tools_None in Hc. rewrite Forall_forall in Hc.
    destruct (Hc t Hin) as [Hb Ha]. split_and!; try done. intros b Hb' E. apply Hb. apply list_elem_of_fmap.
    exists b. split; [by rewrite E|]. apply list_elem_of_filter. split; [|done]. by eapply router_new_builtin.
Qed.
End catalog_facts.

(** ** What a call can do *)

(** A relay that answers with what the client answered. *)
Definition relay_of (answer : RequestCall → result (result ServerRequestOutcome ServerRequestError) string)
    (notify : string → string → string → result bool string) : Relay :=
  mkRelay (λ q, match answer q with Ok r => Ok (request_outcome (await_response r)) | Err e => Err e end) notify.

Section calls.
Context {Num : Type} (is_i64 is_u64 : Num → bool) (num_to_string : Num → string).
Context (json_parse : string → result (Json Num) string) (error_text : ArgValidationError → string).
Context (approval_params : string → string → string) (debug dispatched : string → string)
  (error_json : Z → string → string) (workspace : string).
Abbreviation call_tool := (call_tool is_i64 is_u64 num_to_string json_parse error_text approval_params debug
  dispatched error_json workspace).
Abbreviation validate := (validate_call_input is_i64 is_u64 num_to_string json_parse).

(** The user said yes to this very call. *)
Definition approved_by_user (answer : RequestCall → result (result ServerRequestOutcome ServerRequestError) string)
    (request_id name input_json : string) : Prop :=
  ∃ json fields, answer (approval_request approval_params workspace name input_json request_id) = Ok (Ok (OutResult json)) ∧
    json_parse json = Ok (JObject fields) ∧ bt_get "approved" fields = Some (JBool true).

Lemma ask_approval_approved env name input answer notify :
  re_relay env = None ∨ re_relay env = Some (relay_of answer notify) →
  ask_approval json_parse approval_params workspace env name input = Ok Approved →
  re_cancelled env = false ∧ approved_by_user answer (re_request_id env) name input.
Proof using All.
  intros Hr (Hc & rl & json & El & Eq & Ha)%ask_Approved. split; [done|].
  destruct Hr as [Hr|Hr]; rewrite Hr in El; [done|]. injection El as <-. simpl in Eq.
  destruct (answer _) as [r|] eqn:E; [|done]. rewrite request_outcome_roundtrip in Eq.
  assert (r = Ok (OutResult json)) as -> by (by destruct r as [[]|[]]; simplify_eq).
  unfold is_approval in Ha. destruct (json_parse json) as [[| | | | |fields]|] eqn:Ej; try done.
  destruct (bt_get "approved" fields) as [[|[]| | | |]|] eqn:Eb; try done. by exists json, fields.
Qed.

(** The effects of a begun call. *)
Lemma in_process_effects env name input grants effs res :
  dispatch_toolset_in_process is_i64 is_u64 num_to_string json_parse error_text env name input grants = (effs, res) →
  ∀ tool toolset args grant, EffBegin tool toolset args grant ∈ effs →
  tool = name ∧ toolset_of (re_tools env 1) name = Some toolset ∧
  validate input (default [] (args_for (re_tools env 2) name)) = Ok args ∧
  match grant with
  | None => grants !! toolset = None
  | Some (g, cg) => grants !! toolset = Some g ∧ default ∅ (grants_for (re_tools env 3) name) !! g = Some cg
  end.
Proof using All.
  unfold dispatch_toolset_in_process. destruct (toolset_of _ name) as [ts|] eqn:Et; simpl; [|intros [= <- <-]; set_solver].
  destruct (validate input _) as [a|] eqn:Ev; simpl; [|intros [= <- <-]; set_solver].
  destruct (select_grant _ _ ts) as [gp|] eqn:Eg; simpl; [|intros [= <- <-]; set_solver].
  intros H tool toolset args grant Hin.
  assert (EffBegin tool toolset args grant = EffBegin name ts a gp) as [= -> -> -> ->].
  { destruct (re_begin env name ts a gp) as [id|]; [destruct (re_end env)|]; simplify_eq; set_solver. }
  split_and!; try done. unfold select_grant in Eg. destruct (grants !! ts) as [g|] eqn:Es; [|by injection Eg as <-].
  destruct (default ∅ (grants_for (re_tools env 3) name) !! g) as [cg|] eqn:Ec; simpl in Eg; [|done].
  by injection Eg as <-.
Qed.

Lemma in_process_no_runtime env name input grants effs res n i :
  dispatch_toolset_in_process is_i64 is_u64 num_to_string json_parse error_text env name input grants = (effs, res) →
  EffRuntime n i ∉ effs.
Proof using All.
  unfold dispatch_toolset_in_process. intros H. repeat case_match; simplify_eq; set_solver.
Qed.

Lemma call_tool_begins env name input grants reply id effs res tool toolset args grant :
  call_tool env name input grants reply id = (effs, res) → EffBegin tool toolset args grant ∈ effs →
  source_of (re_tools env 0) name = Some SrcToolset ∧
  ask_approval json_parse approval_params workspace env name input = Ok Approved ∧
  ∃ effs' res', dispatch_toolset_in_process is_i64 is_u64 num_to_string json_parse error_text env name input grants
    = (effs', res') ∧ EffBegin tool toolset args grant ∈ effs'.
Proof using All.
  unfold ToolRouter.call_tool. intros H Hin. destruct (source_of _ name) as [[]|].
  - destruct (re_dispatch env); [|simplify_eq; set_solver].
    destruct (ask_approval _ _ _ _ _ _) as [[]|]; [|simplify_eq; set_solver..].
    split_and!; [done|done|]. by exists effs, res.
  - case_decide; [destruct (ask_approval _ _ _ _ _ _) as [[]|]|]; simplify_eq; set_solver.
  - destruct (re_relay env); simplify_eq; set_solver.
  - simplify_eq; set_solver.
Qed.

(** C2. Nothing the model asks for runs a toolset tool or a sub-agent without
    the user: such an effect of a call means that the relay put this very tool
    name and input to the client of this workspace, and that the client's
    answer was a JSON object whose [approved] is [true]. A denial, another
    answer, a timeout, an absent client, a missing relay or a cancelled turn
    leave no such effect. *)
Theorem approval_gates_calls env name input grants reply id answer notify effs res eff :
  re_relay env = None ∨ re_relay env = Some (relay_of answer notify) →
  call_tool env name input grants reply id = (effs, res) → eff ∈ effs →
  (∃ tool toolset args grant, eff = EffBegin tool toolset args grant) ∨ eff = EffRuntime DISPATCH_AGENT_TOOL_NAME input →
  re_cancelled env = false ∧ approved_by_user answer (re_request_id env) name input.
Proof using All.
  intros Hr H Hin [(tool & toolset & args & grant & ->)| ->].
  - destruct (call_tool_begins _ _ _ _ _ _ _ _ _ _ _ _ H Hin) as (_ & Ha & _). by eapply ask_approval_approved.
  - unfold ToolRouter.call_tool in H. destruct (source_of _ name) as [[]|].
    + destruct (re_dispatch env); [|simplify_eq; set_solver].
      destruct (ask_approval _ _ _ _ _ _) as [[]|]; [|simplify_eq; set_solver..].
      by apply in_process_no_runtime with (n := DISPATCH_AGENT_TOOL_NAME) (i := input) in H.
    + case_decide as Hn; [|simplify_eq; set_solver].
      destruct (ask_approval _ _ _ _ _ _) as [[]|] eqn:Ea; [|simplify_eq; set_solver..]. by eapply ask_approval_approved.
    + destruct (re_relay env); simplify_eq; set_solver.
    + simplify_eq; set_solver.
Qed.
(** C8. A toolset call is what was configured and selected, if the catalog does
    not change under it: the tool's toolset is bound to the workspace and in the
    table, the arguments are the ones its declaration validates and set no
    variable the job reserves, and the credential is the workspace's grant the
    human selected for that toolset, or none if none was selected. A selection
    that is not one of the toolset's grants begins nothing. *)
Theorem toolset_calls_are_configured parameters_json scope toolset_grants table tools0 env name input grants reply id
    effs res tool toolset args grant :
  (∀ n, re_tools env n = (apply_toolsets parameters_json scope toolset_grants table tools0).1) →
  call_tool env name input grants reply id = (effs, res) → EffBegin tool toolset args grant ∈ effs →
  tool = name ∧ toolset ∈ scope ∧
  (∃ entry t, table !! toolset = Some entry ∧ t ∈ te_tools entry ∧ tool_name t = name ∧
     validate input (tool_args t) = Ok args ∧ Forall (λ a, is_reserved_env (arg_env a) = false) (tool_args t)) ∧
  match grant with
  | None => grants !! toolset = None
  | Some (g, cg) => grants !! toolset = Some g ∧ (toolset_grants !! toolset ≫= λ gs, gs !! g) = Some cg
  end.
Proof using All.
  intros Ht H Hin. destruct (call_tool_begins _ _ _ _ _ _ _ _ _ _ _ _ H Hin) as (Hs & _ & effs' & res' & Hd & Hin').
  destruct (in_process_effects _ _ _ _ _ _ Hd _ _ _ _ Hin') as (-> & Hts & Hv & Hg). rewrite !Ht in *.
  unfold source_of, toolset_of, args_for, grants_for in *.
  destruct (entry_of _ name) as [e|] eqn:Ee; simpl in *; [|done]. injection Hs as Hs. injection Hts as <-.
  unfold entry_of in Ee. destruct (list_find _ _) as [[i e']|] eqn:Ef; simpl in Ee; [|done]. injection Ee as ->.
  apply list_find_Some in Ef as (Hl & En & _). apply list_elem_of_lookup_2, apply_elem in Hl as [[_ Hn]|Hl]; [done|].
  destruct Hl as (ts & entry & t & Hsc & Htb & Hc & Hte & ->). simpl in *. subst name.
  apply clash_tools_None in Hc. rewrite Forall_forall in Hc. destruct (Hc t Hte) as [_ Ha].
  split_and!; [done|done|by exists entry, t|]. destruct grant as [[g cg]|]; [|done]. destruct Hg as [Hg1 Hg2].
  split; [done|]. destruct (toolset_grants !! ts) as [gs|]; simpl in *; [done|]. by rewrite lookup_empty in Hg2.
Qed.
End calls.

(** ** Witnesses *)

Definition tool_t : ToolDecl := mkToolDecl "deploy" "" [].
Definition toolset_with (tools : list ToolDecl) : ToolsetEntry := mkToolsetEntry (Some "img") false None ∅ tools.
Definition grant_of (secret : string) : CapabilityGrant := mkGrant secret None None.

(** Two toolsets, each with a grant of the same name but its own Secret. *)
Definition two_scopes : list string := ["a"; "b"].
Definition two_grants : gmap string (gmap string CapabilityGrant) :=
  {[ "a" := {[ "prod" := grant_of "secret-a" ]}; "b" := {[ "prod" := grant_of "secret-b" ]} ]}.
Definition catalog_of (table : gmap string ToolsetEntry) : Catalog :=
  (apply_toolsets (λ _, "{}") two_scopes two_grants table (router_new (λ _, "") (λ _, "{}"))).1.
Definition served_by (toolset : string) : gmap string ToolsetEntry := {[ toolset := toolset_with [tool_t] ]}.

Definition yes_json (s : string) : result (Json unit) string :=
  Ok (JObject (if decide (s = "yes") then [("approved", JBool true)] else [])).
Definition says (what : string) (_ : RequestCall) : result (result ServerRequestOutcome ServerRequestError) string :=
  Ok (Ok (OutResult what)).
Definition no_notify (_ _ _ : string) : result bool string := Ok false.

Definition sample_router (what : string) (tools : nat → Catalog) : RouterEnv :=
  mkRouterEnv tools true (Some (relay_of (says what) no_notify)) "req" false (λ _ _ _ _, Ok "call")
    (DrainFrames [mkFrame (Some (Stdout "ok")); failed_terminal]) (λ _ _, Err (DispatchError "")).

Definition sample_call_tool (what : string) (tools : nat → Catalog) : list Effect * result CallToolResponse DispatchAbort :=
  call_tool (λ _, true) (λ _, true) (λ _, "") yes_json (λ _, "") (λ t i, t) (λ s, s) (λ s, s) (λ _ s, s) "ws"
    (sample_router what tools) "deploy" "{}" {[ "a" := "prod" ]} None "tc".

Definition sample_begin : Effect := EffBegin "deploy" "a" ∅ (Some ("prod", grant_of "secret-a")).

Lemma approval_gates_calls_witness :
  (sample_call_tool "yes" (λ _, catalog_of (served_by "a"))).1 = [sample_begin] ∧
  (sample_call_tool "no" (λ _, catalog_of (served_by "a"))).1 = [] ∧
  approved_by_user yes_json (λ t i, t) "ws" (says "yes") "req" "deploy" "{}".
Proof.
  split; [by vm_compute|]. split; [by vm_compute|].
  apply (approval_gates_calls (λ _, true) (λ _, true) (λ _, "") yes_json (λ _, "") (λ t i, t) (λ s, s) (λ s, s) (λ _ s, s)
           "ws" (sample_router "yes" (λ _, catalog_of (served_by "a"))) "deploy" "{}" {[ "a" := "prod" ]} None "tc"
           (says "yes") no_notify (sample_call_tool "yes" (λ _, catalog_of (served_by "a"))).1
           (sample_call_tool "yes" (λ _, catalog_of (served_by "a"))).2 sample_begin).
  - by right.
  - by vm_compute.
  - vm_compute. left.
  - left. by exists "deploy", "a", ∅, (Some ("prod", grant_of "secret-a")).
Defined.

Lemma toolset_calls_are_configured_witness :
  "a" ∈ two_scopes ∧ (two_grants !! "a" ≫= λ gs, gs !! "prod") = Some (grant_of "secret-a").
Proof.
  destruct (toolset_calls_are_configured (λ _, true) (λ _, true) (λ _, "") yes_json (λ _, "") (λ t i, t) (λ s, s) (λ s, s)
           (λ _ s, s) "ws" (λ _, "{}") two_scopes two_grants (served_by "a") (router_new (λ _, "") (λ _, "{}"))
           (sample_router "yes" (λ _, catalog_of (served_by "a"))) "deploy" "{}" {[ "a" := "prod" ]} None "tc"
           (sample_call_tool "yes" (λ _, catalog_of (served_by "a"))).1
           (sample_call_tool "yes" (λ _, catalog_of (served_by "a"))).2
           "deploy" "a" ∅ (Some ("prod", grant_of "secret-a"))) as (_ & Hs & _ & _ & Hg).
  - done.
  - by vm_compute.
  - vm_compute. left.
  - split; [exact Hs|exact Hg].
Defined.

(** The catalog can change between two looks of one call: when the tool
    moves from one toolset to another meanwhile, the call begins under the
    toolset it was in, with the credential the other toolset binds to a grant
    of the same name, although neither catalog has that combination. *)
Theorem catalog_change_mixes_credentials :
  ∃ tools : nat → Catalog,
    (∀ n, tools n = catalog_of (served_by "a") ∨ tools n = catalog_of (served_by "b")) ∧
    (sample_call_tool "yes" tools).1 = [EffBegin "deploy" "a" ∅ (Some ("prod", grant_of "secret-b"))] ∧
    (two_grants !! "a" ≫= λ gs, gs !! "prod") = Some (grant_of "secret-a").
Proof.
  exists (λ n, if n <? 3 then catalog_of (served_by "a") else catalog_of (served_by "b")).
  split; [intros n; destruct (n <? 3); auto|]. split; by vm_compute.
Qed.
