(* ===== verification/ClientCalls.v ===== *)
(** * Client-driven tool calls

    Models the client-facing half of [crates/harness/src/tool_router.rs]:
    [dispatch_client_tool] and the two ways a call is started,
    [await_client_tool], which serves the call's frames from its live session
    or from the execution log, and [cancel_client_tool]. A call's consumer and
    a subscriber run concurrently and meet in the session's lock, so the life
    of a call is a step relation over their critical sections. *)

From S2P Require Import Prelude Text Proto Toolset ExecutionLog Agent Dispatch ChannelTools RuntimeTools ToolRouter.

(** ** Dispatch and cancel *)

(** What the router keeps of client calls: the ids with a live session. *)
Definition Sessions : Type := gset string.

Record ClientEnv : Type := mkClientEnv {
  cv_tools : nat → Catalog; cv_dispatch : bool;
  cv_begin : string → string → gmap string string → option (string * CapabilityGrant) → result string string;
  cv_uuid : string }.

Section client.
Context {Num : Type} (is_i64 is_u64 : Num → bool) (num_to_string : Num → string).
Context (json_parse : string → result (Json Num) string) (error_text : ArgValidationError → string).

(** The sessions, the effects and the call id. *)
Definition dispatch_client_toolset_tool (env : ClientEnv) (name input_json : string) (calls : Sessions)
  : Sessions * list Effect * result string string :=
  let begun :=
    let? _ := if cv_dispatch env then Ok tt else Err "tool dispatch is not configured" in
    let? toolset_name := ok_or (toolset_of (cv_tools env 1) name) ("no toolset for tool " +:+ name) in
    let arg_decls := default [] (args_for (cv_tools env 2) name) in
    let? env_args := map_err error_text
      (validate_call_input is_i64 is_u64 num_to_string json_parse input_json arg_decls) in
    Ok (toolset_name, env_args) in
  match begun with
  | Err e => (calls, [], Err e)
  | Ok (toolset_name, env_args) =>
      let begin := EffBegin name toolset_name env_args None in
      match cv_begin env name toolset_name env_args None with
      | Err e => (calls, [begin], Err e)
      | Ok call_id => ({[call_id]} ∪ calls, [begin], Ok call_id)
      end
  end.

Definition dispatch_client_runtime_tool (env : ClientEnv) (name input_json : string) (calls : Sessions)
  : Sessions * list Effect * result string string :=
  let call_id := "rt-" +:+ cv_uuid env in
  ({[call_id]} ∪ calls, [EffRuntime name input_json], Ok call_id).

Definition dispatch_client_tool (env : ClientEnv) (name input_json : string) (calls : Sessions)
  : Sessions * list Effect * result string string :=
  match source_of (cv_tools env 0) name with
  | None => (calls, [], Err ("unknown tool: " +:+ name))
  | Some SrcToolset => dispatch_client_toolset_tool env name input_json calls
  | Some SrcRuntime => dispatch_client_runtime_tool env name input_json calls
  | Some SrcChannelStream =>
      (calls, [], Err (name +:+ " is not client-dispatchable: channel-stream tools execute on the client itself"))
  end.
End client.

(** The answer of a runtime call, as the frames its session gets. *)
Definition runtime_response (name : string) (dispatched : result CallToolResponse DispatchAbort) : CallToolResponse :=
  match dispatched with
  | Ok response => response
  | Err (DispatchError e) => text_response (name +:+ " error: " +:+ e) true
  | Err DispatchCancelled => text_response (name +:+ " was cancelled") true
  end.

Definition runtime_frames (name : string) (dispatched : result CallToolResponse DispatchAbort) : list ToolResultFrame :=
  frames_from_response (runtime_response name dispatched).

Definition cancel_client_tool (configured : bool) (call_id : string) (calls : Sessions) (s : DispatchState)
  : DispatchState * bool :=
  if decide (call_id ∉ calls) then (s, false)
  else if configured then fire_call_cancel call_id s else (s, false).

(** ** Awaiting a call *)

Definition BROADCAST_CAPACITY : nat := 256.

(** The replay of a snapshot: up to the terminal, and whether one was met. *)
Fixpoint replay (frames : list ToolResultFrame) : list ToolResultFrame * bool :=
  match frames with
  | [] => ([], false)
  | f :: frames =>
      if is_terminal_frame f then ([f], true)
      else let '(out, terminal_seen) := replay frames in (f :: out, terminal_seen)
  end.

(** Serving a persisted call. *)
Definition serve_persisted (frames : PersistedCall) : list ToolResultFrame :=
  frames ++ if has_terminal frames then [] else [failed_terminal].

(** A subscriber: it looks the session up, snapshots and subscribes under the
    session's lock, follows the fan-out, is done. [out] is what it sent on. *)
Inductive Sub : Type :=
| SubIdle
| SubHandle
| SubFollowing (out : list ToolResultFrame) (next : nat)
| SubDone (out : list ToolResultFrame)
| SubNotFound.

(** [se_frames]: pushed and broadcast; [se_log]: appended to the execution log;
    [se_running]: the consumer runs and the session is in the map. *)
Record CallSession : Type := mkSession {
  se_frames : list ToolResultFrame; se_log : list ToolResultFrame; se_running : bool; se_sub : Sub }.

Definition session_new : CallSession := mkSession [] [] true SubIdle.

Definition after_replay (frames : list ToolResultFrame) : Sub :=
  let '(out, terminal_seen) := replay frames in
  if terminal_seen then SubDone out else SubFollowing out (length frames).

Definition follow (out : list ToolResultFrame) (next : nat) (f : ToolResultFrame) : Sub :=
  if is_terminal_frame f then SubDone (out ++ [f]) else SubFollowing (out ++ [f]) (S next).

(** [append_frame] keeps no image. *)
Definition logged (kept : bool) (f : ToolResultFrame) : list ToolResultFrame :=
  if kept then match tf_frame f with Some (Image _ _) | None => [] | _ => [f] end else [].

Inductive call_step : CallSession → CallSession → Prop :=
| StepPush f kept frames log sub :                   (* the consumer takes a frame; [kept]: the append succeeds *)
    Forall (λ f, is_terminal_frame f = false) frames →
    call_step (mkSession frames log true sub) (mkSession (frames ++ [f]) (log ++ logged kept f) true sub)
| StepRetire frames log sub :                        (* the channel closed, or the terminal was pushed *)
    call_step (mkSession frames log true sub) (mkSession frames log false sub)
| StepFind frames log :
    call_step (mkSession frames log true SubIdle) (mkSession frames log true SubHandle)
| StepMiss frames log :
    call_step (mkSession frames log false SubIdle)
      (mkSession frames log false (match log with [] => SubNotFound | _ => SubDone (serve_persisted log) end))
| StepSubscribe frames log running :
    call_step (mkSession frames log running SubHandle) (mkSession frames log running (after_replay frames))
| StepRecv frames log running out next f :
    frames !! next = Some f → length frames - next ≤ BROADCAST_CAPACITY →
    call_step (mkSession frames log running (SubFollowing out next)) (mkSession frames log running (follow out next f))
| StepLag frames log running out next :
    BROADCAST_CAPACITY < length frames - next →
    call_step (mkSession frames log running (SubFollowing out next))
      (mkSession frames log running (SubDone (out ++ [failed_terminal])))
| StepClosed frames log out next :
    length frames ≤ next →
    call_step (mkSession frames log false (SubFollowing out next))
      (mkSession frames log false (SubDone (out ++ [failed_terminal]))).

Definition call_reach (s : CallSession) : Prop := rtc call_step session_new s.

(** ** What a subscriber gets *)

Abbreviation no_terminal := (Forall (λ f, is_terminal_frame f = false)).

(** Nothing, or everything, follows a terminal. *)
Definition frames_ok (frames : list ToolResultFrame) : Prop :=
  ∃ body last, frames = body ++ last ∧ no_terminal body ∧ (last = [] ∨ ∃ t, last = [t] ∧ is_terminal_frame t = true).

(** A finished stream: what was pushed up to its terminal, or a prefix of it
    that has none, closed by the synthetic one. The prefix is all there will
    ever be unless the subscriber fell behind the fan-out. *)
Definition served (running : bool) (frames : list ToolResultFrame) (out : list ToolResultFrame) : Prop :=
  out = frames ∧ (∃ body t, frames = body ++ [t] ∧ no_terminal body ∧ is_terminal_frame t = true) ∨
  ∃ pre rest, frames = pre ++ rest ∧ no_terminal pre ∧ out = pre ++ [failed_terminal] ∧
    (rest = [] ∧ running = false ∨ BROADCAST_CAPACITY < length rest).

Definition session_inv (s : CallSession) : Prop :=
  frames_ok (se_frames s) ∧ se_log s `sublist_of` se_frames s ∧
  match se_sub s with
  | SubIdle | SubHandle => True
  | SubFollowing out next => out = take next (se_frames s) ∧ no_terminal out ∧ next ≤ length (se_frames s)
  | SubDone out => served (se_running s) (se_frames s) out ∨ se_running s = false ∧ se_log s ≠ [] ∧ out = serve_persisted (se_log s)
  | SubNotFound => se_running s = false ∧ se_log s = []
  end.

Lemma replay_spec frames out seen :
  frames_ok frames → replay frames = (out, seen) →
  out = frames ∧ if seen then ∃ body t, frames = body ++ [t] ∧ no_terminal body ∧ is_terminal_frame t = true
                 else no_terminal frames.
Proof.
  intros (body & last & -> & Hb & Hl). revert out seen. induction Hb as [|f body Hf Hb IH]; intros out seen; simpl.
  - destruct Hl as [->|(t & -> & Ht)]; simpl; [intros [= <- <-]; auto|]. rewrite Ht. intros [= <- <-].
    split; [done|]. by exists [], t.
  - rewrite Hf. destruct (replay (body ++ last)) as [o b] eqn:E. intros [= <- <-].
    destruct (IH o b eq_refl) as [-> Hs]. split; [done|]. destruct b.
    + destruct Hs as (body' & t & -> & Hb' & Ht). exists (f :: body'), t. split_and!; [done| |done]. by constructor.
    + by constructor.
Qed.

Lemma logged_sublist kept f : logged kept f `sublist_of` [f].
Proof.
  unfold logged. destruct kept, (tf_frame f) as [[]|]; first [apply sublist_nil_l | reflexivity].
Qed.

Lemma frames_ok_push frames f : no_terminal frames → frames_ok (frames ++ [f]).
Proof.
  intros Hn. destruct (is_terminal_frame f) eqn:E.
  - exists frames, [f]. split_and!; [done|done|]. right. by exists f.
  - exists (frames ++ [f]), []. rewrite app_nil_r. split_and!; [done| |by left]. apply Forall_app. auto.
Qed.

(** A stream that was served stays served when more is pushed. *)
Lemma served_push frames f out : no_terminal frames → served true frames out → served true (frames ++ [f]) out.
Proof.
  intros Hn [[_ (body & t & -> & _ & Ht)]|(pre & rest & -> & Hp & -> & Hr)].
  - apply Forall_app in Hn as [_ Hn]. rewrite Forall_singleton in Hn. congruence.
  - destruct Hr as [[_ Hr]|Hr]; [done|]. right. exists pre, (rest ++ [f]).
    rewrite app_assoc. split_and!; try done. right. rewrite length_app. lia.
Qed.

Lemma served_retire running frames out : served running frames out → served false frames out.
Proof. intros [?|(pre & rest & ? & ? & ? & [[]|])]; [by left|right..]; exists pre, rest; split_and!; auto. Qed.

Lemma take_next (frames : list ToolResultFrame) next f : frames !! next = Some f → take (S next) frames = take next frames ++ [f].
Proof. apply take_S_r. Qed.

Lemma follow_inv running frames out next f :
  frames_ok frames → out = take next frames → no_terminal out → frames !! next = Some f →
  match follow out next f with
  | SubFollowing out next => out = take next frames ∧ no_terminal out ∧ next ≤ length frames
  | SubDone out => served running frames out
  | _ => False
  end.
Proof.
  intros (body & last & -> & Hb & Hl) -> Hn Hf. unfold follow. pose proof (lookup_lt_Some _ _ _ Hf) as Hlt.
  destruct (is_terminal_frame f) eqn:Et.
  - left. assert (next = length body) as ->.
    { apply lookup_app_Some in Hf as [Hf|[Hge Hf]].
      - rewrite Forall_forall in Hb. rewrite (Hb f) in Et; [done|]. by eapply list_elem_of_lookup_2.
      - destruct Hl as [->|(t & -> & _)]; [done|]. apply list_lookup_singleton_Some in Hf as [? _]. lia. }
    rewrite lookup_app_r, Nat.sub_diag in Hf by lia. destruct Hl as [->|(t & -> & Ht)]; [done|].
    injection Hf as ->. rewrite take_app_length. split; [done|]. by exists body, f.
  - rewrite (take_next _ _ _ Hf). split_and!; [done| |lia]. apply Forall_app. auto.
Qed.

Lemma call_step_inv s s' : call_step s s' → session_inv s → session_inv s'.
Proof.
  intros H (Hf & Hl & Hs). destruct H as [f kept frames log sub Hn|frames log sub|frames log|frames log
    |frames log running|frames log running out next f Hx Hc|frames log running out next Hlag|frames log out next Hlen];
    unfold session_inv in *; simpl in *; (split; [|split]); try done.
  - by apply frames_ok_push.
  - apply sublist_app; [done|]. apply logged_sublist.
  - destruct sub as [| |out next|out|]; try done.
    + destruct Hs as (-> & Ho & Hle). rewrite take_app_le by done. rewrite length_app. split_and!; [done|done|lia].
    + destruct Hs as [Hs|[? _]]; [left|done]. by apply served_push.
    + by destruct Hs.
  - destruct sub as [| |out next|out|]; try done; [|by destruct Hs].
    destruct Hs as [Hs|[? _]]; [left; by eapply served_retire|done].
  - destruct log as [|f log]; [done|]. right. done.
  - unfold after_replay. destruct (replay frames) as [out seen] eqn:E. apply replay_spec in E as [-> Hseen]; [|done].
    destruct seen; [left; left; done|]. rewrite firstn_all || rewrite take_ge by done. split_and!; done.
  - destruct Hs as (-> & Ho & Hle). pose proof (follow_inv running frames (take next frames) next f Hf eq_refl Ho Hx) as Hfi.
    destruct (follow _ _ _); try done. by left.
  - destruct Hs as (-> & Ho & Hle). left. right. exists (take next frames), (drop next frames).
    rewrite take_drop, length_drop. auto.
  - destruct Hs as (-> & Ho & Hle). left. right. exists frames, []. rewrite app_nil_r.
    rewrite take_ge in * by lia. auto 10.
Qed.

Lemma call_reach_inv s : call_reach s → session_inv s.
Proof.
  revert s. apply (rtc_ind_r session_inv).
  - split_and!; simpl; try done. exists [], []. split_and!; [done|constructor|by left].
  - intros y z _ Hs IH. by eapply call_step_inv.
Qed.

(** A stream with exactly one terminal, its last frame. *)
Definition one_outcome (out : list ToolResultFrame) : Prop :=
  ∃ body t, out = body ++ [t] ∧ no_terminal body ∧ is_terminal_frame t = true.

Lemma served_outcome running frames out : served running frames out → one_outcome out.
Proof. intros [[-> H]|(pre & rest & _ & Hp & -> & _)]; [done|]. by exists pre, failed_terminal. Qed.

Lemma no_terminal_sublist l k : l `sublist_of` k → no_terminal k → no_terminal l.
Proof. induction 1 as [|x l k _ IH|x l k _ IH]; inversion 1; subst; auto. Qed.

Lemma no_terminal_open l : no_terminal l → has_terminal l = false.
Proof.
  intros Hn. unfold has_terminal. destruct (list.last l) as [f|] eqn:E; [|done]. apply last_Some in E as [l' ->].
  apply Forall_app in Hn as [_ Hn]. rewrite Forall_singleton in Hn. by destruct f as [[[]|]].
Qed.

Lemma persisted_outcome frames log :
  frames_ok frames → log `sublist_of` frames → one_outcome (serve_persisted log).
Proof.
  intros (body & last & -> & Hb & Hl) Hs. apply sublist_app_r in Hs as (l1 & l2 & -> & H1 & H2).
  assert (no_terminal l1) as Hn by (by eapply no_terminal_sublist).
  unfold serve_persisted. destruct Hl as [->|(t & -> & Ht)].
  - apply sublist_nil_r in H2 as ->. rewrite app_nil_r, no_terminal_open by done. by exists l1, failed_terminal.
  - apply sublist_cons_r in H2 as [H2|(l & -> & H2)].
    + apply sublist_nil_r in H2 as ->. rewrite app_nil_r, no_terminal_open by done. by exists l1, failed_terminal.
    + apply sublist_nil_r in H2 as ->. unfold has_terminal. rewrite last_app. simpl.
      destruct t as [[[]|]]; try done. rewrite app_nil_r. by eexists l1, _.
Qed.

(** C9. Awaiting a call: in whatever way its consumer and the subscriber
    interleave, a finished stream ends in exactly one terminal frame. Served
    live it is every frame of the call in order, none twice and none missing,
    up to the call's own terminal; it ends early in a synthetic failure only if
    the call had no terminal to give or the subscriber fell more than 256
    frames behind. Served after the session is gone it is the persisted record,
    an ordered part of the call's frames. *)
Theorem await_serves_call (s : CallSession) (out : list ToolResultFrame) :
  call_reach s → se_sub s = SubDone out →
  one_outcome out ∧
  (served (se_running s) (se_frames s) out ∨
   se_running s = false ∧ se_log s `sublist_of` se_frames s ∧ out = serve_persisted (se_log s)).
Proof.
  intros (Hf & Hl & Hs)%call_reach_inv E. rewrite E in Hs. destruct Hs as [Hs|(Hr & Hne & ->)].
  - split; [by eapply served_outcome|by left].
  - split; [by eapply persisted_outcome|]. by right.
Qed.

(** The subscriber's part of the work left. *)
Definition sub_left (s : CallSession) : nat :=
  match se_sub s with
  | SubIdle => length (se_frames s) + 3
  | SubHandle => length (se_frames s) + 2
  | SubFollowing _ next => length (se_frames s) - next + 1
  | SubDone _ | SubNotFound => 0
  end.

(** Awaiting comes to an end: once the call's consumer has retired, and it
    does when the call's channel closes, a subscriber is never stuck; each of
    its steps brings it closer to its end, and it gets there with an outcome or
    learns that nothing is known of the call. *)
Theorem await_ends (s : CallSession) :
  call_reach s → se_running s = false →
  (∀ s', call_step s s' → sub_left s' < sub_left s ∧ se_running s' = false) ∧
  (sub_left s ≠ 0 → ∃ s', call_step s s') ∧
  ∃ s', rtc call_step s s' ∧ (se_sub s' = SubNotFound ∨ ∃ out, se_sub s' = SubDone out).
Proof.
  intros Hreach Hr. assert (∀ s, call_reach s → se_running s = false →
    (∀ s', call_step s s' → sub_left s' < sub_left s ∧ se_running s' = false) ∧
    (sub_left s ≠ 0 → ∃ s', call_step s s')) as Hall.
  { clear. intros s Hreach Hr. apply call_reach_inv in Hreach as (_ & _ & Hs). split.
    - intros s' H. destruct H as [| |frames log|frames log|frames log running|frames log running out next f Hx Hc
        |frames log running out next Hlag|frames log out next Hlen]; simpl in *; try done; unfold sub_left; simpl;
        (split; [|done]).
      + destruct log; simpl; lia.
      + unfold after_replay. destruct (replay frames) as [o []]; simpl; lia.
      + apply lookup_lt_Some in Hx. unfold follow. destruct (is_terminal_frame f); simpl; lia.
      + lia.
      + lia.
    - destruct s as [frames log running sub]. simpl in *. subst running. destruct sub as [| |out next|out|].
      + intros _. eexists. apply StepMiss.
      + intros _. eexists. apply StepSubscribe.
      + intros _. destruct (frames !! next) as [f|] eqn:E.
        * destruct (decide (length frames - next ≤ BROADCAST_CAPACITY)).
          -- eexists. by apply StepRecv.
          -- eexists. apply StepLag. lia.
        * eexists. apply StepClosed. by apply lookup_ge_None.
      + done.
      + done. }
  destruct (Hall s Hreach Hr) as [H1 H2]. split_and!; [done|done|]. clear H1 H2.
  remember (sub_left s) as n eqn:En. revert s Hreach Hr En. induction n as [n IH] using lt_wf_ind. intros s Hreach Hr ->.
  destruct (Hall s Hreach Hr) as [H1 H2]. destruct (decide (sub_left s = 0)) as [E|E].
  - exists s. split; [done|]. unfold sub_left in E. destruct (se_sub s) eqn:Es; try lia; eauto.
  - destruct (H2 E) as [s1 Hs]. destruct (H1 s1 Hs) as [Hlt Hr1].
    destruct (IH (sub_left s1) Hlt s1) as (s' & Hs' & Hd); [by eapply rtc_r|done|done|].
    exists s'. split; [|done]. by eapply rtc_l.
Qed.

(** ** Client dispatch carries no credential *)

Section dispatch.
Context {Num : Type} (is_i64 is_u64 : Num → bool) (num_to_string : Num → string).
Context (json_parse : string → result (Json Num) string) (error_text : ArgValidationError → string).
Abbreviation dispatch_client_tool := (dispatch_client_tool is_i64 is_u64 num_to_string json_parse error_text).

(** A call a client dispatches by hand never carries a credential and never
    loops back to a client: it begins a toolset call without a grant, with
    arguments its declaration validates, or runs a runtime tool, and only then
    has a session under the id it answers; any other name is refused and
    changes nothing. *)
Theorem client_dispatch_is_grantless env name input calls :
  let '(calls', effs, res) := dispatch_client_tool env name input calls in
  match res with
  | Err _ => calls' = calls ∧ ∀ e, e ∈ effs → ∃ toolset args, e = EffBegin name toolset args None
  | Ok id => calls' = {[id]} ∪ calls ∧
      ((∃ toolset args, effs = [EffBegin name toolset args None] ∧
          source_of (cv_tools env 0) name = Some SrcToolset ∧ toolset_of (cv_tools env 1) name = Some toolset ∧
          validate_call_input is_i64 is_u64 num_to_string json_parse input
            (default [] (args_for (cv_tools env 2) name)) = Ok args ∧
          cv_begin env name toolset args None = Ok id) ∨
       effs = [EffRuntime name input] ∧ source_of (cv_tools env 0) name = Some SrcRuntime ∧ id = "rt-" +:+ cv_uuid env)
  end.
Proof using Type*.
  unfold ClientCalls.dispatch_client_tool, dispatch_client_toolset_tool.
  destruct (source_of (cv_tools env 0) name) as [[]|]; simpl; [|by auto 10|set_solver|set_solver].
  destruct (cv_dispatch env); simpl; [|set_solver].
  destruct (toolset_of (cv_tools env 1) name) as [ts|] eqn:Et; simpl; [|set_solver].
  destruct (validate_call_input _ _ _ _ _ _) as [args|] eqn:Ev; simpl; [|set_solver].
  destruct (cv_begin env name ts args None) as [id|e] eqn:Eb; simpl; (split; [done|]).
  - left. by exists ts, args.
  - intros x ->%list_elem_of_singleton. by exists ts, args.
Qed.
End dispatch.

(** ** Witnesses *)

Definition line_frame : ToolResultFrame := mkFrame (Some (Stdout "line")).
Definition ok_frame : ToolResultFrame := mkFrame (Some (Complete (tool_outcome_i32 OutcomeDone) 0)).

(** The subscriber arrives between the two frames. *)
Definition sample_session : CallSession :=
  mkSession [line_frame; ok_frame] [line_frame; ok_frame] true (SubDone [line_frame; ok_frame]).

Lemma sample_session_reach : call_reach sample_session.
Proof.
  eapply rtc_l; [apply (StepPush line_frame true); constructor|].
  eapply rtc_l; [apply StepFind|]. eapply rtc_l; [apply StepSubscribe|].
  eapply rtc_l; [apply (StepPush ok_frame true); by repeat constructor|].
  apply rtc_once. apply (StepRecv _ _ _ [line_frame] 1 ok_frame); [done|]. simpl. unfold BROADCAST_CAPACITY. lia.
Qed.

Lemma await_serves_call_witness :
  one_outcome [line_frame; ok_frame] ∧
  (served true [line_frame; ok_frame] [line_frame; ok_frame] ∨
   true = false ∧ [line_frame; ok_frame] `sublist_of` [line_frame; ok_frame] ∧
   [line_frame; ok_frame] = serve_persisted [line_frame; ok_frame]).
Proof. exact (await_serves_call sample_session [line_frame; ok_frame] sample_session_reach eq_refl). Defined.

(** A call that died before its terminal, with a subscriber waiting. *)
Definition dead_session : CallSession := mkSession [line_frame] [line_frame] false SubHandle.

Lemma dead_session_reach : call_reach dead_session.
Proof.
  eapply rtc_l; [apply (StepPush line_frame true); constructor|].
  eapply rtc_l; [apply StepFind|]. apply rtc_once. apply StepRetire.
Qed.

Lemma await_ends_witness :
  ∃ s', rtc call_step dead_session s' ∧ (se_sub s' = SubNotFound ∨ ∃ out, se_sub s' = SubDone out).
Proof. exact (proj2 (proj2 (await_ends dead_session dead_session_reach eq_refl))). Defined.

(** A call that ran to its end is forgotten at once if it named no conversation
    to log it in. *)
Lemma unlogged_call_forgotten :
  ∃ s, call_reach s ∧ se_sub s = SubNotFound ∧ last (se_frames s) = Some ok_frame.
Proof.
  exists (mkSession [ok_frame] [] false SubNotFound). split; [|done].
  eapply rtc_l; [apply (StepPush ok_frame false); constructor|].
  eapply rtc_l; [apply StepRetire|]. apply rtc_once. apply StepMiss.
Qed.

(** A subscriber that falls behind is told the call failed, which succeeded. *)
Lemma slow_subscriber_told_failure :
  ∃ s, call_reach s ∧ se_sub s = SubDone [failed_terminal] ∧ last (se_frames s) = Some ok_frame.
Proof.
  assert (∀ n frames log sub, no_terminal frames →
    rtc call_step (mkSession frames log true sub) (mkSession (frames ++ replicate n line_frame) log true sub)) as Hpush.
  { induction n as [|n IH]; intros frames log sub Hn; simpl; [by rewrite app_nil_r|].
    eapply rtc_l; [apply (StepPush line_frame false); exact Hn|]. simpl logged. rewrite app_nil_r.
    specialize (IH (frames ++ [line_frame]) log sub). rewrite <- app_assoc in IH. apply IH.
    apply Forall_app. split; [done|]. by repeat constructor. }
  exists (mkSession (replicate 257 line_frame ++ [ok_frame]) [] true (SubDone [failed_terminal])).
  split; [|split; [done|apply last_snoc]].
  eapply rtc_l; [apply StepFind|]. eapply rtc_l; [apply StepSubscribe|].
  etrans; [apply (Hpush 257); constructor|]. eapply rtc_l; [apply (StepPush ok_frame false)|].
  - apply Forall_forall. intros f [-> _]%elem_of_replicate. done.
  - apply rtc_once. apply (StepLag _ _ _ [] 0). apply Nat.ltb_lt. by vm_compute.
Qed.
