(* ===== verification/Entrypoint.v ===== *)
(** * The turn entry point

    Models [crates/harness/src/runtime_entrypoint.rs] and
    [crates/harness/src/message_source.rs]: a harness takes the workspace's
    messages one by one, and for each reads the primary agent file, appends the
    message to its conversation, runs the agent loop and delivers the outcome.
    What it sends the relay is recorded as deliveries; a failed delivery is
    only logged. Within a turn the registry is the turn's own. *)

From S2P Require Import Prelude Text Proto Codec Scrub Conversation Registry GatewayState Gateway HarnessService.
From S2P Require Import Turn Agent Instructions RuntimeTools ToolRouter ModelDispatch.

(** ** Inbound messages *)

Record InboundMessage : Type := mkInbound {
  in_content : list ContentBlock; in_reply_channel_stream : option string; in_conversation_id : string;
  in_grants : gmap string string }.

(** What the driver's next call does. *)
Inductive DriverEvent : Type :=
| OnSubscribe (r : result unit string)
| OnNext (r : result UserMessage string).

(** A toolset selected twice keeps the last selection. *)
Definition collect_grants (grants : list (string * string)) : gmap string string :=
  foldl (λ m g, <[g.1 := g.2]> m) ∅ grants.

(** [next_message]; [None] is a source still waiting when the events run out. *)
Fixpoint next_message (subscribed : bool) (events : list DriverEvent)
  : option (bool * list DriverEvent * result InboundMessage string) :=
  match subscribed, events with
  | false, OnSubscribe r :: events => next_message (is_ok r) events
  | true, OnNext (Ok msg) :: events =>
      Some (true, events,
        match um_content msg with
        | [] => Err "empty inbound message"
        | content => Ok (mkInbound content (um_reply_channel_stream msg) (um_conversation_id msg)
                                   (collect_grants (um_grants msg)))
        end)
  | true, OnNext (Err _) :: events => next_message false events
  | _, _ => None
  end.

(** ** One turn *)

Definition PRIMARY_TREE_CAP : nat := 1000.

Definition render_primary_prompt (agents_body : string) (paths : list string) : string :=
  match paths with
  | [] => agents_body
  | _ => agents_body +:+ str_of [newline; newline] +:+ "## Workspace files" +:+ str_of [newline; newline]
         +:+ str_join (str_of [newline]) paths
  end.

Definition loop_error_reason (e : LoopError) : string :=
  match e with
  | Halt (IterationLimit _) => "iteration limit reached"
  | Halt (UnknownStop _) => "unexpected stop reason"
  | Halt (HaltMaxTokens _) => "response truncated"
  | ToolsetRpcError _ => "dispatch failed"
  | StreamEnded _ => "turn stream ended"
  | LoopCancelled => "turn cancelled"
  end.

Definition turn_outcome_frame (conversation_id : string) (result : result string LoopError)
  : option (list ContentBlock) * TurnStateEvent :=
  match result with
  | Ok text | Err (Halt (HaltMaxTokens text)) =>
      (Some [text_block text], turn_state_event (turn_state_i32 TsIdle) conversation_id "" "")
  | Err LoopCancelled => (None, turn_state_event (turn_state_i32 TsCancelled) conversation_id "" "")
  | Err e =>
      (None, turn_state_event (turn_state_i32 TsFailed) conversation_id (loop_error_reason e) "13")
  end.

Definition turn_start_frame (conversation_id agent_name system_prompt_sha256 : string) : TurnStateEvent :=
  mkTurnStateEvent (turn_state_i32 TsWorking) conversation_id "" "" agent_name system_prompt_sha256.

(** What goes out to the relay. *)
Inductive Delivery : Type :=
| DelTurnState (e : TurnStateEvent) (subject : string)
| DelReply (conversation_id : string) (content : list ContentBlock)
| DelItem (channel_stream_id : string) (item : StreamItem).

Definition deliver_turn_outcome (reply_channel_stream : option string) (conversation_id : string)
    (result : result string LoopError) (r : Registry) : list Delivery :=
  match reply_channel_stream with
  | None => []
  | Some _ =>
      let '(reply, turn_state) := turn_outcome_frame conversation_id result in
      match reply with Some content => [DelReply conversation_id content] | None => [] end
      ++ [DelTurnState turn_state (default "" (owner_of conversation_id r))]
  end.

Definition handle_llm_loop_result (result : result string LoopError) : Prelude.result unit string :=
  match result with
  | Ok _ | Err (Halt _) | Err (StreamEnded _) | Err LoopCancelled => Ok tt
  | Err (ToolsetRpcError e) => Err e
  end.

Definition build_turn_request (system : option string) (messages : list Message) (tool_defs : list ToolDefinition)
    (model : option string) (reply_channel_stream : option string) (conversation_id : string) : TurnRequest :=
  mkTurnRequest system tool_defs messages model reply_channel_stream None None conversation_id.

(** The world of one turn. *)
Record TurnEnv : Type := mkTurnEnv {
  tv_fs : Node; tv_load_io : option string; tv_now : Z; tv_append_io : AppendIo; tv_ts : string;
  tv_tools : Catalog; tv_uuid : nat → string; tv_agent : AgentEnv }.

Section turn.
Context (uuid_parse : string → bool) `{!LineCodec LogEntry}.
Context (yaml_parse : string → YDoc) (sha256_hex : string → string).
Context (root : list string) (workspace : string) (scrub : ScrubSet) (max_iterations : nat) (idle_gap : N).

Definition resolve_primary_agent (fs : Node) : string :=
  match read_primary_agent fs root workspace with Ok p => p | Err _ => "" end.

(** The body of [message_loop] for one message: the registry, the deliveries,
    and whether the loop goes on. [None] is the panic of the header scan. *)
Definition process_message (env : TurnEnv) (inbound : InboundMessage) (r : Registry)
  : option (Registry * list Delivery * result unit string) :=
  let primary_agent_text := resolve_primary_agent (tv_fs env) in
  let conv := in_conversation_id inbound in
  let reply := in_reply_channel_stream inbound in
  match get_or_create uuid_parse (tv_load_io env) conv r with
  | (r, Err e) => Some (r, [], Err ("load conversation " +:+ conv +:+ ": " +:+ e))
  | (r, Ok log) =>
      let r := touch conv (tv_now env) r in
      '(body, frontmatter) ← strip_frontmatter yaml_parse primary_agent_text;
      let system_prompt := render_primary_prompt body (list_tree (tv_fs env) root workspace PRIMARY_TREE_CAP) in
      let model := resolve_model (fm_model frontmatter) (Some log) in
      let tool_defs := tool_definitions_scoped (tv_tools env) (fm_tools frontmatter) in
      let user_msg := mkMessage "user" (in_content inbound) [] None None in
      match append_tagged (tv_append_io env) (tv_ts env) user_msg None log with
      | (log, Err e) => Some (store_log conv log r, [], Err ("append user message: " +:+ e))
      | (log, Ok _) =>
          let history := history_for_provider log Orchestrator in
          let prompt_hash := sha256_hex primary_agent_text in
          let attribution := mkAttribution model (Some prompt_hash) [] in
          let start := match reply with
                       | Some _ => [DelTurnState (turn_start_frame conv "" prompt_hash) ""]
                       | None => []
                       end in
          let '(r, _) := register_turn conv r in
          let request := build_turn_request (Some system_prompt) history tool_defs model reply conv in
          let '(s, result) :=
            llm_loop (tv_uuid env) (tv_agent env) (ctx_of request reply) (scope_tag Orchestrator) attribution
              scrub idle_gap max_iterations (1 `max` max_iterations) request
              (loop_start log Orchestrator request) in
          let items := match reply with Some id => DelItem id <$> ls_frames s | None => [] end in
          let r := end_turn conv (store_log conv (ls_log s) r) in
          result ← result;
          Some (r, start ++ items ++ deliver_turn_outcome reply conv result r, handle_llm_loop_result result)
      end
  end.

(** [message_loop]: until a message, or a turn, ends it with an error. *)
Fixpoint message_loop (turns : list (list DriverEvent * TurnEnv)) (subscribed : bool) (r : Registry)
  : option (Registry * list Delivery * result unit string) :=
  match turns with
  | [] => Some (r, [], Ok tt)
  | (events, env) :: turns =>
      match next_message subscribed events with
      | None => Some (r, [], Ok tt)
      | Some (_, _, Err e) => Some (r, [], Err e)
      | Some (subscribed, _, Ok inbound) =>
          '(r, deliveries, res) ← process_message env inbound r;
          match res with
          | Err e => Some (r, deliveries, Err e)
          | Ok _ =>
              '(r, later, res) ← message_loop turns subscribed r;
              Some (r, deliveries ++ later, res)
          end
      end
  end.
End turn.

(** ** What a turn leaves and sends *)

(** The one outcome of a turn: the reply and IDLE, or CANCELLED or FAILED. *)
Definition outcome_deliveries (conv subject : string) (dels : list Delivery) : Prop :=
  (∃ text, dels = [DelReply conv [text_block text];
                   DelTurnState (turn_state_event (turn_state_i32 TsIdle) conv "" "") subject]) ∨
  dels = [DelTurnState (turn_state_event (turn_state_i32 TsCancelled) conv "" "") subject] ∨
  ∃ reason, dels = [DelTurnState (turn_state_event (turn_state_i32 TsFailed) conv reason "13") subject].

Lemma deliver_turn_outcome_spec id conv result r :
  outcome_deliveries conv (default "" (owner_of conv r)) (deliver_turn_outcome (Some id) conv result r).
Proof.
  unfold deliver_turn_outcome, turn_outcome_frame, outcome_deliveries.
  destruct result as [text|[[]| | |]]; simpl; eauto 10.
Qed.

Section turn_facts.
Context (uuid_parse : string → bool) `{!LineCodec LogEntry}.
Context (yaml_parse : string → YDoc) (sha256_hex : string → string).
Context (root : list string) (workspace : string) (scrub : ScrubSet) (max_iterations : nat) (idle_gap : N).
Abbreviation process_message :=
  (process_message uuid_parse yaml_parse sha256_hex root workspace scrub max_iterations idle_gap).

(** A turn that came as far as the loop. *)
Record turn_ran (env : TurnEnv) (inbound : InboundMessage) (r0 r1 : Registry) (log log' : ConversationLog)
    (request : TurnRequest) (attribution : AssistantAttribution) (s : LoopState) (result : result string LoopError)
    (r' : Registry) (dels : list Delivery) : Prop := mkTurnRan {
  ran_load : get_or_create uuid_parse (tv_load_io env) (in_conversation_id inbound) r0 = (r1, Ok log);
  ran_append : append_tagged (tv_append_io env) (tv_ts env)
                 (mkMessage "user" (in_content inbound) [] None None) None log = (log', Ok tt);
  ran_loop : llm_loop (tv_uuid env) (tv_agent env) (ctx_of request (in_reply_channel_stream inbound)) None attribution
               scrub idle_gap max_iterations (1 `max` max_iterations) request (loop_start log' Orchestrator request)
             = (s, Some result);
  ran_registry : r' = end_turn (in_conversation_id inbound)
    (store_log (in_conversation_id inbound) (ls_log s)
       (register_turn (in_conversation_id inbound) (touch (in_conversation_id inbound) (tv_now env) r1)).1);
  ran_dels : dels = match in_reply_channel_stream inbound with
                    | Some id => DelTurnState (turn_start_frame (in_conversation_id inbound) ""
                                   (sha256_hex (resolve_primary_agent root workspace (tv_fs env)))) ""
                                 :: (DelItem id <$> ls_frames s)
                    | None => []
                    end ++ deliver_turn_outcome (in_reply_channel_stream inbound) (in_conversation_id inbound) result r' }.

(** The three ways a message ends. *)
Inductive turn_end (env : TurnEnv) (inbound : InboundMessage) (r : Registry)
  : Registry → list Delivery → result unit string → Prop :=
| EndLoad r1 e :
    get_or_create uuid_parse (tv_load_io env) (in_conversation_id inbound) r = (r1, Err e) →
    turn_end env inbound r r1 [] (Err ("load conversation " +:+ in_conversation_id inbound +:+ ": " +:+ e))
| EndAppend r1 log log' e :
    get_or_create uuid_parse (tv_load_io env) (in_conversation_id inbound) r = (r1, Ok log) →
    append_tagged (tv_append_io env) (tv_ts env) (mkMessage "user" (in_content inbound) [] None None) None log
      = (log', Err e) →
    turn_end env inbound r (store_log (in_conversation_id inbound) log' (touch (in_conversation_id inbound) (tv_now env) r1))
      [] (Err ("append user message: " +:+ e))
| EndRan r1 log log' request attribution s result r' dels :
    turn_ran env inbound r r1 log log' request attribution s result r' dels →
    turn_end env inbound r r' dels (handle_llm_loop_result result).

Lemma process_message_end env inbound r r' dels res :
  process_message env inbound r = Some (r', dels, res) → turn_end env inbound r r' dels res.
Proof.
  unfold Entrypoint.process_message. intros H.
  destruct (get_or_create _ _ _ r) as [r1 [log|e]] eqn:El; [|simplify_eq; by apply EndLoad].
  destruct (strip_frontmatter _ _) as [[body fm]|]; simpl in H; [|done].
  destruct (append_tagged _ _ _ _ log) as [log' [[]|e]] eqn:Ea; [|simplify_eq; by eapply EndAppend].
  destruct (llm_loop _ _ _ _ _ _ _ _ _ _ _) as [s [result|]] eqn:Eloop; simpl in H; [|done].
  injection H as <- <- <-. eapply EndRan. split; [exact El|exact Ea|exact Eloop|done|].
  by destruct (in_reply_channel_stream inbound).
Qed.

Lemma process_message_returns env inbound r :
  strip_frontmatter yaml_parse (resolve_primary_agent root workspace (tv_fs env)) ≠ None →
  is_Some (process_message env inbound r).
Proof.
  intros Hs. unfold Entrypoint.process_message. destruct (get_or_create _ _ _ r) as [r1 [log|e]]; [|by eexists].
  destruct (strip_frontmatter _ _) as [[body fm]|]; simpl; [|done].
  destruct (append_tagged _ _ _ _ log) as [log' [[]|e]]; [|by eexists].
  set (request := build_turn_request _ _ _ _ _ _).
  pose proof (llm_loop_returns (tv_uuid env) (tv_agent env) (ctx_of request (in_reply_channel_stream inbound))
    (scope_tag Orchestrator) (mkAttribution (resolve_model (fm_model fm) (Some log))
       (Some (sha256_hex (resolve_primary_agent root workspace (tv_fs env)))) []) scrub idle_gap max_iterations
    (1 `max` max_iterations) request (loop_start log' Orchestrator request) ltac:(lia) ltac:(lia)) as [x Hx].
  destruct (llm_loop _ _ _ _ _ _ _ _ _ _ _) as [s result]. simpl in Hx. subst result. by eexists.
Qed.


Lemma get_or_create_registry io id r r1 res :
  get_or_create uuid_parse io id r = (r1, res) →
  r1 = r ∧ (∀ log, res = Ok log → rg_logs r !! id = Some (cl_entries log)) ∨
  ∃ log, res = Ok log ∧ rg_logs r !! id = None ∧ r1 = set_logs (insert id (cl_entries log)) r.
Proof.
  unfold get_or_create, hbind, hlift. destruct (validate_conversation_id uuid_parse id); simpl; [|intros [= <- <-]; by left].
  destruct (rg_logs r !! id) as [es|] eqn:E; [intros [= <- <-]; left; split; [done|by intros log [= <-]]|].
  destruct (log_rebuild io (dir_of r id)) as [log|]; intros [= <- <-]; [right; eauto|by left].
Qed.

(** What a turn may do to the registry: anything under [conv], but the record
    of the conversation only gets a new time. *)
Definition only_conv (conv : string) (r r' : Registry) : Prop :=
  (∀ id, id ≠ conv → rg_disk r' !! id = rg_disk r !! id ∧ rg_meta r' !! id = rg_meta r !! id ∧
     rg_logs r' !! id = rg_logs r !! id ∧ rg_turns r' !! id = rg_turns r !! id) ∧
  owner_of conv r' = owner_of conv r.

#[local] Instance only_conv_trans conv : Transitive (only_conv conv).
Proof.
  intros r1 r2 r3 [H1 E1] [H2 E2]. split; [|congruence]. intros id Hid.
  destruct (H2 id Hid) as (-> & -> & -> & ->). by destruct (H1 id Hid) as (-> & -> & -> & ->).
Qed.

Lemma only_conv_load io conv r r1 res : get_or_create uuid_parse io conv r = (r1, res) → only_conv conv r r1.
Proof.
  intros [[-> _]|(log & _ & _ & ->)]%get_or_create_registry; split; try done.
  intros id Hid. simpl. by rewrite lookup_insert_ne.
Qed.

Lemma only_conv_touch conv now r : only_conv conv r (touch conv now r).
Proof.
  split; [intros id Hid; simpl; by rewrite lookup_alter_ne|]. unfold owner_of. simpl. rewrite lookup_alter_eq.
  by destruct (rg_meta r !! conv).
Qed.

Lemma only_conv_store conv log r : only_conv conv r (store_log conv log r).
Proof. split; [|done]. intros id Hid. simpl. by rewrite !lookup_insert_ne. Qed.

Lemma only_conv_register conv r : only_conv conv r (register_turn conv r).1.
Proof. split; [|done]. intros id Hid. simpl. by rewrite lookup_insert_ne. Qed.

Lemma only_conv_end conv r : only_conv conv r (end_turn conv r).
Proof. split; [|done]. intros id Hid. simpl. by rewrite lookup_delete_ne. Qed.

(** *** Model failures *)

Lemma loop_no_rpc_error uuid env ctx tag attribution fuel it stream s e :
  (∀ n req, is_ok (ae_turn env n req) = true) →
  (loop uuid env ctx tag attribution scrub idle_gap max_iterations fuel it stream s).2 ≠ Some (Err (ToolsetRpcError e)).
Proof.
  intros Ht. revert it stream s. induction fuel as [|fuel IH]; intros it stream s; simpl; [done|].
  assert (∀ s', loop_round uuid env ctx tag attribution scrub idle_gap max_iterations it stream s
                ≠ (s', inl (Err (ToolsetRpcError e)))) as Hr.
  { intros s'. unfold loop_round. destruct (drain_turn _ _ _ _ _) as [s1 [t|[]]]; try done.
    destruct (tr_stop_reason t); try done. destruct (tr_tool_calls t); [done|].
    destruct (max_iterations <=? S it); [done|]. destruct (run_tools _ _ _ _) as [s2 []]; [done|].
    unfold ask_model. specialize (Ht (length (ls_requests s2)) (build_continuation ctx (ls_messages s2))).
    by destruct (ae_turn _ _ _). }
  destruct (loop_round _ _ _ _ _ _ _ _ _ _ _) as [s1 [r|stream']]; [|apply IH].
  simpl. intros [= ->]. by apply (Hr s1).
Qed.

Lemma llm_loop_no_rpc_error uuid env ctx tag attribution fuel req s e :
  (∀ n req, is_ok (ae_turn env n req) = true) →
  (llm_loop uuid env ctx tag attribution scrub idle_gap max_iterations fuel req s).2 ≠ Some (Err (ToolsetRpcError e)).
Proof.
  intros Ht. unfold llm_loop, ask_model. specialize (Ht (length (ls_requests s)) req) as H1.
  destruct (ae_turn env _ req); [|done]. by apply loop_no_rpc_error.
Qed.

(** [ToolsetRpc::turn] as [InferenceDispatch] serves it, read to the end. *)
Definition inference_turn (json_string : string → option string) (debug : string → string)
    (build : Format → string → Provider) (fuel : nat) (menv : ModelEnv) (d : InferenceDispatch) (req : TurnRequest)
  : result (list SourceStep) string :=
  Ok ((λ r, match r with Ok e => StepEvent e | Err e => StepStreamError e end)
        <$> (read_source fuel (turn json_string debug build menv d req).1).1).

(** No model failure stops the harness: when turns are served by the model
    dispatch, whatever the provider, the job, the pod and the tools do, a
    message ends the message loop only if its conversation could not be loaded
    or the message could not be recorded. *)
Theorem model_failures_spare_harness json_string debug build menv d fuel env inbound r r' dels e :
  (∀ n req, ae_turn (tv_agent env) n req = inference_turn json_string debug build fuel (menv n) d req) →
  process_message env inbound r = Some (r', dels, Err e) →
  (∃ e', e = "load conversation " +:+ in_conversation_id inbound +:+ ": " +:+ e') ∨
  (∃ e', e = "append user message: " +:+ e').
Proof.
  intros Ht E%process_message_end. inversion E as [r1 e1 El|r1 log log' e1 El Ea|r1 log log' request attribution s result r2 dels2 Hran Hr2 Hd He];
    subst; [eauto..|]. exfalso.
  destruct Hran as [_ _ Eloop _ _]. destruct result as [|[| | |]]; simpl in He; try done. injection He as ->.
  apply (llm_loop_no_rpc_error (tv_uuid env) (tv_agent env) (ctx_of request (in_reply_channel_stream inbound)) None
    attribution (1 `max` max_iterations) request (loop_start log' Orchestrator request) e).
  - intros n req. by rewrite Ht.
  - by rewrite Eloop.
Qed.
End turn_facts.

(** ** Witnesses *)

Definition sample_turn_env (agent : AgentEnv) : TurnEnv :=
  mkTurnEnv sample_fs None 9 AppendDone "t" (router_new (λ _, "") (λ _, "{}")) (λ _, "e") agent.

Definition sample_inbound : InboundMessage := mkInbound (text_content "hi") (Some "stream-1") "parent" ∅.

Definition sample_process (agent : AgentEnv) : option (Registry * list Delivery * result unit string) :=
  process_message sample_uuid sample_yaml (λ s, s) ["instructions"] "ws" scrub_empty_set 5 600
    (sample_turn_env agent) sample_inbound parent_registry.

Definition tool_agent : AgentEnv := sample_agent [sample_call "1"] sample_tool_ok.



(** An agent on the sample models, whose conversation cannot be loaded. *)
Definition inference_agent : AgentEnv :=
  mkAgentEnv (λ _ req, inference_turn unquote (λ s, s) sample_provider 9 sample_menv sample_dispatch req)
             (λ _ _, sample_tool_ok) (λ _, AppendDone) (λ _, "t").

Definition unloadable : TurnEnv :=
  mkTurnEnv sample_fs (Some "disk") 9 AppendDone "t" [] (λ _, "e") inference_agent.

Lemma model_failures_spare_harness_witness :
  (∃ e', "load conversation parent: disk" = "load conversation parent: " +:+ e') ∨
  (∃ e', "load conversation parent: disk" = "append user message: " +:+ e').
Proof.
  apply (model_failures_spare_harness sample_uuid sample_yaml (λ s, s) ["instructions"] "ws" scrub_empty_set 5 600
           unquote (λ s, s) sample_provider (λ _, sample_menv) sample_dispatch 9 unloadable sample_inbound parent_registry
           parent_registry [] "load conversation parent: disk"); [reflexivity|]. by vm_compute.
Defined.

(** ** An empty message *)

(** The subscriber the harness holds on the relay's bus. *)
Definition listening : World SampleService :=
  mkWorld (subscribe_or_create "home" (w_gateway world2)) (w_harness world2).

Definition empty_ingest : IngestRequest := mkIngest "stream-1" "conv-1" [] (Some ([], "alice", [])) None.

(** A message without content stops the harness: the relay accepts it from
    any user of the workspace and puts it on the bus, and the harness, on
    reading it, leaves its message loop with an error, whatever else is queued. *)
Theorem empty_message_stops_harness :
  ∃ w' msg,
    channel_stream_ingest (H := SampleService) (Some sample_kube) no_dial (sample_env "") true (sample_req "alice")
      empty_ingest listening = (w', Ok ("stream-1", "conv-1")) ∧
    gs_senders (w_gateway w') !! "home" = Some [mkSubscriber [msg] false] ∧
    ∀ env turns r, message_loop sample_uuid sample_yaml (λ s, s) ["instructions"] "ws" scrub_empty_set 5 600
      (([OnNext (Ok msg)], env) :: turns) true r = Some (r, [], Err "empty inbound message").
Proof.
  eexists _, (mkUserMessage [] "alice" (Some "stream-1") "conv-1" []). split; [vm_compute; reflexivity|].
  split; [by vm_compute|]. done.
Qed.
