(* ===== verification/Sse.v ===== *)
(** * Provider event streams

    Models how [crates/model-provider] reads the server-sent events of a model
    provider: [split_first_sse_event] of [lib.rs], the stream loops and the
    event parsers of [claude.rs] and [openai.rs]. The body arrives as chunks of
    bytes, each of which may be a transport error instead; a stream is the list
    of its items. The JSON parser is a parameter. *)

From Equations Require Import Equations.
From S2P Require Import Prelude Text Codec Proto Scrub Inference Toolset.

(** ** [String::from_utf8_lossy]

    Every maximal part of a sequence that cannot be completed becomes one
    U+FFFD. *)

Definition replacement_char : bytes := [byte_of 239; byte_of 191; byte_of 189].

Definition lead3 (a b : ascii) : bool :=
  (in_range 224 224 a && in_range 160 191 b) || (in_range 225 236 a && is_continuation b)
  || (in_range 237 237 a && in_range 128 159 b) || (in_range 238 239 a && is_continuation b).
Definition lead4 (a b : ascii) : bool :=
  (in_range 240 240 a && in_range 144 191 b) || (in_range 241 243 a && is_continuation b)
  || (in_range 244 244 a && in_range 128 143 b).

Fixpoint from_utf8_lossy (s : bytes) : bytes :=
  match s with
  | [] => []
  | a :: s1 =>
      if in_range 0 127 a then a :: from_utf8_lossy s1 else
      match s1 with
      | [] => replacement_char
      | b :: s2 =>
          if in_range 194 223 a && is_continuation b then a :: b :: from_utf8_lossy s2 else
          if lead3 a b || lead4 a b then
            match s2 with
            | [] => replacement_char
            | c :: s3 =>
                if lead3 a b && is_continuation c then a :: b :: c :: from_utf8_lossy s3 else
                if lead4 a b && is_continuation c then
                  match s3 with
                  | [] => replacement_char
                  | d :: s4 =>
                      if is_continuation d then a :: b :: c :: d :: from_utf8_lossy s4
                      else replacement_char ++ from_utf8_lossy s3
                  end
                else replacement_char ++ from_utf8_lossy s2
            end
          else replacement_char ++ from_utf8_lossy s1
      end
  end.

(** ** Framing *)

Fixpoint split_first_sse_event (buffer : bytes) : option (bytes * bytes) :=
  match buffer with
  | a :: ((b :: rest) as buffer') =>
      if decide (a = newline ∧ b = newline) then Some ([], rest)
      else '(event, rest) ← split_first_sse_event buffer'; Some (a :: event, rest)
  | _ => None
  end.

Lemma split_first_Some buffer event rest :
  split_first_sse_event buffer = Some (event, rest) → buffer = event ++ [newline; newline] ++ rest.
Proof.
  revert event. induction buffer as [|a buffer IH]; intros event; [done|]. simpl.
  destruct buffer as [|b buffer]; [done|]. case_decide as Hd; [destruct Hd; by intros [= <- <-]; subst|].
  intros ([event' rest'] & Hs & [= <- <-])%bind_Some. simpl. f_equal. by apply IH.
Qed.

Definition inspect {A} (a : A) : {b | a = b} := exist _ a eq_refl.

(** The complete events at the front of the buffer, and what is left. *)
Equations? sse_events (buffer : bytes) : list bytes * bytes by wf (length buffer) lt :=
  sse_events buffer with inspect (split_first_sse_event buffer) => {
    | exist _ (Some (event, rest)) Hs :=
        let '(events, left_over) := sse_events rest in (event :: events, left_over);
    | exist _ None _ := ([], buffer) }.
Proof. apply split_first_Some in Hs. rewrite Hs, !length_app. simpl. lia. Qed.

Section stream.
(** A provider's event parser, with what it remembers between events. *)
Context {S : Type} (parse : S → string → list StreamEvent * S).

Fixpoint parse_events (s : S) (events : list bytes) : list StreamEvent * S :=
  match events with
  | [] => ([], s)
  | event :: events =>
      let '(out, s) := parse s (str_of event) in
      let '(outs, s) := parse_events s events in (out ++ outs, s)
  end.

(** The unfold of [parse_sse_stream]: events are taken off the buffer while it
    has one, then the next chunk is read; at the end of the body what is left
    is parsed as a last event if it is not blank. *)
Fixpoint parse_sse_stream (s : S) (buffer : bytes) (chunks : list (result bytes string))
  : list (result StreamEvent string) :=
  let '(events, buffer) := sse_events buffer in
  let '(out, s) := parse_events s events in
  (Ok <$> out) ++
  match chunks with
  | Ok chunk :: chunks => parse_sse_stream s (buffer ++ from_utf8_lossy chunk) chunks
  | Err e :: chunks => Err ("stream error: " +:+ e) :: parse_sse_stream s buffer chunks
  | [] => if decide (trim_bytes buffer = []) then [] else Ok <$> (parse s (str_of buffer)).1
  end.
End stream.

(** ** The parsers *)

Section json.
Context {Num : Type} (as_u64 : Num → option N) (json_parse : string → result (Json Num) string).

(** [serde_json::Value]'s accessors. *)
Definition json_get (k : string) (v : Json Num) : option (Json Num) :=
  match v with JObject fields => bt_get k fields | _ => None end.
Definition as_str (v : Json Num) : option string := match v with JString s => Some s | _ => None end.
Definition as_array (v : Json Num) : option (list (Json Num)) := match v with JArray l => Some l | _ => None end.
Definition json_u64 (v : Json Num) : option N := match v with JNumber n => as_u64 n | _ => None end.
Definition from_str (s : string) : option (Json Num) := match json_parse s with Ok v => Some v | Err _ => None end.

(** [claude.rs]: the fields of an event, then the event. *)
Definition sse_line (acc : option string * list string) (line : string) : option string * list string :=
  let '(event_type, data_lines) := acc in
  match str_strip_prefix "event: " line with
  | Some stripped => (Some (str_trim stripped), data_lines)
  | None =>
      match str_strip_prefix "data: " line with
      | Some stripped => (event_type, data_lines ++ [stripped])
      | None => (event_type, data_lines)
      end
  end.

Definition content_block_delta (parsed : Json Num) : option StreamEvent :=
  delta ← json_get "delta" parsed;
  delta_type ← json_get "type" delta ≫= as_str;
  if decide (delta_type = "text_delta") then SeContentDelta <$> (json_get "text" delta ≫= as_str)
  else if decide (delta_type = "thinking_delta") then SeThinkingDelta <$> (json_get "thinking" delta ≫= as_str)
  else if decide (delta_type = "input_json_delta") then SeToolUseInput <$> (json_get "partial_json" delta ≫= as_str)
  else None.

Definition content_block_start (parsed : Json Num) : option StreamEvent :=
  block ← json_get "content_block" parsed;
  block_type ← json_get "type" block ≫= as_str;
  if decide (block_type = "tool_use") then
    id ← json_get "id" block ≫= as_str;
    name ← json_get "name" block ≫= as_str;
    Some (SeToolUseStart id name)
  else if decide (block_type = "thinking") then Some (SeThinkingDelta "")
  else if decide (block_type = "text") then Some (SeContentDelta (default "" (json_get "text" block ≫= as_str)))
  else None.

Definition message_delta (parsed : Json Num) : option StreamEvent :=
  delta ← json_get "delta" parsed;
  SeDone <$> (json_get "stop_reason" delta ≫= as_str).

Definition claude_parse_sse_event (text : string) : option StreamEvent :=
  let '(event_type, data_lines) := foldl sse_line (None, []) (str_lines text) in
  let data := str_join (str_of [newline]) data_lines in
  event_type ← event_type;
  if decide (event_type = "content_block_delta") then from_str data ≫= content_block_delta
  else if decide (event_type = "content_block_start") then from_str data ≫= content_block_start
  else if decide (event_type = "message_delta") then from_str data ≫= message_delta
  else None.

Definition claude_stream (chunks : list (result bytes string)) : list (result StreamEvent string) :=
  parse_sse_stream (λ s text, (option_list (claude_parse_sse_event text), s)) tt [] chunks.

(** [openai.rs]: every data line is an event of its own, and may carry several
    things; the indices of the tool calls that were started are remembered. *)
Definition nonempty_str (s : option string) : option string :=
  s ← s; if str_is_empty s then None else Some s.

Definition delta_index (tc : Json Num) : N := default 0%N (json_get "index" tc ≫= json_u64).
Definition delta_id (tc : Json Num) : string := default "" (json_get "id" tc ≫= as_str).
Definition delta_name (tc : Json Num) : string :=
  default "" ((json_get "function" tc ≫= json_get "name") ≫= as_str).
Definition delta_args (tc : Json Num) : option string :=
  (json_get "function" tc ≫= json_get "arguments") ≫= as_str.

Definition tool_call_delta (seen : gset N) (tc : Json Num) : list StreamEvent * gset N :=
  let index := delta_index tc in
  ((if decide (index ∈ seen) then [] else [SeToolUseStart (delta_id tc) (delta_name tc)])
   ++ option_list (SeToolUseInput <$> nonempty_str (delta_args tc)),
   {[index]} ∪ seen).

Fixpoint tool_call_deltas (seen : gset N) (tcs : list (Json Num)) : list StreamEvent * gset N :=
  match tcs with
  | [] => ([], seen)
  | tc :: tcs =>
      let '(out, seen) := tool_call_delta seen tc in
      let '(outs, seen) := tool_call_deltas seen tcs in (out ++ outs, seen)
  end.

Definition or_else {A} (x y : option A) : option A := match x with Some _ => x | None => y end.

Definition choice_delta (seen : gset N) (delta : Json Num) : list StreamEvent * gset N :=
  let content := nonempty_str (json_get "content" delta ≫= as_str) in
  let reasoning := nonempty_str (or_else (json_get "reasoning" delta ≫= as_str)
                                         (json_get "reasoning_content" delta ≫= as_str)) in
  let '(calls, seen) := tool_call_deltas seen (default [] (json_get "tool_calls" delta ≫= as_array)) in
  (option_list (SeContentDelta <$> content) ++ option_list (SeThinkingDelta <$> reasoning) ++ calls, seen).

Definition finish_of (reason : string) : string :=
  if decide (reason = "stop") then "end_turn"
  else if decide (reason = "tool_calls") then "tool_use"
  else if decide (reason = "length") then "max_tokens"
  else reason.

Definition choice_events (seen : gset N) (choice : Json Num) : list StreamEvent * gset N :=
  let '(out, seen) := match json_get "delta" choice with Some delta => choice_delta seen delta | None => ([], seen) end in
  (out ++ option_list ((λ r, SeDone (finish_of r)) <$> (json_get "finish_reason" choice ≫= as_str)), seen).

(** [choices[0]] of a data line, unless it is the terminator. *)
Definition line_choice (line : string) : option (Json Num) :=
  data ← str_trim <$> str_strip_prefix "data: " line;
  if decide (data = "[DONE]") then None
  else ((from_str data ≫= json_get "choices") ≫= as_array) ≫= head.

Definition data_line (seen : gset N) (line : string) : list StreamEvent * gset N :=
  match line_choice line with Some choice => choice_events seen choice | None => ([], seen) end.

Fixpoint data_lines (seen : gset N) (lines : list string) : list StreamEvent * gset N :=
  match lines with
  | [] => ([], seen)
  | line :: lines =>
      let '(out, seen) := data_line seen line in
      let '(outs, seen) := data_lines seen lines in (out ++ outs, seen)
  end.

Definition openai_parse_sse_event (seen : gset N) (text : string) : list StreamEvent * gset N :=
  data_lines seen (str_lines text).

Definition openai_stream (chunks : list (result bytes string)) : list (result StreamEvent string) :=
  parse_sse_stream openai_parse_sse_event ∅ [] chunks.
End json.

(** ** Framing: lemmas *)

Lemma utf8_ind (P : bytes → Prop) :
  P [] →
  (∀ a s, in_range 0 127 a = true → utf8_valid s = true → P s → P (a :: s)) →
  (∀ a b s, in_range 0 127 a = false → in_range 194 223 a && is_continuation b = true →
     utf8_valid s = true → P s → P (a :: b :: s)) →
  (∀ a b c s, in_range 0 127 a = false → in_range 194 223 a && is_continuation b = false →
     lead3 a b = true → is_continuation c = true → utf8_valid s = true → P s → P (a :: b :: c :: s)) →
  (∀ a b c d s, in_range 0 127 a = false → in_range 194 223 a && is_continuation b = false →
     lead3 a b && is_continuation c = false → lead4 a b = true → is_continuation c = true → is_continuation d = true →
     utf8_valid s = true → P s → P (a :: b :: c :: d :: s)) →
  ∀ s, utf8_valid s = true → P s.
Proof.
  intros H0 H1 H2 H3 H4 s. remember (length s) as n eqn:Hn. revert s Hn.
  induction n as [n IH] using lt_wf_ind. intros s ->.
  destruct s as [|a s1]; [done|]. cbn [utf8_valid]. destruct (in_range 0 127 a) eqn:Ea.
  { intros. apply H1; [done..|]. apply (IH (length s1)); simpl; auto with lia. }
  destruct s1 as [|b s2]; [done|]. destruct (_ && is_continuation b) eqn:Eb at 1.
  { intros. apply H2; [done..|]. apply (IH (length s2)); simpl; auto with lia. }
  destruct s2 as [|c s3]; [done|]. fold (lead3 a b). destruct (lead3 a b && is_continuation c) eqn:Ec.
  { intros. apply andb_true_iff in Ec as [? ?]. apply H3; [done..|]. apply (IH (length s3)); simpl; auto with lia. }
  destruct s3 as [|d s4]; [done|]. fold (lead4 a b). destruct (_ && is_continuation d) eqn:Ed; [|done].
  intros. apply andb_true_iff in Ed as [[? ?]%andb_true_iff ?].
  apply H4; [done..|]. apply (IH (length s4)); simpl; auto with lia.
Qed.

Lemma from_utf8_lossy_valid s : utf8_valid s = true → from_utf8_lossy s = s.
Proof.
  revert s. apply utf8_ind; [done|..].
  - intros a s Ha _ IH. cbn [from_utf8_lossy]. by rewrite Ha, IH.
  - intros a b s Ha Hb _ IH. cbn [from_utf8_lossy]. by rewrite Ha, Hb, IH.
  - intros a b c s Ha Hb Hc Hc' _ IH. cbn [from_utf8_lossy]. by rewrite Ha, Hb, Hc, Hc', IH.
  - intros a b c d s Ha Hb Hc Hd Hc' Hd' _ IH. cbn [from_utf8_lossy].
    by rewrite Ha, Hb, Hc, Hd, Hc', Hd', orb_true_r, IH.
Qed.

Lemma sse_events_eq buffer :
  sse_events buffer = match split_first_sse_event buffer with
                      | Some (event, rest) => let '(events, r) := sse_events rest in (event :: events, r)
                      | None => ([], buffer)
                      end.
Proof.
  rewrite sse_events_equation_1. destruct (inspect _) as [[[event rest]|] Hs]; simpl; by rewrite Hs.
Qed.

(** What is at the front does not change when more arrives. *)
Lemma split_first_app buffer more event rest :
  split_first_sse_event buffer = Some (event, rest) →
  split_first_sse_event (buffer ++ more) = Some (event, rest ++ more).
Proof.
  revert event. induction buffer as [|a buffer IH]; intros event; [done|]. simpl.
  destruct buffer as [|b buffer]; [done|]. simpl. case_decide; [by intros [= <- <-]|].
  intros ([event' rest'] & Hs & [= <- <-])%bind_Some. apply IH in Hs. simpl in Hs. by rewrite Hs.
Qed.

Lemma sse_events_app buffer more events rest :
  sse_events buffer = (events, rest) →
  sse_events (buffer ++ more) = let '(events', r) := sse_events (rest ++ more) in (events ++ events', r).
Proof.
  revert buffer. induction events as [|event events IH]; intros buffer; rewrite sse_events_eq.
  - destruct (split_first_sse_event buffer) as [[e r]|]; [by destruct (sse_events r)|]. intros [= <-]. by destruct (sse_events _).
  - destruct (split_first_sse_event buffer) as [[e r]|] eqn:Hs; [|done].
    destruct (sse_events r) as [es r'] eqn:Er. intros [= <- <- <-].
    rewrite sse_events_eq, (split_first_app _ _ _ _ Hs), (IH _ Er). by destruct (sse_events (r' ++ more)).
Qed.

(** An event's text as it can be sent: it has no blank line and does not end in
    the middle of one. *)
Definition framed (event : bytes) : Prop := split_first_sse_event (event ++ [newline]) = None.

(** The body that carries [events], and [last] unterminated. *)
Definition wire (events : list bytes) (last : bytes) : bytes :=
  mjoin ((λ e, e ++ [newline; newline]) <$> events) ++ last.

(** The events of a body; a blank end is none. *)
Definition body_events (body : bytes) : list bytes :=
  let '(events, last) := sse_events body in
  events ++ if decide (trim_bytes last = []) then [] else [last].

Lemma split_first_framed event rest :
  framed event → split_first_sse_event (event ++ newline :: newline :: rest) = Some (event, rest).
Proof.
  unfold framed. induction event as [|a event IH]; [done|]. simpl.
  destruct event as [|b event]; cbn [app].
  - simpl. repeat case_decide; naive_solver.
  - case_decide; [by intros|]. cbn [app] in IH. intros Hn. rewrite IH; [done|].
    by destruct (split_first_sse_event (b :: event ++ [newline])) as [[]|].
Qed.

Lemma split_first_None event rest : split_first_sse_event (event ++ rest) = None → split_first_sse_event event = None.
Proof.
  intros H. destruct (split_first_sse_event event) as [[e r]|] eqn:E; [|done].
  apply (split_first_app _ rest) in E. by rewrite H in E.
Qed.

Lemma wire_cons e events last : wire (e :: events) last = e ++ newline :: newline :: wire events last.
Proof. unfold wire. simpl. by rewrite <- !app_assoc. Qed.

Lemma sse_events_wire events last : Forall framed events → framed last → sse_events (wire events last) = (events, last).
Proof.
  intros He Hl. induction He as [|e events H _ IH]; rewrite sse_events_eq.
  - unfold wire. simpl. by rewrite (split_first_None _ _ Hl).
  - rewrite wire_cons, split_first_framed by done. by rewrite IH.
Qed.

Section stream_lemmas.
Context {S : Type} (parse : S → string → list StreamEvent * S).

Lemma parse_events_app s es es' :
  parse_events parse s (es ++ es')
  = let '(out, s) := parse_events parse s es in
    let '(out', s) := parse_events parse s es' in (out ++ out', s).
Proof.
  revert s. induction es as [|e es IH]; intros s; simpl.
  - by destruct (parse_events parse s es').
  - destruct (parse s (str_of e)) as [o s1]. rewrite IH. destruct (parse_events parse s1 es) as [o1 s2].
    destruct (parse_events parse s2 es') as [o2 s3]. by rewrite app_assoc.
Qed.

(** Read to its end without transport errors, a stream yields the events of
    the body, wherever its chunks were cut between two characters. *)
Lemma parse_sse_stream_chunks s buffer chunks :
  Forall (λ c, utf8_valid c = true) chunks →
  parse_sse_stream parse s buffer (Ok <$> chunks)
  = Ok <$> (parse_events parse s (body_events (buffer ++ mjoin chunks))).1.
Proof.
  intros Hc. revert s buffer. induction Hc as [|c chunks Hu _ IH]; intros s buffer; unfold body_events; simpl.
  - rewrite app_nil_r. destruct (sse_events buffer) as [es r]. rewrite parse_events_app.
    destruct (parse_events parse s es) as [o s1]. case_decide; simpl; [by rewrite !app_nil_r|].
    destruct (parse s1 (str_of r)) as [o1 s2]. simpl. by rewrite app_nil_r, fmap_app.
  - destruct (sse_events buffer) as [es r] eqn:E. rewrite (sse_events_app _ _ _ _ E).
    destruct (parse_events parse s es) as [o s1] eqn:Ep.
    rewrite IH, from_utf8_lossy_valid by done. unfold body_events. rewrite <- app_assoc.
    destruct (sse_events (r ++ c ++ mjoin chunks)) as [es' r']. rewrite <- app_assoc, (parse_events_app s es), Ep.
    by destruct (parse_events parse s1 _) as [o' s2]; simpl; rewrite fmap_app.
Qed.
End stream_lemmas.

(** ** What a chat-completions stream says *)

Lemma filter_none {A} (P : A → Prop) `{∀ x, Decision (P x)} (l : list A) : (∀ x, x ∈ l → ¬ P x) → filter P l = [].
Proof.
  induction l as [|x l IH]; intros Hn; [done|]. rewrite filter_cons_False by (apply Hn; set_solver).
  apply IH. set_solver.
Qed.

Section openai_spec.
Context {Num : Type} (as_u64 : Num → option N) (json_parse : string → result (Json Num) string).
Notation delta_index := (delta_index as_u64).
Notation tool_call_deltas := (tool_call_deltas as_u64).
Notation data_lines := (data_lines as_u64 json_parse).
Notation line_choice := (line_choice json_parse).

Definition line_calls (line : string) : list (Json Num) :=
  default [] (((line_choice line ≫= json_get "delta") ≫= json_get "tool_calls") ≫= as_array).
Definition line_content (line : string) : string :=
  default "" (((line_choice line ≫= json_get "delta") ≫= json_get "content") ≫= as_str).
Definition line_finish (line : string) : option string :=
  (line_choice line ≫= json_get "finish_reason") ≫= as_str.

Definition str_concat (l : list string) : string := foldr String.append "" l.

(** The calls the deltas describe: one per index, in order of appearance, with
    the id and name of its first delta and the arguments of all its deltas. *)
Fixpoint calls_by_index (seen : gset N) (tcs : list (Json Num)) : list ToolCall :=
  match tcs with
  | [] => []
  | tc :: tcs' =>
      if decide (delta_index tc ∈ seen) then calls_by_index seen tcs'
      else mkToolCall (delta_id tc) (delta_name tc)
             (str_concat ((λ t, default "" (delta_args t)) <$> filter (λ t, delta_index t = delta_index tc) tcs))
           :: calls_by_index ({[delta_index tc]} ∪ seen) tcs'
  end.

(** The deltas of one call come together. *)
Definition in_order (tcs : list (Json Num)) : Prop := StronglySorted N.le (delta_index <$> tcs).

Lemma fragments_args (a : option string) evs :
  fragments (option_list (SeToolUseInput <$> nonempty_str a) ++ evs) = default "" a +:+ fragments evs.
Proof.
  destruct a as [a|]; [|done]. unfold nonempty_str, str_is_empty. simpl. case_bool_decide as Ha; simpl; [by subst|done].
Qed.

Lemma calls_args (a : option string) evs :
  calls_of (option_list (SeToolUseInput <$> nonempty_str a) ++ evs) = calls_of evs.
Proof. destruct a as [a|]; [|done]. unfold nonempty_str. simpl. by destruct (str_is_empty a). Qed.

Lemma tool_calls_in_order tcs seen :
  in_order tcs → (∀ j t, j ∈ seen → t ∈ tcs → (j ≤ delta_index t)%N) →
  calls_of (tool_call_deltas seen tcs).1 = calls_by_index seen tcs ∧
  ∀ i, i ∈ seen → (∀ j, j ∈ seen → (j ≤ i)%N) →
    fragments (tool_call_deltas seen tcs).1
    = str_concat ((λ t, default "" (delta_args t)) <$> filter (λ t, delta_index t = i) tcs).
Proof.
  unfold in_order. revert seen. induction tcs as [|tc tcs IH]; intros seen Hs Hle; [done|].
  inversion_clear Hs as [|? ? Hs' Hh]. rewrite Forall_fmap, Forall_forall in Hh. cbn [Sse.tool_call_deltas].
  unfold tool_call_delta. specialize (IH ({[delta_index tc]} ∪ seen) Hs').
  destruct (tool_call_deltas ({[delta_index tc]} ∪ seen) tcs) as [evs seen'] eqn:Et. simpl in IH.
  destruct IH as [IHc IHf].
  { intros j t [->%elem_of_singleton|Hj]%elem_of_union Ht; [by apply Hh|]. apply Hle; [done|set_solver]. }
  rewrite <- app_assoc. simpl. case_decide as Hi.
  - assert ({[delta_index tc]} ∪ seen = seen) as Heq by set_solver. rewrite Heq in *. simpl.
    rewrite calls_args, fragments_args. split; [done|]. intros i Hin Hmax.
    assert (i = delta_index tc) as -> by (apply N.le_antisymm; [by apply Hle; set_solver|by apply Hmax]).
    rewrite filter_cons_True by done. simpl. by rewrite (IHf (delta_index tc)).
  - simpl. rewrite calls_args, fragments_args, filter_cons_True by done. simpl.
    assert (∀ j, j ∈ ({[delta_index tc]} : gset N) ∪ seen → (j ≤ delta_index tc)%N) as Hmax.
    { intros j [->%elem_of_singleton|Hj]%elem_of_union; [done|]. apply Hle; set_solver. }
    rewrite (IHf (delta_index tc)), IHc by (set_solver || done). split; [done|]. intros i Hin Hm.
    assert (filter (λ t, delta_index t = i) (tc :: tcs) = []) as ->; [|done].
    apply filter_none. intros t Ht Heq. assert (i < delta_index tc)%N as Hlt.
    { assert (i ≠ delta_index tc) by (intros ->; done). pose proof (Hle i tc Hin ltac:(set_solver)). lia. }
    apply elem_of_cons in Ht as [->|Ht]; [lia|]. pose proof (Hh t Ht). simpl in *. lia.
Qed.

Definition is_call_event (e : StreamEvent) : bool :=
  match e with SeToolUseStart _ _ | SeToolUseInput _ => true | _ => false end.
Definition text_of (events : list StreamEvent) : string :=
  str_concat (omap (λ e, match e with SeContentDelta t => Some t | _ => None end) events).

Lemma calls_of_filter evs :
  fragments (filter is_call_event evs) = fragments evs ∧ calls_of (filter is_call_event evs) = calls_of evs.
Proof.
  induction evs as [|e evs [IHf IHc]]; [done|]. destruct e;
    rewrite ?filter_cons_True, ?filter_cons_False by (done || (by intros [])); simpl; by rewrite ?IHf, ?IHc.
Qed.

Lemma str_concat_app l l' : str_concat (l ++ l') = str_concat l +:+ str_concat l'.
Proof. induction l as [|x l IH]; simpl; [done|]. unfold str_concat in *. simpl. by rewrite IH, string_app_assoc. Qed.

Lemma text_of_app evs evs' : text_of (evs ++ evs') = text_of evs +:+ text_of evs'.
Proof. unfold text_of. by rewrite omap_app, str_concat_app. Qed.

Lemma collect_text_of evs : collect_text evs = let t := text_of evs in if str_is_empty t then None else Some t.
Proof.
  unfold collect_text. cut (∀ acc, foldl (λ acc e, match e with SeContentDelta t => acc +:+ t | _ => acc end) acc evs
                                   = acc +:+ text_of evs).
  { intros H. by rewrite H. }
  induction evs as [|e evs IH]; intros acc; simpl; [by rewrite string_app_empty_r|].
  rewrite IH. destruct e; try done. unfold text_of. simpl. by rewrite string_app_assoc.
Qed.

(** What [seen] lines without a finish say: [out] is the events, [tcs] the
    tool-call deltas, [text] the content. *)
Definition says (seen : gset N) (out : list StreamEvent) (tcs : list (Json Num)) (text : string) : Prop :=
  Forall (λ e, is_done e = false) out ∧ filter is_call_event out = (tool_call_deltas seen tcs).1 ∧ text_of out = text.

Lemma tool_call_deltas_app seen tcs tcs' :
  tool_call_deltas seen (tcs ++ tcs')
  = let '(out, seen) := tool_call_deltas seen tcs in
    let '(out', seen) := tool_call_deltas seen tcs' in (out ++ out', seen).
Proof.
  revert seen. induction tcs as [|tc tcs IH]; intros seen; cbn [app Sse.tool_call_deltas].
  - by destruct (tool_call_deltas seen tcs').
  - destruct (tool_call_delta as_u64 seen tc) as [o s1]. rewrite IH. destruct (tool_call_deltas s1 tcs) as [o1 s2].
    destruct (tool_call_deltas s2 tcs') as [o2 s3]. by rewrite app_assoc.
Qed.

Lemma says_app seen out out' tcs tcs' t t' :
  says seen out tcs t → says (tool_call_deltas seen tcs).2 out' tcs' t' → says seen (out ++ out') (tcs ++ tcs') (t +:+ t').
Proof.
  intros (Hd & Hc & <-) (Hd' & Hc' & <-). unfold says. rewrite filter_app, text_of_app, tool_call_deltas_app, Hc, Hc'.
  split; [by apply Forall_app_2|]. destruct (tool_call_deltas seen tcs) as [o s1]. simpl.
  by destruct (tool_call_deltas s1 tcs').
Qed.

Lemma tool_call_deltas_events seen tcs :
  Forall (λ e, is_call_event e = true) (tool_call_deltas seen tcs).1.
Proof.
  revert seen. induction tcs as [|tc tcs IH]; intros seen; [constructor|]. cbn [Sse.tool_call_deltas]. unfold tool_call_delta.
  specialize (IH ({[delta_index tc]} ∪ seen)). destruct (tool_call_deltas ({[delta_index tc]} ∪ seen) tcs) as [o s1].
  simpl in *. rewrite !Forall_app. split_and!; [|destruct (nonempty_str (delta_args tc))|done]; try by repeat constructor.
  case_decide; by repeat constructor.
Qed.

Lemma call_events_only evs :
  Forall (λ e, is_call_event e = true) evs →
  Forall (λ e, is_done e = false) evs ∧ filter is_call_event evs = evs ∧ text_of evs = "".
Proof.
  induction 1 as [|e evs He _ (IHd & IHf & IHt)]; [done|].
  rewrite filter_cons_True, IHf by (by rewrite He). split_and!; [|done|].
  - constructor; [by destruct e|done].
  - by destruct e.
Qed.

Lemma content_says (c : option string) :
  let out := option_list (SeContentDelta <$> nonempty_str c) in
  Forall (λ e, is_done e = false) out ∧ filter is_call_event out = [] ∧ text_of out = default "" c.
Proof.
  destruct c as [c|]; [|done]. unfold nonempty_str, str_is_empty, text_of. simpl.
  case_bool_decide as Hc; simpl; [by subst|]. split_and!; [by repeat constructor|done|apply string_app_empty_r].
Qed.

Lemma thinking_says (c : option string) :
  let out := option_list (SeThinkingDelta <$> c) in
  Forall (λ e, is_done e = false) out ∧ filter is_call_event out = [] ∧ text_of out = "".
Proof. destruct c; [|done]. split_and!; [by repeat constructor|done|done]. Qed.

Lemma line_says seen line :
  ∃ out, data_line as_u64 json_parse seen line
         = (out ++ option_list ((λ r, SeDone (finish_of r)) <$> line_finish line),
            (tool_call_deltas seen (line_calls line)).2) ∧
         says seen out (line_calls line) (line_content line).
Proof.
  unfold data_line, line_finish, line_calls, line_content. destruct (line_choice line) as [choice|]; simpl; [|by exists []].
  unfold choice_events. destruct (json_get "delta" choice) as [delta|]; simpl; [|by exists []].
  unfold choice_delta. set (tcs := default [] (json_get "tool_calls" delta ≫= as_array)).
  pose proof (call_events_only _ (tool_call_deltas_events seen tcs)) as (Hd & Hf & Ht).
  unfold says. destruct (tool_call_deltas seen tcs) as [calls seen']. simpl in *.
  eexists. split; [done|]. rewrite !filter_app, !text_of_app, Hf, Ht, string_app_empty_r.
  destruct (content_says (json_get "content" delta ≫= as_str)) as (Hcd & -> & ->).
  destruct (thinking_says (nonempty_str (or_else (json_get "reasoning" delta ≫= as_str)
                                            (json_get "reasoning_content" delta ≫= as_str)))) as (Htd & -> & ->).
  split_and!; [by repeat apply Forall_app_2|done|by rewrite string_app_empty_r].
Qed.

Lemma lines_say seen lines :
  Forall (λ l, line_finish l = None) lines →
  ∃ out, data_lines seen lines = (out, (tool_call_deltas seen (mjoin (line_calls <$> lines))).2) ∧
         says seen out (mjoin (line_calls <$> lines)) (str_concat (line_content <$> lines)).
Proof.
  intros Hl. revert seen. induction Hl as [|line lines Hn _ IH]; intros seen; [by exists []|].
  destruct (line_says seen line) as (out & Hd & Hs). rewrite Hn in Hd. simpl in Hd. rewrite app_nil_r in Hd.
  cbn [Sse.data_lines]. rewrite Hd.
  destruct (IH (tool_call_deltas seen (line_calls line)).2) as (outs & -> & Hss).
  exists (out ++ outs). cbn [fmap list_fmap mjoin list_join]. split; [|by apply says_app].
  rewrite tool_call_deltas_app. destruct (tool_call_deltas seen (line_calls line)) as [o s1]. simpl.
  by destruct (tool_call_deltas s1 _).
Qed.

Lemma data_lines_app seen ls ls' :
  data_lines seen (ls ++ ls')
  = let '(out, seen) := data_lines seen ls in
    let '(out', seen) := data_lines seen ls' in (out ++ out', seen).
Proof.
  revert seen. induction ls as [|l ls IH]; intros seen; cbn [app Sse.data_lines].
  - by destruct (data_lines seen ls').
  - destruct (data_line as_u64 json_parse seen l) as [o s1]. rewrite IH. destruct (data_lines s1 ls) as [o1 s2].
    destruct (data_lines s2 ls') as [o2 s3]. by rewrite app_assoc.
Qed.

Lemma openai_parse_events seen events :
  parse_events (openai_parse_sse_event as_u64 json_parse) seen events
  = data_lines seen (mjoin ((λ e, str_lines (str_of e)) <$> events)).
Proof.
  revert seen. induction events as [|e events IH]; intros seen; [done|]. cbn [fmap list_fmap mjoin list_join parse_events].
  rewrite data_lines_app. unfold openai_parse_sse_event at 1. destruct (data_lines seen _) as [o s1].
  by rewrite IH.
Qed.

Lemma claude_parse_events s events :
  (parse_events (λ (s : ()) text, (option_list (claude_parse_sse_event json_parse text), s)) s events).1
  = omap (λ e, claude_parse_sse_event json_parse (str_of e)) events.
Proof.
  revert s. induction events as [|e events IH]; intros []; [done|]. simpl. specialize (IH tt).
  destruct (parse_events _ tt events) as [o []]. simpl in *. rewrite IH.
  by destruct (claude_parse_sse_event json_parse (str_of e)).
Qed.

(** The text of the events of a body, a blank end left out. *)
Definition body_texts (events : list bytes) (last : bytes) : list string :=
  str_of <$> events ++ if decide (trim_bytes last = []) then [] else [last].

Lemma openai_chunks events last chunks :
  Forall framed events → framed last → mjoin chunks = wire events last →
  Forall (λ c, utf8_valid c = true) chunks →
  openai_stream as_u64 json_parse (Ok <$> chunks)
    = Ok <$> (data_lines ∅ (mjoin (str_lines <$> body_texts events last))).1.
Proof.
  intros He Hl Hw Hu. unfold openai_stream. rewrite parse_sse_stream_chunks by done. simpl.
  unfold body_events, body_texts. rewrite Hw, sse_events_wire by done.
  rewrite openai_parse_events. do 4 f_equal. by rewrite <- list_fmap_compose.
Qed.

(** C30. How the transport cuts a provider's answer into chunks does not matter:
    a body of events sent with blank lines between them, the last one perhaps
    without, is read as exactly these events, each once and in order, for every
    cut into chunks that does not go through a character. *)
Theorem chunks_do_not_matter events last chunks :
  Forall framed events → framed last → mjoin chunks = wire events last →
  Forall (λ c, utf8_valid c = true) chunks →
  claude_stream json_parse (Ok <$> chunks)
    = Ok <$> omap (claude_parse_sse_event json_parse) (body_texts events last) ∧
  openai_stream as_u64 json_parse (Ok <$> chunks)
    = Ok <$> (data_lines ∅ (mjoin (str_lines <$> body_texts events last))).1.
Proof.
  intros He Hl Hw Hu. split; [|by apply openai_chunks]. unfold claude_stream. rewrite parse_sse_stream_chunks by done.
  simpl. unfold body_events, body_texts. rewrite Hw, sse_events_wire, claude_parse_events by done. f_equal.
  generalize (events ++ if decide (trim_bytes last = []) then [] else [last]).
  intros l. induction l as [|e l IH]; [done|]. simpl.
  destruct (claude_parse_sse_event json_parse (str_of e)); [f_equal|]; apply IH.
Qed.

(** A chat-completions answer is assembled into what its deltas say: up to
    the first line with a finish reason, which may itself carry a delta, the
    content deltas make the text, and the tool-call deltas, if those of one
    call come together, make one call per index, in order, with the id and name
    of its first delta and the arguments of all of them; the turn's stop reason
    is the mapped finish reason. What comes after that line is not part of it. *)
Theorem openai_turn_assembled chunks events last lines line rest reason :
  Forall framed events → framed last → mjoin chunks = wire events last →
  Forall (λ c, utf8_valid c = true) chunks →
  mjoin (str_lines <$> body_texts events last) = lines ++ line :: rest →
  Forall (λ l, line_finish l = None) lines → line_finish line = Some reason →
  let deltas := mjoin (line_calls <$> lines ++ [line]) in
  let text := str_concat (line_content <$> lines ++ [line]) in
  in_order deltas →
  ∃ out more,
    openai_stream as_u64 json_parse (Ok <$> chunks) = (Ok <$> out ++ [SeDone (finish_of reason)]) ++ more ∧
    Forall (λ e, is_done e = false) out ∧
    assemble_turn_complete (out ++ [SeDone (finish_of reason)]) (finish_of reason)
    = mkTurnEvent (Some (EvComplete (stop_reason_i32 (stop_of (finish_of reason)))
        (if str_is_empty text then [] else [text_block text])
        (normalize_input <$> calls_by_index ∅ deltas))).
Proof.
  intros He Hl Hw Hu Hlines Hn Hf deltas text Ho.
  destruct (lines_say ∅ lines Hn) as (out & Hout & Hs). destruct (line_says (tool_call_deltas ∅ (mjoin (line_calls <$> lines))).2 line) as (out' & Hout' & Hs').
  rewrite Hf in Hout'. simpl in Hout'.
  pose proof (says_app _ _ _ _ _ _ _ Hs Hs') as (Hd & Hc & Ht).
  assert (mjoin (line_calls <$> lines) ++ line_calls line = deltas) as Hdel.
  { unfold deltas. rewrite fmap_app, join_app. simpl. by rewrite app_nil_r. }
  assert (str_concat (line_content <$> lines) +:+ line_content line = text) as Htext.
  { unfold text. rewrite fmap_app, str_concat_app. f_equal. symmetry. apply string_app_empty_r. }
  rewrite Hdel in Hc. rewrite Htext in Ht.
  set (seen := (tool_call_deltas (tool_call_deltas ∅ (mjoin (line_calls <$> lines))).2 (line_calls line)).2) in *.
  exists (out ++ out'), (Ok <$> (data_lines seen rest).1). split_and!; [|done|].
  - rewrite (openai_chunks events last), Hlines, data_lines_app, Hout by done.
    cbn [Sse.data_lines]. rewrite Hout'. destruct (data_lines seen rest) as [more s1]. simpl.
    by rewrite <- fmap_app, <- !app_assoc.
  - unfold assemble_turn_complete. rewrite collect_tool_calls_complete by done.
    destruct (calls_of_filter (out ++ out')) as [_ <-]. rewrite Hc.
    rewrite (proj1 (tool_calls_in_order deltas ∅ Ho ltac:(set_solver))).
    rewrite collect_text_of, text_of_app, Ht. simpl. rewrite string_app_empty_r. by destruct (str_is_empty text).
Qed.
End openai_spec.

(** ** Sample streams *)

(** A JSON reader that knows a few texts and echoes the others. *)
Definition text_delta (s : string) : Json N :=
  JObject [("delta", JObject [("text", JString s); ("type", JString "text_delta")])].
Definition choice (content : string) (tcs : list (Json N)) (finish : option string) : Json N :=
  JObject [("choices", JArray [JObject (
    ("delta", JObject [("content", JString content); ("tool_calls", JArray tcs)])
    :: option_list ((λ r, ("finish_reason", JString r)) <$> finish))])].
Definition call_start (index : N) (id name : string) : Json N :=
  JObject [("function", JObject [("name", JString name)]); ("id", JString id); ("index", JNumber index)].
Definition call_args (index : N) (args : string) : Json N :=
  JObject [("function", JObject [("arguments", JString args)]); ("index", JNumber index)].

Definition sample_texts : list (string * Json N) :=
  [("hi", choice "hi" [] None); ("open-0", choice "" [call_start 0 "a" "ls"] None);
   ("args-0", choice "" [call_args 0 "[0]"] None); ("open-1", choice "" [call_start 1 "b" "rm"] None);
   ("args-1", choice "" [call_args 1 "[1]"] (Some "tool_calls"))].
Definition sample_parse (s : string) : result (Json N) string := Ok (default (text_delta s) (bt_get s sample_texts)).

Definition sample_chat (datas : list string) : list bytes := (λ d, B ("data: " +:+ d)) <$> datas.
Definition sample_chunks (cut : nat) (body : bytes) : list bytes := [take cut body; drop cut body].
Definition in_turn : list bytes := sample_chat ["hi"; "open-0"; "args-0"; "open-1"; "args-1"; "[DONE]"].

Lemma openai_turn_assembled_witness :
  ∃ out more,
    openai_stream Some sample_parse (Ok <$> sample_chunks 20 (wire in_turn []))
      = (Ok <$> out ++ [SeDone "tool_use"]) ++ more ∧
    Forall (λ e, is_done e = false) out ∧
    assemble_turn_complete (out ++ [SeDone "tool_use"]) "tool_use"
    = mkTurnEvent (Some (EvComplete (stop_reason_i32 ToolUse) [text_block "hi"]
        [mkToolCall "a" "ls" "[0]"; mkToolCall "b" "rm" "[1]"])).
Proof.
  apply (openai_turn_assembled Some sample_parse (sample_chunks 20 (wire in_turn [])) in_turn []
    ["data: hi"; "data: open-0"; "data: args-0"; "data: open-1"] "data: args-1" ["data: [DONE]"] "tool_calls").
  - by repeat constructor.
  - done.
  - by vm_compute.
  - by repeat constructor.
  - by vm_compute.
  - by repeat constructor.
  - by vm_compute.
  - vm_compute. repeat constructor; done.
Defined.

Definition sample_claude (s : string) : bytes := B "event: content_block_delta" ++ newline :: B "data: " ++ B s.
Definition e_acute : string := str_of [byte_of 195; byte_of 169].

Lemma chunks_do_not_matter_witness :
  let chunks := sample_chunks 30 (wire [sample_claude e_acute] (sample_claude "!")) in
  claude_stream sample_parse (Ok <$> chunks) = [Ok (SeContentDelta e_acute); Ok (SeContentDelta "!")] ∧
  openai_stream Some sample_parse (Ok <$> chunks) = [].
Proof.
  apply (chunks_do_not_matter Some sample_parse [sample_claude e_acute] (sample_claude "!")).
  - by repeat constructor.
  - by vm_compute.
  - by vm_compute.
  - by repeat constructor.
Defined.

(** A chunk that ends inside a character destroys it: each chunk is decoded
    by itself, so the two halves of an accented letter come out as two
    replacement characters in the text the model is taken to have said. *)
Theorem split_character_destroyed :
  let body := wire [sample_claude e_acute] [] in
  let cut := length (sample_claude e_acute) - 1 in
  claude_stream sample_parse [Ok body] = [Ok (SeContentDelta e_acute)] ∧
  claude_stream sample_parse (Ok <$> sample_chunks cut body)
    = [Ok (SeContentDelta (str_of (replacement_char ++ replacement_char)))].
Proof. split; by vm_compute. Qed.

(** Arguments go to the call that was started last, not to the one their index
    names: interleaved deltas are mixed up. *)
Example interleaved_calls_mixed :
  let deltas := [call_start 0 "a" "ls"; call_start 1 "b" "rm"; call_args 0 "[0]"; call_args 1 "[1]"] in
  collect_tool_calls ((tool_call_deltas Some ∅ deltas).1 ++ [SeDone "tool_use"])
    = [mkToolCall "a" "ls" "{}"; mkToolCall "b" "rm" "[0][1]"] ∧
  calls_by_index Some ∅ deltas = [mkToolCall "a" "ls" "[0]"; mkToolCall "b" "rm" "[1]"].
Proof. split; by vm_compute. Qed.
