(* ===== verification/Providers.v ===== *)
(** * Provider clients

    Models the clients of [crates/model-provider]: the merge of caller
    parameters with managed fields ([merge.rs]), the request bodies and the
    call of the Anthropic client ([claude.rs]) and of the OpenAI one
    ([openai.rs]), and the placeholder of [gemini.rs]. The stream a call opens
    is read as in [Sse]. HTTP, the JSON parser, base64 and the number 8192 as a
    JSON number are parameters; [None] is a panic. *)

From Equations Require Import Equations.
From stdpp Require Import pretty.
From S2P Require Import Prelude Text Proto Scrub Codec Conversation Inference ConfigMaps Toolset Turn Agent ModelDispatch Sse.
From S2P Require Import GatewayState Gateway HarnessService Entrypoint.

(** ** [merge.rs] *)

Definition clobber_reason (field : string) : string :=
  if decide (field = "model") then "operator binds the model identifier to the API key via Model"
  else if decide (field = "messages" ∨ field = "contents") then "conversation history is owned by sycophant"
  else if decide (field = "system" ∨ field = "systemInstruction") then "system prompt is owned by sycophant"
  else if decide (field = "tools" ∨ field = "functionDeclarations") then "tool definitions are owned by sycophant"
  else if decide (field = "stream") then "streaming is required for sycophant's audit log"
  else "operator-bound; principal override discarded".

Definition warning_stream_for (clobbers : list string) : list (result StreamEvent string) :=
  (λ field, Ok (SeWarning field (clobber_reason field))) <$> clobbers.

Record HttpRequest (Num : Type) : Type := mkHttpRequest {
  hq_url : string; hq_headers : list (string * string); hq_body : list (string * Json Num) }.
Arguments mkHttpRequest {Num} _ _ _.
Arguments hq_url {Num} _.
Arguments hq_headers {Num} _.
Arguments hq_body {Num} _.

(** The body of a response: as text ([None] if it cannot be read) or as the
    chunks it arrives in. *)
Record HttpResponse : Type := mkHttpResponse {
  hp_status : N; hp_text : option string; hp_chunks : list (result bytes string) }.

Section clients.
Context {Num : Type} (as_u64 : Num → option N) (num_8192 : Num) (json_parse : string → result (Json Num) string)
        (base64 : bytes → string) (http : HttpRequest Num → result HttpResponse string).
Abbreviation json := (Json Num).
Abbreviation object := (list (string * json)).

(** An object literal of [json!]. *)
Definition obj (fields : object) : object := foldl (λ m f, bt_insert f.1 f.2 m) [] fields.
Definition json_obj (fields : object) : json := JObject (obj fields).

Definition insert_some (k : string) (o : option json) (body : object) : object :=
  match o with Some v => bt_insert k v body | None => body end.
Definition nonempty_array (l : list json) : option json := match l with [] => None | _ => Some (JArray l) end.

Definition detect_clobbers (body : object) (managed : list string) : list string :=
  foldl (λ out key, if bool_decide (is_Some (bt_get key body)) && negb (bool_decide (key ∈ out))
                    then out ++ [key] else out) [] managed.

Definition build_managed_body (params : option object) (managed : list string) : object * list string :=
  let body := default [] params in (body, detect_clobbers body managed).

(** The part of [call] the two clients share. *)
Definition send_request (request : HttpRequest Num) (clobbers : list string)
    (parse : list (result bytes string) → list (result StreamEvent string))
  : result (list (result StreamEvent string)) string :=
  let? response := map_err (λ e, "HTTP request failed: " +:+ e) (http request) in
  if ((200 <=? hp_status response) && (hp_status response <? 300))%N
  then Ok (warning_stream_for clobbers ++ parse (hp_chunks response))
  else Err ("API error " +:+ pretty (hp_status response) +:+ ": " +:+ default "" (hp_text response)).

(** ** [claude.rs] *)

Definition MANAGED_ANTHROPIC : list string := ["model"; "messages"; "system"; "tools"; "stream"].

Definition ephemeral : json := json_obj [("type", JString "ephemeral")].

Definition claude_block_to_api (block : Block) : option json :=
  match block with
  | BText t => Some (json_obj [("type", JString "text"); ("text", JString t)])
  | BImage media_type data =>
      Some (json_obj [("type", JString "image");
        ("source", json_obj [("type", JString "base64"); ("media_type", JString media_type);
                             ("data", JString (base64 data))])])
  | BThinking t => Some (json_obj [("type", JString "thinking"); ("thinking", JString t)])
  | BFile _ _ _ => None                                    (* unreachable! *)
  end.

Definition claude_blocks (content : list ContentBlock) : option (list json) :=
  mapM claude_block_to_api (omap cb_block content).

Definition tool_result_block (tm : Message) : option json :=
  tool_call_id ← msg_tool_call_id tm;
  let block := obj [("type", JString "tool_result"); ("tool_use_id", JString tool_call_id);
    ("content", JArray [json_obj [("type", JString "text"); ("text", JString (content_text (msg_content tm)))]])] in
  Some (JObject (if decide (msg_is_error tm = Some true) then bt_insert "is_error" (JBool true) block else block)).

Definition is_tool (m : Message) : bool := bool_decide (msg_role m = "tool").

(** The inner loop: the blocks of the run of tool messages, and what is left. *)
Fixpoint tool_run (messages : list Message) : list json * list Message :=
  match messages with
  | m :: rest =>
      if is_tool m
      then let '(blocks, left_over) := tool_run rest in (option_list (tool_result_block m) ++ blocks, left_over)
      else ([], messages)
  | [] => ([], [])
  end.

Definition run_message (blocks : list json) : json :=
  json_obj [("role", JString "user");
    ("content", JArray (match blocks with
       | [] => [json_obj [("type", JString "text"); ("text", JString "(empty tool result)")]]
       | _ => blocks
       end))].

Definition tool_use_block (tc : ToolCall) : json :=
  json_obj [("type", JString "tool_use"); ("id", JString (tc_id tc)); ("name", JString (tc_name tc));
            ("input", default JNull (from_str json_parse (tc_input_json tc)))].

Definition claude_message (m : Message) : option json :=
  match msg_tool_calls m with
  | [] =>
      match msg_content m with
      | [] => Some (json_obj [("role", JString (msg_role m))])
      | content =>
          blocks ← claude_blocks content;
          Some (json_obj [("role", JString (msg_role m)); ("content", JArray blocks)])
      end
  | calls =>
      blocks ← claude_blocks (msg_content m);
      Some (json_obj [("role", JString (msg_role m)); ("content", JArray (blocks ++ (tool_use_block <$> calls)))])
  end.

Lemma tool_run_length messages : length (tool_run messages).2 ≤ length messages.
Proof.
  induction messages as [|m rest IH]; simpl; [done|]. destruct (is_tool m); simpl; [|done].
  destruct (tool_run rest) as [blocks l]. simpl in *. lia.
Qed.

Equations? claude_api_messages (messages : list Message) : option (list json) by wf (length messages) lt :=
  claude_api_messages [] := Some [];
  claude_api_messages (m :: rest) :=
    if is_tool m
    then let run := tool_run rest in
         out ← claude_api_messages run.2;
         Some (run_message (option_list (tool_result_block m) ++ run.1) :: out)
    else api ← claude_message m;
         out ← claude_api_messages rest;
         Some (api :: out).
Proof. all: try subst run; simpl; pose proof (tool_run_length rest); lia. Qed.

Definition claude_api_tools (tools : list ToolDefinition) : list json :=
  imap (λ i t,
    let fields := obj [("name", JString (td_name t)); ("description", JString (td_description t));
                       ("input_schema", default JNull (from_str json_parse (td_parameters_json t)))] in
    JObject (if decide (i + 1 = length tools) then bt_insert "cache_control" ephemeral fields else fields)) tools.

Definition build_anthropic_body (messages : list Message) (system : option string) (tools : list ToolDefinition)
    (params : option object) (config : ProviderConfig) : option (object * list string) :=
  let '(body, clobbers) := build_managed_body params MANAGED_ANTHROPIC in
  let body := insert_some "max_tokens" (match bt_get "max_tokens" body with
                                        | Some _ => None | None => Some (JNumber num_8192) end) body in
  let body := bt_insert "model" (JString (pv_model config)) body in
  let body := bt_insert "stream" (JBool true) body in
  api_messages ← claude_api_messages messages;
  let body := bt_insert "messages" (JArray api_messages) body in
  let body := insert_some "system" ((λ sys,
    JArray [json_obj [("type", JString "text"); ("text", JString sys); ("cache_control", ephemeral)]]) <$> system) body in
  let body := insert_some "tools" (nonempty_array (claude_api_tools tools)) body in
  Some (body, clobbers).

Definition claude_request (base_url : string) (config : ProviderConfig) (body : object) : HttpRequest Num :=
  mkHttpRequest (base_url +:+ "/messages")
    ((if str_is_empty (pv_api_key config) then [] else [("x-api-key", pv_api_key config)])
     ++ [("anthropic-version", "2023-06-01"); ("content-type", "application/json")]) body.

Definition claude_call (base_url : string) (messages : list Message) (system : option string)
    (tools : list ToolDefinition) (params : option object) (config : ProviderConfig)
  : option (result (list (result StreamEvent string)) string) :=
  '(body, clobbers) ← build_anthropic_body messages system tools params config;
  Some (send_request (claude_request base_url config body) clobbers (claude_stream json_parse)).

(** ** [openai.rs] *)

Definition MANAGED_OPENAI : list string := ["model"; "messages"; "tools"; "stream"].

(** The inner option says whether the block is sent. *)
Definition openai_block_to_api (block : Block) : option (option json) :=
  match block with
  | BText t => Some (Some (json_obj [("type", JString "text"); ("text", JString t)]))
  | BImage media_type data =>
      Some (Some (json_obj [("type", JString "image_url");
        ("image_url", json_obj [("url", JString ("data:" +:+ media_type +:+ ";base64," +:+ base64 data))])]))
  | BThinking _ => Some None
  | BFile _ _ _ => None                                    (* unreachable! *)
  end.

Definition openai_blocks (content : list ContentBlock) : option (list json) :=
  omap id <$> mapM openai_block_to_api (omap cb_block content).

Definition api_tool_call (tc : ToolCall) : json :=
  json_obj [("id", JString (tc_id tc)); ("type", JString "function");
            ("function", json_obj [("name", JString (tc_name tc)); ("arguments", JString (tc_input_json tc))])].

Definition openai_content (blocks : list json) : json :=
  match blocks with
  | [b] => match json_get "type" b with
           | Some (JString ty) => if decide (ty = "text") then default JNull (json_get "text" b) else JArray blocks
           | _ => JArray blocks
           end
  | _ => JArray blocks
  end.

Definition openai_message (m : Message) : option json :=
  if is_tool m then
    Some (json_obj [("role", JString "tool");
      ("tool_call_id", match msg_tool_call_id m with Some i => JString i | None => JNull end);
      ("content", JString (content_text (msg_content m)))])
  else
    match msg_tool_calls m with
    | [] =>
        match msg_content m with
        | [] => Some (json_obj [("role", JString (msg_role m))])
        | content =>
            blocks ← openai_blocks content;
            Some (json_obj [("role", JString (msg_role m)); ("content", openai_content blocks)])
        end
    | calls =>
        let text := content_text (msg_content m) in
        Some (json_obj ([("role", JString "assistant")]
          ++ (if str_is_empty text then [] else [("content", JString text)])
          ++ [("tool_calls", JArray (api_tool_call <$> calls))]))
    end.

Definition openai_api_messages (messages : list Message) (system : option string) : option (list json) :=
  api ← mapM openai_message messages;
  Some (option_list ((λ sys, json_obj [("role", JString "system"); ("content", JString sys)]) <$> system) ++ api).

Definition openai_api_tools (tools : list ToolDefinition) : list json :=
  (λ t, json_obj [("type", JString "function");
     ("function", json_obj [("name", JString (td_name t)); ("description", JString (td_description t));
        ("parameters", default JNull (from_str json_parse (td_parameters_json t)))])]) <$> tools.

Definition build_openai_body (messages : list Message) (system : option string) (tools : list ToolDefinition)
    (params : option object) (config : ProviderConfig) : option (object * list string) :=
  let '(body, clobbers) := build_managed_body params MANAGED_OPENAI in
  let body := bt_insert "model" (JString (pv_model config)) body in
  let body := bt_insert "stream" (JBool true) body in
  api_messages ← openai_api_messages messages system;
  let body := bt_insert "messages" (JArray api_messages) body in
  let body := insert_some "tools" (nonempty_array (openai_api_tools tools)) body in
  Some (body, clobbers).

Definition openai_request (base_url : string) (config : ProviderConfig) (body : object) : HttpRequest Num :=
  mkHttpRequest (base_url +:+ "/chat/completions")
    ((if str_is_empty (pv_api_key config) then [] else [("Authorization", "Bearer " +:+ pv_api_key config)])
     ++ [("content-type", "application/json")]) body.

Definition openai_call (base_url : string) (messages : list Message) (system : option string)
    (tools : list ToolDefinition) (params : option object) (config : ProviderConfig)
  : option (result (list (result StreamEvent string)) string) :=
  '(body, clobbers) ← build_openai_body messages system tools params config;
  Some (send_request (openai_request base_url config body) clobbers (openai_stream as_u64 json_parse)).

(** ** [gemini.rs], [Format::build] *)

Definition gemini_call : result (list (result StreamEvent string)) string := Err "gemini format not yet implemented".

Definition provider_call (format : Format) (base_url : string) (messages : list Message) (system : option string)
    (tools : list ToolDefinition) (params : option object) (config : ProviderConfig)
  : option (result (list (result StreamEvent string)) string) :=
  match format with
  | Anthropic => claude_call base_url messages system tools params config
  | OpenAi => openai_call base_url messages system tools params config
  | Gemini => Some gemini_call
  end.
End clients.

(** ** Reading API messages *)

Section reading.
Context {Num : Type}.
Implicit Types j : Json Num.

Definition str_field (k : string) j : option string := json_get k j ≫= as_str.
Definition items j : list (Json Num) := default [] (json_get "content" j ≫= as_array).
Definition id_item (ty key : string) j : option string :=
  if decide (str_field "type" j = Some ty) then str_field key j else None.
Definition ids_of (ty key : string) j : list string := omap (id_item ty key) (items j).

(** An assistant message that calls tools, and the one user message that holds
    the results, and only these, of exactly its calls, in order. *)
Definition paired (ms : list (Json Num)) : Prop :=
  ∃ a u ids, ms = [a; u] ∧ str_field "role" a = Some "assistant" ∧ str_field "role" u = Some "user" ∧
    ids ≠ [] ∧ ids_of "tool_use" "id" a = ids ∧ ids_of "tool_result" "tool_use_id" u = ids ∧
    length (items u) = length ids.
End reading.

Definition is_file (b : Block) : bool := match b with BFile _ _ _ => true | _ => false end.
Definition has_file (m : Message) : bool := existsb is_file (omap cb_block (msg_content m)).

Section claude.
Context {Num : Type} (json_parse : string → result (Json Num) string) (base64 : bytes → string).
Notation claude_api_messages := (claude_api_messages json_parse base64).
Notation claude_message := (claude_message json_parse base64).
Notation claude_blocks := (@claude_blocks Num base64).
Notation tool_run := (@tool_run Num).

Lemma claude_api_cons m rest :
  claude_api_messages (m :: rest)
  = if is_tool m
    then out ← claude_api_messages (tool_run rest).2;
         Some (run_message (option_list (tool_result_block m) ++ (tool_run rest).1) :: out)
    else api ← claude_message m; out ← claude_api_messages rest; Some (api :: out).
Proof. by rewrite claude_api_messages_equation_2. Qed.

Definition starts_plain (ms : list Message) : Prop := match ms with m :: _ => is_tool m = false | [] => True end.

Lemma tool_run_app ms ms' :
  starts_plain ms' → tool_run (ms ++ ms') = ((tool_run ms).1, (tool_run ms).2 ++ ms').
Proof.
  intros Hp. induction ms as [|m ms IH]; simpl.
  - destruct ms' as [|m' ms']; simpl in *; [done|by rewrite Hp].
  - destruct (is_tool m); [|done]. rewrite IH. by destruct (tool_run ms).
Qed.

Lemma claude_api_app ms ms' :
  starts_plain ms' →
  claude_api_messages (ms ++ ms')
  = api ← claude_api_messages ms; api' ← claude_api_messages ms'; Some (api ++ api').
Proof.
  intros Hp. remember (length ms) as n eqn:Hn. revert ms Hn.
  induction n as [n IH] using lt_wf_ind. intros [|m ms] ->; simpl.
  - rewrite claude_api_messages_equation_1. simpl. by destruct (claude_api_messages ms').
  - rewrite !claude_api_cons. destruct (is_tool m).
    + rewrite tool_run_app by done. simpl. pose proof (tool_run_length (Num := Num) ms) as Hl.
      rewrite (IH (length (tool_run ms).2)); [|simpl; lia|done].
      destruct (claude_api_messages (tool_run ms).2); simpl; [|done]. by destruct (claude_api_messages ms').
    + destruct (claude_message m); simpl; [|done]. rewrite (IH (length ms)) by (simpl; auto with lia).
      destruct (claude_api_messages ms); simpl; [|done]. by destruct (claude_api_messages ms').
Qed.

Lemma tool_result_item m i :
  msg_tool_call_id m = Some i →
  ∃ b, tool_result_block (Num := Num) m = Some b ∧ id_item "tool_result" "tool_use_id" b = Some i.
Proof.
  intros Hi. unfold tool_result_block. rewrite Hi. simpl. eexists. split; [done|]. by case_decide.
Qed.

(** The blocks of a run of results answer its calls. *)
Lemma tool_run_results calls results :
  Forall2 answers calls results →
  (tool_run results).2 = [] ∧ length (tool_run results).1 = length calls ∧
  omap (id_item "tool_result" "tool_use_id") (tool_run results).1 = tc_id <$> calls.
Proof.
  induction 1 as [|tc m calls results (Hr & Hid & _) _ (IH1 & IH2 & IH3)]; [done|]. simpl.
  unfold is_tool. rewrite bool_decide_true by done. destruct (tool_run results) as [blocks l]. simpl in *.
  destruct (tool_result_item m _ Hid) as (b & -> & Hb). simpl. rewrite Hb.
  split_and!; [done|by rewrite IH2|by f_equal].
Qed.

Lemma claude_blocks_items content blocks :
  claude_blocks content = Some blocks → omap (id_item "tool_use" "id") blocks = [].
Proof.
  intros H%mapM_Some. induction H as [|b j bs blocks Hb _ IH]; [done|].
  destruct b; simplify_eq/=; apply IH.
Qed.

Lemma omap_tool_use (calls : list ToolCall) : omap (id_item "tool_use" "id") (tool_use_block json_parse <$> calls) = tc_id <$> calls.
Proof. induction calls as [|tc calls IH]; [done|]. simpl. by f_equal. Qed.

Lemma round_paired ms api : round_wf ms → claude_api_messages ms = Some api → paired api.
Proof.
  intros (a & results & -> & Hr & Hne & Ha). rewrite claude_api_cons. unfold is_tool at 1.
  rewrite bool_decide_false by (by rewrite Hr). intros (aj & Haj & H)%bind_Some.
  apply bind_Some in H as (out & Hout & [= <-]). destruct (tool_run_results _ _ Ha) as (Hrest & Hlen & Hids).
  inversion Ha as [|tc m calls results' Hm Ha' E1 E2]; [congruence|]. subst results.
  destruct Hm as (Hm & Hid & _). rewrite claude_api_cons in Hout. simpl in Hrest, Hids, Hlen. unfold is_tool in *.
  rewrite bool_decide_true in * by done. destruct (tool_run results') as [blocks l]. simpl in *. subst l.
  rewrite claude_api_messages_equation_1 in Hout. simpl in Hout. injection Hout as <-.
  unfold Providers.claude_message in Haj. rewrite <- E1 in Haj, Hids, Hlen.
  apply bind_Some in Haj as (bs & Hbs & [= <-]). destruct (tool_result_item m _ Hid) as (b & Hb & Hbid).
  rewrite Hb in *. simpl in *.
  exists (json_obj [("role", JString (msg_role a)); ("content", JArray (bs ++ (tool_use_block json_parse <$> tc :: calls)))]).
  exists (run_message (b :: blocks)), (tc_id <$> tc :: calls). split_and!; [done| |done|done| |exact Hids|].
  - unfold str_field. simpl. by rewrite Hr.
  - unfold ids_of, items. change (omap (id_item "tool_use" "id") (bs ++ (tool_use_block json_parse <$> tc :: calls)) = tc_id <$> tc :: calls).
    by rewrite omap_app, (claude_blocks_items _ _ Hbs), omap_tool_use.
  - unfold items. simpl in *. rewrite length_fmap. lia.
Qed.

Lemma round_starts_plain ms : round_wf ms → starts_plain ms.
Proof. intros (a & rs & -> & Ha & _). unfold starts_plain, is_tool. by rewrite Ha. Qed.

Lemma rounds_paired rounds init api :
  Forall round_wf rounds → claude_api_messages (init ++ mjoin rounds) = Some api →
  ∃ history pairs, claude_api_messages init = Some history ∧ api = history ++ mjoin pairs ∧ Forall paired pairs.
Proof.
  intros Hr. revert init api. induction Hr as [|ms rounds Hms _ IH]; intros init api; simpl.
  - rewrite app_nil_r. intros ->. exists api, []. by rewrite app_nil_r.
  - rewrite app_assoc. intros (h & pairs & Hh & -> & Hp)%IH.
    rewrite claude_api_app in Hh by (by apply round_starts_plain).
    apply bind_Some in Hh as (history & -> & (r & Hr & [= <-])%bind_Some).
    exists history, (r :: pairs). split_and!; [done|by rewrite <- app_assoc|].
    constructor; [by eapply round_paired|done].
Qed.

Lemma claude_blocks_None content : claude_blocks content = None ↔ existsb is_file (omap cb_block content) = true.
Proof.
  clear json_parse. unfold Providers.claude_blocks. induction (omap cb_block content) as [|b bs IH]; simpl; [done|].
  destruct b; simpl; try (destruct (mapM _ bs); simpl in *; naive_solver).
Qed.

Lemma claude_message_None m : claude_message m = None ↔ has_file m = true.
Proof.
  unfold has_file, Providers.claude_message. rewrite <- claude_blocks_None.
  destruct (msg_tool_calls m); [destruct (msg_content m)|]; try done;
    destruct (Providers.claude_blocks _ _); naive_solver.
Qed.

Lemma tool_run_drops ms :
  ∃ run, ms = run ++ (tool_run ms).2 ∧ Forall (λ m, is_tool m = true) run.
Proof.
  induction ms as [|m ms IH]; simpl; [by exists []|]. destruct (is_tool m) eqn:E; [|by exists []].
  destruct IH as (run & Hms & Hr). destruct (tool_run ms) as [b l]. simpl in *. exists (m :: run).
  split; [by rewrite Hms|by constructor].
Qed.

Lemma claude_api_None ms :
  claude_api_messages ms = None ↔ Exists (λ m, is_tool m = false ∧ has_file m = true) ms.
Proof.
  remember (length ms) as n eqn:Hn. revert ms Hn. induction n as [n IH] using lt_wf_ind. intros [|m ms] ->.
  - rewrite claude_api_messages_equation_1. by rewrite Exists_nil.
  - rewrite claude_api_cons, Exists_cons. destruct (is_tool m) eqn:Et.
    + pose proof (tool_run_length (Num := Num) ms) as Hl. destruct (tool_run_drops ms) as (run & Hms & Hr).
      assert (¬ Exists (λ m, is_tool m = false ∧ has_file m = true) run) as Hno.
      { rewrite Exists_exists. intros (x & Hx & Hf & _). rewrite Forall_forall in Hr. by rewrite (Hr x Hx) in Hf. }
      assert (Exists (λ m, is_tool m = false ∧ has_file m = true) ms
              ↔ Exists (λ m, is_tool m = false ∧ has_file m = true) (tool_run ms).2) as ->.
      { rewrite Hms at 1. rewrite Exists_app. tauto. }
      rewrite <- (IH (length (tool_run ms).2)) by (simpl; auto with lia).
      destruct (claude_api_messages _); naive_solver.
    + rewrite <- (IH (length ms)) by (simpl; auto with lia). pose proof (claude_message_None m).
      destruct (claude_message m), (claude_api_messages ms); naive_solver.
Qed.

End claude.

(** ** OpenAI's history *)

Section openai.
Context {Num : Type} (base64 : bytes → string).
Implicit Types j : Json Num.

Definition read_call j : option ToolCall :=
  i ← str_field "id" j; f ← json_get "function" j;
  name ← str_field "name" f; args ← str_field "arguments" f; Some (mkToolCall i name args).
Definition read_calls j : list ToolCall := omap read_call (default [] (json_get "tool_calls" j ≫= as_array)).

(** What can be read back of a message. *)
Definition renders (m : Message) j : Prop :=
  str_field "role" j
    = Some (if is_tool m then "tool" else match msg_tool_calls m with [] => msg_role m | _ => "assistant" end) ∧
  read_calls j = (if is_tool m then [] else msg_tool_calls m) ∧
  (is_tool m = true → str_field "tool_call_id" j = msg_tool_call_id m ∧
                      str_field "content" j = Some (content_text (msg_content m))).

Lemma read_api_calls (calls : list ToolCall) : omap read_call (api_tool_call (Num := Num) <$> calls) = calls.
Proof. induction calls as [|[] calls IH]; [done|]. simpl. by f_equal. Qed.

Lemma openai_message_renders m j : openai_message (Num := Num) base64 m = Some j → renders m j.
Proof.
  unfold openai_message, renders. destruct (is_tool m) eqn:Et.
  - intros [= <-]. split_and!; [done|done|]. intros _. split; [|done]. by destruct (msg_tool_call_id m).
  - destruct (msg_tool_calls m) as [|tc calls] eqn:Ec; [destruct (msg_content m) as [|c content]|].
    + by intros [= <-].
    + by intros (blocks & _ & [= <-])%bind_Some.
    + intros [= <-]. pose proof (read_api_calls (tc :: calls)) as Hc. destruct (str_is_empty _); split_and!; done.
Qed.

(** The OpenAI request keeps the history: one message per message, in order,
    after the system prompt, from which role, tool calls with their ids, names
    and argument texts, and the call a result belongs to can be read back. *)
Theorem openai_history_kept messages system api :
  openai_api_messages (Num := Num) base64 messages system = Some api →
  ∃ rendered, Forall2 renders messages rendered ∧
    api = option_list ((λ sys, json_obj [("role", JString "system"); ("content", JString sys)]) <$> system) ++ rendered.
Proof.
  intros (rendered & Hr%mapM_Some & [= <-])%bind_Some. exists rendered. split; [|done].
  eapply Forall2_impl; [done|]. apply openai_message_renders.
Qed.

Lemma openai_panics messages system :
  Exists (λ m, is_tool m = false ∧ msg_tool_calls m = [] ∧ has_file m = true) messages →
  openai_api_messages (Num := Num) base64 messages system = None.
Proof.
  intros Hf. unfold openai_api_messages. assert (mapM (openai_message (Num := Num) base64) messages = None) as ->; [|done].
  rewrite mapM_None. eapply Exists_impl; [done|]. intros m (Ht & Hc & Hm). unfold openai_message. rewrite Ht, Hc.
  unfold has_file in Hm. destruct (msg_content m) as [|c content]; [done|].
  assert (openai_blocks (Num := Num) base64 (c :: content) = None) as ->; [|done].
  unfold openai_blocks. revert Hm. generalize (omap cb_block (c :: content)). intros bs Hm.
  assert (mapM (openai_block_to_api (Num := Num) base64) bs = None) as ->; [|done].
  apply mapM_None. rewrite existsb_exists in Hm. destruct Hm as (b & Hb & Hf').
  apply Exists_exists. exists b. split; [by apply list_elem_of_In|]. by destruct b.
Qed.
End openai.

(** ** Managed fields *)

Section managed.
Context {Num : Type} (num_8192 : Num) (json_parse : string → result (Json Num) string) (base64 : bytes → string).
Notation object := (list (string * Json Num)).

Lemma bt_get_insert_some k k' (o : option (Json Num)) (body : object) :
  bt_get k' (insert_some k o body) = if decide (k' = k) then or_else o (bt_get k' body) else bt_get k' body.
Proof.
  destruct o; simpl; [rewrite bt_get_insert|]; by case_decide.
Qed.

Lemma detect_clobbers_spec (body : object) managed :
  NoDup managed → detect_clobbers body managed = filter (λ k, is_Some (bt_get k body)) managed.
Proof.
  unfold detect_clobbers. induction managed as [|k ks IH] using rev_ind; intros Hn; [done|].
  apply NoDup_app in Hn as (Hn & Hk & _). rewrite foldl_snoc, IH, filter_app by done.
  rewrite (bool_decide_false (k ∈ filter _ ks)).
  2: { rewrite list_elem_of_filter. intros [_ Hin]. by apply (Hk k Hin), list_elem_of_singleton. }
  rewrite andb_true_r. case_bool_decide.
  - by rewrite filter_cons_True, filter_nil.
  - by rewrite filter_cons_False, filter_nil, app_nil_r.
Qed.

(** Whatever parameters a caller adds to an Anthropic request, model, messages
    and the stream flag are the harness's own, and so are the system prompt and
    the tools if the turn has some; every parameter that is not managed goes
    through unchanged, and for each one that is the caller is warned. *)
Theorem anthropic_managed_fields messages system tools (params : option object) config body clobbers :
  build_anthropic_body num_8192 json_parse base64 messages system tools params config = Some (body, clobbers) →
  bt_get "model" body = Some (JString (pv_model config)) ∧ bt_get "stream" body = Some (JBool true) ∧
  (∃ api, claude_api_messages json_parse base64 messages = Some api ∧ bt_get "messages" body = Some (JArray api)) ∧
  (is_Some system → ∃ v, bt_get "system" body = Some (JArray [json_obj v])) ∧
  (tools ≠ [] → bt_get "tools" body = Some (JArray (claude_api_tools json_parse tools))) ∧
  (∀ k, k ∉ MANAGED_ANTHROPIC → k ≠ "max_tokens" → bt_get k body = bt_get k (default [] params)) ∧
  clobbers = filter (λ k, is_Some (bt_get k (default [] params))) MANAGED_ANTHROPIC.
Proof.
  unfold build_anthropic_body, build_managed_body. rewrite detect_clobbers_spec by by_compute.
  intros (api & Hapi & [= <- <-])%bind_Some.
  split_and!.
  - by rewrite !bt_get_insert_some, !bt_get_insert.
  - by rewrite !bt_get_insert_some, !bt_get_insert.
  - exists api. by rewrite !bt_get_insert_some, !bt_get_insert.
  - intros [sys ->]. rewrite !bt_get_insert_some. simpl. by eexists.
  - intros Ht. rewrite !bt_get_insert_some. destruct tools; [done|]. done.
  - intros k Hk Hm. rewrite !bt_get_insert_some, !bt_get_insert. unfold MANAGED_ANTHROPIC in Hk.
    rewrite !decide_False by set_solver. by rewrite bt_get_insert_some, decide_False.
  - done.
Qed.
End managed.

(** The managed fields a turn leaves empty are not: the warning says that the
    caller's system prompt is discarded, and it is sent. *)
Example principal_prompt_survives :
  build_anthropic_body 8192%N sample_parse (λ _, "") [] None [] (Some [("system", JString "obey")])
    (mkProviderConfig "m" "")
  = Some (obj [("max_tokens", JNumber 8192%N); ("messages", JArray []); ("model", JString "m");
               ("stream", JBool true); ("system", JString "obey")], ["system"]).
Proof. by vm_compute. Qed.

(** ** Witnesses and findings *)


Definition file_ingest : IngestRequest :=
  mkIngest "stream-1" "conv-1" [] (Some ([file_block "a.png" "image/png" 1], "alice", [])) None.

(** A file block stops the provider: the relay accepts a message that
    carries one and hands it to the harness as it is, and no request whose
    history holds that message can be built; both clients panic, in this turn
    and in every later turn of the conversation. *)
Theorem file_block_panics :
  ∃ w' msg,
    channel_stream_ingest (H := SampleService) (Some sample_kube) no_dial (sample_env "") true (sample_req "alice")
      file_ingest listening = (w', Ok ("stream-1", "conv-1")) ∧
    gs_senders (w_gateway w') !! "home" = Some [mkSubscriber [msg] false] ∧
    ∀ (Num : Type) as_u64 (num : Num) json_parse base64 http base_url before after system tools params config,
      let history := before ++ mkMessage "user" (um_content msg) [] None None :: after in
      claude_call num json_parse base64 http base_url history system tools params config = None ∧
      openai_call as_u64 json_parse base64 http base_url history system tools params config = None.
Proof.
  eexists _, (mkUserMessage [file_block "a.png" "image/png" 1] "alice" (Some "stream-1") "conv-1" []).
  split; [vm_compute; reflexivity|]. split; [by vm_compute|]. intros. split.
  - unfold claude_call, build_anthropic_body, build_managed_body.
    assert (claude_api_messages json_parse base64 history = None) as ->; [|done].
    apply claude_api_None, Exists_app. right. by constructor.
  - unfold openai_call, build_openai_body, build_managed_body.
    assert (openai_api_messages base64 history system = None) as ->; [|done].
    apply openai_panics, Exists_app. right. by constructor.
Qed.
