(* ===== verification/ToolFrames.v ===== *)
(** * The frames of a tool pod

    Models how [crates/toolset-runtime] turns what a tool prints into result
    frames: the line conventions of [parts.rs] (image markers, scrubbing, the
    terminal), the buffered framing of a finished builtin ([frames_for]), and
    the live framing of a running dispatcher ([stream_frames] of [execute.rs])
    over the outcomes of its [select!]. Scratch files are a map from paths to
    contents. *)

From stdpp Require Import pretty.
From S2P Require Import Prelude Text Proto Scrub ExecutionLog Dispatch.

(** ** [parts.rs] *)

Definition MAX_IMAGE_BYTES : N := 3670016.
Definition unit_sep : ascii := byte_of 31.
Definition MARKER_PREFIX : string := str_of (unit_sep :: B "TOOLSET-IMAGE" ++ [unit_sep]).

Record ImageMarker : Type := mkMarker { im_media_type : string; im_path : string }.

Definition parse_image_marker (line : string) : option ImageMarker :=
  rest ← str_strip_prefix MARKER_PREFIX line;
  '(media_type, path) ← str_split_once unit_sep rest;
  if str_is_empty media_type || str_is_empty path then None else Some (mkMarker media_type path).

Definition oversize_message (len : N) : string :=
  "image result is " +:+ pretty len +:+ " bytes, over the " +:+ pretty MAX_IMAGE_BYTES +:+ "-byte (3.5 MiB) cap".

Definition image_part_or_oversize_error (media_type : string) (data : bytes) : result ContentBlock N :=
  let len := N.of_nat (length data) in
  if (MAX_IMAGE_BYTES <? len)%N then Err len else Ok (image_block media_type data).

Definition stdout_frame (text : string) : ToolResultFrame := mkFrame (Some (Stdout text)).
Definition stderr_frame (text : string) : ToolResultFrame := mkFrame (Some (Stderr text)).
Definition complete_frame (outcome : ToolOutcome) (exit_code : Z) : ToolResultFrame :=
  mkFrame (Some (Complete (tool_outcome_i32 outcome) exit_code)).

Section frames.
(** [scratch_error]: why a file cannot be read; [removable]: whether a file that
    was read can also be removed. *)
Context (scrub : ScrubSet) (scratch_error : string → string) (removable : string → bool).

Definition Scratch : Type := gmap string bytes.

Definition read_scratch_image (path : string) (fs : Scratch) : Scratch * result bytes string :=
  match fs !! path with
  | Some data => (if removable path then delete path fs else fs, Ok data)
  | None => (fs, Err (scratch_error path))
  end.

(** The files, the frame, and whether a marker failed. *)
Definition stdout_line_frame (line : string) (fs : Scratch) : Scratch * option ToolResultFrame * bool :=
  match parse_image_marker line with
  | Some marker =>
      match read_scratch_image (im_path marker) fs with
      | (fs, Ok data) =>
          match image_part_or_oversize_error (im_media_type marker) data with
          | Ok block =>
              match cb_block block with
              | Some (BImage media_type data) => (fs, Some (mkFrame (Some (Image media_type data))), false)
              | _ => (fs, None, false)
              end
          | Err len => (fs, Some (stdout_frame (scrub_apply scrub (oversize_message len))), true)
          end
      | (fs, Err e) => (fs, Some (stdout_frame (scrub_apply scrub ("image result unavailable: " +:+ e))), true)
      end
  | None => (fs, Some (stdout_frame (scrub_apply scrub line)), false)
  end.

Definition stderr_line_frame (line : string) : ToolResultFrame := stderr_frame (scrub_apply scrub line).

(** [s.split_inclusive('\n')] with the newline stripped: an empty last piece is
    none. *)
Fixpoint drop_empty_last (pieces : list bytes) : list bytes :=
  match pieces with
  | [] | [[]] => []
  | p :: pieces => p :: drop_empty_last pieces
  end.
Definition pieces (s : string) : list string := str_of <$> drop_empty_last (split newline (B s)).

Fixpoint stdout_frames (lines : list string) (fs : Scratch) : Scratch * list ToolResultFrame * bool :=
  match lines with
  | [] => (fs, [], false)
  | line :: lines =>
      let '(fs, frame, err) := stdout_line_frame line fs in
      let '(fs, frames, errs) := stdout_frames lines fs in (fs, option_list frame ++ frames, err || errs)
  end.

Definition frames_for (stdout stderr : string) (exit_code : Z) (fs : Scratch) : Scratch * list ToolResultFrame :=
  let '(fs, frames, image_error) := stdout_frames (pieces stdout) fs in
  let outcome := if bool_decide (exit_code ≠ 0%Z) || image_error then OutcomeFailed else OutcomeDone in
  (fs, frames ++ (stderr_line_frame <$> pieces stderr) ++ [complete_frame outcome exit_code]).

(** ** [execute.rs] *)

(** What one [select!] of [stream_frames] resolves to: the cancel token, the
    deadline, a line of a pipe or its end (a read error counts as one). *)
Inductive PumpEvent : Type :=
| PumpCancel
| PumpDeadline
| PumpStdout (line : option string)
| PumpStderr (line : option string).

Record Pump : Type := mkPump {
  pu_stdout_open : bool; pu_stderr_open : bool; pu_image_error : bool; pu_aborted : bool; pu_timed_out : bool;
  pu_fs : Scratch; pu_out : list ToolResultFrame }.

Definition pump_start (fs : Scratch) : Pump := mkPump true true false false false fs [].

(** One turn of the loop; a guarded-off arm is not taken. *)
Definition pump_step (p : Pump) (e : PumpEvent) : option Pump :=
  let '(mkPump so se ie ab ti fs out) := p in
  match e with
  | PumpCancel => if ab then None else Some (mkPump so se ie true ti fs out)
  | PumpDeadline => if ab then None else Some (mkPump so se ie true true fs out)
  | PumpStdout line =>
      if so then
        match line with
        | Some l => let '(fs, frame, err) := stdout_line_frame l fs in
                    Some (mkPump so se (ie || err) ab ti fs (out ++ option_list frame))
        | None => Some (mkPump false se ie ab ti fs out)
        end
      else None
  | PumpStderr line =>
      if se then
        match line with
        | Some l => Some (mkPump so se ie ab ti fs (out ++ [stderr_line_frame l]))
        | None => Some (mkPump so false ie ab ti fs out)
        end
      else None
  end.

(** The loop, for a receiver that stays: it ends when both pipes have. *)
Inductive pump_runs : Pump → list PumpEvent → Pump → Prop :=
| PumpEnds p : pu_stdout_open p = false → pu_stderr_open p = false → pump_runs p [] p
| PumpTurns p e p' es q :
    pu_stdout_open p || pu_stderr_open p = true → pump_step p e = Some p' → pump_runs p' es q → pump_runs p (e :: es) q.

(** After the loop: [status] is the exit code of the reaped child. *)
Definition stream_end (timeout_secs : N) (status : option Z) (p : Pump) : list ToolResultFrame :=
  let exit_code := if pu_aborted p then (-1)%Z else default (-1)%Z status in
  let outcome :=
    if pu_aborted p && negb (pu_timed_out p) then OutcomeCanceled
    else if pu_timed_out p || bool_decide (exit_code ≠ 0%Z) || pu_image_error p then OutcomeFailed
    else OutcomeDone in
  pu_out p
  ++ (if pu_timed_out p then [stderr_line_frame ("command timed out after " +:+ pretty timeout_secs +:+ "s")] else [])
  ++ [complete_frame outcome exit_code].

(** [stream_frames], also when the child cannot be spawned. *)
Definition spawn_failed (e : string) : list ToolResultFrame :=
  [stdout_frame (scrub_apply scrub ("execution error: " +:+ e)); complete_frame OutcomeFailed (-1)].

Inductive stream_frames (timeout_secs : N) (fs : Scratch) : list ToolResultFrame → Prop :=
| StreamSpawnFailed e : stream_frames timeout_secs fs (spawn_failed e)
| StreamRan es q status :
    pump_runs (pump_start fs) es q → stream_frames timeout_secs fs (stream_end timeout_secs status q).
End frames.

(** ** Terminals *)

Definition is_stderr (f : ToolResultFrame) : bool :=
  match tf_frame f with Some (Stderr _) => true | _ => false end.
(** The text of a frame. *)
Definition frame_text (f : ToolResultFrame) : option string :=
  match tf_frame f with Some (Stdout t) | Some (Stderr t) => Some t | _ => None end.

Section frame_lemmas.
Context (scrub : ScrubSet) (scratch_error : string → string) (removable : string → bool).
Notation stdout_line_frame := (stdout_line_frame scrub scratch_error removable).
Notation stdout_frames := (stdout_frames scrub scratch_error removable).
Notation frames_for := (frames_for scrub scratch_error removable).
Notation pump_step := (pump_step scrub scratch_error removable).
Notation pump_runs := (pump_runs scrub scratch_error removable).
Notation stream_frames := (stream_frames scrub scratch_error removable).

(** A frame of the tool's own output: its text is scrubbed. *)
Definition output_frame (f : ToolResultFrame) : Prop :=
  is_terminal_frame f = false ∧ ∀ t, frame_text f = Some t → ∃ s, t = scrub_apply scrub s.

Lemma stdout_line_output line fs fs' frame err :
  stdout_line_frame line fs = (fs', frame, err) →
  ∃ f, frame = Some f ∧ output_frame f ∧ is_stderr f = false.
Proof.
  unfold ToolFrames.stdout_line_frame, read_scratch_image, image_part_or_oversize_error.
  intros H. repeat case_match; simplify_eq/=; eexists; (split_and!; [done|split; [done|]|done]);
    intros t [= <-]; by eexists.
Qed.

Lemma stdout_frames_output lines fs :
  let '(_, frames, _) := stdout_frames lines fs in
  Forall (λ f, output_frame f ∧ is_stderr f = false) frames.
Proof.
  revert fs. induction lines as [|l lines IH]; intros fs; [constructor|]. cbn [ToolFrames.stdout_frames].
  destruct (stdout_line_frame l fs) as [[fs1 frame] err] eqn:E.
  apply stdout_line_output in E as (f & -> & Hf). specialize (IH fs1).
  destruct (stdout_frames lines fs1) as [[fs2 frames] errs]. by constructor.
Qed.

Lemma stderr_line_output l : output_frame (stderr_line_frame scrub l) ∧ is_stderr (stderr_line_frame scrub l) = true.
Proof. split; [split; [done|]|done]. intros t [= <-]. by eexists. Qed.

Lemma pump_output p es q :
  pump_runs p es q → Forall output_frame (pu_out p) → Forall output_frame (pu_out q).
Proof.
  induction 1 as [|p e p' es q _ Hs _ IH]; [done|]. intros Hp. apply IH. destruct p as [so se ie ab ti fs out].
  unfold ToolFrames.pump_step in Hs. destruct e as [| |[l|]|[l|]]; simpl in *; repeat case_match; simplify_eq/=; try done.
  - match goal with E : stdout_line_frame _ _ = _ |- _ => apply stdout_line_output in E as (f & -> & Hf & _) end.
    apply Forall_app_2; [done|by constructor].
  - apply Forall_app_2; [done|]. constructor; [apply stderr_line_output|done].
Qed.

(** All the frames of a call: output, then the terminal. *)
Definition call_frames (frames : list ToolResultFrame) : Prop :=
  ∃ output outcome exit_code, frames = output ++ [complete_frame outcome exit_code] ∧ Forall output_frame output.

Lemma frames_for_call stdout stderr exit_code fs : call_frames (frames_for stdout stderr exit_code fs).2.
Proof.
  unfold ToolFrames.frames_for. pose proof (stdout_frames_output (pieces stdout) fs) as H.
  destruct (stdout_frames (pieces stdout) fs) as [[fs' frames] image_error]. simpl.
  rewrite app_assoc. eexists _, _, exit_code. split; [done|].
  apply Forall_app_2; [by eapply Forall_impl; [exact H|intros ? []]|].
  rewrite Forall_fmap. apply Forall_true. intros l. apply stderr_line_output.
Qed.

Lemma stream_frames_call t fs frames : stream_frames t fs frames → call_frames frames.
Proof.
  intros [e|es q status Hr].
  - exists [stdout_frame (scrub_apply scrub ("execution error: " +:+ e))], OutcomeFailed, (-1)%Z. split; [done|].
    constructor; [|done]. split; [done|]. intros ? [= <-]. by eexists.
  - apply pump_output in Hr; [|constructor]. unfold stream_end. rewrite app_assoc. eexists _, _, _. split; [done|].
    apply Forall_app_2; [done|]. destruct (pu_timed_out q); [|done]. constructor; [apply stderr_line_output|done].
Qed.

(** ** How a call ended *)

#[export] Instance PumpEvent_eq_dec : EqDecision PumpEvent.
Proof. solve_decision. Defined.

Definition abort_event (e : PumpEvent) : bool := match e with PumpCancel | PumpDeadline => true | _ => false end.
Definition first_abort (es : list PumpEvent) : option PumpEvent := snd <$> list_find abort_event es.

Lemma first_abort_cons e es : first_abort (e :: es) = if abort_event e then Some e else first_abort es.
Proof.
  unfold first_abort. simpl. destruct (abort_event e); [done|]. destruct (list_find _ es) as [[]|]; done.
Qed.

Lemma pump_aborts p es q :
  pump_runs p es q →
  pu_aborted q = pu_aborted p || bool_decide (is_Some (first_abort es)) ∧
  pu_timed_out q = pu_timed_out p || (negb (pu_aborted p) && bool_decide (first_abort es = Some PumpDeadline)) ∧
  (pu_aborted p = true → first_abort es = None).
Proof.
  induction 1 as [p|p e p' es q _ Hs _ (IHa & IHt & IHn)].
  - by rewrite andb_false_r, !orb_false_r.
  - rewrite IHa, IHt, first_abort_cons. destruct p as [so se ie ab ti fs out]. unfold ToolFrames.pump_step in Hs.
    destruct e as [| |[l|]|[l|]]; simpl in *; repeat case_match; simplify_eq/=; rewrite ?orb_true_r, ?orb_false_r; try done.
    all: by rewrite IHn.
Qed.

(** The one terminal frame of a streamed tool call, its last frame, tells
    how the call ended: CANCELED just if the user's cancel came before the
    deadline and before both pipes ended, DONE just if nothing aborted it, the
    child exited with 0 and every image it named could be sent; an aborted
    call's exit code is -1 whatever the child's was. *)
Theorem terminal_tells_end t fs es q status :
  pump_runs (pump_start fs) es q →
  ∃ output outcome exit_code,
    stream_end scrub t status q = output ++ [complete_frame outcome exit_code] ∧
    Forall (λ f, is_terminal_frame f = false) output ∧
    (outcome = OutcomeCanceled ↔ first_abort es = Some PumpCancel) ∧
    (outcome = OutcomeDone ↔ first_abort es = None ∧ status = Some 0%Z ∧ pu_image_error q = false) ∧
    (is_Some (first_abort es) → exit_code = (-1)%Z).
Proof.
  intros Hr. pose proof (stream_frames_call t fs _ (StreamRan _ _ _ t fs es q status Hr)) as (output & outcome & code & Heq & Hout).
  apply pump_aborts in Hr as (Ha & Ht & _). simpl in Ha, Ht.
  exists output, outcome, code. split; [done|]. split; [by eapply Forall_impl; [exact Hout|intros ? []]|].
  unfold stream_end in Heq. rewrite app_assoc in Heq. apply app_inj_tail in Heq as [_ Heq].
  rewrite Ha, Ht in Heq. unfold complete_frame in Heq. injection Heq as Ho <-.
  assert (∀ o o', tool_outcome_i32 o = tool_outcome_i32 o' → o = o') as Hinj by (by intros [] []).
  apply Hinj in Ho as <-. destruct (first_abort es) as [e|] eqn:Ef.
  - assert (e = PumpCancel ∨ e = PumpDeadline) as [-> | ->]; [|split_and!; naive_solver..].
    unfold first_abort in Ef. destruct (list_find _ es) as [[n e']|] eqn:El; simplify_eq/=.
    apply list_find_Some in El as (_ & He & _). destruct e; naive_solver.
  - rewrite !bool_decide_false by (by intros []). simpl. split_and!.
    + repeat case_match; naive_solver.
    + destruct status as [z|]; simpl; [|split; [done|naive_solver]].
      destruct (bool_decide (z ≠ 0%Z)) eqn:Ez; simpl.
      * apply bool_decide_eq_true in Ez. split; [done|]. intros (_ & [= ->] & _). done.
      * apply bool_decide_eq_false in Ez. assert (z = 0%Z) as -> by lia. destruct (pu_image_error q); naive_solver.
    + intros []. done.
Qed.

(** ** The two producers agree *)

Definition out_lines (es : list PumpEvent) : list string :=
  omap (λ e, match e with PumpStdout l => l | _ => None end) es.
Definition err_lines (es : list PumpEvent) : list string :=
  omap (λ e, match e with PumpStderr l => l | _ => None end) es.
Definition unlines (lines : list string) : string := str_of (mjoin ((λ l, B l ++ [newline]) <$> lines)).

Lemma pieces_unlines lines : Forall (λ l, newline ∉ B l) lines → pieces (unlines lines) = lines.
Proof.
  unfold pieces, unlines. rewrite B_str_of. induction 1 as [|l lines Hl _ IH]; [done|].
  cbn [fmap list_fmap mjoin list_join]. rewrite <- app_assoc. cbn [app]. rewrite split_app by done.
  destruct (split newline _) as [|p ps] eqn:E in IH |- *; [by apply split_ne in E|]. 
  assert (drop_empty_last (B l :: p :: ps) = B l :: drop_empty_last (p :: ps)) as -> by (by destruct (B l)).
  cbn [fmap list_fmap]. rewrite str_of_B. f_equal. exact IH.
Qed.

Lemma pump_split p es q :
  pump_runs p es q → Forall (λ e, abort_event e = false) es →
  let '(_, frames, err) := stdout_frames (out_lines es) (pu_fs p) in
  filter (λ f, is_stderr f = false) (pu_out q) = filter (λ f, is_stderr f = false) (pu_out p) ++ frames ∧
  filter (λ f, is_stderr f = true) (pu_out q)
    = filter (λ f, is_stderr f = true) (pu_out p) ++ (stderr_line_frame scrub <$> err_lines es) ∧
  pu_image_error q = pu_image_error p || err.
Proof.
  induction 1 as [p|p e p' es q _ Hs _ IH]; intros He.
  - simpl. by rewrite !app_nil_r, orb_false_r.
  - inversion_clear He as [|? ? He' Hes]. specialize (IH Hes). destruct p as [so se ie ab ti fs out].
    unfold ToolFrames.pump_step in Hs. destruct e as [| |[l|]|[l|]]; try done; simpl in Hs.
    + destruct so; [|done]. destruct (stdout_line_frame l fs) as [[fs1 frame] err] eqn:E. injection Hs as <-.
      cbn [out_lines omap list_omap ToolFrames.stdout_frames pu_fs]. fold (out_lines es). rewrite E.
      apply stdout_line_output in E as (f & -> & _ & Hf). simpl in IH.
      destruct (stdout_frames (out_lines es) fs1) as [[fs2 frames] errs]. destruct IH as (IH1 & IH2 & IH3).
      rewrite filter_app, filter_cons_True, filter_nil, <- app_assoc in IH1 by done.
      rewrite filter_app, filter_cons_False, filter_nil, app_nil_r in IH2 by (by rewrite Hf).
      by rewrite IH1, IH2, IH3, orb_assoc.
    + destruct so; [|done]. injection Hs as <-. exact IH.
    + destruct se; [|done]. injection Hs as <-. change (out_lines (PumpStderr (Some l) :: es)) with (out_lines es).
      change (err_lines (PumpStderr (Some l) :: es)) with (l :: err_lines es). simpl in IH |- *.
      destruct (stdout_frames (out_lines es) fs) as [[fs2 frames] errs]. destruct IH as (IH1 & IH2 & IH3).
      rewrite filter_app, filter_cons_False, filter_nil, app_nil_r in IH1 by done.
      rewrite filter_app, filter_cons_True, filter_nil, <- app_assoc in IH2 by done. by rewrite IH1, IH2, IH3.
    + destruct se; [|done]. injection Hs as <-. exact IH.
Qed.

(** C33. Streaming and buffering a tool's output come to the same: if nothing
    aborts the call and the child prints the same lines (ended by a newline
    alone) and exits alike, the streamed frames are those [frames_for] makes of
    the whole output, the stdout frames in their order and the stderr frames in
    theirs, however the two were interleaved, behind the same terminal. *)
Theorem streamed_as_buffered t fs es q code :
  pump_runs (pump_start fs) es q → Forall (λ e, abort_event e = false) es →
  Forall (λ l, newline ∉ B l) (out_lines es ++ err_lines es) →
  ∃ mixed terminal,
    stream_end scrub t (Some code) q = mixed ++ [terminal] ∧
    (frames_for (unlines (out_lines es)) (unlines (err_lines es)) code fs).2
    = filter (λ f, is_stderr f = false) mixed ++ filter (λ f, is_stderr f = true) mixed ++ [terminal].
Proof.
  intros Hr He [Hlo Hle]%Forall_app. pose proof (pump_aborts _ _ _ Hr) as (Ha & Ht & _).
  pose proof (pump_split _ _ _ Hr He) as Hs. simpl in Ha, Ht, Hs.
  assert (first_abort es = None) as Hf.
  { unfold first_abort. rewrite (proj2 (list_find_None _ _)); [done|]. eapply Forall_impl; [exact He|]. intros x Hx Hn. by rewrite Hx in Hn. }
  rewrite Hf in Ha, Ht. rewrite !bool_decide_false in * by (by intros []).
  unfold ToolFrames.frames_for, stream_end. rewrite !pieces_unlines, Ha, Ht by done.
  destruct (stdout_frames (out_lines es) fs) as [[fs1 frames] err]. destruct Hs as (H1 & H2 & H3). rewrite H3. simpl.
  eexists _, _. split; [done|]. by rewrite H1, H2.
Qed.
End frame_lemmas.

(** ** Redaction *)

(** No frame of a tool pod carries a secret: whatever a tool prints,
    buffered or streamed, no text of any frame contains the trimmed value of a
    registered secret or its base64 or url-encoded form. *)
Theorem tool_frames_redacted b64 url secrets name value v scratch_error removable frames f text :
  let set := from_secrets b64 url secrets in
  tags_opaque set = true → (name, value) ∈ secrets → str_trim value ≠ "" →
  v ∈ [str_trim value; b64 (str_trim value); url (str_trim value)] →
  (∃ stdout stderr code fs, frames = (frames_for set scratch_error removable stdout stderr code fs).2) ∨
  (∃ t fs, stream_frames set scratch_error removable t fs frames) →
  f ∈ frames → frame_text f = Some text → ¬ sub (B v) (B text).
Proof.
  intros set Ho Hs Hne Hv Hfr Hin Ht.
  assert (call_frames set frames) as (output & outcome & code & -> & Hout).
  { destruct Hfr as [(stdout & stderr & code & fs & ->)|(t & fs & H)]; [apply frames_for_call|by eapply stream_frames_call]. }
  apply elem_of_app in Hin as [Hin|Hin%list_elem_of_singleton]; [|by subst f].
  rewrite Forall_forall in Hout. destruct (Hout f Hin) as [_ Hf]. destruct (Hf text Ht) as [s ->].
  by eapply scrub_no_variant.
Qed.

Definition key_set (value : string) : ScrubSet := from_secrets (λ s, s +:+ "=") (λ s, s) [("key", value)].
Definition no_file (_ : string) : string := "not found".

Lemma tool_frames_redacted_witness :
  ∀ f text, f ∈ (frames_for (key_set "hunter2") no_file (λ _, true) "pw hunter2" "" 0 ∅).2 →
    frame_text f = Some text → ¬ sub (B "hunter2") (B text).
Proof.
  intros f text. apply (tool_frames_redacted (λ s, s +:+ "=") (λ s, s) [("key", "hunter2")] "key" "hunter2" "hunter2"
    no_file (λ _, true)); [done|set_solver|done|set_solver|].
  left. by exists "pw hunter2", "", 0%Z, ∅.
Defined.

(** A secret of two lines, as a private key has. *)
Definition two_lines : string := "BEGIN KEY" +:+ str_of [newline] +:+ "b64data".

(** A secret of several lines is not redacted: output is scrubbed line by
    line, no line holds the whole secret, and the harness joins the lines
    again, so a tool that prints a private key puts it before the model. *)
Theorem multiline_secret_leaks :
  ctr_content (assemble_from_frames (frames_for (key_set two_lines) no_file (λ _, true) two_lines "" 0 ∅).2)
  = [text_block two_lines] ∧
  scrub_apply (key_set two_lines) two_lines = "[REDACTED:key]".
Proof. split; by vm_compute. Qed.

Definition sample_events : list PumpEvent :=
  [PumpStdout (Some "one"); PumpStderr (Some "warn"); PumpStdout (Some "two"); PumpStdout None; PumpStderr None].
Ltac run_pump := repeat (eapply PumpTurns; [reflexivity|by vm_compute|]); by constructor.

Lemma streamed_as_buffered_witness :
  ∃ q, pump_runs (key_set "k") no_file (λ _, true) (pump_start ∅) sample_events q ∧
  ∃ mixed terminal,
    stream_end (key_set "k") 60 (Some 0%Z) q = mixed ++ [terminal] ∧
    (frames_for (key_set "k") no_file (λ _, true) (unlines ["one"; "two"]) (unlines ["warn"]) 0 ∅).2
    = filter (λ f, is_stderr f = false) mixed ++ filter (λ f, is_stderr f = true) mixed ++ [terminal].
Proof.
  assert (∃ q, pump_runs (key_set "k") no_file (λ _, true) (pump_start ∅) sample_events q) as [q Hq].
  { eexists. unfold sample_events. run_pump. }
  exists q. split; [exact Hq|].
  apply (streamed_as_buffered (key_set "k") no_file (λ _, true) 60 ∅ sample_events q 0 Hq); [by repeat constructor|].
  by_compute.
Defined.

Lemma terminal_tells_end_witness :
  ∃ q, pump_runs (key_set "k") no_file (λ _, true) (pump_start ∅) (PumpCancel :: sample_events) q ∧
  ∃ output outcome exit_code,
    stream_end (key_set "k") 60 None q = output ++ [complete_frame outcome exit_code] ∧
    Forall (λ f, is_terminal_frame f = false) output ∧
    (outcome = OutcomeCanceled ↔ first_abort (PumpCancel :: sample_events) = Some PumpCancel) ∧
    (outcome = OutcomeDone ↔ first_abort (PumpCancel :: sample_events) = None ∧ None = Some 0%Z ∧ pu_image_error q = false) ∧
    (is_Some (first_abort (PumpCancel :: sample_events)) → exit_code = (-1)%Z).
Proof.
  assert (∃ q, pump_runs (key_set "k") no_file (λ _, true) (pump_start ∅) (PumpCancel :: sample_events) q) as [q Hq].
  { eexists. unfold sample_events. run_pump. }
  exists q. split; [exact Hq|].
  exact (terminal_tells_end (key_set "k") no_file (λ _, true) 60 ∅ (PumpCancel :: sample_events) q None Hq).
Defined.
