(* ===== verification/Builtins.v ===== *)
(** * The standard tools and the tool pod

    Models [crates/toolset-runtime/src/stdlib.rs] (the builtins [Shell],
    [Read], [Write], [Edit], [Search] and the truncation of their output), the
    supervision of a child process and the dispatcher command of [execute.rs],
    and the [Run] call of [server.rs] that chooses between them. Files are a map
    from paths to contents; the file system's refusals, the processes and the
    lower-casing of text are the environment. [None] is a panic. *)

From stdpp Require Import pretty.
From S2P Require Import Prelude Text Codec Proto Scrub ExecutionLog Dispatch Inference Toolset Sse ToolFrames.

(** ** Text *)

(** [str::parse::<u64>]: an optional plus, then digits, in range. *)
Definition u64_max : N := 18446744073709551615.
Fixpoint parse_digits (acc : N) (s : bytes) : option N :=
  match s with
  | [] => Some acc
  | c :: s =>
      if is_ascii_digit c then
        let acc := (acc * 10 + (byte_val c - 48))%N in
        if (u64_max <? acc)%N then None else parse_digits acc s
      else None
  end.
Definition parse_u64 (s : string) : option N :=
  match B s with
  | [] => None
  | c :: rest =>
      if decide (c = "+"%char) then match rest with [] => None | _ => parse_digits 0 rest end
      else parse_digits 0 (c :: rest)
  end.

(** [str::find] of a pattern: what precedes and what follows its first match. *)
Fixpoint find_split (pat s : bytes) : option (bytes * bytes) :=
  match strip_prefix pat s with
  | Some post => Some ([], post)
  | None =>
      match s with
      | [] => None
      | c :: s => '(pre, post) ← find_split pat s; Some (c :: pre, post)
      end
  end.

(** [s.matches(pat).count()]: non-overlapping matches, found from the left; an
    empty pattern matches at every character boundary. [skip] counts the bytes
    of the current match still to be passed over. *)
Fixpoint count_go (pat : bytes) (skip : nat) (s : bytes) : nat :=
  match s with
  | [] => 0
  | _ :: s' =>
      match skip with
      | S k => count_go pat k s'
      | O => if starts_with pat s then S (count_go pat (length pat - 1) s') else count_go pat 0 s'
      end
  end.
Definition count_matches (pat s : bytes) : nat :=
  match pat with [] => S (chars_count s) | _ => count_go pat 0 s end.

(** [s.replacen(pat, rep, 1)]. *)
Definition replace_first (pat rep s : bytes) : bytes :=
  match find_split pat s with Some (pre, post) => pre ++ rep ++ post | None => s end.

(** [Path::file_name]: the last component if it is a plain one. *)
Definition file_name (p : string) : option string :=
  c ← last (filter (λ c, c ≠ "" ∧ c ≠ ".") (str_split "/"%char p));
  if decide (c = "..") then None else Some c.

(** Whether [Path::parent] is there and not empty: a leading [.] is a component,
    later ones and empty ones are not. *)
Definition has_parent (p : string) : bool :=
  match str_split "/"%char p with
  | [] => false
  | first :: rest =>
      let comps := (if str_is_empty first then [] else [first]) ++ filter (λ c, c ≠ "" ∧ c ≠ ".") rest in
      if str_starts_with "/" p then negb (bool_decide (comps = [])) else 1 <? length comps
  end.

(** ** Results *)

Record CommandResult : Type := mkCommandResult {
  cr_stdout : string; cr_stderr : string; cr_exit_code : Z; cr_terminated_by_signal : option Z }.

Definition ok_result (stdout : string) : CommandResult := mkCommandResult stdout "" 0 None.
Definition error_result (stderr : string) : CommandResult := mkCommandResult "" stderr 1 None.

Definition DEFAULT_MAX_OUTPUT_CHARS : nat := N.to_nat 30000.
Definition MIN_SHELL_TIMEOUT_SECS : N := 1.
Definition DEFAULT_SHELL_TIMEOUT_SECS : N := 60.
Definition MAX_SHELL_TIMEOUT_SECS : N := 600.
Definition READ_FILE_CAP_BYTES : N := 1048576.
Definition SEARCH_MAX_PAGE : N := 1000.
Definition SEARCH_DEFAULT_LIMIT : N := 50.
Definition SEARCH_MAX_COUNT_PER_FILE : string := "100".

Definition require (args : gmap string string) (key : string) : result string CommandResult :=
  ok_or (args !! key) (error_result ("missing required parameter: " +:+ key)).
Definition parse_optional (args : gmap string string) (key : string) (default_value : N) : N :=
  default default_value (args !! key ≫= parse_u64).

(** [truncate_middle], on bytes: the slices panic inside a character. *)
Definition truncation_marker (n : N) : bytes :=
  newline :: B "[...truncated " ++ B (pretty n) ++ B " characters...]" ++ [newline].
Definition slice_to (s : bytes) (i : nat) : option bytes := if is_char_boundary s i then Some (take i s) else None.
Definition slice_from (s : bytes) (i : nat) : option bytes := if is_char_boundary s i then Some (drop i s) else None.

Definition truncate_middle (output : bytes) (max_chars : nat) : option bytes :=
  let len := length output in
  if len <=? max_chars then Some output else
  let digit_count := length (B (pretty (N.of_nat (len - max_chars)))) in
  let marker_len := length (truncation_marker 0) - 1 + digit_count in
  if max_chars <=? marker_len then slice_to output max_chars else
  let available := max_chars - marker_len in
  let head_len := available * 2 / 5 in
  let tail_len := available - head_len in
  head ← slice_to output head_len;
  tail ← slice_from output (len - tail_len);
  Some (head ++ truncation_marker (N.of_nat (len - head_len - tail_len)) ++ tail).

(** ** Processes *)

Record Command : Type := mkCommand {
  cmd_program : string; cmd_args : list string; cmd_dir : string; cmd_env : gmap string string }.

Definition TOOLSET_DISPATCH : string := "/etc/toolset/dispatch".
Definition compose_dispatch_command (tool_name : string) (args : gmap string string) (working_dir : string) : Command :=
  mkCommand TOOLSET_DISPATCH [tool_name] working_dir args.

(** How a supervised child ends: [code] and [signal] of its status. *)
Inductive ChildEnd : Type :=
| ChildExited (code signal : option Z)
| ChildKilled (signal : option (option Z))     (* the cancel came first; None: the wait failed *)
| ChildTimedOut.

(** What a spawned child does: the bytes of its pipes, and its end. *)
Definition ChildRun : Type := result (bytes * bytes * ChildEnd) string.

Definition run_supervised_child (timeout_secs : N) (run : ChildRun) : result CommandResult string :=
  let? (stdout, stderr, outcome) := run in
  let text b := str_of (from_utf8_lossy b) in
  Ok match outcome with
     | ChildExited code signal => mkCommandResult (text stdout) (text stderr) (default (-1)%Z code) signal
     | ChildKilled signal =>
         mkCommandResult (text stdout) (text stderr) (-1) (or_else (signal ≫= id) (Some 9%Z))
     | ChildTimedOut =>
         mkCommandResult "" ("command timed out after " +:+ pretty timeout_secs +:+ "s") (-1) None
     end.

(** ** The builtins *)

Inductive WriteIo : Type :=
| WriteDone
| WriteFailed (e : string) (left_behind : option bytes).

(** The file system's answers: an error, or none. *)
Record FsEnv : Type := mkFsEnv {
  fe_missing : string;                       (* reading what is not there *)
  fe_meta : string → option string; fe_read : string → option string;
  fe_parents : string → option string; fe_write : string → WriteIo }.

Section builtins.
Context (env : FsEnv) (to_lowercase : string → string) (shell : Command → N → ChildRun)
        (rg : Command → result (option Z * bytes * bytes) string).
Implicit Types args : gmap string string.

Definition Files : Type := gmap string bytes.

Definition metadata_len (path : string) (fs : Files) : result N string :=
  match fs !! path, fe_meta env path with
  | None, _ => Err (fe_missing env)
  | Some _, Some e => Err e
  | Some content, None => Ok (N.of_nat (length content))
  end.

Definition read_text (path : string) (fs : Files) : result bytes string :=
  match fs !! path, fe_read env path with
  | None, _ => Err (fe_missing env)
  | Some _, Some e => Err e
  | Some content, None =>
      if utf8_valid content then Ok content else Err "stream did not contain valid UTF-8"
  end.

Definition write_file (path : string) (content : bytes) (fs : Files) : Files * result unit string :=
  match fe_write env path with
  | WriteDone => (<[path := content]> fs, Ok tt)
  | WriteFailed e (Some partial) => (<[path := partial]> fs, Err e)
  | WriteFailed e None => (fs, Err e)
  end.

Definition check_size_cap (path : string) (fs : Files) : result unit CommandResult :=
  let? len := map_err (λ e, error_result ("failed to read " +:+ path +:+ ": " +:+ e)) (metadata_len path fs) in
  if (READ_FILE_CAP_BYTES <? len)%N
  then Err (error_result ("file too large: " +:+ pretty len +:+ " bytes exceeds " +:+ pretty READ_FILE_CAP_BYTES +:+ " byte cap"))
  else Ok tt.

(** An early return and the last value are both the answer. *)
Definition answer (r : result CommandResult CommandResult) : CommandResult :=
  match r with Ok c | Err c => c end.

Definition shell_timeout args : N :=
  (MIN_SHELL_TIMEOUT_SECS `max` (MAX_SHELL_TIMEOUT_SECS `min` parse_optional args "timeout" DEFAULT_SHELL_TIMEOUT_SECS))%N.

Definition execute_shell args (working_dir : string) : CommandResult :=
  answer (
    let? command := require args "command" in
    let timeout_secs := shell_timeout args in
    let cmd := mkCommand "sh" ["-c"; command] (default working_dir (args !! "workdir")) ∅ in
    map_err (λ e, error_result ("failed to execute command: " +:+ e))
      (run_supervised_child timeout_secs (shell cmd timeout_secs))).

Fixpoint number_lines (idx : N) (offset limit included : N) (lines : list bytes) : bytes :=
  match lines with
  | [] => []
  | line :: lines =>
      let lineno := (idx + 1)%N in
      if (lineno <? offset)%N then number_lines lineno offset limit included lines
      else if (limit <=? included)%N then []
      else B (pretty lineno) ++ B "|" ++ line ++ [newline] ++ number_lines lineno offset limit (included + 1) lines
  end.

Definition execute_read args (fs : Files) : CommandResult :=
  answer (
    let? path := require args "path" in
    let offset := (parse_optional args "offset" 1 `max` 1)%N in
    let limit := parse_optional args "limit" u64_max in
    let? _ := check_size_cap path fs in
    let? content := map_err (λ e, error_result ("failed to read " +:+ path +:+ ": " +:+ e)) (read_text path fs) in
    Ok (ok_result (str_of (number_lines 0 offset limit 0 (lines_bytes content))))).

Definition execute_write args (fs : Files) : Files * CommandResult :=
  match (let? path := require args "path" in let? content := require args "content" in Ok (path, content)) with
  | Err e => (fs, e)
  | Ok (path, content) =>
      match (if has_parent path then fe_parents env path else None) with
      | Some e => (fs, error_result ("failed to create parents for " +:+ path +:+ ": " +:+ e))
      | None =>
          match write_file path (B content) fs with
          | (fs, Ok _) =>
              (fs, ok_result ("wrote " +:+ pretty (N.of_nat (length (B content))) +:+ " bytes to " +:+ path))
          | (fs, Err e) => (fs, error_result ("failed to write " +:+ path +:+ ": " +:+ e))
          end
      end
  end.

Definition execute_edit args (fs : Files) : Files * CommandResult :=
  match (
    let? path := require args "path" in
    let? old_string := require args "old_string" in
    let? new_string := require args "new_string" in
    if decide (old_string = new_string) then Err (error_result "old_string and new_string are identical") else
    let? _ := check_size_cap path fs in
    let? content := map_err (λ e, error_result ("failed to read " +:+ path +:+ ": " +:+ e)) (read_text path fs) in
    let match_count := count_matches (B old_string) content in
    if decide (match_count = 0) then Err (error_result ("old_string not found in " +:+ path))
    else if decide (1 < match_count) then
      Err (error_result ("old_string matches " +:+ pretty (N.of_nat match_count) +:+ " locations in " +:+ path +:+ "; must be unique"))
    else Ok (path, replace_first (B old_string) (B new_string) content))
  with
  | Err e => (fs, e)
  | Ok (path, updated) =>
      match write_file path updated fs with
      | (fs, Ok _) => (fs, ok_result ("edited " +:+ path))
      | (fs, Err e) => (fs, error_result ("failed to write " +:+ path +:+ ": " +:+ e))
      end
  end.

Inductive SearchTarget : Type := SearchContent | SearchFiles.

Definition search_command (target : SearchTarget) (pattern path : string) (glob : option string) : Command :=
  mkCommand "rg" (["--no-follow"; "--no-ignore"] ++ match glob with Some g => ["--glob"; g] | None => [] end
    ++ match target with
       | SearchFiles => ["--files"; "--"; path]
       | SearchContent => ["--max-count"; SEARCH_MAX_COUNT_PER_FILE; "--"; pattern; path]
       end) "" ∅.

(** [file_name(p).to_lowercase().contains(needle)]. *)
Definition names_file (needle p : string) : bool :=
  match file_name p with
  | Some s => bool_decide (is_Some (find_split (B needle) (B (to_lowercase s))))
  | None => false
  end.

Definition search_page (target : SearchTarget) (pattern : string) (offset limit : N) (stdout : bytes) : list string :=
  let lines := str_lines (str_of (from_utf8_lossy stdout)) in
  let lines := match target with
               | SearchFiles => if str_is_empty pattern then lines
                                else filter (λ p, names_file (to_lowercase pattern) p = true) lines
               | SearchContent => lines
               end in
  take (N.to_nat limit) (drop (N.to_nat offset) lines).

Definition execute_search args (working_dir : string) : CommandResult :=
  answer (
    let? target_raw := require args "target" in
    let? target :=
      if decide (target_raw = "content") then Ok SearchContent
      else if decide (target_raw = "files") then Ok SearchFiles
      else Err (error_result ("target must be 'content' or 'files', got '" +:+ target_raw +:+ "'")) in
    let? pattern := require args "pattern" in
    let? _ := match target with
              | SearchContent => if str_is_empty pattern then Err (error_result "pattern cannot be empty for content search") else Ok tt
              | SearchFiles => Ok tt
              end in
    let limit := parse_optional args "limit" SEARCH_DEFAULT_LIMIT in
    let offset := parse_optional args "offset" 0 in
    let page := (u64_max `min` (offset + limit))%N in
    if (SEARCH_MAX_PAGE <? page)%N
    then Err (error_result ("offset + limit (" +:+ pretty page +:+ ") exceeds " +:+ pretty SEARCH_MAX_PAGE +:+ " cap")) else
    match rg (search_command target pattern (default working_dir (args !! "path")) (args !! "glob")) with
    | Err e => Err (error_result ("failed to invoke rg: " +:+ e))
    | Ok (code, stdout, stderr) =>
        let exit := default (-1)%Z code in
        if decide (exit = 1%Z) then Ok (ok_result "")
        else if decide (exit ≠ 0%Z) then
          Ok (mkCommandResult (str_of (from_utf8_lossy stdout)) (str_of (from_utf8_lossy stderr)) exit None)
        else Ok (ok_result (str_join (str_of [newline]) (search_page target pattern offset limit stdout)))
    end).

Definition dispatch_builtin (name : string) args (working_dir : string) (max_output_chars : nat)
    (fs : Files) : option (Files * CommandResult) :=
  let '(fs, r) :=
    if decide (name = "Shell") then (fs, execute_shell args working_dir)
    else if decide (name = "Read") then (fs, execute_read args fs)
    else if decide (name = "Write") then execute_write args fs
    else if decide (name = "Edit") then execute_edit args fs
    else if decide (name = "Search") then (fs, execute_search args working_dir)
    else (fs, error_result ("unknown builtin: " +:+ name)) in
  stdout ← truncate_middle (B (cr_stdout r)) max_output_chars;
  stderr ← truncate_middle (B (cr_stderr r)) max_output_chars;
  Some (fs, mkCommandResult (str_of stdout) (str_of stderr) (cr_exit_code r) (cr_terminated_by_signal r)).

(** ** [ToolJobService::run] *)

Record ToolCallAssignment : Type := mkAssignment {
  as_call_id : string; as_args : gmap string string; as_working_dir : string }.

Definition first_command (first : option (result (option ToolCallAssignment) string)) : result ToolCallAssignment Status :=
  let? first := ok_or first (mkStatus InvalidArgument "the harness must send an assignment before any command") in
  let? command := map_err (λ e, mkStatus Internal ("assignment stream error: " +:+ e)) first in
  ok_or command (mkStatus InvalidArgument "the first RunToolCommand must be the tool-call assignment").

(** The frames of one call; a task that panics sends none. *)
Inductive run_call (scrub : ScrubSet) (removable : string → bool) (builtin_names : list string) (tool_name : string)
    (a : ToolCallAssignment) (fs : Files) : list ToolResultFrame → Prop :=
| RunBuiltin fs' r :
    tool_name ∈ builtin_names →
    dispatch_builtin tool_name (as_args a) (if str_is_empty (as_working_dir a) then "/workspace" else as_working_dir a)
      DEFAULT_MAX_OUTPUT_CHARS fs = Some (fs', r) →
    run_call scrub removable builtin_names tool_name a fs
      (frames_for scrub (λ _, fe_missing env) removable (cr_stdout r) (cr_stderr r) (cr_exit_code r) fs').2
| RunBuiltinPanicked :
    tool_name ∈ builtin_names →
    dispatch_builtin tool_name (as_args a) (if str_is_empty (as_working_dir a) then "/workspace" else as_working_dir a)
      DEFAULT_MAX_OUTPUT_CHARS fs = None →
    run_call scrub removable builtin_names tool_name a fs []
| RunDispatcher frames :
    tool_name ∉ builtin_names →
    stream_frames scrub (λ _, fe_missing env) removable 0 fs frames →
    run_call scrub removable builtin_names tool_name a fs frames.
End builtins.

(** ** Decimal digits *)

Lemma pretty_go_upper k x s : (x < 10 ^ N.of_nat k)%N → length (B (pretty_N_go x s)) ≤ k + length (B s).
Proof.
  revert x s. induction k as [|k IH]; intros x s Hx.
  - assert (x = 0%N) as -> by (simpl in Hx; lia). by rewrite pretty_N_go_0.
  - destruct (decide (x = 0%N)) as [->|Hne]; [rewrite pretty_N_go_0; lia|]. rewrite pretty_N_go_step by lia.
    etrans; [apply IH|].
    + apply N.Div0.div_lt_upper_bound. rewrite Nat2N.inj_succ, N.pow_succ_r' in Hx. lia.
    + unfold B. simpl. lia.
Qed.

Lemma pretty_go_ge x s : length (B s) ≤ length (B (pretty_N_go x s)).
Proof.
  revert s. induction (N.lt_wf_0 x) as [x _ IH]; intros s. destruct (decide (x = 0%N)) as [->|Hne]; [by rewrite pretty_N_go_0|].
  rewrite pretty_N_go_step by lia. etrans; [|apply IH; apply N.div_lt; lia]. unfold B. simpl. lia.
Qed.

Lemma pretty_go_lower k x s : (10 ^ N.of_nat k ≤ x)%N → S k + length (B s) ≤ length (B (pretty_N_go x s)).
Proof.
  revert x s. induction k as [|k IH]; intros x s Hx.
  - simpl in Hx. rewrite pretty_N_go_step by lia. etrans; [|apply pretty_go_ge]. unfold B. simpl. lia.
  - rewrite Nat2N.inj_succ, N.pow_succ_r' in Hx. pose proof (N.pow_nonzero 10 (N.of_nat k) ltac:(lia)).
    rewrite pretty_N_go_step by lia. etrans; [|apply IH]; [unfold B; simpl; lia|]. apply N.div_le_lower_bound; lia.
Qed.

Lemma digits_upper k n : 1 ≤ k → (n < 10 ^ N.of_nat k)%N → length (B (pretty n)) ≤ k.
Proof.
  intros Hk Hn. unfold pretty, pretty_N. case_decide; [simpl; unfold B; simpl; lia|].
  pose proof (pretty_go_upper k n "" Hn). unfold B in *. simpl in *. lia.
Qed.

Lemma digits_bound n : (n < 10 ^ N.of_nat (length (B (pretty n))))%N.
Proof.
  destruct (decide (n = 0%N)) as [->|Hne]; [done|]. apply N.lt_nge. intros Hle.
  unfold pretty, pretty_N in Hle. rewrite decide_False in Hle by done.
  pose proof (pretty_go_lower _ _ "" Hle). lia.
Qed.

Lemma digits_pos (n : N) : 1 ≤ length (B (pretty n)).
Proof.
  unfold pretty, pretty_N. case_decide as Hn; [done|]. pose proof (pretty_go_lower 0 n "" ltac:(simpl; lia)). lia.
Qed.

Lemma marker_length n : length (truncation_marker n) = 31 + length (B (pretty n)).
Proof. unfold truncation_marker. simpl. rewrite !length_app. simpl. lia. Qed.

(** The marker takes at most one digit more than was reckoned with. *)
Lemma marker_digits a d : 1 ≤ d → (a < 10 ^ N.of_nat d)%N → length (B (pretty (a + 31 + N.of_nat d)%N)) ≤ S d.
Proof.
  intros Hd Ha. apply digits_upper; [lia|]. rewrite Nat2N.inj_succ, N.pow_succ_r'.
  assert (10 ≤ 10 ^ N.of_nat d)%N as H10.
  { change 10%N with (10 ^ 1)%N at 1. apply N.pow_le_mono_r; lia. }
  pose proof (N.pow_gt_lin_r 10 (N.of_nat d) ltac:(lia)). lia.
Qed.

(** ** Truncation *)

Lemma slice_to_Some s i r : slice_to s i = Some r → r = take i s.
Proof. unfold slice_to. destruct (is_char_boundary s i); naive_solver. Qed.
Lemma slice_from_Some s i r : slice_from s i = Some r → r = drop i s.
Proof. unfold slice_from. destruct (is_char_boundary s i); naive_solver. Qed.

Lemma slice_ascii s i :
  Forall (λ c, is_continuation c = false) s → i ≤ length s → is_Some (slice_to s i) ∧ is_Some (slice_from s i).
Proof.
  intros Ha Hi. unfold slice_to, slice_from. assert (is_char_boundary s i = true) as ->; [|by split].
  unfold is_char_boundary. destruct (s !! i) as [c|] eqn:E.
  - apply negb_true_iff. by eapply Forall_lookup_1 in Ha.
  - apply lookup_ge_None in E. apply Nat.eqb_eq. lia.
Qed.

(** What is left of an output that is too long: a front part of it, or a front
    and a back part with the number of the bytes between them. *)
Definition shortened (output r : bytes) : Prop :=
  r `prefix_of` output ∨
  ∃ head cut tail, output = head ++ cut ++ tail ∧ r = head ++ truncation_marker (N.of_nat (length cut)) ++ tail.

(** C34. Truncated output keeps both ends: a text within the limit is not
    changed; a longer one becomes a front part, or a front and a back part with
    the exact number of the bytes left out between them, of at most one byte
    more than the limit. An ASCII text is always truncated, without a panic. *)
Theorem truncate_middle_bounds output max_chars :
  (length output ≤ max_chars → truncate_middle output max_chars = Some output) ∧
  (∀ r, truncate_middle output max_chars = Some r → max_chars < length output →
     shortened output r ∧ length r ≤ S max_chars) ∧
  (Forall (λ c, is_continuation c = false) output → is_Some (truncate_middle output max_chars)).
Proof.
  unfold truncate_middle. set (a := length output - max_chars). set (d := length (B (pretty (N.of_nat a)))).
  rewrite marker_length. change (31 + length (B (pretty 0%N)) - 1 + d) with (31 + d).
  remember (max_chars - (31 + d)) as available eqn:Hav. remember (available * 2 / 5) as head_len eqn:Hhead.
  assert (head_len ≤ available) as Hh by (subst head_len; apply Nat.Div0.div_le_upper_bound; lia).
  assert (a = length output - max_chars) as Ha by done. clearbody a.
  split; [by intros ->%Nat.leb_le|]. split.
  - intros r Hr Hlen. destruct (length output <=? max_chars) eqn:E; [apply Nat.leb_le in E; lia|].
    destruct (max_chars <=? _) eqn:E2.
    { apply slice_to_Some in Hr as ->. split; [left; by exists (drop max_chars output); rewrite take_drop|].
      rewrite length_take. lia. }
    apply Nat.leb_gt in E2. apply bind_Some in Hr as (head & ->%slice_to_Some & Hr).
    apply bind_Some in Hr as (tail & ->%slice_from_Some & Hr). apply (inj Some) in Hr as <-.
    set (n := length output - head_len - (available - head_len)).
    assert (n = a + 31 + d) as Hn by (unfold n; lia). split.
    + right. exists (take head_len output), (take n (drop head_len output)), (drop (length output - (available - head_len)) output).
      split.
      * rewrite <- (take_drop head_len output) at 1. f_equal. rewrite <- (take_drop n (drop head_len output)) at 1. f_equal.
        rewrite drop_drop. f_equal. lia.
      * assert (length (take n (drop head_len output)) = n) as ->; [|done]. rewrite length_take, length_drop. unfold n. lia.
    + rewrite !length_app, marker_length, length_take, length_drop, Hn, !Nat2N.inj_add.
      pose proof (marker_digits (N.of_nat a) d (digits_pos _) (digits_bound _)).
      change (N.of_nat 31) with 31%N. lia.
  - intros Hascii. destruct (length output <=? max_chars) eqn:E; [done|]. apply Nat.leb_gt in E.
    destruct (max_chars <=? 31 + d); [apply slice_ascii; [done|lia]|].
    destruct (slice_ascii output head_len Hascii ltac:(lia)) as [[h ->] _].
    destruct (slice_ascii output (length output - (available - head_len)) Hascii ltac:(lia)) as [_ [t ->]]. done.
Qed.

(** The limit is missed by one when the number of bytes left out has a digit
    more than the excess. *)
Example truncation_over_limit : length <$> truncate_middle (replicate 205 "a"%char) 200 = Some 201.
Proof. by vm_compute. Qed.

(** ** Editing *)

Lemma find_split_Some pat s pre post :
  find_split pat s = Some (pre, post) →
  s = pre ++ pat ++ post ∧ ∀ pre' post', s = pre' ++ pat ++ post' → length pre ≤ length pre'.
Proof.
  revert pre. induction s as [|c s IH]; intros pre; simpl.
  - destruct (strip_prefix pat []) as [r|] eqn:E; [|done]. intros [= <- <-]. apply strip_prefix_Some in E.
    split; [done|]. intros. simpl. lia.
  - destruct (strip_prefix pat (c :: s)) as [r|] eqn:E.
    + intros [= <- <-]. apply strip_prefix_Some in E. split; [done|]. intros. simpl. lia.
    + intros ([pre' post'] & Hf & [= <- <-])%bind_Some. apply IH in Hf as [-> Hmin]. split; [done|].
      intros [|x pre''] post'' Heq.
      * apply strip_prefix_None in E. exfalso. apply E. by exists post''.
      * simplify_eq/=. apply le_n_S. by eapply Hmin.
Qed.

Lemma find_split_None pat s : find_split pat s = None → ¬ sub pat s.
Proof.
  induction s as [|c s IH]; simpl.
  - destruct (strip_prefix pat []) eqn:E; [done|]. intros _ (l & r & H). apply strip_prefix_None in E. apply E.
    destruct l, pat; simplify_eq/=; by exists [].
  - destruct (strip_prefix pat (c :: s)) as [r|] eqn:E; [done|].
    intros H (l & r & Hs). destruct (find_split pat s) as [[]|]; [done|]. destruct l as [|x l]; simplify_eq/=.
    + apply strip_prefix_None in E. apply E. by exists r.
    + apply IH; [done|]. by exists l, r.
Qed.

Lemma count_go_skip pat k s : count_go pat k s = count_go pat 0 (drop k s).
Proof.
  revert k. induction s as [|c s IH]; intros k; simpl; [by rewrite drop_nil|]. destruct k as [|k]; [done|]. by rewrite IH.
Qed.

Lemma count_go_find pat s :
  pat ≠ [] →
  count_go pat 0 s = match find_split pat s with Some (_, post) => S (count_go pat 0 post) | None => 0 end.
Proof.
  intros Hp. induction s as [|c s IH]; cbn [count_go find_split].
  - destruct (strip_prefix pat []) as [r|] eqn:E; [|done]. apply strip_prefix_Some in E. by destruct pat.
  - destruct (strip_prefix pat (c :: s)) as [r|] eqn:E.
    + apply strip_prefix_Some in E as Eq. assert (starts_with pat (c :: s) = true) as -> by (apply starts_with_spec; eauto).
      rewrite count_go_skip. destruct pat as [|a pat]; [done|]. simplify_eq/=. by rewrite Nat.sub_0_r, drop_app_length.
    + assert (starts_with pat (c :: s) = false) as ->.
      { destruct (starts_with pat (c :: s)) eqn:F; [|done]. apply starts_with_spec in F. by apply strip_prefix_None in E. }
      rewrite IH. by destruct (find_split pat s) as [[]|].
Qed.

(** An edit that gives up before it writes. *)
Ltac refused := by intros [= <- <-]; split; [|left].

(** An edit changes what it was asked to and nothing else: if it reports
    success, the file was text of at most a megabyte that holds the old string,
    not again after its first occurrence, and that occurrence alone is now the
    new string; every other file is as it was. If it reports an error, no file
    has changed, unless the write itself failed. *)
Theorem edit_replaces_unique env args fs fs' r :
  execute_edit env args fs = (fs', r) →
  (cr_exit_code r = 0%Z →
   ∃ path old new pre post,
     args !! "path" = Some path ∧ args !! "old_string" = Some old ∧ args !! "new_string" = Some new ∧ old ≠ new ∧
     fs !! path = Some (pre ++ B old ++ post) ∧ (N.of_nat (length (pre ++ B old ++ post)) ≤ READ_FILE_CAP_BYTES)%N ∧
     (∀ pre' post', pre ++ B old ++ post = pre' ++ B old ++ post' → length pre ≤ length pre') ∧
     (old ≠ "" → ¬ sub (B old) post) ∧
     fs' = <[path := pre ++ B new ++ post]> fs) ∧
  (cr_exit_code r ≠ 0%Z → fs' = fs ∨ ∃ path e left_behind, fe_write env path = WriteFailed e left_behind).
Proof.
  unfold execute_edit, require, check_size_cap, metadata_len, read_text.
  destruct (args !! "path") as [path|]; simpl; [|refused].
  destruct (args !! "old_string") as [old|]; simpl; [|refused].
  destruct (args !! "new_string") as [new|]; simpl; [|refused].
  case_decide as Hne; simpl; [refused|].
  destruct (fs !! path) as [content|] eqn:Ef; simpl; [|refused].
  destruct (fe_meta env path); simpl; [refused|].
  destruct (READ_FILE_CAP_BYTES <? _)%N eqn:Ecap; simpl; [refused|].
  destruct (fe_read env path); simpl; [refused|].
  destruct (utf8_valid content); simpl; [|refused].
  case_decide as H0; simpl; [refused|].
  case_decide as H1; simpl; [refused|].
  unfold write_file. destruct (fe_write env path) as [|e [partial|]] eqn:Ew; intros [= <- <-]; simpl;
    [|by split; [|right; eauto]..].
  split; [|done]. intros _. unfold replace_first. destruct (find_split (B old) content) as [[pre post]|] eqn:Es.
  - apply find_split_Some in Es as Hs. destruct Hs as [-> Hmin]. apply N.ltb_ge in Ecap.
    exists path, old, new, pre, post. split_and!; try done. intros Ho.
    assert (B old ≠ []) as Hb by (by rewrite B_nil). unfold count_matches in H0, H1.
    assert (count_go (B old) 0 post = 0) as Hc.
    { rewrite (count_go_find (B old) (pre ++ _)), Es in H0, H1 by done. destruct (B old); [done|]. lia. }
    rewrite count_go_find in Hc by done. destruct (find_split (B old) post) as [[]|] eqn:Ep; [done|].
    by apply find_split_None.
  - exfalso. apply H0. unfold count_matches. destruct (B old) as [|c pat] eqn:Eo; [|by rewrite count_go_find, Es].
    destruct content; done.
Qed.

(** Matches that overlap count once, so the old string may be ambiguous all the
    same: here it is at two places. *)
Example overlapping_match_edited :
  let env := mkFsEnv "" (λ _, None) (λ _, None) (λ _, None) (λ _, WriteDone) in
  (execute_edit env {[ "path" := "f"; "old_string" := "aa"; "new_string" := "b" ]} {[ "f" := B "aaa" ]}).1 !! "f"
  = Some (B "ba").
Proof. by vm_compute. Qed.

(** ** Reading *)

Definition numbered (n : nat) (line : bytes) : bytes := B (pretty (N.of_nat n)) ++ B "|" ++ line ++ [newline].

Lemma numbered_app n line rest :
  numbered n line ++ rest = B (pretty (N.of_nat n)) ++ B "|" ++ line ++ [newline] ++ rest.
Proof. unfold numbered. by rewrite <- !app_assoc. Qed.

Lemma number_lines_page idx offset limit included lines :
  number_lines (N.of_nat idx) offset limit included lines
  = mjoin (take (N.to_nat (limit - included)) (drop (N.to_nat offset - 1 - idx) (imap (λ i, numbered (S (idx + i))) lines))).
Proof.
  revert idx included. induction lines as [|line lines IH]; intros idx included; cbn [number_lines].
  - rewrite imap_nil, drop_nil, take_nil. done.
  - rewrite imap_cons. replace (N.of_nat idx + 1)%N with (N.of_nat (S idx)) by lia.
    assert (imap ((λ i, numbered (S (idx + i))) ∘ S) lines = imap (λ i, numbered (S (S idx + i))) lines) as ->.
    { apply imap_ext. intros i x _. simpl. by rewrite Nat.add_succ_r. }
    destruct (N.of_nat (S idx) <? offset)%N eqn:E1.
    + apply N.ltb_lt in E1. rewrite IH. destruct (N.to_nat offset - 1 - idx) as [|k] eqn:Ek; [lia|]. simpl.
      by replace (N.to_nat offset - 1 - S idx) with k by lia.
    + apply N.ltb_ge in E1. replace (N.to_nat offset - 1 - idx) with 0 by lia. rewrite drop_0.
      destruct (limit <=? included)%N eqn:E2.
      * apply N.leb_le in E2. by replace (N.to_nat (limit - included)) with 0 by lia.
      * apply N.leb_gt in E2. destruct (N.to_nat (limit - included)) as [|k] eqn:Ek; [lia|]. rewrite firstn_cons.
        rewrite IH. cbn [mjoin list_join]. rewrite numbered_app, Nat.add_0_r.
        replace (N.to_nat offset - 1 - S idx) with 0 by lia. rewrite drop_0.
        by replace (N.to_nat (limit - (included + 1))) with k by lia.
Qed.

(** What [Read] prints of a file is the page that was asked for: the lines
    from [offset] (the first is 1) on, at most [limit] of them, each with its
    number in the file. *)
Theorem read_prints_page env args fs path content :
  args !! "path" = Some path → fs !! path = Some content → utf8_valid content = true →
  fe_meta env path = None → fe_read env path = None → (N.of_nat (length content) ≤ READ_FILE_CAP_BYTES)%N →
  execute_read env args fs
  = ok_result (str_of (mjoin (take (N.to_nat (parse_optional args "limit" u64_max))
      (drop (N.to_nat (parse_optional args "offset" 1 `max` 1) - 1) (imap (λ i, numbered (S i)) (lines_bytes content)))))).
Proof.
  intros Hp Hf Hu Hm Hr Hl. unfold execute_read, require, check_size_cap, metadata_len, read_text.
  rewrite Hp. simpl. rewrite Hf, Hm. simpl. rewrite (proj2 (N.ltb_ge _ _) Hl). simpl. rewrite Hr, Hu. simpl.
  rewrite (number_lines_page 0), N.sub_0_r, Nat.sub_0_r. done.
Qed.

(** ** The pod *)

(** The frames of a call are call frames, unless a builtin's output could not
    be truncated. *)
Lemma run_call_frames env to_lowercase shell rg set removable builtin_names tool_name a fs frames :
  run_call env to_lowercase shell rg set removable builtin_names tool_name a fs frames →
  frames = [] ∧ tool_name ∈ builtin_names ∨ call_frames set frames.
Proof.
  intros Hr. destruct Hr as [fs' r _ _|Hb _|frames _ Hs]; [right; apply frames_for_call|by left|].
  right. by eapply stream_frames_call.
Qed.

(** No text of call frames holds a form of a registered secret. *)
Lemma call_frames_redacted b64 url secrets name value v frames :
  let set := from_secrets b64 url secrets in
  tags_opaque set = true → call_frames set frames → (name, value) ∈ secrets → str_trim value ≠ "" →
  v ∈ [str_trim value; b64 (str_trim value); url (str_trim value)] →
  ∀ f text, f ∈ frames → frame_text f = Some text → ¬ sub (B v) (B text).
Proof.
  intros set Ho (output & outcome & code & -> & Hout) Hs Hne Hv f text Hin Ht.
  apply elem_of_app in Hin as [Hin|Hin%list_elem_of_singleton]; [|by subst f].
  rewrite Forall_forall in Hout. destruct (Hout f Hin) as [_ Hf]. destruct (Hf text Ht) as [s ->].
  by eapply scrub_no_variant.
Qed.


Definition calm : FsEnv := mkFsEnv "not found" (λ _, None) (λ _, None) (λ _, None) (λ _, WriteDone).
Definition no_rg (_ : Command) : result (option Z * bytes * bytes) string := Err "no rg".
Definition printing (out : bytes) (_ : Command) (_ : N) : ChildRun := Ok (out, [], ChildExited (Some 0%Z) None).
Definition shell_call : ToolCallAssignment := mkAssignment "c1" {[ "command" := "cat key" ]} "".


Lemma edit_replaces_unique_witness :
  let args := {[ "path" := "f"; "old_string" := "b"; "new_string" := "xx" ]} in
  let fs := {[ "f" := B "abc" ]} in
  ((execute_edit calm args fs).2 = ok_result "edited f") ∧
  (cr_exit_code (ok_result "edited f") = 0%Z →
   ∃ path old new pre post,
     args !! "path" = Some path ∧ args !! "old_string" = Some old ∧ args !! "new_string" = Some new ∧ old ≠ new ∧
     fs !! path = Some (pre ++ B old ++ post) ∧ (N.of_nat (length (pre ++ B old ++ post)) ≤ READ_FILE_CAP_BYTES)%N ∧
     (∀ pre' post', pre ++ B old ++ post = pre' ++ B old ++ post' → length pre ≤ length pre') ∧
     (old ≠ "" → ¬ sub (B old) post) ∧
     (execute_edit calm args fs).1 = <[path := pre ++ B new ++ post]> fs).
Proof.
  split; [by vm_compute|].
  refine (proj1 (edit_replaces_unique calm {[ "path" := "f"; "old_string" := "b"; "new_string" := "xx" ]}
            {[ "f" := B "abc" ]} _ (ok_result "edited f") _)).
  apply injective_projections; [reflexivity|by vm_compute].
Defined.

Lemma read_prints_page_witness :
  execute_read calm {[ "path" := "f"; "offset" := "2"; "limit" := "1" ]} {[ "f" := B "a" ++ newline :: B "b" ++ newline :: B "c" ]}
  = ok_result (str_of (B "2|b" ++ [newline])).
Proof.
  refine (eq_trans (read_prints_page calm _ _ "f" (B "a" ++ newline :: B "b" ++ newline :: B "c") _ _ _ _ _ _) _);
    by vm_compute.
Defined.

(** Output is truncated before it is scrubbed: a secret that the cut goes
    through is not recognised any more, and all of it but its last letter goes
    to the model. *)
Theorem truncation_cuts_secret :
  let output := B "0123456" ++ B "hunter2" ++ replicate 200 "."%char in
  ∃ fs r text rest,
    dispatch_builtin calm (λ s, s) (printing output) no_rg "Shell" (as_args shell_call) "/workspace" 67 ∅ = Some (fs, r) ∧
    (frames_for (key_set "hunter2") no_file (λ _, true) (cr_stdout r) (cr_stderr r) (cr_exit_code r) fs).2
      = stdout_frame text :: rest ∧
    text = "0123456hunter".
Proof. eexists _, _, _, _. split; [vm_compute; reflexivity|]. split; [vm_compute; reflexivity|]. vm_compute. reflexivity. Qed.

(** Output that is not ASCII can end the call: the cut is made at a byte
    position whatever character it falls into, so a builtin that prints enough
    accented letters panics and sends no frame at all. *)
Theorem accented_output_panics :
  ∃ output, utf8_valid output = true ∧
    dispatch_builtin calm (λ s, s) (printing output) no_rg "Shell" (as_args shell_call) "/workspace" 100 ∅ = None.
Proof.
  exists ("x"%char :: mjoin (replicate 100 [byte_of 195; byte_of 169])). split; by vm_compute.
Qed.
