(* ===== verification/Jobs.v ===== *)
(** * Kubernetes Job specifications

    Models [crates/harness/src/job.rs] ([build_tool_job],
    [build_inference_job] and their helpers), [sa_token_volume] of
    [crates/shared/src/podspec.rs], [hardened_security_context] of
    [crates/shared/src/lib.rs] and [SchedulingConfig] of
    [crates/shared/src/scheduling.rs]. The records have the fields the code
    sets; every other field of the Kubernetes types is left at its default.
    The JSON printer, the YAML parser, the file system and the tolerations are
    parameters; [None] is a panic. *)

From stdpp Require Import pretty.
From S2P Require Import Prelude Text Proto Scrub Auth ConfigMaps Toolset Dispatch ModelDispatch Sse Providers Builtins.

(** ** The Kubernetes types *)

Record EnvVar : Type := mkEnvVar { ev_name : string; ev_value : option string }.
Record KeyToPath : Type := mkKeyToPath { kp_key : string; kp_path : string }.
Record SecretVolumeSource : Type := mkSecretVolumeSource {
  svs_secret_name : option string; svs_items : option (list KeyToPath); svs_default_mode : option Z }.
Record PersistentVolumeClaimVolumeSource : Type := mkPvcSource { pvc_claim_name : string; pvc_read_only : option bool }.
Record ServiceAccountTokenProjection : Type := mkTokenProjection {
  tp_path : string; tp_audience : option string; tp_expiration_seconds : option Z }.
Record Volume : Type := mkVolume {
  vol_name : string; vol_empty_dir : bool; vol_secret : option SecretVolumeSource;
  vol_pvc : option PersistentVolumeClaimVolumeSource;
  vol_projected : option (list ServiceAccountTokenProjection) }.
Record VolumeMount : Type := mkVolumeMount {
  vm_name : string; vm_mount_path : string; vm_sub_path : option string; vm_read_only : option bool }.
Record SecurityContext : Type := mkSecurityContext {
  sc_run_as_non_root : option bool; sc_run_as_user : option Z; sc_read_only_root_filesystem : option bool;
  sc_allow_privilege_escalation : option bool; sc_capabilities_drop : option (list string);
  sc_seccomp_profile : option string }.
Record Container : Type := mkContainer {
  c_name : string; c_image : option string; c_env : list EnvVar; c_volume_mounts : list VolumeMount;
  c_security_context : option SecurityContext; c_ports : list (N * option string); c_readiness_tcp : option N }.
Record PodSecurityContext : Type := mkPodSecurityContext {
  psc_run_as_non_root : option bool; psc_run_as_user : option Z; psc_fs_group : option Z }.
Record PodAffinityTerm : Type := mkPodAffinityTerm {
  pat_match_labels : list (string * string); pat_topology_key : string }.
Record PodSpec (T : Type) : Type := mkPodSpec {
  ps_hostname : option string; ps_subdomain : option string; ps_restart_policy : option string;
  ps_service_account_name : option string; ps_automount_service_account_token : option bool;
  ps_security_context : option PodSecurityContext; ps_share_process_namespace : option bool;
  ps_containers : list Container; ps_volumes : list Volume;
  ps_required_affinity : option (list PodAffinityTerm);
  ps_node_selector : option (list (string * string)); ps_tolerations : option (list T) }.
Arguments mkPodSpec {T}.
Arguments ps_hostname {T} _.
Arguments ps_subdomain {T} _.
Arguments ps_restart_policy {T} _.
Arguments ps_service_account_name {T} _.
Arguments ps_automount_service_account_token {T} _.
Arguments ps_security_context {T} _.
Arguments ps_share_process_namespace {T} _.
Arguments ps_containers {T} _.
Arguments ps_volumes {T} _.
Arguments ps_required_affinity {T} _.
Arguments ps_node_selector {T} _.
Arguments ps_tolerations {T} _.
Record Job (T : Type) : Type := mkJob {
  job_name : string; job_namespace : string; job_labels : list (string * string);
  job_ttl_seconds_after_finished : option Z; job_backoff_limit : option Z;
  job_active_deadline_seconds : option Z;
  job_pod_labels : list (string * string); job_pod : PodSpec T }.
Arguments mkJob {T}.
Arguments job_name {T} _.
Arguments job_namespace {T} _.
Arguments job_labels {T} _.
Arguments job_ttl_seconds_after_finished {T} _.
Arguments job_backoff_limit {T} _.
Arguments job_active_deadline_seconds {T} _.
Arguments job_pod_labels {T} _.
Arguments job_pod {T} _.

(** ** Scheduling *)

Record SchedulingConfig (T : Type) : Type := mkScheduling {
  node_selector : list (string * string); tolerations : list T }.
Arguments mkScheduling {T}.
Arguments node_selector {T} _.
Arguments tolerations {T} _.

Section scheduling.
Context {T : Type} (read_to_string : string → result string string)
        (yaml_parse : string → result (SchedulingConfig T) string).

Definition scheduling_load (path : string) : result (SchedulingConfig T) string :=
  let? content := map_err (λ e, "failed to read scheduling config " +:+ path +:+ ": " +:+ e) (read_to_string path) in
  map_err (λ e, "failed to parse scheduling YAML: " +:+ e) (yaml_parse content).

Definition scheduling_load_or_default (path : string) (has_kube : bool) : result (SchedulingConfig T) string :=
  if negb has_kube then Ok (mkScheduling [] []) else
  match scheduling_load path with
  | Ok s => Ok s
  | Err e => Err ("scheduling config required in-cluster: " +:+ e)
  end.
End scheduling.

Definition scheduling_is_empty {T} (s : SchedulingConfig T) : bool :=
  match node_selector s, tolerations s with [], [] => true | _, _ => false end.

(** [if v.is_empty() { None } else { Some(v.clone()) }]. *)
Definition some_nonempty {A} (l : list A) : option (list A) := match l with [] => None | _ => Some l end.

(** ** Shared fragments *)

Definition hardened_security_context : SecurityContext :=
  mkSecurityContext (Some true) (Some 1000%Z) (Some true) (Some false) (Some ["ALL"]) (Some "RuntimeDefault").

Definition sa_token_volume (volume_name audience : string) : Volume * VolumeMount :=
  (mkVolume volume_name false None None (Some [mkTokenProjection "token" (Some audience) (Some 3600%Z)]),
   mkVolumeMount volume_name "/var/run/secrets/kubernetes.io/serviceaccount" None (Some true)).

Definition TOOL_TOOLSET_AUDIENCE : string := "tool.toolset.sycophant.md".

Definition GRANT_MOUNT_PATH : string := "/run/secrets/grant".
Definition GRANT_CREDENTIAL_PATH : string := "/run/secrets/grant/credential".
Definition TOOL_JOB_DEFAULT_DEADLINE_SECONDS : Z := 3600.
Definition PROVIDER_MOUNT_PATH : string := "/run/secrets/provider".
Definition PROVIDER_CREDENTIAL_PATH : string := "/run/secrets/provider/credential".
Definition INFERENCE_JOB_DEADLINE_SECONDS : Z := 3600.

Record SecretMapping : Type := mkSecretMapping { sm_secret : string; sm_file : string }.

Definition workspace_affinity (workspace_name : string) : list PodAffinityTerm :=
  [mkPodAffinityTerm (bt_insert "sycophant.md/workspace" workspace_name []) "kubernetes.io/hostname"].

(** An [EnvVar] with a literal value. *)
Definition env_value (name value : string) : EnvVar := mkEnvVar name (Some value).

Definition push_forwarded_env (env_vars : list EnvVar) (entry : ToolsetEntry) : list EnvVar :=
  env_vars ++ ((λ nv, env_value nv.1 nv.2) <$> forwarded_env entry).

Definition secret_basename (file_path secret_name : string) : string := default secret_name (file_name file_path).

Definition secret_volume (vol_name secret_name basename : string) : Volume :=
  mkVolume vol_name false
    (Some (mkSecretVolumeSource (Some secret_name) (Some [mkKeyToPath secret_name basename]) (Some 288%Z)))
    None None.

(** An [EmptyDir] volume and its mount. *)
Definition empty_dir_volume (name : string) : Volume := mkVolume name true None None None.
Definition plain_mount (name path : string) : VolumeMount := mkVolumeMount name path None None.

Definition pod_security : PodSecurityContext := mkPodSecurityContext (Some true) (Some 1000%Z) (Some 1000%Z).

(** [labels.insert] of several pairs in turn. *)
Definition insert_labels (kvs : list (string * string)) : list (string * string) :=
  foldl (λ m kv, bt_insert kv.1 kv.2 m) [] kvs.

(** [&call_id[..8]]. *)
Definition short_id (call_id : string) : option string := str_of <$> slice_to (B call_id) 8.

(** ** Building Jobs *)

(** What a mounted credential adds to a pod: its volume, its mount and the
    variables of its container. *)
Record Staged : Type := mkStaged { st_volumes : list Volume; st_mounts : list VolumeMount; st_env : list EnvVar }.

Section jobs.
Context {Num T : Type} (json_to_string : Json Num → string).

Definition scrub_entry_json (s : SecretMapping) : Json Num :=
  json_obj [("name", JString (sm_secret s)); ("file", JString (sm_file s))].

Definition scrub_secrets_env (secrets : list SecretMapping) : option EnvVar :=
  match secrets with
  | [] => None
  | _ => Some (env_value "TOOLSET_SCRUB_SECRETS" (json_to_string (JArray (scrub_entry_json <$> secrets))))
  end.

Definition credential_map (staging target : string) : string :=
  json_to_string (JArray [json_obj [("staging", JString staging); ("target", JString target)]]).

Definition staging_path (vol_name basename : string) : string :=
  "/tmp/credentials/" +:+ vol_name +:+ "/" +:+ basename.

Definition grant_target (grant : CapabilityGrant) : string := default GRANT_CREDENTIAL_PATH (grant_path grant).

Definition stage_grant (grant : option (string * CapabilityGrant)) : Staged :=
  match grant with
  | None => mkStaged [] [] []
  | Some (_, grant) =>
      let target_path := grant_target grant in
      let vol_name := "grant-credential" in
      let basename := secret_basename target_path (grant_secret grant) in
      let staging := staging_path vol_name basename in
      mkStaged [secret_volume vol_name (grant_secret grant) basename]
        [mkVolumeMount vol_name staging (Some basename) (Some true)]
        ([env_value "TOOLSET_CREDENTIAL_MAP" (credential_map staging target_path)]
         ++ option_list (scrub_secrets_env [mkSecretMapping (grant_secret grant) target_path]))
  end.

Definition tool_env (tool_name : string) (entry : ToolsetEntry) (staged : Staged) : list EnvVar :=
  push_forwarded_env
    ([env_value "TOOLSET_TOOL_NAME" tool_name]
     ++ (if te_keepalive entry then [env_value "TOOLSET_KEEPALIVE" "true"] else [])
     ++ [env_value "HOME" "/home/agent"]) entry
  ++ st_env staged.

Definition tool_volumes (workspace_pvc : string) (staged : Staged) : list Volume :=
  [empty_dir_volume "tmp"; empty_dir_volume "home"; empty_dir_volume "grant";
   mkVolume "workspace" false None (Some (mkPvcSource workspace_pvc None)) None]
  ++ st_volumes staged ++ [(sa_token_volume "tool-job-auth" TOOL_TOOLSET_AUDIENCE).1].

Definition tool_mounts (staged : Staged) : list VolumeMount :=
  [plain_mount "tmp" "/tmp"; plain_mount "home" "/home/agent"; plain_mount "grant" GRANT_MOUNT_PATH;
   plain_mount "workspace" WORKSPACE_MOUNT_PATH]
  ++ st_mounts staged ++ [(sa_token_volume "tool-job-auth" TOOL_TOOLSET_AUDIENCE).2].

Definition tool_container (entry : ToolsetEntry) (env_vars : list EnvVar) (mounts : list VolumeMount) : Container :=
  mkContainer "runtime" (Some (default "" (te_image entry))) env_vars mounts (Some hardened_security_context)
    [(TOOL_JOB_PORT, Some "tool-job")] (Some TOOL_JOB_PORT).

Definition tool_labels (tool_name toolset_name call_id workspace_name : string) : list (string * string) :=
  insert_labels [("app.kubernetes.io/part-of", "sycophant"); ("sycophant.md/tool", tool_name);
    ("sycophant.md/call-id", call_id); ("sycophant.md/toolset", toolset_name);
    ("sycophant.md/workspace", workspace_name)].

Definition tool_pod_labels (tool_name toolset_name workspace_name : string)
    (grant : option (string * CapabilityGrant)) : list (string * string) :=
  let pod_labels := insert_labels [("app.kubernetes.io/component", "capability-job");
    ("app.kubernetes.io/part-of", "sycophant"); ("sycophant.md/toolset", toolset_name);
    ("sycophant.md/tool", tool_name); ("sycophant.md/workspace", workspace_name)] in
  match grant with Some (grant_name, _) => bt_insert "sycophant.md/grant" grant_name pod_labels | None => pod_labels end.

Definition tool_pod_spec (entry : ToolsetEntry) (call_id service_name workspace_name : string)
    (scheduling : SchedulingConfig T) (container : Container) (volumes : list Volume) : PodSpec T :=
  mkPodSpec (Some call_id) (Some service_name) (Some (if te_keepalive entry then "OnFailure" else "Never"))
    (Some (unprivileged_sa workspace_name)) (Some false) (Some pod_security) (Some false)
    [container] volumes (Some (workspace_affinity workspace_name))
    (some_nonempty (node_selector scheduling)) (some_nonempty (tolerations scheduling)).

Definition build_tool_job (tool_name toolset_name : string) (entry : ToolsetEntry)
    (call_id namespace service_name workspace_name workspace_pvc : string)
    (scheduling : SchedulingConfig T) (grant : option (string * CapabilityGrant)) : option (Job T) :=
  id8 ← short_id call_id;
  let job_name := "tool-" +:+ tool_name_to_k8s_segment tool_name +:+ "-" +:+ id8 in
  let staged := stage_grant grant in
  let container := tool_container entry (tool_env tool_name entry staged) (tool_mounts staged) in
  Some (mkJob job_name namespace (tool_labels tool_name toolset_name call_id workspace_name)
    (Some 30%Z) (Some 0%Z) (Some (default TOOL_JOB_DEFAULT_DEADLINE_SECONDS (te_deadline_seconds entry)))
    (tool_pod_labels tool_name toolset_name workspace_name grant)
    (tool_pod_spec entry call_id service_name workspace_name scheduling container (tool_volumes workspace_pvc staged))).

Definition stage_provider (secret : option string) : Staged :=
  match secret with
  | None => mkStaged [] [] []
  | Some secret =>
      let target_path := PROVIDER_CREDENTIAL_PATH in
      let vol_name := "provider-credential" in
      let basename := secret_basename target_path secret in
      let staging := staging_path vol_name basename in
      mkStaged [secret_volume vol_name secret basename]
        [mkVolumeMount vol_name staging (Some basename) (Some true)]
        ([env_value "TOOLSET_CREDENTIAL_MAP" (credential_map staging target_path);
          env_value "INFERENCE_API_KEY_FILE" target_path]
         ++ option_list (scrub_secrets_env [mkSecretMapping secret target_path]))
  end.

Definition inference_env (base_url format model : string) (staged : Staged) : list EnvVar :=
  [env_value "INFERENCE_BASE_URL" base_url; env_value "INFERENCE_FORMAT" format;
   env_value "INFERENCE_MODEL" model; env_value "HOME" "/home/agent"] ++ st_env staged.

Definition inference_volumes (staged : Staged) : list Volume :=
  [empty_dir_volume "tmp"; empty_dir_volume "home"; empty_dir_volume "provider"] ++ st_volumes staged.

Definition inference_mounts (staged : Staged) : list VolumeMount :=
  [plain_mount "tmp" "/tmp"; plain_mount "home" "/home/agent"; plain_mount "provider" PROVIDER_MOUNT_PATH]
  ++ st_mounts staged.

Definition inference_container (image : string) (env_vars : list EnvVar) (mounts : list VolumeMount) : Container :=
  mkContainer "runtime" (Some image) env_vars mounts (Some hardened_security_context)
    [(TOOL_JOB_PORT, Some "inference")] (Some TOOL_JOB_PORT).

Definition inference_labels (call_id workspace_name : string) : list (string * string) :=
  insert_labels [("app.kubernetes.io/part-of", "sycophant"); ("sycophant.md/call-id", call_id);
    ("sycophant.md/workspace", workspace_name)].

Definition inference_pod_labels (workspace_name model_key : string) : list (string * string) :=
  insert_labels [("app.kubernetes.io/component", "capability-job"); ("app.kubernetes.io/part-of", "sycophant");
    ("sycophant.md/workspace", workspace_name); ("sycophant.md/job-kind", "inference");
    ("sycophant.md/model", model_key)].

Definition inference_pod_spec (call_id service_name workspace_name : string) (scheduling : SchedulingConfig T)
    (container : Container) (volumes : list Volume) : PodSpec T :=
  mkPodSpec (Some call_id) (Some service_name) (Some "Never")
    (Some (unprivileged_sa workspace_name)) (Some false) (Some pod_security) (Some false)
    [container] volumes None
    (some_nonempty (node_selector scheduling)) (some_nonempty (tolerations scheduling)).

(** The arguments of [build_inference_job] are the record [InferenceJob] that
    the model dispatcher hands over, and the scheduling configuration. *)
Definition build_inference_job (a : InferenceJob) (scheduling : SchedulingConfig T) : option (Job T) :=
  id8 ← short_id (ij_call_id a);
  let staged := stage_provider (ij_secret a) in
  let container := inference_container (ij_image a)
    (inference_env (ij_base_url a) (ij_format a) (ij_model a) staged) (inference_mounts staged) in
  Some (mkJob ("inference-" +:+ id8) (ij_namespace a) (inference_labels (ij_call_id a) (ij_workspace a))
    (Some 30%Z) (Some 0%Z) (Some INFERENCE_JOB_DEADLINE_SECONDS)
    (inference_pod_labels (ij_workspace a) (ij_model_key a))
    (inference_pod_spec (ij_call_id a) (ij_service_name a) (ij_workspace a) scheduling container
       (inference_volumes staged))).

(** [create_job]: the API server's answer, for the Job in its namespace. *)
Definition create_job (api_create : string → Job T → result (Job T) string) (namespace : string) (job : Job T)
  : result (Job T) string := api_create namespace job.
End jobs.

(** ** What a container sees

    When a name is listed more than once, Kubernetes gives the process the last
    value. *)

Fixpoint env_last (env : list EnvVar) (name : string) : option string :=
  match env with
  | [] => None
  | e :: env =>
      match env_last env name with
      | Some v => Some v
      | None => if decide (ev_name e = name) then Some (default "" (ev_value e)) else None
      end
  end.

(** What a pod may read or act as: the Secret items and the claims of its
    volumes, the audiences of its tokens, its account, and whether the account's
    default token is mounted too. *)
Record Authority : Type := mkAuthority {
  au_secrets : list (string * list (string * string)); au_claims : list string; au_audiences : list (option string);
  au_account : option string; au_default_token : bool }.

Definition secret_items (s : SecretVolumeSource) : string * list (string * string) :=
  (default "" (svs_secret_name s), (λ k, (kp_key k, kp_path k)) <$> default [] (svs_items s)).

Definition pod_authority {T} (p : PodSpec T) : Authority :=
  mkAuthority (omap (λ v, secret_items <$> vol_secret v) (ps_volumes p))
    (omap (λ v, pvc_claim_name <$> vol_pvc v) (ps_volumes p))
    (ps_volumes p ≫= λ v, tp_audience <$> default [] (vol_projected v))
    (ps_service_account_name p) (default true (ps_automount_service_account_token p)).

(** A container gives a process no more than an unprivileged user has. *)
Definition hardened (c : Container) : bool :=
  match c_security_context c with
  | Some s => bool_decide (sc_run_as_non_root s = Some true) && bool_decide (sc_read_only_root_filesystem s = Some true)
              && bool_decide (sc_allow_privilege_escalation s = Some false)
              && bool_decide (sc_capabilities_drop s = Some ["ALL"]) && bool_decide (sc_seccomp_profile s = Some "RuntimeDefault")
  | None => false
  end.

(** Every mount of the pod's containers is of a volume of the pod; no two
    volumes have one name and no two mounts of a container one path. *)
Definition mounts_resolve {T} (p : PodSpec T) : Prop :=
  NoDup (vol_name <$> ps_volumes p) ∧
  Forall (λ c, NoDup (vm_mount_path <$> c_volume_mounts c) ∧
               Forall (λ m, vm_name m ∈ vol_name <$> ps_volumes p) (c_volume_mounts c)) (ps_containers p).

Lemma env_last_app a b n :
  env_last (a ++ b) n = match env_last b n with Some v => Some v | None => env_last a n end.
Proof.
  induction a as [|e a IH]; simpl; [by destruct (env_last b n)|].
  rewrite IH. by destruct (env_last b n).
Qed.

Lemma env_last_None env n : n ∉ ev_name <$> env → env_last env n = None.
Proof.
  induction env as [|e env IH]; simpl; [done|]. intros [Hne Hin]%not_elem_of_cons.
  rewrite IH by done. by rewrite decide_False.
Qed.

Lemma env_last_values l n v :
  NoDup l.*1 → (n, v) ∈ l → env_last ((λ nv, env_value nv.1 nv.2) <$> l) n = Some v.
Proof.
  induction l as [|[n' v'] l IH]; csimpl; [by intros _ ?%elem_of_nil|].
  intros [Hn' Hl]%NoDup_cons Hin. apply elem_of_cons in Hin as [[= -> ->]|Hin].
  - rewrite env_last_None; [by rewrite decide_True|]. by rewrite <- list_fmap_compose.
  - by rewrite (IH Hl Hin).
Qed.

(** The variables of a toolset entry reach the container as the entry has them. *)
Lemma env_last_forwarded entry n :
  env_last ((λ nv, env_value nv.1 nv.2) <$> forwarded_env entry) n = te_env entry !! n.
Proof.
  assert (forwarded_env entry ≡ₚ map_to_list (te_env entry)) as Hp by apply sort_by_perm.
  destruct (te_env entry !! n) as [v|] eqn:E.
  - apply env_last_values; [rewrite Hp; apply NoDup_fst_map_to_list|].
    rewrite Hp. by apply elem_of_map_to_list.
  - apply env_last_None. rewrite <- list_fmap_compose, Hp. intros ([n' v'] & -> & Hin)%list_elem_of_fmap.
    apply elem_of_map_to_list in Hin. simpl in E. congruence.
Qed.

Lemma short_id_Some call_id i : short_id call_id = Some i → i = str_of (take 8 (B call_id)).
Proof. unfold short_id. intros (r & Hr & ->)%fmap_Some. by apply slice_to_Some in Hr as ->. Qed.

(** Every mount of a Secret volume is read-only and of the item the volume
    projects. *)
Definition secrets_read_only {T} (p : PodSpec T) : Prop :=
  ∀ v s m, v ∈ ps_volumes p → vol_secret v = Some s → m ∈ (ps_containers p ≫= c_volume_mounts) →
    vm_name m = vol_name v → vm_read_only m = Some true ∧ ∃ k, svs_items s = Some [k] ∧ vm_sub_path m = Some (kp_path k).

Ltac solve_nodup :=
  repeat (apply NoDup_cons; split; [rewrite ?not_elem_of_cons; split_and?; first [done | apply not_elem_of_nil]|]); try apply NoDup_nil_2.
Ltac solve_spec :=
  first
    [ done
    | by repeat constructor
    | by (split; [csimpl; solve_nodup | apply Forall_singleton; split; csimpl; [solve_nodup | ];
          repeat (apply Forall_cons; split; [simpl; set_solver|]); apply Forall_nil_2])
    | by (intros v s m Hv Hs Hm Hn; simpl in *; repeat (apply elem_of_cons in Hv as [->|Hv]; simplify_eq/=);
          try (by apply elem_of_nil in Hv); repeat (apply elem_of_cons in Hm as [->|Hm]; simplify_eq/=);
          try (by apply elem_of_nil in Hm); eauto) ].

(** ** Theorems *)

Section theorems.
Context {Num T : Type} (json_to_string : Json Num → string).
Abbreviation staged_grant := (stage_grant json_to_string).
Abbreviation build_tool := (build_tool_job (T:=T) json_to_string).
Abbreviation build_inference := (build_inference_job (T:=T) json_to_string).

(** The Secrets of a credential's volume: the one item named for the Secret. *)
Definition granted_secrets (grant : option (string * CapabilityGrant)) : list (string * list (string * string)) :=
  match grant with
  | Some (_, g) => [(grant_secret g, [(grant_secret g, secret_basename (grant_target g) (grant_secret g))])]
  | None => []
  end.

(** The name of a tool's Job is the one the dispatcher records for the call. *)
Theorem tool_job_name_recorded tool toolset entry call_id ns svc ws pvc sched grant job args g ka :
  build_tool tool toolset entry call_id ns svc ws pvc sched grant = Some job →
  job_name job = tool_job_name (mkCallReq call_id tool args g ka).
Proof. unfold build_tool_job. intros (i & Hi & [= <-])%bind_Some. by rewrite (short_id_Some _ _ Hi). Qed.

(** Only an id shorter than eight bytes, or one whose eighth byte is inside a
    character, has no Job. *)
Theorem tool_job_built tool toolset entry call_id ns svc ws pvc sched grant :
  is_Some (build_tool tool toolset entry call_id ns svc ws pvc sched grant) ↔
  is_char_boundary (B call_id) 8 = true.
Proof.
  unfold build_tool_job, short_id, slice_to. destruct (is_char_boundary (B call_id) 8); simpl; split; try done.
Qed.


(** An inference pod's only authority is the item of its provider's Secret: it
    has no claim and no token. *)
Theorem inference_pod_authority a sched job :
  build_inference a sched = Some job →
  pod_authority (job_pod job) =
    mkAuthority ((λ s, (s, [(s, "credential")])) <$> option_list (ij_secret a)) [] []
      (Some (unprivileged_sa (ij_workspace a))) false ∧
  bt_get "sycophant.md/job-kind" (job_pod_labels job) = Some "inference" ∧
  bt_get "sycophant.md/model" (job_pod_labels job) = Some (ij_model_key a) ∧
  bt_get "sycophant.md/workspace" (job_pod_labels job) = Some (ij_workspace a) ∧
  Forall (λ c, hardened c = true) (ps_containers (job_pod job)) ∧
  mounts_resolve (job_pod job) ∧ secrets_read_only (job_pod job).
Proof.
  unfold build_inference_job. intros (i & _ & [= <-])%bind_Some.
  destruct (ij_secret a) as [secret|]; simpl; split_and!; solve_spec.
Qed.

(** The harness dials the pod of a tool call by the name its specification
    gives it, on the port its container declares and its probe waits for. *)
Theorem pods_are_dialable tool toolset entry call_id ns svc ws pvc sched grant job :
  build_tool tool toolset entry call_id ns svc ws pvc sched grant = Some job →
  ∃ host sub, ps_hostname (job_pod job) = Some host ∧ ps_subdomain (job_pod job) = Some sub ∧
    pod_dial_name call_id svc ns = host +:+ "." +:+ sub +:+ "." +:+ job_namespace job +:+ ".svc.cluster.local" ∧
    Forall (λ c, (c_ports c).*1 = [TOOL_JOB_PORT] ∧ c_readiness_tcp c = Some TOOL_JOB_PORT) (ps_containers (job_pod job)).
Proof.
  unfold build_tool_job. intros (i & _ & [= <-])%bind_Some. exists call_id, svc. simpl. split_and!; solve_spec.
Qed.

(** The variables the runtime of a tool pod sees: with a grant, the
    credential map and the scrub registry are the harness's whatever the
    toolset entry sets; everything else the entry sets wins over the harness. *)
Theorem tool_env_effective tool entry grant n :
  env_last (tool_env tool entry (staged_grant grant)) n =
  match env_last (st_env (staged_grant grant)) n, te_env entry !! n with
  | Some v, _ => Some v
  | None, Some v => Some v
  | None, None =>
      if decide (n = "TOOLSET_TOOL_NAME") then Some tool
      else if decide (n = "TOOLSET_KEEPALIVE" ∧ te_keepalive entry = true) then Some "true"
      else if decide (n = "HOME") then Some "/home/agent" else None
  end.
Proof.
  unfold tool_env, push_forwarded_env. rewrite env_last_app.
  destruct (env_last (st_env (staged_grant grant)) n); [done|].
  rewrite env_last_app, env_last_forwarded. destruct (te_env entry !! n); [done|].
  destruct (te_keepalive entry); simpl; repeat case_decide; subst; naive_solver.
Qed.

(** What the staging adds to the environment. *)
Lemma stage_grant_env name g :
  st_env (staged_grant (Some (name, g))) =
  [env_value "TOOLSET_CREDENTIAL_MAP"
     (credential_map json_to_string
        (staging_path "grant-credential" (secret_basename (grant_target g) (grant_secret g))) (grant_target g));
   env_value "TOOLSET_SCRUB_SECRETS"
     (json_to_string (JArray [scrub_entry_json (mkSecretMapping (grant_secret g) (grant_target g))]))].
Proof. done. Qed.
End theorems.

