(* ===== verification/Pods.v ===== *)
(** * Capability-job pods: start-up and the inference service

    Models the start of the two runtimes: [stage_credentials] and [main] of
    [crates/toolset-runtime/src/main.rs] and of
    [crates/inference-runtime/src/main.rs], [load_config] of
    [crates/inference-runtime/src/config.rs], the constructors of the two
    services and [InferenceJobService::run]. The environment, the parsers of
    [serde_json] and the failures of the file system are parameters; a path is
    looked up as it is written. *)

From S2P Require Import Prelude Text Codec Proto Scrub Inference Auth ConfigMaps Toolset Dispatch ModelDispatch Sse Providers ToolFrames Builtins Jobs.

(** ** The file system of a pod *)

Record PodFile : Type := mkPodFile { pf_content : bytes; pf_mode : Z }.
Abbreviation PodFs := (gmap string PodFile).

Inductive IoError : Type := IoNotFound | IoOther (e : string).

(** [fs::read_to_string]. *)
Definition read_to_string (fs : PodFs) (path : string) : result string IoError :=
  match fs !! path with
  | None => Err IoNotFound
  | Some f => if utf8_valid (pf_content f) then Ok (str_of (pf_content f))
              else Err (IoOther "stream did not contain valid UTF-8")
  end.

Definition ok {A E} (r : result A E) : option A := match r with Ok a => Some a | Err _ => None end.

(** The calls the file system refuses, with their messages. *)
Record FsFaults : Type := mkFsFaults {
  ff_mkdir : string → option string; ff_copy : string → string → option string;
  ff_chmod : string → option string; ff_missing : string }.

Record CredentialMapEntry : Type := mkCredentialMapEntry { cm_staging : string; cm_target : string }.

Section pods.
Context (faults : FsFaults) (parse_map : string → result (list CredentialMapEntry) string).

Definition MODE_0600 : Z := 384.

(** One entry of the map: the parent directories, the copy (which keeps the
    mode of its source), the mode. *)
Definition stage_entry (fs : PodFs) (e : CredentialMapEntry) : result PodFs string :=
  let target := cm_target e in
  let? _ := match (if has_parent target then ff_mkdir faults target else None) with
            | Some err => Err ("credential target " +:+ target +:+ ": cannot create parent directory: " +:+ err)
            | None => Ok tt
            end in
  let? f := match ff_copy faults (cm_staging e) target, fs !! cm_staging e with
            | Some err, _ => Err ("credential target " +:+ target +:+ ": copy failed: " +:+ err)
            | None, None => Err ("credential target " +:+ target +:+ ": copy failed: " +:+ ff_missing faults)
            | None, Some f => Ok f
            end in
  match ff_chmod faults target with
  | Some err => Err ("credential target " +:+ target +:+ ": cannot restrict to 0600: " +:+ err)
  | None => Ok (<[target := mkPodFile (pf_content f) MODE_0600]> (<[target := f]> fs))
  end.

Fixpoint stage_entries (fs : PodFs) (entries : list CredentialMapEntry) : result PodFs string :=
  match entries with
  | [] => Ok fs
  | e :: entries => let? fs := stage_entry fs e in stage_entries fs entries
  end.

Section process.
Context (env_var : string → option string).

Definition stage_credentials (fs : PodFs) : result PodFs string :=
  match env_var "TOOLSET_CREDENTIAL_MAP" with
  | Some json =>
      if str_is_empty json then Ok fs else
      let? entries := map_err (λ e, "failed to parse TOOLSET_CREDENTIAL_MAP: " +:+ e) (parse_map json) in
      stage_entries fs entries
  | None => Ok fs
  end.

Context (base64_encode url_encode : string → string) (parse_entries : string → option (list ScrubEntry)).

(** [ScrubSet::from_env_var("TOOLSET_SCRUB_SECRETS")], on the files as they are. *)
Definition scrub_set_of (fs : PodFs) : ScrubSet :=
  from_env_var base64_encode url_encode env_var (λ p, ok (read_to_string fs p)) parse_entries "TOOLSET_SCRUB_SECRETS".

(** ** The tool pod *)

Record ToolJobService : Type := mkToolJobService { tj_tool_name : string; tj_scrub : ScrubSet }.

Definition ToolJobService_new (tool_name : string) (fs : PodFs) : ToolJobService :=
  mkToolJobService tool_name (scrub_set_of fs).

(** [main] up to serving: the service, whether the pod is kept alive, and the
    files. [None] is the panic on a missing tool name. *)
Definition tool_main (fs : PodFs) : option (result (ToolJobService * bool * PodFs) string) :=
  tool_name ← env_var "TOOLSET_TOOL_NAME";
  let keepalive := bool_decide (default "" (env_var "TOOLSET_KEEPALIVE") = "true") in
  Some (let? fs := stage_credentials fs in
        Ok (ToolJobService_new tool_name fs, keepalive, fs)).

(** ** The inference pod *)

Record ProviderConfig : Type := mkProviderConfig { pc_model : string; pc_api_key : string }.

(** [serde_json::from_str::<Format>] of the quoted name. *)
Context (parse_format : string → result Format string).

Definition DEFAULT_API_KEY_FILE : string := "/run/secrets/provider/credential".

Definition read_api_key (fs : PodFs) (api_key_file : string) : result string string :=
  match read_to_string fs api_key_file with
  | Ok contents =>
      let key := str_trim contents in
      if decide (key = "") then Err ("provider credential " +:+ api_key_file +:+ " is empty") else Ok key
  | Err IoNotFound => Ok ""
  | Err (IoOther e) => Err ("provider credential " +:+ api_key_file +:+ " unreadable: " +:+ e)
  end.

Definition load_config (fs : PodFs) : result (Format * string * ProviderConfig) string :=
  let? format_str := ok_or (env_var "INFERENCE_FORMAT") "INFERENCE_FORMAT must be set" in
  let? format := map_err (λ e, "invalid format " +:+ quote +:+ format_str +:+ quote +:+ ": " +:+ e)
                         (parse_format (quote +:+ format_str +:+ quote)) in
  let? model := ok_or (env_var "INFERENCE_MODEL") "INFERENCE_MODEL must be set" in
  let? base_url := ok_or (env_var "INFERENCE_BASE_URL") "INFERENCE_BASE_URL must be set" in
  let api_key_file := default DEFAULT_API_KEY_FILE (env_var "INFERENCE_API_KEY_FILE") in
  let? api_key := read_api_key fs api_key_file in
  Ok (format, base_url, mkProviderConfig model api_key).

Record InferenceJobService : Type := mkInferenceJobService {
  is_format : Format; is_base_url : string; is_config : ProviderConfig; is_scrub : ScrubSet }.

Definition InferenceJobService_new (format : Format) (base_url : string) (config : ProviderConfig) (fs : PodFs)
  : InferenceJobService := mkInferenceJobService format base_url config (scrub_set_of fs).

(** [stage_credentials] of the inference runtime, the same text. *)
Definition inference_stage_credentials (fs : PodFs) : result PodFs string := stage_credentials fs.

(** [main] up to serving: the set the log writer redacts with, then the
    service and the files, or the error that ends the process. *)
Definition inference_main (fs : PodFs) : ScrubSet * result (InferenceJobService * PodFs) string :=
  let scrub_set := scrub_set_of fs in
  (scrub_set,
   let? fs := inference_stage_credentials fs in
   let? loaded := load_config fs in
   let '(format, base_url, config) := loaded in
   Ok (InferenceJobService_new format base_url config fs, fs)).
End process.
End pods.

(** ** [InferenceJobService::run] *)

Definition inference_first_command (first : option (result (option TurnAssignment) string)) : result TurnAssignment Status :=
  let? first := ok_or first (mkStatus InvalidArgument "the harness must send an assignment before any command") in
  let? command := map_err (λ e, mkStatus Internal ("assignment stream error: " +:+ e)) first in
  ok_or command (mkStatus InvalidArgument "the first RunInferenceCommand must be the model-call assignment").

(** The answer of a run: the frames of the stream and whether the call has
    ended. [call] opens the provider stream for the assignment; a cancel on the
    request half is one of its polls. *)
Definition inference_run (call : Format → string → ProviderConfig → TurnAssignment → result (list poll) string)
    (recv_open : nat → bool) (s : InferenceJobService) (first : option (result (option TurnAssignment) string))
  : result (list TurnEvent * bool) Status :=
  let? assignment := inference_first_command first in
  Ok (run_model_call (is_scrub s) recv_open (call (is_format s) (is_base_url s) (is_config s) assignment)).

(** ** Lemmas *)

Section lemmas.
Context {Num T : Type} (json_to_string : Json Num → string).
Context (faults : FsFaults) (parse_map : string → result (list CredentialMapEntry) string).
Context (parse_entries : string → option (list ScrubEntry)) (b64 url : string → string).
Context (parse_format : string → result Format string).

(** [serde_json] reads back what it printed; no array is printed as nothing. *)
Hypothesis map_round_trip : ∀ staging target,
  parse_map (credential_map json_to_string staging target) = Ok [mkCredentialMapEntry staging target].
Hypothesis registry_round_trip : ∀ name file,
  parse_entries (json_to_string (JArray [scrub_entry_json (mkSecretMapping name file)])) =
  Some [mkScrubEntry name None (Some file)].
Hypothesis array_printed : ∀ l, json_to_string (JArray l) ≠ "".

(** The file system lets the credential be copied to its target. *)
Definition copy_allowed (staging target : string) : Prop :=
  ff_mkdir faults target = None ∧ ff_copy faults staging target = None ∧ ff_chmod faults target = None.

(** A process of the container sees the variables of its specification. *)
Definition runs_with (env_var : string → option string) (env : list EnvVar) : Prop :=
  ∀ n v, env_last env n = Some v → env_var n = Some v.

Lemma stage_credentials_copies env_var fs staging target f :
  env_var "TOOLSET_CREDENTIAL_MAP" = Some (credential_map json_to_string staging target) →
  fs !! staging = Some f → copy_allowed staging target →
  stage_credentials faults parse_map env_var fs = Ok (<[target := mkPodFile (pf_content f) MODE_0600]> fs).
Proof using map_round_trip array_printed.
  intros Hv Hf (H1 & H2 & H3). unfold stage_credentials. rewrite Hv. unfold str_is_empty.
  rewrite bool_decide_eq_false_2 by apply array_printed.
  rewrite map_round_trip. simpl. unfold stage_entry. simpl. rewrite H1, H2, Hf, H3.
  destruct (has_parent target); simpl; by rewrite insert_insert_eq.
Qed.

Lemma scrub_set_of_registry env_var fs name file :
  env_var "TOOLSET_SCRUB_SECRETS" = Some (json_to_string (JArray [scrub_entry_json (mkSecretMapping name file)])) →
  scrub_set_of env_var b64 url parse_entries fs =
  from_secrets b64 url [(name, default "" (ok (read_to_string fs file)))].
Proof using registry_round_trip array_printed.
  intros Hv. unfold scrub_set_of, from_env_var. rewrite Hv. unfold str_is_empty.
  rewrite bool_decide_eq_false_2 by apply array_printed. by rewrite registry_round_trip.
Qed.
End lemmas.

(** ** Theorems *)

Section theorems.
Context {Num T : Type} (json_to_string : Json Num → string).
Context (faults : FsFaults) (parse_map : string → result (list CredentialMapEntry) string).
Context (parse_entries : string → option (list ScrubEntry)) (b64 url : string → string).
Context (parse_format : string → result Format string).
Hypothesis map_round_trip : ∀ staging target,
  parse_map (credential_map json_to_string staging target) = Ok [mkCredentialMapEntry staging target].
Hypothesis registry_round_trip : ∀ name file,
  parse_entries (json_to_string (JArray [scrub_entry_json (mkSecretMapping name file)])) =
  Some [mkScrubEntry name None (Some file)].
Hypothesis array_printed : ∀ l, json_to_string (JArray l) ≠ "".
Abbreviation tool_main := (tool_main faults parse_map).
Abbreviation inference_main := (inference_main faults parse_map).

(** Where a grant's and a provider's Secret is mounted. *)
Definition grant_staging (g : CapabilityGrant) : string :=
  staging_path "grant-credential" (secret_basename (grant_target g) (grant_secret g)).
Definition provider_staging : string := staging_path "provider-credential" "credential".

(** The pod of a call with a grant, started in the container its Job
    specifies with the Secret mounted where the Job mounts it, serves the call's
    tool, whatever other variables the toolset entry forwards: the credential is
    at the target the grant names, with mode 0600, and no text of any frame of a
    call that the pod runs holds it. *)
Theorem granted_pod_redacts_credential tool toolset entry call_id ns svc ws pvc sched name g job c env_var fs f :
  build_tool_job (T:=T) json_to_string tool toolset entry call_id ns svc ws pvc sched (Some (name, g)) = Some job →
  c ∈ ps_containers (job_pod job) → runs_with env_var (c_env c) →
  te_env entry !! "TOOLSET_TOOL_NAME" = None →
  fs !! grant_staging g = Some f → utf8_valid (pf_content f) = true → copy_allowed faults (grant_staging g) (grant_target g) →
  ∃ s keepalive fs', tool_main env_var b64 url parse_entries fs = Some (Ok (s, keepalive, fs')) ∧
    tj_tool_name s = tool ∧ (te_keepalive entry = true → te_env entry !! "TOOLSET_KEEPALIVE" = None → keepalive = true) ∧
    fs' = <[grant_target g := mkPodFile (pf_content f) MODE_0600]> fs ∧
    (let value := str_trim (str_of (pf_content f)) in
     tags_opaque (tj_scrub s) = true → value ≠ "" →
     ∀ env to_lowercase shell rg removable builtin_names a files frames frame text v,
       run_call env to_lowercase shell rg (tj_scrub s) removable builtin_names (tj_tool_name s) a files frames →
       frame ∈ frames → frame_text frame = Some text → v ∈ [value; b64 value; url value] → ¬ sub (B v) (B text)).
Proof using map_round_trip registry_round_trip array_printed.
  intros Hj Hc Hrun Htn Hf Hu Hok. unfold build_tool_job in Hj. apply bind_Some in Hj as (i & _ & [= <-]).
  apply list_elem_of_singleton in Hc as ->. cbn [tool_container c_env] in Hrun.
  assert (∀ n v, env_last (tool_env tool entry (stage_grant json_to_string (Some (name, g)))) n = Some v →
                 env_var n = Some v) as Hv by exact Hrun.
  assert (env_var "TOOLSET_TOOL_NAME" = Some tool) as Hname.
  { apply Hv. rewrite tool_env_effective, stage_grant_env, Htn. by simpl. }
  assert (stage_credentials faults parse_map env_var fs = Ok (<[grant_target g := mkPodFile (pf_content f) MODE_0600]> fs)) as Hst.
  { eapply stage_credentials_copies; [done..| |done|done]. apply Hv. by rewrite tool_env_effective, stage_grant_env. }
  unfold Pods.tool_main. rewrite Hname, Hst. simpl. do 3 eexists. split; [reflexivity|]. split_and!; [done| |done|].
  { intros Hka Hn. rewrite (Hv "TOOLSET_KEEPALIVE" "true"); [done|].
    rewrite tool_env_effective, stage_grant_env, Hn, Hka. by simpl. }
  assert (scrub_set_of env_var b64 url parse_entries (<[grant_target g := mkPodFile (pf_content f) MODE_0600]> fs)
          = from_secrets b64 url [(grant_secret g, str_of (pf_content f))]) as Hset.
  { erewrite (scrub_set_of_registry json_to_string); [|done..|].
    - unfold read_to_string. rewrite lookup_insert_eq. simpl. by rewrite Hu.
    - apply Hv. by rewrite tool_env_effective, stage_grant_env. }
  simpl. rewrite Hset. intros Ho Hne * Hr Hin Ht Hvar.
  apply run_call_frames in Hr as [[-> _]|Hc]; [by apply elem_of_nil in Hin|].
  eapply call_frames_redacted; [done..| |done|done|done|done]. by apply list_elem_of_singleton.
Qed.

Lemma inference_env_staged a secret n :
  ij_secret a = Some secret →
  env_last (inference_env (ij_base_url a) (ij_format a) (ij_model a) (stage_provider json_to_string (ij_secret a))) n =
  if decide (n = "TOOLSET_SCRUB_SECRETS")
  then Some (json_to_string (JArray [scrub_entry_json (mkSecretMapping secret PROVIDER_CREDENTIAL_PATH)]))
  else if decide (n = "INFERENCE_API_KEY_FILE") then Some PROVIDER_CREDENTIAL_PATH
  else if decide (n = "TOOLSET_CREDENTIAL_MAP")
  then Some (credential_map json_to_string provider_staging PROVIDER_CREDENTIAL_PATH)
  else if decide (n = "HOME") then Some "/home/agent"
  else if decide (n = "INFERENCE_MODEL") then Some (ij_model a)
  else if decide (n = "INFERENCE_FORMAT") then Some (ij_format a)
  else if decide (n = "INFERENCE_BASE_URL") then Some (ij_base_url a) else None.
Proof.
  intros ->. cbn. repeat case_decide; subst; try done; congruence.
Qed.

(** The pod of an inference Job, started in its container with the
    provider's Secret mounted, calls the model of the Job's arguments at their
    endpoint and in their format with the mounted credential, and no text of any
    frame it sends holds that credential. *)
Theorem inference_pod_serves_model a secret sched job c env_var fs f fmt :
  build_inference_job (T:=T) json_to_string a sched = Some job → ij_secret a = Some secret →
  c ∈ ps_containers (job_pod job) → runs_with env_var (c_env c) →
  fs !! provider_staging = Some f → utf8_valid (pf_content f) = true → str_trim (str_of (pf_content f)) ≠ "" →
  copy_allowed faults provider_staging PROVIDER_CREDENTIAL_PATH →
  parse_format (quote +:+ ij_format a +:+ quote) = Ok fmt →
  let key := str_trim (str_of (pf_content f)) in
  ∃ s fs', (inference_main env_var b64 url parse_entries parse_format fs).2 = Ok (s, fs') ∧
    is_format s = fmt ∧ is_base_url s = ij_base_url a ∧ is_config s = mkProviderConfig (ij_model a) key ∧
    (tags_opaque (is_scrub s) = true →
     ∀ call recv_open first frames ended e v,
       inference_run call recv_open s first = Ok (frames, ended) → e ∈ frames → v ∈ [key; b64 key; url key] →
       Forall (λ t, ¬ sub (B v) (B t)) (event_texts e)).
Proof using map_round_trip registry_round_trip array_printed.
  intros Hj Hs Hc Hrun Hf Hu Hne Hok Hfmt key. unfold build_inference_job in Hj. apply bind_Some in Hj as (i & _ & [= <-]).
  apply list_elem_of_singleton in Hc as ->. cbn [inference_container c_env] in Hrun.
  assert (∀ n v, env_last (inference_env (ij_base_url a) (ij_format a) (ij_model a)
                   (stage_provider json_to_string (ij_secret a))) n = Some v → env_var n = Some v) as Hv by exact Hrun.
  set (fs' := <[PROVIDER_CREDENTIAL_PATH := mkPodFile (pf_content f) MODE_0600]> fs).
  assert (stage_credentials faults parse_map env_var fs = Ok fs') as Hst.
  { eapply stage_credentials_copies; [done..| |done|done]. apply Hv. by rewrite (inference_env_staged a secret). }
  assert (read_to_string fs' PROVIDER_CREDENTIAL_PATH = Ok (str_of (pf_content f))) as Hread.
  { unfold read_to_string, fs'. rewrite lookup_insert_eq. simpl. by rewrite Hu. }
  assert (scrub_set_of env_var b64 url parse_entries fs' = from_secrets b64 url [(secret, str_of (pf_content f))]) as Hset.
  { erewrite (scrub_set_of_registry json_to_string); [by rewrite Hread|done..|].
    apply Hv. by rewrite (inference_env_staged a secret). }
  unfold Pods.inference_main, inference_stage_credentials, load_config, read_api_key. rewrite Hst.
  rewrite (Hv "INFERENCE_FORMAT" (ij_format a)), (Hv "INFERENCE_MODEL" (ij_model a)),
    (Hv "INFERENCE_BASE_URL" (ij_base_url a)), (Hv "INFERENCE_API_KEY_FILE" PROVIDER_CREDENTIAL_PATH)
    by by rewrite (inference_env_staged a secret).
  simpl. rewrite Hfmt. simpl. rewrite Hread, decide_False by done. simpl.
  do 2 eexists. split; [reflexivity|]. split_and!; [done..|]. simpl. rewrite Hset.
  intros Ho call recv_open first frames ended e v Hr He Hvar.
  unfold inference_run in Hr. apply rbind_Ok in Hr as (t & _ & Hr). injection Hr as Hr. simpl in Hr.
  rewrite Hset in Hr. apply (f_equal fst) in Hr. simpl in Hr. subst frames.
  refine (proj1 (Forall_forall _ _) (run_model_call_redacted b64 url _ secret _ v _ _ Ho _ Hne Hvar) e He).
  by apply list_elem_of_singleton.
Qed.

(** The set an inference pod's log writer redacts with is read before the
    credential is staged: in a fresh pod it is empty, and the log is written as
    it is. *)
Theorem inference_logs_unscrubbed a secret sched job c env_var fs :
  build_inference_job (T:=T) json_to_string a sched = Some job → ij_secret a = Some secret →
  c ∈ ps_containers (job_pod job) → runs_with env_var (c_env c) → fs !! PROVIDER_CREDENTIAL_PATH = None →
  let set := (inference_main env_var b64 url parse_entries parse_format fs).1 in
  replacements set = [] ∧
  ∀ (W E : Type) (inner_write : W → bytes → W * result nat E) inner_write_all w buf,
    scrub_write inner_write inner_write_all set w buf = inner_write w buf.
Proof using registry_round_trip array_printed.
  intros Hj Hs Hc Hrun Hf. unfold build_inference_job in Hj. apply bind_Some in Hj as (i & _ & [= <-]).
  apply list_elem_of_singleton in Hc as ->. cbn [inference_container c_env] in Hrun. simpl.
  erewrite (scrub_set_of_registry json_to_string); [|done..|].
  - unfold read_to_string. rewrite Hf. done.
  - apply Hrun. rewrite (inference_env_staged a secret); done.
Qed.
End theorems.

(** ** Witnesses *)

Module Witness.
(** A printer of the two kinds of array the harness prints, and its readers. *)
Definition print (j : Json unit) : string :=
  match j with
  | JArray [JObject [(_, JString a); (_, JString b)]] => encode_line (a, b)
  | _ => "[]"
  end.
Definition read_map (s : string) : result (list CredentialMapEntry) string :=
  match decode_line (A:=string * string) s with Some (a, b) => Ok [mkCredentialMapEntry a b] | None => Err "eof" end.
Definition read_registry (s : string) : option (list ScrubEntry) :=
  match decode_line (A:=string * string) s with Some (file, name) => Some [mkScrubEntry name None (Some file)] | None => None end.

Lemma print_map staging target : read_map (credential_map print staging target) = Ok [mkCredentialMapEntry staging target].
Proof.
  change (credential_map print staging target) with (encode_line (staging, target)).
  unfold read_map. by rewrite decode_line_encode.
Qed.
Lemma print_registry name file :
  read_registry (print (JArray [scrub_entry_json (mkSecretMapping name file)])) = Some [mkScrubEntry name None (Some file)].
Proof.
  change (print _) with (encode_line (file, name)). unfold read_registry. by rewrite decode_line_encode.
Qed.
Lemma print_array l : print (JArray l) ≠ "".
Proof. unfold print. repeat case_match; done. Qed.

Definition no_faults : FsFaults := mkFsFaults (λ _, None) (λ _ _, None) (λ _, None) "not found".
Definition entry : ToolsetEntry := mkToolsetEntry (Some "img") true None {[ "GH_HOST" := "example.com" ]} [].
Definition grant : CapabilityGrant := mkGrant "gh" (Some "/home/agent/.token") None.
Definition sched : SchedulingConfig unit := mkScheduling [] [].
Definition args : InferenceJob :=
  mkInferenceJob "0123456789" "ns" "svc" "ws" "opus" "img" "anthropic" "o" "https://x" (Some "key").
Definition secret_file : PodFile := mkPodFile (B "s3cret" ++ [newline]) 288.
Definition formats (s : string) : result Format string := Ok Anthropic.
Definition b64 (s : string) : string := s +:+ "=".
Definition tool_container_env : list EnvVar := tool_env "Gh" entry (stage_grant print (Some ("main", grant))).
Definition inference_container_env : list EnvVar :=
  inference_env "https://x" "anthropic" "o" (stage_provider print (Some "key")).
End Witness.

Lemma granted_pod_redacts_credential_witness :
  ∃ s keepalive fs',
    tool_main Witness.no_faults Witness.read_map (env_last Witness.tool_container_env) Witness.b64 id
      Witness.read_registry {[ grant_staging Witness.grant := Witness.secret_file ]} = Some (Ok (s, keepalive, fs')) ∧
    tj_tool_name s = "Gh" ∧ keepalive = true ∧
    fs' = <["/home/agent/.token" := mkPodFile (B "s3cret" ++ [newline]) 384]> {[ grant_staging Witness.grant := Witness.secret_file ]}.
Proof.
  destruct (granted_pod_redacts_credential (T:=unit) Witness.print Witness.no_faults Witness.read_map Witness.read_registry
    Witness.b64 id Witness.print_map Witness.print_registry Witness.print_array "Gh" "github" Witness.entry "0123456789"
    "ns" "svc" "ws" "pvc" Witness.sched "main" Witness.grant _ _ (env_last Witness.tool_container_env)
    {[ grant_staging Witness.grant := Witness.secret_file ]} Witness.secret_file eq_refl
    (proj2 (list_elem_of_singleton _ _) eq_refl) (λ n v H, H) eq_refl (lookup_singleton_eq _ _) eq_refl
    (conj eq_refl (conj eq_refl eq_refl))) as (s & ka & fs' & H1 & H2 & H3 & H4 & _).
  exists s, ka, fs'. split_and!; [exact H1|exact H2|by apply H3|exact H4].
Defined.

Lemma inference_pod_serves_model_witness :
  ∃ s fs',
    (inference_main Witness.no_faults Witness.read_map (env_last Witness.inference_container_env) Witness.b64 id
       Witness.read_registry Witness.formats {[ provider_staging := Witness.secret_file ]}).2 = Ok (s, fs') ∧
    is_format s = Anthropic ∧ is_base_url s = "https://x" ∧ is_config s = mkProviderConfig "o" "s3cret".
Proof.
  destruct (inference_pod_serves_model (T:=unit) Witness.print Witness.no_faults Witness.read_map Witness.read_registry
    Witness.b64 id Witness.formats Witness.print_map Witness.print_registry Witness.print_array Witness.args "key"
    Witness.sched _ _ (env_last Witness.inference_container_env) {[ provider_staging := Witness.secret_file ]}
    Witness.secret_file Anthropic eq_refl eq_refl (proj2 (list_elem_of_singleton _ _) eq_refl) (λ n v H, H)
    (lookup_singleton_eq _ _) eq_refl ltac:(by vm_compute) (conj eq_refl (conj eq_refl eq_refl)) eq_refl)
    as (s & fs' & H1 & H2 & H3 & H4 & _).
  exists s, fs'. split_and!; [exact H1|exact H2|exact H3|]. rewrite H4. reflexivity.
Defined.

Lemma inference_logs_unscrubbed_witness :
  replacements (inference_main Witness.no_faults Witness.read_map (env_last Witness.inference_container_env) Witness.b64 id
    Witness.read_registry Witness.formats {[ provider_staging := Witness.secret_file ]}).1 = [].
Proof.
  exact (proj1 (inference_logs_unscrubbed (T:=unit) Witness.print Witness.no_faults Witness.read_map Witness.read_registry
    Witness.b64 id Witness.formats Witness.print_registry Witness.print_array Witness.args "key" Witness.sched _ _
    (env_last Witness.inference_container_env) {[ provider_staging := Witness.secret_file ]} eq_refl eq_refl
    (proj2 (list_elem_of_singleton _ _) eq_refl) (λ n v H, H) eq_refl)).
Defined.
