(* ===== verification/Keepalive.v ===== *)
(** * When a capability-job pod shuts down

    Models [crates/shared/src/keepalive.rs] ([Activity], [touch],
    [ShutdownWatcher::wait]) together with the bookkeeping around a call in
    [run] of [crates/toolset-runtime/src/server.rs] and of
    [crates/inference-runtime/src/server.rs]. The watcher and the calls are
    separate tasks that share the counters, so every atomic access is a step of
    its own. Times are milliseconds. *)

From stdpp Require Import relations.
From S2P Require Import Prelude.

(** ** The shared counters *)

Record Activity : Type := mkActivity { in_flight : Z; completed : Z; last_activity : Z }.

Definition Activity_new (now : Z) : Activity := mkActivity 0 0 now.
Definition touch (now : Z) (a : Activity) : Activity := mkActivity (in_flight a) (completed a) now.
Definition fetch_add_in_flight (d : Z) (a : Activity) : Activity :=
  mkActivity (in_flight a + d) (completed a) (last_activity a).
Definition fetch_add_completed (a : Activity) : Activity :=
  mkActivity (in_flight a) (completed a + 1) (last_activity a).

(** ** A call *)

(** How far [run] and the task it spawns are; the time is the call's last
    [touch]. A task that panics stays where it is. *)
Inductive CallPhase : Type :=
| CArrived                  (* the assignment was read *)
| CCounted                  (* in_flight was raised *)
| CRunning (touched : Z)    (* touched; the task runs the tool or the model *)
| CCompleted (touched : Z)  (* completed was raised *)
| CReleased (touched : Z)   (* in_flight was lowered *)
| CDone (touched : Z)       (* touched again *)
| CPanicked (touched : Z).

Definition call_step (now : Z) (a : Activity) (c : CallPhase) : option (Activity * CallPhase) :=
  match c with
  | CArrived => Some (fetch_add_in_flight 1 a, CCounted)
  | CCounted => Some (touch now a, CRunning now)
  | CRunning t => Some (fetch_add_completed a, CCompleted t)
  | CCompleted t => Some (fetch_add_in_flight (-1) a, CReleased t)
  | CReleased _ => Some (touch now a, CDone now)
  | CDone _ | CPanicked _ => None
  end.

(** ** The watcher *)

Inductive WatchPhase : Type :=
| WSleeping (until : Z)
| WFlight | WCompleted | WIdle   (* about to read one of the counters *)
| WReturned.

Definition POLL_MS : Z := 500.

Definition watch_step (keepalive : bool) (idle_window now : Z) (a : Activity) (w : WatchPhase) : option WatchPhase :=
  match w with
  | WSleeping until => if (until <=? now)%Z then Some WFlight else None
  | WFlight => Some (if (0 <? in_flight a)%Z then WSleeping (now + POLL_MS) else WCompleted)
  | WCompleted => Some (if negb keepalive && (1 <=? completed a)%Z then WReturned else WIdle)
  | WIdle => Some (if (idle_window <=? now - last_activity a)%Z then WReturned else WSleeping (now + POLL_MS))
  | WReturned => None
  end.

(** ** The pod *)

Record Pod : Type := mkPod { p_now : Z; p_activity : Activity; p_calls : list CallPhase; p_watch : WatchPhase }.

Definition pod_start (now : Z) : Pod := mkPod now (Activity_new now) [] (WSleeping (now + POLL_MS)).

Section pod.
Context (keepalive : bool) (idle_window : Z).

Inductive pod_step : Pod → Pod → Prop :=
| StepTime now a cs w d :
    (0 ≤ d)%Z → pod_step (mkPod now a cs w) (mkPod (now + d) a cs w)
| StepArrive now a cs w :
    w ≠ WReturned → pod_step (mkPod now a cs w) (mkPod now a (cs ++ [CArrived]) w)
| StepCall now a l c r w a' c' :
    call_step now a c = Some (a', c') → pod_step (mkPod now a (l ++ c :: r) w) (mkPod now a' (l ++ c' :: r) w)
| StepPanic now a l t r w :
    pod_step (mkPod now a (l ++ CRunning t :: r) w) (mkPod now a (l ++ CPanicked t :: r) w)
| StepWatch now a cs w w' :
    watch_step keepalive idle_window now a w = Some w' → pod_step (mkPod now a cs w) (mkPod now a cs w').

Definition reachable (start : Z) (p : Pod) : Prop := rtc pod_step (pod_start start) p.

(** Runs in which no call arrives, counted in the watcher's naps. *)
Inductive quiet_run : nat → Pod → Pod → Prop :=
| QuietNil p : quiet_run 0 p p
| QuietTime k p now a cs w d :
    quiet_run k p (mkPod now a cs w) → (0 ≤ d)%Z → quiet_run k p (mkPod (now + d) a cs w)
| QuietWatch k p now a cs w w' :
    quiet_run k p (mkPod now a cs w) → watch_step keepalive idle_window now a w = Some w' →
    quiet_run (match w' with WSleeping _ => S k | _ => k end) p (mkPod now a cs w').
End pod.

(** ** The counters count the calls *)

Definition flying (c : CallPhase) : Z :=
  match c with CCounted | CRunning _ | CCompleted _ | CPanicked _ => 1 | _ => 0 end.
Definition finished (c : CallPhase) : Z :=
  match c with CCompleted _ | CReleased _ | CDone _ => 1 | _ => 0 end.
Definition touched (c : CallPhase) : option Z :=
  match c with
  | CArrived | CCounted => None
  | CRunning t | CCompleted t | CReleased t | CDone t | CPanicked t => Some t
  end.

Definition total (f : CallPhase → Z) (cs : list CallPhase) : Z := foldr (λ c n, (f c + n)%Z) 0%Z cs.

Record pod_inv (p : Pod) : Prop := mkPodInv {
  inv_in_flight : in_flight (p_activity p) = total flying (p_calls p);
  inv_completed : completed (p_activity p) = total finished (p_calls p);
  inv_last : (last_activity (p_activity p) ≤ p_now p)%Z;
  inv_touched : Forall (λ c, ∀ t, touched c = Some t → (t ≤ last_activity (p_activity p))%Z) (p_calls p) }.

Lemma total_app f l r : total f (l ++ r) = (total f l + total f r)%Z.
Proof. unfold total. rewrite foldr_app. induction l as [|c l IH]; simpl; [done|]. rewrite IH. lia. Qed.
Lemma total_cons f c l : total f (c :: l) = (f c + total f l)%Z.
Proof. done. Qed.

Lemma total_nonneg f cs : (∀ c, (0 ≤ f c)%Z) → (0 ≤ total f cs)%Z.
Proof. intros Hf. induction cs as [|c cs IH]; simpl; [done|]. specialize (Hf c). lia. Qed.

Lemma total_pos f cs : (∀ c, (0 ≤ f c)%Z) → (0 < total f cs)%Z → ∃ c, c ∈ cs ∧ (0 < f c)%Z.
Proof.
  intros Hf. induction cs as [|c cs IH]; simpl; [lia|]. intros Ht. destruct (decide (0 < f c)%Z).
  - exists c. split; [set_solver|done].
  - destruct IH as (c' & Hin & Hc'); [lia|]. exists c'. split; [set_solver|done].
Qed.

Lemma total_in f cs c : (∀ c, (0 ≤ f c)%Z) → c ∈ cs → (f c ≤ total f cs)%Z.
Proof.
  intros Hf [l [r ->]]%list_elem_of_split. rewrite total_app, total_cons.
  pose proof (total_nonneg f l Hf). pose proof (total_nonneg f r Hf). lia.
Qed.

Lemma flying_nonneg c : (0 ≤ flying c)%Z.
Proof. by destruct c. Qed.
Lemma finished_nonneg c : (0 ≤ finished c)%Z.
Proof. by destruct c. Qed.

Lemma touched_mono cs a b :
  (a ≤ b)%Z → Forall (λ c, ∀ t, touched c = Some t → (t ≤ a)%Z) cs → Forall (λ c, ∀ t, touched c = Some t → (t ≤ b)%Z) cs.
Proof. intros Hab H. eapply Forall_impl; [exact H|]. intros c Hc t Ht. specialize (Hc t Ht). lia. Qed.

Lemma pod_step_inv ka win p p' : pod_inv p → pod_step ka win p p' → pod_inv p'.
Proof.
  intros [H1 H2 H3 H4] Hs. destruct Hs as [now a cs w d Hd|now a cs w Hw|now a l c r w a' c' Hc|now a l t r w|now a cs w w' Hw];
    simpl in *.
  - split; simpl; (done || lia).
  - split; simpl; rewrite ?total_app, ?total_cons; simpl; [lia..|]. apply Forall_app; split; [done|by repeat constructor].
  - rewrite !total_app, !total_cons in H1, H2. apply Forall_app in H4 as [Hl [Hc4 Hr]%Forall_cons].
    destruct c; simplify_eq/=; split; simpl; rewrite ?total_app, ?total_cons; simpl; try lia;
      (apply Forall_app; split; [|constructor]); try done;
      try (eapply touched_mono; [exact H3|done]); intros t Ht; simplify_eq/=; try lia; by apply Hc4.
  - rewrite !total_app, !total_cons in H1, H2. apply Forall_app in H4 as [Hl [Hc4 Hr]%Forall_cons].
    simpl in H1, H2. split; simpl; rewrite ?total_app, ?total_cons; simpl; try lia.
    apply Forall_app; split; [done|]. by constructor.
  - by split.
Qed.

Lemma reachable_inv ka win start p : reachable ka win start p → pod_inv p.
Proof.
  unfold reachable. intros H. remember (pod_start start) as q eqn:Hq.
  assert (pod_inv q) as Hi by (subst q; split; simpl; (done || lia || constructor)). clear Hq.
  induction H; [done|]. eauto using pod_step_inv.
Qed.

Lemma step_panicked ka win p p' t :
  pod_step ka win p p' → CPanicked t ∈ p_calls p → CPanicked t ∈ p_calls p'.
Proof.
  destruct 1 as [| |now a l c r w a' c' Hc|now a l t' r w|]; simpl; set_solver.
Qed.

(** ** Theorems *)

(** A pod's watcher returns only when the pod is due: a one-shot pod's call
    has finished, or for the whole idle window no call has started or finished
    (and nothing but the start of the pod was last active before it). *)
Theorem watcher_returns_when_due ka win start p p' :
  reachable ka win start p → pod_step ka win p p' → p_watch p ≠ WReturned → p_watch p' = WReturned →
  (ka = false ∧ ∃ c, c ∈ p_calls p' ∧ finished c = 1%Z) ∨
  ((last_activity (p_activity p') + win ≤ p_now p')%Z ∧
   Forall (λ c, ∀ t, touched c = Some t → (t + win ≤ p_now p')%Z) (p_calls p')).
Proof.
  intros Hr Hs Hw Hw'. apply reachable_inv in Hr as [_ H2 _ H4]. destruct Hs; simpl in *; try done.
  destruct w; simplify_eq/=; repeat case_match; simplify_eq/=.
  - left. destruct ka; [done|]. split; [done|].
    destruct (total_pos finished cs) as (c & Hc & Hf); [apply finished_nonneg|lia|]. exists c. split; [done|].
    by destruct c.
  - right. assert (last_activity a + win ≤ now)%Z as Hl by lia. split; [done|].
    eapply Forall_impl; [exact H4|]. intros c Hc t Ht. specialize (Hc t Ht). lia.
Qed.

(** When the watcher passes its first check, no call of the pod is under way. *)
Theorem watcher_sees_no_call ka win start p p' :
  reachable ka win start p → pod_step ka win p p' → p_watch p = WFlight → p_watch p' = WCompleted →
  Forall (λ c, flying c = 0%Z) (p_calls p').
Proof.
  intros Hr Hs Hw Hw'. apply reachable_inv in Hr as [H1 _ _ _]. destruct Hs; simplify_eq/=.
  case_match; simplify_eq/=. apply Forall_forall. intros c Hc.
  pose proof (total_in flying cs c flying_nonneg Hc). pose proof (flying_nonneg c). lia.
Qed.

(** A call whose task panicked keeps the pod up for good: a watcher that is
    asleep, or about to look, never returns. *)
Theorem panicked_call_pins_pod ka win start p p' t :
  reachable ka win start p → CPanicked t ∈ p_calls p → (p_watch p = WFlight ∨ ∃ u, p_watch p = WSleeping u) →
  rtc (pod_step ka win) p p' → p_watch p' ≠ WReturned.
Proof.
  intros Hr Hp Hw Hs. enough (p_watch p' = WFlight ∨ ∃ u, p_watch p' = WSleeping u) as [->|[u ->]] by done.
  apply reachable_inv in Hr. induction Hs as [|p q p' Hpq _ IH]; [done|].
  apply IH; [by eapply pod_step_inv|by eapply step_panicked|]. clear IH.
  destruct Hr as [H1 _ _ _]. destruct Hpq; simpl in *; try done.
  destruct Hw as [->|[u ->]]; simplify_eq/=; case_match; simplify_eq/=; eauto.
  pose proof (total_in flying _ _ flying_nonneg Hp) as Hf. simpl in Hf. lia.
Qed.

(** The watcher is never stuck: it can step as soon as its nap is over. *)
Lemma watcher_enabled ka win now a w :
  w ≠ WReturned → ∃ d, (0 ≤ d)%Z ∧ is_Some (watch_step ka win (now + d) a w).
Proof.
  intros Hw. exists (match w with WSleeping u => Z.max 0 (u - now) | _ => 0%Z end).
  destruct w as [u| | | |]; simpl; (split; [lia|]); [|by eexists..|done].
  rewrite (proj2 (Z.leb_le _ _)) by lia. by eexists.
Qed.

(** How the naps of a quiet run add up. *)
Definition naps_inv (ka : bool) (win : Z) (p : Pod) (k : nat) (p' : Pod) : Prop :=
  p_activity p' = p_activity p ∧ p_calls p' = p_calls p ∧ (p_now p ≤ p_now p')%Z ∧
  (0 < k → (POLL_MS * (Z.of_nat k - 1) < win)%Z) ∧
  (match p_watch p' with
   | WSleeping u => 0 < k → (p_now p + POLL_MS * Z.of_nat k ≤ u)%Z
   | _ => (p_now p + POLL_MS * Z.of_nat k ≤ p_now p')%Z
   end) ∧
  (ka = false → (1 ≤ completed (p_activity p))%Z → k ≤ 1 ∧ (p_watch p' = WIdle → k = 0)).

Lemma quiet_run_naps ka win k p p' :
  quiet_run ka win k p p' → pod_inv p → in_flight (p_activity p) = 0%Z → naps_inv ka win p k p'.
Proof.
  intros Hq Hi Hf. unfold naps_inv, POLL_MS.
  induction Hq as [p|k p now a cs w d Hq IH Hd|k p now a cs w w' Hq IH Hw].
  - split_and!; try done; try lia. destruct (p_watch p); lia.
  - destruct (IH Hi Hf) as (Ha & Hc & H1 & H2 & H3 & H4). simpl in *. split_and!; try done; [lia|destruct w; lia].
  - destruct (IH Hi Hf) as (Ha & Hc & H1 & H2 & H3 & H4). clear IH. simpl in *. pose proof (inv_last _ Hi). subst a cs.
    destruct w; simplify_eq/=; unfold POLL_MS in *; repeat case_match; simplify_eq/=; split_and!; try done; try lia.
    all: intros Hk Hd; destruct (H4 Hk Hd) as [Hle Hidle]; split; try done; try lia.
    + exfalso. match goal with H : _ && _ = false |- _ => apply andb_false_iff in H as [?|?] end; [by subst ka|lia].
    + by rewrite Hidle.
Qed.


(** The end of a call lowers [in_flight] before it touches the clock: a
    keepalive pod that looks in between after a call longer than its window
    shuts down at the moment the call ends, with no idle time at all. *)
Theorem long_call_ends_keepalive win :
  (0 ≤ win)%Z → ∃ p t, reachable true win 0 p ∧ p_watch p = WReturned ∧ p_calls p = [CReleased t].
Proof.
  intros Hwin. set (T := Z.max win POLL_MS). exists (mkPod T (mkActivity 0 1 0) [CReleased 0] WReturned), 0%Z.
  split; [|done]. unfold reachable, pod_start, Activity_new.
  assert (T - 0 >=? win = true)%Z as Hge by (apply Z.geb_le; lia). rewrite Z.geb_leb in Hge.
  eapply rtc_l; [by apply StepArrive|]. simpl.
  eapply rtc_l; [by apply (StepCall true win 0 _ [] CArrived [])|]. simpl.
  eapply rtc_l; [by apply (StepCall true win 0 _ [] CCounted [])|]. simpl.
  eapply rtc_l; [apply (StepTime true win 0 _ _ _ T); lia|]. rewrite Z.add_0_l.
  eapply rtc_l; [apply StepWatch; simpl; by rewrite (proj2 (Z.leb_le _ _)) by lia|].
  eapply rtc_l; [by apply (StepCall true win T _ [] (CRunning 0) [])|]. simpl.
  eapply rtc_l; [by apply (StepCall true win T _ [] (CCompleted 0) [])|]. simpl.
  eapply rtc_l; [by apply StepWatch|]. simpl.
  eapply rtc_l; [by apply StepWatch|]. simpl.
  eapply rtc_once. apply StepWatch. simpl. by rewrite Hge.
Qed.

(** ** Witnesses *)

Lemma watcher_returns_when_due_witness :
  (false = false ∧ ∃ c, c ∈ [CDone 0] ∧ finished c = 1%Z) ∨
  ((0 + 600000 ≤ 500)%Z ∧ Forall (λ c, ∀ t, touched c = Some t → (t + 600000 ≤ 500)%Z) [CDone 0]).
Proof.
  refine (watcher_returns_when_due false 600000 0 (mkPod 500 (mkActivity 0 1 0) [CDone 0] WCompleted)
            (mkPod 500 (mkActivity 0 1 0) [CDone 0] WReturned) _ _ _ eq_refl); [|by apply StepWatch|done].
  unfold reachable, pod_start, Activity_new.
  eapply rtc_l; [by apply StepArrive|]. simpl.
  do 5 (eapply rtc_l; [by apply (StepCall _ _ 0 _ [] _ [])|]; simpl).
  eapply rtc_l; [by apply (StepTime _ _ 0 _ _ _ 500)|]. simpl.
  eapply rtc_l; [by apply StepWatch|]. eapply rtc_once. by apply StepWatch.
Defined.

