(* ===== verification/Schema.v ===== *)
(** * The schema a tool is offered with

    Models [ToolDecl::parameters_json] of [crates/shared/src/toolset.rs], and
    relates the schema the model sees to the check its arguments then have to
    pass ([validate_call_input] in [Toolset]). *)

From S2P Require Import Prelude Text ConfigMaps Toolset Sse Providers.

Section schema.
Context {Num : Type} (json_to_string : Json Num → string).

(** One property: its type, and its description if it has one. *)
Definition property_json (a : ArgDecl) : Json Num :=
  let prop := obj [("type", JString (as_schema_str (arg_ty a)))] in
  JObject (match arg_description a with Some d => bt_insert "description" (JString d) prop | None => prop end).

Definition parameters_object (t : ToolDecl) : list (string * Json Num) :=
  let required := arg_name <$> filter (λ a, arg_required a = true) (tool_args t) in
  let properties := obj ((λ a, (arg_name a, property_json a)) <$> tool_args t) in
  obj [("type", JString "object"); ("additionalProperties", JBool false);
       ("required", JArray (JString <$> required)); ("properties", JObject properties)].
Definition parameters_value (t : ToolDecl) : Json Num := JObject (parameters_object t).

Definition parameters_json (t : ToolDecl) : string := json_to_string (parameters_value t).
End schema.

(** ** What a JSON Schema of this kind accepts

    The keywords that occur: [type], [required], [properties] and a boolean
    [additionalProperties]; the schemas of the properties have a [type]. *)

Section accepts.
Context {Num : Type} (is_integral : Num → bool).

Definition type_keyword (ty : string) (v : Json Num) : bool :=
  match v with
  | JNull => bool_decide (ty = "null")
  | JBool _ => bool_decide (ty = "boolean")
  | JNumber n => bool_decide (ty = "number") || bool_decide (ty = "integer") && is_integral n
  | JString _ => bool_decide (ty = "string")
  | JArray _ => bool_decide (ty = "array")
  | JObject _ => bool_decide (ty = "object")
  end.

Definition type_accepts (keywords : list (string * Json Num)) (v : Json Num) : bool :=
  match bt_get "type" keywords with Some (JString ty) => type_keyword ty v | _ => true end.

Definition property_accepts (s v : Json Num) : bool :=
  match s with JBool b => b | JObject keywords => type_accepts keywords v | _ => true end.

Definition required_accepts (keywords fields : list (string * Json Num)) : bool :=
  match bt_get "required" keywords with
  | Some (JArray names) =>
      forallb (λ r, match r with JString k => bool_decide (is_Some (bt_get k fields)) | _ => true end) names
  | _ => true
  end.

Definition field_accepts (keywords : list (string * Json Num)) (field : string * Json Num) : bool :=
  let additional := match bt_get "additionalProperties" keywords with Some (JBool b) => b | _ => true end in
  match bt_get "properties" keywords with
  | Some (JObject properties) =>
      match bt_get field.1 properties with Some s => property_accepts s field.2 | None => additional end
  | _ => additional
  end.

Definition schema_accepts (s v : Json Num) : bool :=
  match s with
  | JBool b => b
  | JObject keywords =>
      type_accepts keywords v &&
      match v with
      | JObject fields => required_accepts keywords fields && forallb (field_accepts keywords) fields
      | _ => true
      end
  | _ => true
  end.
End accepts.

(** ** Lemmas *)

Lemma bt_get_foldl_other {V} k (l : list (string * V)) m :
  k ∉ l.*1 → bt_get k (foldl (λ m f, bt_insert f.1 f.2 m) m l) = bt_get k m.
Proof.
  revert m. induction l as [|[k' v] l IH]; intros m Hk; csimpl in *; [done|].
  apply not_elem_of_cons in Hk as [Hne Hk]. rewrite IH, bt_get_insert by done. simpl. by rewrite decide_False.
Qed.

Lemma bt_get_foldl_in {V} k (v : V) l m :
  NoDup l.*1 → (k, v) ∈ l → bt_get k (foldl (λ m f, bt_insert f.1 f.2 m) m l) = Some v.
Proof.
  revert m. induction l as [|[k' v'] l IH]; intros m; csimpl; [by intros _ ?%elem_of_nil|].
  intros [Hk' Hnd]%NoDup_cons [[= <- <-]|Hin]%elem_of_cons; [|by apply IH].
  rewrite bt_get_foldl_other by done. by rewrite bt_get_insert, decide_True.
Qed.

Lemma bt_get_keyed {V} k (v : V) l : NoDup l.*1 → bt_get k l = Some v ↔ (k, v) ∈ l.
Proof.
  induction l as [|[k' v'] l IH]; csimpl; [intros _; split; [done|by intros ?%elem_of_nil]|].
  intros [Hk' Hnd]%NoDup_cons. rewrite elem_of_cons, <- IH by done. case_decide as E.
  - subst k'. split; [intros [= ->]; by left|]. intros [[= ->]|Hin]; [done|]. apply IH in Hin; [|done].
    destruct Hk'. by apply (list_elem_of_fmap_2 fst) in Hin.
  - split; [by right|]. by intros [[= -> ->]|?].
Qed.

Lemma nodup_key_inj {A B} (f : A → B) l x y : NoDup (f <$> l) → x ∈ l → y ∈ l → f x = f y → x = y.
Proof.
  intros Hnd (i & Hi)%list_elem_of_lookup (j & Hj)%list_elem_of_lookup Hxy.
  assert (i = j) as ->; [|congruence].
  eapply NoDup_lookup; [exact Hnd|rewrite list_lookup_fmap, Hi; done|rewrite list_lookup_fmap, Hj; simpl; congruence].
Qed.

Section agreement.
Context {Num : Type} (is_i64 is_u64 is_integral : Num → bool) (num_to_string : Num → string).
(** A number that fits in 64 bits as an integer is integral. *)
Hypothesis fits_integral : ∀ n, is_i64 n || is_u64 n = true → is_integral n = true.
Abbreviation accepts := (schema_accepts is_integral).

(** The integers among the arguments fit in 64 bits. *)
Definition integers_fit (args : list ArgDecl) (v : Json Num) : Prop :=
  ∀ fields arg n, v = JObject fields → arg ∈ args → arg_ty arg = ATInteger →
    bt_get (arg_name arg) fields = Some (JNumber n) → is_i64 n || is_u64 n = true.

Lemma property_type (a : ArgDecl) (v : Json Num) :
  property_accepts is_integral (property_json a) v = type_keyword is_integral (as_schema_str (arg_ty a)) v.
Proof. unfold property_json. simpl. destruct (arg_description a), (arg_ty a); reflexivity. Qed.

Lemma type_keyword_value ty v :
  is_Some (arg_value is_i64 is_u64 num_to_string ty v) ↔
  type_keyword is_integral (as_schema_str ty) v = true ∧
  (∀ n, ty = ATInteger → v = JNumber n → is_i64 n || is_u64 n = true).
Proof using fits_integral.
  destruct ty, v; simpl; try (split; [by intros [? [=]]|naive_solver]); try naive_solver.
  - destruct (is_i64 n || is_u64 n) eqn:E; split; try done.
    + intros _. rewrite (fits_integral n E). naive_solver.
    + intros [_ H]. specialize (H n eq_refl eq_refl). congruence.
Qed.

Lemma required_names t fields :
  required_accepts (parameters_object t) fields = true ↔
  ∀ a, a ∈ tool_args t → arg_required a = true → is_Some (bt_get (arg_name a) (fields : list (string * Json Num))).
Proof.
  unfold required_accepts. unfold parameters_object. simpl.
  rewrite forallb_forall. setoid_rewrite <- list_elem_of_In.
  setoid_rewrite list_elem_of_fmap. split.
  - intros H a Ha Hr. specialize (H (JString (arg_name a))). cbv beta iota in H.
    apply bool_decide_eq_true in H; [done|]. exists (arg_name a). split; [done|].
    apply list_elem_of_fmap_2, list_elem_of_filter. done.
  - intros H x (k & -> & Hk). apply list_elem_of_fmap in Hk as (a & -> & [Hr Ha]%list_elem_of_filter).
    apply bool_decide_eq_true. by apply H.
Qed.

Lemma field_of_property t k v :
  NoDup (arg_name <$> tool_args t) →
  field_accepts is_integral (parameters_object t) (k, v) = true ↔
  ∃ a, a ∈ tool_args t ∧ arg_name a = k ∧ type_keyword is_integral (as_schema_str (arg_ty a)) v = true.
Proof.
  intros Hnd. unfold field_accepts. unfold parameters_object. simpl.
  assert (((λ a, (arg_name a, property_json (Num:=Num) a)) <$> tool_args t).*1 = arg_name <$> tool_args t) as Hf
    by by rewrite <- list_fmap_compose.
  unfold obj. destruct (decide (k ∈ arg_name <$> tool_args t)) as [Hk|Hk].
  - apply list_elem_of_fmap in Hk as (a & -> & Ha).
    erewrite bt_get_foldl_in; [|by rewrite Hf|by apply (list_elem_of_fmap_2 (λ a, (arg_name a, property_json a)))].
    rewrite property_type. split; [naive_solver|]. intros (a' & Ha' & Hn & Ht).
    by rewrite <- (nodup_key_inj arg_name (tool_args t) a' a).
  - rewrite bt_get_foldl_other by by rewrite Hf. simpl. split; [done|]. intros (a & Ha & <- & _).
    destruct Hk. by apply list_elem_of_fmap_2.
Qed.

Context (json_parse : string → result (Json Num) string).

End agreement.

