(* ===== verification/Archive.v ===== *)
(** * The instructions archive

    Models [cli/src/commands/instructions.rs]: the walk over the folder, the
    ustar archive, the gzip member of stored blocks with its CRC, and [pack].
    The decoders of the second half are the formats' own readers: what a ustar
    reader and a gunzip make of the bytes. The file tree, the YAML parser and
    base64 are parameters. *)

From S2P Require Import Prelude Text ConfigMaps Toolset Sse.

(** ** The folder *)

(** What [lstat] finds below a directory; a directory may refuse to be read and
    an entry to be examined. *)
Inductive Node : Type :=
| NFile (content : bytes)
| NDir (items : list (string * Node))
| NOther                         (* a link, a device, a socket *)
| NUnreadable (e : string)       (* a directory that cannot be read *)
| NNoStat (e : string).

Inductive Entry : Type :=
| EDir (rel : string)
| EFile (rel path : string) (content : bytes).

Definition entry_rel (e : Entry) : string := match e with EDir rel => rel | EFile rel _ _ => rel end.

Definition lossy (s : string) : string := str_of (from_utf8_lossy (B s)).

(** What one item adds; for a directory, the entries below it and then its own.
    The inner loop is [walk_dir] with the prefix [rel/]. *)
Fixpoint walk_node (path rel : string) (n : Node) : result (list Entry) string :=
  match n with
  | NDir items =>
      let fix walk_dir (items : list (string * Node)) : result (list Entry) string :=
        match items with
        | [] => Ok []
        | (name, n) :: items =>
            let? out := walk_node (path +:+ "/" +:+ name) ((rel +:+ "/") +:+ lossy name) n in
            let? rest := walk_dir items in
            Ok (out ++ rest)
        end in
      let? out := walk_dir items in
      Ok (out ++ [EDir rel])
  | NFile content => Ok [EFile rel path content]
  | NOther => Err ("instructions entry " +:+ path +:+ " is not a regular file or directory")
  | NUnreadable e => Err ("cannot read " +:+ path +:+ ": " +:+ e)
  | NNoStat e => Err ("cannot stat " +:+ path +:+ ": " +:+ e)
  end.

Fixpoint walk_dir (dir prefix : string) (items : list (string * Node)) : result (list Entry) string :=
  match items with
  | [] => Ok []
  | (name, n) :: items =>
      let? out := walk_node (dir +:+ "/" +:+ name) (prefix +:+ lossy name) n in
      let? rest := walk_dir dir prefix items in
      Ok (out ++ rest)
  end.

Definition rel_leb (a b : Entry) : bool := str_leb (entry_rel a) (entry_rel b).

(** [metadata] of the folder itself follows links. *)
Definition walk (root : string) (meta : result Node string) : result (list Entry) string :=
  let? n := map_err (λ e, "instructions " +:+ root +:+ ": " +:+ e) meta in
  match n with
  | NDir items => let? entries := walk_dir root EmptyString items in Ok (sort_by rel_leb entries)
  | NUnreadable e => Err ("cannot read " +:+ root +:+ ": " +:+ e)
  | _ => Err ("instructions " +:+ root +:+ " is not a directory")
  end.

(** ** The ustar archive *)

Definition BLOCK : nat := 512.
Definition nul : ascii := byte_of 0.
Definition zeros (n : nat) : bytes := replicate n nul.

Definition oct_digit (n : N) : ascii := byte_of (48 + n mod 8).

Fixpoint oct_fixed (w : nat) (n : N) : bytes :=
  match w with O => [] | S w => oct_fixed w (n / 8) ++ [oct_digit n] end.

(** [format!("{n:0<w>o}")]: at least [w] octal digits. *)
Definition oct (w : nat) (n : N) : bytes :=
  if (n <? 8 ^ N.of_nat w)%N then oct_fixed w n else oct_fixed (S (N.to_nat (N.log2 n / 3))) n.

(** [h[at..at + bytes.len()].copy_from_slice(bytes)]. *)
Definition put (pos : nat) (bs h : bytes) : bytes := take pos h ++ bs ++ drop (pos + length bs) h.

Definition slash : ascii := "/"%char.

Definition split_points (path : bytes) : list nat :=
  filter (λ i, path !! i = Some slash ∧ i ≤ 155 ∧ length path - i - 1 ≤ 100) (seq 0 (length path)).

(** The prefix and the name fields. *)
Definition split_path (path : bytes) : option (bytes * bytes) :=
  if length path <=? 100 then Some ([], path)
  else head (filter (λ pn, pn.2 ≠ []) ((λ i, (take i path, drop (S i) path)) <$> split_points path)).

Definition byte_sum (h : bytes) : N := foldr (λ b n, (byte_val b + n)%N) 0%N h.

Definition space8 : bytes := replicate 8 " "%char.

Definition header_fields (prefix name : bytes) (mode size : N) (kind : ascii) : bytes :=
  let h := put 0 name (zeros BLOCK) in
  let h := put 100 (oct 7 mode ++ [nul]) h in
  let h := put 108 (B "0000000" ++ [nul]) h in
  let h := put 116 (B "0000000" ++ [nul]) h in
  let h := put 124 (oct 11 size ++ [nul]) h in
  let h := put 136 (B "00000000000" ++ [nul]) h in
  let h := put 148 space8 h in
  let h := put 156 [kind] h in
  let h := put 257 (B "ustar" ++ [nul]) h in
  let h := put 263 (B "00") h in
  put 345 prefix h.

Definition header (path : bytes) (mode size : N) (kind : ascii) : result bytes string :=
  match split_path path with
  | None => Err ("instructions path " +:+ str_of path +:+ " is too long to archive")
  | Some (prefix, name) =>
      let h := header_fields prefix name mode size kind in
      Ok (put 148 (oct 6 (byte_sum h) ++ [nul; " "%char]) h)
  end.

Definition next_multiple_of (n k : nat) : nat := if n mod k =? 0 then n else n + (k - n mod k).
Definition resize (out : bytes) (n : nat) : bytes := take n out ++ zeros (n - length out).

(** The loop body; the files are read from the tree. *)
Definition tar_entry (out : bytes) (e : Entry) : result bytes string :=
  match e with
  | EDir rel => let? h := header (B (rel +:+ "/")) 493 0 "5"%char in Ok (out ++ h)
  | EFile rel _ content =>
      let? h := header (B rel) 420 (N.of_nat (length content)) "0"%char in
      let out := out ++ h ++ content in
      Ok (resize out (next_multiple_of (length out) BLOCK))
  end.

Fixpoint tar_entries (out : bytes) (es : list Entry) : result bytes string :=
  match es with [] => Ok out | e :: es => let? out := tar_entry out e in tar_entries out es end.

Definition tar (es : list Entry) : result bytes string :=
  let? out := tar_entries [] es in Ok (resize out (length out + 2 * BLOCK)).

(** ** gzip *)

Definition u32_max : N := 4294967295.

Definition wrapping_neg32 (x : N) : N := ((4294967296 - x) mod 4294967296)%N.

Definition crc_bit (crc : N) : N := N.lxor (N.shiftr crc 1) (N.land 3988292384 (wrapping_neg32 (N.land crc 1))).
Definition crc_byte (crc : N) (b : ascii) : N := Nat.iter 8 crc_bit (N.lxor crc (byte_val b)).
Definition crc32 (data : bytes) : N := N.lxor (foldl crc_byte u32_max data) u32_max.

(** [to_le_bytes] of a value of [n] bytes. *)
Fixpoint le_bytes (n : nat) (v : N) : bytes :=
  match n with O => [] | S n => byte_of (v mod 256) :: le_bytes n (v / 256) end.

Definition MAX : nat := N.to_nat 65535.

Fixpoint chunks_go (fuel n : nat) (l : bytes) : list bytes :=
  match l, fuel with
  | [], _ | _, O => []
  | _, S fuel => take n l :: chunks_go fuel n (drop n l)
  end.
(** [data.chunks(n)]. *)
Definition chunks (n : nat) (l : bytes) : list bytes := chunks_go (length l) n l.

Definition stored_block (last : bool) (chunk : bytes) : bytes :=
  let len := (N.of_nat (length chunk) mod 65536)%N in
  byte_of (if last then 1 else 0) :: le_bytes 2 len ++ le_bytes 2 (65535 - len) ++ chunk.

Fixpoint stored_blocks (cs : list bytes) : bytes :=
  match cs with
  | [] => []
  | [c] => stored_block true c
  | c :: cs => stored_block false c ++ stored_blocks cs
  end.

Definition gzip_header : bytes := byte_of <$> [31; 139; 8; 0; 0; 0; 0; 0; 0; 255]%N.

Definition gzip (data : bytes) : bytes :=
  gzip_header ++ stored_blocks (chunks MAX data)
  ++ le_bytes 4 (crc32 data) ++ le_bytes 4 (N.of_nat (length data) mod 4294967296).

(** ** [pack] *)

Section pack.
Context (read_to_string : string → result string string)
        (folder_field : string → result (option string) string)  (* [instructions.folder] of the YAML text *)
        (join_parent : string → string → string)                 (* [file.parent().join(dir)] *)
        (metadata : string → result Node string)
        (base64 : bytes → string).

Definition folder (file : string) : result string string :=
  let? text := map_err (λ e, "cannot read " +:+ file +:+ ": " +:+ e) (read_to_string file) in
  let? field := map_err (λ e, file +:+ " is not YAML: " +:+ e) (folder_field text) in
  let? dir := ok_or (field ≫= λ s, if str_is_empty s then None else Some s)
                    "instructions.folder must be a directory path" in
  Ok (join_parent file dir).

(** The content of the values file [pack] writes. *)
Definition pack_values (files : list string) : result string string :=
  match files with
  | [file] =>
      let? root := folder file in
      let? entries := walk root (metadata root) in
      let? archive := tar entries in
      Ok ("instructions:" +:+ str_of [newline] +:+ "  archive: " +:+ str_of [byte_of 34]
          +:+ base64 (gzip archive) +:+ str_of [byte_of 34; newline])
  | _ => Err "instructions up takes exactly one -f"
  end.
End pack.

(** ** What a ustar reader and a gunzip read *)

Definition slice (lo n : nat) (h : bytes) : bytes := take n (drop lo h).
Definition parse_oct (s : bytes) : N := foldl (λ n c, (8 * n + (byte_val c - 48))%N) 0%N s.

Fixpoint until_nul (s : bytes) : bytes :=
  match s with [] => [] | c :: s => if decide (c = nul) then [] else c :: until_nul s end.

Record Member : Type := mkMember { m_path : bytes; m_mode : N; m_kind : ascii; m_content : bytes }.

Definition read_header (h : bytes) : option (bytes * N * N * ascii) :=
  if bool_decide (parse_oct (slice 148 6 h) = byte_sum (put 148 space8 h))
     && bool_decide (slice 257 8 h = B "ustar" ++ nul :: B "00")
  then
    let name := until_nul (slice 0 100 h) in
    let prefix := until_nul (slice 345 155 h) in
    Some (match prefix with [] => name | _ => prefix ++ slash :: name end,
          parse_oct (slice 100 7 h), parse_oct (slice 124 11 h), default nul (h !! 156))
  else None.

Fixpoint untar (fuel : nat) (data : bytes) : option (list Member) :=
  match fuel with
  | O => None
  | S fuel =>
      let h := take BLOCK data in
      if bool_decide (h = zeros BLOCK) then Some [] else
      '(path, mode, size, kind) ← read_header h;
      let rest := drop BLOCK data in
      if decide (kind = "5"%char) then
        ms ← untar fuel rest; Some (mkMember path mode kind [] :: ms)
      else
        let n := N.to_nat size in
        if length rest <? n then None else
        ms ← untar fuel (drop (next_multiple_of n BLOCK) rest);
        Some (mkMember path mode kind (take n rest) :: ms)
  end.

Fixpoint read_le (s : bytes) : N := match s with [] => 0 | b :: s => byte_val b + 256 * read_le s end.

Fixpoint inflate_stored (fuel : nat) (s : bytes) : option (bytes * bytes) :=
  match fuel, s with
  | S fuel, flag :: a :: b :: c :: d :: rest =>
      let len := read_le [a; b] in
      let n := N.to_nat len in
      if negb (read_le [c; d] =? 65535 - len)%N || (length rest <? n) then None
      else if decide (flag = byte_of 1) then Some (take n rest, drop n rest)
      else if decide (flag = byte_of 0) then
        '(out, tail) ← inflate_stored fuel (drop n rest); Some (take n rest ++ out, tail)
      else None
  | _, _ => None
  end.

Definition gunzip (s : bytes) : option bytes :=
  body ← strip_prefix gzip_header s;
  '(out, tail) ← inflate_stored (length body) body;
  if decide (tail = le_bytes 4 (crc32 out) ++ le_bytes 4 (N.of_nat (length out) mod 4294967296))
  then Some out else None.

(** ** Lemmas: fields *)

Lemma length_put pos bs h : pos + length bs ≤ length h → length (put pos bs h) = length h.
Proof. intros H. unfold put. rewrite !length_app, length_take, length_drop. lia. Qed.

Lemma slice_put_disjoint lo n pos bs h :
  pos + length bs ≤ length h → lo + n ≤ pos ∨ pos + length bs ≤ lo → slice lo n (put pos bs h) = slice lo n h.
Proof.
  intros Hl H. apply list_eq. intros i. unfold slice, put.
  destruct (decide (i < n)).
  - rewrite !lookup_take_lt, !lookup_drop by done. destruct H.
    + rewrite lookup_app_l, lookup_take_lt; [done|lia|rewrite length_take; lia].
    + rewrite lookup_app_r, lookup_app_r, lookup_drop by (rewrite ?length_take; lia).
      f_equal. rewrite length_take. lia.
  - rewrite !lookup_take_ge by lia. done.
Qed.

Lemma slice_put_at pos n bs h :
  pos + length bs ≤ length h → length bs ≤ n →
  slice pos n (put pos bs h) = bs ++ slice (pos + length bs) (n - length bs) h.
Proof.
  intros Hl Hn. unfold slice, put. rewrite drop_app_ge by (rewrite length_take; lia).
  rewrite length_take, (Nat.min_l pos) by lia. rewrite Nat.sub_diag, drop_0.
  rewrite take_app_ge by lia. done.
Qed.

Lemma slice_put_in pos n bs h : n ≤ length bs → pos + length bs ≤ length h → slice pos n (put pos bs h) = take n bs.
Proof.
  intros Hn Hl. unfold slice, put. rewrite drop_app_ge by (rewrite length_take; lia).
  rewrite length_take, (Nat.min_l pos) by lia. rewrite Nat.sub_diag, drop_0. by rewrite take_app_le by lia.
Qed.

Lemma slice_app lo a b h : slice lo (a + b) h = slice lo a h ++ slice (lo + a) b h.
Proof.
  unfold slice. rewrite <- drop_drop. generalize (drop lo h). intros l. revert l.
  induction a as [|a IH]; intros [|c l]; simpl; rewrite ?take_nil; try done. f_equal. apply IH.
Qed.

Lemma put_put pos a b h : length a = length b → pos + length b ≤ length h → put pos b (put pos a h) = put pos b h.
Proof.
  intros Hab Hl. unfold put. rewrite take_app_le by (rewrite length_take; lia). rewrite take_take, Nat.min_id.
  do 2 f_equal. rewrite drop_app_ge by (rewrite length_take; lia). rewrite length_take, (Nat.min_l pos) by lia.
  replace (pos + length b - pos) with (length b) by lia. rewrite drop_app_ge by lia.
  rewrite drop_drop. f_equal. lia.
Qed.

Lemma byte_val_of n : (n < 256)%N → byte_val (byte_of n) = n.
Proof. apply N_ascii_embedding. Qed.
Lemma byte_val_bound c : (byte_val c < 256)%N.
Proof. apply N_ascii_bounded. Qed.

Lemma length_oct_fixed w n : length (oct_fixed w n) = w.
Proof. revert n. induction w as [|w IH]; intros n; simpl; [done|]. rewrite length_app, IH. simpl. lia. Qed.

Lemma parse_oct_fixed w n : (n < 8 ^ N.of_nat w)%N → parse_oct (oct_fixed w n) = n.
Proof.
  revert n. induction w as [|w IH]; intros n Hn; simpl.
  - simpl in Hn. by assert (n = 0%N) as -> by lia.
  - unfold parse_oct in *. rewrite foldl_app. cbn [foldl]. rewrite Nat2N.inj_succ, N.pow_succ_r' in Hn.
    rewrite IH by (apply N.Div0.div_lt_upper_bound; lia). unfold oct_digit.
    pose proof (N.mod_lt n 8 ltac:(lia)). rewrite byte_val_of by lia.
    pose proof (N.div_mod n 8 ltac:(lia)). rewrite (N.add_comm 48), N.add_sub. by symmetry.
Qed.

Lemma length_oct w n : (n < 8 ^ N.of_nat w)%N → length (oct w n) = w.
Proof. intros Hn. unfold oct. rewrite (proj2 (N.ltb_lt _ _) Hn). apply length_oct_fixed. Qed.
Lemma parse_oct_oct w n : (n < 8 ^ N.of_nat w)%N → parse_oct (oct w n) = n.
Proof. intros Hn. unfold oct. rewrite (proj2 (N.ltb_lt _ _) Hn). by apply parse_oct_fixed. Qed.

Lemma byte_sum_bound h : (byte_sum h ≤ 255 * N.of_nat (length h))%N.
Proof. induction h as [|b h IH]; simpl; [done|]. pose proof (byte_val_bound b). lia. Qed.

(** The checksum always fits its six octal digits. *)
Lemma checksum_fits h : length h = BLOCK → (byte_sum h < 8 ^ N.of_nat 6)%N.
Proof. intros Hl. pose proof (byte_sum_bound h). rewrite Hl in H. unfold BLOCK in H. simpl in *. lia. Qed.

Lemma until_nul_app s k : nul ∉ s → until_nul (s ++ zeros k) = s.
Proof.
  induction s as [|c s IH]; simpl; [by destruct k|]. intros [Hc Hs]%not_elem_of_cons.
  rewrite decide_False by done. by rewrite IH.
Qed.

Lemma slice_zeros lo n k : lo + n ≤ k → slice lo n (zeros k) = zeros n.
Proof. intros H. unfold slice, zeros. rewrite drop_replicate, take_replicate. f_equal. lia. Qed.

(** ** Lemmas: headers *)

Lemma length_put_block pos bs h : length h = BLOCK → pos + length bs ≤ BLOCK → length (put pos bs h) = BLOCK.
Proof. intros Hl H. rewrite length_put; lia. Qed.

Ltac solve_block :=
  repeat (apply length_put_block; [|rewrite ?length_app; simpl; unfold BLOCK; lia]); apply length_replicate.

(** The fields of a header that was not put in last. *)
Ltac skip_put :=
  rewrite slice_put_disjoint by first [ rewrite ?length_app; simpl; lia
    | match goal with |- _ ≤ length ?h => assert (length h = BLOCK) as -> by solve_block end;
      rewrite ?length_app; simpl; unfold BLOCK; lia ].

Section header.
Context (prefix name : bytes) (mode size : N) (kind : ascii).
Hypothesis (Hname : length name ≤ 100) (Hprefix : length prefix ≤ 155) (Hmode : (mode < 8 ^ 7)%N) (Hsize : (size < 8 ^ 11)%N).

Lemma oct_lengths : length (oct 7 mode) = 7 ∧ length (oct 11 size) = 11.
Proof using Hmode Hsize. split; by apply length_oct. Qed.

Lemma length_header_fields : length (header_fields prefix name mode size kind) = BLOCK.
Proof using Hname Hprefix Hmode Hsize. destruct oct_lengths. unfold header_fields. cbv zeta. solve_block. Qed.

Lemma header_name : slice 0 100 (header_fields prefix name mode size kind) = name ++ zeros (100 - length name).
Proof using Hname Hprefix Hmode Hsize.
  destruct oct_lengths. unfold header_fields. cbv zeta. repeat skip_put.
  rewrite slice_put_at by (unfold zeros, BLOCK; rewrite ?length_replicate; lia). f_equal.
  apply slice_zeros. unfold BLOCK. lia.
Qed.

Lemma header_prefix : slice 345 155 (header_fields prefix name mode size kind) = prefix ++ zeros (155 - length prefix).
Proof using Hname Hprefix Hmode Hsize.
  destruct oct_lengths. unfold header_fields. cbv zeta.
  rewrite slice_put_at; [|match goal with |- _ ≤ length ?h => assert (length h = BLOCK) as -> by solve_block end; unfold BLOCK; lia|lia].
  f_equal. repeat skip_put. apply slice_zeros. unfold BLOCK. lia.
Qed.

Lemma header_mode : slice 100 7 (header_fields prefix name mode size kind) = oct 7 mode.
Proof using Hname Hprefix Hmode Hsize.
  destruct oct_lengths as [Ho _]. pose proof oct_lengths as [_ ?]. unfold header_fields. cbv zeta. repeat skip_put.
  rewrite slice_put_in; [by rewrite take_app_le, take_ge by lia|rewrite length_app; simpl; lia|].
  match goal with |- _ ≤ length ?h => assert (length h = BLOCK) as -> by solve_block end. rewrite length_app. simpl. unfold BLOCK. lia.
Qed.

Lemma header_size : slice 124 11 (header_fields prefix name mode size kind) = oct 11 size.
Proof using Hname Hprefix Hmode Hsize.
  destruct oct_lengths as [? Ho]. unfold header_fields. cbv zeta. repeat skip_put.
  rewrite slice_put_in; [by rewrite take_app_le, take_ge by lia|rewrite length_app; simpl; lia|].
  match goal with |- _ ≤ length ?h => assert (length h = BLOCK) as -> by solve_block end. rewrite length_app. simpl. unfold BLOCK. lia.
Qed.

Lemma header_check : slice 148 8 (header_fields prefix name mode size kind) = space8.
Proof using Hname Hprefix Hmode Hsize.
  destruct oct_lengths. unfold header_fields. cbv zeta. repeat skip_put.
  rewrite slice_put_in; [done|simpl; lia|].
  match goal with |- _ ≤ length ?h => assert (length h = BLOCK) as -> by solve_block end. simpl. unfold BLOCK. lia.
Qed.

Lemma header_kind : slice 156 1 (header_fields prefix name mode size kind) = [kind].
Proof using Hname Hprefix Hmode Hsize.
  destruct oct_lengths. unfold header_fields. cbv zeta. repeat skip_put.
  rewrite slice_put_in; [done|simpl; lia|].
  match goal with |- _ ≤ length ?h => assert (length h = BLOCK) as -> by solve_block end. simpl. unfold BLOCK. lia.
Qed.

Lemma header_magic : slice 257 8 (header_fields prefix name mode size kind) = B "ustar" ++ nul :: B "00".
Proof using Hname Hprefix Hmode Hsize.
  destruct oct_lengths. rewrite (slice_app 257 6 2). change (B "ustar" ++ nul :: B "00") with ((B "ustar" ++ [nul]) ++ B "00").
  unfold header_fields. cbv zeta. f_equal; repeat skip_put.
  all: rewrite slice_put_in; [done|simpl; lia|].
  all: match goal with |- _ ≤ length ?h => assert (length h = BLOCK) as -> by solve_block end; simpl; unfold BLOCK; lia.
Qed.
End header.

Lemma slice_lookup lo c h : slice lo 1 h = [c] → h !! lo = Some c.
Proof.
  unfold slice. intros H. rewrite <- (Nat.add_0_r lo), <- lookup_drop. destruct (drop lo h); by simplify_eq/=.
Qed.

Lemma put_same pos bs h : slice pos (length bs) h = bs → put pos bs h = h.
Proof.
  intros H. unfold put. rewrite <- H at 1. unfold slice.
  rewrite <- drop_drop, (take_drop (length bs)). apply take_drop.
Qed.

Lemma split_path_spec path prefix name :
  split_path path = Some (prefix, name) →
  length name ≤ 100 ∧ length prefix ≤ 155 ∧ (prefix = [] ∧ name = path ∨ path = prefix ++ slash :: name).
Proof.
  unfold split_path. destruct (Nat.leb_spec (length path) 100) as [Hl|Hl].
  { intros [= <- <-]. simpl. split_and!; [done|lia|by left]. }
  intros Hh. assert ((prefix, name) ∈ filter (λ pn, pn.2 ≠ []) ((λ i, (take i path, drop (S i) path)) <$> split_points path)) as Hin.
  { destruct (filter _ _); simplify_eq/=. left. }
  apply list_elem_of_filter in Hin as [_ Hin]. apply list_elem_of_fmap in Hin as (i & [= -> ->] & Hi).
  unfold split_points in Hi. apply list_elem_of_filter in Hi as [(Hs & H1 & H2) Hseq]. rewrite length_take, length_drop.
  split_and!; [lia..|]. right. symmetry. by apply take_drop_middle.
Qed.

(** A ustar reader reads back the fields a header was made from. *)
Lemma read_header_header path mode size kind h :
  nul ∉ path → head path ≠ Some slash → (mode < 8 ^ 7)%N → (size < 8 ^ 11)%N → header path mode size kind = Ok h →
  length h = BLOCK ∧ h ≠ zeros BLOCK ∧ read_header h = Some (path, mode, size, kind).
Proof.
  intros Hnul Hhead Hm Hs Hh. unfold header in Hh. destruct (split_path path) as [[prefix name]|] eqn:Esp; [|done].
  injection Hh as <-. apply split_path_spec in Esp as (Hn & Hp & Hpath).
  pose proof (length_header_fields prefix name mode size kind Hn Hp Hm Hs) as Hlen.
  set (hf := header_fields prefix name mode size kind) in *.
  pose proof (checksum_fits hf Hlen) as Hsum. pose proof (length_oct 6 _ Hsum) as Ho.
  assert (length (oct 6 (byte_sum hf) ++ [nul; " "%char]) = 8) as H8 by (rewrite length_app; simpl; lia).
  assert (148 + length (oct 6 (byte_sum hf) ++ [nul; " "%char]) ≤ length hf) as Hfit by (rewrite H8, Hlen; unfold BLOCK; lia).
  assert (∀ lo n, lo + n ≤ 148 ∨ 156 ≤ lo →
    slice lo n (put 148 (oct 6 (byte_sum hf) ++ [nul; " "%char]) hf) = slice lo n hf) as Hslice.
  { intros lo n H. apply slice_put_disjoint; [done|]. rewrite H8. lia. }
  assert (slice 257 8 (put 148 (oct 6 (byte_sum hf) ++ [nul; " "%char]) hf) = B "ustar" ++ nul :: B "00") as Hmagic.
  { rewrite Hslice by lia. by apply header_magic. }
  split_and!.
  - by rewrite length_put.
  - intros E. rewrite E, slice_zeros in Hmagic by (unfold BLOCK; lia). done.
  - unfold read_header. rewrite Hmagic, (bool_decide_eq_true_2 (_ ++ _ = _)) by done.
    rewrite put_put by (rewrite ?H8, ?Hlen; unfold BLOCK; (done || simpl; lia)).
    rewrite (put_same 148 space8 hf) by by apply header_check.
    rewrite slice_put_in by (rewrite ?H8, ?Hlen; unfold BLOCK; lia).
    rewrite take_app_le, take_ge, parse_oct_oct, bool_decide_eq_true_2 by (done || lia). cbn [andb].
    assert (nul ∉ prefix ∧ nul ∉ name) as [Hnp Hnn].
    { destruct Hpath as [[-> ->]|Hpath]; [split; [apply not_elem_of_nil|done]|].
      rewrite Hpath, not_elem_of_app, not_elem_of_cons in Hnul. tauto. }
    assert (match prefix with [] => name | _ => prefix ++ slash :: name end = path) as Hjoin.
    { destruct Hpath as [[-> ->]|Hpath]; [done|]. destruct prefix; [|by rewrite Hpath]. destruct Hhead. by rewrite Hpath. }
    rewrite (Hslice 0 100), (Hslice 345 155), (Hslice 100 7), (Hslice 124 11) by lia.
    pose proof (header_name prefix name mode size kind Hn Hp Hm Hs) as En.
    pose proof (header_prefix prefix name mode size kind Hn Hp Hm Hs) as Ep.
    pose proof (header_mode prefix name mode size kind Hn Hp Hm Hs) as Em.
    pose proof (header_size prefix name mode size kind Hn Hp Hm Hs) as Es. fold hf in En, Ep, Em, Es.
    rewrite En, Ep, Em, Es, !until_nul_app, !parse_oct_oct, Hjoin by done.
    assert (slice 156 1 (put 148 (oct 6 (byte_sum hf) ++ [nul; " "%char]) hf) = [kind]) as Hk
      by (rewrite Hslice by lia; by apply header_kind).
    by rewrite (slice_lookup _ _ _ Hk).
Qed.

(** ** Lemmas: archives *)

(** An entry a file tree can have: its path has no NUL and is relative, and a
    file is smaller than 8 GiB. *)
Definition archivable (e : Entry) : Prop :=
  nul ∉ B (entry_rel e) ∧ entry_rel e ≠ "" ∧ head (B (entry_rel e)) ≠ Some slash ∧
  match e with EFile _ _ content => (N.of_nat (length content) < 8 ^ 11)%N | EDir _ => True end.

Definition member_of (e : Entry) : Member :=
  match e with
  | EDir rel => mkMember (B (rel +:+ "/")) 493 "5"%char []
  | EFile rel _ content => mkMember (B rel) 420 "0"%char content
  end.

Definition padding (n : nat) : nat := next_multiple_of n BLOCK - n.

Lemma next_multiple_ge n : n ≤ next_multiple_of n BLOCK.
Proof. unfold next_multiple_of. case_match; lia. Qed.

Lemma next_multiple_mod n : next_multiple_of n BLOCK mod BLOCK = 0.
Proof.
  unfold next_multiple_of, BLOCK. destruct (n mod 512 =? 0) eqn:E; [by apply Nat.eqb_eq|].
  pose proof (Nat.div_mod n 512 ltac:(lia)). pose proof (Nat.mod_upper_bound n 512 ltac:(lia)).
  replace (n + (512 - n mod 512)) with ((n / 512 + 1) * 512) by lia. apply Nat.Div0.mod_mul.
Qed.

Lemma next_multiple_add k n : k mod BLOCK = 0 → next_multiple_of (k + n) BLOCK = k + next_multiple_of n BLOCK.
Proof.
  intros Hk. unfold next_multiple_of. rewrite <- Nat.Div0.add_mod_idemp_l, Hk, Nat.add_0_l. case_match; lia.
Qed.

Lemma resize_ge out n : length out ≤ n → resize out n = out ++ zeros (n - length out).
Proof. intros H. unfold resize. by rewrite take_ge. Qed.

(** What one entry adds to the archive. *)
Definition entry_block (e : Entry) (h : bytes) : bytes :=
  match e with EDir _ => h | EFile _ _ content => h ++ content ++ zeros (padding (length content)) end.

Lemma entry_header e out out' :
  archivable e → length out mod BLOCK = 0 → tar_entry out e = Ok out' →
  ∃ h, length h = BLOCK ∧ h ≠ zeros BLOCK ∧ out' = out ++ entry_block e h ∧ length out' mod BLOCK = 0 ∧
    read_header h = Some (m_path (member_of e), m_mode (member_of e), N.of_nat (length (m_content (member_of e))), m_kind (member_of e)).
Proof.
  intros (Hnul & Hne & Hhead & Hsize) Hout. destruct e as [rel|rel path content];
    cbn [entry_rel tar_entry member_of m_path m_mode m_content m_kind entry_block] in *; intros (h & Hh & [= <-])%rbind_Ok.
  - assert (nul ∉ B (rel +:+ "/") ∧ head (B (rel +:+ "/")) ≠ Some slash) as [Hnul' Hhead'].
    { rewrite B_app. split; [rewrite not_elem_of_app; split; [done|]; unfold B; simpl; rewrite not_elem_of_cons; split; [done|apply not_elem_of_nil]|].
      destruct rel; [done|]. unfold B in *. simpl in *. done. }
    destruct (read_header_header _ 493 0 "5"%char h Hnul' Hhead' ltac:(done) ltac:(done) Hh) as (H1 & H2 & H3).
    exists h. split_and!; try done. rewrite length_app, H1, Nat.Div0.add_mod, Hout, Nat.Div0.mod_same. done.
  - destruct (read_header_header _ 420 _ "0"%char h Hnul Hhead ltac:(done) Hsize Hh) as (H1 & H2 & H3).
    assert (length (out ++ h ++ content) = length out + BLOCK + length content) as Hlen by (rewrite !length_app, H1; lia).
    assert ((length out + BLOCK) mod BLOCK = 0) as Hmod by (rewrite Nat.Div0.add_mod, Hout, Nat.Div0.mod_same; done).
    exists h. split_and!; try done.
    + rewrite resize_ge by apply next_multiple_ge. rewrite Hlen, next_multiple_add by done.
      rewrite <- !app_assoc. do 4 f_equal. unfold padding. lia.
    + rewrite resize_ge by apply next_multiple_ge. rewrite length_app. unfold zeros. rewrite length_replicate.
      pose proof (next_multiple_ge (length (out ++ h ++ content))).
      replace (length (out ++ h ++ content) + (next_multiple_of (length (out ++ h ++ content)) BLOCK - length (out ++ h ++ content)))
        with (next_multiple_of (length (out ++ h ++ content)) BLOCK) by lia. apply next_multiple_mod.
Qed.

(** A reader takes one entry off the front. *)
Lemma untar_entry e h rest fuel ms :
  length h = BLOCK → h ≠ zeros BLOCK →
  read_header h = Some (m_path (member_of e), m_mode (member_of e), N.of_nat (length (m_content (member_of e))), m_kind (member_of e)) →
  untar fuel rest = Some ms → untar (S fuel) (entry_block e h ++ rest) = Some (member_of e :: ms).
Proof.
  intros Hl Hz Hr Hrest. cbn [untar].
  assert (take BLOCK (entry_block e h ++ rest) = h ∧
          drop BLOCK (entry_block e h ++ rest) = match e with EDir _ => rest | EFile _ _ c => c ++ zeros (padding (length c)) ++ rest end)
    as [-> ->].
  { destruct e; simpl; rewrite <- ?app_assoc, <- Hl, take_app_length, drop_app_length; done. }
  rewrite bool_decide_eq_false_2, Hr by done. destruct e as [rel|rel path content]; cbn [member_of m_path m_mode m_content m_kind mbind option_bind].
  - rewrite decide_True by done. by rewrite Hrest.
  - rewrite decide_False by done. rewrite Nat2N.id.
    rewrite (proj2 (Nat.ltb_ge _ _)) by (rewrite length_app; lia). rewrite take_app_length.
    rewrite (app_assoc content), (drop_app_length' (content ++ _)), Hrest; [done|].
    rewrite length_app. unfold padding, zeros. rewrite length_replicate. pose proof (next_multiple_ge (length content)). lia.
Qed.

Lemma tar_entries_read es out data :
  Forall archivable es → length out mod BLOCK = 0 → tar_entries out es = Ok data →
  ∃ body, data = out ++ body ∧ ∀ rest fuel ms, untar fuel rest = Some ms →
    untar (length es + fuel) (body ++ rest) = Some ((member_of <$> es) ++ ms).
Proof.
  revert out. induction es as [|e es IH]; intros out Hes Hout Ht; cbn [tar_entries] in Ht.
  { injection Ht as <-. exists []. by rewrite app_nil_r. }
  apply Forall_cons in Hes as [He Hes]. apply rbind_Ok in Ht as (out' & Hout' & Ht).
  destruct (entry_header e out out' He Hout Hout') as (h & H1 & H2 & -> & H4 & H5).
  destruct (IH _ Hes H4 Ht) as (body & -> & Hread). exists (entry_block e h ++ body). split; [by rewrite app_assoc|].
  intros rest fuel ms Hms. rewrite <- app_assoc. by apply untar_entry, Hread.
Qed.

(** ** Lemmas: gzip *)

Lemma length_le_bytes n v : length (le_bytes n v) = n.
Proof. revert v. induction n as [|n IH]; intros v; simpl; [done|]. by rewrite IH. Qed.

Lemma read_le_bytes n v : (v < 256 ^ N.of_nat n)%N → read_le (le_bytes n v) = v.
Proof.
  revert v. induction n as [|n IH]; intros v Hv; cbn [le_bytes read_le].
  - simpl in Hv. lia.
  - rewrite Nat2N.inj_succ, N.pow_succ_r' in Hv. rewrite IH by (apply N.Div0.div_lt_upper_bound; lia).
    pose proof (N.mod_lt v 256 ltac:(lia)). rewrite byte_val_of by done. pose proof (N.div_mod v 256 ltac:(lia)) as Hd.
    rewrite N.add_comm. by symmetry.
Qed.

Lemma chunks_go_spec fuel n l :
  0 < n → length l ≤ fuel → mjoin (chunks_go fuel n l) = l ∧ Forall (λ c, length c ≤ n) (chunks_go fuel n l) ∧
  (l ≠ [] → chunks_go fuel n l ≠ []).
Proof.
  intros Hn. revert l. induction fuel as [|fuel IH]; intros [|c l] Hl; simpl in Hl; try lia;
    try (split_and!; [done|constructor|done]).
  cbn [chunks_go]. destruct (IH (drop n (c :: l))) as (H1 & H2 & _); [rewrite length_drop; simpl; lia|].
  split_and!; [|constructor; [rewrite length_take; lia|done]|done].
  change (take n (c :: l) ++ mjoin (chunks_go fuel n (drop n (c :: l))) = c :: l). rewrite H1. apply take_drop.
Qed.

Lemma inflate_block (last : bool) c fuel rest r :
  length c ≤ MAX → (if last then r = (c, rest) else ∃ out tail, inflate_stored fuel rest = Some (out, tail) ∧ r = (c ++ out, tail)) →
  inflate_stored (S fuel) (stored_block last c ++ rest) = Some r.
Proof.
  intros Hc Hr. unfold stored_block. assert (N.of_nat (length c) < 65536)%N as Hlt by (unfold MAX in Hc; lia).
  rewrite (N.mod_small _ 65536) by done. set (len := N.of_nat (length c)) in *.
  assert (read_le (le_bytes 2 len) = len ∧ read_le (le_bytes 2 (65535 - len)) = (65535 - len)%N) as [H1 H2]
    by (split; apply read_le_bytes; simpl; lia).
  cbn [le_bytes] in H1, H2 |- *. cbn [app inflate_stored]. rewrite H1, H2, N.eqb_refl.
  assert (N.to_nat len = length c) as -> by (unfold len; lia).
  rewrite (proj2 (Nat.ltb_ge _ _)) by (rewrite length_app; lia). cbn [negb orb].
  rewrite take_app_length, drop_app_length. destruct last.
  - rewrite decide_True by done. by rewrite Hr.
  - rewrite decide_False by done. rewrite decide_True by done. by destruct Hr as (out & tail & -> & ->).
Qed.

Lemma inflate_blocks cs rest fuel :
  cs ≠ [] → Forall (λ c, length c ≤ MAX) cs → length cs ≤ fuel →
  inflate_stored fuel (stored_blocks cs ++ rest) = Some (mjoin cs, rest).
Proof.
  revert fuel. induction cs as [|c cs IH]; intros fuel Hne Hall Hf; [done|]. apply Forall_cons in Hall as [Hc Hall].
  destruct fuel as [|fuel]; [simpl in Hf; lia|]. destruct cs as [|c' cs].
  - cbn [stored_blocks]. apply inflate_block; [done|]. cbn. by rewrite app_nil_r.
  - cbn [stored_blocks]. fold (stored_blocks (c' :: cs)). rewrite <- app_assoc. apply inflate_block; [done|].
    exists (mjoin (c' :: cs)), rest. split; [|done]. apply IH; [done|done|]. simpl in *. lia.
Qed.

Lemma length_stored_blocks cs : length cs ≤ length (stored_blocks cs).
Proof.
  induction cs as [|c [|c' cs] IH]; [done|simpl; lia|].
  change (stored_blocks (c :: c' :: cs)) with (stored_block false c ++ stored_blocks (c' :: cs)). rewrite length_app.
  assert (1 ≤ length (stored_block false c)) by (unfold stored_block; simpl; lia).
  change (length (c :: c' :: cs)) with (S (length (c' :: cs))). lia.
Qed.

(** ** Theorems *)

(** A ustar reader reads an archive back as its entries. *)
Theorem tar_read_back es data :
  Forall archivable es → tar es = Ok data → untar (S (length es)) data = Some (member_of <$> es).
Proof.
  intros Hes Ht. unfold tar in Ht. apply rbind_Ok in Ht as (out & Ho & [= <-]).
  destruct (tar_entries_read es [] out Hes eq_refl Ho) as (body & -> & Hread). cbn [app].
  rewrite resize_ge by lia.
  rewrite <- Nat.add_1_r, (Hread _ 1 []), app_nil_r; [done|].
  cbn [untar]. rewrite bool_decide_eq_true_2; [done|]. unfold zeros. rewrite take_replicate.
  f_equal. unfold BLOCK. lia.
Qed.

(** A gunzip reads a member back, unless it was made of nothing: then it has no
    final block. *)
Theorem gzip_read_back data : data ≠ [] → gunzip (gzip data) = Some data.
Proof.
  intros Hne. unfold gunzip, gzip. rewrite (proj2 (strip_prefix_Some _ _ _) eq_refl). cbn [mbind option_bind].
  destruct (chunks_go_spec (length data) MAX data) as (H1 & H2 & H3); [unfold MAX; lia|done|].
  unfold chunks. rewrite inflate_blocks; [|by apply H3|done|rewrite length_app; pose proof (length_stored_blocks (chunks_go (length data) MAX data)); lia].
  cbn [mbind option_bind]. rewrite H1. by rewrite decide_True.
Qed.

Theorem gzip_of_nothing : gunzip (gzip []) = None.
Proof. by vm_compute. Qed.

(** ** The walk *)

(** The files below a node: the names that lead to one, and its content. *)
Inductive file_at : Node → list string → bytes → Prop :=
| AtFile content : file_at (NFile content) [] content
| AtDir items name n names content :
    (name, n) ∈ items → file_at n names content → file_at (NDir items) (name :: names) content.

(** The path of a file in the archive. *)
Fixpoint rel_under (rel : string) (names : list string) : string :=
  match names with [] => rel | name :: names => rel_under (rel +:+ "/" +:+ lossy name) names end.
Definition rel_of (names : list string) : string :=
  match names with [] => "" | name :: names => rel_under (lossy name) names end.

Fixpoint regular (n : Node) : bool :=
  match n with
  | NFile _ => true
  | NDir items => forallb (λ i, regular i.2) items
  | NOther | NUnreadable _ | NNoStat _ => false
  end.

Section node_ind.
Context (P : Node → Prop).
Hypothesis file : ∀ c, P (NFile c).
Hypothesis dir : ∀ items, Forall (λ i, P i.2) items → P (NDir items).
Hypothesis other : P NOther.
Hypothesis unreadable : ∀ e, P (NUnreadable e).
Hypothesis nostat : ∀ e, P (NNoStat e).
Fixpoint node_ind' (n : Node) : P n :=
  match n with
  | NFile c => file c
  | NDir items => dir items ((fix go (l : list (string * Node)) : Forall (λ i, P i.2) l :=
      match l with [] => Forall_nil_2 _ | i :: l => Forall_cons_2 _ _ _ (node_ind' i.2) (go l) end) items)
  | NOther => other
  | NUnreadable e => unreadable e
  | NNoStat e => nostat e
  end.
End node_ind.

Lemma walk_node_dir path rel items :
  walk_node path rel (NDir items) = (let? out := walk_dir path (rel +:+ "/") items in Ok (out ++ [EDir rel])).
Proof.
  cbn [walk_node]. f_equal. induction items as [|[name n] items IH]; [done|]. cbn [walk_dir]. by rewrite <- IH.
Qed.

Lemma walk_dir_regular path prefix items :
  Forall (λ i, ∀ path rel, is_ok (walk_node path rel i.2) = regular i.2) items →
  is_ok (walk_dir path prefix items) = forallb (λ i, regular i.2) items.
Proof.
  induction 1 as [|[name n] items Hn _ IH]; [done|]. cbn [walk_dir forallb fst snd] in *.
  rewrite <- (Hn (path +:+ "/" +:+ name) (prefix +:+ lossy name)), <- IH.
  destruct (walk_node _ _ n); [|done]. by destruct (walk_dir path prefix items).
Qed.

Lemma walk_node_regular n : ∀ path rel, is_ok (walk_node path rel n) = regular n.
Proof.
  induction n as [c|items IH| |e|e] using node_ind'; intros path rel; try done.
  rewrite walk_node_dir. cbn [regular]. rewrite <- (walk_dir_regular path (rel +:+ "/")) by done.
  by destruct (walk_dir path (rel +:+ "/") items).
Qed.

Definition files_listed (n : Node) : Prop := ∀ path rel es r c, walk_node path rel n = Ok es →
  (∃ p, EFile r p c ∈ es) ↔ ∃ names, file_at n names c ∧ r = rel_under rel names.

Lemma walk_dir_files items : Forall (λ i, files_listed i.2) items → ∀ path prefix out r c,
  walk_dir path prefix items = Ok out →
  (∃ p, EFile r p c ∈ out) ↔
  ∃ name n names, (name, n) ∈ items ∧ file_at n names c ∧ r = rel_under (prefix +:+ lossy name) names.
Proof.
  induction 1 as [|[name n] items Hn _ IH]; intros path prefix out r c Hout; cbn [walk_dir] in Hout.
  { injection Hout as <-. split; [intros (? & H%elem_of_nil); done|intros (? & ? & ? & H%elem_of_nil & _); done]. }
  apply rbind_Ok in Hout as (out1 & H1 & Hout). apply rbind_Ok in Hout as (out2 & H2 & [= <-]).
  setoid_rewrite elem_of_app. setoid_rewrite elem_of_cons.
  pose proof (Hn _ _ _ r c H1) as Hfirst. pose proof (IH _ _ out2 r c H2) as Hrest. cbn [snd] in Hfirst. split.
  - intros (p & [Hp|Hp]).
    + destruct (proj1 Hfirst) as (names & Hat & ->); [by exists p|]. exists name, n, names. by split; [left|].
    + destruct (proj1 Hrest) as (name' & n' & names & Hin & Hat & ->); [by exists p|].
      exists name', n', names. by split; [right|].
  - intros (name' & n' & names & [[= -> ->]|Hin] & Hat & Hr).
    + destruct (proj2 Hfirst) as (p & Hp); [by exists names|]. exists p. by left.
    + destruct (proj2 Hrest) as (p & Hp); [by exists name', n', names|]. exists p. by right.
Qed.

Lemma walk_node_files n : files_listed n.
Proof.
  induction n as [c0|items IH| |e|e] using node_ind'; intros path rel es r c Hw; try done.
  - injection Hw as <-. split.
    + intros (p & [= -> -> ->]%list_elem_of_singleton). exists []. by split; [constructor|].
    + intros (names & Hat & ->). inversion Hat; subst. exists path. by apply list_elem_of_singleton.
  - rewrite walk_node_dir in Hw. apply rbind_Ok in Hw as (out & Hout & [= <-]).
    transitivity (∃ p, EFile r p c ∈ out).
    { setoid_rewrite elem_of_app. setoid_rewrite list_elem_of_singleton. naive_solver. }
    rewrite (walk_dir_files items IH _ _ _ r c Hout). split.
    + intros (name & n & names & Hin & Hat & ->). exists (name :: names). split; [by econstructor|].
      cbn [rel_under]. by rewrite string_app_assoc.
    + intros (names & Hat & ->). inversion Hat; subst. do 3 eexists. split_and!; [done..|].
      cbn [rel_under]. by rewrite string_app_assoc.
Qed.

(** The walk refuses a folder that holds anything but regular files and
    directories, at any depth, and lists any other one. *)
Theorem walk_accepts_regular root items :
  is_ok (walk root (Ok (NDir items))) = forallb (λ i, regular i.2) items.
Proof.
  unfold walk. cbn [map_err rbind]. rewrite <- (walk_dir_regular root EmptyString);
    [by destruct (walk_dir root EmptyString items)|].
  apply Forall_forall. intros i _. apply walk_node_regular.
Qed.

Lemma walk_files root items es r c :
  walk root (Ok (NDir items)) = Ok es → (∃ p, EFile r p c ∈ es) ↔ ∃ names, file_at (NDir items) names c ∧ r = rel_of names.
Proof.
  unfold walk. cbn [map_err rbind]. intros (out & Hout & [= <-])%rbind_Ok.
  transitivity (∃ p, EFile r p c ∈ out).
  { setoid_rewrite (sort_by_perm rel_leb out). done. }
  rewrite (walk_dir_files items) by (done || (apply Forall_forall; intros; apply walk_node_files)). split.
  - intros (name & n & names & Hin & Hat & ->). exists (name :: names). by split; [econstructor|].
  - intros (names & Hat & ->). inversion Hat; subst. by do 3 eexists.
Qed.

Lemma tar_nonempty es data : tar es = Ok data → data ≠ [].
Proof.
  unfold tar. intros (out & _ & [= <-])%rbind_Ok. rewrite resize_ge by lia. intros E%(f_equal length).
  rewrite length_app in E. unfold zeros in E. rewrite length_replicate in E. simpl in E. lia.
Qed.

(** C39. What [instructions up] delivers is the folder: a gunzip and a ustar
    reader get from the archive exactly the regular files below the folder, each
    with its content and under its path, wherever in the tree it is; a folder
    with a link or a special file in it is not delivered at all. *)
Theorem archive_holds_folder root items :
  (forallb (λ i, regular i.2) items = false → is_ok (walk root (Ok (NDir items))) = false) ∧
  ∀ es data, walk root (Ok (NDir items)) = Ok es → Forall archivable es → tar es = Ok data →
  ∃ members, gunzip (gzip data) ≫= untar (S (length es)) = Some members ∧
    ∀ path content, (∃ m, m ∈ members ∧ m_kind m = "0"%char ∧ m_path m = B path ∧ m_content m = content) ↔
      ∃ names, file_at (NDir items) names content ∧ path = rel_of names.
Proof.
  split; [by rewrite walk_accepts_regular|]. intros es data Hw Ha Ht. exists (member_of <$> es). split.
  { rewrite gzip_read_back by by eapply tar_nonempty. cbn [mbind option_bind]. by apply tar_read_back. }
  intros path content. rewrite <- (walk_files root items es) by done. split.
  - intros (m & (e & -> & He)%list_elem_of_fmap & Hk & Hp & Hc).
    destruct e as [rel|rel p c]; simpl in *; [done|]. apply (inj B) in Hp as ->. subst. by exists p.
  - intros (p & Hp). exists (member_of (EFile path p content)). split_and!; [|done..]. by apply list_elem_of_fmap_2.
Qed.

Lemma archive_holds_folder_witness :
  ∃ es data members,
    walk "f" (Ok (NDir [("b", NDir [("c.md", NFile (B "hi"))])])) = Ok es ∧ tar es = Ok data ∧
    gunzip (gzip data) ≫= untar (S (length es)) = Some members ∧
    ∀ path content, (∃ m, m ∈ members ∧ m_kind m = "0"%char ∧ m_path m = B path ∧ m_content m = content) ↔
      ∃ names, file_at (NDir [("b", NDir [("c.md", NFile (B "hi"))])]) names content ∧ path = rel_of names.
Proof.
  destruct (tar [EDir "b"; EFile "b/c.md" "f/b/c.md" (B "hi")]) as [data|e] eqn:Et; [|by vm_compute in Et].
  destruct (proj2 (archive_holds_folder "f" [("b", NDir [("c.md", NFile (B "hi"))])])
              [EDir "b"; EFile "b/c.md" "f/b/c.md" (B "hi")] data) as (members & H1 & H2).
  - reflexivity.
  - apply Forall_cons; split; [|apply Forall_singleton]; (split_and!; [by_compute|done|done|done]).
  - exact Et.
  - eexists _, data, members. split_and!; [reflexivity|exact Et|exact H1|exact H2].
Defined.

(** The published check value of CRC-32. *)
Example crc32_check : crc32 (B "123456789") = 3421780262%N.
Proof. by vm_compute. Qed.
