(* ===== verification/Shell.v ===== *)
(** * Shell programs

    The command line ([cli/src]) is a sequence of calls to other programs and
    to the file system. A command is modelled as a tree of such effects: each
    node is one effect and has a branch for every answer of the environment.
    Its traces are the paths of the tree, so a statement about all traces holds
    whatever the other programs do; since every branch continues, a run that is
    killed half-way is a prefix of one of them.

    Models [cli/src/runner.rs], [wait_for] and [delete_cr] of
    [cli/src/commands/common.rs], [cli/src/scope.rs], [TempFile], [random_hex]
    and [prompt] of [cli/src/commands/operator.rs], the tracked files of
    [cli/src/interrupt.rs] and [cli/src/sync.rs]. Progress lines on the terminal
    are not modelled. *)

From stdpp Require Import pretty.
From S2P Require Import Prelude Text ConfigMaps Toolset Sse Archive.

(** ** Effects *)

(** How a program's standard streams are connected. *)
Inductive Streams : Type := Inherited | Captured | Silent | Piped (input : string).

Inductive Effect : Type :=
| Exec (streams : Streams) (dir : option string) (cmd : string) (args : list string)
| Spawn (cmd : string) (args : list string)          (* left running *)
| ReadFile (path : string)
| WriteFile (path content : string)
| CreateNew (path content : string)                  (* exclusively, mode 0600 *)
| RemoveFile (path : string)
| RemoveDirAll (path : string)
| CreateDirAll (path : string)
| CopyFile (src dst : string)
| IsFile (path : string)
| ListDir (path : string)
| ReadTree (path : string)                           (* a folder with all below it *)
| ExtractChart (chart dir : string)
| GetEnv (name : string)
| TempDir
| Random                                             (* 16 bytes in hex *)
| ReadLine (label : string) (hidden : bool)
| StdinIsTerminal
| ReadStdin
| DeadlinePassed
| Track (path : string)                              (* the statics of [interrupt.rs] *)
| Forget (path : string)
| SetEchoOff (b : bool).

(** What an effect answers: done, with its output; a folder; ended with a failure
    status, with what it printed on standard error; or not done: not started, or
    its input not taken, or not waited for. *)
Inductive Answer : Type :=
| Done (out : string)
| Listed (n : Node)
| Failed (status err : string)
| Refused (e : string)
| Unwritten (e : string)
| Unwaited (e : string).

Definition is_done (ans : Answer) : bool := match ans with Done _ | Listed _ => true | _ => false end.

#[export] Instance Streams_eq_dec : EqDecision Streams.
Proof. solve_decision. Defined.
#[export] Instance Effect_eq_dec : EqDecision Effect.
Proof. solve_decision. Defined.

Definition Event : Type := Effect * Answer.

Inductive Prog (A : Type) : Type :=
| Ret (a : A)
| Do (e : Effect) (k : Answer → Prog A).
Arguments Ret {A} _.
Arguments Do {A} _ _.

Fixpoint pbind {A B} (p : Prog A) (f : A → Prog B) : Prog B :=
  match p with Ret a => f a | Do e k => Do e (λ ans, pbind (k ans) f) end.

(** The programs that can fail. *)
Definition Cmd (A : Type) : Type := Prog (result A string).

Definition cbind {A B} (p : Cmd A) (f : A → Cmd B) : Cmd B :=
  pbind p (λ r, match r with Ok a => f a | Err e => Ret (Err e) end).

Notation "'let*' x := p 'in' k" := (pbind p (λ x, k))
  (at level 10, x binder, p at level 100, k at level 200).
Notation "'let!' x := p 'in' k" := (cbind p (λ x, k))
  (at level 10, x binder, p at level 100, k at level 200).

Definition effect (e : Effect) : Prog Answer := Do e Ret.
Definition ret_ok {A} (a : A) : Cmd A := Ret (Ok a).
Definition lift {A} (r : result A string) : Cmd A := Ret r.

(** [map_err]. *)
Definition pmap_err {A} (f : string → string) (p : Cmd A) : Cmd A := let* r := p in Ret (map_err f r).

(** A [for] loop with [?]. *)
Fixpoint for_each {A} (l : list A) (body : A → Cmd unit) : Cmd unit :=
  match l with [] => ret_ok tt | a :: l => let! _ := body a in for_each l body end.

(** The traces of a program, with its result. *)
Inductive exec {A} : Prog A → list Event → A → Prop :=
| ExecRet a : exec (Ret a) [] a
| ExecDo e k ans tr a : exec (k ans) tr a → exec (Do e k) ((e, ans) :: tr) a.

(** ** [runner.rs] *)

Definition not_run (cmd e : string) : string := "failed to run " +:+ cmd +:+ ": " +:+ e.

Definition done_or_status (cmd : string) (ans : Answer) : result unit string :=
  match ans with
  | Done _ | Listed _ => Ok tt
  | Failed status _ => Err (cmd +:+ " exited with " +:+ status)
  | Refused e | Unwritten e | Unwaited e => Err (not_run cmd e)
  end.

Definition run_passthrough (cmd : string) (args : list string) : Cmd unit :=
  let* ans := effect (Exec Inherited None cmd args) in Ret (done_or_status cmd ans).

Definition run_passthrough_in (dir cmd : string) (args : list string) : Cmd unit :=
  let* ans := effect (Exec Inherited (Some dir) cmd args) in Ret (done_or_status cmd ans).

Definition done_or_stderr (cmd : string) (ans : Answer) : result string string :=
  match ans with
  | Done out => Ok out
  | Listed _ => Ok EmptyString
  | Failed _ err => Err (cmd +:+ " failed: " +:+ lossy err)
  | Refused e => Err (not_run cmd e)
  | Unwritten e => Err ("failed to write to " +:+ cmd +:+ " stdin: " +:+ e)
  | Unwaited e => Err (cmd +:+ " wait failed: " +:+ e)
  end.

Definition run_output (cmd : string) (args : list string) : Cmd string :=
  let* ans := effect (Exec Captured None cmd args) in
  Ret (let? out := done_or_stderr cmd ans in Ok (str_trim (lossy out))).

Definition run_stdin_bytes (cmd : string) (args : list string) (input : string) : Cmd string :=
  let* ans := effect (Exec (Piped input) None cmd args) in Ret (done_or_stderr cmd ans).

Definition run_stdin (cmd : string) (args : list string) (input : string) : Cmd unit :=
  let* ans := effect (Exec (Piped input) None cmd args) in Ret (let? _ := done_or_stderr cmd ans in Ok tt).

Definition run_silent (cmd : string) (args : list string) : Prog bool :=
  let* ans := effect (Exec Silent None cmd args) in Ret (is_done ans).

(** ** Files, environment, clock *)

Definition io_error (ans : Answer) : result string string :=
  match ans with
  | Done out => Ok out
  | Listed _ => Ok EmptyString
  | Failed _ e | Refused e | Unwritten e | Unwaited e => Err e
  end.

Definition fs_call (e : Effect) (context : string) : Cmd string :=
  let* ans := effect e in Ret (map_err (λ err, context +:+ ": " +:+ err) (io_error ans)).

(** [let _ = ...]. *)
Definition ignore (e : Effect) : Prog unit := let* _ := effect e in Ret tt.

(** [env::var]. *)
Definition env_var (name : string) : Prog (option string) :=
  let* ans := effect (GetEnv name) in Ret (match ans with Done v => Some v | _ => None end).

Definition is_file (path : string) : Prog bool :=
  let* ans := effect (IsFile path) in Ret (is_done ans).

(** [wait_for]: [check] also gives what the closure leaves in its variables.
    Polls are two seconds apart, so after [secs / 2 + 1] of them the deadline
    has passed. *)
Fixpoint wait_polls {X} (n : nat) (desc : string) (secs : N) (check : Prog (bool * X)) : Prog (X * result unit string) :=
  let* r := check in
  if r.1 then Ret (r.2, Ok tt) else
  match n with
  | O => Ret (r.2, Err ("timed out after " +:+ pretty secs +:+ "s waiting for: " +:+ desc))
  | S n =>
      let* ans := effect DeadlinePassed in
      match ans with
      | Done _ => Ret (r.2, Err ("timed out after " +:+ pretty secs +:+ "s waiting for: " +:+ desc))
      | _ => wait_polls n desc secs check
      end
  end.

Definition wait_for {X} (desc : string) (secs : N) (check : Prog (bool * X)) : Prog (X * result unit string) :=
  wait_polls (S (N.to_nat (secs / 2))) desc secs check.

(** A check that leaves nothing. *)
Definition wait_for_ (desc : string) (secs : N) (check : Prog bool) : Cmd unit :=
  let* r := wait_for desc secs (let* b := check in Ret (b, tt)) in Ret r.2.

Definition delete_cr (kind name namespace : string) : Cmd bool :=
  let! result := run_output "kubectl" ["delete"; kind; name; "-n"; namespace; "--ignore-not-found"] in
  ret_ok (contains (B "deleted") (B result)).

(** ** [scope.rs] *)

(** [PathBuf::join]: an absolute path replaces the base, and no slash is doubled. *)
Definition path_join (base p : string) : string :=
  if str_starts_with "/" p then p
  else if str_is_empty base then p
  else match last (B base) with
       | Some c => if decide (c = "/"%char) then base +:+ p else base +:+ "/" +:+ p
       | None => p
       end.

Definition config_dir_from (over home : option string) : option string :=
  match over with
  | Some dir => if str_is_empty dir then (λ h, path_join (path_join h ".config") "sycophant") <$> home else Some dir
  | None => (λ h, path_join (path_join h ".config") "sycophant") <$> home
  end.

Definition config_dir : Prog (option string) :=
  let* over := env_var "SYCO_CONFIG_DIR" in let* home := env_var "HOME" in Ret (config_dir_from over home).

Record Scope : Type := mkScope { sc_root : string; sc_tenant : option string }.

Definition Scope_global : Cmd Scope :=
  let* dir := config_dir in
  Ret (let? root := ok_or dir "neither SYCO_CONFIG_DIR nor HOME is set" in Ok (mkScope root None)).

Definition Scope_for_tenant (ns : string) : Cmd Scope :=
  let! s := Scope_global in ret_ok (mkScope (sc_root s) (Some ns)).

Definition chart_dir (s : Scope) (name : string) : string := path_join (path_join (sc_root s) "charts") name.
Definition commands_chart_dir (s : Scope) : string := chart_dir s "sycophant-commands".
Definition cluster_chart_dir (s : Scope) : string := chart_dir s "sycophant-cluster".
Definition gvisor_chart_dir (s : Scope) : string := chart_dir s "sycophant-gvisor".
Definition dex_chart_dir (s : Scope) : string := chart_dir s "sycophant-dex".
Definition kyverno_crds_chart_dir (s : Scope) : string := chart_dir s "kyverno-crds".
Definition instructions_dir (s : Scope) : string := path_join (sc_root s) "instructions".
Definition oidc_dir (s : Scope) : string := path_join (sc_root s) "oidc".
Definition version_file (s : Scope) : string := path_join (sc_root s) "version".

Definition release_name (s : Scope) : result string string :=
  ok_or (sc_tenant s) "no tenant in scope (cluster-level command?)".

(** ** [sync.rs] *)

Definition extract (dir chart : string) : Cmd unit :=
  let* _ := ignore (RemoveDirAll dir) in
  let! _ := fs_call (CreateDirAll dir) ("failed to create " +:+ dir) in
  let! _ := fs_call (ExtractChart chart dir) ("failed to extract chart to " +:+ dir) in
  ret_ok tt.

Definition ASSETS : list string :=
  ["sycophant-cluster"; "sycophant-tenant"; "sycophant-workspace"; "sycophant-inference"; "sycophant-toolset";
   "sycophant-user"; "sycophant-channel"; "sycophant-gvisor"; "sycophant-dex"; "kyverno-crds"; "sycophant-objectstore"].

Definition extract_assets (version : string) (scope : Scope) : Cmd unit :=
  let! _ := for_each ASSETS (λ name, extract (chart_dir scope name) name) in
  let! _ := fs_call (WriteFile (version_file scope) version) "failed to write version file" in
  ret_ok tt.

Definition extract_commands_chart (scope : Scope) : Cmd string :=
  let! _ := extract (commands_chart_dir scope) "sycophant-commands" in ret_ok (commands_chart_dir scope).

(** ** Private temporary files *)

Definition random_hex : Cmd string := fs_call Random "failed to read /dev/urandom".

(** [TempFile::new]: its result owns the file. One that could not be created is
    only forgotten; one that could not be written is dropped. *)
Definition drop_temp (path : string) : Prog unit :=
  let* _ := effect (RemoveFile path) in ignore (Forget path).

Definition TempFile_new (suffix content : string) : Cmd string :=
  let* tmp := effect TempDir in
  let! hex := random_hex in
  let path := path_join (match tmp with Done d => d | _ => EmptyString end) ("syco-" +:+ hex +:+ "." +:+ suffix) in
  let* _ := effect (Track path) in
  let* ans := effect (CreateNew path content) in
  match ans with
  | Done _ | Listed _ => ret_ok path
  | Unwritten e => let* _ := drop_temp path in Ret (Err ("failed to write " +:+ path +:+ ": " +:+ e))
  | Failed _ e | Refused e | Unwaited e =>
      let* _ := ignore (Forget path) in Ret (Err ("failed to create " +:+ path +:+ ": " +:+ e))
  end.

(** A value that owns a file, used by [body] and dropped after it. *)
Definition scoped {R A} (new : Cmd R) (path_of : R → string) (body : R → Cmd A) : Cmd A :=
  let! r := new in let* x := body r in let* _ := drop_temp (path_of r) in Ret x.

Definition with_temp {A} (suffix content : string) (body : string → Cmd A) : Cmd A :=
  scoped (TempFile_new suffix content) id body.

(** ** [interrupt.rs] *)

Definition set_echo (on : bool) : Prog unit :=
  ignore (Exec Inherited None "stty" [if on then "echo" else "-echo"]).
Definition echo_off : Prog unit := let* _ := effect (SetEchoOff true) in set_echo false.
Definition echo_on : Prog unit := let* _ := set_echo true in ignore (SetEchoOff false).

(** The statics, with what they stand for: the private files that exist and
    whether the terminal echoes. A removal that was tried counts as done. *)
Record Held : Type := mkHeld { FILES : list string; alive : list string; ECHO_OFF : bool; hushed : bool }.

(** [Tracked]. *)
Definition track (files : list string) (path : string) : list string := files ++ [path].
Definition forget (files : list string) (path : string) : list string := filter (λ f, f ≠ path) files.

Definition held_step (h : Held) (ev : Event) : Held :=
  match ev with
  | (Track p, _) => mkHeld (track (FILES h) p) (alive h) (ECHO_OFF h) (hushed h)
  | (Forget p, _) => mkHeld (forget (FILES h) p) (alive h) (ECHO_OFF h) (hushed h)
  | (SetEchoOff b, _) => mkHeld (FILES h) (alive h) b (hushed h)
  | (CreateNew p _, (Done _ | Listed _ | Unwritten _)) => mkHeld (FILES h) (alive h ++ [p]) (ECHO_OFF h) (hushed h)
  | (RemoveFile p, _) => mkHeld (FILES h) (filter (λ f, f ≠ p) (alive h)) (ECHO_OFF h) (hushed h)
  | (Exec _ _ cmd args, _) =>
      if decide (cmd = "stty" ∧ args = ["-echo"]) then mkHeld (FILES h) (alive h) (ECHO_OFF h) true
      else if decide (cmd = "stty" ∧ args = ["echo"]) then mkHeld (FILES h) (alive h) (ECHO_OFF h) false
      else h
  | _ => h
  end.

Definition held_run (h : Held) (tr : list Event) : Held := foldl held_step h tr.

Fixpoint remove_all (files : list string) : Prog unit :=
  match files with [] => Ret tt | f :: files => let* _ := ignore (RemoveFile f) in remove_all files end.

(** The handler, up to the exit. *)
Definition on_interrupt (h : Held) : Prog unit :=
  let* _ := if ECHO_OFF h then set_echo true else Ret tt in remove_all (FILES h).

(** ** [prompt] *)

(** [trim_end_matches] of line ends. *)
Fixpoint trim_eol_rev (s : bytes) : bytes :=
  match s with
  | c :: s' => if decide (c = newline ∨ c = carriage) then trim_eol_rev s' else s
  | [] => []
  end.
Definition trim_eol (s : string) : string := str_of (reverse (trim_eol_rev (reverse (B s)))).

Definition nonempty (o : option string) : option string := o ≫= λ s, if str_is_empty s then None else Some s.

Definition prompt (label env : string) (hidden : bool) : Cmd string :=
  let* from_env := env_var env in
  match nonempty from_env with
  | Some v => ret_ok v
  | None =>
      let* tty := if hidden then (let* ans := effect StdinIsTerminal in Ret (is_done ans)) else Ret false in
      let* _ := if tty : bool then echo_off else Ret tt in
      let* read := effect (ReadLine label hidden) in
      let* _ := if tty : bool then echo_on else Ret tt in
      let! line := lift (map_err (λ e, "failed to read " +:+ label +:+ ": " +:+ e) (io_error read)) in
      let v := trim_eol line in
      Ret (if str_is_empty v then Err (label +:+ " must not be empty") else Ok v)
  end.

(** ** Lemmas *)

Lemma exec_bind {A B} (p : Prog A) (f : A → Prog B) tr b :
  exec (pbind p f) tr b ↔ ∃ tr1 a tr2, tr = tr1 ++ tr2 ∧ exec p tr1 a ∧ exec (f a) tr2 b.
Proof.
  split.
  - revert tr. induction p as [a|e k IH]; intros tr H; simpl in H.
    + exists [], a, tr. by split_and!; [|constructor|].
    + inversion H as [|? ? ans tr' ? Hk]; subst. destruct (IH ans tr' Hk) as (tr1 & a & tr2 & -> & H1 & H2).
      exists ((e, ans) :: tr1), a, tr2. by split_and!; [|constructor|].
  - intros (tr1 & a & tr2 & -> & H1 & H2). induction H1 as [|e k ans tr1 a _ IH]; simpl; [done|]. constructor. by apply IH.
Qed.

Lemma exec_ret {A} (a b : A) tr : exec (Ret a) tr b ↔ tr = [] ∧ b = a.
Proof. split; [by inversion 1|]. intros [-> ->]. constructor. Qed.

Lemma exec_effect e tr ans : exec (effect e) tr ans ↔ tr = [(e, ans)].
Proof.
  unfold effect. split.
  - intros H. inversion H as [|? ? ? tr' ? H']; subst. inversion H'; by subst.
  - intros ->. repeat constructor.
Qed.

Lemma exec_cbind {A B} (p : Cmd A) (f : A → Cmd B) tr r :
  exec (cbind p f) tr r ↔
  (∃ e, exec p tr (Err e) ∧ r = Err e) ∨ ∃ tr1 a tr2, tr = tr1 ++ tr2 ∧ exec p tr1 (Ok a) ∧ exec (f a) tr2 r.
Proof.
  unfold cbind. rewrite exec_bind. split.
  - intros (tr1 & [a|e] & tr2 & -> & H1 & H2); [by right; exists tr1, a, tr2|]. apply exec_ret in H2 as [-> ->].
    left. exists e. by rewrite app_nil_r.
  - intros [(e & H & ->)|(tr1 & a & tr2 & -> & H1 & H2)].
    + exists tr, (Err e), []. rewrite app_nil_r. by split_and!; [| |constructor].
    + by exists tr1, (Ok a), tr2.
Qed.

(** Every tree has a trace: a program ends whatever it is answered. *)
Lemma exec_total {A} (p : Prog A) (answer : Effect → Answer) : ∃ tr a, exec p tr a ∧ Forall (λ ev, ev.2 = answer ev.1) tr.
Proof.
  induction p as [a|e k IH]; [exists [], a; split; constructor|].
  destruct (IH (answer e)) as (tr & a & H & Ht). exists ((e, answer e) :: tr), a. split; [by constructor|by constructor].
Qed.

(** ** What a program may do

    [emits P p]: every effect of every run of [p] satisfies [P]. *)

Fixpoint emits {A} (P : Effect → Prop) (p : Prog A) : Prop :=
  match p with Ret _ => True | Do e k => P e ∧ ∀ ans, emits P (k ans) end.

Lemma emits_exec {A} P (p : Prog A) tr a : emits P p → exec p tr a → Forall (λ ev, P ev.1) tr.
Proof. intros Hp H. induction H as [|e k ans tr a _ IH]; [constructor|]. destruct Hp as [He Hk]. constructor; [done|]. by apply IH. Qed.

Lemma emits_bind {A B} P (p : Prog A) (f : A → Prog B) : emits P p → (∀ a, emits P (f a)) → emits P (pbind p f).
Proof. intros Hp Hf. induction p as [a|e k IH]; simpl; [done|]. destruct Hp as [He Hk]. split; [done|]. intros ans. by apply IH. Qed.

Lemma emits_cbind {A B} P (p : Cmd A) (f : A → Cmd B) : emits P p → (∀ a, emits P (f a)) → emits P (cbind p f).
Proof. intros Hp Hf. apply emits_bind; [done|]. by intros [a|e]. Qed.

Lemma emits_for_each {A} P (l : list A) body : (∀ a, a ∈ l → emits P (body a)) → emits P (for_each l body).
Proof.
  induction l as [|a l IH]; intros H; simpl; [done|]. apply emits_cbind; [apply H; left|]. intros _. apply IH.
  intros b Hb. apply H. by right.
Qed.

Lemma emits_wait_polls {X} P n desc secs (check : Prog (bool * X)) :
  emits P check → P DeadlinePassed → emits P (wait_polls n desc secs check).
Proof.
  intros Hc Hd. induction n as [|n IH]; simpl; apply emits_bind; try done; intros r; case_match; try done.
  simpl. split; [done|]. intros []; done.
Qed.

Lemma emits_wait_for {X} P desc secs (check : Prog (bool * X)) :
  emits P check → P DeadlinePassed → emits P (wait_for desc secs check).
Proof. apply emits_wait_polls. Qed.

Lemma emits_wait_for_ P desc secs (check : Prog bool) :
  emits P check → P DeadlinePassed → emits P (wait_for_ desc secs check).
Proof. intros Hc Hd. apply emits_bind; [|done]. apply emits_wait_for; [|done]. by apply emits_bind. Qed.

Lemma emits_mono {A} (P Q : Effect → Prop) (p : Prog A) : (∀ e, P e → Q e) → emits P p → emits Q p.
Proof. intros H. induction p as [a|e k IH]; simpl; [done|]. intros [He Hk]. split; auto. Qed.

(** ** What is held

    [spec O p Q]: run where exactly the files [O] are held and the terminal
    echoes, [p] keeps at every moment every existing private file tracked and a
    silenced terminal noted, and leaves the terminal echoing and files held that
    are related to its result by [Q]. Private paths must not be drawn twice
    while the first is in use ([fresh]); they are 128 random bits. *)

Definition holding (O : list string) : Held := mkHeld O O false false.

Definition guarded (h : Held) : Prop := alive h ⊆ FILES h ∧ (hushed h = true → ECHO_OFF h = true).

Fixpoint fresh (h : Held) (tr : list Event) : Prop :=
  match tr with
  | [] => True
  | ev :: tr => match ev.1 with Track p => p ∉ FILES h | _ => True end ∧ fresh (held_step h ev) tr
  end.

Definition always_guarded (h : Held) (tr : list Event) : Prop := ∀ pre, pre `prefix_of` tr → guarded (held_run h pre).

Definition spec {A} (O : list string) (p : Prog A) (Q : A → list string → Prop) : Prop :=
  ∀ tr a, exec p tr a → fresh (holding O) tr →
  always_guarded (holding O) tr ∧ ∃ O', held_run (holding O) tr = holding O' ∧ Q a O'.

Definition still {A} (p : Prog A) : Prop := ∀ O, spec O p (λ _ O', O' = O).

Lemma fresh_app h tr1 tr2 : fresh h (tr1 ++ tr2) ↔ fresh h tr1 ∧ fresh (held_run h tr1) tr2.
Proof. revert h. induction tr1 as [|ev tr1 IH]; intros h; simpl; [naive_solver|]. rewrite IH. unfold held_run. simpl. tauto. Qed.

Lemma guarded_holding O : guarded (holding O).
Proof. split; [done|]. done. Qed.

Lemma always_guarded_nil h : guarded h → always_guarded h [].
Proof. intros H pre Hpre. by apply prefix_nil_inv in Hpre as ->. Qed.

Lemma always_guarded_cons h ev tr : guarded h → always_guarded (held_step h ev) tr → always_guarded h (ev :: tr).
Proof.
  intros H Ht [|ev' pre] Hpre; [done|]. pose proof (prefix_cons_inv_1 _ _ _ _ Hpre) as ->.
  apply prefix_cons_inv_2 in Hpre. by apply Ht.
Qed.

Lemma always_guarded_app h tr1 tr2 :
  always_guarded h tr1 → always_guarded (held_run h tr1) tr2 → always_guarded h (tr1 ++ tr2).
Proof.
  revert h. induction tr1 as [|ev tr1 IH]; intros h H1 H2; [done|]. simpl.
  apply always_guarded_cons; [apply (H1 []), prefix_nil|]. apply IH; [|done].
  intros pre Hpre. by apply (H1 (ev :: pre)), prefix_cons.
Qed.

Lemma spec_ret {A} O (a : A) (Q : A → list string → Prop) : Q a O → spec O (Ret a) Q.
Proof. intros HQ tr b [-> ->]%exec_ret _. split; [apply always_guarded_nil, guarded_holding|]. by exists O. Qed.

Lemma spec_bind {A B} O (p : Prog A) (f : A → Prog B) Q R :
  spec O p Q → (∀ a O', Q a O' → spec O' (f a) R) → spec O (pbind p f) R.
Proof.
  intros Hp Hf tr b (tr1 & a & tr2 & -> & H1 & H2)%exec_bind [F1 F2]%fresh_app.
  destruct (Hp _ _ H1 F1) as [G1 (O' & E1 & HQ)]. rewrite E1 in F2.
  destruct (Hf _ _ HQ _ _ H2 F2) as [G2 (O'' & E2 & HR)]. split.
  - apply always_guarded_app; [done|]. by rewrite E1.
  - exists O''. split; [|done]. unfold held_run in *. by rewrite foldl_app, E1.
Qed.

Lemma spec_mono {A} O (p : Prog A) (Q R : A → list string → Prop) :
  spec O p Q → (∀ a O', Q a O' → R a O') → spec O p R.
Proof. intros Hp H tr a He Hf. destruct (Hp tr a He Hf) as [Hg (O' & E & HQ)]. eauto. Qed.

Lemma still_ret {A} (a : A) : still (Ret a).
Proof. intros O. by apply spec_ret. Qed.

Lemma still_bind {A B} (p : Prog A) (f : A → Prog B) : still p → (∀ a, still (f a)) → still (pbind p f).
Proof. intros Hp Hf O. eapply spec_bind; [apply Hp|]. intros a O' ->. apply Hf. Qed.

Lemma still_cbind {A B} (p : Cmd A) (f : A → Cmd B) : still p → (∀ a, still (f a)) → still (cbind p f).
Proof. intros Hp Hf. apply still_bind; [done|]. intros [a|e]; [done|apply still_ret]. Qed.

(** The effects that hold nothing. *)
Definition plain (e : Effect) : Prop :=
  match e with
  | Track _ | Forget _ | SetEchoOff _ | CreateNew _ _ | RemoveFile _ => False
  | Exec _ _ cmd _ => cmd ≠ "stty"
  | _ => True
  end.

Lemma held_step_plain h e ans : plain e → held_step h (e, ans) = h.
Proof. destruct e; simpl; try done. intros H. rewrite !decide_False by tauto. done. Qed.

Lemma still_effect e : plain e → still (effect e).
Proof.
  intros He O tr ans ->%exec_effect _. split.
  - apply always_guarded_cons; [apply guarded_holding|]. apply always_guarded_nil. rewrite held_step_plain by done.
    apply guarded_holding.
  - exists O. split; [exact (held_step_plain _ _ _ He)|done].
Qed.

Lemma still_ignore e : plain e → still (ignore e).
Proof. intros He. apply still_bind; [by apply still_effect|]. intros _. apply still_ret. Qed.

Lemma still_for_each {A} (l : list A) body : (∀ a, a ∈ l → still (body a)) → still (for_each l body).
Proof.
  induction l as [|a l IH]; intros H; simpl; [apply still_ret|]. apply still_cbind; [apply H; left|]. intros _. apply IH.
  intros b Hb. apply H. by right.
Qed.

Lemma still_wait_polls {X} n desc secs (check : Prog (bool * X)) : still check → still (wait_polls n desc secs check).
Proof.
  intros Hc. induction n as [|n IH]; simpl; apply still_bind; try done; intros r; case_match; try apply still_ret.
  apply (still_bind (effect DeadlinePassed)); [by apply still_effect|]. intros []; try apply still_ret; done.
Qed.

Lemma still_wait_for {X} desc secs (check : Prog (bool * X)) : still check → still (wait_for desc secs check).
Proof. apply still_wait_polls. Qed.

Lemma still_wait_for_ desc secs (check : Prog bool) : still check → still (wait_for_ desc secs check).
Proof.
  intros Hc. apply still_bind; [|intros; apply still_ret]. apply still_wait_for. apply still_bind; [done|].
  intros. apply still_ret.
Qed.

(** Owning a file. *)
Definition owns (O : list string) (r : result string string) (O' : list string) : Prop :=
  match r with Ok p => p ∉ O ∧ O' = O ++ [p] | Err _ => O' = O end.

Lemma filter_other (O : list string) (p : string) : p ∉ O → filter (λ f, f ≠ p) (O ++ [p]) = O.
Proof.
  intros Hp. rewrite filter_app, filter_cons_False by auto. rewrite filter_nil, app_nil_r.
  induction O as [|q O IH]; [done|]. apply not_elem_of_cons in Hp as [Hq Hp]. rewrite filter_cons_True by congruence.
  by rewrite IH.
Qed.

(** Between the steps of a bracket the state is not [holding], so their effects
    are followed one by one. *)
Lemma spec_drop_temp O p : p ∉ O → spec (O ++ [p]) (drop_temp p) (λ _ O', O' = O).
Proof.
  intros Hp tr [] (tr1 & ans & tr2 & -> & ->%exec_effect & H)%exec_bind _.
  apply exec_bind in H as (tr3 & ans' & tr4 & -> & ->%exec_effect & [-> _]%exec_ret).
  split; [|exists O; split; [|done]; unfold held_run, holding; simpl; unfold forget; by rewrite filter_other].
  apply always_guarded_cons; [apply guarded_holding|]. apply always_guarded_cons.
  - split; simpl; [|done]. rewrite filter_other by done. set_solver.
  - apply always_guarded_nil. split; simpl; [|done]. unfold forget. by rewrite filter_other.
Qed.

Lemma guarded_tracked O p : guarded (held_step (holding O) (Track p, Done EmptyString)).
Proof. split; simpl; [|done]. unfold track. set_solver. Qed.

Lemma spec_create O path content :
  spec O (let* _ := effect (Track path) in
          let* ans := effect (CreateNew path content) in
          match ans with
          | Done _ | Listed _ => ret_ok path
          | Unwritten e => let* _ := drop_temp path in Ret (Err ("failed to write " +:+ path +:+ ": " +:+ e))
          | Failed _ e | Refused e | Unwaited e =>
              let* _ := ignore (Forget path) in Ret (Err ("failed to create " +:+ path +:+ ": " +:+ e))
          end) (owns O).
Proof.
  intros tr r (tr1 & a1 & tr2 & -> & ->%exec_effect & H)%exec_bind.
  apply exec_bind in H as (tr3 & ans & tr4 & -> & ->%exec_effect & H). intros (Hf & _ & Hrest). simpl in Hf.
  assert (Htrack : guarded (held_step (holding O) (Track path, a1))) by apply guarded_tracked.
  enough (∀ h, h = held_step (held_step (holding O) (Track path, a1)) (CreateNew path content, ans) →
          always_guarded h tr4 ∧ ∃ O', held_run h tr4 = holding O' ∧ owns O r O') as Hend.
  { destruct (Hend _ eq_refl) as [Hg Hh]. split; [|exact Hh].
    do 2 (apply always_guarded_cons; [done || apply guarded_holding|]). done. }
  intros h ->. assert (Hnew : ∀ a, is_done ans = true ∨ ans = Unwritten a →
    held_step (held_step (holding O) (Track path, a1)) (CreateNew path content, ans) = holding (O ++ [path])).
  { intros a [Ha|Ha]; destruct ans; try done. }
  destruct ans as [out|n|st e|e|e|e]; [| | | |rewrite (Hnew e) in Hrest |- * by (by right)|].
  1,2: rewrite (Hnew EmptyString) by (by left); apply exec_ret in H as [-> ->];
    split; [apply always_guarded_nil, guarded_holding|]; by exists (O ++ [path]).
  3: { apply exec_bind in H as (tr5 & [] & tr6 & -> & H & [-> ->]%exec_ret).
       destruct (spec_drop_temp O path Hf tr5 tt H) as [Hg (O' & E & ->)];
         [simpl in Hrest; by apply fresh_app in Hrest as [Hr _]|]. rewrite app_nil_r. split; [done|]. by exists O. }
  all: apply exec_bind in H as (tr5 & [] & tr6 & -> & H & [-> ->]%exec_ret);
    apply exec_bind in H as (tr7 & a7 & tr8 & -> & ->%exec_effect & [-> _]%exec_ret);
    assert (E : held_step (held_step (holding O) (Track path, a1)) (Forget path, a7) = holding O)
      by (unfold holding; simpl; unfold forget, track; by rewrite filter_other);
    (split; [apply always_guarded_cons; [done|]; apply always_guarded_nil; simpl app;
             change (guarded (held_step (held_step (holding O) (Track path, a1)) (Forget path, a7)));
             rewrite E; apply guarded_holding|exists O; by split; [exact E|]]).
Qed.

Lemma spec_TempFile_new O suffix content : spec O (TempFile_new suffix content) (owns O).
Proof.
  unfold TempFile_new. eapply spec_bind; [by apply still_effect|]. intros tmp ? ->.
  eapply spec_bind; [apply (still_bind (effect Random)); [by apply still_effect|intros; apply still_ret]|].
  intros [hex|e] ? ->; [apply spec_create|by apply spec_ret].
Qed.

(** The value owns one file, given by [path_of]. *)
Lemma still_scoped {R A} (new : Cmd R) path_of (body : R → Cmd A) :
  (∀ O, spec O new (λ r, owns O (let? x := r in Ok (path_of x)))) → (∀ r, still (body r)) → still (scoped new path_of body).
Proof.
  intros Hn Hb O. unfold scoped. eapply spec_bind; [apply Hn|]. intros [r|e] O' Ho; simpl in Ho; [|subst; by apply spec_ret].
  destruct Ho as [Hp ->]. eapply spec_bind; [apply Hb|]. intros x ? ->.
  eapply spec_bind; [by apply spec_drop_temp|]. intros [] ? ->. by apply spec_ret.
Qed.

Lemma still_with_temp {A} suffix content (body : string → Cmd A) :
  (∀ path, still (body path)) → still (with_temp suffix content body).
Proof.
  intros Hb. apply still_scoped; [|done]. intros O. eapply spec_mono; [apply spec_TempFile_new|]. by intros [].
Qed.

(** A silenced read. *)
Lemma still_silenced {A} (e : Effect) (k : Answer → Prog A) :
  plain e → (∀ ans, still (k ans)) →
  still (let* _ := echo_off in let* ans := effect e in let* _ := echo_on in k ans).
Proof.
  intros He Hk O. unfold echo_off, echo_on, set_echo, ignore.
  intros tr r H Hfr.
  apply exec_bind in H as (t1 & ? & t2 & -> & H1 & H).
  apply exec_bind in H1 as (u1 & a1 & u2 & -> & ->%exec_effect & H1).
  apply exec_bind in H1 as (u3 & a2 & u4 & -> & ->%exec_effect & [-> _]%exec_ret).
  apply exec_bind in H as (t3 & ans & t4 & -> & ->%exec_effect & H).
  apply exec_bind in H as (t5 & ? & t6 & -> & H1 & H).
  apply exec_bind in H1 as (v1 & ? & v2 & -> & H1 & H2).
  apply exec_bind in H1 as (v3 & a3 & v4 & -> & ->%exec_effect & [-> _]%exec_ret).
  apply exec_bind in H2 as (v5 & a4 & v6 & -> & ->%exec_effect & [-> _]%exec_ret).
  set (front := [(SetEchoOff true, a1); (Exec Inherited None "stty" ["-echo"], a2); (e, ans);
                 (Exec Inherited None "stty" ["echo"], a3); (SetEchoOff false, a4)]).
  assert (Erun : held_run (holding O) front = holding O).
  { pose proof (held_step_plain (mkHeld O O true true) e ans He) as E. unfold front.
    change (held_step (held_step (held_step (mkHeld O O true true) (e, ans)) (Exec Inherited None "stty" ["echo"], a3))
              (SetEchoOff false, a4) = holding O). by rewrite E. }
  assert (Hg : always_guarded (holding O) front).
  { unfold front. do 2 (apply always_guarded_cons; [by split|]).
    apply always_guarded_cons; [by split|]. rewrite (held_step_plain _ e ans He).
    do 2 (apply always_guarded_cons; [by split|]). apply always_guarded_nil. by split. }
  change (always_guarded (holding O) (front ++ t6) ∧ ∃ O', held_run (holding O) (front ++ t6) = holding O' ∧ O' = O).
  change (fresh (holding O) (front ++ t6)) in Hfr. apply fresh_app in Hfr as [_ Hfr]. rewrite Erun in Hfr.
  destruct (Hk ans O t6 r H Hfr) as [Hg' (O' & E' & ->)]. split.
  - apply always_guarded_app; [done|]. by rewrite Erun.
  - exists O. split; [|done]. unfold held_run in *. by rewrite foldl_app, Erun.
Qed.

(** ** Interrupts *)

Lemma remove_all_removes files h tr : exec (remove_all files) tr tt →
  ∃ l, held_run h tr = mkHeld (FILES h) l (ECHO_OFF h) (hushed h) ∧ ∀ f, f ∈ l ↔ f ∈ alive h ∧ f ∉ files.
Proof.
  revert h tr. induction files as [|p files IH]; intros h tr H; simpl in H.
  - apply exec_ret in H as [-> _]. exists (alive h). split; [by destruct h|]. intros f. rewrite elem_of_nil. tauto.
  - apply (exec_bind (effect (RemoveFile p)) (λ _, remove_all files)) in H as (t1 & a & t2 & -> & ->%exec_effect & H2).
    destruct (IH (held_step h (RemoveFile p, a)) t2 H2) as (l & E & Hl). exists l. split; [exact E|].
    intros f. rewrite Hl. simpl. rewrite list_elem_of_filter, elem_of_cons. tauto.
Qed.

(** Where everything is guarded, the handler leaves no private file and an
    echoing terminal. *)
Lemma on_interrupt_restores h tr :
  guarded h → exec (on_interrupt h) tr tt → alive (held_run h tr) = [] ∧ hushed (held_run h tr) = false.
Proof.
  intros [Ha He] (t1 & ? & t2 & -> & H1 & H2)%exec_bind. unfold held_run. rewrite foldl_app. fold (held_run h t1).
  assert (alive (held_run h t1) = alive h ∧ hushed (held_run h t1) = false) as [E1 E2].
  { destruct (ECHO_OFF h) eqn:E.
    - unfold set_echo in H1. apply exec_bind in H1 as (t3 & a & t4 & -> & ->%exec_effect & [-> _]%exec_ret). done.
    - apply exec_ret in H1 as [-> _]. split; [done|]. simpl. destruct (hushed h); [by specialize (He eq_refl)|done]. }
  destruct (remove_all_removes (FILES h) (held_run h t1) t2 H2) as (l & E & Hl). unfold held_run in E at 1. rewrite E.
  simpl. split; [|done]. destruct l as [|f l]; [done|]. exfalso. destruct (Hl f) as [Hf _].
  destruct Hf as [Hin Hout]; [left|]. rewrite E1 in Hin. by apply Hout, Ha.
Qed.

(** ** Automation *)

Lemma still_run_passthrough cmd args : cmd ≠ "stty" → still (run_passthrough cmd args).
Proof. intros H. apply still_bind; [by apply still_effect|]. intros. apply still_ret. Qed.
Lemma still_run_passthrough_in dir cmd args : cmd ≠ "stty" → still (run_passthrough_in dir cmd args).
Proof. intros H. apply still_bind; [by apply still_effect|]. intros. apply still_ret. Qed.
Lemma still_run_output cmd args : cmd ≠ "stty" → still (run_output cmd args).
Proof. intros H. apply still_bind; [by apply still_effect|]. intros. apply still_ret. Qed.
Lemma still_run_stdin cmd args input : cmd ≠ "stty" → still (run_stdin cmd args input).
Proof. intros H. apply still_bind; [by apply still_effect|]. intros. apply still_ret. Qed.
Lemma still_run_stdin_bytes cmd args input : cmd ≠ "stty" → still (run_stdin_bytes cmd args input).
Proof. intros H. apply still_bind; [by apply still_effect|]. intros. apply still_ret. Qed.
Lemma still_run_silent cmd args : cmd ≠ "stty" → still (run_silent cmd args).
Proof. intros H. apply still_bind; [by apply still_effect|]. intros. apply still_ret. Qed.
Lemma still_fs_call e context : plain e → still (fs_call e context).
Proof. intros H. apply still_bind; [by apply still_effect|]. intros. apply still_ret. Qed.

Create HintDb still.
#[export] Hint Resolve still_ret still_effect still_ignore still_run_passthrough still_run_passthrough_in still_run_output
  still_run_stdin still_run_stdin_bytes still_run_silent still_fs_call : still.
#[export] Hint Extern 2 (_ ≠ _) => discriminate : still.
#[export] Hint Extern 2 (plain _) => exact I : still.

(** Follows the shape of a program. *)
Ltac still_step :=
  match goal with
  | |- still (pbind _ _) => apply still_bind; [|intros ?]
  | |- still (cbind _ _) => apply still_cbind; [|intros ?]
  | |- still (with_temp _ _ _) => apply still_with_temp; intros ?
  | |- still (for_each _ _) => apply still_for_each; intros ? _
  | |- still (wait_for _ _ _) => apply still_wait_for
  | |- still (wait_for_ _ _ _) => apply still_wait_for_
  | |- still (if ?b then _ else _) => destruct b
  | |- still (match ?x with _ => _ end) => destruct x
  | |- still (ret_ok _) => apply still_ret
  | |- still (lift _) => apply still_ret
  | |- still (Ret _) => apply still_ret
  | |- still (let _ := _ in _) => cbv zeta
  | |- still _ => solve [eauto 3 with still]
  end.
Ltac still := repeat still_step.

Lemma still_env_var name : still (env_var name).
Proof. unfold env_var. still. Qed.
Lemma still_is_file path : still (is_file path).
Proof. unfold is_file. still. Qed.
Lemma still_delete_cr kind name ns : still (delete_cr kind name ns).
Proof. unfold delete_cr. still. Qed.
#[export] Hint Resolve still_env_var still_is_file still_delete_cr : still.

Lemma still_config_dir : still config_dir.
Proof. unfold config_dir. still. Qed.
#[export] Hint Resolve still_config_dir : still.
Lemma still_Scope_global : still Scope_global.
Proof. unfold Scope_global. still. Qed.
#[export] Hint Resolve still_Scope_global : still.
Lemma still_Scope_for_tenant ns : still (Scope_for_tenant ns).
Proof. unfold Scope_for_tenant. still. Qed.
Lemma still_extract dir chart : still (extract dir chart).
Proof. unfold extract. still. Qed.
#[export] Hint Resolve still_Scope_for_tenant still_extract : still.
Lemma still_extract_assets version scope : still (extract_assets version scope).
Proof. unfold extract_assets. still. Qed.
Lemma still_extract_commands_chart scope : still (extract_commands_chart scope).
Proof. unfold extract_commands_chart. still. Qed.
#[export] Hint Resolve still_extract_assets still_extract_commands_chart : still.

Lemma still_prompt label env hidden : still (prompt label env hidden).
Proof.
  unfold prompt. still_step; [still|]. destruct (nonempty _); [still|].
  destruct hidden; simpl; [|apply (still_bind (effect (ReadLine label false))); [still|]; intros r; still].
  apply (still_bind (effect StdinIsTerminal)); [still|]. intros ans. destruct (is_done ans); simpl.
  - apply (still_silenced (ReadLine label true)); [done|]. intros r. still.
  - apply (still_bind (effect (ReadLine label true))); [still|]. intros r. still.
Qed.
#[export] Hint Resolve still_prompt : still.

(** What owns a file: the rest of the program before it is made. *)
Definition owned {R} (path_of : R → string) (O : list string) (r : result R string) : list string → Prop :=
  owns O (let? x := r in Ok (path_of x)).

Definition owner {R} (new : Cmd R) (path_of : R → string) : Prop := ∀ O, spec O new (owned path_of O).

Lemma still_owner {R A} (new : Cmd R) path_of (body : R → Cmd A) :
  owner new path_of → (∀ r, still (body r)) → still (scoped new path_of body).
Proof. apply still_scoped. Qed.

Lemma owner_cbind {A R} (p : Cmd A) (f : A → Cmd R) path_of :
  still p → (∀ a, owner (f a) path_of) → owner (cbind p f) path_of.
Proof.
  intros Hp Hf O. eapply spec_bind; [apply Hp|]. intros [a|e] O' ->; [apply Hf|]. by apply spec_ret.
Qed.

Lemma owner_err {R} e (path_of : R → string) : owner (Ret (Err e)) path_of.
Proof. intros O. by apply spec_ret. Qed.

Lemma owner_temp {R} suffix content (f : string → R) path_of :
  (∀ p, path_of (f p) = p) → owner (let! p := TempFile_new suffix content in ret_ok (f p)) path_of.
Proof.
  intros Hf O. eapply spec_bind; [apply spec_TempFile_new|]. intros [p|e] O' Ho; apply spec_ret; [|done].
  unfold owned. simpl. by rewrite Hf.
Qed.

(** A file made, then used in a way that may fail and drops it. *)
Lemma owner_then {R} suffix content (X : Type) (wait : string → Prog X) (f : string → X → result R string) path_of :
  (∀ p, still (wait p)) → (∀ p x r, f p x = Ok r → path_of r = p) →
  owner (let! p := TempFile_new suffix content in
         let* x := wait p in
         match f p x with Ok r => ret_ok r | Err e => let* _ := drop_temp p in Ret (Err e) end) path_of.
Proof.
  intros Hw Hf O. eapply spec_bind; [apply spec_TempFile_new|]. intros [p|e] O' Ho; [|by apply spec_ret].
  destruct Ho as [Hp ->]. eapply spec_bind; [apply Hw|]. intros x ? ->. destruct (f p x) as [r|e] eqn:E.
  - apply spec_ret. unfold owned. simpl. by rewrite (Hf _ _ _ E).
  - eapply spec_bind; [by apply spec_drop_temp|]. intros _ ? ->. by apply spec_ret.
Qed.

(** The owner's value dropped within the new one's life. *)
Lemma owner_scoped {R A} (new : Cmd R) path_of (body : R → Cmd A) path_of' :
  owner new path_of → (∀ r, owner (body r) path_of') → owner (scoped new path_of body) path_of'.
Proof.
  intros Hn Hb O. unfold scoped. eapply spec_bind; [apply Hn|]. intros [r|e] O' Ho; [|by apply spec_ret].
  destruct Ho as [Hp ->]. eapply spec_bind; [apply Hb|]. intros [a|e] O' Ho.
  - destruct Ho as [Hq ->]. apply not_elem_of_app in Hq as [Hq Hqp].
    assert (Hne : path_of' a ≠ path_of r) by set_solver.
    assert (Hfilter : filter (λ f, f ≠ path_of r) ((O ++ [path_of r]) ++ [path_of' a]) = O ++ [path_of' a]).
    { rewrite filter_app, filter_other by done. by rewrite filter_cons_True, filter_nil. }
    intros tr x (t1 & [] & t2 & -> & H1 & [-> ->]%exec_ret)%exec_bind _. rewrite app_nil_r.
    apply exec_bind in H1 as (u1 & a1 & u2 & -> & ->%exec_effect & H1).
    apply exec_bind in H1 as (u3 & a2 & u4 & -> & ->%exec_effect & [-> _]%exec_ret).
    split; [|exists (O ++ [path_of' a]); split; [unfold held_run, holding; simpl; unfold forget; by rewrite Hfilter|by split]].
    apply always_guarded_cons; [apply guarded_holding|]. apply always_guarded_cons.
    + split; simpl; [|done]. rewrite Hfilter. set_solver.
    + apply always_guarded_nil. split; simpl; [|done]. unfold forget. by rewrite Hfilter.
  - change (O' = O ++ [path_of r]) in Ho. subst O'. eapply spec_bind; [by apply spec_drop_temp|].
    intros _ ? ->. by apply spec_ret.
Qed.

(** Programs that start with nothing held may also remove other files. *)
Definition neat {A} (p : Prog A) : Prop := spec [] p (λ _ O', O' = []).

Lemma still_neat {A} (p : Prog A) : still p → neat p.
Proof. intros H. apply H. Qed.

Lemma neat_bind {A B} (p : Prog A) (f : A → Prog B) : neat p → (∀ a, neat (f a)) → neat (pbind p f).
Proof. intros Hp Hf. eapply spec_bind; [apply Hp|]. intros a O' ->. apply Hf. Qed.

Lemma neat_cbind {A B} (p : Cmd A) (f : A → Cmd B) : neat p → (∀ a, neat (f a)) → neat (cbind p f).
Proof. intros Hp Hf. apply neat_bind; [done|]. intros [a|e]; [done|apply still_neat, still_ret]. Qed.

Lemma neat_for_each {A} (l : list A) body : (∀ a, neat (body a)) → neat (for_each l body).
Proof.
  induction l as [|a l IH]; intros H; simpl; [apply still_neat, still_ret|]. apply neat_cbind; [done|]. intros _. by apply IH.
Qed.

Lemma neat_remove path : neat (effect (RemoveFile path)).
Proof.
  intros tr ans ->%exec_effect _. split; [|by exists []].
  apply always_guarded_cons; [apply guarded_holding|]. apply always_guarded_nil. by split.
Qed.

(** Whenever it is stopped, the handler leaves no private file and an echoing
    terminal; when it ends, nothing is left. *)
Lemma neat_interrupted {A} (p : Prog A) tr a : neat p → exec p tr a → fresh (holding []) tr →
  (∀ pre tri, pre `prefix_of` tr → exec (on_interrupt (held_run (holding []) pre)) tri tt →
    alive (held_run (holding []) (pre ++ tri)) = [] ∧ hushed (held_run (holding []) (pre ++ tri)) = false)
  ∧ held_run (holding []) tr = holding [].
Proof.
  intros Hp He Hf. destruct (Hp tr a He Hf) as [Hg (O' & E & ->)]. split; [|done].
  intros pre tri Hpre Hi. unfold held_run. rewrite foldl_app. by apply on_interrupt_restores; [apply Hg|].
Qed.

(** ** Automation for [emits] *)

Lemma emits_exec_call P streams dir cmd args : P (Exec streams dir cmd args) → emits P (effect (Exec streams dir cmd args)).
Proof. by split. Qed.
Lemma emits_effect P e : P e → emits P (effect e).
Proof. by split. Qed.

(** Follows the shape of a program down to its effects. *)
Ltac emits_step :=
  match goal with
  | |- emits _ (pbind _ _) => apply emits_bind; [|intros ?]
  | |- emits _ (cbind _ _) => apply emits_cbind; [|intros ?]
  | |- emits _ (pmap_err _ _) => apply emits_bind; [|intros ?]
  | |- emits _ (effect _) => apply emits_effect
  | |- emits _ (run_output _ _) => apply emits_bind; [apply emits_effect|intros ?; exact I]
  | |- emits _ (run_silent _ _) => apply emits_bind; [apply emits_effect|intros ?; exact I]
  | |- emits _ (run_passthrough _ _) => apply emits_bind; [apply emits_effect|intros ?; exact I]
  | |- emits _ (run_passthrough_in _ _ _) => apply emits_bind; [apply emits_effect|intros ?; exact I]
  | |- emits _ (run_stdin _ _ _) => apply emits_bind; [apply emits_effect|intros ?; exact I]
  | |- emits _ (run_stdin_bytes _ _ _) => apply emits_bind; [apply emits_effect|intros ?; exact I]
  | |- emits _ (fs_call _ _) => apply emits_bind; [apply emits_effect|intros ?; exact I]
  | |- emits _ (env_var _) => apply emits_bind; [apply emits_effect|intros ?; exact I]
  | |- emits _ (is_file _) => apply emits_bind; [apply emits_effect|intros ?; exact I]
  | |- emits _ (ignore _) => apply emits_bind; [apply emits_effect|intros ?; exact I]
  | |- emits _ (for_each _ _) => apply emits_for_each; intros ? _
  | |- emits _ (wait_for _ _ _) => apply emits_wait_for
  | |- emits _ (wait_for_ _ _ _) => apply emits_wait_for_
  | |- emits _ (if ?b then _ else _) => destruct b
  | |- emits _ (match ?x with _ => _ end) => destruct x
  | |- emits _ (ret_ok _) => exact I
  | |- emits _ (lift _) => exact I
  | |- emits _ (Ret _) => exact I
  | |- emits _ (let _ := _ in _) => cbv zeta
  end.
Ltac emits := repeat emits_step.

(** ** Running against an environment *)

(** The environment answers by what was done before. *)
Fixpoint simulate {A} (env : list Event → Effect → Answer) (past : list Event) (p : Prog A) : list Event * A :=
  match p with
  | Ret a => ([], a)
  | Do e k => let ans := env past e in let '(tr, a) := simulate env (past ++ [(e, ans)]) (k ans) in ((e, ans) :: tr, a)
  end.

Lemma simulate_exec {A} env past (p : Prog A) : exec p (simulate env past p).1 (simulate env past p).2.
Proof.
  revert past. induction p as [a|e k IH]; intros past; simpl; [constructor|].
  specialize (IH (env past e) (past ++ [(e, env past e)])). destruct (simulate _ _ _). by constructor.
Qed.

Lemma exec_run_output cmd args tr r : exec (run_output cmd args) tr r →
  ∃ ans, tr = [(Exec Captured None cmd args, ans)] ∧ r = (let? out := done_or_stderr cmd ans in Ok (str_trim (lossy out))).
Proof. intros (t1 & ans & t2 & -> & ->%exec_effect & [-> ->]%exec_ret)%exec_bind. by exists ans. Qed.

Lemma exec_run_silent cmd args tr b : exec (run_silent cmd args) tr b →
  ∃ ans, tr = [(Exec Silent None cmd args, ans)] ∧ b = is_done ans.
Proof. intros (t1 & ans & t2 & -> & ->%exec_effect & [-> ->]%exec_ret)%exec_bind. by exists ans. Qed.

(** [fresh], decided. *)
Fixpoint freshb (h : Held) (tr : list Event) : bool :=
  match tr with
  | [] => true
  | ev :: tr => match ev.1 with Track p => bool_decide (p ∉ FILES h) | _ => true end && freshb (held_step h ev) tr
  end.

Lemma freshb_fresh h tr : freshb h tr = true → fresh h tr.
Proof.
  revert h. induction tr as [|ev tr IH]; intros h H; [done|]. simpl in H. apply andb_true_iff in H as [He Ht]. split; [|by apply IH].
  destruct (ev.1); try done. by apply bool_decide_eq_true in He.
Qed.
