(* ===== verification/Operator.v ===== *)
(** * The operator's identity

    Models [cli/src/commands/operator.rs]: the trust material of the bundled Dex
    issuer, its installation with one password user, the operator's login, and
    the kubeconfig that presents a fresh ID token. The password and the TLS key
    travel only on standard input. *)

From S2P Require Import Prelude Text ConfigMaps Toolset Sse Providers Archive Shell.

(** ** Libraries

    [serde_json], [serde_yaml], [base64] and [sha2] are not part of the program:
    a record of what it uses of them. *)

Section yaml.
Context (Num : Type).

Inductive Yaml : Type :=
| YNull
| YBool (b : bool)
| YNumber (n : Num)
| YString (s : string)
| YSequence (l : list Yaml)
| YMapping (entries : list (Yaml * Yaml))
| YTagged (tag : string) (v : Yaml).
End yaml.
Arguments YNull {Num}.
Arguments YBool {Num} _.
Arguments YNumber {Num} _.
Arguments YString {Num} _.
Arguments YSequence {Num} _.
Arguments YMapping {Num} _.
Arguments YTagged {Num} _ _.

Record Libs (Num : Type) : Type := mkLibs {
  json_parse : string → result (Json Num) string;
  json_print : Json Num → string;
  yaml_parse : string → result (Yaml Num) string;
  yaml_print : Yaml Num → result string string;
  json_string_map : string → result (list (string * string)) string;    (* into a [BTreeMap<String, String>] *)
  json_print_map : list (string * string) → result string string;
  yaml_value_map : string → result (list (string * Yaml Num)) string;   (* into a [BTreeMap<String, Value>] *)
  base64 : string → string;
  sha256 : string → bytes;
  num_of : N → Num;
  num_u64 : Num → option N;
  num_i64 : Num → option Z;
}.
Arguments json_parse {Num} _ _.
Arguments json_print {Num} _ _.
Arguments yaml_parse {Num} _ _.
Arguments yaml_print {Num} _ _.
Arguments json_string_map {Num} _ _.
Arguments json_print_map {Num} _ _.
Arguments yaml_value_map {Num} _ _.
Arguments base64 {Num} _ _.
Arguments sha256 {Num} _ _.
Arguments num_of {Num} _ _.
Arguments num_u64 {Num} _ _.
Arguments num_i64 {Num} _ _.

Section accessors.
Context {Num : Type}.

(** [serde_yaml::Value]'s accessors look through tags. *)
Fixpoint untag (v : Yaml Num) : Yaml Num := match v with YTagged _ v => untag v | _ => v end.
Definition yaml_str (v : Yaml Num) : option string := match untag v with YString s => Some s | _ => None end.
Definition yaml_bool (v : Yaml Num) : option bool := match untag v with YBool b => Some b | _ => None end.
Definition yaml_seq (v : Yaml Num) : option (list (Yaml Num)) := match untag v with YSequence l => Some l | _ => None end.
Definition yaml_mapping (v : Yaml Num) : option (list (Yaml Num * Yaml Num)) :=
  match untag v with YMapping m => Some m | _ => None end.

Fixpoint mapping_get (k : string) (m : list (Yaml Num * Yaml Num)) : option (Yaml Num) :=
  match m with
  | [] => None
  | (YString k', v) :: m => if decide (k = k') then Some v else mapping_get k m
  | _ :: m => mapping_get k m
  end.
Definition yaml_get (k : string) (v : Yaml Num) : option (Yaml Num) := yaml_mapping v ≫= mapping_get k.

(** [v[k]]: [Null] where there is none. *)
Definition yaml_index (k : string) (v : Yaml Num) : Yaml Num := default YNull (yaml_get k v).
Definition json_index (k : string) (v : Json Num) : Json Num := default (JNull) (json_get k v).
End accessors.

(** [rsplit_once]. *)
Definition rsplit_once (c : ascii) (s : string) : option (string * string) :=
  match split_once c (reverse (B s)) with
  | Some (r, l) => Some (str_of (reverse l), str_of (reverse r))
  | None => None
  end.

(** ** Constants and paths *)

Definition SYSTEM_NS : string := "sycophant-system".
Definition DEX_NODEPORT : N := 30443.
Definition ISSUER : string := "https://127.0.0.1:30443/dex".
Definition AUDIENCE : string := "sycophant-cluster".
Definition DEX_RELEASE : string := "sycophant-dex".
Definition DEX_TLS_SECRET : string := "sycophant-dex-tls".
Definition COMMAND_WRITER : string := "marker-writer".
Definition EMAIL_ENV : string := "SYCO_EMAIL".
Definition PASSWORD_ENV : string := "SYCO_PASSWORD".

Definition auth_config (dir : string) : string := path_join dir "auth-config.yaml".
Definition ca_cert (dir : string) : string := path_join dir "ca.crt".
Definition email_file (dir : string) : string := path_join dir "operator-email".

Record Operator : Type := mkOperator {
  op_issuer : string; op_client : string; op_ca : string; op_email : string; op_password : string }.

Record OperatorKube : Type := mkKube { kube_file : string; kube_identity : string }.

Section operator.
Context {Num : Type} (L : Libs Num).
Abbreviation json := (Json Num).

(** ** Trust *)

Definition auth_config_from_render (rendered : string) : result string string :=
  let? cm := map_err (λ e, "failed to parse rendered auth config: " +:+ e) (yaml_parse L rendered) in
  ok_or (d ← yaml_get "data" cm; v ← yaml_get "auth-config.yaml" d; s ← yaml_str v;
         if str_is_empty (str_trim s) then None else Some s)
        "apiserver auth config render is empty".

Definition generate_trust (dir cluster_chart : string) (values : list string) : Cmd string :=
  let* _ := ignore (RemoveDirAll dir) in
  let! _ := fs_call (CreateDirAll dir) ("failed to create " +:+ dir) in
  let ca := ca_cert dir in
  let! key := run_output "openssl"
    ["req"; "-x509"; "-newkey"; "rsa:2048"; "-nodes"; "-keyout"; "/dev/stdout"; "-out"; ca; "-days"; "90";
     "-subj"; "/CN=127.0.0.1"; "-addext"; "subjectAltName=IP:127.0.0.1"; "-addext"; "basicConstraints=CA:TRUE"] in
  if negb (contains (B "PRIVATE KEY") (B key)) then Ret (Err "openssl produced no TLS private key") else
  let! rendered := run_output "helm"
    (["template"; "sycophant"; cluster_chart] ++ values ++
     ["--api-versions"; "policies.kyverno.io/v1/ValidatingPolicy";
      "--set-string"; "idp.issuer=" +:+ ISSUER; "--set-string"; "idp.audience=" +:+ AUDIENCE;
      "--set-file"; "idp.certificateAuthority=" +:+ ca;
      "--set-string"; "selfService.operator=" +:+ ISSUER +:+ "#operator";
      "--show-only"; "templates/apiserver-auth-config.yaml"]) in
  let! config := lift (auth_config_from_render rendered) in
  let! _ := fs_call (WriteFile (auth_config dir) config) "failed to write auth config" in
  ret_ok key.

Definition upload_tls (dir key : string) : Cmd unit :=
  let! crt := fs_call (ReadFile (ca_cert dir)) "failed to read CA cert" in
  run_stdin "kubectl" ["apply"; "-f"; "-"] (json_print L (json_obj
    [("apiVersion", JString "v1"); ("kind", JString "Secret"); ("type", JString "kubernetes.io/tls");
     ("metadata", json_obj [("name", JString DEX_TLS_SECRET); ("namespace", JString SYSTEM_NS)]);
     ("data", json_obj [("tls.crt", JString (base64 L crt)); ("tls.key", JString (base64 L key))])])).

Definition dex_installed : Prog bool := run_silent "helm" ["status"; DEX_RELEASE; "-n"; SYSTEM_NS].
Definition dex_tls_present : Prog bool := run_silent "kubectl" ["get"; "secret"; DEX_TLS_SECRET; "-n"; SYSTEM_NS].

(** ** Dex *)

Definition dex_values (email hash user_id : string) : json :=
  json_obj [("dex", json_obj [
    ("service", json_obj [("type", JString "NodePort");
       ("ports", json_obj [("https", json_obj [("nodePort", JNumber (num_of L DEX_NODEPORT))])])]);
    ("config", json_obj [
       ("issuer", JString ISSUER);
       ("expiry", json_obj [("idTokens", JString "24h")]);
       ("oauth2", json_obj [("grantTypes", JArray [JString "password"]); ("passwordConnector", JString "local")]);
       ("staticClients", JArray [json_obj [("id", JString AUDIENCE); ("name", JString AUDIENCE); ("public", JBool true)]]);
       ("staticPasswords", JArray [json_obj [("email", JString email); ("hash", JString hash);
          ("username", JString "operator"); ("userID", JString user_id)]])])])].

(** [&h[a..b]] of the hex digits. *)
Definition hex_slice (h : string) (a b : nat) : string := str_of (take (b - a) (drop a (B h))).

Definition user_id : Cmd string :=
  let! h := random_hex in
  ret_ok (str_join "-" [hex_slice h 0 8; hex_slice h 8 12; hex_slice h 12 16; hex_slice h 16 20; str_of (drop 20 (B h))]).

(** The directory's names, one on a line. *)
Definition vendored (ans : Answer) : bool :=
  match ans with Done out => existsb (str_starts_with "dex-") (str_lines out) | _ => false end.

Definition colon : ascii := ":"%char.

Definition install_dex (dex_chart email password : string) : Cmd unit :=
  let* ans := effect (ListDir (path_join dex_chart "charts")) in
  let! _ := if vendored ans then ret_ok EmptyString else run_output "helm" ["dependency"; "build"; dex_chart] in
  let! line := run_stdin_bytes "htpasswd" ["-niB"; "-C"; "10"; email] (password +:+ str_of [newline]) in
  let! hash := lift (ok_or (snd <$> rsplit_once colon (str_trim (lossy line))) "htpasswd produced no hash") in
  let! id := user_id in
  run_stdin "helm" ["upgrade"; "--install"; DEX_RELEASE; dex_chart; "-n"; SYSTEM_NS; "-f"; "-"; "--wait"; "--timeout=5m"]
    (json_print L (dex_values email hash id)).

(** ** Credentials *)

Definition save_email (dir email : string) : Cmd unit :=
  let! _ := fs_call (WriteFile (email_file dir) email) "failed to save operator email" in ret_ok tt.

Definition credentials (dir : string) : Cmd (string * string) :=
  let* from_env := env_var EMAIL_ENV in
  let* saved := effect (ReadFile (email_file dir)) in
  let! email :=
    match nonempty from_env, nonempty (str_trim <$> rok (io_error saved)) with
    | Some e, _ => ret_ok e
    | None, Some e => ret_ok e
    | None, None => prompt "Operator email" EMAIL_ENV false
    end in
  let! password := prompt ("Password for " +:+ email) PASSWORD_ENV true in
  ret_ok (email, password).

Definition command_writer_bound (ns : string) : Prog bool :=
  run_silent "kubectl" ["get"; "rolebinding"; COMMAND_WRITER; "-n"; ns].

(** ** The login *)

Definition idp_field (v : json) (k : string) : result string string :=
  ok_or ((json_get "idp" v ≫= json_get k) ≫= as_str) ("cluster release carries no idp." +:+ k).

(** The operator owns the file of the issuer's certificate. *)
Definition with_password (email password : string) : Cmd Operator :=
  let! out := run_output "helm" ["get"; "values"; "sycophant"; "-n"; SYSTEM_NS; "--all"; "-o"; "json"] in
  let! v := lift (map_err (λ e, "failed to parse cluster values: " +:+ e) (json_parse L out)) in
  let! issuer := lift (idp_field v "issuer") in
  let! client := lift (idp_field v "audience") in
  let! cert := lift (idp_field v "certificateAuthority") in
  let! ca := TempFile_new "ca.crt" cert in
  ret_ok (mkOperator issuer client ca email password).

Definition login (dir : string) : Cmd Operator :=
  let! c := credentials dir in with_password c.1 c.2.

Definition id_token (op : Operator) : Cmd string :=
  let! out := pmap_err (λ e, "Dex login failed: " +:+ e) (run_stdin_bytes "curl"
    ["-sS"; "--fail-with-body"; "--cacert"; op_ca op; "-u"; op_client op +:+ ":"; "-d"; "grant_type=password";
     "-d"; "scope=openid"; "--data-urlencode"; "username=" +:+ op_email op; "--data-urlencode"; "password@-";
     op_issuer op +:+ "/token"] (op_password op)) in
  let! body := lift (map_err (λ e, "unexpected Dex token response: " +:+ e) (json_parse L out)) in
  lift (ok_or (json_get "id_token" body ≫= as_str) ("Dex returned no id_token: " +:+ json_print L body)).

Definition kubeconfig_json (server ca token : string) : json :=
  json_obj [("apiVersion", JString "v1"); ("kind", JString "Config");
    ("clusters", JArray [json_obj [("name", JString "sycophant");
       ("cluster", json_obj [("server", JString server); ("certificate-authority-data", JString ca)])]]);
    ("users", JArray [json_obj [("name", JString "operator"); ("user", json_obj [("token", JString token)])]]);
    ("contexts", JArray [json_obj [("name", JString "operator");
       ("context", json_obj [("cluster", JString "sycophant"); ("user", JString "operator")])]]);
    ("current-context", JString "operator")].

Definition whoami (issuer kc : string) : Prog (bool * string) :=
  let* r := run_output "kubectl" ["--kubeconfig"; kc; "auth"; "whoami"; "-o"; "jsonpath={.status.userInfo.username}"] in
  let identity := default EmptyString (rok r) in
  Ret (str_starts_with (issuer +:+ "#") identity, identity).

(** Owns the kubeconfig's file, which an error drops. *)
Definition kubeconfig (op : Operator) : Cmd OperatorKube :=
  let! token := id_token op in
  let! server := run_output "kubectl" ["config"; "view"; "--minify"; "-o"; "jsonpath={.clusters[0].cluster.server}"] in
  let! ca := run_output "kubectl" ["config"; "view"; "--minify"; "--raw"; "-o";
    "jsonpath={.clusters[0].cluster.certificate-authority-data}"] in
  if str_is_empty ca then Ret (Err "could not read the apiserver CA from the current kubeconfig") else
  let! file := TempFile_new "kubeconfig" (json_print L (kubeconfig_json server ca token)) in
  let* r := wait_for "operator token authenticated" 60 (whoami (op_issuer op) file) in
  match (let? _ := r.2 in Ok (mkKube file r.1)) with
  | Ok kube => ret_ok kube
  | Err e => let* _ := drop_temp file in Ret (Err e)
  end.

Definition grant_command_writer (ns verbs identity : string) : Cmd unit :=
  let! role := run_output "kubectl" ["create"; "role"; COMMAND_WRITER; "-n"; ns; "--verb=" +:+ verbs;
    "--resource=configmaps"; "--dry-run=client"; "-o"; "yaml"] in
  let! _ := run_stdin "kubectl" ["apply"; "-f"; "-"] role in
  let! binding := run_output "kubectl" ["create"; "rolebinding"; COMMAND_WRITER; "-n"; ns;
    "--role=" +:+ COMMAND_WRITER; "--user=" +:+ identity; "--dry-run=client"; "-o"; "yaml"] in
  run_stdin "kubectl" ["apply"; "-f"; "-"] binding.

(** An operator, and a kubeconfig, for the rest of a function. *)
Definition as_operator {A} (new : Cmd Operator) (body : Operator → Cmd A) : Cmd A := scoped new op_ca body.
Definition with_kubeconfig {A} (op : Operator) (body : OperatorKube → Cmd A) : Cmd A := scoped (kubeconfig op) kube_file body.
End operator.

(** ** Lemmas *)

(** A finished wait saw its check hold. *)
Lemma wait_polls_ok {X} n desc secs (check : Prog (bool * X)) tr x :
  exec (wait_polls n desc secs check) tr (x, Ok tt) → ∃ pre last, tr = pre ++ last ∧ exec check last (true, x).
Proof.
  revert tr. induction n as [|n IH]; intros tr (t1 & [b y] & t2 & -> & H1 & H2)%exec_bind; simpl in H2; destruct b.
  all: try (apply exec_ret in H2 as [-> [= ->]]; exists [], t1; by rewrite app_nil_r).
  apply (exec_bind (effect DeadlinePassed)) in H2 as (t3 & ans & t4 & -> & ->%exec_effect & H2).
  destruct ans; try (by apply exec_ret in H2 as [_ ?]).
  all: destruct (IH _ H2) as (pre & last & -> & Hc); eexists (t1 ++ [_] ++ pre), last; by rewrite <-!app_assoc.
Qed.

Section lemmas.
Context {Num : Type} (L : Libs Num).

Lemma still_credentials dir : still (credentials dir).
Proof. unfold credentials. still. Qed.
Hint Resolve still_credentials : still.

Lemma still_id_token op : still (id_token L op).
Proof. unfold id_token, pmap_err. still. Qed.
Hint Resolve still_id_token : still.

Lemma still_whoami issuer kc : still (whoami issuer kc).
Proof. unfold whoami. still. Qed.
Hint Resolve still_whoami : still.

Lemma owner_with_password email password : owner (with_password L email password) op_ca.
Proof.
  unfold with_password. do 5 (apply owner_cbind; [still|intros ?]).
  apply (owner_temp _ _ (λ ca, mkOperator _ _ ca _ _)). done.
Qed.

Lemma owner_login dir : owner (login L dir) op_ca.
Proof. apply owner_cbind; [still|]. intros c. apply owner_with_password. Qed.

Lemma owner_kubeconfig op : owner (kubeconfig L op) kube_file.
Proof.
  unfold kubeconfig. do 3 (apply owner_cbind; [still|intros ?]). destruct (str_is_empty _); [apply owner_err|].
  apply (owner_then _ _ _ (λ file, wait_for _ 60 (whoami (op_issuer op) file)) (λ file r, let? _ := r.2 in Ok (mkKube file r.1)));
    [intros p; still|]. by intros p [i [[]|e]] r [= <-].
Qed.

Lemma still_as_operator_login {A} dir (body : Operator → Cmd A) : (∀ op, still (body op)) → still (as_operator (login L dir) body).
Proof. intros H. apply still_owner; [apply owner_login|done]. Qed.

Lemma still_with_kubeconfig {A} op (body : OperatorKube → Cmd A) : (∀ kube, still (body kube)) → still (with_kubeconfig L op body).
Proof. intros H. apply still_owner; [apply owner_kubeconfig|done]. Qed.

Lemma still_grant_command_writer ns verbs identity : still (grant_command_writer ns verbs identity).
Proof. unfold grant_command_writer. still. Qed.

Lemma still_generate_trust dir chart values : still (generate_trust L dir chart values).
Proof. unfold generate_trust. still. Qed.

Lemma still_upload_tls dir key : still (upload_tls L dir key).
Proof. unfold upload_tls. still. Qed.

Lemma still_install_dex chart email password : still (install_dex L chart email password).
Proof. unfold install_dex, user_id, random_hex. still. Qed.

Lemma still_save_email dir email : still (save_email dir email).
Proof. unfold save_email. still. Qed.

(** The identity the kubeconfig was accepted with is one of the issuer's. *)
Lemma kubeconfig_identity op tr kube :
  exec (kubeconfig L op) tr (Ok kube) → str_starts_with (op_issuer op +:+ "#") (kube_identity kube) = true.
Proof.
  unfold kubeconfig. intros H.
  do 3 (apply exec_cbind in H as [(e & _ & [=])|(? & ? & ? & _ & _ & H)]). destruct (str_is_empty _); [by apply exec_ret in H as [_ ?]|].
  apply exec_cbind in H as [(e & _ & [=])|(? & file & t & _ & _ & H)].
  apply exec_bind in H as (t1 & [i [[]|e]] & t2 & _ & Hw & H);
    [apply exec_ret in H as [_ [= ->]]|apply exec_bind in H as (? & ? & ? & _ & _ & [_ [=]]%exec_ret)].
  simpl. apply wait_polls_ok in Hw as (pre & last & _ & Hc).
  unfold whoami in Hc. by apply exec_bind in Hc as (u1 & r & u2 & _ & _ & [_ [= ? ->]]%exec_ret).
Qed.
End lemmas.

#[export] Hint Resolve still_credentials still_id_token still_grant_command_writer still_generate_trust still_upload_tls
  still_install_dex still_save_email : still.
Ltac still_step ::=
  match goal with
  | |- still (as_operator (login _ _) _) => apply still_as_operator_login; intros ?
  | |- still (with_kubeconfig _ _ _) => apply still_with_kubeconfig; intros ?
  | |- still (pmap_err _ _) => apply still_bind; [|intros ?]
  | |- still (pbind _ _) => apply still_bind; [|intros ?]
  | |- still (cbind _ _) => apply still_cbind; [|intros ?]
  | |- still (with_temp _ _ _) => apply still_with_temp; intros ?
  | |- still (for_each _ _) => apply still_for_each; intros ? _
  | |- still (wait_for _ _ _) => apply still_wait_for
  | |- still (wait_for_ _ _ _) => apply still_wait_for_
  | |- still (if ?b then _ else _) => destruct b
  | |- still (match ?x with _ => _ end) => destruct x
  | |- still (ret_ok _) => apply still_ret
  | |- still (lift _) => apply still_ret
  | |- still (Ret _) => apply still_ret
  | |- still (let _ := _ in _) => cbv zeta
  | |- still _ => solve [eauto 3 with still]
  end.
