(* ===== verification/Commands.v ===== *)
(** * The operator's commands

    Models [cli/src/cli.rs] (the argument types and [Values]), and of
    [cli/src/commands]: [command.rs], [up.rs], [down.rs], [remove.rs],
    [destroy.rs], [registry.rs], [secret.rs], [connect.rs] and [pack] of
    [instructions.rs]. A command renders a manifest from the embedded chart,
    writes it under the operator's token and waits for the Job its uid names. *)

From stdpp Require Import pretty.
From S2P Require Import Prelude Text ConfigMaps Toolset Sse Providers Archive Shell Operator.

(** ** Arguments *)

Record Values : Type := mkValues { v_files : list string; v_set : list string }.

Definition helm_args (v : Values) : list string :=
  (f ← v_files v; ["-f"; f]) ++ (s ← v_set v; ["--set-string"; s]).

Record ComponentDown : Type := mkComponentDown { cd_name : string; cd_tenant : string }.
Inductive ComponentSub : Type := CUp (values : Values) | CDown (d : ComponentDown).
Inductive UserSub : Type := UUp (values : Values) | UDown (subject tenant : string).
Inductive SecretSub : Type :=
| SSet (name ns : string)
| SList (json : bool) (ns : string)
| SDelete (name ns : string).
Inductive TenantSub : Type :=
| TUp (values : Values)
| TDown (name : string) (keepalive : option string)
| TRemove (name : string)
| TSecret (sub : SecretSub).
Inductive Command : Type :=
| Setup
| Destroy
| Upgrade (check : bool)
| Tenant (sub : TenantSub)
| Connect (tenant : string)
| Toolset (sub : ComponentSub)
| Workspace (sub : ComponentSub)
| Instructions (sub : ComponentSub)
| User (sub : UserSub)
| Inference (sub : ComponentSub)
| Channel (sub : ComponentSub).

(** ** Names *)

Definition TENANT_NS_PREFIX : string := "tenant-".
Definition COMMAND_WRITER_VERBS : string := "create,delete".

Definition tenant_ns (name : string) : string := TENANT_NS_PREFIX +:+ name.

(** The characters of an ASCII string. *)
Definition uid10 (uid : string) : string := str_of (take 10 (B (str_replace "-" EmptyString uid))).

Definition tenant_token (ns : string) : result string string :=
  ok_or (nonempty (str_strip_prefix TENANT_NS_PREFIX ns))
        ("tenant namespace must be " +:+ TENANT_NS_PREFIX +:+ "<name>, got " +:+ ns).

(** [Path::parent]: slashes and [/.] at the end do not count. *)
Fixpoint strip_end (r : bytes) : bytes :=
  match r with
  | "/"%char :: ([] as r') => r
  | "/"%char :: r' => strip_end r'
  | "."%char :: (("/"%char :: _) as r') => strip_end r'
  | _ => r
  end.
Fixpoint drop_name (r : bytes) : bytes :=
  match r with "/"%char :: _ => r | _ :: r => drop_name r | [] => [] end.
Definition path_parent (p : string) : string :=
  str_of (reverse (strip_end (drop_name (strip_end (reverse (B p)))))).

(** [split_whitespace]: the pieces between whitespace characters. *)
Fixpoint words_go (fuel : nat) (s : bytes) : list bytes :=
  match fuel, trim_start s with
  | S fuel, (_ :: _) as s' => 
      let fix word (s : bytes) : bytes * bytes :=
        match s with
        | [] => ([], [])
        | c :: s1 => if decide (trim_start s = s) then let '(w, r) := word s1 in (c :: w, r) else ([], s)
        end in
      let '(w, r) := word s' in w :: words_go fuel r
  | _, _ => []
  end.
Definition split_whitespace (s : string) : list string := str_of <$> words_go (S (length (B s))) (B s).

Section commands.
Context {Num : Type} (L : Libs Num).
Abbreviation json := (Json Num).
Abbreviation yaml := (Yaml Num).

(** ** Rendering and writing *)

Definition render (template : string) (args : list string) : Cmd string :=
  let! scope := Scope_global in
  let! chart := extract_commands_chart scope in
  run_output "helm" (["template"; "c"; chart; "--show-only"; "templates/" +:+ template +:+ ".yaml"] ++ args).

Definition write (kube : OperatorKube) (manifest : string) : Cmd string :=
  let kc := kube_file kube in
  let! _ := run_stdin "kubectl" ["--kubeconfig"; kc; "delete"; "-f"; "-"; "--ignore-not-found"] manifest in
  let! uid := run_stdin_bytes "kubectl" ["--kubeconfig"; kc; "create"; "-f"; "-"; "-o"; "jsonpath={.metadata.uid}"] manifest in
  ret_ok (str_trim (lossy uid)).

Definition json_is (s : string) (v : json) : bool := bool_decide (as_str v = Some s).

Definition job_state (status : json) : result bool string :=
  if existsb (λ c, json_is "Failed" (json_index "type" c) && json_is "True" (json_index "status" c))
       (default [] (as_array (json_index "conditions" status)))
  then Err "Job failed"
  else Ok (match json_index "succeeded" status with JNumber n => bool_decide (num_i64 L n = Some 1%Z) | _ => false end).

Definition job_poll (job verb : string) : Prog (bool * option string) :=
  let* out := run_output "kubectl" ["get"; "job"; job; "-n"; SYSTEM_NS; "-o"; "jsonpath={.status}"] in
  let status := default JNull (rok out ≫= λ s, rok (json_parse L s)) in
  Ret (match job_state status with
       | Ok done => (done, None)
       | Err e => (true, Some (job +:+ ": " +:+ e +:+ "; the " +:+ verb +:+ " command was left in place"))
       end).

Definition wait_job (job verb : string) : Cmd unit :=
  let* r := wait_for ("Job " +:+ job +:+ " finished") 600 (job_poll job verb) in
  Ret (let? _ := r.2 in match r.1 with Some failure => Err failure | None => Ok tt end).

(** The kubeconfig lives for the statement that writes. *)
Definition apply (op : Operator) (kind manifest : string) : Cmd unit :=
  let! uid := with_kubeconfig L op (λ kube, write kube manifest) in
  wait_job ("provision-" +:+ kind +:+ "-" +:+ uid10 uid) "provision".

Definition reap (op : Operator) (kind key value tenant : string) : Cmd unit :=
  let! manifest := render (kind +:+ "-reap")
    ["--set-string"; kind +:+ "." +:+ key +:+ "=" +:+ value; "--set-string"; kind +:+ ".tenant=" +:+ tenant] in
  let! uid := with_kubeconfig L op (λ kube, write kube manifest) in
  wait_job ("uninstall-" +:+ kind +:+ "-" +:+ uid10 uid) "reap".

(** ** [registry.rs] *)

Definition REGISTRY_HOST : string := "localhost:5555".
Definition REGISTRY_CLUSTER : string := "sycophant-registry:5000".
Definition at_sign : ascii := "@"%char.

Definition name_tag (image : string) : string * string :=
  let '(name, tag) := default (image, "latest") (str_split_once colon image) in
  (default name (last (str_split slash name)), tag).

Definition REPO_DIGEST : string := "{{index .RepoDigests 0}}".

Definition push_local_image (image : string) : Cmd string :=
  let '(name, tag) := name_tag image in
  let host_ref := REGISTRY_HOST +:+ "/" +:+ name +:+ ":" +:+ tag in
  let cluster_ref := REGISTRY_CLUSTER +:+ "/" +:+ name +:+ ":" +:+ tag in
  let* local := run_output "docker" ["inspect"; "--format"; REPO_DIGEST; image] in
  let local_digest := default EmptyString (str_split at_sign (default EmptyString (rok local)) !! 1) in
  let* existing :=
    if str_is_empty local_digest then Ret false
    else let* r := run_output "docker" ["manifest"; "inspect"; host_ref +:+ "@sha256:" +:+ local_digest] in Ret (is_ok r) in
  if existing : bool then ret_ok (cluster_ref +:+ "@sha256:" +:+ local_digest) else
  let! _ := run_passthrough "docker" ["tag"; image; host_ref] in
  let! _ := run_passthrough "docker" ["push"; host_ref] in
  let! digest := run_output "docker" ["inspect"; "--format"; REPO_DIGEST; host_ref] in
  ret_ok (str_replace REGISTRY_HOST REGISTRY_CLUSTER digest).

(** ** The values files *)

Definition merge_doc (merged : list (string * yaml)) (doc : yaml) : list (string * yaml) :=
  match yaml_mapping doc with
  | Some m => foldl (λ acc kv, match yaml_str kv.1 with Some key => bt_insert key kv.2 acc | None => acc end) merged m
  | None => merged
  end.

Fixpoint merge_files (files : list string) (merged : list (string * yaml)) : Cmd (list (string * yaml)) :=
  match files with
  | [] => ret_ok merged
  | file :: files =>
      let! text := fs_call (ReadFile file) ("cannot read " +:+ file) in
      let! doc := lift (map_err (λ e, file +:+ " is not YAML: " +:+ e) (yaml_parse L text)) in
      merge_files files (merge_doc merged doc)
  end.
Definition merge_values (v : Values) : Cmd (list (string * yaml)) := merge_files (v_files v) [].

Definition is_reference (image : string) : bool := str_contains_char slash image || str_contains_char at_sign image.

Definition push_field (server : list (yaml * yaml)) (field : string) : Cmd (list (string * string)) :=
  let! local := lift (ok_or (mapping_get field server ≫= yaml_str) ("inference.server." +:+ field +:+ " not found in values")) in
  if is_reference local then ret_ok [] else
  let! pinned := push_local_image local in
  ret_ok [("inference.server." +:+ field, pinned)].

Definition push_inference_images (v : Values) : Cmd (list (string * string)) :=
  let! merged := merge_values v in
  match (bt_get "inference" merged ≫= yaml_get "server") ≫= yaml_mapping with
  | None => ret_ok []
  | Some server =>
      let! image := push_field server "image" in
      let! weights := push_field server "weights" in
      ret_ok (image ++ weights)
  end.

Definition TOOLS_LABEL : string := "{{ index .Config.Labels " +:+ dq +:+ "md.sycophant.tools" +:+ dq +:+ " }}".

Definition tools_doc (tools : list (string * string)) : yaml :=
  YMapping [(YString "toolset", YMapping [(YString "tools",
    YMapping ((λ kv, (YString kv.1, YString kv.2)) <$> tools))])].

(** The extra values file is owned by the result. *)
Definition push_toolset_image (v : Values) : Cmd (list (string * string) * option string) :=
  let! merged := merge_values v in
  let! toolset := lift (ok_or (bt_get "toolset" merged ≫= yaml_mapping) "toolset block not found in values") in
  let! local := lift (ok_or (mapping_get "image" toolset ≫= yaml_str) "toolset.image not found in values") in
  if is_reference local then ret_ok ([], None) else
  let! pinned := push_local_image local in
  let* label := run_output "docker" ["inspect"; "--format"; TOOLS_LABEL; local] in
  let tools_json := default EmptyString (rok label) in
  let overrides := [("toolset.image", pinned)] in
  if str_is_empty tools_json then ret_ok (overrides, None) else
  let! tools := lift (map_err (λ e, "parse md.sycophant.tools label: " +:+ e) (json_string_map L tools_json)) in
  let! text := lift (map_err (λ e, "serialize tools values: " +:+ e) (yaml_print L (tools_doc tools))) in
  let! tmp := TempFile_new "yaml" text in
  ret_ok (overrides, Some tmp).

(** [instructions::pack]. *)
Definition folder_field (text : string) : result (option string) string :=
  let? doc := yaml_parse L text in Ok (yaml_str (yaml_index "folder" (yaml_index "instructions" doc))).
Definition join_parent (file dir : string) : string := path_join (path_parent file) dir.
Definition metadata_of (ans : Answer) : result Node string :=
  match ans with Listed n => Ok n | Done _ => Ok NOther | Failed _ e | Refused e | Unwritten e | Unwaited e => Err e end.

Definition pack (v : Values) : Cmd string :=
  match v_files v with
  | [file] =>
      let* text := effect (ReadFile file) in
      match folder (λ _, io_error text) folder_field join_parent file with
      | Err e => Ret (Err e)
      | Ok root =>
          let* tree := effect (ReadTree root) in
          let! content := lift (pack_values (λ _, io_error text) folder_field join_parent (λ _, metadata_of tree)
                                  (λ b, base64 L (str_of b)) [file]) in
          TempFile_new "yaml" content
      end
  | _ => Ret (Err "instructions up takes exactly one -f")
  end.

(** ** [up], [down] and [suspend] *)

Definition manifest_namespace (manifest : string) : option string :=
  doc ← rok (yaml_parse L manifest); yaml_str (yaml_index "namespace" (yaml_index "metadata" doc)).

Definition channel_script (ns : string) : string :=
  "kubectl exec -n " +:+ ns +:+ " deploy/headscale -- headscale users create channel 2>/dev/null; "
  +:+ "uid=$(kubectl exec -n " +:+ ns +:+ " deploy/headscale -- headscale users list -o json | jq -r '.[] | select(.name == "
  +:+ dq +:+ "channel" +:+ dq +:+ ") | .id'); "
  +:+ "kubectl exec -n " +:+ ns +:+ " deploy/headscale -- headscale preauthkeys create -u " +:+ dq +:+ "$uid" +:+ dq +:+ " -e 8760h "
  +:+ "| tr -d '\n' "
  +:+ "| kubectl create secret generic relay-tsnet-authkey -n " +:+ ns
  +:+ " --from-file=authkey=/dev/stdin --dry-run=client -o yaml "
  +:+ "| kubectl apply -n " +:+ ns +:+ " -f - >/dev/null".

Definition mint_channel_authkey (ns : string) : Cmd unit :=
  pmap_err (λ e, "failed to mint channel authkey: " +:+ e) (run_passthrough "sh" ["-c"; channel_script ns]).

(** The overrides and the extra values file a kind needs. *)
Definition images_of (kind : string) (v : Values) : Cmd (list (string * string) * option string) :=
  if decide (kind = "inference") then let! overrides := push_inference_images v in ret_ok (overrides, None)
  else if decide (kind = "toolset") then push_toolset_image v
  else if decide (kind = "instructions") then let! f := pack v in ret_ok ([], Some f)
  else ret_ok ([], None).

(** An optional file, dropped at the end of the function. *)
Definition scoped_opt {R A} (new : Cmd R) (path_of : R → option string) (body : R → Cmd A) : Cmd A :=
  let! r := new in
  let* x := body r in
  let* _ := match path_of r with Some p => drop_temp p | None => Ret tt end in
  Ret x.

Definition up (kind : string) (v : Values) : Cmd unit :=
  scoped_opt (images_of kind v) snd (λ i,
    let args := helm_args v ++ (kv ← i.1; ["--set-string"; kv.1 +:+ "=" +:+ kv.2])
                ++ match i.2 with Some f => ["-f"; f] | None => [] end in
    let! manifest := render (kind +:+ "-provision") args in
    let! scope := Scope_global in
    as_operator (login L (oidc_dir scope)) (λ op,
      let! _ := match (if decide (kind = "channel") then manifest_namespace manifest else None) with
                | Some ns => mint_channel_authkey ns
                | None => ret_ok tt
                end in
      apply op kind manifest)).

Definition down (kind name tenant : string) : Cmd unit :=
  let! scope := Scope_global in
  as_operator (login L (oidc_dir scope)) (λ op, reap op kind "name" name tenant).

Definition user_down (subject tenant : string) : Cmd unit :=
  let! scope := Scope_global in
  as_operator (login L (oidc_dir scope)) (λ op, reap op "user" "subject" subject tenant).

Definition suspend (op : Operator) (ns : string) (keepalive : option string) : Cmd unit :=
  let! token := lift (tenant_token ns) in
  let! manifest := render "tenant-suspend"
    (["--set-string"; "tenant.name=" +:+ token]
     ++ match keepalive with Some k => ["--set-string"; "tenant.keepalive=" +:+ k] | None => [] end) in
  with_kubeconfig L op (λ kube,
    let! _ := grant_command_writer ns COMMAND_WRITER_VERBS (kube_identity kube) in
    let! _ := write kube manifest in
    ret_ok tt).

(** ** [up.rs] *)

(** Two hex digits a byte. *)
Definition hex_digit (n : N) : ascii := byte_of (if (n <? 10)%N then 48 + n else 87 + n).
Definition hex2 (c : ascii) : bytes := [hex_digit (byte_val c / 16); hex_digit (byte_val c mod 16)].
Definition owner_hash (identity : string) : string := str_of (c ← take 8 (sha256 L identity); hex2 c).

Definition tenant_fields (manifest : string) : result (string * string) string :=
  let? m := map_err (λ e, "rendered command is not YAML: " +:+ e) (yaml_parse L manifest) in
  let field k := default EmptyString (yaml_str (yaml_index k (yaml_index "data" m))) in
  if str_is_empty (field "tenant") then Err "the tenant provision command carries no tenant; set tenant.name"
  else Ok (field "tenant", field "capacity").

Definition tenant_manifest (scope : Scope) (capacity identity : string) : Cmd string :=
  let! ns := lift (release_name scope) in
  let! token := lift (tenant_token ns) in
  render "tenant-provision"
    ["--set-string"; "tenant.name=" +:+ token; "--set-string"; "tenant.capacity=" +:+ capacity;
     "--set-string"; "tenant.owner=" +:+ identity; "--set-string"; "tenant.ownerHash=" +:+ owner_hash identity].

Definition capacity_args (ns : string) : list string :=
  ["get"; "resourcequota"; ns +:+ "-capacity"; "-n"; ns; "-o"; "jsonpath={.spec.hard.limits\.memory}"].

(** It only prints. *)
Definition warn_capacity_unchanged (ns capacity : string) : Prog unit :=
  let* _ := run_output "kubectl" (capacity_args ns) in Ret tt.

Definition provision (scope : Scope) (op : Operator) (manifest capacity : string) : Cmd unit :=
  let! ns := lift (release_name scope) in
  let* exists_ := run_silent "kubectl" ["get"; "namespace"; ns] in
  let* _ := if exists_ : bool then warn_capacity_unchanged ns capacity else Ret tt in
  let! _ := apply op "tenant" manifest in
  with_kubeconfig L op (λ kube, grant_command_writer ns COMMAND_WRITER_VERBS (kube_identity kube)).

(** The first kubeconfig lives to the end of the function. *)
Definition up_run (v : Values) : Cmd unit :=
  let args := helm_args v in
  let! first := render "tenant-provision" args in
  let! tc := lift (tenant_fields first) in
  let! scope := Scope_for_tenant (tenant_ns tc.1) in
  as_operator (login L (oidc_dir scope)) (λ op,
    with_kubeconfig L op (λ kube,
      let identity := kube_identity kube in
      let! manifest := render "tenant-provision"
        (args ++ ["--set-string"; "tenant.owner=" +:+ identity; "--set-string"; "tenant.ownerHash=" +:+ owner_hash identity]) in
      provision scope op manifest tc.2)).

(** ** [down.rs], [remove.rs], [destroy.rs] *)

Definition scaled_down (ns : string) : Prog bool :=
  let* r := run_output "kubectl" ["get"; "deploy"; "-n"; ns; "-o";
    "jsonpath={range .items[*]}{.spec.replicas}{" +:+ dq +:+ " " +:+ dq +:+ "}{end}"] in
  Ret (match r with Ok s => forallb (λ n, bool_decide (n = "0")) (split_whitespace s) | Err _ => false end).

Definition down_run (scope : Scope) (keepalive : option string) : Cmd unit :=
  let! ns := lift (release_name scope) in
  let* exists_ := run_silent "kubectl" ["get"; "namespace"; ns] in
  if negb exists_ then ret_ok tt else
  let! _ := as_operator (login L (oidc_dir scope)) (λ op, suspend op ns keepalive) in
  wait_for_ "tenant Deployments scaled to zero" 120 (scaled_down ns).

Definition reap_stamped (ns : string) : Prog bool :=
  let* r := run_output "kubectl" ["get"; "namespace"; ns; "-o"; "jsonpath={.metadata.annotations.sycophant\.md/reap-after}"] in
  Ret (match r with Ok a => negb (str_is_empty a) | Err _ => false end).

Definition remove_run (scope : Scope) : Cmd unit :=
  let! ns := lift (release_name scope) in
  let* exists_ := run_silent "kubectl" ["get"; "namespace"; ns] in
  if negb exists_ then ret_ok tt else
  let! _ := as_operator (login L (oidc_dir scope)) (λ op, suspend op ns (Some "0")) in
  wait_for_ "reap-after stamped on the tenant namespace" 120 (reap_stamped ns).

Definition json_list_has_name (list_json name : string) : bool :=
  match rok (yaml_parse L list_json) ≫= yaml_seq with
  | Some seq => existsb (λ c, bool_decide (yaml_get "name" c ≫= yaml_str = Some name)) seq
  | None => false
  end.
Definition cluster_exists : string → string → bool := json_list_has_name.

Definition destroy_run : Cmd unit :=
  let* list := run_output "k3d" ["cluster"; "list"; "-o"; "json"] in
  if negb (cluster_exists (default EmptyString (rok list)) "sycophant") then ret_ok tt
  else run_passthrough "k3d" ["cluster"; "delete"; "sycophant"].

(** ** [secret.rs] *)

Definition parse_secret_list (out : string) : list string :=
  filter (λ s, s ≠ EmptyString) (str_trim <$> str_lines out).

Definition reject_blank (value : string) : result unit string :=
  if str_is_empty (str_trim value) then Err "stdin was empty, no secret value provided" else Ok tt.

Definition nl : string := str_of [newline].

Definition build_secret_yaml (name namespace value : string) : string :=
  "apiVersion: v1" +:+ nl +:+ "kind: Secret" +:+ nl +:+ "metadata:" +:+ nl
  +:+ "  name: " +:+ name +:+ nl +:+ "  namespace: " +:+ namespace +:+ nl +:+ "  labels:" +:+ nl
  +:+ "    app.kubernetes.io/part-of: sycophant" +:+ nl +:+ "    sycophant.md/type: secret" +:+ nl
  +:+ "stringData:" +:+ nl +:+ "  " +:+ name +:+ ": " +:+ json_print L (JString value) +:+ nl.

Definition stdin_usage : string :=
  "Secret value must be provided via stdin." +:+ nl
  +:+ "  API key:  echo $API_KEY | sycoadm secret set <name>" +:+ nl
  +:+ "  File:     sycoadm secret set <name> < path/to/file".

Definition do_set (scope : Scope) (name : string) : Cmd unit :=
  let! ns := lift (release_name scope) in
  let* tty := effect StdinIsTerminal in
  if is_done tty then Ret (Err stdin_usage) else
  let! value := fs_call ReadStdin "failed to read stdin" in
  let! _ := lift (reject_blank value) in
  run_stdin "kubectl" ["apply"; "-n"; ns; "-f"; "-"] (build_secret_yaml name ns value).

(** What it prints is its result. *)
Definition do_list (scope : Scope) : Cmd (list string) :=
  let! ns := lift (release_name scope) in
  let! out := run_output "kubectl" ["get"; "secrets"; "-n"; ns; "-l"; "sycophant.md/type=secret"; "-o";
    "jsonpath={range .items[*]}{.metadata.name}{" +:+ dq +:+ "\n" +:+ dq +:+ "}{end}"] in
  ret_ok (parse_secret_list out).

Definition do_delete (scope : Scope) (name : string) : Cmd unit :=
  let! ns := lift (release_name scope) in
  let! _ := delete_cr "secret" name ns in
  ret_ok tt.

Definition secret_run (sub : SecretSub) : Cmd unit :=
  match sub with
  | SSet name ns => let! scope := Scope_for_tenant ns in do_set scope name
  | SList _ ns => let! scope := Scope_for_tenant ns in let! _ := do_list scope in ret_ok tt
  | SDelete name ns => let! scope := Scope_for_tenant ns in do_delete scope name
  end.

(** ** [connect.rs] *)

Definition HEADSCALE_USER : string := "operator".

Definition local_port : Prog N :=
  let* v := env_var "SYCO_HEADSCALE_PORT" in Ret (default 8080%N (v ≫= parse_below 65536)).

Definition headscale (ns : string) (args : list string) : list string :=
  ["exec"; "-n"; ns; "deploy/headscale"; "--"; "headscale"] ++ args.

Definition user_number (users : json) : option N :=
  u ← head (filter (λ u, as_str (json_index "name" u) = Some HEADSCALE_USER) (default [] (as_array users)));
  match json_u64 (num_u64 L) (json_index "id" u) with
  | Some n => Some n
  | None => as_str (json_index "id" u) ≫= parse_below 18446744073709551616
  end.

Definition key_line (out : string) : option string :=
  str_trim <$> head (filter (λ l, str_trim l ≠ EmptyString) (reverse (str_lines out))).

Definition create_preauthkey (ns : string) : Cmd string :=
  let* _ := run_output "kubectl" (headscale ns ["users"; "create"; HEADSCALE_USER]) in
  let! users_json := run_output "kubectl" (headscale ns ["users"; "list"; "-o"; "json"]) in
  let! users := lift (map_err (λ e, "failed to parse headscale users: " +:+ e) (json_parse L users_json)) in
  let! user_id := lift (ok_or (user_number users) ("headscale user " +:+ HEADSCALE_USER +:+ " has no id")) in
  let! out := run_output "kubectl" (headscale ns ["preauthkeys"; "create"; "-u"; pretty user_id; "-e"; "24h"]) in
  lift (ok_or (key_line out) "headscale preauthkeys create returned no key").

Definition do_tailnet_join (ns : string) : Cmd unit :=
  let! key := create_preauthkey ns in
  with_temp "authkey" key (λ keyfile,
    let* _ := run_passthrough "sudo" ["tailscale"; "logout"] in
    let* port := local_port in
    run_passthrough "sudo" ["tailscale"; "up"; "--reset"; "--login-server=http://localhost:" +:+ pretty port;
      "--auth-key=file:" +:+ keyfile; "--force-reauth"; "--timeout=30s"]).

Definition forward_script (ns port_map : string) : string :=
  "while true; do kubectl port-forward -n " +:+ ns +:+ " svc/headscale " +:+ port_map
  +:+ " --address 127.0.0.1 2>/dev/null; sleep 1; done".

Definition start_port_forward (ns port_map : string) : Cmd string :=
  fs_call (Spawn "sh" ["-c"; forward_script ns port_map]) "failed to start port-forward".

Definition kill_script (port : N) : string :=
  "lsof -ti tcp:" +:+ pretty port +:+ " | while read pid; do kill " +:+ dq +:+ "$pid" +:+ dq +:+ " 2>/dev/null; done".

Definition connect_ns (tenant : string) : string :=
  if str_starts_with TENANT_NS_PREFIX tenant then tenant else tenant_ns tenant.

Definition connect_run (tenant : string) : Cmd unit :=
  let ns := connect_ns tenant in
  let* present := run_silent "tailscale" ["version"] in
  if negb present then Ret (Err "tailscale CLI not found on this host") else
  let! _ := wait_for_ "headscale Available" 180
    (run_silent "kubectl" ["wait"; "--for=condition=Available"; "--timeout=5s"; "-n"; ns; "deploy/headscale"]) in
  let* port := local_port in
  let* _ := run_silent "sh" ["-c"; kill_script port] in
  let! _ := start_port_forward ns (pretty port +:+ ":8080") in
  do_tailnet_join ns.

(** ** [tenant.rs] and a component's command *)

Definition tenant_run (sub : TenantSub) : Cmd unit :=
  match sub with
  | TUp v => up_run v
  | TDown name keepalive => let! scope := Scope_for_tenant (tenant_ns name) in down_run scope keepalive
  | TRemove name => let! scope := Scope_for_tenant (tenant_ns name) in remove_run scope
  | TSecret sub => secret_run sub
  end.

Definition component (kind : string) (sub : ComponentSub) : Cmd unit :=
  match sub with CUp v => up kind v | CDown d => down kind (cd_name d) (cd_tenant d) end.
End commands.

(** ** Lemmas *)

Section lemmas.
Context {Num : Type} (L : Libs Num).

Lemma still_render template args : still (render template args).
Proof. unfold render. still. Qed.
Lemma still_write kube manifest : still (write kube manifest).
Proof. unfold write. still. Qed.
Lemma still_wait_job job verb : still (wait_job L job verb).
Proof. unfold wait_job, job_poll. still. Qed.
Hint Resolve still_render still_write still_wait_job : still.
Lemma still_apply op kind manifest : still (apply L op kind manifest).
Proof. unfold apply. still. Qed.
Lemma still_reap op kind key value tenant : still (reap L op kind key value tenant).
Proof. unfold reap. still. Qed.
Lemma still_suspend op ns keepalive : still (suspend L op ns keepalive).
Proof. unfold suspend. still. Qed.
Hint Resolve still_apply still_reap still_suspend : still.

Lemma still_push_local_image image : still (push_local_image image).
Proof. unfold push_local_image. destruct (name_tag image). still. Qed.
Lemma still_merge_files files merged : still (merge_files L files merged).
Proof. revert merged. induction files as [|f files IH]; intros merged; simpl; still. Qed.
Lemma still_merge_values v : still (merge_values L v).
Proof. apply still_merge_files. Qed.
Hint Resolve still_push_local_image still_merge_values : still.
Lemma still_push_field (server : list (Yaml Num * Yaml Num)) field : still (push_field server field).
Proof. unfold push_field. still. Qed.
Hint Resolve still_push_field : still.
Lemma still_push_inference_images v : still (push_inference_images L v).
Proof. unfold push_inference_images. still. Qed.
Lemma still_mint_channel_authkey ns : still (mint_channel_authkey ns).
Proof. unfold mint_channel_authkey. still. Qed.
Hint Resolve still_push_inference_images still_mint_channel_authkey : still.

(** What may own a file. *)
Definition maybe_owned (O : list string) (r : result (list (string * string) * option string) string) (O' : list string) : Prop :=
  match r with Ok (_, Some p) => p ∉ O ∧ O' = O ++ [p] | _ => O' = O end.

Definition maybe_owner (p : Cmd (list (string * string) * option string)) : Prop := ∀ O, spec O p (maybe_owned O).

Lemma maybe_owner_cbind {A} (p : Cmd A) f : still p → (∀ a, maybe_owner (f a)) → maybe_owner (cbind p f).
Proof. intros Hp Hf O. eapply spec_bind; [apply Hp|]. intros [a|e] O' ->; [apply Hf|]. by apply spec_ret. Qed.

Lemma maybe_owner_bind {A} (p : Prog A) f : still p → (∀ a, maybe_owner (f a)) → maybe_owner (pbind p f).
Proof. intros Hp Hf O. eapply spec_bind; [apply Hp|]. intros a O' ->. apply Hf. Qed.

Lemma maybe_owner_none overrides : maybe_owner (ret_ok (overrides, None)).
Proof. intros O. by apply spec_ret. Qed.

Lemma maybe_owner_temp (p : Cmd string) overrides : owner p id → maybe_owner (let! f := p in ret_ok (overrides, Some f)).
Proof. intros Hp O. eapply spec_bind; [apply Hp|]. intros [f|e] O' Ho; by apply spec_ret. Qed.

Lemma owner_TempFile_new suffix content : owner (TempFile_new suffix content) id.
Proof. intros O. eapply spec_mono; [apply spec_TempFile_new|]. by intros []. Qed.

Lemma owner_pack v : owner (pack L v) id.
Proof.
  unfold pack. destruct (v_files v) as [|f [|]]; try apply owner_err.
  intros O. eapply spec_bind; [by apply (still_effect (ReadFile f))|]. intros text ? ->.
  destruct (folder _ _ _ _) as [root|e]; [|by apply spec_ret].
  eapply spec_bind; [by apply (still_effect (ReadTree root))|]. intros tree ? ->. revert O.
  apply owner_cbind; [still|]. intros c. apply owner_TempFile_new.
Qed.

Lemma maybe_owner_images kind v : maybe_owner (images_of L kind v).
Proof.
  unfold images_of. repeat case_decide.
  - apply maybe_owner_cbind; [still|]. intros. apply maybe_owner_none.
  - unfold push_toolset_image. do 3 (apply maybe_owner_cbind; [still|intros ?]). destruct (is_reference _); [apply maybe_owner_none|].
    apply maybe_owner_cbind; [still|intros ?]. apply maybe_owner_bind; [still|intros ?]. cbv zeta.
    destruct (str_is_empty _); [apply maybe_owner_none|]. do 2 (apply maybe_owner_cbind; [still|intros ?]).
    apply maybe_owner_temp, owner_TempFile_new.
  - apply maybe_owner_temp, owner_pack.
  - apply maybe_owner_none.
Qed.

Lemma still_scoped_opt {A} new (body : _ → Cmd A) : maybe_owner new → (∀ r, still (body r)) → still (scoped_opt new snd body).
Proof.
  intros Hn Hb O. unfold scoped_opt. eapply spec_bind; [apply Hn|]. intros [[i o]|e] O' Ho; [|simpl in Ho; subst; by apply spec_ret].
  eapply spec_bind; [apply Hb|]. intros x ? ->. destruct o as [p|]; simpl in Ho.
  - destruct Ho as [Hp ->]. eapply spec_bind; [by apply spec_drop_temp|]. intros [] ? ->. by apply spec_ret.
  - subst. by apply spec_ret.
Qed.

Lemma still_up kind v : still (up L kind v).
Proof. unfold up. apply still_scoped_opt; [apply maybe_owner_images|]. intros i. still. Qed.
Lemma still_down kind name tenant : still (down L kind name tenant).
Proof. unfold down. still. Qed.
Lemma still_user_down subject tenant : still (user_down L subject tenant).
Proof. unfold user_down. still. Qed.
Hint Resolve still_up still_down still_user_down : still.
Lemma still_component kind sub : still (component L kind sub).
Proof. destruct sub; simpl; still. Qed.

Lemma still_provision scope op manifest capacity : still (provision L scope op manifest capacity).
Proof. unfold provision, warn_capacity_unchanged. still. Qed.
Lemma still_tenant_manifest scope capacity identity : still (tenant_manifest L scope capacity identity).
Proof. unfold tenant_manifest. still. Qed.
Hint Resolve still_provision still_tenant_manifest : still.
Lemma still_destroy_run : still (destroy_run L).
Proof. unfold destroy_run. still. Qed.

Lemma still_local_port : still local_port.
Proof. unfold local_port. still. Qed.
Hint Resolve still_local_port : still.
Lemma still_create_preauthkey ns : still (create_preauthkey L ns).
Proof. unfold create_preauthkey. still. Qed.
Hint Resolve still_create_preauthkey : still.
Lemma still_connect_run tenant : still (connect_run L tenant).
Proof. unfold connect_run, do_tailnet_join, start_port_forward. still. Qed.

Lemma still_tenant_run sub : still (tenant_run L sub).
Proof.
  destruct sub as [v|name k|name|[name ns|b ns|name ns]]; simpl;
    unfold up_run, down_run, remove_run, scaled_down, reap_stamped, do_set, do_list, do_delete; still.
Qed.
End lemmas.
#[export] Hint Resolve still_render still_write still_wait_job still_apply still_reap still_suspend still_provision
  still_tenant_manifest still_component still_user_down still_up still_destroy_run still_connect_run still_tenant_run : still.
