(* ===== verification/Upgrade.v ===== *)
(** * Cluster upgrade

    Models [cli/src/commands/upgrade.rs]: the read-only checks of the cluster and
    of every tenant, the decision, and the apply phase that upgrades the cluster
    chart and then re-provisions the tenants. *)

From stdpp Require Import pretty.
From S2P Require Import Prelude Text ConfigMaps Toolset Sse Providers Archive Shell Operator Commands.

Definition VALIDATING : string := "validatingpolicies.policies.kyverno.io".
Definition MUTATING : string := "mutatingpolicies.policies.kyverno.io".
Definition GENERATING : string := "generatingpolicies.policies.kyverno.io".

Definition KYVERNO_POLICIES : list (string * string) :=
  [(VALIDATING, "cluster-capability-job-gate"); (VALIDATING, "cluster-protect-security");
   (MUTATING, "cluster-capability-job-gate-envelope"); (MUTATING, "cluster-runtime-class");
   (MUTATING, "suspend-tenant"); (MUTATING, "reap-tenant-ttl");
   (GENERATING, "provision-tenant-base"); (GENERATING, "provision-tenant-stack"); (GENERATING, "provision-tenant-grant");
   (GENERATING, "tenant-rolebinding-generator");
   (GENERATING, "provision-workspace"); (GENERATING, "provision-workspace-grant"); (GENERATING, "uninstall-workspace");
   (GENERATING, "provision-user"); (GENERATING, "provision-user-grant"); (GENERATING, "uninstall-user");
   (GENERATING, "provision-toolset"); (GENERATING, "provision-toolset-grant"); (GENERATING, "uninstall-toolset");
   (GENERATING, "provision-inference"); (GENERATING, "provision-inference-grant"); (GENERATING, "uninstall-inference");
   (GENERATING, "provision-channel"); (GENERATING, "provision-channel-grant"); (GENERATING, "uninstall-channel")].

Definition REAP_POLICIES : list string :=
  ["reap-tenant"; "reap-workspace"; "reap-user"; "reap-toolset"; "reap-inference"; "reap-channel"].

(** [Iterator::all]: stops at the first that fails. *)
Fixpoint all_hold {A} (l : list A) (check : A → Prog bool) : Prog bool :=
  match l with [] => Ret true | a :: l => let* b := check a in if b : bool then all_hold l check else Ret false end.

Definition cross : string := "  " +:+ str_of (byte_of <$> [226; 156; 151]%N) +:+ " ".

Definition require (fails : list string) (label : string) (present : bool) (detail : string) : list string :=
  if present then fails else fails ++ [cross +:+ label +:+ nl +:+ "      " +:+ detail].

(** ** Plans *)

Record Plan : Type := mkPlan {
  plan_apply : list (string * string); plan_skipped : list (string * list string); plan_suspended : list string }.

Definition reprovision_line (capacity : string → Prog (option string)) (p : Plan) (line : string) : Prog Plan :=
  match split_whitespace line with
  | [] => Ret p
  | [ns] =>
      let* c := capacity ns in
      Ret (match c with
           | Some c => mkPlan (plan_apply p ++ [(ns, c)]) (plan_skipped p) (plan_suspended p)
           | None => mkPlan (plan_apply p) (plan_skipped p ++ [(ns, [cross +:+ "no " +:+ ns +:+ "-capacity quota"])]) (plan_suspended p)
           end)
  | ns :: _ :: _ => Ret (mkPlan (plan_apply p) (plan_skipped p) (plan_suspended p ++ [ns]))
  end.

Fixpoint reprovision_lines (capacity : string → Prog (option string)) (p : Plan) (lines : list string) : Prog Plan :=
  match lines with
  | [] => Ret p
  | line :: lines => let* p := reprovision_line capacity p line in reprovision_lines capacity p lines
  end.

Definition reprovision_plan (kubectl_out : string) (capacity : string → Prog (option string)) : Prog Plan :=
  reprovision_lines capacity (mkPlan [] [] []) (str_lines kubectl_out).

Definition tenant_section (t : string * list string) : string :=
  "tenant `" +:+ t.1 +:+ "`:" +:+ nl +:+ str_join nl t.2.

Definition skipped_result (skipped : list (string * list string)) : result unit string :=
  match skipped with
  | [] => Ok tt
  | _ => Err (pretty (N.of_nat (length skipped)) +:+ " tenant(s) cannot be re-provisioned; nothing applied:" +:+ nl
              +:+ str_join nl (tenant_section <$> skipped))
  end.

Definition summarize_failures (cluster : list string) (tenants : list (string * list string)) : option string :=
  match cluster, tenants with
  | [], [] => None
  | _, _ =>
      let sections := match cluster with [] => [] | _ => ["cluster:" +:+ nl +:+ str_join nl cluster] end
                      ++ (tenant_section <$> tenants) in
      Some ("aborting: upgrade validation failed (" +:+ pretty (N.of_nat (length cluster)) +:+ " cluster check(s), "
            +:+ pretty (N.of_nat (length tenants)) +:+ " tenant namespace(s): " +:+ str_join ", " (tenants.*1)
            +:+ "); nothing applied:" +:+ nl +:+ str_join nl sections)
  end.

(** ** Versions *)

Fixpoint split_any (seps : list ascii) (cur : bytes) (s : bytes) : list bytes :=
  match s with
  | [] => [reverse cur]
  | c :: s => if decide (c ∈ seps) then reverse cur :: split_any seps [] s else split_any seps (c :: cur) s
  end.

Definition version_parts (v : string) : N * N * N :=
  let nums := omap (λ p, parse_below 18446744073709551616 (str_of p)) (split_any ["."; "-"; "+"]%char [] (B v)) in
  (default 0%N (nums !! 0%nat), default 0%N (nums !! 1%nat), default 0%N (nums !! 2%nat)).

(** [>=] on tuples is lexicographic. *)
Definition version_gte (a b : string) : bool :=
  let '(a1, a2, a3) := version_parts a in
  let '(b1, b2, b3) := version_parts b in
  if (a1 =? b1)%N then (if (a2 =? b2)%N then (b3 <=? a3)%N else (b2 <? a2)%N) else (b1 <? a1)%N.

(** ** The command *)

Section upgrade.
Context {Num : Type} (L : Libs Num) (cli_ver : string).

Definition tenant_capacity (ns : string) : Prog (option string) :=
  let* r := run_output "kubectl" (capacity_args ns) in Ret (nonempty (rok r)).

Definition kubectl_tenant_namespaces : Cmd string :=
  pmap_err (λ e, "aborting: cannot list tenant namespaces (" +:+ e +:+ "); nothing applied")
    (run_output "kubectl" ["get"; "ns"; "-l"; "app.kubernetes.io/part-of=sycophant-tenant"; "-o";
      "jsonpath={range .items[*]}{.metadata.name}{" +:+ dq +:+ " " +:+ dq
      +:+ "}{.metadata.annotations.sycophant\.md/reap-after}{" +:+ dq +:+ "\n" +:+ dq +:+ "}{end}"]).

Definition policy_ready (policy : string * string) : Prog bool :=
  let* r := run_output "kubectl" ["get"; policy.1; policy.2; "-o"; "jsonpath={.status.conditionStatus.ready}"] in
  Ret (match r with Ok s => bool_decide (str_trim s = "true") | Err _ => false end).

Definition cluster_app_version : Prog (option string) :=
  let* r := run_output "helm" ["list"; "-n"; "sycophant-system"; "-o"; "json"] in
  Ret (out ← rok r; releases ← rok (json_parse L out); l ← as_array releases;
       r ← head (filter (λ r, json_get "name" r ≫= as_str = Some "sycophant") l);
       json_get "app_version" r ≫= as_str).

Definition cluster_checks : Prog (list string) :=
  let* release := run_silent "helm" ["status"; "sycophant"; "-n"; "sycophant-system"] in
  let fails := require [] "cluster helm release `sycophant`" release "no cluster release — run `sycoadm setup`" in
  let* policies := all_hold KYVERNO_POLICIES policy_ready in
  let fails := require fails "Kyverno policies ready" policies
                 "Kyverno policies not Ready — check `kubectl get vpol,mpol,gpol`" in
  let* reaps := all_hold REAP_POLICIES (λ name, run_silent "kubectl" ["get"; "deletingpolicies.policies.kyverno.io"; name]) in
  let fails := require fails "Kyverno scheduled policies present" reaps "reap policy missing — check `kubectl get dpol`" in
  let* version := cluster_app_version in
  Ret (match version with
       | Some cluster_ver =>
           require fails "sycoadm not older than the cluster" (version_gte cli_ver cluster_ver)
             ("cluster is v" +:+ cluster_ver +:+ " but this sycoadm is v" +:+ cli_ver
              +:+ " — `sycoadm upgrade` would downgrade the platform; update sycoadm instead")
       | None => fails
       end).

(** Everything before the first change, and what it finds. *)
Definition upgrade_checks : Cmd (list string * Plan) :=
  let* cluster_fails := cluster_checks in
  let! out := kubectl_tenant_namespaces in
  let* plan := reprovision_plan out tenant_capacity in
  ret_ok (cluster_fails, plan).

Definition reprovision (op : Operator) (identity : string) (t : string * string) : Cmd unit :=
  let! tenant := Scope_for_tenant t.1 in
  let! manifest := tenant_manifest L tenant t.2 identity in
  provision L tenant op manifest t.2.

Definition upgrade_apply (scope : Scope) (plans : list (string * string)) : Cmd unit :=
  let! _ := extract_assets cli_ver scope in
  let! _ := run_passthrough "helm"
    ["upgrade"; "--install"; "sycophant"; cluster_chart_dir scope; "-n"; "sycophant-system"; "--reuse-values"; "--wait";
     "--timeout=5m"] in
  match plans with
  | [] => ret_ok tt
  | _ => as_operator (login L (oidc_dir scope)) (λ op,
           with_kubeconfig L op (λ kube, for_each plans (reprovision op (kube_identity kube))))
  end.

Definition upgrade_run (check : bool) : Cmd unit :=
  let! scope := Scope_global in
  let! found := upgrade_checks in
  match summarize_failures found.1 [] with
  | Some msg => Ret (Err msg)
  | None =>
      let! _ := lift (skipped_result (plan_skipped found.2)) in
      if check then ret_ok tt else upgrade_apply scope (plan_apply found.2)
  end.
End upgrade.

(** ** What the checks do *)

(** A call that only looks. *)
Definition looks (e : Effect) : bool :=
  match e with
  | Exec (Captured | Silent) None cmd args =>
      match args with
      | verb :: _ => (bool_decide (cmd = "kubectl") && bool_decide (verb = "get"))
                     || (bool_decide (cmd = "helm") && (bool_decide (verb = "status") || bool_decide (verb = "list")))
      | [] => false
      end
  | GetEnv _ => true
  | _ => false
  end.

Lemma emits_all_hold {A} P (l : list A) check : (∀ a, emits P (check a)) → emits P (all_hold l check).
Proof. intros H. induction l as [|a l IH]; simpl; [done|]. apply emits_bind; [done|]. by intros [|]. Qed.

Lemma emits_reprovision_lines P capacity p lines :
  (∀ ns, emits P (capacity ns)) → emits P (reprovision_lines capacity p lines).
Proof.
  intros H. revert p. induction lines as [|line lines IH]; intros p; simpl; [done|]. apply emits_bind; [|done].
  unfold reprovision_line. destruct (split_whitespace line) as [|ns [|? ?]]; try done. apply emits_bind; [done|]. by intros [].
Qed.

(** The first word of each line that has one. *)
Definition first_words (lines : list string) : list string := omap (λ l, head (split_whitespace l)) lines.

(** A listed line with a second word, the reap date, is suspended. *)
Definition reap_dated (lines : list string) : list string :=
  omap (λ l, match split_whitespace l with ns :: _ :: _ => Some ns | _ => None end) lines.

Definition plan_names (p : Plan) : list string := (plan_apply p).*1 ++ (plan_skipped p).*1 ++ plan_suspended p.

(** The plan partitions the listed namespaces. *)
Lemma reprovision_lines_partition capacity p lines tr p' :
  exec (reprovision_lines capacity p lines) tr p' →
  plan_names p' ≡ₚ plan_names p ++ first_words lines ∧ plan_suspended p' = plan_suspended p ++ reap_dated lines.
Proof.
  revert p tr. induction lines as [|line lines IH]; intros p tr H; simpl in H.
  - apply exec_ret in H as [_ ->]. by rewrite !app_nil_r.
  - apply exec_bind in H as (t1 & q & t2 & -> & H1 & H2). destruct (IH q t2 H2) as [Hn Hs].
    rewrite Hn, Hs. unfold first_words, reap_dated. simpl. unfold reprovision_line in H1.
    destruct (split_whitespace line) as [|ns [|x rest]]; simpl.
    + by apply exec_ret in H1 as [_ ->].
    + apply exec_bind in H1 as (u1 & c & u2 & _ & _ & [_ ->]%exec_ret). destruct c as [c|]; unfold plan_names; simpl;
        rewrite fmap_app; simpl; (split; [|done]); solve_Permutation.
    + apply exec_ret in H1 as [_ ->]. unfold plan_names. simpl. by rewrite <-!app_assoc.
Qed.

(** ** What holds when the run applies *)

(** Some call of the trace had an answer that is [ok]. *)
Definition said (tr : list Event) (e : Effect) (ok : Answer → bool) : Prop := ∃ ans, (e, ans) ∈ tr ∧ ok ans = true.

(** What [run_output] reads. *)
Definition prints (ok : string → bool) (ans : Answer) : bool :=
  match done_or_stderr EmptyString ans with Ok out => ok (str_trim (lossy out)) | Err _ => false end.

Lemma said_sub tr1 tr2 e ok : sublist tr1 tr2 → said tr1 e ok → said tr2 e ok.
Proof. intros Hs (ans & Hin & Hok). exists ans. split; [|done]. by eapply elem_of_sublist. Qed.

Lemma all_hold_said {A} (l : list A) (check : A → Prog bool) (call : A → Effect) ok tr :
  (∀ a t, exec (check a) t true → said t (call a) ok) →
  exec (all_hold l check) tr true → ∀ a, a ∈ l → said tr (call a) ok.
Proof.
  intros Hc. revert tr. induction l as [|b l IH]; intros tr H a Ha; [by apply elem_of_nil in Ha|]. simpl in H.
  apply exec_bind in H as (t1 & [] & t2 & -> & H1 & H2); [|by apply exec_ret in H2 as [_ ?]].
  apply elem_of_cons in Ha as [->|Ha].
  - eapply said_sub; [|by apply Hc]. by apply sublist_inserts_r.
  - eapply said_sub; [|by apply (IH t2)]. by apply sublist_inserts_l.
Qed.

Lemma require_nil fails label present detail : require fails label present detail = [] → fails = [] ∧ present = true.
Proof. unfold require. destruct present; [done|]. by destruct fails. Qed.

Definition policy_call (policy : string * string) : Effect :=
  Exec Captured None "kubectl" ["get"; policy.1; policy.2; "-o"; "jsonpath={.status.conditionStatus.ready}"].
Definition reap_call (name : string) : Effect :=
  Exec Silent None "kubectl" ["get"; "deletingpolicies.policies.kyverno.io"; name].
Definition release_call : Effect := Exec Silent None "helm" ["status"; "sycophant"; "-n"; "sycophant-system"].

Lemma policy_ready_said policy tr :
  exec (policy_ready policy) tr true → said tr (policy_call policy) (prints (λ s, bool_decide (str_trim s = "true"))).
Proof.
  intros (t1 & r & t2 & -> & (ans & -> & ->)%exec_run_output & [-> E]%exec_ret)%exec_bind. exists ans. split; [left|].
  unfold prints. by destruct ans.
Qed.

Lemma silent_said cmd args tr : exec (run_silent cmd args) tr true → said tr (Exec Silent None cmd args) is_done.
Proof. intros (ans & -> & E)%exec_run_silent. exists ans. split; [left|done]. Qed.

Section sound.
Context {Num : Type} (L : Libs Num) (cli_ver : string).

(** The cluster's side of the checks. *)
Record cluster_sound (tr : list Event) : Prop := mkSound {
  sound_release : said tr release_call is_done;
  sound_policies : ∀ p, p ∈ KYVERNO_POLICIES → said tr (policy_call p) (prints (λ s, bool_decide (str_trim s = "true")));
  sound_reaps : ∀ name, name ∈ REAP_POLICIES → said tr (reap_call name) is_done;
  sound_version : ∃ t v, sublist t tr ∧ exec (cluster_app_version L) t v ∧
                         match v with Some v => version_gte cli_ver v = true | None => True end }.

Lemma cluster_sound_sub tr1 tr2 : sublist tr1 tr2 → cluster_sound tr1 → cluster_sound tr2.
Proof.
  intros Hsub [S1 S2 S3 (t & v & Ht & Hv)].
  split; [by eapply said_sub|intros q Hq; by eapply said_sub; [|apply S2]|intros q Hq; by eapply said_sub; [|apply S3]|].
  exists t, v. split; [by etrans|done].
Qed.

Lemma cluster_checks_sound tr : exec (cluster_checks L cli_ver) tr [] → cluster_sound tr.
Proof.
  intros (t1 & b1 & t2 & -> & H1 & H)%exec_bind. apply exec_bind in H as (t3 & b2 & t4 & -> & H2 & H).
  apply exec_bind in H as (t5 & b3 & t6 & -> & H3 & H). apply exec_bind in H as (t7 & v & t8 & -> & H4 & [-> E]%exec_ret).
  assert (require (require (require [] "cluster helm release `sycophant`" b1 "no cluster release — run `sycoadm setup`")
    "Kyverno policies ready" b2 "Kyverno policies not Ready — check `kubectl get vpol,mpol,gpol`")
    "Kyverno scheduled policies present" b3 "reap policy missing — check `kubectl get dpol`" = []
    ∧ match v with Some v => version_gte cli_ver v = true | None => True end) as [E3 Ev].
  { destruct v as [v|]; [|done]. symmetry in E. by apply require_nil in E. }
  apply require_nil in E3 as [E2 ->]. apply require_nil in E2 as [E1 ->]. apply require_nil in E1 as [_ ->].
  rewrite app_nil_r. constructor.
  - eapply said_sub; [|by apply silent_said]. by apply sublist_inserts_r.
  - intros p Hp. eapply said_sub; [|by apply (all_hold_said _ policy_ready policy_call _ t3 policy_ready_said H2)].
    by apply sublist_inserts_l, sublist_inserts_r.
  - intros name Hn. eapply said_sub; [|apply (all_hold_said _ _ reap_call _ t5 (λ a t, silent_said _ _ t) H3 _ Hn)].
    by apply sublist_inserts_l, sublist_inserts_l, sublist_inserts_r.
  - exists t7, v. split_and!; [|done|done]. by apply sublist_inserts_l, sublist_inserts_l, sublist_inserts_l.
Qed.

Lemma upgrade_checks_look tr r : exec (upgrade_checks L cli_ver) tr r → Forall (λ ev, looks ev.1 = true) tr.
Proof.
  apply (emits_exec (λ e, looks e = true)). unfold upgrade_checks, cluster_checks, kubectl_tenant_namespaces, reprovision_plan, cluster_app_version.
  emits; try done.
  - apply emits_all_hold. intros []. unfold policy_ready. emits. done.
  - apply emits_all_hold. intros name. emits. done.
  - apply emits_reprovision_lines. intros ns. unfold tenant_capacity. emits. done.
Qed.

Lemma Scope_global_looks tr r : exec Scope_global tr r → Forall (λ ev, looks ev.1 = true) tr.
Proof. apply (emits_exec (λ e, looks e = true)). unfold Scope_global, config_dir. emits; done. Qed.

Definition list_call : Effect :=
  Exec Captured None "kubectl" ["get"; "ns"; "-l"; "app.kubernetes.io/part-of=sycophant-tenant"; "-o";
    "jsonpath={range .items[*]}{.metadata.name}{" +:+ dq +:+ " " +:+ dq
    +:+ "}{.metadata.annotations.sycophant\.md/reap-after}{" +:+ dq +:+ "\n" +:+ dq +:+ "}{end}"].

Lemma upgrade_checks_plan tr plan : exec (upgrade_checks L cli_ver) tr (Ok ([], plan)) →
  cluster_sound tr ∧ ∃ lines, said tr list_call (prints (λ out, bool_decide (str_lines out = lines)))
    ∧ plan_names plan ≡ₚ first_words lines ∧ plan_suspended plan = reap_dated lines.
Proof.
  intros (t1 & fails & t2 & -> & H1 & H)%exec_bind. apply exec_cbind in H as [(e & _ & [=])|(t3 & out & t4 & -> & H3 & H)].
  apply exec_bind in H as (t5 & p & t6 & -> & H5 & [-> [= <- <-]]%exec_ret). rewrite app_nil_r. split.
  - eapply cluster_sound_sub; [|by apply cluster_checks_sound]. by apply sublist_inserts_r.
  - exists (str_lines out). destruct (reprovision_lines_partition _ _ _ _ _ H5) as [Hn Hs]. split; [|by split].
    apply exec_bind in H3 as (u1 & r & u2 & -> & (ans & -> & ->)%exec_run_output & [-> E]%exec_ret).
    exists ans. split; [apply elem_of_app; right; left|]. unfold prints.
    destruct ans; simpl in E; try discriminate; injection E as ->; by apply bool_decide_eq_true.
Qed.

(** C19. Nothing is changed unless every check passed: a run of [upgrade] either
    only looked, or it was not a [--check] and up to some point it only looked,
    and saw the cluster release, every Kyverno policy ready, every reap policy
    present, and no readable release version newer than its own; every listed
    tenant namespace has a capacity or carries a reap date; and what is done
    from there on is to apply exactly that plan, without the namespaces that
    carry a reap date. *)
Theorem upgrade_applies_only_when_sound check tr r :
  exec (upgrade_run L cli_ver check) tr r →
  Forall (λ ev, looks ev.1 = true) tr ∨
  ∃ t1 t2 scope plan lines,
    tr = t1 ++ t2 ∧ check = false ∧ Forall (λ ev, looks ev.1 = true) t1 ∧ cluster_sound t1
    ∧ said t1 list_call (prints (λ out, bool_decide (str_lines out = lines)))
    ∧ (plan_apply plan).*1 ++ reap_dated lines ≡ₚ first_words lines
    ∧ exec (upgrade_apply L cli_ver scope (plan_apply plan)) t2 r.
Proof.
  intros [(e & H & ->)|(t1 & scope & t2 & -> & H1 & H)]%exec_cbind; [left; by eapply Scope_global_looks|].
  pose proof (Scope_global_looks _ _ H1) as G1.
  apply exec_cbind in H as [(e & H & ->)|(t3 & [fails plan] & t4 & -> & H3 & H)].
  { left. apply Forall_app. split; [done|]. by eapply upgrade_checks_look. }
  pose proof (upgrade_checks_look _ _ H3) as G3. assert (G : Forall (λ ev, looks ev.1 = true) (t1 ++ t3)) by by apply Forall_app.
  simpl in H. destruct fails as [|f fails]; simpl in H; [|apply exec_ret in H as [-> ->]; left; by rewrite app_nil_r].
  destruct (plan_skipped plan) as [|s skipped] eqn:Es; simpl in H; [|apply exec_ret in H as [-> ->]; left; by rewrite app_nil_r].
  destruct check; [apply exec_ret in H as [-> ->]; left; by rewrite app_nil_r|]. right.
  destruct (upgrade_checks_plan t3 plan H3) as [Hs (lines & Hl & Hn & Hd)].
  exists (t1 ++ t3), t4, scope, plan, lines. rewrite app_assoc. split_and!; try done.
  - eapply cluster_sound_sub; [|done]. by apply sublist_inserts_l.
  - eapply said_sub; [|done]. by apply sublist_inserts_l.
  - rewrite <-Hn, <-Hd. unfold plan_names. by rewrite Es.
Qed.
End sound.

(** An upgrade of a sound cluster whose one tenant is on its way out. *)
Definition demo_libs : Libs N := {|
  json_parse := λ _, Ok (JArray []); json_print := λ _, EmptyString;
  yaml_parse := λ _, Ok YNull; yaml_print := λ _, Ok EmptyString;
  json_string_map := λ _, Ok []; json_print_map := λ _, Ok EmptyString; yaml_value_map := λ _, Ok [];
  base64 := id; sha256 := λ _, []; num_of := id; num_u64 := Some; num_i64 := λ n, Some (Z.of_N n) |}.

Definition demo_env (past : list Event) (e : Effect) : Answer :=
  match e with
  | GetEnv name => if decide (name = "HOME") then Done "/home/op" else Refused "not set"
  | Exec Captured None "kubectl" ("get" :: "ns" :: _) => Done "tenant-old 2026-01-01"
  | Exec Captured None "kubectl" ("get" :: _) => Done "true"
  | _ => Done EmptyString
  end.

Lemma upgrade_applies_only_when_sound_witness :
  (simulate demo_env [] (upgrade_run demo_libs "0.1.0" false)).2 = Ok tt ∧
  (Forall (λ ev, looks ev.1 = true) (simulate demo_env [] (upgrade_run demo_libs "0.1.0" false)).1 ∨
   ∃ t1 t2 scope plan lines,
     (simulate demo_env [] (upgrade_run demo_libs "0.1.0" false)).1 = t1 ++ t2 ∧ false = false
     ∧ Forall (λ ev, looks ev.1 = true) t1 ∧ cluster_sound demo_libs "0.1.0" t1
     ∧ said t1 list_call (prints (λ out, bool_decide (str_lines out = lines)))
     ∧ (plan_apply plan).*1 ++ reap_dated lines ≡ₚ first_words lines
     ∧ exec (upgrade_apply demo_libs "0.1.0" scope (plan_apply plan)) t2
         (simulate demo_env [] (upgrade_run demo_libs "0.1.0" false)).2).
Proof. split; [vm_compute; reflexivity|]. apply upgrade_applies_only_when_sound, simulate_exec. Defined.

(** ** Versions *)

Lemma version_gte_refl v : version_gte v v = true.
Proof. unfold version_gte. destruct (version_parts v) as [[a b] c]. rewrite !N.eqb_refl. apply N.leb_refl. Qed.

Lemma version_gte_total a b : version_gte a b = true ∨ version_gte b a = true.
Proof.
  unfold version_gte. destruct (version_parts a) as [[a1 a2] a3], (version_parts b) as [[b1 b2] b3].
  rewrite (N.eqb_sym b1 a1), (N.eqb_sym b2 a2). repeat case_match; rewrite ?N.ltb_lt, ?N.leb_le, ?N.eqb_neq in *; lia.
Qed.

(** A part that is no number is skipped, not read as zero. *)
Example version_part_skipped : version_parts "1.x.5" = (1, 5, 0)%N ∧ version_gte "1.x.5" "1.1.0" = true.
Proof. by split; vm_compute. Qed.

(** Tens compare as numbers. *)
Example version_tens : version_gte "0.10.0" "0.9.9" = true ∧ version_gte "0.9.9" "0.10.0" = false.
Proof. by split; vm_compute. Qed.

(** ** Lemmas *)

Section lemmas.
Context {Num : Type} (L : Libs Num) (cli_ver : string).

Lemma still_all_hold {A} (l : list A) check : (∀ a, still (check a)) → still (all_hold l check).
Proof. intros H. induction l as [|a l IH]; simpl; still; done. Qed.

Lemma still_reprovision_lines p lines : still (reprovision_lines tenant_capacity p lines).
Proof. revert p. induction lines as [|l lines IH]; intros p; simpl; unfold reprovision_line, tenant_capacity; still; done. Qed.

Lemma still_upgrade_run check : still (upgrade_run L cli_ver check).
Proof.
  unfold upgrade_run, upgrade_checks, cluster_checks, kubectl_tenant_namespaces, reprovision_plan, cluster_app_version,
    upgrade_apply, reprovision.
  repeat (still || (apply still_all_hold; intros ?; unfold policy_ready) || apply still_reprovision_lines).
Qed.
End lemmas.
#[export] Hint Resolve still_upgrade_run : still.
