(* ===== verification/Setup.v ===== *)
(** * Cluster setup

    Models [cli/src/commands/setup.rs] and [cli/src/commands/build.rs]: the
    prerequisites, the k3d cluster whose API server trusts the bundled Dex, the
    node runtime, Cilium, CoreDNS, Kyverno, the images, the operator, the cluster
    layer and the object store, in the order the run installs them. *)

From stdpp Require Import pretty.
From S2P Require Import Prelude Text ConfigMaps Toolset Sse Providers Archive Shell Operator Commands Upgrade.

(** ** Constants *)

Definition CLUSTER : string := "sycophant".
Definition NODE : string := "k3d-sycophant-server-0".
Definition REGISTRY : string := "sycophant-registry".
Definition APISERVER_AUTH_CONFIG : string := "/etc/rancher/k3s/auth-config.yaml".
Definition SKIP_BUILD_ENV : string := "SYCO_SKIP_BUILD".
Definition K3D_ARGS_ENV : string := "SYCO_K3D_ARGS".
Definition AUTH_CONFIG_APPEND_ENV : string := "SYCO_AUTH_CONFIG_APPEND".
Definition KYVERNO_VALUES_ENV : string := "SYCO_KYVERNO_VALUES".
Definition CLUSTER_VALUES_ENV : string := "SYCO_CLUSTER_VALUES".
Definition CILIUM_PRELOAD_ENV : string := "SYCO_CILIUM_PRELOAD".
Definition CILIUM_VERSION : string := "1.19.3".
Definition KYVERNO_VERSION : string := "3.9.1".
Definition GVISOR_CHANNEL : string := "release/20260914".
Definition BUCKET : string := "sycophant-instructions".

Definition lines_text (l : list string) : string := str_join nl l +:+ nl.

Definition KYVERNO_NS_YAML : string := lines_text
  ["apiVersion: v1"; "kind: Namespace"; "metadata:"; "  name: kyverno"; "  labels:";
   "    pod-security.kubernetes.io/enforce: restricted"; "    pod-security.kubernetes.io/enforce-version: latest";
   "    pod-security.kubernetes.io/warn: restricted"; "    pod-security.kubernetes.io/audit: restricted"].

Record BuildArch : Type := mkArch { rust_target : string; docker_arch : string; cross_linker : string }.

(** ** Inputs *)

Definition env_flag (name : string) : Prog bool :=
  let* v := env_var name in Ret (match v with Some v => negb (str_is_empty v) && negb (bool_decide (v = "0")) | None => false end).
Definition env_path (name : string) : Prog (option string) := let* v := env_var name in Ret (nonempty v).
Definition extra_values (name : string) : Prog (list string) :=
  let* f := env_path name in Ret (match f with Some f => ["-f"; f] | None => [] end).

Definition temp_dir : Prog string := let* ans := effect TempDir in Ret (match ans with Done d => d | _ => EmptyString end).

Definition build_arch (arch : string) : result BuildArch string :=
  if decide (arch = "aarch64") then Ok (mkArch "aarch64-unknown-linux-musl" "arm64" "aarch64-linux-musl-gcc")
  else if decide (arch = "x86_64") then Ok (mkArch "x86_64-unknown-linux-musl" "amd64" "x86_64-linux-musl-gcc")
  else Err ("unsupported build arch: " +:+ arch).

Definition gvisor_arch (arch : string) : result string string :=
  if decide (arch = "aarch64") then Ok "aarch64"
  else if decide (arch = "x86_64") then Ok "x86_64"
  else Err ("unsupported arch for gVisor: " +:+ arch).

Definition is_repo_checkout (root : string) : Prog bool :=
  let* cargo := is_file (path_join root "Cargo.toml") in
  if cargo : bool then is_file (path_join (path_join root "build") "Dockerfile") else Ret false.

Definition repo_root : Prog (option string) :=
  let* top := run_output "git" ["rev-parse"; "--show-toplevel"] in
  match top with
  | Err _ => Ret None
  | Ok root => let* b := is_repo_checkout root in Ret (if b : bool then Some root else None)
  end.

(** ** Prerequisites *)

Definition requires (fails : list string) (label : string) (present : bool) (fix_ : string) : list string :=
  if present then fails else fails ++ [cross +:+ label +:+ nl +:+ "      fix: " +:+ fix_].

Definition cargo_config_has_target (target : string) : Prog bool :=
  let* cargo_home := env_var "CARGO_HOME" in
  let* dir := match cargo_home with
              | Some d => Ret (Some d)
              | None => let* home := env_var "HOME" in Ret ((λ h, h +:+ "/.cargo") <$> home)
              end in
  match dir with
  | Some d => let* c := effect (ReadFile (path_join d "config.toml")) in
              Ret (match io_error c with Ok c => contains (B ("target." +:+ target)) (B c) | Err _ => false end)
  | None => Ret false
  end.

Definition parse_df_avail_gb (df_output : string) : option N :=
  line ← str_lines df_output !! 1%nat;
  field ← split_whitespace line !! 3%nat;
  avail_kb ← parse_below 18446744073709551616 field;
  Some (avail_kb / 1024 / 1024)%N.

Definition check_vm_disk (fails : list string) : Prog (list string) :=
  let* out := run_output "docker" ["run"; "--rm"; "busybox"; "df"; "-Pk"; "/"] in
  Ret (match rok out ≫= parse_df_avail_gb with
       | Some gb => if (gb <? 8)%N
           then fails ++ [cross +:+ "Docker VM free disk: " +:+ pretty gb +:+ "GB (< 8GB — kubelet will evict)" +:+ nl
                          +:+ "      fix: docker system prune -af"]
           else fails
       | None => fails
       end).

Definition prereqs_result (fails : list string) : result unit string :=
  match fails with
  | [] => Ok tt
  | _ => Err (pretty (N.of_nat (length fails)) +:+ " prerequisite(s) missing:" +:+ nl +:+ str_join nl fails)
  end.

(** A tool, the call that finds it, and what to do on a Mac and elsewhere. *)
Definition Tool : Type := string * (string * list string) * string * string.

Definition RUNTIME_TOOLS : list Tool :=
  [("Docker (running)", ("docker", ["info"]), "open Docker Desktop (or: brew install --cask docker)",
    "install Docker Engine and start it: https://docs.docker.com/engine/install/");
   ("k3d", ("k3d", ["version"]), "brew install k3d",
    "curl -s https://raw.githubusercontent.com/k3d-io/k3d/main/install.sh | bash");
   ("Helm", ("helm", ["version"]), "brew install helm",
    "curl -fsSL https://raw.githubusercontent.com/helm/helm/main/scripts/get-helm-3 | bash");
   ("kubectl", ("kubectl", ["version"; "--client"]), "brew install kubectl", "https://kubernetes.io/docs/tasks/tools/#kubectl");
   ("openssl", ("openssl", ["version"]), "brew install openssl", "apt-get install -y openssl");
   ("htpasswd", ("sh", ["-c"; "command -v htpasswd"]), "htpasswd ships with macOS; reinstall the command-line tools",
    "apt-get install -y apache2-utils");
   ("grpcurl", ("grpcurl", ["--version"]), "brew install grpcurl", "https://github.com/fullstorydev/grpcurl/releases")].

Definition BUILD_TOOLS : list Tool :=
  [("cargo", ("cargo", ["--version"]), "https://rustup.rs", "https://rustup.rs");
   ("protoc", ("protoc", ["--version"]), "brew install protobuf", "apt-get install -y protobuf-compiler");
   ("cmake", ("cmake", ["--version"]), "brew install cmake", "apt-get install -y cmake")].

Definition compiler_tool (mac : bool) : Tool :=
  if mac then ("Xcode command-line tools", ("xcode-select", ["-p"]), "xcode-select --install", EmptyString)
  else ("C compiler (cc)", ("cc", ["--version"]), EmptyString, "apt-get install -y build-essential").

Definition require_tool (mac : bool) (fails : list string) (t : Tool) : Prog (list string) :=
  let '(label, (cmd, args), mac_fix, other_fix) := t in
  let* b := run_silent cmd args in Ret (requires fails label b (if mac then mac_fix else other_fix)).

Fixpoint require_tools (mac : bool) (fails : list string) (ts : list Tool) : Prog (list string) :=
  match ts with [] => Ret fails | t :: ts => let* fails := require_tool mac fails t in require_tools mac fails ts end.

Definition check_build_prereqs (mac : bool) (arch : BuildArch) (fails : list string) : Prog (list string) :=
  let target := rust_target arch in
  let* fails := require_tools mac fails (BUILD_TOOLS ++ [compiler_tool mac]) in
  let* targets := run_output "rustup" ["target"; "list"; "--installed"] in
  let has_target := match targets with Ok o => existsb (λ l, bool_decide (str_trim l = target)) (str_lines o) | Err _ => false end in
  let fails := requires fails ("rustup target " +:+ target) has_target ("rustup target add " +:+ target) in
  let linker_fix := if mac then "brew install messense/macos-cross-toolchains/" +:+ target
    else "install a " +:+ docker_arch arch +:+ " cross toolchain providing " +:+ cross_linker arch in
  let* linker := run_silent (cross_linker arch) ["--version"] in
  let fails := requires fails ("cross-linker " +:+ cross_linker arch) linker linker_fix in
  let* config := cargo_config_has_target target in
  let fails := requires fails ("~/.cargo/config.toml linker for " +:+ target) config
    ("add to ~/.cargo/config.toml:  [target." +:+ target +:+ "]  linker = " +:+ dq +:+ cross_linker arch +:+ dq) in
  check_vm_disk fails.

Definition check_prereqs (mac : bool) (build : option BuildArch) : Cmd unit :=
  let* fails := require_tools mac [] RUNTIME_TOOLS in
  let* fails := match build with Some arch => check_build_prereqs mac arch fails | None => Ret fails end in
  Ret (prereqs_result fails).

(** ** Images: [build.rs] *)

Definition REGISTRY_PUSH : string := "localhost:5555".
Definition TOOLSET_BASE_TAG : string := "toolset-base:local".
Definition CONTROLLER_BINS : list string := ["toolset-runtime"; "relay-controller"; "inference-runtime"].
Definition IMPORT_IMAGES : list string :=
  ["inference-runtime:local"; "sycophant-harness:local"; "relay-controller:local"; "sycophant-kubectl:local";
   "sycophant-provisioner:local"].
Definition TOOLSET_IMAGES : list string := ["toolset"; "toolset-hello-world"].

(** [unreachable!] for other images. *)
Definition toolset_context (image : string) : option string :=
  if decide (image = "toolset") then Some "images/toolset"
  else if decide (image = "toolset-hello-world") then Some "examples/sycoadm/toolsets/hello-world"
  else None.

Definition stage (repo triple src_bin dst_rel : string) : Cmd string :=
  let src := path_join (path_join (path_join (path_join repo "target") triple) "release") src_bin in
  let dst := path_join repo dst_rel in
  let! _ := fs_call (CopyFile src dst) ("stage " +:+ src_bin) in
  ret_ok dst.

Definition docker_build (repo : string) (args : list string) : Cmd unit :=
  run_passthrough_in repo "docker" (["build"; "-q"] ++ args).

(** A binary copied into the build context, the build, and its removal. *)
Definition staged_build (repo triple src_bin dst_rel : string) (args : list string) : Cmd unit :=
  let! staged := stage repo triple src_bin dst_rel in
  let! _ := docker_build repo args in
  let* _ := effect (RemoveFile staged) in
  ret_ok tt.

Section setup.
Context {Num : Type} (L : Libs Num) (cli_ver arch_name : string) (mac : bool) (CILIUM_VALUES KYVERNO_VALUES : string).

Fixpoint flat_strings (path : string) (m : list (string * Yaml Num)) : result (list (string * string)) string :=
  match m with
  | [] => Ok []
  | (k, YString s) :: m => let? rest := flat_strings path m in Ok ((k, s) :: rest)
  | (k, _) :: _ => Err (path +:+ ": " +:+ k +:+ " is not a string")
  end.

Definition tools_label (ctx : string) : Cmd string :=
  let path := path_join ctx "tools.yaml" in
  let! raw := fs_call (ReadFile path) ("read " +:+ path) in
  let! parsed := lift (map_err (λ e, "parse " +:+ path +:+ ": " +:+ e) (yaml_value_map L raw)) in
  let! flat := lift (flat_strings path parsed) in
  lift (json_print_map L flat).

Definition build_toolset (repo img : string) : Cmd unit :=
  match toolset_context img with
  | None => ret_ok tt
  | Some ctx =>
      let! label := tools_label (path_join repo ctx) in
      docker_build repo ["--build-arg"; "BASE_IMAGE=" +:+ TOOLSET_BASE_TAG; "--label"; "md.sycophant.tools=" +:+ label;
        "-f"; ctx +:+ "/Dockerfile"; ctx; "-t"; img +:+ ":local"]
  end.

Definition build_and_load (repo : string) (arch : BuildArch) : Cmd unit :=
  let triple := rust_target arch in
  let darch := docker_arch arch in
  let archarg := "TARGETARCH=" +:+ darch in
  let! _ := run_passthrough_in repo "cargo" ["build"; "--release"; "--target"; triple; "-p"; "inference-runtime";
    "-p"; "toolset-runtime"; "-p"; "harness"; "-p"; "relay-controller"] in
  let! _ := staged_build repo triple "toolset-runtime" ("images/toolset-base/toolset-runtime-linux-" +:+ darch)
    ["--build-arg"; archarg; "-f"; "images/toolset-base/Dockerfile"; "images/toolset-base"; "-t"; TOOLSET_BASE_TAG] in
  let! _ := for_each CONTROLLER_BINS (λ bin, staged_build repo triple bin (bin +:+ "-linux-musl-" +:+ darch)
    ["-f"; "build/Dockerfile"; "--build-arg"; "BINARY=" +:+ bin; "--build-arg"; archarg; "-t"; bin +:+ ":local"; "."]) in
  let! _ := staged_build repo triple "harness" ("harness-linux-musl-" +:+ darch)
    ["-f"; "build/Dockerfile"; "--build-arg"; "BINARY=harness"; "--build-arg"; archarg; "-t"; "sycophant-harness:local"; "."] in
  let! _ := for_each TOOLSET_IMAGES (build_toolset repo) in
  let! _ := docker_build repo ["--build-arg"; archarg; "images/kubectl/"; "-t"; "sycophant-kubectl:local"] in
  let! _ := docker_build repo ["--build-arg"; archarg; "-f"; "images/provisioner/Dockerfile"; "."; "-t";
    "sycophant-provisioner:local"] in
  let! _ := for_each IMPORT_IMAGES (λ img, run_passthrough "k3d" ["image"; "import"; img; "--cluster"; CLUSTER]) in
  for_each TOOLSET_IMAGES (λ img,
    let remote := REGISTRY_PUSH +:+ "/" +:+ img +:+ ":latest" in
    let! _ := run_passthrough "docker" ["tag"; img +:+ ":local"; remote] in
    run_passthrough "docker" ["push"; remote]).

(** ** The cluster *)

Definition self_service_enabled : Cmd bool :=
  let* file := env_path CLUSTER_VALUES_ENV in
  match file with
  | None => ret_ok false
  | Some file =>
      let! text := fs_call (ReadFile file) ("cannot read " +:+ file) in
      let! doc := lift (map_err (λ e, file +:+ " is not YAML: " +:+ e) (yaml_parse L text)) in
      ret_ok (bool_decide ((yaml_get "selfService" doc ≫= yaml_get "enabled") ≫= yaml_bool = Some true))
  end.

Definition registry_exists : string → string → bool := json_list_has_name L.

Definition apply_system_ns (scope : Scope) : Cmd unit :=
  run_passthrough "kubectl" ["apply"; "-f"; path_join (cluster_chart_dir scope) "system-ns.yaml"].

Definition append_auth_config (file extra : string) : Cmd unit :=
  let! more := fs_call (ReadFile extra) ("failed to read " +:+ extra) in
  let! cfg := fs_call (ReadFile file) ("failed to read " +:+ file) in
  let! _ := fs_call (WriteFile file (cfg +:+ nl +:+ more)) ("failed to write " +:+ file) in
  ret_ok tt.

Definition k3d_create_args (auth_file instructions registry_arg extra : string) : list string :=
  let port := pretty DEX_NODEPORT in
  ["cluster"; "create"; CLUSTER;
   "--k3s-arg"; "--flannel-backend=none@server:*"; "--k3s-arg"; "--disable-network-policy@server:*";
   "--k3s-arg"; "--disable=traefik@server:*"; "--k3s-arg"; "--disable=servicelb@server:*";
   "--k3s-arg"; "--disable=metrics-server@server:*"; "--k3s-arg"; "--disable=helm-controller@server:*";
   "--k3s-arg"; "--secrets-encryption@server:*";
   "--k3s-arg"; "--kube-apiserver-arg=authentication-config=" +:+ APISERVER_AUTH_CONFIG +:+ "@server:*";
   "-v"; auth_file +:+ ":" +:+ APISERVER_AUTH_CONFIG +:+ "@server:*";
   "-v"; instructions +:+ ":" +:+ instructions +:+ "@all"; registry_arg;
   "--port"; "127.0.0.1:" +:+ port +:+ ":" +:+ port +:+ "@loadbalancer"; "--wait"] ++ split_whitespace extra.

Definition ensure_cluster (scope : Scope) : Cmd unit :=
  let* list := run_output "k3d" ["cluster"; "list"; "-o"; "json"] in
  let oidc := oidc_dir scope in
  let auth_file := auth_config oidc in
  if cluster_exists L (default EmptyString (rok list)) CLUSTER then
    let* there := is_file auth_file in
    Ret (if there : bool then Ok tt
         else Err ("cluster `sycophant` exists but " +:+ auth_file
                   +:+ " is missing, so its apiserver trusts no Dex issuer; run `sycoadm destroy` then `sycoadm setup`"))
  else
  let* values := extra_values CLUSTER_VALUES_ENV in
  let! tls_key := generate_trust L oidc (cluster_chart_dir scope) values in
  let* append := env_path AUTH_CONFIG_APPEND_ENV in
  let! _ := match append with Some extra => append_auth_config auth_file extra | None => ret_ok tt end in
  let* reg_list := run_output "k3d" ["registry"; "list"; "-o"; "json"] in
  let registry_arg := if registry_exists (default EmptyString (rok reg_list)) REGISTRY
    then "--registry-use=" +:+ REGISTRY +:+ ":5555" else "--registry-create=" +:+ REGISTRY +:+ ":0.0.0.0:5555" in
  let! _ := fs_call (CreateDirAll (instructions_dir scope)) ("failed to create " +:+ instructions_dir scope) in
  let* extra := env_path K3D_ARGS_ENV in
  let! _ := run_passthrough "k3d"
    (k3d_create_args auth_file (instructions_dir scope) registry_arg (default EmptyString extra)) in
  let! _ := apply_system_ns scope in
  upload_tls L oidc tls_key.

Definition network_ip : string := "{{ (index .NetworkSettings.Networks " +:+ dq +:+ "k3d-" +:+ CLUSTER +:+ dq +:+ ").IPAddress }}".

Definition patch_coredns_registry : Cmd unit :=
  let* out := run_output "docker" ["inspect"; REGISTRY; "--format"; network_ip] in
  let ip := default EmptyString (rok out) in
  if str_is_empty ip then ret_ok tt else
  let* cm := run_output "kubectl" ["get"; "cm"; "coredns"; "-n"; "kube-system"; "-o"; "jsonpath={.data.NodeHosts}"] in
  let current := default EmptyString (rok cm) in
  if contains (B REGISTRY) (B current) then ret_ok tt else
  run_passthrough "kubectl" ["patch"; "cm"; "coredns"; "-n"; "kube-system"; "--type=merge"; "--patch";
    json_print L (json_obj [("data", json_obj [("NodeHosts", JString (current +:+ nl +:+ ip +:+ " " +:+ REGISTRY))])])].

(** ** The node runtime *)

Definition healthz : Prog bool :=
  let* out := run_output "kubectl" ["get"; "--raw"; "/healthz"] in
  Ret (match out with Ok s => bool_decide (str_trim s = "ok") | Err _ => false end).

(** The deadline is looked at before each of the polls, two seconds apart. *)
Fixpoint healthz_polls (n : nat) : Prog bool :=
  match n with
  | O => Ret false
  | S n =>
      let* passed := effect DeadlinePassed in
      if is_done passed then Ret false else
      let* healthy := healthz in
      if healthy : bool then Ret true else healthz_polls n
  end.
Definition wait_healthz : Cmd unit :=
  let* healthy := healthz_polls 61 in
  Ret (if healthy : bool then Ok tt
       else Err "kube-apiserver did not return /healthz=ok within 120s after the gVisor HUP").

Definition containerd_tmpl : string :=
  "{{ template " +:+ dq +:+ "base" +:+ dq +:+ " . }}" +:+ nl +:+ nl +:+ "[plugins." +:+ dq +:+ "io.containerd.cri.v1.runtime" +:+ dq
  +:+ ".containerd.runtimes.runsc]" +:+ nl +:+ "  runtime_type = " +:+ dq +:+ "io.containerd.runsc.v1" +:+ dq +:+ nl.

Definition docker_cp (src dst : string) : Cmd unit :=
  run_passthrough "docker" ["cp"; src; NODE +:+ ":" +:+ dst].

Definition install_gvisor (scope : Scope) : Cmd unit :=
  let* runsc := run_silent "docker" ["exec"; NODE; "test"; "-x"; "/usr/local/bin/runsc"] in
  let* class := if runsc : bool then run_silent "kubectl" ["get"; "runtimeclass"; "gvisor"] else Ret false in
  if class : bool then ret_ok tt else
  let! arch := lift (gvisor_arch arch_name) in
  let url := "https://storage.googleapis.com/gvisor/releases/" +:+ GVISOR_CHANNEL +:+ "/" +:+ arch in
  let* tmp := temp_dir in
  let t := path_join tmp "syco-gvisor" in
  let x := t +:+ "/gvisor-extract" in
  let! _ := fs_call (CreateDirAll t) ("failed to create " +:+ t) in
  let! _ := for_each ["gvisor.tar.bz2"; "gvisor.tar.bz2.sha512"] (λ f, run_passthrough "curl"
    ["-sSfL"; "--retry"; "5"; "--retry-delay"; "2"; "--retry-all-errors"; "--connect-timeout"; "10"; "-o";
     t +:+ "/" +:+ f; url +:+ "/" +:+ f]) in
  let! _ := run_passthrough "sh" ["-c"; "cd " +:+ t +:+ " && sha512sum -c gvisor.tar.bz2.sha512 && mkdir -p gvisor-extract"
    +:+ " && tar -xjf gvisor.tar.bz2 -C gvisor-extract"] in
  let! _ := run_passthrough "chmod" ["+x"; x +:+ "/runsc"; x +:+ "/containerd-shim-runsc-v1"] in
  let! _ := run_passthrough "docker" ["exec"; NODE; "mkdir"; "-p"; "/usr/local/bin"] in
  let! _ := docker_cp (x +:+ "/runsc") "/usr/local/bin/runsc" in
  let! _ := docker_cp (x +:+ "/containerd-shim-runsc-v1") "/usr/local/bin/containerd-shim-runsc-v1" in
  let! _ := docker_cp (x +:+ "/gvisor-bin") "/usr/local/bin/gvisor-bin" in
  let* _ := effect (RemoveDirAll t) in
  let! _ := run_stdin "docker" ["exec"; "-i"; NODE; "sh"; "-c";
    "cat > /var/lib/rancher/k3s/agent/etc/containerd/config-v3.toml.tmpl"] containerd_tmpl in
  let! _ := run_passthrough "docker" ["exec"; NODE; "sh"; "-c"; "kill -HUP $(pidof k3s)"] in
  let! _ := wait_healthz in
  run_passthrough "helm" ["upgrade"; "--install"; "sycophant-gvisor"; gvisor_chart_dir scope; "--wait"].

(** ** Cilium, Kyverno *)

Definition preload_cilium : Cmd unit :=
  let image := "quay.io/cilium/cilium:v" +:+ CILIUM_VERSION in
  let! _ := run_output "docker" ["pull"; "-q"; image] in
  with_temp "tar" EmptyString (λ t,
    let! _ := run_output "docker" ["image"; "save"; "-o"; t; image] in
    let! _ := run_output "k3d" ["image"; "import"; t; "--cluster"; CLUSTER] in
    ret_ok tt).

Definition install_cilium : Cmd unit :=
  let! api_host := run_output "docker" ["inspect"; NODE; "-f"; network_ip] in
  let* _ := run_silent "helm" ["repo"; "add"; "cilium"; "https://helm.cilium.io/"] in
  let! _ := run_passthrough "helm" ["repo"; "update"] in
  let* tmp := temp_dir in
  let values := path_join tmp "syco-cilium-values.yaml" in
  let! _ := fs_call (WriteFile values CILIUM_VALUES) "failed to write cilium values" in
  let* preload := env_flag CILIUM_PRELOAD_ENV in
  let! _ := if preload : bool then preload_cilium else ret_ok tt in
  run_passthrough "helm" ["upgrade"; "--install"; "cilium"; "cilium/cilium"; "--version"; CILIUM_VERSION;
    "--namespace"; "kube-system"; "-f"; values; "--set"; "k8sServiceHost=" +:+ api_host; "--set"; "k8sServicePort=6443";
    "--wait"; "--timeout=5m"].

Definition install_kyverno (scope : Scope) : Cmd unit :=
  let! _ := run_stdin "kubectl" ["apply"; "-f"; "-"] KYVERNO_NS_YAML in
  let* _ := run_silent "helm" ["repo"; "add"; "kyverno"; "https://kyverno.github.io/kyverno/"] in
  let! _ := run_passthrough "helm" ["repo"; "update"] in
  let! _ := run_passthrough "helm" ["upgrade"; "--install"; "kyverno-crds"; kyverno_crds_chart_dir scope; "--wait"; "--timeout=2m"] in
  let* tmp := temp_dir in
  let values := path_join tmp "syco-kyverno-values.yaml" in
  let! _ := fs_call (WriteFile values KYVERNO_VALUES) "failed to write kyverno values" in
  let* extra := extra_values KYVERNO_VALUES_ENV in
  run_passthrough "helm" (["upgrade"; "--install"; "kyverno"; "kyverno/kyverno"; "--version"; KYVERNO_VERSION; "-n"; "kyverno";
    "-f"; values; "--wait"; "--timeout=5m"] ++ extra).

(** ** The cluster layer *)

Definition cluster_layer_helm_args (chart ca : string) (extra : list string) (operator_id : option string) : list string :=
  ["upgrade"; "--install"; "sycophant"; chart; "-n"; SYSTEM_NS; "--set-string"; "idp.issuer=" +:+ ISSUER;
   "--set-string"; "idp.audience=" +:+ AUDIENCE; "--set-file"; "idp.certificateAuthority=" +:+ ca; "--wait"; "--timeout=5m"]
  ++ extra ++ match operator_id with Some id => ["--set-string"; "selfService.operator=" +:+ id] | None => [] end.

Definition install_cluster_layer (scope : Scope) (operator_id : option string) : Cmd unit :=
  let! _ := apply_system_ns scope in
  let* extra := extra_values CLUSTER_VALUES_ENV in
  run_passthrough "helm" (cluster_layer_helm_args (cluster_chart_dir scope) (ca_cert (oidc_dir scope)) extra operator_id).

Definition install_objectstore (scope : Scope) : Cmd unit :=
  run_passthrough "helm" ["upgrade"; "--install"; "sycophant-objectstore"; chart_dir scope "sycophant-objectstore";
    "-n"; SYSTEM_NS; "--wait"; "--timeout=5m"].

Definition bucket_poll : Prog (bool * string) :=
  let* out := run_output "kubectl" ["exec"; "-n"; SYSTEM_NS; "deploy/seaweedfs"; "--"; "curl"; "-sS"; "-o"; "/dev/null";
    "-w"; "%{http_code}"; "-X"; "POST"; "http://localhost:8888/buckets/" +:+ BUCKET +:+ "/"] in
  let last := match out with Ok s => s | Err e => e end in
  Ret (bool_decide (last = "201") || bool_decide (last = "409"), last).

Definition create_instructions_bucket : Cmd unit :=
  let* r := wait_for ("bucket " +:+ BUCKET) 60 bucket_poll in
  Ret (map_err (λ e, e +:+ "; last answer: " +:+ r.1) r.2).

(** ** The operator *)

Definition prompt_login : Cmd (string * string) :=
  let! email := prompt "Operator email" EMAIL_ENV false in
  let! password := prompt "Operator password" PASSWORD_ENV true in
  let! again := prompt "Confirm password" PASSWORD_ENV true in
  Ret (if decide (again = password) then Ok (email, password) else Err "passwords do not match").

(** The operator, and with it the certificate's file, is dropped at the end of
    the statement that makes the kubeconfig; that one lives on. *)
Definition install_operator (scope : Scope) (install : bool) (email password : string) : Cmd string :=
  let! _ :=
    if install then
      let* present := dex_tls_present in
      if negb present then Ret (Err ("Dex TLS Secret missing from sycophant-system; run `sycoadm destroy` then `sycoadm setup`"))
      else
        let! _ := install_dex L (dex_chart_dir scope) email password in
        save_email (oidc_dir scope) email
    else ret_ok tt in
  scoped (as_operator (with_password L email password) (kubeconfig L)) kube_file (λ kube,
    let! _ := grant_command_writer SYSTEM_NS COMMAND_WRITER_VERBS (kube_identity kube) in
    ret_ok (kube_identity kube)).

(** Whether, and with what, the operator logs in. *)
Definition setup_login (scope : Scope) (need_dex need_grant : bool) : Cmd (option (string * string)) :=
  if need_dex then let! l := prompt_login in ret_ok (Some l)
  else
    let! wanted := if need_grant then ret_ok true else self_service_enabled in
    if wanted : bool then let! l := credentials (oidc_dir scope) in ret_ok (Some l) else ret_ok None.

Definition build_images (repo : option string) (arch : option BuildArch) : Cmd unit :=
  let* skip := env_flag SKIP_BUILD_ENV in
  if skip : bool then ret_ok tt else
  match repo, arch with Some repo, Some arch => build_and_load repo arch | _, _ => ret_ok tt end.

Definition setup_arch (repo : option string) : result (option BuildArch) string :=
  match repo with Some _ => let? a := build_arch arch_name in Ok (Some a) | None => Ok None end.

Definition setup_run : Cmd unit :=
  let* repo := repo_root in
  let! arch := lift (setup_arch repo) in
  let! _ := check_prereqs mac arch in
  let! scope := Scope_global in
  let* dex := dex_installed in
  let* bound := command_writer_bound SYSTEM_NS in
  let! login := setup_login scope (negb dex) (negb bound) in
  let! _ := extract_assets cli_ver scope in
  let! _ := ensure_cluster scope in
  let! _ := install_gvisor scope in
  let! _ := install_cilium in
  let! _ := patch_coredns_registry in
  let! _ := install_kyverno scope in
  let! _ := build_images repo arch in
  let! identity := match login with
                   | Some l => let! id := install_operator scope (negb dex) l.1 l.2 in ret_ok (Some id)
                   | None => ret_ok None
                   end in
  let! _ := install_cluster_layer scope identity in
  let! _ := install_objectstore scope in
  create_instructions_bucket.
End setup.

(** ** A first setup

    The operator's login reads the issuer from the values of the cluster release
    ([with_password]), and the setup logs in before it installs that release. *)

(** [helm upgrade --install sycophant] and [helm get values sycophant]. *)
Definition installs (e : Effect) : bool :=
  match e with
  | Exec _ _ cmd (a :: b :: c :: _) =>
      bool_decide (cmd = "helm") && bool_decide (a = "upgrade") && bool_decide (b = "--install") && bool_decide (c = "sycophant")
  | _ => false
  end.
Definition reads_values (e : Effect) : bool :=
  match e with
  | Exec _ _ cmd (a :: b :: c :: _) =>
      bool_decide (cmd = "helm") && bool_decide (a = "get") && bool_decide (b = "values") && bool_decide (c = "sycophant")
  | _ => false
  end.

(** Helm gives the values of a release only once it was installed. *)
Fixpoint helm_honest (installed : bool) (tr : list Event) : bool :=
  match tr with
  | [] => true
  | (e, ans) :: tr => (negb (reads_values e && is_done ans) || installed) && helm_honest (installed || (installs e && is_done ans)) tr
  end.

Definition no_install {A} (p : Prog A) : Prop := emits (λ e, installs e = false) p.

Lemma helm_honest_later tr1 tr2 :
  Forall (λ ev : Event, installs ev.1 = false) tr1 → helm_honest false (tr1 ++ tr2) = true → helm_honest false tr2 = true.
Proof.
  induction tr1 as [|[e ans] tr1 IH]; intros Hf H; [done|]. apply Forall_cons in Hf as [He Hf]. simpl in *.
  apply andb_true_iff in H as [_ H]. rewrite He in H. by apply IH.
Qed.

Lemma no_install_random_hex : no_install random_hex.
Proof. unfold no_install, random_hex. emits. done. Qed.
Lemma no_install_temp suffix content : no_install (TempFile_new suffix content).
Proof. unfold no_install, TempFile_new, drop_temp. emits; try done; apply no_install_random_hex. Qed.
Lemma no_install_prompt label env hidden : no_install (prompt label env hidden).
Proof. unfold no_install, prompt, echo_off, echo_on, set_echo. emits; try done; destruct hidden; emits; done. Qed.
Lemma no_install_credentials dir : no_install (credentials dir).
Proof. unfold no_install, credentials. emits; try done; apply no_install_prompt. Qed.
Lemma no_install_global : no_install Scope_global.
Proof. unfold no_install, Scope_global, config_dir. emits; done. Qed.
Lemma no_install_extract dir chart : no_install (extract dir chart).
Proof. unfold no_install, extract. emits; done. Qed.
Lemma no_install_extract_assets ver scope : no_install (extract_assets ver scope).
Proof. unfold no_install, extract_assets. emits; try done; apply no_install_extract. Qed.
Lemma no_install_require_tools mac fails ts :
  Forall (λ t : Tool, installs (Exec Silent None t.1.1.2.1 t.1.1.2.2) = false) ts → no_install (require_tools mac fails ts).
Proof.
  revert fails. induction ts as [|[[[label [cmd args]] f1] f2] ts IH]; intros fails H; [done|]. apply Forall_cons in H as [Ht H].
  apply (emits_bind _ (require_tool mac fails _)); [unfold require_tool; emits; done|]. intros f. by apply IH.
Qed.
Lemma no_install_check_prereqs mac arch : no_install (check_prereqs mac arch).
Proof.
  unfold no_install, check_prereqs, check_build_prereqs, cargo_config_has_target, check_vm_disk.
  emits; try done; apply no_install_require_tools; repeat constructor; destruct mac; done.
Qed.

(** A step that does not install, taken off a successful run. *)
Definition quiet (past : list Event) : Prop := Forall (λ ev : Event, installs ev.1 = false) past.

Lemma quiet_bind {A B} (p : Prog A) (f : A → Prog B) full past tr b :
  no_install p → full = past ++ tr → quiet past → exec (pbind p f) tr b →
  ∃ t a tr', full = (past ++ t) ++ tr' ∧ quiet (past ++ t) ∧ exec p t a ∧ exec (f a) tr' b.
Proof.
  intros Hn -> Hq (t & a & tr' & -> & H1 & H2)%exec_bind. exists t, a, tr'. rewrite app_assoc. split_and!; try done.
  apply Forall_app. split; [done|]. exact (emits_exec _ p t a Hn H1).
Qed.

Lemma quiet_cbind {A B} (p : Cmd A) (f : A → Cmd B) full past tr b :
  no_install p → full = past ++ tr → quiet past → exec (cbind p f) tr (Ok b) →
  ∃ t a tr', full = (past ++ t) ++ tr' ∧ quiet (past ++ t) ∧ exec p t (Ok a) ∧ exec (f a) tr' (Ok b).
Proof.
  intros Hn Hf Hq H. destruct (quiet_bind _ _ _ _ _ _ Hn Hf Hq H) as (t & [a|e] & tr' & ? & ? & ? & He); [by exists t, a, tr'|].
  by apply exec_ret in He as [_ ?].
Qed.

(** The next step of the run, its result [a] and its own run [Ha]. *)
Tactic Notation "quiet" uconstr(lem) "as" ident(a) ident(Ha) :=
  match goal with
  | E : ?tr = ?p ++ ?r, Hq : quiet ?p, H : exec _ ?r _ |- _ =>
      let E' := fresh "E'" in let Hq' := fresh "Hq'" in let H' := fresh "H'" in
      (destruct (quiet_cbind _ _ _ _ _ _ lem E Hq H) as (? & a & ? & E' & Hq' & Ha & H')
       || destruct (quiet_bind _ _ _ _ _ _ lem E Hq H) as (? & a & ? & E' & Hq' & Ha & H'));
      clear E Hq H; rename E' into E, Hq' into Hq, H' into H
  end.

Section first.
Context {Num : Type} (L : Libs Num) (cli_ver arch_name : string) (mac : bool) (CILIUM_VALUES KYVERNO_VALUES : string).

Lemma no_install_ensure_cluster scope : no_install (ensure_cluster L scope).
Proof.
  unfold no_install, ensure_cluster, generate_trust, upload_tls, append_auth_config, apply_system_ns, extra_values, env_path.
  emits; done.
Qed.
Lemma no_install_gvisor scope : no_install (install_gvisor arch_name scope).
Proof.
  unfold no_install, install_gvisor, wait_healthz, temp_dir, docker_cp. emits; try done.
  generalize 61%nat. intros n. induction n as [|n IH]; [done|]. unfold healthz_polls; fold healthz_polls. unfold healthz.
  emits; done.
Qed.
Lemma no_install_cilium : no_install (install_cilium CILIUM_VALUES).
Proof.
  unfold no_install, install_cilium, preload_cilium, temp_dir, env_flag, with_temp, scoped, drop_temp. emits; try done.
  apply no_install_temp.
Qed.
Lemma no_install_coredns : no_install (patch_coredns_registry L).
Proof. unfold no_install, patch_coredns_registry. emits; done. Qed.
Lemma no_install_kyverno scope : no_install (install_kyverno KYVERNO_VALUES scope).
Proof. unfold no_install, install_kyverno, temp_dir, extra_values, env_path. emits; done. Qed.
Lemma no_install_build repo arch : no_install (build_images L repo arch).
Proof.
  unfold no_install, build_images, build_and_load, staged_build, stage, docker_build, env_flag, build_toolset, tools_label.
  emits; done.
Qed.
Lemma no_install_install_dex chart email password : no_install (install_dex L chart email password).
Proof. unfold no_install, install_dex, user_id. emits; try done; apply no_install_random_hex. Qed.
Lemma no_install_login scope d g : no_install (setup_login L scope d g).
Proof.
  unfold no_install, setup_login, prompt_login, self_service_enabled, env_path.
  emits; try done; try apply no_install_prompt; apply no_install_credentials.
Qed.

(** Nothing before the login installs the release, so the login cannot read it. *)
Lemma honest_no_operator past scope install email password tr rest id :
  Forall (λ ev : Event, installs ev.1 = false) past → helm_honest false (past ++ tr ++ rest) = true →
  exec (install_operator L scope install email password) tr (Ok id) → False.
Proof.
  intros Hp Hh H. unfold install_operator in H. apply exec_cbind in H as [(e & _ & [=])|(t1 & [] & t2 & -> & H1 & H)].
  assert (F1 : Forall (λ ev : Event, installs ev.1 = false) t1).
  { eapply (emits_exec (λ e, installs e = false)); [|exact H1]. unfold dex_tls_present, save_email.
    emits; try done; apply no_install_install_dex. }
  rewrite <-app_assoc, app_assoc in Hh. apply helm_honest_later in Hh; [|by apply Forall_app].
  unfold scoped, as_operator in H. apply exec_cbind in H as [(e & _ & [=])|(t3 & kube & t4 & -> & H3 & _)].
  unfold scoped in H3. apply exec_cbind in H3 as [(e & _ & [=])|(t5 & op & t6 & -> & H5 & _)].
  unfold with_password in H5. apply exec_cbind in H5 as [(e & _ & [=])|(t7 & out & t8 & -> & H7 & _)].
  apply exec_run_output in H7 as (ans & -> & E). destruct ans; simpl in E; try discriminate; done.
Qed.

Definition dex_call : Effect := Exec Silent None "helm" ["status"; DEX_RELEASE; "-n"; SYSTEM_NS].

Lemma no_install_repo_root : no_install repo_root.
Proof. unfold no_install, repo_root, is_repo_checkout. emits; done. Qed.
Lemma no_install_lift {A} (r : result A string) : no_install (lift r).
Proof. done. Qed.
Lemma no_install_dex_installed : no_install dex_installed.
Proof. unfold no_install, dex_installed. emits. done. Qed.
Lemma no_install_bound ns : no_install (command_writer_bound ns).
Proof. unfold no_install, command_writer_bound. emits. done. Qed.

End first.

(** A machine with every tool and no cluster, where every call succeeds but the
    ones about what is not there. *)
Definition first_libs : Libs N := {|
  json_parse := λ _, Ok (JArray []); json_print := λ _, EmptyString;
  yaml_parse := λ _, Ok (YMapping [(YString "data", YMapping [(YString "auth-config.yaml", YString "jwt: []")])]);
  yaml_print := λ _, Ok EmptyString;
  json_string_map := λ _, Ok []; json_print_map := λ _, Ok EmptyString; yaml_value_map := λ _, Ok [];
  base64 := id; sha256 := λ _, []; num_of := id; num_u64 := Some; num_i64 := λ n, Some (Z.of_N n) |}.

Definition first_env (past : list Event) (e : Effect) : Answer :=
  match e with
  | GetEnv name =>
      if decide (name = "HOME") then Done "/home/op"
      else if decide (name = EMAIL_ENV) then Done "op@example.com"
      else if decide (name = PASSWORD_ENV) then Done "hunter2"
      else Refused "not set"
  | Exec _ _ "git" _ => Failed "128" "not a repository"
  | Exec _ _ "openssl" ("req" :: _) => Done "BEGIN PRIVATE KEY"
  | Exec _ _ "htpasswd" _ => Done "op@example.com:$2y$10$hash"
  | Exec _ _ "kubectl" ("get" :: "rolebinding" :: _) => Failed "1" "not found"
  | Random => Done "00112233445566778899aabbccddeeff"
  | _ =>
      if decide (e = dex_call) then Failed "1" "not found"
      else if reads_values e && negb (existsb (λ ev : Event, installs ev.1 && is_done ev.2) past)
      then Failed "1" "Error: release: not found"
      else Done EmptyString
  end.

Definition first_setup : Cmd unit := setup_run first_libs "0.1.0" "x86_64" false EmptyString EmptyString.
Definition first_run : list Event * result unit string := simulate first_env [] first_setup.

Lemma first_run_exec : exec first_setup first_run.1 first_run.2.
Proof. exact (simulate_exec first_env [] first_setup). Qed.

Lemma never_answered e tr :
  forallb (λ ev : Event, negb (bool_decide (ev.1 = e)) || negb (is_done ev.2)) tr = true →
  ∀ ans, (e, ans) ∈ tr → is_done ans = false.
Proof.
  intros H ans Hin. rewrite forallb_forall in H. specialize (H (e, ans)). simpl in H. rewrite bool_decide_true in H by done.
  apply negb_true_iff. apply H. by apply list_elem_of_In.
Qed.


(** ** Lemmas *)

Section lemmas.
Context {Num : Type} (L : Libs Num) (cli_ver arch_name : string) (mac : bool) (CILIUM_VALUES KYVERNO_VALUES : string).

Lemma still_env_flag name : still (env_flag name).
Proof. unfold env_flag. still. Qed.
Lemma still_env_path name : still (env_path name).
Proof. unfold env_path. still. Qed.
Hint Resolve still_env_flag still_env_path : still.
Lemma still_extra_values name : still (extra_values name).
Proof. unfold extra_values. still. Qed.
Lemma still_temp_dir : still temp_dir.
Proof. unfold temp_dir. still. Qed.
Hint Resolve still_extra_values still_temp_dir : still.

Lemma still_require_tools fails ts : Forall (λ t : Tool, t.1.1.2.1 ≠ "stty") ts → still (require_tools mac fails ts).
Proof.
  revert fails. induction ts as [|[[[label [cmd args]] f1] f2] ts IH]; intros fails H; [apply still_ret|].
  apply Forall_cons in H as [Ht H]. apply (still_bind (require_tool mac fails _)); [unfold require_tool; simpl in Ht; still|].
  intros f. by apply IH.
Qed.

Lemma still_check_prereqs arch : setup_arch arch_name (Some EmptyString) = Ok arch ∨ arch = None → still (check_prereqs mac arch).
Proof.
  intros Ha. unfold check_prereqs. apply still_bind; [apply still_require_tools; repeat constructor; discriminate|]. intros fails.
  apply still_bind; [|intros; still]. destruct arch as [a|]; [|still].
  assert (cross_linker a ≠ "stty") as Hl.
  { destruct Ha as [Ha|]; [|done]. unfold setup_arch, build_arch in Ha. repeat case_decide; naive_solver. }
  unfold check_build_prereqs, cargo_config_has_target, check_vm_disk.
  apply still_bind; [apply still_require_tools; destruct mac; repeat constructor; discriminate|]. intros f. still.
Qed.

Lemma still_repo_root : still repo_root.
Proof. unfold repo_root, is_repo_checkout. still. Qed.
Lemma still_setup_login scope d g : still (setup_login L scope d g).
Proof. unfold setup_login, prompt_login, self_service_enabled. still. Qed.
Lemma still_ensure_cluster scope : still (ensure_cluster L scope).
Proof. unfold ensure_cluster, append_auth_config, apply_system_ns. still. Qed.
Lemma still_healthz_polls n : still (healthz_polls n).
Proof.
  induction n as [|n IH]; [apply still_ret|]. apply (still_bind (effect DeadlinePassed)); [still|]. intros a.
  destruct (is_done a); [still|]. apply (still_bind healthz); [unfold healthz; still|]. intros []; [still|done].
Qed.
Hint Resolve still_healthz_polls : still.
Lemma still_install_gvisor scope : still (install_gvisor arch_name scope).
Proof. unfold install_gvisor, docker_cp, wait_healthz. still. Qed.
Lemma still_install_cilium : still (install_cilium CILIUM_VALUES).
Proof. unfold install_cilium, preload_cilium. still. Qed.
Lemma still_patch_coredns_registry : still (patch_coredns_registry L).
Proof. unfold patch_coredns_registry. still. Qed.
Lemma still_install_kyverno scope : still (install_kyverno KYVERNO_VALUES scope).
Proof. unfold install_kyverno. still. Qed.
Lemma still_install_cluster_layer scope id : still (install_cluster_layer scope id).
Proof. unfold install_cluster_layer, apply_system_ns. still. Qed.
Lemma still_install_objectstore scope : still (install_objectstore scope).
Proof. unfold install_objectstore. still. Qed.
Lemma still_bucket : still create_instructions_bucket.
Proof. unfold create_instructions_bucket, bucket_poll. still. Qed.

Lemma still_install_operator scope install email password : still (install_operator L scope install email password).
Proof.
  unfold install_operator, dex_tls_present. apply still_cbind; [still|]. intros _.
  apply still_owner; [|intros kube; still]. apply owner_scoped; [apply owner_with_password|]. intros op. apply owner_kubeconfig.
Qed.

Lemma neat_staged_build repo triple src dst args : neat (staged_build repo triple src dst args).
Proof.
  unfold staged_build, stage, docker_build. repeat (apply neat_cbind; [apply still_neat; still|intros ?]).
  apply neat_bind; [apply neat_remove|]. intros _. apply still_neat. still.
Qed.

Lemma neat_build_images repo arch : neat (build_images L repo arch).
Proof.
  unfold build_images. apply neat_bind; [apply still_neat; still|]. intros [|]; [apply still_neat; still|].
  destruct repo as [repo|], arch as [arch|]; try apply still_neat, still_ret. unfold build_and_load. cbv zeta.
  apply neat_cbind; [apply still_neat; still|intros _]. apply neat_cbind; [apply neat_staged_build|intros _].
  apply neat_cbind; [apply neat_for_each; intros bin; apply neat_staged_build|intros _].
  apply neat_cbind; [apply neat_staged_build|intros _]. apply still_neat. unfold build_toolset, tools_label, docker_build. still.
Qed.

Lemma neat_setup_run : neat (setup_run L cli_ver arch_name mac CILIUM_VALUES KYVERNO_VALUES).
Proof.
  unfold setup_run. apply neat_bind; [apply still_neat, still_repo_root|intros repo].
  destruct (setup_arch arch_name repo) as [arch|e] eqn:Ea; [|apply still_neat, still_ret].
  match goal with |- neat (cbind (lift (Ok ?a)) ?f) => change (neat (f a)) end. cbv beta.
  apply neat_cbind; [apply still_neat, still_check_prereqs|intros _].
  { destruct repo as [repo|]; [by left|right]. by injection Ea. }
  apply neat_cbind; [apply still_neat; still|intros scope]. unfold dex_installed, command_writer_bound.
  do 2 (apply neat_bind; [apply still_neat; still|intros ?]).
  apply neat_cbind; [apply still_neat, still_setup_login|intros login].
  apply neat_cbind; [apply still_neat; still|intros _]. apply neat_cbind; [apply still_neat, still_ensure_cluster|intros _].
  apply neat_cbind; [apply still_neat, still_install_gvisor|intros _]. apply neat_cbind; [apply still_neat, still_install_cilium|intros _].
  apply neat_cbind; [apply still_neat, still_patch_coredns_registry|intros _].
  apply neat_cbind; [apply still_neat, still_install_kyverno|intros _]. apply neat_cbind; [apply neat_build_images|intros _].
  apply still_neat. apply still_cbind.
  { destruct login as [l|]; [|still]. apply still_cbind; [apply still_install_operator|intros id; still]. }
  intros id. apply still_cbind; [apply still_install_cluster_layer|intros _].
  apply still_cbind; [apply still_install_objectstore|intros _]. apply still_bucket.
Qed.
End lemmas.
