(* ===== verification/Cli.v ===== *)
(** * The command line

    Models [cli/src/main.rs]: the dispatch of a parsed command and the crash
    reporter. *)

From stdpp Require Import pretty.
From S2P Require Import Prelude Text ConfigMaps Toolset Sse Providers Archive Shell Operator Commands Upgrade Setup.

Section main.
Context {Num : Type} (L : Libs Num) (cli_ver arch_name : string) (mac : bool) (CILIUM_VALUES KYVERNO_VALUES : string).

Definition dispatch (c : Command) : Cmd unit :=
  match c with
  | Setup => setup_run L cli_ver arch_name mac CILIUM_VALUES KYVERNO_VALUES
  | Destroy => destroy_run L
  | Upgrade check => upgrade_run L cli_ver check
  | Tenant sub => tenant_run L sub
  | Connect tenant => connect_run L tenant
  | Toolset sub => component L "toolset" sub
  | Workspace sub => component L "workspace" sub
  | Instructions sub => component L "instructions" sub
  | User (UUp v) => up L "user" v
  | User (UDown subject tenant) => user_down L subject tenant
  | Inference sub => component L "inference" sub
  | Channel sub => component L "channel" sub
  end.

(** The process's exit code. *)
Definition main (c : Command) : Prog N :=
  let* r := dispatch c in Ret (match r with Ok _ => 0%N | Err _ => 1%N end).

(** The report goes below the config directory, or to the temporary one. *)
Definition crash_report (body : string) (secs : N) : Prog string :=
  let name := "syco-debug-" +:+ pretty secs +:+ ".json" in
  let fallback :=
    let* tmp := temp_dir in
    let path := path_join tmp name in
    let* _ := effect (WriteFile path body) in
    Ret path in
  let* dir := config_dir in
  match dir with
  | None => fallback
  | Some dir =>
      let dir := path_join dir "crash" in
      let* made := effect (CreateDirAll dir) in
      if negb (is_done made) then fallback else
      let path := path_join dir name in
      let* written := effect (WriteFile path body) in
      if is_done written then Ret path else fallback
  end.

Lemma neat_dispatch c : neat (dispatch c).
Proof. destruct c as [| | | | | | | |[]| |]; simpl; try apply neat_setup_run; apply still_neat; still. Qed.

End main.

(** The operator suspends a tenant. *)
Definition down_libs : Libs N := {|
  json_parse := λ _, Ok (JObject [("id_token", JString "t0k3n");
    ("idp", JObject [("audience", JString "aud"); ("certificateAuthority", JString "pem"); ("issuer", JString "https://i")])]);
  json_print := λ _, EmptyString; yaml_parse := λ _, Ok YNull; yaml_print := λ _, Ok EmptyString;
  json_string_map := λ _, Ok []; json_print_map := λ _, Ok EmptyString; yaml_value_map := λ _, Ok [];
  base64 := id; sha256 := λ _, []; num_of := id; num_u64 := Some; num_i64 := λ n, Some (Z.of_N n) |}.

Definition down_env (past : list Event) (e : Effect) : Answer :=
  match e with
  | GetEnv "HOME" => Done "/home/op"
  | GetEnv _ => Refused "not set"
  | ReadLine _ _ => Done "hunter2"
  | TempDir => Done "/tmp"
  | Random => Done "00112233445566778899aabbccddeeff"
  | Exec _ _ "kubectl" ("--kubeconfig" :: _ :: "auth" :: _) => Done "https://i#op"
  | Exec _ _ "kubectl" ("config" :: _) => Done "Y2E="
  | Exec _ _ "kubectl" ("get" :: "deploy" :: _) => Done "0 0"
  | DeadlinePassed => Refused "not yet"
  | _ => Done EmptyString
  end.

Definition down_main : Prog N := main down_libs "0.1.0" "x86_64" false EmptyString EmptyString (Tenant (TDown "acme" None)).
Definition down_run_ : list Event * N := simulate down_env [] down_main.

Lemma down_run_exec : exec down_main down_run_.1 down_run_.2.
Proof. exact (simulate_exec down_env [] down_main). Qed.

