(* ===== verification/Secrets.v ===== *)
(** * Where secrets go

    Two runs of a command that differ only in the secrets they are given (the
    operator's password and its hash, the TLS key, the ID token, a pre-auth key,
    the value of a secret) make the same calls with the same arguments, write the
    same files, and exit alike: a secret reaches only the standard input of a
    program and the content of a private temporary file. *)

From S2P Require Import Prelude Text ConfigMaps Toolset Sse Providers Archive Shell Operator Commands Upgrade Setup Cli.

(** ** Runs with different secrets *)

(** What others can see of an effect. *)
Definition erase (e : Effect) : Effect :=
  match e with
  | Exec (Piped _) dir cmd args => Exec (Piped EmptyString) dir cmd args
  | CreateNew path _ => CreateNew path EmptyString
  | _ => e
  end.

Inductive Kind : Type := KEnv | KLine | KTls | KHash | KToken | KStdin | KPreauth.

(** The effects that bring a secret in. *)
Definition source (e : Effect) : option Kind :=
  match e with
  | GetEnv name => if decide (name = PASSWORD_ENV) then Some KEnv else None
  | ReadLine _ true => Some KLine
  | ReadStdin => Some KStdin
  | Exec Captured None cmd args =>
      if decide (cmd = "openssl" ∧ head args = Some "req") then Some KTls
      else if decide (cmd = "kubectl" ∧ args !! 6%nat = Some "preauthkeys") then Some KPreauth
      else None
  | Exec (Piped _) None cmd _ =>
      if decide (cmd = "htpasswd") then Some KHash else if decide (cmd = "curl") then Some KToken else None
  | _ => None
  end.

(** A world answers each kind of source in its own way. *)
Definition World : Type := Kind → Answer.

Section worlds.
Context (w1 w2 : World).

Definition answers (e : Effect) (a1 a2 : Answer) : Prop :=
  match source e with Some k => a1 = w1 k ∧ a2 = w2 k | None => a1 = a2 end.

Inductive agree {A} (R : A → A → Prop) : Prog A → Prog A → Prop :=
| AgreeRet a b : R a b → agree R (Ret a) (Ret b)
| AgreeDo e e' k k' : erase e = erase e' → (∀ a1 a2, answers e a1 a2 → agree R (k a1) (k' a2)) → agree R (Do e k) (Do e' k').

Lemma agree_bind {A B} (R : A → A → Prop) (S : B → B → Prop) p p' (f f' : A → Prog B) :
  agree R p p' → (∀ a a', R a a' → agree S (f a) (f' a')) → agree S (pbind p f) (pbind p' f').
Proof. intros Hp Hf. induction Hp as [a b Hab|e e' k k' He _ IH]; simpl; [by apply Hf|]. by constructor. Qed.

Lemma agree_mono {A} (R S : A → A → Prop) p p' : (∀ a b, R a b → S a b) → agree R p p' → agree S p p'.
Proof. intros H Hp. induction Hp as [a b Hab|e e' k k' He _ IH]; constructor; auto. Qed.

(** The results that may differ in the secret they carry. *)
Definition alike {A} (r r' : result A string) : Prop := r = r' ∨ (is_ok r = true ∧ is_ok r' = true).

Lemma agree_eq {A B} (S : result B string → result B string → Prop) `{!Reflexive S} (p p' : Cmd A) (f f' : A → Cmd B) :
  agree eq p p' → (∀ a, agree S (f a) (f' a)) → agree S (cbind p f) (cbind p' f').
Proof. intros Hp Hf. eapply agree_bind; [done|]. intros [a|e] ? <-; [done|]. by constructor. Qed.

Lemma agree_alike {A B} (S : result B string → result B string → Prop) `{!Reflexive S} (p p' : Cmd A) (f f' : A → Cmd B) :
  agree alike p p' → (∀ a a', agree S (f a) (f' a')) → agree S (cbind p f) (cbind p' f').
Proof.
  intros Hp Hf. eapply agree_bind; [done|]. intros [a|e] [a'|e'] H; try done.
  - by destruct H as [|[_ ?]].
  - by destruct H as [|[? _]].
  - destruct H as [[= ->]|[? _]]; [by constructor|done].
Qed.

(** A program that brings in no secret does the same in both worlds. *)
Definition plain_answer (e : Effect) : Prop := source e = None.

Lemma agree_same {A} (p : Prog A) : emits plain_answer p → agree eq p p.
Proof.
  induction p as [a|e k IH]; intros H; [by constructor|]. destruct H as [He Hk]. constructor; [done|].
  intros a1 a2 Ha. unfold answers in Ha. rewrite He in Ha. subst. by apply IH.
Qed.

Lemma agree_same_alike {A} (p : Cmd A) : emits plain_answer p → agree alike p p.
Proof. intros H. eapply agree_mono; [|by apply agree_same]. intros ? ? ->. by left. Qed.

(** One call whose input or content differs. *)
Lemma agree_call (e e' : Effect) : erase e = erase e' → source e = None → agree eq (effect e) (effect e').
Proof. intros He Hs. constructor; [done|]. intros a1 a2 Ha. unfold answers in Ha. rewrite Hs in Ha. subst. by constructor. Qed.

Lemma agree_source (e e' : Effect) k (R : Answer → Answer → Prop) :
  erase e = erase e' → source e = Some k → R (w1 k) (w2 k) → agree R (effect e) (effect e').
Proof. intros He Hs HR. constructor; [done|]. intros a1 a2 Ha. unfold answers in Ha. rewrite Hs in Ha. destruct Ha as [-> ->]. by constructor. Qed.

(** What the two runs show is the same. *)
Lemma agree_traces {A} (R : A → A → Prop) p p' tr a :
  agree R p p' → exec p tr a → (∀ e ans k, (e, ans) ∈ tr → source e = Some k → ans = w1 k) →
  ∃ tr' a', exec p' tr' a' ∧ R a a' ∧ erase <$> tr.*1 = erase <$> tr'.*1 ∧
            (∀ e ans k, (e, ans) ∈ tr' → source e = Some k → ans = w2 k).
Proof.
  intros Hp H. revert p' Hp. induction H as [a|e k ans tr a _ IH]; intros p' Hp Hw; inversion Hp; subst.
  - exists [], b. split_and!; [constructor|done|done|]. intros ? ? ? Hin. by apply elem_of_nil in Hin.
  - set (ans' := match source e with Some kd => w2 kd | None => ans end).
    assert (Ha : answers e ans ans').
    { unfold answers, ans'. destruct (source e) as [kd|] eqn:E; [|done]. split; [|done]. apply (Hw e ans kd); [left|done]. }
    destruct (IH (k' ans')) as (tr' & a' & Hx1 & Hx2 & Hx3 & Hx4); [auto| |].
    { intros e0 ans0 k0 Hin. apply Hw. by right. }
    exists ((e', ans') :: tr'), a'. split_and!; [by constructor|done|by simpl; f_equal|].
    intros e0 ans0 k0 [[= -> ->]|Hin]%elem_of_cons Hs; [|by eapply Hx4]. unfold ans'.
    enough (source e = Some k0) as -> by done. destruct e, e'; simplify_eq/=; try done; repeat case_match; simplify_eq; done.
Qed.
End worlds.

(** ** The secrets' shapes

    The two worlds answer each source alike: the same, or both with a secret of
    the shape the program expects. *)

Definition shaped {Num} (L : Libs Num) (k : Kind) (ans : Answer) : bool :=
  match k, ans with
  | KEnv, Done v => negb (str_is_empty v)
  | KLine, Done v => negb (str_is_empty (trim_eol v))
  | KTls, Done v => contains (B "PRIVATE KEY") (B (str_trim (lossy v)))
  | KHash, Done v => bool_decide (is_Some (rsplit_once colon (str_trim (lossy v))))
  | KToken, Done v => match json_parse L v with Ok b => bool_decide (is_Some (json_get "id_token" b ≫= as_str)) | Err _ => false end
  | KStdin, Done v => negb (str_is_empty (str_trim v))
  | KPreauth, Done v => bool_decide (is_Some (key_line (str_trim (lossy v))))
  | _, _ => false
  end.

Definition shaped_alike {Num} (L : Libs Num) (k : Kind) (a a' : Answer) : Prop :=
  a = a' ∨ (shaped L k a = true ∧ shaped L k a' = true).

Definition worlds_alike {Num} (L : Libs Num) (w1 w2 : World) : Prop := ∀ k, shaped_alike L k (w1 k) (w2 k).

Ltac no_secret := apply agree_same; unfold plain_answer; emits; try done.

Section programs.
Context {Num : Type} (L : Libs Num) (w1 w2 : World) (Hw : worlds_alike L w1 w2).
Abbreviation agree := (agree w1 w2).

(** *** The operator *)

Definition same_login (r r' : result Operator string) : Prop :=
  match r, r' with
  | Ok o, Ok o' => op_issuer o = op_issuer o' ∧ op_client o = op_client o' ∧ op_ca o = op_ca o' ∧ op_email o = op_email o'
  | Err e, Err e' => e = e'
  | _, _ => False
  end.
Instance same_login_refl : Reflexive same_login.
Proof. intros []; simpl; auto. Qed.
Instance alike_refl {A} : Reflexive (@alike A).
Proof. intros r. by left. Qed.

(** What a prompt for the password gives in a world. *)
Definition env_of (ans : Answer) : option string := match ans with Done v => Some v | _ => None end.

Definition line_of (label : string) (read : Answer) : result string string :=
  let? line := map_err (λ e, "failed to read " +:+ label +:+ ": " +:+ e) (io_error read) in
  if str_is_empty (trim_eol line) then Err (label +:+ " must not be empty") else Ok (trim_eol line).

Definition password_of (label : string) (w : World) : result string string :=
  match nonempty (env_of (w KEnv)) with Some v => Ok v | None => line_of label (w KLine) end.

Lemma password_alike label : alike (password_of label w1) (password_of label w2).
Proof using Hw.
  unfold password_of. destruct (Hw KEnv) as [->|[He He']].
  - destruct (nonempty _); [by left|]. destruct (Hw KLine) as [->|[Hl Hl']]; [by left|].
    destruct (w1 KLine) as [v| | | | |], (w2 KLine) as [v'| | | | |]; try done. simpl in Hl, Hl'. unfold line_of. simpl.
    destruct (str_is_empty (trim_eol v)), (str_is_empty (trim_eol v')); try done. by right.
  - destruct (w1 KEnv) as [v| | | | |], (w2 KEnv) as [v'| | | | |]; try done. simpl in *.
    destruct (str_is_empty v), (str_is_empty v'); try done. by right.
Qed.

Lemma agree_prompt_exact label : agree (λ r r', r = password_of label w1 ∧ r' = password_of label w2)
  (prompt label PASSWORD_ENV true) (prompt label PASSWORD_ENV true).
Proof using Hw.
  unfold prompt. eapply agree_bind with (R := λ v v', v = env_of (w1 KEnv) ∧ v' = env_of (w2 KEnv)).
  { unfold env_var. eapply agree_bind; [by apply (agree_source w1 w2 _ _ KEnv (λ a a', a = w1 KEnv ∧ a' = w2 KEnv))|].
    intros a a' [-> ->]. by constructor. }
  intros ? ? [-> ->]. unfold password_of.
  assert (Hn : (nonempty (env_of (w1 KEnv)) = None ∧ nonempty (env_of (w2 KEnv)) = None)
    ∨ ∃ v v', nonempty (env_of (w1 KEnv)) = Some v ∧ nonempty (env_of (w2 KEnv)) = Some v').
  { destruct (Hw KEnv) as [->|[He He']]; [destruct (nonempty _); naive_solver|].
    destruct (w1 KEnv) as [v| | | | |], (w2 KEnv) as [v'| | | | |]; try done. simpl in *.
    destruct (str_is_empty v), (str_is_empty v'); try done. right. by exists v, v'. }
  destruct Hn as [[-> ->]|(v & v' & -> & ->)]; [|by constructor].
  eapply (agree_bind w1 w2 eq); [no_secret|]. intros tty ? <-.
  eapply (agree_bind w1 w2 eq); [destruct tty; unfold echo_off, set_echo; no_secret|]. intros [] ? _.
  eapply agree_bind; [by apply (agree_source w1 w2 _ _ KLine (λ a a', a = w1 KLine ∧ a' = w2 KLine))|]. intros ? ? [-> ->].
  eapply (agree_bind w1 w2 eq); [destruct tty; unfold echo_on, set_echo; no_secret|]. intros [] ? _.
  assert (Hl : ∀ read, (let! line := lift (map_err (λ e, "failed to read " +:+ label +:+ ": " +:+ e) (io_error read)) in
    let v := trim_eol line in Ret (if str_is_empty v then Err (label +:+ " must not be empty") else Ok v)) = Ret (line_of label read)).
  { intros read. unfold line_of. by destruct (io_error read). }
  rewrite !Hl. by constructor.
Qed.

Lemma agree_prompt label : agree alike (prompt label PASSWORD_ENV true) (prompt label PASSWORD_ENV true).
Proof using Hw. eapply agree_mono; [|apply agree_prompt_exact]. intros ? ? [-> ->]. apply password_alike. Qed.

Definition same_email (r r' : result (string * string) string) : Prop :=
  match r, r' with Ok c, Ok c' => c.1 = c'.1 | Err e, Err e' => e = e' | _, _ => False end.
Instance same_email_refl : Reflexive same_email.
Proof. intros []; simpl; auto. Qed.

Lemma emits_prompt_plain label env : env ≠ PASSWORD_ENV → emits plain_answer (prompt label env false).
Proof.
  intros H. unfold prompt, plain_answer, echo_off, echo_on, set_echo. emits; try done. simpl. by rewrite decide_False.
Qed.

Lemma agree_credentials dir : agree same_email (credentials dir) (credentials dir).
Proof using Hw.
  unfold credentials. eapply (agree_bind w1 w2 eq); [no_secret|]. intros v ? <-.
  eapply (agree_bind w1 w2 eq); [no_secret|]. intros s ? <-.
  apply agree_eq; [apply _|..].
  - apply agree_same. repeat case_match; try done. by apply emits_prompt_plain.
  - intros email. apply agree_alike; [apply _|apply agree_prompt|]. intros p p'. by constructor.
Qed.

Lemma emits_random_hex : emits plain_answer random_hex.
Proof. unfold random_hex, plain_answer. emits. done. Qed.

Lemma agree_TempFile_new suffix c c' : agree eq (TempFile_new suffix c) (TempFile_new suffix c').
Proof.
  unfold TempFile_new. eapply (agree_bind w1 w2 eq); [no_secret|]. intros tmp ? <-.
  apply agree_eq; [apply _|apply agree_same, emits_random_hex|]. intros hex. cbv zeta.
  eapply (agree_bind w1 w2 eq); [no_secret|]. intros a ? <-.
  eapply (agree_bind w1 w2 eq); [by apply agree_call|]. intros ans ? <-.
  destruct ans; try (by constructor); unfold drop_temp; no_secret.
Qed.

Lemma agree_scoped {R A} (RR : result R string → result R string → Prop) (new new' : Cmd R) path_of (body body' : R → Cmd A) :
  agree RR new new' →
  (∀ r r', RR r r' → match r, r' with
    | Ok x, Ok x' => path_of x = path_of x' ∧ agree eq (body x) (body' x') | Err e, Err e' => e = e' | _, _ => False end) →
  agree eq (scoped new path_of body) (scoped new' path_of body').
Proof.
  intros Hn Hb. unfold scoped. eapply agree_bind; [exact Hn|]. intros [r|e] [r'|e'] H; specialize (Hb _ _ H); simpl in Hb; try done.
  - destruct Hb as [Hp Hb]. eapply agree_bind; [exact Hb|]. intros x ? <-. rewrite Hp. unfold drop_temp. no_secret.
  - subst. by constructor.
Qed.

Lemma agree_with_password email password password' :
  agree same_login (with_password L email password) (with_password L email password').
Proof.
  unfold with_password. do 5 (apply agree_eq; [apply _|no_secret|intros ?]).
  apply agree_eq; [apply _|apply agree_TempFile_new|]. intros ca. by constructor.
Qed.

Lemma agree_login dir : agree same_login (login L dir) (login L dir).
Proof using Hw.
  unfold login. eapply agree_bind; [apply agree_credentials|].
  intros [[e p]|e] [[e' p']|e'] H; simpl in H; try done; subst; [apply agree_with_password|by constructor].
Qed.

(** The output of a call that answers with a secret, after [f]. *)
Definition shaped_out (k : Kind) (f : string → string) (r r' : result string string) : Prop :=
  r = r' ∨ ∃ o o', r = Ok (f o) ∧ r' = Ok (f o') ∧ shaped L k (Done o) = true ∧ shaped L k (Done o') = true.

Lemma shaped_done k ans : shaped L k ans = true → ∃ o, ans = Done o.
Proof. destruct k, ans; try done; by eexists. Qed.

Lemma agree_secret_bytes k cmd args i i' : source (Exec (Piped i) None cmd args) = Some k →
  agree (shaped_out k id) (run_stdin_bytes cmd args i) (run_stdin_bytes cmd args i').
Proof using Hw.
  intros Hs. unfold run_stdin_bytes. eapply agree_bind; [by apply (agree_source w1 w2 _ _ k (shaped_alike L k))|].
  intros a a' [->|[Ha Ha']]; constructor; [by left|]. destruct (shaped_done _ _ Ha) as [o ->], (shaped_done _ _ Ha') as [o' ->].
  right. by exists o, o'.
Qed.

Lemma agree_secret_output k cmd args : source (Exec Captured None cmd args) = Some k →
  agree (shaped_out k (λ o, str_trim (lossy o))) (run_output cmd args) (run_output cmd args).
Proof using Hw.
  intros Hs. unfold run_output. eapply agree_bind; [by apply (agree_source w1 w2 _ _ k (shaped_alike L k))|].
  intros a a' [->|[Ha Ha']]; constructor; [by left|]. destruct (shaped_done _ _ Ha) as [o ->], (shaped_done _ _ Ha') as [o' ->].
  right. by exists o, o'.
Qed.

(** What is made of it: the same of the same, and alike of the two secrets. *)
Lemma agree_shaped {A} k f (g : string → result A string) (p p' : Cmd string) :
  agree (shaped_out k f) p p' → (∀ o, shaped L k (Done o) = true → is_ok (g (f o)) = true) →
  agree alike (let! o := p in lift (g o)) (let! o := p' in lift (g o)).
Proof.
  intros Hp Hg. eapply agree_bind; [exact Hp|]. intros r r' [->|(o & o' & -> & -> & Ho & Ho')].
  - apply agree_same_alike. by destruct r'.
  - constructor. right. auto.
Qed.

Definition token_of (out : string) : result string string :=
  let? body := map_err (λ e, "unexpected Dex token response: " +:+ e) (json_parse L out) in
  ok_or (json_get "id_token" body ≫= as_str) ("Dex returned no id_token: " +:+ json_print L body).

Lemma token_of_ok o : shaped L KToken (Done o) = true → is_ok (token_of o) = true.
Proof.
  intros H. unfold token_of. simpl in H. destruct (json_parse L o) as [b|]; [|done]. apply bool_decide_eq_true in H as [t Ht].
  cbn [rbind map_err]. by rewrite Ht.
Qed.

Lemma agree_id_token op op' : same_login (Ok op) (Ok op') → agree alike (id_token L op) (id_token L op').
Proof using Hw.
  intros (H1 & H2 & H3 & H4). unfold id_token. rewrite H1, H2, H3, H4.
  assert (Ht : ∀ o, (let! body := lift (map_err (λ e, "unexpected Dex token response: " +:+ e) (json_parse L o)) in
    lift (ok_or (json_get "id_token" body ≫= as_str) ("Dex returned no id_token: " +:+ json_print L body))) = lift (token_of o)).
  { intros o. unfold token_of. by destruct (json_parse L o). }
  eapply agree_bind with (R := shaped_out KToken id).
  - unfold pmap_err. eapply agree_bind; [by apply (agree_secret_bytes KToken)|]. intros r r' Hr. constructor.
    destruct Hr as [->|(o & o' & -> & -> & Ho)]; [by left|]. right. by exists o, o'.
  - intros r r' [->|(o & o' & -> & -> & Ho & Ho')]; [destruct r' as [o|e]; [rewrite Ht|]; by apply agree_same_alike|].
    rewrite !Ht. constructor. right. by split; apply token_of_ok.
Qed.

Lemma agree_kubeconfig op op' : same_login (Ok op) (Ok op') → agree eq (kubeconfig L op) (kubeconfig L op').
Proof using Hw.
  intros H. unfold kubeconfig. apply agree_alike; [apply _|by apply agree_id_token|]. intros t t'.
  do 2 (apply agree_eq; [apply _|no_secret|intros ?]). destruct (str_is_empty _); [by constructor|].
  apply agree_eq; [apply _|apply agree_TempFile_new|]. intros file. destruct H as (-> & _).
  eapply (agree_bind w1 w2 eq); [unfold whoami; no_secret|]. intros r ? <-.
  destruct (let? _ := r.2 in _); [by constructor|]. unfold drop_temp. no_secret.
Qed.

Lemma agree_with_kubeconfig {A} op op' (body body' : OperatorKube → Cmd A) :
  same_login (Ok op) (Ok op') → (∀ kube, agree eq (body kube) (body' kube)) →
  agree eq (with_kubeconfig L op body) (with_kubeconfig L op' body').
Proof using Hw.
  intros H Hb. eapply agree_scoped; [by apply agree_kubeconfig|]. intros [r|e] ? <-; by split.
Qed.

Lemma agree_as_operator {A} dir (body : Operator → Cmd A) :
  (∀ op op', same_login (Ok op) (Ok op') → agree eq (body op) (body op')) →
  agree eq (as_operator (login L dir) body) (as_operator (login L dir) body).
Proof using Hw.
  intros Hb. eapply agree_scoped; [apply agree_login|]. intros [op|e] [op'|e'] H; try done. split; [apply H|by apply Hb].
Qed.

(** *** The commands *)

Lemma emits_Scope_global : emits plain_answer Scope_global.
Proof. unfold Scope_global, config_dir, plain_answer. emits; done. Qed.
Lemma emits_Scope_for_tenant ns : emits plain_answer (Scope_for_tenant ns).
Proof. unfold Scope_for_tenant. emits. apply emits_Scope_global. Qed.
Lemma emits_extract dir chart : emits plain_answer (extract dir chart).
Proof. unfold extract, plain_answer. emits; done. Qed.
Lemma emits_render template args : emits plain_answer (render template args).
Proof. unfold render, extract_commands_chart. emits; try done; apply emits_extract. Qed.
Lemma emits_write kube manifest : emits plain_answer (write kube manifest).
Proof. unfold write, plain_answer. emits; done. Qed.
Lemma emits_wait_job job verb : emits plain_answer (wait_job L job verb).
Proof. unfold wait_job, job_poll, plain_answer. emits; done. Qed.
Lemma emits_grant ns verbs identity : emits plain_answer (grant_command_writer ns verbs identity).
Proof. unfold grant_command_writer, plain_answer. emits; done. Qed.
Lemma emits_push_local_image image : emits plain_answer (push_local_image image).
Proof. unfold push_local_image, plain_answer. destruct (name_tag image). emits; done. Qed.
Lemma emits_merge_files files merged : emits plain_answer (merge_files L files merged).
Proof. revert merged. induction files as [|f files IH]; intros merged; simpl merge_files; [done|]. unfold plain_answer. emits; [done|apply IH]. Qed.
Lemma emits_TempFile_new suffix content : emits plain_answer (TempFile_new suffix content).
Proof. unfold TempFile_new, drop_temp, plain_answer. emits; try done; apply emits_random_hex. Qed.
Lemma emits_images kind v : emits plain_answer (images_of L kind v).
Proof.
  unfold images_of, push_inference_images, push_toolset_image, push_field, merge_values, pack, plain_answer.
  emits; try done; first [apply emits_merge_files|apply emits_push_local_image|apply emits_TempFile_new].
Qed.
Lemma emits_mint ns : emits plain_answer (mint_channel_authkey ns).
Proof. unfold mint_channel_authkey, plain_answer. emits; done. Qed.

Section op.
Context (op op' : Operator) (Hop : same_login (Ok op) (Ok op')).

Lemma agree_apply kind manifest : agree eq (apply L op kind manifest) (apply L op' kind manifest).
Proof using Hw Hop.
  unfold apply. apply agree_eq; [apply _|apply agree_with_kubeconfig; [done|intros; apply agree_same, emits_write]|].
  intros uid. apply agree_same, emits_wait_job.
Qed.

Lemma agree_reap kind key value tenant : agree eq (reap L op kind key value tenant) (reap L op' kind key value tenant).
Proof using Hw Hop.
  unfold reap. apply agree_eq; [apply _|apply agree_same, emits_render|]. intros manifest.
  apply agree_eq; [apply _|apply agree_with_kubeconfig; [done|intros; apply agree_same, emits_write]|].
  intros uid. apply agree_same, emits_wait_job.
Qed.

Lemma agree_suspend ns keepalive : agree eq (suspend L op ns keepalive) (suspend L op' ns keepalive).
Proof using Hw Hop.
  unfold suspend. apply agree_eq; [apply _|no_secret|]. intros token. apply agree_eq; [apply _|apply agree_same, emits_render|].
  intros manifest. apply agree_with_kubeconfig; [done|]. intros kube. apply agree_same.
  emits; [apply emits_grant|apply emits_write].
Qed.

Lemma agree_provision scope manifest capacity : agree eq (provision L scope op manifest capacity) (provision L scope op' manifest capacity).
Proof using Hw Hop.
  unfold provision. apply agree_eq; [apply _|no_secret|]. intros ns.
  eapply (agree_bind w1 w2 eq); [no_secret|]. intros b ? <-.
  eapply (agree_bind w1 w2 eq); [unfold warn_capacity_unchanged; no_secret|]. intros [] ? _.
  apply agree_eq; [apply _|apply agree_apply|]. intros _. apply agree_with_kubeconfig; [done|].
  intros kube. apply agree_same, emits_grant.
Qed.
End op.

Lemma agree_up kind v : agree eq (up L kind v) (up L kind v).
Proof using Hw.
  unfold up, scoped_opt. apply agree_eq; [apply _|apply agree_same, emits_images|]. intros [overrides o].
  eapply (agree_bind w1 w2 eq); [|intros x ? <-; unfold drop_temp; no_secret]. cbv zeta.
  apply agree_eq; [apply _|apply agree_same, emits_render|]. intros manifest.
  apply agree_eq; [apply _|apply agree_same, emits_Scope_global|]. intros scope. apply agree_as_operator. intros op op' H.
  apply agree_eq; [apply _|apply agree_same; case_match; [apply emits_mint|done]|]. intros _. by apply agree_apply.
Qed.

Lemma agree_down kind name tenant : agree eq (down L kind name tenant) (down L kind name tenant).
Proof using Hw.
  unfold down. apply agree_eq; [apply _|apply agree_same, emits_Scope_global|]. intros scope. apply agree_as_operator.
  intros op op' H. by apply agree_reap.
Qed.

Lemma agree_component kind sub : agree eq (component L kind sub) (component L kind sub).
Proof using Hw. destruct sub; [apply agree_up|apply agree_down]. Qed.

Lemma agree_user_down subject tenant : agree eq (user_down L subject tenant) (user_down L subject tenant).
Proof using Hw.
  unfold user_down. apply agree_eq; [apply _|apply agree_same, emits_Scope_global|]. intros scope. apply agree_as_operator.
  intros op op' H. by apply agree_reap.
Qed.

Lemma agree_up_run v : agree eq (up_run L v) (up_run L v).
Proof using Hw.
  unfold up_run. cbv zeta. apply agree_eq; [apply _|apply agree_same, emits_render|]. intros first.
  apply agree_eq; [apply _|no_secret|]. intros tc. apply agree_eq; [apply _|apply agree_same, emits_Scope_for_tenant|].
  intros scope. apply agree_as_operator. intros op op' H. apply agree_with_kubeconfig; [done|]. intros kube.
  apply agree_eq; [apply _|apply agree_same, emits_render|]. intros manifest. by apply agree_provision.
Qed.

Lemma agree_down_run scope keepalive : agree eq (down_run L scope keepalive) (down_run L scope keepalive).
Proof using Hw.
  unfold down_run. apply agree_eq; [apply _|no_secret|]. intros ns. eapply (agree_bind w1 w2 eq); [no_secret|]. intros b ? <-.
  destruct (negb b); [by constructor|]. apply agree_eq; [apply _|apply agree_as_operator; intros; by apply agree_suspend|].
  intros _. unfold scaled_down. no_secret.
Qed.

Lemma agree_remove_run scope : agree eq (remove_run L scope) (remove_run L scope).
Proof using Hw.
  unfold remove_run. apply agree_eq; [apply _|no_secret|]. intros ns. eapply (agree_bind w1 w2 eq); [no_secret|]. intros b ? <-.
  destruct (negb b); [by constructor|]. apply agree_eq; [apply _|apply agree_as_operator; intros; by apply agree_suspend|].
  intros _. unfold reap_stamped. no_secret.
Qed.

Lemma agree_do_set scope name : agree eq (do_set L scope name) (do_set L scope name).
Proof using Hw.
  unfold do_set. apply agree_eq; [apply _|no_secret|]. intros ns. eapply (agree_bind w1 w2 eq); [no_secret|]. intros b ? <-.
  destruct (is_done b); [by constructor|]. unfold fs_call.
  eapply agree_bind with (R := shaped_out KStdin id).
  { eapply agree_bind; [by apply (agree_source w1 w2 _ _ KStdin (shaped_alike L KStdin))|].
    intros a a' [->|[Ha Ha']]; constructor; [by left|]. destruct (shaped_done _ _ Ha) as [o ->], (shaped_done _ _ Ha') as [o' ->].
    right. by exists o, o'. }
  intros r r' [->|(o & o' & -> & -> & Ho & Ho')]; [destruct r'; no_secret|].
  apply agree_eq.
  - apply _.
  - unfold reject_blank, id. simpl in Ho, Ho'. destruct (str_is_empty (str_trim o)), (str_is_empty (str_trim o')); by constructor.
  - intros _. unfold run_stdin. eapply agree_bind; [by apply agree_call|]. intros a ? <-. by constructor.
Qed.

Lemma agree_secret_run sub : agree eq (secret_run L sub) (secret_run L sub).
Proof using Hw.
  destruct sub; simpl; (apply agree_eq; [apply _|apply agree_same, emits_Scope_for_tenant|]); intros scope;
    [apply agree_do_set|unfold do_list|unfold do_delete, delete_cr]; no_secret.
Qed.

Lemma agree_create_preauthkey ns : agree alike (create_preauthkey L ns) (create_preauthkey L ns).
Proof using Hw.
  unfold create_preauthkey. eapply (agree_bind w1 w2 eq); [no_secret|]. intros r ? <-.
  do 3 (apply agree_eq; [apply _|no_secret|intros ?]).
  eapply (agree_shaped KPreauth _ (λ out, ok_or (key_line out) _)); [by apply agree_secret_output|].
  intros o Ho. simpl in Ho. apply bool_decide_eq_true in Ho as [k Hk]. by rewrite Hk.
Qed.

Lemma agree_connect_run tenant : agree eq (connect_run L tenant) (connect_run L tenant).
Proof using Hw.
  unfold connect_run. cbv zeta. eapply (agree_bind w1 w2 eq); [no_secret|]. intros b ? <-. destruct (negb b); [by constructor|].
  apply agree_eq; [apply _|no_secret|]. intros _. eapply (agree_bind w1 w2 eq); [unfold local_port; no_secret|]. intros port ? <-.
  eapply (agree_bind w1 w2 eq); [no_secret|]. intros b' ? <-.
  apply agree_eq; [apply _|unfold start_port_forward; no_secret|]. intros _. unfold do_tailnet_join.
  apply agree_alike; [apply _|apply agree_create_preauthkey|]. intros k k'. unfold with_temp.
  eapply agree_scoped; [apply agree_TempFile_new|]. intros [f|e] ? <-; [split; [done|]|done]. unfold local_port. no_secret.
Qed.

Lemma agree_tenant_run sub : agree eq (tenant_run L sub) (tenant_run L sub).
Proof using Hw.
  destruct sub; simpl; [apply agree_up_run| | |apply agree_secret_run];
    (apply agree_eq; [apply _|apply agree_same, emits_Scope_for_tenant|]); intros scope;
    [apply agree_down_run|apply agree_remove_run].
Qed.

(** *** Upgrade and setup *)

Lemma agree_for_each {A} (l : list A) (body body' : A → Cmd unit) :
  (∀ a, agree eq (body a) (body' a)) → agree eq (for_each l body) (for_each l body').
Proof.
  intros H. induction l as [|a l IH]; simpl; [by constructor|]. by apply agree_eq; [apply _|apply H|].
Qed.

Lemma emits_reprovision_plan out : emits plain_answer (reprovision_plan out tenant_capacity).
Proof. apply emits_reprovision_lines. intros ns. unfold tenant_capacity, plain_answer. emits. done. Qed.

Lemma emits_upgrade_checks cli_ver : emits plain_answer (upgrade_checks L cli_ver).
Proof.
  unfold upgrade_checks, cluster_checks, kubectl_tenant_namespaces, cluster_app_version. emits; try done.
  - apply emits_all_hold. intros []. unfold policy_ready, plain_answer. emits. done.
  - apply emits_all_hold. intros name. unfold plain_answer. emits. done.
  - apply emits_reprovision_plan.
Qed.

Lemma emits_extract_assets cli_ver scope : emits plain_answer (extract_assets cli_ver scope).
Proof. unfold extract_assets. emits; [apply emits_extract|done]. Qed.

Lemma agree_upgrade_run cli_ver check : agree eq (upgrade_run L cli_ver check) (upgrade_run L cli_ver check).
Proof using Hw.
  unfold upgrade_run. apply agree_eq; [apply _|apply agree_same, emits_Scope_global|]. intros scope.
  apply agree_eq; [apply _|apply agree_same, emits_upgrade_checks|]. intros found.
  destruct (summarize_failures _ _); [by constructor|]. apply agree_eq; [apply _|no_secret|]. intros _.
  destruct check; [by constructor|]. unfold upgrade_apply. apply agree_eq; [apply _|apply agree_same, emits_extract_assets|].
  intros _. apply agree_eq; [apply _|no_secret|]. intros _. destruct (plan_apply found.2) as [|t ts]; [by constructor|].
  apply agree_as_operator. intros op op' H. apply agree_with_kubeconfig; [done|]. intros kube. apply agree_for_each. intros x.
  unfold reprovision, tenant_manifest. apply agree_eq; [apply _|apply agree_same, emits_Scope_for_tenant|]. intros tenant.
  apply agree_eq; [apply _|apply agree_same; emits; apply emits_render|]. intros manifest. by apply agree_provision.
Qed.

Lemma agree_prompt_login : agree same_email prompt_login prompt_login.
Proof using Hw.
  unfold prompt_login. apply agree_eq; [apply _|apply agree_same, emits_prompt_plain; discriminate|]. intros email.
  eapply agree_bind; [apply agree_prompt_exact|]. intros ? ? [-> ->].
  pose proof (password_alike "Operator password") as Ha.
  destruct (password_of "Operator password" w1) as [p|e] eqn:E1, (password_of "Operator password" w2) as [p'|e'] eqn:E2;
    try (by destruct Ha as [|[? ?]]); [|destruct Ha as [[= ->]|[? _]]; [by constructor|done]].
  eapply agree_bind; [apply agree_prompt_exact|]. intros ? ? [-> ->].
  assert (Hlabel : ∀ w v, password_of "Operator password" w = Ok v → password_of "Confirm password" w = Ok v).
  { intros w v. unfold password_of. destruct (nonempty _); [done|]. unfold line_of. destruct (io_error _) as [x|x]; simpl; [|done].
    by destruct (str_is_empty _). }
  rewrite (Hlabel _ _ E1), (Hlabel _ _ E2). constructor. by rewrite !decide_True.
Qed.

Definition same_credentials (r r' : result (option (string * string)) string) : Prop :=
  match r, r' with
  | Ok (Some c), Ok (Some c') => c.1 = c'.1 | Ok None, Ok None => True | Err e, Err e' => e = e' | _, _ => False end.
Instance same_credentials_refl : Reflexive same_credentials.
Proof. intros [[]|]; simpl; auto. Qed.

Lemma agree_same_email_some (p : Cmd (string * string)) : agree same_email p p →
  agree same_credentials (let! l := p in ret_ok (Some l)) (let! l := p in ret_ok (Some l)).
Proof. intros Hp. eapply agree_bind; [exact Hp|]. intros [c|e] [c'|e'] H; simpl in H; try done; by constructor. Qed.

Lemma agree_setup_login scope d g : agree same_credentials (setup_login L scope d g) (setup_login L scope d g).
Proof using Hw.
  unfold setup_login. destruct d; [apply agree_same_email_some, agree_prompt_login|].
  apply agree_eq; [apply _|unfold self_service_enabled, env_path; no_secret|]. intros [|]; [|by constructor].
  apply agree_same_email_some, agree_credentials.
Qed.

Lemma agree_generate_trust dir chart values : agree alike (generate_trust L dir chart values) (generate_trust L dir chart values).
Proof using Hw.
  unfold generate_trust. eapply (agree_bind w1 w2 eq); [no_secret|]. intros [] ? _.
  apply agree_eq; [apply _|no_secret|]. intros _. cbv zeta.
  eapply agree_bind; [by apply (agree_secret_output KTls)|]. intros r r' [->|(o & o' & -> & -> & Ho & Ho')].
  - apply agree_same_alike. destruct r' as [k|e]; [|done]. unfold plain_answer. emits; done.
  - simpl in Ho, Ho'. cbv beta. rewrite Ho, Ho'. simpl negb. cbv iota.
    do 3 (apply agree_eq; [apply _|no_secret|intros ?]). constructor. by right.
Qed.

Lemma agree_upload_tls dir key key' : agree eq (upload_tls L dir key) (upload_tls L dir key').
Proof.
  unfold upload_tls. apply agree_eq; [apply _|no_secret|]. intros crt. unfold run_stdin.
  eapply agree_bind; [by apply agree_call|]. intros a ? <-. by constructor.
Qed.

Lemma agree_ensure_cluster scope : agree eq (ensure_cluster L scope) (ensure_cluster L scope).
Proof using Hw.
  unfold ensure_cluster. eapply (agree_bind w1 w2 eq); [no_secret|]. intros list ? <-. cbv zeta.
  destruct (cluster_exists _ _ _); [no_secret|].
  eapply (agree_bind w1 w2 eq); [unfold extra_values, env_path; no_secret|]. intros values ? <-.
  apply agree_alike; [apply _|apply agree_generate_trust|]. intros key key'.
  eapply (agree_bind w1 w2 eq); [unfold env_path; no_secret|]. intros append ? <-.
  apply agree_eq; [apply _|unfold append_auth_config; no_secret|]. intros _.
  eapply (agree_bind w1 w2 eq); [no_secret|]. intros reg ? <-. apply agree_eq; [apply _|no_secret|]. intros _.
  eapply (agree_bind w1 w2 eq); [unfold env_path; no_secret|]. intros extra ? <-.
  apply agree_eq; [apply _|no_secret|]. intros _. apply agree_eq; [apply _|unfold apply_system_ns; no_secret|]. intros _.
  apply agree_upload_tls.
Qed.

Lemma agree_install_dex chart email password password' :
  agree eq (install_dex L chart email password) (install_dex L chart email password').
Proof using Hw.
  unfold install_dex. eapply (agree_bind w1 w2 eq); [no_secret|]. intros ans ? <-. apply agree_eq; [apply _|no_secret|]. intros _.
  assert (Hend : ∀ hash hash', agree eq (let! id := user_id in run_stdin "helm" ["upgrade"; "--install"; DEX_RELEASE; chart; "-n";
      SYSTEM_NS; "-f"; "-"; "--wait"; "--timeout=5m"] (json_print L (dex_values L email hash id)))
    (let! id := user_id in run_stdin "helm" ["upgrade"; "--install"; DEX_RELEASE; chart; "-n";
      SYSTEM_NS; "-f"; "-"; "--wait"; "--timeout=5m"] (json_print L (dex_values L email hash' id)))).
  { intros hash hash'. apply agree_eq; [apply _|apply agree_same; unfold user_id; emits; apply emits_random_hex|]. intros id.
    unfold run_stdin. eapply agree_bind; [by apply agree_call|]. intros a ? <-. by constructor. }
  eapply agree_bind; [by apply (agree_secret_bytes KHash)|]. intros r r' [->|(o & o' & -> & -> & Ho & Ho')].
  - destruct r' as [line|e]; [|by constructor]. apply agree_eq; [apply _|no_secret|]. intros hash. apply Hend.
  - apply agree_alike; [apply _| |intros hash hash'; apply Hend]. constructor. right.
    simpl in Ho, Ho'. apply bool_decide_eq_true in Ho as [x Hx], Ho' as [x' Hx']. unfold id. by rewrite Hx, Hx'.
Qed.

Lemma agree_install_operator scope install email password password' :
  agree eq (install_operator L scope install email password) (install_operator L scope install email password').
Proof using Hw.
  unfold install_operator. apply agree_eq; [apply _| |].
  - destruct install; [|by constructor]. eapply (agree_bind w1 w2 eq); [unfold dex_tls_present; no_secret|]. intros b ? <-.
    destruct (negb b); [by constructor|]. apply agree_eq; [apply _|apply agree_install_dex|]. intros _. unfold save_email. no_secret.
  - intros _. eapply (agree_scoped eq); [|intros [kube|e] ? <-; [split; [done|]|done]; apply agree_same; emits; apply emits_grant].
    unfold as_operator. eapply agree_scoped; [apply agree_with_password|]. intros [op|e] [op'|e'] H; try done.
    split; [apply H|by apply agree_kubeconfig].
Qed.

Lemma emits_require_tools mac fails ts : emits plain_answer (require_tools mac fails ts).
Proof.
  revert fails. induction ts as [|[[[label [cmd args]] f1] f2] ts IH]; intros fails; [done|].
  apply (emits_bind _ (require_tool mac fails _)); [unfold require_tool, plain_answer; emits; done|]. intros f. by apply IH.
Qed.

Lemma emits_check_prereqs mac arch : emits plain_answer (check_prereqs mac arch).
Proof.
  unfold check_prereqs, check_build_prereqs, cargo_config_has_target, check_vm_disk, plain_answer.
  emits; try done; apply emits_require_tools.
Qed.

Lemma emits_healthz_polls n : emits plain_answer (healthz_polls n).
Proof.
  induction n as [|n IH]; [done|]. unfold healthz_polls; fold healthz_polls. unfold healthz, plain_answer. emits; done.
Qed.

Lemma agree_setup_run cli_ver arch_name mac c k :
  agree eq (setup_run L cli_ver arch_name mac c k) (setup_run L cli_ver arch_name mac c k).
Proof using Hw.
  unfold setup_run. eapply (agree_bind w1 w2 eq); [unfold repo_root, is_repo_checkout; no_secret|]. intros repo ? <-.
  apply agree_eq; [apply _|no_secret|]. intros arch. apply agree_eq; [apply _|apply agree_same, emits_check_prereqs|]. intros _.
  apply agree_eq; [apply _|apply agree_same, emits_Scope_global|]. intros scope.
  eapply (agree_bind w1 w2 eq); [unfold dex_installed; no_secret|]. intros dex ? <-.
  eapply (agree_bind w1 w2 eq); [unfold command_writer_bound; no_secret|]. intros bound ? <-.
  eapply agree_bind; [apply agree_setup_login|]. intros [login|e] [login'|e'] Hl; simpl in Hl; try done;
    [|destruct login; done|subst; by constructor].
  apply agree_eq; [apply _|apply agree_same, emits_extract_assets|]. intros _.
  apply agree_eq; [apply _|apply agree_ensure_cluster|]. intros _.
  apply agree_eq; [apply _|unfold install_gvisor, wait_healthz, temp_dir, docker_cp; no_secret; apply emits_healthz_polls|]. intros _.
  apply agree_eq; [apply _|unfold install_cilium, preload_cilium, temp_dir, env_flag, with_temp, scoped, drop_temp; no_secret;
    apply emits_TempFile_new|]. intros _.
  apply agree_eq; [apply _|unfold patch_coredns_registry; no_secret|]. intros _.
  apply agree_eq; [apply _|unfold install_kyverno, temp_dir, extra_values, env_path; no_secret|]. intros _.
  apply agree_eq; [apply _|unfold build_images, build_and_load, staged_build, stage, docker_build, env_flag, build_toolset, tools_label;
    no_secret|]. intros _.
  apply agree_eq; [apply _| |].
  - destruct login as [[e p]|], login' as [[e' p']|]; try done; [|by constructor]. simpl in Hl. subst e'.
    apply agree_eq; [apply _|apply agree_install_operator|]. intros id. by constructor.
  - intros id. apply agree_same. unfold install_cluster_layer, apply_system_ns, extra_values, env_path, install_objectstore,
      create_instructions_bucket, bucket_poll, plain_answer. emits; done.
Qed.

Lemma agree_dispatch cli_ver arch_name mac c k cmd :
  agree eq (dispatch L cli_ver arch_name mac c k cmd) (dispatch L cli_ver arch_name mac c k cmd).
Proof using Hw.
  destruct cmd as [| | | | | | | |[v|s t]| |]; simpl; try apply agree_component; [apply agree_setup_run|
    |apply agree_upgrade_run|apply agree_tenant_run|apply agree_connect_run|apply agree_up|apply agree_user_down].
  unfold destroy_run. no_secret.
Qed.
End programs.

(** The answers of a run that come from a secret's source are a world's. *)
Definition in_world (w : World) (tr : list Event) : Prop := ∀ e ans k, (e, ans) ∈ tr → source e = Some k → ans = w k.


(** Two passwords, the same suspension. *)
Definition secret_world (pw : string) : World := λ k, match k with KLine => Done pw | KEnv => Refused "not set" | _ => Done EmptyString end.

Definition in_secret_world (pw : string) (ev : Event) : bool :=
  match source ev.1 with
  | Some KLine => match ev.2 with Done o => bool_decide (o = pw) | _ => false end
  | Some KEnv => match ev.2 with Refused o => bool_decide (o = "not set") | _ => false end
  | Some _ => match ev.2 with Done o => bool_decide (o = EmptyString) | _ => false end
  | None => true
  end.

Lemma in_secret_world_spec pw tr : forallb (in_secret_world pw) tr = true → in_world (secret_world pw) tr.
Proof.
  intros H e ans k Hin Hs. rewrite forallb_forall in H. specialize (H (e, ans)). unfold in_secret_world in H. simpl in H.
  rewrite Hs in H. apply list_elem_of_In in Hin. specialize (H Hin).
  destruct k, ans; try done; apply bool_decide_eq_true in H as ->; done.
Qed.

