(* ===== verification/Startup.v ===== *)
(** * Waiting for a watched table, and dialling a peer

    Models [spawn_and_await_ready] of [crates/shared/src/watcher_retry.rs]: the
    watcher runs as a task of its own that is restarted when its body returns,
    and the process waits at most ten seconds for its first full listing; and
    [connect_with_keepalive] of [crates/shared/src/grpc_client.rs] under a
    caller's budget. Time is in milliseconds from the start of the wait. *)

From S2P Require Import Prelude Text ConfigMaps.

(** ** The watcher task *)

(** What becomes of the task: its watch yields an event, the body returns and
    will be run again after the backoff, or it panics, which ends the task and
    drops its end of the ready channel. *)
Inductive TaskEvent : Type :=
| TaskWatch (e : watch_event)
| TaskReturned (outcome : result unit string)
| TaskPanicked.

Definition History : Type := list (N * TaskEvent).

Record Task (T : Type) : Type := mkTask {
  task_watch : watch_state T; task_delay : nat; task_alive : bool }.
Arguments mkTask {T}.
Arguments task_watch {T}.
Arguments task_delay {T}.
Arguments task_alive {T}.

Section ready.
Context {T : Type} (merge : list (string * ConfigMap) → T * list string).

(** The table and the ready flag are shared by all runs of the body. *)
Definition spawn_watcher_task (table : T) : Task T := mkTask (watch_start table false) 1 true.

Definition task_step (s : Task T) (e : TaskEvent) : Task T :=
  if task_alive s then
    match e with
    | TaskWatch e => mkTask (watch_step merge (task_watch s) e) (task_delay s) true
    | TaskReturned o =>
        mkTask (watch_start (w_table (task_watch s)) (w_ready (task_watch s))) (next_delay o (task_delay s)) true
    | TaskPanicked => mkTask (task_watch s) (task_delay s) false
    end
  else s.

(** The task at time [t]. *)
Definition task_at (table : T) (h : History) (t : N) : Task T :=
  foldl task_step (spawn_watcher_task table) (snd <$> filter (λ x, (x.1 ≤ t)%N) h).

Definition READY_TIMEOUT : N := 10000.

(** [timeout(10 s, ready_rx.wait_for(..)).await.is_ok()]: [wait_for] returns when
    the flag is up, and also, with an error that [is_ok] of the outer result
    does not see, when the sender is gone. The answer is the time of it. *)
Fixpoint await_ready (s : Task T) (now : N) (h : History) : option N :=
  if w_ready (task_watch s) || negb (task_alive s) then Some now else
  match h with
  | [] => None
  | (t, e) :: h => if (t <=? READY_TIMEOUT)%N then await_ready (task_step s e) t h else None
  end.

Definition spawn_and_await_ready (subject : string) (table : T) (h : History) : result N string :=
  ok_or (await_ready (spawn_watcher_task table) 0 h)
    (subject +:+ " watcher initial sync did not complete within 10s").
End ready.

(** Histories a clock can show: times do not decrease, and a body that returned
    is not run again before its backoff is over. *)
Fixpoint clocked (now : N) (delay : nat) (h : History) : bool :=
  match h with
  | [] => true
  | (t, e) :: h =>
      (now <=? t)%N &&
      match e with
      | TaskReturned o => clocked (t + 1000 * N.of_nat delay) (next_delay o delay) h
      | _ => clocked t delay h
      end
  end.

Definition panics (h : History) : bool :=
  existsb (λ x, match x.2 with TaskPanicked => true | _ => false end) h.

(** The events of the run of the body that changed the table last, up to that
    change. *)
Fixpoint last_install (run : list watch_event) (installed : option (list watch_event)) (h : list TaskEvent)
  : option (list watch_event) :=
  match h with
  | [] | TaskPanicked :: _ => installed
  | TaskWatch e :: h =>
      last_install (run ++ [e]) (if event_installs e then Some (run ++ [e]) else installed) h
  | TaskReturned _ :: h => last_install [] installed h
  end.

(** ** Dialling *)

(** One attempt to connect: how long it took and what came of it. The endpoint
    caps an attempt at two seconds. *)
Definition CONNECT_TIMEOUT : N := 2000.

Record Attempt (C : Type) : Type := mkAttempt { at_ms : N; at_result : result C string }.
Arguments mkAttempt {C}.
Arguments at_ms {C}.
Arguments at_result {C}.

Definition connect_attempt {C} (addr label : string) (a : Attempt C) : Attempt C :=
  if (CONNECT_TIMEOUT <? at_ms a)%N
  then mkAttempt CONNECT_TIMEOUT (Err ("failed to connect to " +:+ label +:+ " at " +:+ addr +:+ ": timed out"))
  else mkAttempt (at_ms a)
         (map_err (λ e, "failed to connect to " +:+ label +:+ " at " +:+ addr +:+ ": " +:+ e) (at_result a)).

(** [retry_with_backoff] with the clock: attempt [n] is followed by [n] seconds
    of sleep. *)
Fixpoint connect_go {C} (op : nat → Attempt C) (attempt rest : nat) (now : N) : N * result C string :=
  let a := op attempt in
  match at_result a with
  | Ok v => ((now + at_ms a)%N, Ok v)
  | Err e =>
      match rest with
      | O => ((now + at_ms a)%N, Err e)
      | S rest => connect_go op (S attempt) rest (now + at_ms a + 1000 * N.of_nat attempt)
      end
  end.

(** [endpoint] is [Endpoint::from_shared]: an address that is no URI fails every
    attempt at once. *)
Definition connect_with_keepalive {C} (endpoint : string → result unit string) (addr label : string)
    (net : nat → Attempt C) : N * result C string :=
  connect_go (λ n, match endpoint addr with
                   | Err e => mkAttempt 0 (Err ("invalid endpoint " +:+ addr +:+ ": " +:+ e))
                   | Ok _ => connect_attempt addr label (net n)
                   end) 1 9 0.

(** [tokio::time::timeout]: the answer and when it comes. *)
Definition timeout {A} (budget : N) (r : N * A) : N * option A :=
  if (r.1 <=? budget)%N then (r.1, Some r.2) else (budget, None).

(** ** Lemmas *)

Section ready_lemmas.
Context {T : Type} (merge : list (string * ConfigMap) → T * list string).

Lemma await_ready_cons (s : Task T) now t e h :
  w_ready (task_watch s) = false → task_alive s = true →
  await_ready merge s now ((t, e) :: h)
  = if (t <=? READY_TIMEOUT)%N then await_ready merge (task_step merge s e) t h else None.
Proof. intros Hr Ha. simpl. by rewrite Hr, Ha. Qed.

(** What holds of the task as long as it is not ready: nothing is lost of the
    run under way. *)
Definition fresh_task (es : list watch_event) (s : Task T) : Prop :=
  task_alive s = true ∧ w_ready (task_watch s) = false ∧
  (∀ k, bt_get k (w_scratch (task_watch s)) = listed k (reverse es)).

Lemma fresh_spawn table : fresh_task [] (spawn_watcher_task table).
Proof. by split_and!. Qed.

Lemma fresh_step es s e :
  fresh_task es s → e ≠ TaskPanicked →
  match e with
  | TaskWatch EvInitDone => w_ready (task_watch (task_step merge s e)) = true
  | TaskWatch w => fresh_task (es ++ [w]) (task_step merge s e)
  | _ => fresh_task [] (task_step merge s e)
  end.
Proof.
  intros (Ha & Hr & Hs) He. unfold task_step, fresh_task. rewrite Ha.
  destruct e as [[|cm| |cm|cm]|o|]; simpl; try done; split_and!; try done; intros k; rewrite ?reverse_snoc; simpl.
  all: rewrite ?bt_get_insert; by rewrite ?Hs.
Qed.

Definition not_done (x : N * TaskEvent) : bool :=
  match x.2 with TaskWatch EvInitDone | TaskPanicked => false | _ => true end.

(** The wait ends well exactly with the first finished listing, if that comes
    in time; then the table is the merge of what was listed. *)
Lemma await_ready_fresh s es now h t :
  fresh_task es s → panics h = false →
  await_ready merge s now h = Some t ↔
  ∃ pre rest, h = pre ++ (t, TaskWatch EvInitDone) :: rest ∧ forallb not_done pre = true ∧
    Forall (λ x, (x.1 ≤ READY_TIMEOUT)%N) pre ∧ (t ≤ READY_TIMEOUT)%N.
Proof.
  revert s es now. induction h as [|[t' e] h IH]; intros s es now Hf Hp.
  { simpl. destruct Hf as (-> & -> & _). simpl. split; [done|]. intros ([|? ?] & rest & [=] & _). }
  pose proof Hf as (Ha & Hr & _). rewrite await_ready_cons by done.
  simpl in Hp. apply orb_false_iff in Hp as [He Hp].
  assert (e ≠ TaskPanicked) as Hne by by intros ->.
  pose proof (fresh_step es s e Hf Hne) as Hstep.
  destruct (N.leb_spec t' READY_TIMEOUT) as [Ht|Ht]; last first.
  { split; [done|]. intros ([|x pre] & rest & E & _ & Hpre & Hle); simplify_eq/=; [lia|].
    apply Forall_cons in Hpre as [Hx _]. simpl in Hx. lia. }
  destruct (not_done (t', e)) eqn:En.
  - assert (∃ es', fresh_task es' (task_step merge s e)) as [es' Hf'].
    { destruct e as [[]|o|]; try done; eauto. }
    rewrite (IH _ _ _ Hf' Hp). split.
    + intros (pre & rest & -> & Hd & Hpre & Hle). exists ((t', e) :: pre), rest. cbn [forallb].
      rewrite En, Hd. split_and!; try done. by constructor.
    + intros ([|x pre] & rest & E & Hd & Hpre & Hle); simplify_eq/=. apply andb_true_iff in Hd as [_ Hd].
      apply Forall_cons in Hpre as [_ Hpre]. by exists pre, rest.
  - destruct e as [[| | | |]|o|]; try done. destruct h as [|x h]; simpl; rewrite Hstep; simpl.
    all: split; [intros [= <-]|intros ([|y pre] & rest & E & Hd & _); simplify_eq/=; try done; by rewrite En in Hd].
    + exists [], []. by split_and!.
    + by exists [], (x :: h).
Qed.

(** The table is what the last change to it says, whichever run of the body
    made it: the listing that run finished, with its later changes. *)
Definition table_from (t0 table : T) (installed : option (list watch_event)) : Prop :=
  match installed with
  | None => table = t0
  | Some es => ∃ cms, table = (merge cms).1 ∧ ∀ k, bt_get k cms = live k (reverse es)
  end.

Lemma task_table_go t0 h : ∀ run installed s t1 r1,
  task_alive s = true → task_watch s = watch_run merge (watch_start t1 r1) run →
  table_from t0 (w_table (task_watch s)) installed →
  table_from t0 (w_table (task_watch (foldl (task_step merge) s h))) (last_install run installed h).
Proof.
  induction h as [|e h IH]; intros run installed s t1 r1 Ha Hw Ht; [done|]. cbn [foldl].
  unfold task_step at 2. rewrite Ha. destruct e as [e|o|]; cbn [last_install].
  - apply (IH _ _ _ t1 r1); simpl; [done|by rewrite Hw, watch_run_snoc|]. rewrite Hw, <- watch_run_snoc.
    destruct (event_installs e) eqn:Ei.
    + eexists. split; [|intros k; apply (watch_sets merge t1 r1 (run ++ [e]) k)].
      rewrite watch_table, existsb_app. simpl. by rewrite Ei, orb_true_r.
    + rewrite Hw in Ht. rewrite watch_run_snoc. by destruct e.
  - by eapply (IH [] installed).
  - replace (foldl _ _ h) with (mkTask (task_watch s) (task_delay s) false); [done|].
    clear. induction h as [|e h IH]; [done|]. by rewrite IH at 1.
Qed.

Lemma task_table table h t :
  table_from table (w_table (task_watch (task_at merge table h t)))
    (last_install [] None (snd <$> filter (λ x, (x.1 ≤ t)%N) h)).
Proof. by apply (task_table_go table _ [] None _ table false). Qed.

Lemma last_install_ready run installed h :
  TaskWatch EvInitDone ∈ h → TaskPanicked ∉ h → is_Some (last_install run installed h).
Proof.
  assert (∀ h run es, is_Some (last_install run (Some es) h)) as Hsome.
  { clear. induction h as [|[e|o|] h IH]; intros run es; simpl; eauto. destruct (event_installs e); apply IH. }
  revert run installed. induction h as [|e h IH]; intros run installed; [by intros ?%elem_of_nil|].
  intros [<-|Hin]%elem_of_cons [Hne Hp]%not_elem_of_cons; [apply Hsome|].
  destruct e as [e|o|]; simpl; [|by apply IH|done]. destruct (event_installs e); [apply Hsome|by apply IH].
Qed.
End ready_lemmas.

(** ** How often a failing watch is tried *)

Definition returned_in_time (x : N * TaskEvent) : bool :=
  match x.2 with TaskReturned _ => (x.1 <=? READY_TIMEOUT)%N | _ => false end.

Definition returns (h : History) : nat := length (List.filter returned_in_time h).

(** At most [n] returns can be seen in time from [now] on. *)
Definition returns_bound (now : N) (delay n : nat) : Prop :=
  ∀ h now', (now ≤ now')%N → clocked now' delay h = true → returns h ≤ n.

Lemma returns_late now delay : (READY_TIMEOUT < now)%N → returns_bound now delay 0.
Proof.
  intros Hn h. revert delay. induction h as [|[t e] h IH]; intros delay now' Hle Hc; [done|].
  simpl in Hc. apply andb_true_iff in Hc as [Ht%N.leb_le Hc]. unfold returns. simpl.
  assert (returned_in_time (t, e) = false) as ->.
  { unfold returned_in_time. destruct e; try done. apply N.leb_gt. simpl. lia. }
  destruct e; (eapply IH; [|exact Hc]); lia.
Qed.

Lemma returns_step now delay n :
  returns_bound (now + 1000 * N.of_nat delay) (Nat.min (delay * 2) max_delay) n → returns_bound now delay (S n).
Proof.
  intros Hb h. induction h as [|[t e] h IH]; intros now' Hle Hc; [unfold returns; simpl; lia|].
  simpl in Hc. apply andb_true_iff in Hc as [Ht%N.leb_le Hc]. unfold returns.
  destruct e as [e|o|]; simpl.
  - apply (IH t); [lia|done].
  - replace (next_delay o delay) with (Nat.min (delay * 2) max_delay) in Hc by by destruct o.
    pose proof (Hb h (t + 1000 * N.of_nat delay)%N ltac:(lia) Hc) as Hh. unfold returns in Hh.
    destruct (returned_in_time _); simpl; lia.
  - apply (IH t); [lia|done].
Qed.

(** A watch that keeps failing is run at most four times before the wait is
    over: the backoff of one, two and four seconds uses up its ten. *)
Theorem few_runs_in_time h : clocked 0 1 h = true → returns h ≤ 4.
Proof. intros Hc. apply (returns_step 0 1 3) with 0%N; [|lia|done]. do 3 apply returns_step. by apply returns_late. Qed.
