(* ===== verification/RelayBoot.v ===== *)
(** * The relay process

    Models [crates/relay-controller/src/main.rs] (configuration, the two tables
    that must be listed before anything is served, the listeners),
    [class_layer] of [listener.rs], the client pool of [harness_client.rs] and
    the Events of [identity_watcher.rs]. What a listener hands a request to is
    [Gateway] and [Internal]. *)

From S2P Require Import Prelude Text Auth ConfigMaps Identity Toolset GatewayState Gateway Internal Startup.

(** ** Rejected identities *)

Definition REPORTING_CONTROLLER : string := "relay-controller".

(** An object reference: name and namespace; the ConfigMaps of this model carry
    no namespace of their own, so [cm_namespace] gives it. *)
Record ObjectRef : Type := mkObjectRef { ref_name : option string; ref_namespace : option string }.

Record WarningEvent : Type := mkWarning {
  ev_controller : string; ev_reason : string; ev_action : string; ev_note : string; ev_regarding : ObjectRef }.

Section events.
Context (cm_namespace : ConfigMap → option string) (namespace : string).

Definition regarding (cms : list ConfigMap) (err : RowError) : option ConfigMap :=
  match list_find (λ cm, cm_name cm = Some (re_key err)) cms with
  | Some (_, cm) => Some cm
  | None => head cms
  end.

Definition event_reference (cms : list ConfigMap) (err : RowError) : ObjectRef :=
  let reference := default (mkObjectRef None None)
    ((λ cm, mkObjectRef (cm_name cm) (cm_namespace cm)) <$> regarding cms err) in
  match ref_namespace reference with
  | None => mkObjectRef (ref_name reference) (Some namespace)
  | Some _ => reference
  end.

Definition row_event (cms : list ConfigMap) (err : RowError) : WarningEvent :=
  mkWarning REPORTING_CONTROLLER "InvalidIdentityRow" ("ValidateRow:" +:+ re_key err)
    ("identity row " +:+ dq +:+ re_key err +:+ dq +:+ " rejected and treated as absent: " +:+ re_reason err)
    (event_reference cms err).

(** [publish n] is the API server's answer to the [n]th Event. *)
Fixpoint publish_each (publish : nat → result unit string) (n : nat) (cms : list ConfigMap)
    (errors : list RowError) : list WarningEvent * result unit string :=
  match errors with
  | [] => ([], Ok tt)
  | err :: errors =>
      match publish n with
      | Err e => ([], Err ("publishing Warning Event for row " +:+ re_key err +:+ ": " +:+ e))
      | Ok _ => let '(sent, r) := publish_each publish (S n) cms errors in (row_event cms err :: sent, r)
      end
  end.

Definition publish_row_errors (publish : nat → result unit string) (cms : list ConfigMap)
    (errors : list RowError) : list WarningEvent * result unit string :=
  if decide (errors = []) then ([], Ok tt) else publish_each publish 0 cms errors.
End events.

(** The merge of [watch_identities]; its rejected rows go to
    [publish_row_errors] in a task of their own. *)
Definition identity_merge (current : list (string * ConfigMap)) : IdentityTable * list string :=
  let '(parsed, errors) := apply_delivery current.*2 in
  (parsed, (λ e, re_key e +:+ ": " +:+ re_reason e) <$> errors).

(** ** Listeners *)

Definition DEFAULT_INTERNAL_GRPC_PORT : N := 9090.
Definition DEFAULT_PERSON_GRPC_PORT : N := 9091.
Definition DEFAULT_CHANNEL_GRPC_PORT : N := 9092.

Inductive ListenerAuth : Type := Harness | Class (class : ListenerClass).

(** Each is bound to the unspecified address. *)
Definition listeners : list (N * ListenerAuth) :=
  [(DEFAULT_INTERNAL_GRPC_PORT, Harness);
   (DEFAULT_PERSON_GRPC_PORT, Class PersonToken);
   (DEFAULT_CHANNEL_GRPC_PORT, Class ChannelToken)].

Definition Verifier : Type := string → result string Status.

(** The relay's own services; a server has those it was given and no other. *)
Inductive RelayService : Type :=
| RelayGatewayServer
| RelayInternalServer (verifier : option Verifier)
| HealthServer
| ReflectionServer.

(** A server: its port, the layer around it, its services. *)
Record RelayServer : Type := mkServer {
  srv_port : N; srv_layer : option ListenerClass; srv_services : list RelayService }.

Definition build_internal_verifier (kube_client : option KubeApi) : option Verifier :=
  (λ c, verify_token c HARNESS_RELAY_AUDIENCE) <$> kube_client.

Definition external_routes : list RelayService := [RelayGatewayServer].

Definition build_server (kube_client : KubeApi) (l : N * ListenerAuth) : RelayServer :=
  match l.2 with
  | Harness =>
      mkServer l.1 None
        [ReflectionServer; HealthServer; RelayInternalServer (build_internal_verifier (Some kube_client))]
  | Class class => mkServer l.1 (Some class) external_routes
  end.

(** [class_layer]: the class is put among the request's extensions, over
    whatever is there. *)
Definition class_layer (class : ListenerClass) (req : Req) : Req := mkReq (Some class) (rq_authorization req).

(** What a request to a port reaches: the service's handler sees the request as
    the layer leaves it. A request comes off the wire without extensions. *)
Definition serves_gateway (s : RelayServer) : bool :=
  existsb (λ x, match x with RelayGatewayServer => true | _ => false end) (srv_services s).

Definition gateway_request (servers : list RelayServer) (port : N) (authorization : option (option string))
  : option Req :=
  '(_, s) ← list_find (λ s, srv_port s = port) servers;
  if serves_gateway s then
    let req := mkReq None authorization in
    Some (match srv_layer s with Some class => class_layer class req | None => req end)
  else None.

Definition internal_verifier_of (s : RelayServer) : option (option Verifier) :=
  head (omap (λ x, match x with RelayInternalServer v => Some v | _ => None end) (srv_services s)).

Definition internal_request (servers : list RelayServer) (port : N) : option (option Verifier) :=
  '(_, s) ← list_find (λ s, srv_port s = port) servers; internal_verifier_of s.

(** ** The process *)

Section main.
(** The YAML parser of the grants, as in [Identity]. *)
Context {Y : Type} (yaml_is_string : Y → bool) (raw_granted : Y → result (string * list string) string)
  (yaml_bindings : string → result (list (string * list Y)) string).

Definition grants_merge (current : list (string * ConfigMap))
  : gmap string (list (string * list string)) * list string :=
  CapabilityGrants_merge yaml_is_string raw_granted yaml_bindings current.*2.

(** [str::parse::<u64>]. *)
Definition parse_u64 : string → option N := parse_below 18446744073709551616.

Definition set_heartbeat_interval (secs : N) (g : GatewayState) : GatewayState :=
  mkGateway (gs_streams g) (gs_last_turn_state g) (gs_senders g) (gs_identity g) (gs_conversation_owners g)
    (gs_dispatched_calls g) (gs_capabilities g) (gs_namespace g) (gs_idp g) (gs_pending g) (gs_outcomes g)
    (gs_next_oneshot g) secs.

Definition relay_state (env : string → option string) : GatewayState :=
  let namespace := default "default" (env "RELAY_NAMESPACE") in
  let idp_issuer := default "" (env "IDP_ISSUER") in
  let idp_audience := default "" (env "IDP_AUDIENCE") in
  let idp_certificate_authority := default "" (env "IDP_CERTIFICATE_AUTHORITY") in
  let heartbeat_interval_secs := default 15%N (env "HEARTBEAT_INTERVAL_SECS" ≫= parse_u64) in
  set_heartbeat_interval heartbeat_interval_secs
    (gateway_new namespace (idp_issuer, idp_audience, idp_certificate_authority)).

(** The tables as their tasks have them at [t], where the second task was
    spawned at [t1]. *)
Definition synced_state (g : GatewayState) (grants identities : History) (t1 t : N) : GatewayState :=
  set_identity (w_table (task_watch (task_at identity_merge (gs_identity g) identities (t - t1))))
    (set_capabilities (w_table (task_watch (task_at grants_merge (gs_capabilities g) grants t))) g).

(** [main]: the state at the moment the servers start, and the servers. The
    histories are those of the two watcher tasks, each from its spawn. *)
Definition relay_main (env : string → option string) (try_init_kube_client : result KubeApi string)
    (grants identities : History) : result (GatewayState * list RelayServer) string :=
  let? kube_client := try_init_kube_client in
  let g := relay_state env in
  let? t1 := spawn_and_await_ready grants_merge "toolset-grants" (gs_capabilities g) grants in
  let? t2 := spawn_and_await_ready identity_merge "identity" (gs_identity g) identities in
  Ok (synced_state g grants identities t1 (t1 + t2), build_server kube_client <$> listeners).
End main.

(** ** The client pool *)

Definition DIAL_BUDGET : N := 3000.

(** A client is known by the address it was dialled at and its connection. *)
Record HarnessClient : Type := mkClient { hcl_addr : string; hcl_channel : nat }.

Record HarnessClientPool : Type := mkPool {
  pool_clients : gmap string HarnessClient; pool_template : string }.

Definition from_service_template (template : string) : HarnessClientPool := mkPool ∅ template.

Definition HarnessClientPool_new (namespace : string) : HarnessClientPool :=
  from_service_template
    ("http://" +:+ WORKSPACE_PREFIX +:+ "{workspace}." +:+ namespace +:+ ".svc.cluster.local:9091").

Definition addr_for (p : HarnessClientPool) (workspace : string) : string :=
  str_replace "{workspace}" workspace (pool_template p).

(** [get], cut where it awaits: at the read lock, the dial and the write
    lock. *)
Inductive GetPhase : Type :=
| GetStart
| GetDialing
| GetDialed (client : HarnessClient)
| GetDone (r : result HarnessClient string).

(** [net] answers the attempts of the dial. *)
Definition get_step (endpoint : string → result unit string) (net : nat → Attempt nat) (workspace : string)
    (p : HarnessClientPool) (ph : GetPhase) : HarnessClientPool * GetPhase :=
  match ph with
  | GetStart =>
      match pool_clients p !! workspace with
      | Some c => (p, GetDone (Ok c))
      | None => (p, GetDialing)
      end
  | GetDialing =>
      let addr := addr_for p workspace in
      match (timeout DIAL_BUDGET (connect_with_keepalive endpoint addr "harness" net)).2 with
      | Some (Ok channel) => (p, GetDialed (mkClient addr channel))
      | Some (Err e) => (p, GetDone (Err e))
      | None => (p, GetDone (Err ("timed out dialing harness at " +:+ addr +:+ " within the dial budget")))
      end
  | GetDialed client =>
      match pool_clients p !! workspace with
      | Some existing => (p, GetDone (Ok existing))
      | None => (mkPool (<[workspace := client]> (pool_clients p)) (pool_template p), GetDone (Ok client))
      end
  | GetDone r => (p, GetDone r)
  end.

(** The pool and the calls of [get] under way, each with its workspace; any of
    them may move next. *)
Inductive pool_step (endpoint : string → result unit string)
  : HarnessClientPool * list (string * GetPhase) → HarnessClientPool * list (string * GetPhase) → Prop :=
| PoolCall p gets workspace : pool_step endpoint (p, gets) (p, gets ++ [(workspace, GetStart)])
| PoolMove p gets1 workspace ph gets2 net :
    pool_step endpoint (p, gets1 ++ (workspace, ph) :: gets2)
      (let '(p', ph') := get_step endpoint net workspace p ph in (p', gets1 ++ (workspace, ph') :: gets2)).

(** ** Lemmas *)

Lemma ready_by_listing {T} (merge : list (string * ConfigMap) → T * list string) subject table h t :
  panics h = false → spawn_and_await_ready merge subject table h = Ok t →
  (t ≤ READY_TIMEOUT)%N ∧ (t, TaskWatch EvInitDone) ∈ h.
Proof.
  intros Hp Hr. unfold spawn_and_await_ready in Hr. apply ok_or_Ok in Hr.
  apply (await_ready_fresh merge _ [] _ _ _ (fresh_spawn table) Hp) in Hr as (pre & rest & -> & _ & _ & Ht).
  split; [done|]. apply elem_of_app. right. by left.
Qed.

(** A table whose wait ended well was listed, and shows what was listed and has
    changed since. *)
Lemma listed_table {T} (merge : list (string * ConfigMap) → T * list string) subject table h t t' :
  panics h = false → spawn_and_await_ready merge subject table h = Ok t → (t ≤ t')%N →
  ∃ es cms, last_install [] None (snd <$> filter (λ x, (x.1 ≤ t')%N) h) = Some es ∧
    w_table (task_watch (task_at merge table h t')) = (merge cms).1 ∧
    ∀ k, bt_get k cms = live k (reverse es).
Proof.
  intros Hp Hr Hle. destruct (ready_by_listing _ _ _ _ _ Hp Hr) as [Ht Hin].
  destruct (last_install_ready [] None (snd <$> filter (λ x, (x.1 ≤ t')%N) h)) as [es Hes].
  - apply list_elem_of_fmap. exists (t, TaskWatch EvInitDone). split; [done|]. by apply list_elem_of_filter.
  - intros ([t1 e] & He & [_ Hx]%list_elem_of_filter)%list_elem_of_fmap. simpl in He. subst e.
    enough (panics h = true) by congruence. apply existsb_exists. exists (t1, TaskPanicked). split; [|done].
    by apply list_elem_of_In.
  - pose proof (task_table merge table h t') as Htab. rewrite Hes in Htab. destruct Htab as (cms & ? & ?).
    by exists es, cms.
Qed.

Lemma gateway_request_inv client port authorization req :
  gateway_request (build_server client <$> listeners) port authorization = Some req →
  (port = DEFAULT_PERSON_GRPC_PORT ∧ req = mkReq (Some PersonToken) authorization) ∨
  (port = DEFAULT_CHANNEL_GRPC_PORT ∧ req = mkReq (Some ChannelToken) authorization).
Proof.
  unfold gateway_request, listeners. csimpl. unfold list_find. simpl.
  repeat case_decide; simplify_option_eq; subst; auto; by intros [= <-]; auto.
Qed.

Lemma internal_request_inv client port v :
  internal_request (build_server client <$> listeners) port = Some v →
  port = DEFAULT_INTERNAL_GRPC_PORT ∧ v = Some (verify_token client HARNESS_RELAY_AUDIENCE).
Proof.
  unfold internal_request, listeners. csimpl. unfold list_find. simpl.
  repeat case_decide; simplify_option_eq; subst; intros [= <-]; auto.
Qed.

Lemma authenticate_class kube namespace class authorization caller :
  authenticate kube namespace (mkReq (Some class) authorization) = Ok caller →
  match class with
  | PersonToken => ∃ subject, caller = CallerPerson subject
  | ChannelToken => ∃ channel, caller = CallerChannel channel
  end.
Proof.
  unfold authenticate. intros (c & [= <-] & (token & _ & (client & _ & H)%rbind_Ok)%rbind_Ok)%rbind_Ok.
  destruct class.
  - apply rbind_Ok in H as (s & _ & [= <-]). by exists s.
  - apply rbind_Ok in H as (u & _ & (ch & _ & [= <-])%rbind_Ok). by exists ch.
Qed.

(** What a table shows at [t] is a listing its watcher finished, with the
    changes since. *)
Definition shows {T} (merge : list (string * ConfigMap) → T * list string) (h : History) (t : N) (table : T) : Prop :=
  ∃ es cms, last_install [] None (snd <$> filter (λ x, (x.1 ≤ t)%N) h) = Some es ∧
    table = (merge cms).1 ∧ ∀ k, bt_get k cms = live k (reverse es).

Section theorems.
Context {Y : Type} (yaml_is_string : Y → bool) (raw_granted : Y → result (string * list string) string)
  (yaml_bindings : string → result (list (string * list Y)) string).
Notation grants_merge := (grants_merge yaml_is_string raw_granted yaml_bindings).
Notation relay_main := (relay_main yaml_is_string raw_granted yaml_bindings).

(** C20. The relay serves nothing before it knows who may do what: if it comes to
    serve and neither watcher crashed, the grants and then the identities were
    listed in full, each within ten seconds, and its tables are those listings
    with the changes since. Then each port takes one kind of credential: a
    request to the gateway is authenticated as a person on the person port and
    as a channel on the channel port, and the service for harnesses is on the
    internal port alone and takes only tokens for the harness audience. *)
Theorem relay_serves_closed env kube grants identities g servers :
  relay_main env kube grants identities = Ok (g, servers) →
  panics grants = false → panics identities = false →
  (∃ t1 t2, (t1 ≤ READY_TIMEOUT)%N ∧ (t2 ≤ READY_TIMEOUT)%N ∧
     (t1, TaskWatch EvInitDone) ∈ grants ∧ (t2, TaskWatch EvInitDone) ∈ identities ∧
     shows grants_merge grants (t1 + t2) (gs_capabilities g) ∧
     shows identity_merge identities t2 (gs_identity g)) ∧
  (∀ port authorization req, gateway_request servers port authorization = Some req →
     ∀ api caller, authenticate api (gs_namespace g) req = Ok caller →
       (port = DEFAULT_PERSON_GRPC_PORT ∧ ∃ subject, caller = CallerPerson subject) ∨
       (port = DEFAULT_CHANNEL_GRPC_PORT ∧ ∃ channel, caller = CallerChannel channel)) ∧
  (∀ port v, internal_request servers port = Some v →
     port = DEFAULT_INTERNAL_GRPC_PORT ∧
     ∃ client, kube = Ok client ∧ v = Some (verify_token client HARNESS_RELAY_AUDIENCE)).
Proof.
  intros Hm Hpg Hpi. unfold relay_main in Hm.
  apply rbind_Ok in Hm as (client & -> & (t1 & H1 & (t2 & H2 & [= <- <-])%rbind_Ok)%rbind_Ok). split_and!.
  - destruct (ready_by_listing _ _ _ _ _ Hpg H1) as [Ht1 Hin1]. destruct (ready_by_listing _ _ _ _ _ Hpi H2) as [Ht2 Hin2].
    exists t1, t2. split_and!; try done.
    + apply (listed_table _ _ _ _ _ _ Hpg H1). lia.
    + change (gs_identity (synced_state _ _ _ _ _ _ _ _)) with
        (w_table (task_watch (task_at identity_merge (gs_identity (relay_state env)) identities (t1 + t2 - t1)))).
      replace (t1 + t2 - t1)%N with t2 by lia. by apply (listed_table _ _ _ _ _ _ Hpi H2).
  - intros port authorization req [[-> ->]|[-> ->]]%gateway_request_inv api caller Ha; apply authenticate_class in Ha; auto.
  - intros port v [-> ->]%internal_request_inv. split; [done|]. by exists client.
Qed.

(** A watcher that crashes counts as synced: its end of the ready channel is
    dropped, the wait returns an error of its own within the timeout, and the
    relay serves with the table empty. *)
Theorem crashed_watcher_serves_empty env client grants t1 :
  spawn_and_await_ready grants_merge "toolset-grants" ∅ grants = Ok t1 →
  ∃ g servers, relay_main env (Ok client) grants [(0%N, TaskPanicked)] = Ok (g, servers) ∧
    gs_identity g = empty_identity ∧ servers = build_server client <$> listeners.
Proof.
  intros H1. unfold relay_main. cbn [rbind]. change (gs_capabilities (relay_state env)) with
    (∅ : gmap string (list (string * list string))). rewrite H1. cbn [rbind].
  eexists _, _. split; [reflexivity|]. split; [|done]. unfold synced_state. by replace (t1 + 0 - t1)%N with 0%N by lia.
Qed.
End theorems.

(** *** Events *)

(** The Events of a delivery are those of its first rejected rows, all of them
    unless the API server refuses one, in order; each regards the rejected
    ConfigMap if the delivery has it. *)
Theorem row_events_name_their_configmap cm_namespace namespace publish cms errors sent r :
  publish_row_errors cm_namespace namespace publish cms errors = (sent, r) →
  (∃ n, sent = row_event cm_namespace namespace cms <$> take n errors ∧ (is_ok r = true → sent = row_event cm_namespace namespace cms <$> errors)) ∧
  ∀ err cm, err ∈ errors → cm ∈ cms → cm_name cm = Some (re_key err) →
    ref_name (ev_regarding (row_event cm_namespace namespace cms err)) = Some (re_key err).
Proof.
  intros Hp. split.
  - assert (∀ n errors sent r, publish_each cm_namespace namespace publish n cms errors = (sent, r) →
              ∃ k, sent = row_event cm_namespace namespace cms <$> take k errors ∧
                (is_ok r = true → sent = row_event cm_namespace namespace cms <$> errors)) as Heach.
    { clear. intros n errors. revert n. induction errors as [|err errors IH]; intros n sent r; simpl.
      { intros [= <- <-]. by exists 0. }
      destruct (publish n); [|intros [= <- <-]; by exists 0].
      destruct (publish_each _ _ _ _ _ _) as [sent' r'] eqn:E. intros [= <- <-].
      destruct (IH _ _ _ E) as (k & -> & Hk). exists (S k). split; [done|]. intros Hr. simpl. f_equal. by apply Hk. }
    unfold publish_row_errors in Hp. case_decide; [|by eapply Heach]. subst. injection Hp as <- <-. by exists 0.
  - intros err cm _ Hin Hn. simpl. unfold event_reference, regarding.
    destruct (list_find _ cms) as [[i c]|] eqn:E.
    + apply list_find_Some in E as (_ & Hc & _). simpl. by destruct (cm_namespace c).
    + apply list_find_None in E. rewrite Forall_forall in E. by destruct (E cm Hin).
Qed.

(** *** The pool *)

Definition pool_reach (endpoint : string → result unit string) (namespace : string)
    (p : HarnessClientPool) (gets : list (string * GetPhase)) : Prop :=
  rtc (pool_step endpoint) (HarnessClientPool_new namespace, []) (p, gets).

(** Where a call of [get] stands is true to the pool. *)
Definition get_ok (p : HarnessClientPool) (x : string * GetPhase) : Prop :=
  match x.2 with
  | GetDialed c => hcl_addr c = addr_for p x.1
  | GetDone (Ok c) => pool_clients p !! x.1 = Some c
  | _ => True
  end.

Definition pool_ok (namespace : string) (s : HarnessClientPool * list (string * GetPhase)) : Prop :=
  pool_template s.1 = pool_template (HarnessClientPool_new namespace) ∧
  (∀ w c, pool_clients s.1 !! w = Some c → hcl_addr c = addr_for s.1 w) ∧ Forall (get_ok s.1) s.2.

Lemma get_step_ok endpoint net namespace w p ph p' ph' gets :
  get_step endpoint net w p ph = (p', ph') → pool_ok namespace (p, gets) → get_ok p (w, ph) →
  pool_ok namespace (p', gets) ∧ get_ok p' (w, ph').
Proof.
  intros Hs (Ht & Hc & Hg) Hph. destruct ph as [| |c|r]; simpl in Hs.
  - destruct (pool_clients p !! w) eqn:E; simplify_eq; split; done.
  - repeat case_match; simplify_eq; split; done.
  - destruct (pool_clients p !! w) as [c'|] eqn:E; simplify_eq; [split; done|]. split; [|apply lookup_insert_eq].
    split_and!; [done| |]; simpl.
    + intros w' c'. unfold addr_for. simpl. intros [[<- <-]|[_ H]]%lookup_insert_Some; [done|by apply Hc].
    + eapply Forall_impl; [done|]. intros [w' [| |c'|[c'|e]]]; unfold get_ok; simpl; try done.
      intros Hw. rewrite lookup_insert_ne; [done|]. intros ->. congruence.
  - simplify_eq. done.
Qed.

Lemma pool_reach_ok endpoint namespace p gets : pool_reach endpoint namespace p gets → pool_ok namespace (p, gets).
Proof.
  unfold pool_reach. generalize (p, gets). apply rtc_ind_r; [by split_and!|]. intros s1 s2 _ Hs IH.
  destruct Hs as [q gs w|q gs1 w ph gs2 net].
  - destruct IH as (? & ? & ?). split_and!; try done. apply Forall_app. split; [done|]. by constructor.
  - destruct (get_step endpoint net w q ph) as [q' ph'] eqn:E. destruct IH as (Ht & Hc & Hg).
    apply Forall_app in Hg as [Hg1 [Hw Hg2]%Forall_cons].
    destruct (get_step_ok _ _ namespace _ _ _ _ _ (gs1 ++ gs2) E) as [(? & ? & Hg') ?]; [|done|].
    { split_and!; try done. by apply Forall_app. }
    apply Forall_app in Hg' as []. split_and!; try done. apply Forall_app. split; [done|]. by constructor.
Qed.

Lemma replace_go_ahead c pat rep pre s :
  c ∉ pre → replace_go (c :: pat) rep 0 (pre ++ s) = pre ++ replace_go (c :: pat) rep 0 s.
Proof.
  intros Hc. induction pre as [|x pre IH]; [done|]. apply not_elem_of_cons in Hc as [Hx Hc].
  simpl. rewrite (bool_decide_eq_false_2 _ Hx). simpl. f_equal. by apply IH.
Qed.

Definition service_addr (namespace workspace : string) : string :=
  "http://ws-" +:+ workspace +:+ "." +:+ namespace +:+ ".svc.cluster.local:9091".

Lemma addr_for_new namespace workspace :
  "{"%char ∉ B namespace → addr_for (HarnessClientPool_new namespace) workspace = service_addr namespace workspace.
Proof.
  intros Hn. unfold addr_for, str_replace, service_addr. apply (inj B). rewrite B_str_of. cbn [pool_template HarnessClientPool_new from_service_template].
  rewrite !B_app. unfold replace_bytes. change (B "{workspace}") with ("{"%char :: B "workspace}").
  change (B "{workspace}.") with (("{"%char :: B "workspace}") ++ ["."%char]).
  rewrite replace_go_ahead by (by apply (bool_decide_unpack _)).
  rewrite replace_go_ahead by (by apply (bool_decide_unpack _)).
  rewrite <- (app_assoc ("{"%char :: _)). rewrite replace_go_cases by done. simpl.
  by rewrite replace_go_ahead by done.
Qed.

(** Whatever calls race, a workspace has one client: every call that returns one
    returns the same, dialled at the Service of that workspace. A dial that is
    not answered within the budget ends the call. *)
Theorem pool_one_client endpoint namespace p gets w c c' :
  "{"%char ∉ B namespace → pool_reach endpoint namespace p gets →
  (w, GetDone (Ok c)) ∈ gets → (w, GetDone (Ok c')) ∈ gets → c = c' ∧ hcl_addr c = service_addr namespace w.
Proof.
  intros Hn (Ht & Hc & Hg)%pool_reach_ok Hin Hin'. rewrite Forall_forall in Hg.
  apply Hg in Hin, Hin'. unfold get_ok in *. simpl in *. split; [congruence|].
  rewrite (Hc _ _ Hin). rewrite <- addr_for_new by done. unfold addr_for. simpl. by rewrite Ht.
Qed.

(** ** Witnesses *)

Module Demo.
Definition listing (cm : ConfigMap) : History :=
  [(5%N, TaskWatch EvInit); (6%N, TaskWatch (EvInitApply cm)); (7%N, TaskWatch EvInitDone)].
Definition identity_cm : ConfigMap :=
  mkConfigMap (Some "alice") None (Some [("subject", "idp#alice"); ("workspaces", "hello")]).
Definition api : KubeApi := mkKubeApi (λ _, Err "unreachable") (λ _, Err "unreachable").
Definition state : GatewayState :=
  synced_state (Y := unit) (λ _, true) (λ _, Err "") (λ _, Ok []) (relay_state (λ _, None))
    (listing (mkConfigMap (Some "grants") None None)) (listing identity_cm) 7 14.
End Demo.

Lemma relay_serves_closed_witness :
  workspaces_for (gs_identity Demo.state) "idp#alice" = ["hello"] ∧
  ∀ port v, internal_request (build_server Demo.api <$> listeners) port = Some v → port = DEFAULT_INTERNAL_GRPC_PORT.
Proof.
  split; [by vm_compute|].
  destruct (relay_serves_closed (Y := unit) (λ _, true) (λ _, Err "") (λ _, Ok []) (λ _, None) (Ok Demo.api)
              (Demo.listing (mkConfigMap (Some "grants") None None)) (Demo.listing Demo.identity_cm) Demo.state
              (build_server Demo.api <$> listeners)) as (_ & _ & H); [reflexivity|reflexivity|reflexivity|].
  intros port v Hv. by apply H in Hv as [? _].
Defined.
