(* ===== verification/HarnessBoot.v ===== *)
(** * The harness process

    Models [crates/harness/src/config.rs], [healthz.rs] and the start-up in
    [lib.rs]: the configuration from the environment, the parts it is handed to
    ([Registry], [ToolRouter], [ModelDispatch]), what must hold before anything
    is served, and the health probe. *)

From stdpp Require Import pretty.
From S2P Require Import Prelude Text Auth ConfigMaps Identity Toolset Codec Conversation Registry Agent ModelDispatch ToolRouter Jobs Startup RelayBoot.

(** ** Configuration *)

Abbreviation Grants := (gmap string (gmap string CapabilityGrant)).

Record HarnessConfig : Type := mkHarnessConfig {
  cf_relay_gateway_addr : string; cf_instructions_root : string; cf_workspace : string;
  cf_max_iterations : N; cf_idle_gap_secs : N; cf_namespace : string; cf_toolsets : list string;
  cf_grants : Grants; cf_scheduling_file : string; cf_capability_service : string; cf_models : list string }.

Definition comma_list (raw : string) : list string := filter (λ k, k ≠ "") (str_trim <$> str_split comma raw).

(** [key.splitn(4, '.')] matched against [["grant", toolset, grant, field]]. *)
Definition split_grant_key (key : string) : option (string * string * string) :=
  '(kind, rest) ← str_split_once dot key;
  if decide (kind = "grant") then
    '(toolset, rest) ← str_split_once dot rest;
    '(grant, field) ← str_split_once dot rest;
    Some (toolset, grant, field)
  else None.

Abbreviation GrantFields := (gmap (string * string) (gmap string string)).

(** The first loop, over the flat object in the order its [HashMap] yields. *)
Fixpoint collect_fields (flat : list (string * string)) (fields : GrantFields) : result GrantFields string :=
  match flat with
  | [] => Ok fields
  | (key, value) :: flat =>
      match split_grant_key key with
      | None => Err (key +:+ " is not grant.<toolset>.<grant>.<field>")
      | Some (toolset, grant, field) =>
          collect_fields flat
            (<[(toolset, grant) := <[field := value]> (default ∅ (fields !! (toolset, grant)))]> fields)
      end
  end.

(** [serde_json::from_value::<CapabilityGrant>] on an object of strings: no
    unknown field, a [secret], then the checks of [TryFrom]. [serde] words the
    first two errors. *)
Definition grant_from_fields (fields : gmap string string) : result CapabilityGrant string :=
  if decide (map_Forall (λ k _, k = "secret" ∨ k = "path" ∨ k = "egress") fields) then
    let? secret := ok_or (fields !! "secret") "missing field secret" in
    grant_try_from (mkRawGrant secret (fields !! "path") (fields !! "egress"))
  else Err "unknown field".

(** The second loop, over the grants in the order their [HashMap] yields. *)
Fixpoint build_grants (fields : list (string * string * gmap string string)) (out : Grants) : result Grants string :=
  match fields with
  | [] => Ok out
  | (toolset, grant, fs) :: fields =>
      let? parsed := map_err (λ e, "grant." +:+ toolset +:+ "." +:+ grant +:+ ": " +:+ e) (grant_from_fields fs) in
      build_grants fields (<[toolset := <[grant := parsed]> (default ∅ (out !! toolset))]> out)
  end.

Section config.
(** [serde_json::from_str::<HashMap<String, String>>], and the orders in which
    the two maps are iterated, which are unspecified. *)
Context (flat_json : string → result (gmap string string) string)
  (flat_order : gmap string string → list (string * string))
  (field_order : GrantFields → list (string * string * gmap string string)).

Definition parse_grants (raw : string) : result Grants string :=
  let? flat := map_err (λ e, "not a flat JSON object: " +:+ e) (flat_json raw) in
  let? fields := collect_fields (flat_order flat) ∅ in
  build_grants (field_order fields) ∅.

Definition U32 : Z := 4294967296.

Definition from_env (env : string → option string) : result HarnessConfig string :=
  let? relay_gateway_addr := ok_or (env "RELAY_GATEWAY_ADDR") "RELAY_GATEWAY_ADDR is required" in
  let instructions_root := default "/etc/instructions" (env "INSTRUCTIONS_ROOT") in
  let? workspace := ok_or (env "WORKSPACE_NAME") "WORKSPACE_NAME is required" in
  let max_iterations := default 100%N (env "MAX_ITERATIONS" ≫= parse_below U32) in
  let idle_gap_secs := default 600%N (env "IDLE_GAP_SECONDS" ≫= parse_u64) in
  let namespace := default "default" (env "TOOLSET_NAMESPACE") in
  let toolsets := comma_list (default "" (env "TOOLSETS")) in
  let? grants :=
    match env "GRANTS" with
    | Some raw => if negb (str_is_empty (str_trim raw))
                  then map_err (λ e, "GRANTS: " +:+ e) (parse_grants raw) else Ok ∅
    | None => Ok ∅
    end in
  let scheduling_file := default "/etc/sycophant/scheduling/scheduling.yaml" (env "TOOLSET_SCHEDULING_FILE") in
  let? capability_service := ok_or (env "CAPABILITY_SERVICE_NAME") "CAPABILITY_SERVICE_NAME is required" in
  let models := comma_list (default "" (env "MODELS")) in
  Ok (mkHarnessConfig relay_gateway_addr instructions_root workspace max_iterations idle_gap_secs namespace
        toolsets grants scheduling_file capability_service models).
End config.

(** ** The health probe *)

Definition evaluate (path : string) (subscribed : bool) : N * string :=
  if decide (path = "/healthz")
  then if subscribed then (200%N, "ok") else (503%N, "not subscribed")
  else (404%N, "").

(** ** Start-up *)

Definition DEFAULT_CONVERSATION_DIR : string := "/var/lib/harness/conversations".
Definition RELAY_FORWARD_PORT : N := 9091.

(** The answers to [create_dir_all] and to the write of the probe file, which is
    then removed; whether that succeeds does not matter. *)
Definition probe_dir_writable (create write : result unit string) (label dir : string) : result unit string :=
  let? _ := map_err (λ e, "create " +:+ label +:+ " dir " +:+ dir +:+ ": " +:+ e) create in
  map_err (λ e, label +:+ " dir " +:+ dir +:+ " is not writable: " +:+ e) write.

(** The world of a start-up. *)
Record BootWorld : Type := mkBootWorld {
  bw_env : string → option string;
  bw_create_dir : result unit string; bw_write_probe : result unit string;
  bw_disk : gmap string ConvDir; bw_dir_io : option string; bw_load_io : string → option string;
  bw_relay : nat → Attempt nat;                    (* the attempts to reach the relay *)
  bw_kube : result unit string;                    (* [try_init_kube_client] *)
  bw_read_scheduling : string → result string string;
  bw_toolsets : History; bw_models : History }.    (* the watchers, each from its spawn *)

(** The parts, as they are when the message loop starts. *)
Record Harness (T : Type) : Type := mkHarness {
  hb_config : HarnessConfig; hb_registry : Registry; hb_relay : nat;
  hb_scheduling : SchedulingConfig T;
  hb_toolsets : gmap string ToolsetEntry; hb_catalog : Catalog;
  hb_inference : InferenceDispatch }.
Arguments mkHarness {T}.
Arguments hb_config {T}.
Arguments hb_registry {T}.
Arguments hb_relay {T}.
Arguments hb_scheduling {T}.
Arguments hb_toolsets {T}.
Arguments hb_catalog {T}.
Arguments hb_inference {T}.

(** The tables a watcher task installs, in order: the router is told of each. *)
Fixpoint installs {T} (merge : list (string * ConfigMap) → T * list string) (s : Task T) (es : list TaskEvent)
  : list T :=
  match es with
  | [] => []
  | e :: es =>
      let s' := task_step merge s e in
      (if task_alive s && match e with TaskWatch w => event_installs w | _ => false end
       then [w_table (task_watch s')] else [])
      ++ installs merge s' es
  end.

Definition toolset_merge (current : list (string * ConfigMap)) : gmap string ToolsetEntry * list string :=
  ToolsetConfig_merge current.*2.
Definition model_merge (current : list (string * ConfigMap)) : gmap string ModelConfig * list string :=
  ModelTable_merge current.*2.

(** The events of a history up to a time. *)
Definition until (t : N) (h : History) : list TaskEvent := snd <$> filter (λ x, (x.1 ≤ t)%N) h.

Section boot.
Context {T : Type} (flat_json : string → result (gmap string string) string)
  (flat_order : gmap string string → list (string * string))
  (field_order : GrantFields → list (string * string * gmap string string))
  (endpoint : string → result unit string)
  (yaml_parse : string → result (SchedulingConfig T) string)
  (describe schema : string → string) (parameters_json : ToolDecl → string).

(** [run], up to the message loop: an error ends the process before it serves
    anything. The toolsets are watched first; their task goes on while the
    models are waited for. Without a kube client nothing is watched. *)
Definition boot (w : BootWorld) : result (Harness T) string :=
  let? config := map_err (λ e, "config error: " +:+ e) (from_env flat_json flat_order field_order (bw_env w)) in
  let conversation_dir := default DEFAULT_CONVERSATION_DIR (bw_env w "HARNESS_CONVERSATION_DIR") in
  let? _ := probe_dir_writable (bw_create_dir w) (bw_write_probe w) "conversation-log" conversation_dir in
  let registry := (rebuild_from_disk (bw_dir_io w) (bw_load_io w) (registry_new (bw_disk w))).1 in
  let? relay := (connect_with_keepalive endpoint (cf_relay_gateway_addr config) "relay" (bw_relay w)).2 in
  let kube := is_ok (bw_kube w) in
  let? scheduling := map_err (λ e, "scheduling config: " +:+ e)
      (scheduling_load_or_default (bw_read_scheduling w) yaml_parse (cf_scheduling_file config) kube) in
  let tools := router_new describe schema in
  let? (t1, t2) :=
    if kube then
      let? t1 := spawn_and_await_ready toolset_merge "toolset" ∅ (bw_toolsets w) in
      let? t2 := spawn_and_await_ready model_merge "model" ∅ (bw_models w) in
      Ok (t1, t2)
    else Ok (0%N, 0%N) in
  let toolsets := if kube then until (t1 + t2) (bw_toolsets w) else [] in
  let models := if kube then until t2 (bw_models w) else [] in
  Ok (mkHarness config registry relay scheduling
        (w_table (task_watch (foldl (task_step toolset_merge) (spawn_watcher_task ∅) toolsets)))
        (foldl (λ c t, (apply_toolsets parameters_json (cf_toolsets config) (cf_grants config) t c).1) tools
           (installs toolset_merge (spawn_watcher_task ∅) toolsets))
        (mkInferenceDispatch
           (w_table (task_watch (foldl (task_step model_merge) (spawn_watcher_task ∅) models)))
           (cf_models config) kube (cf_namespace config) (cf_capability_service config) (cf_workspace config))).
End boot.

(** ** Grants *)

Definition grant_key (toolset grant field : string) : string :=
  "grant." +:+ toolset +:+ "." +:+ grant +:+ "." +:+ field.

Lemma split_grant_key_spec key toolset grant field :
  split_grant_key key = Some (toolset, grant, field) ↔
  key = grant_key toolset grant field ∧ dot ∉ B toolset ∧ dot ∉ B grant.
Proof.
  unfold split_grant_key, grant_key. split.
  - intros ([kind rest] & [Hk _]%str_split_once_Some & H)%bind_Some. case_decide as Ekind; [|done]. subst kind.
    apply bind_Some in H as ([ts rest'] & [Ht Hts]%str_split_once_Some & H).
    apply bind_Some in H as ([g f] & [Hg Hgs]%str_split_once_Some & [= <- <- <-]).
    split; [|done]. apply (inj B). rewrite Hk, Ht, Hg, !B_app. done.
  - intros (-> & Hts & Hg). apply bind_Some. exists ("grant", toolset +:+ "." +:+ grant +:+ "." +:+ field).
    split; [apply str_split_once_Some; split; [by rewrite B_app|by apply (bool_decide_unpack _)]|].
    rewrite decide_True by done. apply bind_Some. exists (toolset, grant +:+ "." +:+ field).
    split; [apply str_split_once_Some; split; [by rewrite !B_app|done]|].
    apply bind_Some. exists (grant, field). split; [apply str_split_once_Some; split; [by rewrite !B_app|done]|done].
Qed.

(** One entry of the flat object read into the fields. *)
Definition entry_read (fields : GrantFields) (toolset grant field : string) : option string :=
  fields !! (toolset, grant) ≫= λ m, m !! field.

Lemma collect_fields_spec l : ∀ fields,
  (is_ok (collect_fields l fields) = true ↔ Forall (λ kv, is_Some (split_grant_key kv.1)) l) ∧
  ∀ fields', collect_fields l fields = Ok fields' → NoDup l.*1 → (∀ p m, fields !! p = Some m → m ≠ ∅) →
    (∀ p m, fields' !! p = Some m → m ≠ ∅) ∧
    ∀ ts g f v, entry_read fields' ts g f = Some v ↔
      (∃ key, (key, v) ∈ l ∧ split_grant_key key = Some (ts, g, f)) ∨
      ((∀ key, key ∈ l.*1 → split_grant_key key ≠ Some (ts, g, f)) ∧ entry_read fields ts g f = Some v).
Proof.
  induction l as [|[key value] l IH]; intros fields.
  { split; [done|]. simpl. intros ? [= <-] _ Hne. split; [done|]. intros ts g f v. split.
    - intros Hr. right. split; [|done]. by intros ? ?%elem_of_nil.
    - intros [(key & Hin%elem_of_nil & _)|[_ Hr]]; done. }
  simpl. destruct (split_grant_key key) as [[[ts0 g0] f0]|] eqn:Ek; last first.
  { split; [|done]. split; [done|]. intros [[x Hx] _]%Forall_cons. simpl in Hx. congruence. }
  destruct (IH (<[(ts0, g0) := <[f0 := value]> (default ∅ (fields !! (ts0, g0)))]> fields)) as [IHok IHspec].
  split. { rewrite IHok, Forall_cons. simpl. rewrite Ek. naive_solver. }
  intros fields' Hc [Hkey Hnd]%NoDup_cons Hne. destruct (IHspec fields' Hc Hnd) as [Hne' Hspec].
  { intros p m [[<- <-]|[_ Hm]]%lookup_insert_Some; [apply insert_non_empty|by eapply Hne]. }
  split; [done|]. intros ts g f v. rewrite Hspec.
  assert (entry_read (<[(ts0, g0) := <[f0 := value]> (default ∅ (fields !! (ts0, g0)))]> fields) ts g f
          = if decide ((ts0, g0, f0) = (ts, g, f)) then Some value else entry_read fields ts g f) as Hread.
  { unfold entry_read. destruct (decide ((ts0, g0) = (ts, g))) as [[= -> ->]|Hp].
    - rewrite lookup_insert_eq. simpl. destruct (decide (f0 = f)) as [->|Hf].
      + by rewrite lookup_insert_eq, decide_True.
      + rewrite lookup_insert_ne by done. rewrite decide_False by congruence. destruct (fields !! (ts, g)); simpl; [done|].
        apply lookup_empty.
    - rewrite lookup_insert_ne by done. by rewrite decide_False by congruence. }
  rewrite Hread. clear Hread IH IHok IHspec Hspec. split.
  - intros [(k & Hin & Hs)|[Hno Hr]]; [left; exists k; split; [by right|done]|].
    case_decide as E; [injection E as -> -> ->; injection Hr as ->; left; exists key; by split; [left|]|].
    right. split; [|done]. intros k [->|Hk]%elem_of_cons; [congruence|by apply Hno].
  - intros [(k & [[= -> ->]|Hin]%elem_of_cons & Hs)|[Hno Hr]].
    + right. split; [|by rewrite decide_True by congruence]. intros k' Hk' Hs'. destruct Hkey.
      apply split_grant_key_spec in Hs as [-> _]. by apply split_grant_key_spec in Hs' as [-> _].
    + left. by exists k.
    + right. split; [intros k Hk; apply Hno; by right|]. rewrite decide_False; [done|].
      intros E. apply (Hno key); [by left|congruence].
Qed.

Definition grant_of (grants : Grants) (toolset grant : string) : option CapabilityGrant :=
  grants !! toolset ≫= λ m, m !! grant.

Lemma grant_of_insert out ts0 g0 cg ts g :
  grant_of (<[ts0 := <[g0 := cg]> (default ∅ (out !! ts0))]> out) ts g
  = if decide ((ts0, g0) = (ts, g)) then Some cg else grant_of out ts g.
Proof.
  unfold grant_of. destruct (decide (ts0 = ts)) as [->|Ht].
  - rewrite lookup_insert_eq. simpl. destruct (decide (g0 = g)) as [->|Hg].
    + by rewrite lookup_insert_eq, decide_True.
    + rewrite lookup_insert_ne by done. rewrite decide_False by congruence. destruct (out !! ts); simpl; [done|].
      apply lookup_empty.
  - rewrite lookup_insert_ne by done. by rewrite decide_False by congruence.
Qed.

Lemma build_grants_spec l : ∀ out,
  (is_ok (build_grants l out) = true ↔ Forall (λ x, is_ok (grant_from_fields x.2) = true) l) ∧
  ∀ out', build_grants l out = Ok out' → NoDup l.*1 → ∀ ts g cg,
    grant_of out' ts g = Some cg ↔
    (∃ fs, (ts, g, fs) ∈ l ∧ grant_from_fields fs = Ok cg) ∨ ((ts, g) ∉ l.*1 ∧ grant_of out ts g = Some cg).
Proof.
  induction l as [|[[ts0 g0] fs0] l IH]; intros out.
  { split; [done|]. simpl. intros ? [= <-] _ ts g cg. split; [intros Hr; right; split; [by intros ?%elem_of_nil|done]|].
    intros [(fs & ?%elem_of_nil & _)|[_ ?]]; done. }
  simpl. destruct (grant_from_fields fs0) as [cg0|e] eqn:Eg; simpl; last first.
  { split; [|done]. split; [done|]. intros [Hx _]%Forall_cons. simpl in Hx. by rewrite Eg in Hx. }
  destruct (IH (<[ts0 := <[g0 := cg0]> (default ∅ (out !! ts0))]> out)) as [IHok IHspec].
  split. { rewrite IHok, Forall_cons. simpl. by rewrite Eg; naive_solver. }
  intros out' Hb [Hnin Hnd]%NoDup_cons ts g cg. rewrite (IHspec out' Hb Hnd), grant_of_insert. split.
  - intros [(fs & Hin & Hfs)|[Hno Hr]]; [left; exists fs; split; [by right|done]|].
    case_decide as E; [injection E as -> ->; injection Hr as ->; left; exists fs0; by split; [left|]|].
    right. split; [|done]. intros [H|H]%elem_of_cons; [congruence|done].
  - intros [(fs & [[= -> -> ->]|Hin]%elem_of_cons & Hfs)|[Hno Hr]].
    + right. split; [done|]. rewrite decide_True by done. congruence.
    + left. by exists fs.
    + apply not_elem_of_cons in Hno as [Hne Hno]. right. split; [done|]. by rewrite decide_False by congruence.
Qed.

(** What a flat object declares for one grant: its fields are exactly those of
    the keys of that grant, and there is one. *)
Definition declares (flat : gmap string string) (toolset grant : string) (fields : gmap string string) : Prop :=
  dot ∉ B toolset ∧ dot ∉ B grant ∧ fields ≠ ∅ ∧ ∀ field, fields !! field = flat !! grant_key toolset grant field.

Section grants.
Context (flat_json : string → result (gmap string string) string)
  (flat_order : gmap string string → list (string * string))
  (field_order : GrantFields → list (string * string * gmap string string)).
Context (flat_order_ok : ∀ m, flat_order m ≡ₚ map_to_list m) (field_order_ok : ∀ m, field_order m ≡ₚ map_to_list m).
Abbreviation parse_grants := (parse_grants flat_json flat_order field_order).

Lemma collected flat fields :
  collect_fields (flat_order flat) ∅ = Ok fields → ∀ ts g fs, fields !! (ts, g) = Some fs ↔ declares flat ts g fs.
Proof using flat_order_ok.
  clear flat_json. intros Hc. destruct (proj2 (collect_fields_spec (flat_order flat) ∅) fields Hc) as [Hne Hspec].
  { rewrite flat_order_ok. apply NoDup_fst_map_to_list. }
  { by intros p m ?%lookup_empty_Some. }
  assert (∀ ts g f v, entry_read fields ts g f = Some v ↔
            flat !! grant_key ts g f = Some v ∧ dot ∉ B ts ∧ dot ∉ B g) as Hread.
  { intros ts g f v. rewrite Hspec. setoid_rewrite split_grant_key_spec. setoid_rewrite flat_order_ok.
    setoid_rewrite elem_of_map_to_list. unfold entry_read. rewrite lookup_empty. naive_solver. }
  intros ts g fs. unfold entry_read in Hread. split.
  - intros Hf. assert (∀ f v, fs !! f = Some v ↔ flat !! grant_key ts g f = Some v ∧ dot ∉ B ts ∧ dot ∉ B g) as Hr.
    { intros f v. rewrite <- Hread, Hf. done. }
    pose proof (Hne _ _ Hf) as Hn. apply map_choose in Hn as (f & v & Hv). pose proof (proj1 (Hr f v) Hv) as (_ & Hts & Hg).
    split_and!; try done; [by eapply Hne|]. intros f'. apply option_eq. intros v'. rewrite Hr. naive_solver.
  - intros (Hts & Hg & Hn & Hfs). apply map_choose in Hn as (f & v & Hv).
    assert (∀ f v, (fields !! (ts, g) ≫= (λ m, m !! f)) = Some v ↔ fs !! f = Some v) as Hr.
    { intros f' v'. rewrite Hread, Hfs. naive_solver. }
    destruct (fields !! (ts, g)) as [fs'|]; [|by apply Hr in Hv]. f_equal. apply map_eq. intros f'. apply option_eq, Hr.
Qed.

(** C36. The grants of a workspace are what [GRANTS] declares, in whatever order
    its entries come: it is accepted exactly if every key is of the form
    [grant.<toolset>.<grant>.<field>] and the fields of each grant pass the checks,
    and then a toolset has a grant just if its fields are declared, with the
    Secret, path and egress they give. *)
Theorem grants_as_declared raw flat :
  flat_json raw = Ok flat →
  (is_ok (parse_grants raw) = true ↔
   map_Forall (λ key _, is_Some (split_grant_key key)) flat ∧
   ∀ ts g fs, declares flat ts g fs → is_ok (grant_from_fields fs) = true) ∧
  ∀ grants, parse_grants raw = Ok grants → ∀ ts g cg,
    grant_of grants ts g = Some cg ↔ ∃ fs, declares flat ts g fs ∧ grant_from_fields fs = Ok cg.
Proof using flat_order_ok field_order_ok.
  intros Hj. unfold parse_grants. rewrite Hj. cbn [map_err rbind].
  pose proof (proj1 (collect_fields_spec (flat_order flat) ∅)) as Hok.
  assert (Forall (λ kv, is_Some (split_grant_key kv.1)) (flat_order flat) ↔
          map_Forall (λ key _, is_Some (split_grant_key key)) flat) as Hkeys.
  { rewrite flat_order_ok, map_Forall_to_list. apply Forall_iff. by intros []. }
  rewrite Hkeys in Hok. destruct (collect_fields (flat_order flat) ∅) as [fields|e] eqn:Ec; cbn [rbind]; last first.
  { split; [|done]. split; [done|]. intros [? _]. by apply Hok. }
  pose proof (collected flat fields Ec) as Hf. destruct (build_grants_spec (field_order fields) ∅) as [Hbok Hbspec]. split.
  - rewrite Hbok, field_order_ok. rewrite Forall_forall. split.
    + intros Hall. split; [by apply Hok|]. intros ts g fs Hd. apply (Hall (ts, g, fs)). apply elem_of_map_to_list. by apply Hf.
    + intros [_ Hall] [[ts g] fs] Hin%elem_of_map_to_list. eapply Hall. by apply Hf.
  - intros grants Hb ts g cg. rewrite (Hbspec grants Hb); last by rewrite field_order_ok; apply NoDup_fst_map_to_list.
    setoid_rewrite field_order_ok. setoid_rewrite elem_of_map_to_list. setoid_rewrite Hf.
    unfold grant_of at 1. rewrite lookup_empty. naive_solver.
Qed.
End grants.

(** ** Start-up *)

Lemma install_quiet {T} (merge : list (string * ConfigMap) → T * list string) s e :
  task_alive s && match e with TaskWatch w => event_installs w | _ => false end = false →
  w_table (task_watch (task_step merge s e)) = w_table (task_watch s).
Proof. unfold task_step. destruct (task_alive s); [|done]. by destruct e as [[]| |]. Qed.

(** The table is the last one installed. *)
Lemma installs_last {T} (merge : list (string * ConfigMap) → T * list string) es : ∀ s,
  w_table (task_watch (foldl (task_step merge) s es)) = default (w_table (task_watch s)) (last (installs merge s es)).
Proof.
  induction es as [|e es IH]; intros s; [done|]. cbn [foldl installs]. rewrite IH.
  destruct (task_alive s && _) eqn:E; [|by rewrite install_quiet].
  simpl. destruct (installs merge (task_step merge s e) es) as [|t ts] eqn:Ei; [done|].
  change (last (_ :: t :: ts)) with (last (t :: ts)). destruct (last (t :: ts)) eqn:El; [done|]. by apply last_None in El.
Qed.

(** So the router's catalog is that of the table, after whatever updates. *)
Lemma catalog_of_installs describe schema parameters_json scope grants es :
  let s := spawn_watcher_task ∅ in
  let catalog := foldl (λ c t, (apply_toolsets parameters_json scope grants t c).1) (router_new describe schema)
                   (installs toolset_merge s es) in
  ∀ e, e ∈ catalog → ce_source e = SrcToolset →
    ∃ entry t, Proto.ti_toolset (ce_info e) ∈ scope ∧
      w_table (task_watch (foldl (task_step toolset_merge) s es)) !! Proto.ti_toolset (ce_info e) = Some entry ∧
      t ∈ te_tools entry ∧ tool_name t = ce_name e ∧ ce_args e = tool_args t ∧
      ce_grants e = default ∅ (grants !! Proto.ti_toolset (ce_info e)) ∧
      Forall (λ a, is_reserved_env (arg_env a) = false) (ce_args e).
Proof.
  intros s catalog e He Hs. unfold catalog in He. rewrite installs_last.
  destruct (installs toolset_merge s es) as [|t ts] eqn:Ei using rev_ind.
  - by apply router_new_builtin in He.
  - rewrite foldl_snoc in He. rewrite last_snoc. simpl.
    destruct (catalog_follows_table describe schema parameters_json scope grants ts t) as (_ & _ & H).
    destruct (H e He Hs) as (entry & tool & ? & ? & ? & ? & ? & ? & ? & _). by exists entry, tool.
Qed.

Section started.
Context {T : Type} (flat_json : string → result (gmap string string) string)
  (flat_order : gmap string string → list (string * string))
  (field_order : GrantFields → list (string * string * gmap string string))
  (endpoint : string → result unit string)
  (yaml_parse : string → result (SchedulingConfig T) string)
  (describe schema : string → string) (parameters_json : ToolDecl → string).
Abbreviation boot := (boot flat_json flat_order field_order endpoint yaml_parse describe schema parameters_json).


End started.

(** The relay's pool dials the port that the harness serves the relay on. *)
Lemma pool_dials_relay_forward_port namespace workspace :
  service_addr namespace workspace =
  "http://ws-" +:+ workspace +:+ "." +:+ namespace +:+ ".svc.cluster.local:" +:+ pretty RELAY_FORWARD_PORT.
Proof. done. Qed.

(** ** Witnesses *)

Module Demo.
Definition flat : gmap string string :=
  {[ "grant.git.main.secret" := "deploy-key"; "grant.git.main.path" := "/root/key" ]}.
Definition flat_json (raw : string) : result (gmap string string) string := Ok flat.
Definition env (name : string) : option string :=
  bt_get name [("RELAY_GATEWAY_ADDR", "http://relay:9090"); ("WORKSPACE_NAME", "hello");
    ("CAPABILITY_SERVICE_NAME", "caps"); ("TOOLSETS", " git ,web,"); ("MODELS", "small"); ("GRANTS", "{}")].
Definition git : ConfigMap :=
  mkConfigMap (Some "toolset-git") (Some [(NAME_LABEL, "git")])
    (Some [("image", "git@sha256:1"); ("tool.clone.description", "Clones a repository")]).
Definition listing (cm : ConfigMap) : History :=
  [(5%N, TaskReturned (Err "watch lost")); (1005%N, TaskWatch EvInit); (1006%N, TaskWatch (EvInitApply cm));
   (1007%N, TaskWatch EvInitDone)].
Definition world_on (disk : gmap string ConvDir) (kube : result unit string) : BootWorld :=
  mkBootWorld env (Ok tt) (Ok tt) disk None (λ _, None) (λ _, mkAttempt 3 (Ok 1)) kube (λ _, Ok "")
    (listing git) (listing (mkConfigMap None None None)).
Definition world : result unit string → BootWorld := world_on ∅.
Definition boot_of : BootWorld → result (Harness unit) string :=
  boot flat_json map_to_list map_to_list (λ _, Ok tt) (λ _, Ok (mkScheduling [] [])) (λ s, s) (λ s, s) (λ _, "{}").
Definition boot_in (kube : result unit string) : result (Harness unit) string := boot_of (world kube).
Definition offered (r : result (Harness unit) string) : option (list (string * bool)) :=
  match r with
  | Ok h => Some ((λ e, (ce_name e, bool_decide (grant_of (cf_grants (hb_config h)) "git" "main" = None))) <$>
                    filter (λ e, ce_source e = SrcToolset) (hb_catalog h))
  | Err _ => None
  end.
End Demo.

Lemma grants_as_declared_witness :
  grant_of match parse_grants Demo.flat_json map_to_list map_to_list "{}" with Ok g => g | Err _ => ∅ end "git" "main"
  = Some (mkGrant "deploy-key" (Some "/root/key") None).
Proof.
  destruct (grants_as_declared Demo.flat_json map_to_list map_to_list (λ m, Permutation_refl _) (λ m, Permutation_refl _)
              "{}" Demo.flat eq_refl) as [Hok Hspec].
  destruct (parse_grants Demo.flat_json map_to_list map_to_list "{}") as [g|e] eqn:E; [|vm_compute in E; discriminate].
  apply (Hspec g eq_refl). exists {[ "secret" := "deploy-key"; "path" := "/root/key" ]}. split; [|by vm_compute].
  split; [by apply (bool_decide_unpack _)|]. split; [by apply (bool_decide_unpack _)|]. split; [apply insert_non_empty|].
  intros f. change (grant_key "git" "main" f) with ("grant.git.main." +:+ f). unfold Demo.flat.
  change "grant.git.main.secret" with ("grant.git.main." +:+ "secret").
  change "grant.git.main.path" with ("grant.git.main." +:+ "path").
  rewrite !lookup_insert, !lookup_singleton.
  assert (∀ s (x y : option string), (if decide ("grant.git.main." +:+ s = "grant.git.main." +:+ f) then x else y)
            = if decide (s = f) then x else y) as Hd
    by (intros; apply decide_ext; split; [apply string_app_inj_l|by intros ->]).
  by rewrite !Hd.
Defined.



(** A kube client that cannot be built is only logged, in a cluster as well: the
    harness comes up and serves without any toolset. *)
Example boots_without_kube :
  Demo.offered (Demo.boot_in (Err "in-cluster but kube client init failed: bad certificate")) = Some [].
Proof. by vm_compute. Qed.
