(* ===== verification/Link.v ===== *)
(** * The link between a harness and the relay

    Models the harness's client of the relay, [crates/harness/src/clients.rs]
    ([RelayClient]) with the token it attaches ([SaTokenInterceptor] of
    [crates/shared/src/auth.rs]), its subscription
    ([crates/harness/src/message_source.rs], [RelayDriver]) and the task that
    feeds it in the relay ([subscribe] of
    [crates/relay-controller/src/internal.rs]). The other end of each call is
    the relay's own model ([Internal]), so that what a turn delivers can be
    followed to the client's stream. *)

From S2P Require Import Prelude Text Proto Auth GatewayState Gateway HarnessService Internal Conversation Registry Codec Agent ChannelTools RuntimeTools Entrypoint.

(** ** Calls to the relay *)

(** How the transport treats a call: it is answered, it fails before the relay
    sees it, or its answer is lost. *)
Inductive Transport : Type :=
| Answered
| NotSent (status : Status)
| AnswerLost (status : Status).

(** What the world contributes to one call: the token file as it is read, the
    transport, the API server behind the relay's verifier. *)
Record Call : Type := mkCall {
  call_token : result string string; call_io : Transport; call_verify : string → result string Status }.

Section client.
(** Whether a text is a valid header value, and how a status is printed. *)
Context (header_ok : string → bool) (show_status : Status → string).

(** [SaTokenInterceptor::call]: without a readable token the request goes out
    without credentials. *)
Definition interceptor_call (token : result string string) (authorization : option (option string))
  : option (option string) :=
  match token with
  | Ok token =>
      let value := "Bearer " +:+ str_trim token in
      if header_ok value then Some (Some value) else authorization
  | Err _ => authorization
  end.

Definition call_auth (c : Call) : option (option string) := interceptor_call (call_token c) None.

(** One RPC of [RelayClient] on the relay's handler. *)
Definition rpc {A} (name : string) (c : Call) (handler : handler GatewayState A Status)
  : Prelude.handler GatewayState A string :=
  λ g, let failed s := Err (name +:+ " RPC failed: " +:+ show_status s) in
       match call_io c with
       | NotSent s => (g, failed s)
       | AnswerLost s => ((handler g).1, failed s)
       | Answered => let '(g, r) := handler g in
                     (g, match r with Ok a => Ok a | Err s => failed s end)
       end.

Definition client_subscribe (c : Call) : handler GatewayState unit string :=
  rpc "subscribe" c (subscribe (Some (call_verify c)) (call_auth c)).

(** The relay does not look at the workspace that the two server-request calls
    name: it takes the one of the token. *)
Definition client_send_server_notification (c : Call) (method params_json : string)
  : handler GatewayState bool string :=
  rpc "send_server_notification" c
    (internal_send_server_notification (Some (call_verify c)) (call_auth c) method params_json).

(** Up to the wait for the client's response, as in [Internal]; an answer is
    read by [request_outcome]. *)
Definition client_send_server_request (c : Call) (request_id method params_json : string) (timeout_seconds : N)
  : handler GatewayState (RequestOutcome + (string * string * nat * N)) string :=
  do r <- rpc "send_server_request_and_await" c
    (internal_send_server_request (Some (call_verify c)) (call_auth c) request_id method params_json timeout_seconds);
  hret match r with inl resp => inl (request_outcome resp) | inr waiting => inr waiting end.

(** The relay does not look at the stream id of an item. *)
Definition client_deliver_stream_item (c : Call) (channel_stream_id : string) (item : StreamItem)
  : handler GatewayState bool string :=
  rpc "deliver_stream_item" c (deliver_stream_item (Some (call_verify c)) (call_auth c) (Some item)).

Definition client_deliver_reply (c : Call) (conversation_id : string) (content : list ContentBlock)
  : handler GatewayState bool string :=
  rpc "deliver_reply" c (deliver_reply (Some (call_verify c)) (call_auth c) content conversation_id).

Definition client_deliver_turn_state (c : Call) (turn_state : TurnStateEvent) (subject : string)
  : handler GatewayState bool string :=
  rpc "deliver_turn_state" c
    (deliver_turn_state (Some (call_verify c)) (call_auth c) (mkDeliverTurnState (Some turn_state) subject "")).

(** One delivery of a turn; that it failed is only logged. *)
Definition deliver (c : Call) (d : Delivery) (g : GatewayState) : GatewayState :=
  match d with
  | DelTurnState e subject => (client_deliver_turn_state c e subject g).1
  | DelReply conversation_id content => (client_deliver_reply c conversation_id content g).1
  | DelItem id item => (client_deliver_stream_item c id item g).1
  end.
End client.

(** ** The subscription *)

Definition FORWARD_CAPACITY : nat := 16.

(** A subscription: the receiver on the workspace's bus, the message the relay's
    task has taken from it, the channel to the harness, and whether the task
    still runs. *)
Record Subscription : Type := mkSubscription {
  sn_rx : Subscriber; sn_hand : option UserMessage; sn_tx : list UserMessage; sn_open : bool }.

Definition subscribed_now : Subscription := mkSubscription (mkSubscriber [] false) None [] true.

(** The task's [rx.recv()]: a receiver that was overrun gets an error, which ends
    the task. *)
Definition forward_recv (s : Subscription) : option Subscription :=
  if negb (sn_open s) then None else
  match sn_hand s, sb_queue (sn_rx s) with
  | Some _, _ => None
  | None, q =>
      if sb_lagged (sn_rx s) then Some (mkSubscription (sn_rx s) None (sn_tx s) false)
      else match q with
           | [] => None
           | m :: q => Some (mkSubscription (mkSubscriber q false) (Some m) (sn_tx s) true)
           end
  end.

(** Its [tx.send()], which waits for room. *)
Definition forward_send (s : Subscription) : option Subscription :=
  match sn_hand s with
  | Some m => if sn_open s && (length (sn_tx s) <? FORWARD_CAPACITY)
              then Some (mkSubscription (sn_rx s) None (sn_tx s ++ [m]) true) else None
  | None => None
  end.

(** [stream.next()]: a message, the error the transport [broke] with, or the end
    of the stream; [None] while there is nothing to read. *)
Definition stream_next (broke : option Status) (s : Subscription)
  : option (Subscription * option (result UserMessage Status)) :=
  match broke, sn_tx s with
  | Some e, _ => Some (s, Some (Err e))
  | None, m :: tx => Some (mkSubscription (sn_rx s) (sn_hand s) tx (sn_open s), Some (Ok m))
  | None, [] => if sn_open s then None else Some (s, None)
  end.

Section driver.
Context (header_ok : string → bool) (show_status : Status → string).

(** [RelayDriver::subscribe]. *)
Definition driver_subscribe (c : Call) (stream : option Subscription) (g : GatewayState)
  : GatewayState * option Subscription * result unit string :=
  match client_subscribe header_ok show_status c g with
  | (g, Ok _) => (g, Some subscribed_now, Ok tt)
  | (g, Err e) => (g, stream, Err e)
  end.

(** [RelayDriver::next]. *)
Definition driver_next (broke : option Status) (stream : option Subscription)
  : option (option Subscription * result UserMessage string) :=
  match stream with
  | None => Some (None, Err "not subscribed")
  | Some s =>
      '(s, next) ← stream_next broke s;
      Some (Some s, match next with
                    | None => Err "subscribe stream closed"
                    | Some (Err e) => Err ("subscribe stream error: " +:+ show_status e)
                    | Some (Ok m) => Ok m
                    end)
  end.
End driver.

Definition bus_notify (m : UserMessage) (s : Subscription) : Subscription :=
  mkSubscription (bus_push m (sn_rx s)) (sn_hand s) (sn_tx s) (sn_open s).

(** A subscription at work: the messages the relay accepts for the workspace, the
    task's two steps and the harness's reads, in any order. *)
Inductive bus_run (show_status : Status → string) : Subscription → list UserMessage → list UserMessage → Prop :=
| BusStart : bus_run show_status subscribed_now [] []
| BusNotify s pushed got m : bus_run show_status s pushed got → bus_run show_status (bus_notify m s) (pushed ++ [m]) got
| BusRecv s s' pushed got : bus_run show_status s pushed got → forward_recv s = Some s' → bus_run show_status s' pushed got
| BusSend s s' pushed got : bus_run show_status s pushed got → forward_send s = Some s' → bus_run show_status s' pushed got
| BusRead s s' pushed got broke m :
    bus_run show_status s pushed got → driver_next show_status broke (Some s) = Some (Some s', Ok m) → bus_run show_status s' pushed (got ++ [m]).

(** Everything between the relay and the harness, oldest first. *)
Definition in_flight (s : Subscription) : list UserMessage := sn_tx s ++ option_list (sn_hand s).

Definition bus_inv (s : Subscription) (pushed got : list UserMessage) : Prop :=
  (∃ lost, pushed = got ++ in_flight s ++ lost ++ sb_queue (sn_rx s) ∧ (sb_lagged (sn_rx s) = false → lost = [])) ∧
  length (sb_queue (sn_rx s)) ≤ BUS_CAPACITY ∧ length (sn_tx s) ≤ FORWARD_CAPACITY ∧
  (sn_open s = false → sb_lagged (sn_rx s) = true ∧ sn_hand s = None).

Lemma bus_run_inv show_status s pushed got : bus_run show_status s pushed got → bus_inv s pushed got.
Proof.
  induction 1 as [|s pushed got m _ ((lost & Hp & Hl) & Hq & Ht & Ho)|s s' pushed got _ ((lost & Hp & Hl) & Hq & Ht & Ho) Hs
                 |s s' pushed got _ ((lost & Hp & Hl) & Hq & Ht & Ho) Hs|s s' pushed got broke m _ ((lost & Hp & Hl) & Hq & Ht & Ho) Hs].
  - split_and!; try done; [by exists []|unfold subscribed_now; simpl; lia..].
  - destruct s as [[q lag] hand tx op]. unfold bus_notify, bus_push in *. simpl in *.
    destruct (Nat.ltb_spec BUS_CAPACITY (length (q ++ [m]))) as [Hlt|Hlt]; simpl.
    + destruct q as [|m0 q]; [unfold BUS_CAPACITY in Hlt; simpl in Hlt; lia|]. simpl in *. rewrite drop_0.
      split_and!; simpl; [|rewrite length_app; simpl; lia|done|naive_solver].
      exists (lost ++ [m0]). split; [|done]. rewrite Hp. unfold in_flight. simpl. by rewrite <- !app_assoc.
    + split_and!; [|done..]. exists lost. split; [|done]. rewrite Hp. unfold in_flight. simpl. by rewrite <- !app_assoc.
  - destruct s as [[q lag] hand tx op]. unfold forward_recv in Hs. simpl in *.
    destruct op; [|done]. destruct hand; [done|]. destruct lag; simpl in Hs.
    + simplify_eq. split_and!; try done. by exists lost.
    + destruct q as [|m q]; simplify_eq. simpl in *. split_and!; simpl; try done; [|lia]. exists []. split; [|done].
      rewrite Hl by done. unfold in_flight. simpl. by rewrite app_nil_r, <- app_assoc.
  - destruct s as [[q lag] [m|] tx op]; [|done]. unfold forward_send in Hs. simpl in *.
    destruct op; [|done]. simpl in Hs. destruct (Nat.ltb_spec (length tx) FORWARD_CAPACITY); simplify_eq. simpl.
    split_and!; simpl; try done; [|rewrite length_app; simpl; lia]. exists lost. split; [|done].
    unfold in_flight. simpl. by rewrite app_nil_r.
  - destruct broke; [done|]. destruct s as [[q lag] hand [|m0 tx] op]; simpl in *; [by destruct op|]. simplify_eq. simpl.
    split_and!; simpl; try done; [|lia]. exists lost. split; [|done]. unfold in_flight. simpl. by rewrite <- (app_assoc got).
Qed.

(** A subscription refines a queue that may be cut off: what the harness has read
    is at every moment a prefix of what the relay accepted since it subscribed,
    in order and without a gap; until the bus is overrun everything else is on
    its way; and while the connection holds, the harness is told of the end of
    the stream only after an overrun, with everything the relay's task had taken
    delivered before. *)
Theorem subscription_is_prefix show_status s pushed got :
  bus_run show_status s pushed got →
  got `prefix_of` pushed ∧
  (sb_lagged (sn_rx s) = false → pushed = got ++ in_flight s ++ sb_queue (sn_rx s)) ∧
  (∀ s' e, driver_next show_status None (Some s) = Some (s', Err e) → sb_lagged (sn_rx s) = true ∧ in_flight s = []).
Proof.
  intros ((lost & -> & Hl) & _ & _ & Ho)%bus_run_inv. split_and!.
  - by apply prefix_app_r.
  - intros Hlag. by rewrite Hl.
  - intros s' e He. destruct s as [rx hand [|m tx] op]; simpl in *; [|done]. destruct op; [done|].
    destruct Ho as [Hlag Hh]; [done|]. split; [done|]. unfold in_flight. simpl. by rewrite Hh.
Qed.

(** What the relay accepts for a workspace reaches each receiver on its bus. *)
Lemma notify_reaches workspace m g i :
  gs_senders (notify_subscriber workspace m g) !! workspace ≫= (λ l, l !! i)
  = bus_push m <$> (gs_senders g !! workspace ≫= λ l, l !! i).
Proof.
  unfold notify_subscriber. simpl. rewrite lookup_alter_eq. destruct (gs_senders g !! workspace); simpl; [|done].
  by rewrite list_lookup_fmap.
Qed.

(** ** Deliveries *)

(** The frame a delivery becomes on the streams of the workspace. *)
Definition frame_of (d : Delivery) : ChannelStreamOutbound :=
  match d with
  | DelTurnState e _ => turn_state_frame (tse_state e) (tse_conversation_id e) (tse_reason e) (tse_code e)
  | DelReply conversation_id content => mkOutbound (Some (CmdSendMessage content conversation_id))
  | DelItem _ item => mkOutbound (Some (CmdStreamItem item))
  end.

(** An open stream of a workspace, with its queue. *)
Definition open_stream (workspace id : string) (queue : list ChannelStreamOutbound) (g : GatewayState) : Prop :=
  ∃ e, gs_streams g !! id = Some e ∧ cs_workspace e = workspace ∧ cs_alive e = true ∧ cs_queue e = queue.

Lemma send_to_workspace_open workspace msg g id q :
  open_stream workspace id q g → open_stream workspace id (q ++ [msg]) (send_to_workspace workspace msg g).1.
Proof.
  intros (e & He & Hw & Ha & <-). unfold send_to_workspace. simpl. eexists. rewrite fan_out_lookup, He. simpl.
  split; [done|]. rewrite (proj2 (in_workspace_spec workspace e)) by done. unfold enqueue. simpl. by rewrite Ha.
Qed.

Lemma open_stream_record workspace id q subject conv rec g :
  open_stream workspace id q g → open_stream workspace id q (record_turn_state subject conv rec g).
Proof. unfold open_stream. by rewrite record_turn_state_streams. Qed.

Section link.
Context (header_ok : string → bool) (show_status : Status → string) (workspace : string).
Abbreviation deliver := (deliver header_ok show_status).

(** What the relay makes of the call's credentials. *)
Definition identified (c : Call) : result string Status :=
  verify_caller (Some (call_verify c)) (call_auth header_ok c).

Definition sent (c : Call) : bool := match call_io c with NotSent _ => false | _ => true end.

Definition arrives (c : Call) : bool := sent c && is_ok (identified c).

(** A harness has the token of its own workspace. *)
Definition own_token (c : Call) : Prop := ∀ w, identified c = Ok w → w = workspace.

Lemma rpc_state {A} name c (h : handler GatewayState A Status) g :
  (rpc show_status name c h g).1 = if sent c then (h g).1 else g.
Proof. unfold rpc, sent. destruct (call_io c); simpl; [|done..]. by destruct (h g). Qed.

Lemma deliver_open c d g id q :
  own_token c → open_stream workspace id q g →
  open_stream workspace id (q ++ (if arrives c then [frame_of d] else [])) (deliver c d g).
Proof.
  intros Hown Hq. unfold arrives, own_token, identified in *.
  destruct d as [e subject|conv content|sid item]; cbn [Link.deliver frame_of];
    unfold client_deliver_turn_state, client_deliver_reply, client_deliver_stream_item; rewrite rpc_state;
    (destruct (sent c); simpl; [|by rewrite app_nil_r]);
    unfold deliver_turn_state, deliver_reply, deliver_stream_item, hbind, hlift;
    (destruct (verify_caller _ _) as [w|s]; simpl; [|by rewrite app_nil_r]); rewrite (Hown w eq_refl).
  - apply send_to_workspace_open. repeat case_match; by apply open_stream_record || done.
  - by apply send_to_workspace_open.
  - by apply send_to_workspace_open.
Qed.
End link.

(** *** Following a turn to a stream *)

(** [c] is [a] and [b], each in its order. *)
Inductive interleaves {A} : list A → list A → list A → Prop :=
| IlNil : interleaves [] [] []
| IlLeft x a b c : interleaves a b c → interleaves (x :: a) b (x :: c)
| IlRight x a b c : interleaves a b c → interleaves a (x :: b) (x :: c).

Lemma interleaves_right {A} (os a b c : list A) : interleaves a b c → interleaves a (os ++ b) (os ++ c).
Proof. intros H. induction os; simpl; [done|by constructor]. Qed.

Lemma interleaves_nil_l {A} (b c : list A) : interleaves [] b c → c = b.
Proof. remember [] as a eqn:E. induction 1; simplify_eq; [done|]. by rewrite IHinterleaves. Qed.

Section following.
Context (header_ok : string → bool) (show_status : Status → string) (workspace id : string).

(** Between two deliveries the relay goes on: what it does may add frames [os] to
    the stream, which stays open. *)
Definition still_open (g g' : GatewayState) (os : list ChannelStreamOutbound) : Prop :=
  ∀ q, open_stream workspace id q g → open_stream workspace id (q ++ os) g'.

Inductive link_run : GatewayState → list (Call * Delivery) → list ChannelStreamOutbound → GatewayState → Prop :=
| LinkDone g : link_run g [] [] g
| LinkDeliver c d g ds os g' :
    link_run (deliver header_ok show_status c d g) ds os g' → link_run g ((c, d) :: ds) os g'
| LinkOther g g1 os1 ds os g' :
    still_open g g1 os1 → link_run g1 ds os g' → link_run g ds (os1 ++ os) g'.

(** The frames of the deliveries that arrive. *)
Definition arriving (ds : list (Call * Delivery)) : list ChannelStreamOutbound :=
  omap (λ x, if arrives header_ok x.1 then Some (frame_of x.2) else None) ds.

Lemma link_frames g ds os g' :
  link_run g ds os g' → Forall (λ x, own_token header_ok workspace x.1) ds →
  ∀ q, open_stream workspace id q g →
  ∃ suffix, open_stream workspace id (q ++ suffix) g' ∧ interleaves (arriving ds) os suffix.
Proof.
  induction 1 as [g|c d g ds os g' _ IH|g g1 os1 ds os g' Hs _ IH]; intros Hown q Hq.
  - exists []. rewrite app_nil_r. split; [done|constructor].
  - apply Forall_cons in Hown as [Hc Hown]. simpl in Hc. pose proof (deliver_open _ show_status _ _ d _ _ _ Hc Hq) as Hq1.
    destruct (IH Hown _ Hq1) as (suffix & Ho & Hi). unfold arriving. simpl. destruct (arrives header_ok c).
    + exists (frame_of d :: suffix). rewrite <- app_assoc in Ho. split; [done|by constructor].
    + exists suffix. by rewrite app_nil_r in Ho.
  - destruct (IH Hown _ (Hs _ Hq)) as (suffix & Ho & Hi). exists (os1 ++ suffix). rewrite <- app_assoc in Ho.
    split; [done|by apply interleaves_right].
Qed.

Lemma arriving_all ds :
  Forall (λ x, arrives header_ok x.1 = true) ds → arriving ds = frame_of <$> ds.*2.
Proof. induction 1 as [|[c d] ds Hc _ IH]; [done|]. unfold arriving. simpl in *. rewrite Hc. csimpl. f_equal. exact IH. Qed.
End following.

(** The frames that tell how a turn ended. *)
Definition outcome_frames (conv : string) (frames : list ChannelStreamOutbound) : Prop :=
  (∃ text, frames = [mkOutbound (Some (CmdSendMessage [text_block text] conv));
                     turn_state_frame (turn_state_i32 TsIdle) conv "" ""]) ∨
  frames = [turn_state_frame (turn_state_i32 TsCancelled) conv "" ""] ∨
  ∃ reason, frames = [turn_state_frame (turn_state_i32 TsFailed) conv reason "13"].

Lemma outcome_deliveries_frames conv subject dels :
  outcome_deliveries conv subject dels → outcome_frames conv (frame_of <$> dels).
Proof. intros [(text & ->)|[->|(reason & ->)]]; [left; by exists text|by right; left|right; right; by exists reason]. Qed.

(** *** Accepting a message *)

Section ingest.
Context {H : Type} `{HarnessControl H}.

(** What a stream and the bus show of a gateway. *)
Definition shown (sid : string) (g : GatewayState)
  : gmap string (list Subscriber) * option (string * bool * list ChannelStreamOutbound) :=
  (gs_senders g, (λ e, (cs_workspace e, cs_alive e, cs_queue e)) <$> gs_streams g !! sid).

Lemma forward_shown {A} dial workspace (call : handler H A Status) (w w' : World H) r :
  forward dial workspace call w = (w', r) → w_gateway w' = w_gateway w.
Proof. unfold forward. repeat case_match; by intros [= <- _]. Qed.

Lemma require_subject_shown dial workspace subject conv (w w' : World H) r sid :
  require_conversation_subject dial workspace subject conv w = (w', r) →
  shown sid (w_gateway w') = shown sid (w_gateway w).
Proof.
  unfold require_conversation_subject. destruct (str_is_empty conv); [by intros [= <- _]|].
  unfold hbind at 1, hget. destruct (conversation_access _ _); [by intros [= <- _]..|].
  unfold resolve_conversation_owner, hbind at 1. destruct (forward _ _ _ w) as [w1 [l|e]] eqn:E.
  - apply forward_shown in E. destruct (existsb _ _); intros [= <- _]; unfold shown; simpl; by rewrite E.
  - apply forward_shown in E. intros [= <- _]. by rewrite E.
Qed.

Lemma update_methods_shown sid id methods g : shown sid (update_supported_methods id methods g) = shown sid g.
Proof.
  unfold shown, update_supported_methods. simpl. f_equal. destruct (decide (sid = id)) as [->|Hn].
  - rewrite lookup_alter_eq. by destruct (gs_streams g !! id).
  - by rewrite lookup_alter_ne by done.
Qed.

Lemma ingest_message_effect dial env sid subject workspace conv0 content sender grants (w w' : World H) ack :
  ingest_user_message dial env sid subject workspace conv0 (content, sender, grants) w = (w', Ok ack) →
  ∃ conv, ack = (sid, conv) ∧ (conv0 ≠ "" → conv = conv0) ∧
    gs_senders (w_gateway w')
    = gs_senders (notify_subscriber workspace (mkUserMessage content sender (Some sid) conv grants) (w_gateway w)) ∧
    ∀ ws q, open_stream ws sid q (w_gateway w) →
      open_stream ws sid (q ++ [turn_state_frame (turn_state_i32 TsWorking) conv "" ""]) (w_gateway w').
Proof.
  unfold ingest_user_message. intros (w1 & conv & Hc & E)%hbind_Ok.
  apply hbind_Ok in E as (w2 & [] & Hn & E). injection Hn as <-.
  apply hbind_Ok in E as (w3 & b & Hs & E). unfold on_gateway in Hs.
  assert (shown sid (w_gateway w1) = shown sid (w_gateway w) ∧ (conv0 ≠ "" → conv = conv0)) as [Hsh Hconv].
  { destruct (str_is_empty conv0) eqn:E0.
    - apply hbind_Ok in Hc as (w4 & minted & Hf & Hc). apply forward_shown in Hf.
      apply hbind_Ok in Hc as (w5 & [] & Hu & Hc). injection Hu as <-. injection Hc as <- <-.
      unfold shown. simpl. rewrite Hf. split; [done|]. intros Hne. unfold str_is_empty in E0.
      by apply bool_decide_eq_true in E0.
    - injection Hc as <- <-. done. }
  exists conv. injection E as <- <-. destruct (set_and_broadcast_turn_state _ _ _ _ _) as [g' b'] eqn:Eb.
  injection Hs as <- <-. simpl. unfold shown in Hsh. injection Hsh as Hsend Hstr. simpl in Eb.
  unfold set_and_broadcast_turn_state in Eb. rewrite record_turn_state_streams in Eb. simpl in Eb.
  assert (∀ g0, gs_senders (record_turn_state subject conv (mkTurnStateRecord TsWorking "" "") g0) = gs_senders g0) as Hrec.
  { intros g0. unfold record_turn_state. by destruct (str_is_empty conv). }
  destruct (gs_streams (w_gateway w1) !! sid) as [e|] eqn:Ee; injection Eb as <- <-; simpl; rewrite ?Hrec; simpl; rewrite Hsend.
  - split_and!; [done..|]. intros ws q (e0 & He0 & Hw & Ha & Hq). rewrite He0 in Hstr. injection Hstr as Hws Hal Hqu.
    eexists. simpl. rewrite lookup_insert_eq. split; [done|]. unfold enqueue. simpl. rewrite Hal, Ha. simpl.
    split_and!; congruence.
  - split_and!; [done..|]. intros ws q (e0 & He0 & _). by rewrite He0 in Hstr.
Qed.

Lemma ingest_effect kube dial env awaited req ig content sender grants (w w' : World H) sid conv :
  channel_stream_ingest kube dial env awaited req ig w = (w', Ok (sid, conv)) →
  ig_user_message ig = Some (content, sender, grants) →
  ∃ e, gs_streams (w_gateway w) !! sid = Some e ∧ sid = ig_channel_stream_id ig ∧
    gs_senders (w_gateway w') = gs_senders (notify_subscriber (cs_workspace e)
      (mkUserMessage content sender (Some sid) conv grants) (w_gateway w)) ∧
    (cs_alive e = true → open_stream (cs_workspace e) sid
       (cs_queue e ++ [turn_state_frame (turn_state_i32 TsWorking) conv "" ""]) (w_gateway w')).
Proof.
  unfold channel_stream_ingest. intros E Hum.
  apply hbind_Ok in E as (w1 & caller & Ha & E). injection Ha as <- _.
  apply hbind_Ok in E as (w2 & [] & Hn & E). unfold require_named in Hn.
  destruct (str_is_empty (ig_channel_stream_id ig)); [done|]. injection Hn as <-.
  apply hbind_Ok in E as (w3 & bound & Hb & E). injection Hb as <- <-.
  apply hbind_Ok in E as (w4 & [[opener subject] workspace] & Hb & E). unfold channel_stream_binding in Hb.
  apply hlift_Ok in Hb as [-> Hb]. apply ok_or_Ok, fmap_Some in Hb as (e & He & Heq). injection Heq as -> -> ->.
  apply hbind_Ok in E as (w5 & mine & Hm & E). injection Hm as <- _. destruct mine; [|done]. simpl in E.
  apply hbind_Ok in E as (w6 & [] & Hr & E). injection Hr as <- _.
  apply hbind_Ok in E as (w7 & [] & Hs & E). apply (require_subject_shown _ _ _ _ _ _ _ (ig_channel_stream_id ig)) in Hs.
  apply hbind_Ok in E as (w8 & [] & Hmeth & E).
  assert (shown (ig_channel_stream_id ig) (w_gateway w8) = shown (ig_channel_stream_id ig) (w_gateway w)) as Hsh.
  { rewrite <- Hs. destruct (ig_supported_methods ig); injection Hmeth as <-; [done|]. simpl. apply update_methods_shown. }
  rewrite Hum in E. destruct (ig_client_response ig); [done|].
  apply ingest_message_effect in E as (conv' & [= -> ->] & _ & Hsend & Hopen). exists e.
  unfold shown in Hsh. injection Hsh as Hsend8 Hstr8. split_and!; [done..| |].
  - rewrite Hsend. simpl. by rewrite Hsend8.
  - intros Hal. apply Hopen. rewrite He in Hstr8. apply fmap_Some in Hstr8 as (e8 & He8 & [= Hw Ha8 Hq]).
    exists e8. by rewrite <- Ha8.
Qed.
End ingest.

(** ** From a message to its answer *)

Section answered.
Context {H : Type} `{HarnessControl H}.
Context (uuid_parse : string → bool) `{!LineCodec LogEntry}.
Context (yaml_parse : string → YDoc) (sha256_hex : string → string).
Context (root : list string) (workspace : string) (scrub : Scrub.ScrubSet) (max_iterations : nat) (idle_gap : N).
Context (header_ok : string → bool) (show_status : Status → string).
Abbreviation process_message :=
  (process_message uuid_parse yaml_parse sha256_hex root workspace scrub max_iterations idle_gap).

End answered.

(** ** What a poll reads *)

(** A turn state that arrives under its conversation's owner is what a poll of
    that owner reads afterwards, with the reason and code of a failure. *)
Theorem delivered_state_is_polled header_ok show_status c ev subject g :
  arrives header_ok c = true → subject ≠ "" → tse_conversation_id ev ≠ "" →
  let state := default TsUnspecified (turn_state_try_from (tse_state ev)) in
  turn_state_record subject (tse_conversation_id ev) (deliver header_ok show_status c (DelTurnState ev subject) g)
  = Some (if decide (state = TsFailed) then mkTurnStateRecord state (tse_reason ev) (tse_code ev)
          else mkTurnStateRecord state "" "").
Proof.
  intros Ha Hs Hc state. unfold arrives, identified in Ha. apply andb_true_iff in Ha as [Hsent Hok].
  cbn [deliver]. unfold client_deliver_turn_state. rewrite rpc_state, Hsent.
  unfold deliver_turn_state, hbind, hlift. destruct (verify_caller _ _) as [ws|s]; [|done]. cbn [dt_turn_state].
  assert (turn_state_subject ws (mkDeliverTurnState (Some ev) subject "") g = subject) as ->.
  { unfold turn_state_subject. simpl. unfold str_is_empty. by rewrite bool_decide_eq_false_2. }
  assert (str_is_empty subject = false) as -> by by apply bool_decide_eq_false_2.
  assert (∀ rec g, turn_state_record subject (tse_conversation_id ev)
            (record_turn_state subject (tse_conversation_id ev) rec g) = Some rec) as Hrec.
  { intros rec g0. unfold turn_state_record, record_turn_state.
    assert (str_is_empty (tse_conversation_id ev) = false) as -> by by apply bool_decide_eq_false_2.
    simpl. apply lookup_insert_eq. }
  cbv zeta. fold state. case_decide; apply Hrec.
Qed.

(** ** Witnesses *)

(** Deliveries made one after the other, with nothing in between. *)
Lemma link_direct header_ok show_status workspace id c dels g :
  ∃ g', link_run header_ok show_status workspace id g ((λ d, (c, d)) <$> dels) [] g'.
Proof.
  revert g. induction dels as [|d dels IH]; intros g; [eexists; constructor|].
  destruct (IH (deliver header_ok show_status c d g)) as [g' Hr]. exists g'. by constructor.
Qed.

Module Demo.
Definition call : Call := mkCall (Ok "token") Answered (λ _, Ok "home").
Definition ingest : IngestRequest := mkIngest "stream-1" "conv-1" [] (Some (text_content "hi", "alice", [])) None.
Definition accepted : World SampleService * result (string * string) Status :=
  channel_stream_ingest (H := SampleService) (Some sample_kube) no_dial (sample_env "") true (sample_req "alice") ingest listening.
Definition stream : option ChannelStreamEntry := gs_streams (w_gateway listening) !! "stream-1".
End Demo.

