(* ===== verification/Approval.v ===== *)
(** * Who approves a tool call

    Puts the approval of a tool call together from its parts: the router that
    asks ([ToolRouter], [ChannelTools]), the relay that holds the question
    ([GatewayState], [Internal]) and the gateway through which the answer comes
    in ([Gateway]). The relay may do anything in between. *)

From S2P Require Import Prelude Text Proto Auth Identity Toolset GatewayState Gateway HarnessService Internal Agent Dispatch ChannelTools ToolRouter.

(** ** Answers at the gateway *)

(** What the relay keeps of requests and their answers. *)
Definition requests (g : GatewayState) : gmap (string * string) nat * gmap nat ServerRequestOutcome * nat :=
  (gs_pending g, gs_outcomes g, gs_next_oneshot g).

(** A client's response to a request, as an outcome. *)
Definition responds (cr : ClientResponse) (rid : string) (out : ServerRequestOutcome) : Prop :=
  cr_request_id cr = rid ∧
  match out with OutResult json => cr_result_json cr = json ∧ cr_error cr = None | OutError e => cr_error cr = Some e end.

Section relay.
Context {H : Type} `{HarnessControl H}.

(** A request to [channel_stream_ingest], with the world it met. *)
Record Ingest : Type := mkIngestCall {
  in_kube : option KubeApi; in_req : Req; in_ingest : IngestRequest; in_world : World H }.

(** The request comes from who opened the stream it names, a stream of the
    workspace, who can reach the workspace now, and answers [rid] with [out]. *)
Definition answers (a : Ingest) (ws rid : string) (out : ServerRequestOutcome) : Prop :=
  ∃ e cr, gs_streams (w_gateway (in_world a)) !! ig_channel_stream_id (in_ingest a) = Some e ∧ cs_workspace e = ws ∧
    opener_verified (in_kube a) (in_req a) (in_world a) e ∧
    can_reach (in_kube a) (ns (in_world a)) (cs_subject e) ws ∧
    ig_client_response (in_ingest a) = Some cr ∧ responds cr rid out.

(** The relay at work: it is asked, waits, and takes in what clients send; and
    everything else it does leaves the requests alone. [asked] is what each
    oneshot was created for. *)
Inductive relay_run : World H → gmap nat (string * string) → list Ingest → Prop :=
| RunStart w : no_requests (w_gateway w) → relay_run w ∅ []
| RunIngest w w' asked ins kube dial env awaited req ig r :
    relay_run w asked ins → channel_stream_ingest kube dial env awaited req ig w = (w', r) →
    relay_run w' asked (ins ++ [mkIngestCall kube req ig w])
| RunAsk w g' asked ins ws rid method params r :
    relay_run w asked ins → send_server_request ws rid method params (w_gateway w) = (g', r) →
    relay_run (mkWorld g' (w_harness w)) (match r with Ok slot => <[slot := (ws, rid)]> asked | Err _ => asked end) ins
| RunAwait w g' asked ins ws rid slot timed_out r :
    relay_run w asked ins → await_server_request ws rid slot timed_out (w_gateway w) = (g', r) →
    relay_run (mkWorld g' (w_harness w)) asked ins
| RunOther w w' asked ins :
    relay_run w asked ins → requests (w_gateway w') = requests (w_gateway w) → relay_run w' asked ins.

(** ** What an ingest does to the requests *)

(** A handler that leaves them alone. *)
Definition quiet {A} (h : handler (World H) A Status) : Prop :=
  ∀ w, requests (w_gateway (h w).1) = requests (w_gateway w).

Lemma quiet_then {A B} (c : handler (World H) A Status) (k : A → handler (World H) B Status) :
  quiet c → (∀ a, quiet (k a)) → quiet (hbind c k).
Proof.
  intros Hc Hk w. unfold hbind. specialize (Hc w). destruct (c w) as [w1 [a|e]]; simpl in *; [|done]. by rewrite Hk.
Qed.

Lemma quiet_ret {A} (a : A) : quiet (hret a).
Proof. done. Qed.

Lemma quiet_get {A} (f : World H → A) : quiet (hget f).
Proof. done. Qed.

Lemma quiet_on_gateway {A} (f : GatewayState → GatewayState * A) :
  (∀ g, requests (f g).1 = requests g) → quiet (on_gateway f).
Proof. intros Hf w. unfold on_gateway. specialize (Hf (w_gateway w)). by destruct (f (w_gateway w)). Qed.

Lemma quiet_forward {A} dial workspace (call : handler H A Status) : quiet (forward dial workspace call).
Proof. intros w. unfold forward. by repeat case_match. Qed.

Lemma quiet_require_subject dial workspace subject conv : quiet (require_conversation_subject dial workspace subject conv).
Proof.
  unfold require_conversation_subject. destruct (str_is_empty conv); [apply quiet_ret|].
  apply quiet_then; [apply quiet_get|]. intros cached. destruct (conversation_access cached subject); [done..|].
  apply quiet_then; [apply quiet_forward|]. intros listed. destruct (existsb _ _); [by apply quiet_on_gateway|done].
Qed.

Lemma set_and_broadcast_requests sid subject conv state g :
  requests (set_and_broadcast_turn_state sid subject conv state g).1 = requests g.
Proof.
  unfold set_and_broadcast_turn_state, record_turn_state. destruct (str_is_empty conv); simpl; by case_match.
Qed.

Lemma quiet_ingest_message dial env sid subject workspace conv um :
  quiet (ingest_user_message dial env sid subject workspace conv um).
Proof.
  destruct um as [[content sender] grants]. unfold ingest_user_message. apply quiet_then.
  - destruct (str_is_empty conv); [|apply quiet_ret]. apply quiet_then; [apply quiet_forward|]. intros minted.
    apply quiet_then; [by apply quiet_on_gateway|]. intros _. apply quiet_ret.
  - intros conv'. apply quiet_then; [by apply quiet_on_gateway|]. intros _.
    apply quiet_then; [|intros b; apply quiet_ret]. apply quiet_on_gateway. intros g. apply set_and_broadcast_requests.
Qed.

Lemma ingest_response_requests awaited sid workspace cr (w w' : World H) r :
  ingest_client_response awaited sid workspace cr w = (w', r) →
  requests (w_gateway w') = requests (w_gateway w) ∨
  ∃ out, responds cr (cr_request_id cr) out ∧
    w_gateway w' = (deliver_client_response awaited workspace (cr_request_id cr) out (w_gateway w)).1.
Proof.
  unfold ingest_client_response, hbind, hlift, on_gateway. intros E.
  destruct (cr_error cr) as [e|] eqn:Ee; destruct (str_is_empty (cr_result_json cr)); simpl in E; try (injection E as <- _; by left).
  - right. exists (OutError e). destruct (deliver_client_response _ _ _ _ _). by injection E as <- _.
  - right. exists (OutResult (cr_result_json cr)). destruct (deliver_client_response _ _ _ _ _). by injection E as <- _.
Qed.

Lemma ingest_requests kube dial env awaited req ig (w w' : World H) r :
  channel_stream_ingest kube dial env awaited req ig w = (w', r) →
  requests (w_gateway w') = requests (w_gateway w) ∨
  ∃ ws rid out g1, answers (mkIngestCall kube req ig w) ws rid out ∧ requests g1 = requests (w_gateway w) ∧
    w_gateway w' = (deliver_client_response awaited ws rid out g1).1.
Proof.
  unfold channel_stream_ingest. intros E.
  apply hbind_cases in E as [(e & [= <- _] & _)|(w0 & caller & [= <- Ha] & E)]; [by left|].
  apply hbind_cases in E as [(e & Hn & _)|(w0 & [] & Hn & E)]; unfold require_named in Hn; destruct (str_is_empty _);
    injection Hn as <-; try done; [by left|].
  apply hbind_cases in E as [(e & [=] & _)|(w0 & bound & [= <- <-] & E)].
  apply hbind_cases in E as [(e & [= <- _] & _)|(w0 & [[opener subject] workspace] & [= <- Hb] & E)]; [by left|].
  unfold channel_stream_binding in Hb. apply ok_or_Ok, fmap_Some in Hb as (e & Es & Heq). injection Heq as -> -> ->.
  apply hbind_cases in E as [(er & [= <- _] & _)|(w0 & mine & [= <- Ho] & E)]; [by left|].
  destruct mine; [|injection E as <- _; by left]. cbn [negb] in E.
  apply hbind_cases in E as [(er & [= <- _] & _)|(w0 & [] & [= <- Hr] & E)]; [by left|].
  pose proof (quiet_require_subject dial (cs_workspace e) (cs_subject e) (ig_conversation_id ig) w) as Hc.
  apply hbind_cases in E as [(er & Es1 & _)|(w1 & [] & Es1 & E)]; rewrite Es1 in Hc; simpl in Hc; [by left|].
  apply hbind_cases in E as [(er & Em & _)|(w2 & [] & Em & E)]; [by destruct (ig_supported_methods ig)|].
  assert (requests (w_gateway w2) = requests (w_gateway w)) as H2 by (by destruct (ig_supported_methods ig); injection Em as <-).
  destruct (ig_user_message ig) as [um|], (ig_client_response ig) as [cr|] eqn:Ecr;
    try (injection E as <- _; by left).
  - left. apply (f_equal fst) in E. simpl in E. subst w'. by rewrite quiet_ingest_message.
  - apply ingest_response_requests in E as [E|(out & Hout & E)]; [left; by rewrite E|]. right.
    exists (cs_workspace e), (cr_request_id cr), out, (w_gateway w2). split_and!; [|done|done].
    exists e, cr. split_and!; try done; [by eapply opened_by_caller_Ok|by apply reach_Ok in Hr].
Qed.

(** ** Every outcome was answered *)

Lemma sr_inv_requests ops g g' asked : requests g' = requests g → sr_inv ops (g, asked) → sr_inv ops (g', asked).
Proof. unfold requests, sr_inv. simpl. by intros [= -> -> ->]. Qed.

Lemma deliver_requests awaited ws rid out g g' :
  requests g' = requests g →
  requests (deliver_client_response awaited ws rid out g').1 = requests (deliver_client_response awaited ws rid out g).1.
Proof.
  unfold requests, deliver_client_response. intros [= Hp Ho Hn]. rewrite Hp. destruct (gs_pending g !! (ws, rid)); simpl;
    by rewrite ?Hp, ?Ho, ?Hn.
Qed.

Lemma relay_run_inv w asked ins :
  relay_run w asked ins →
  ∃ ops, sr_inv ops (w_gateway w, asked) ∧
    ∀ ws rid out, SrDeliver true ws rid out ∈ ops → ∃ a, a ∈ ins ∧ answers a ws rid out.
Proof.
  induction 1 as [w [Hp Ho]|w w' asked ins kube dial env awaited req ig r _ (ops & Hi & Ha) Hing
                 |w g' asked ins ws rid method params r _ (ops & Hi & Ha) Hs
                 |w g' asked ins ws rid slot timed_out r _ (ops & Hi & Ha) Hs|w w' asked ins _ (ops & Hi & Ha) Hq].
  - exists []. split; [|by intros ??? ?%elem_of_nil]. split_and!; simpl; [done|by rewrite Hp|by rewrite Ho].
  - apply ingest_requests in Hing as [Hq|(ws & rid & out & g1 & Hans & Hq & Hd)].
    + exists ops. split; [by eapply sr_inv_requests|]. intros ws rid out Hin.
      destruct (Ha ws rid out Hin) as (a & Hin' & Han). exists a. set_solver.
    + exists (ops ++ [SrDeliver awaited ws rid out]). split.
      * rewrite Hd. eapply sr_inv_requests; [by apply deliver_requests|].
        exact (sr_inv_step ops (SrDeliver awaited ws rid out) (w_gateway w, asked) Hi).
      * intros ws' rid' out' [Hin|[= _ -> -> ->]%list_elem_of_singleton]%elem_of_app.
        -- destruct (Ha _ _ _ Hin) as (a & Hin' & Han). exists a. set_solver.
        -- eexists. split; [apply elem_of_app; right; by left|done].
  - exists (ops ++ [SrSend ws rid method params]). split.
    + pose proof (sr_inv_step ops (SrSend ws rid method params) (w_gateway w, asked) Hi) as Hstep.
      simpl in Hstep. rewrite Hs in Hstep. by destruct r.
    + intros ws' rid' out' [Hin|[=]%list_elem_of_singleton]%elem_of_app. by apply Ha.
  - exists (ops ++ [SrAwait ws rid slot timed_out]). split.
    + pose proof (sr_inv_step ops (SrAwait ws rid slot timed_out) (w_gateway w, asked) Hi) as Hstep.
      simpl in Hstep. by rewrite Hs in Hstep.
    + intros ws' rid' out' [Hin|[=]%list_elem_of_singleton]%elem_of_app. by apply Ha.
  - exists ops. split; [by eapply sr_inv_requests|done].
Qed.

Lemma awaited_was_answered w asked ins ws rid slot timed_out g' out :
  relay_run w asked ins → asked !! slot = Some (ws, rid) →
  await_server_request ws rid slot timed_out (w_gateway w) = (g', Some (Ok out)) →
  ∃ a, a ∈ ins ∧ answers a ws rid out.
Proof.
  intros (ops & (_ & _ & Hout) & Ha)%relay_run_inv Hask Haw. unfold await_server_request in Haw.
  destruct (gs_outcomes (w_gateway w) !! slot) as [o|] eqn:Eo; [|by repeat case_match].
  injection Haw as _ ->. destruct (Hout slot out Eo) as (ws' & rid' & Hk & Hin). simpl in Hk. rewrite Hask in Hk.
  injection Hk as <- <-. by apply Ha.
Qed.
End relay.

(** ** The approval of a call *)

Section approval.
Context {H : Type} `{HarnessControl H}.
Context {Num : Type} (is_i64 is_u64 : Num → bool) (num_to_string : Num → string).
Context (json_parse : string → result (Json Num) string) (error_text : ArgValidationError → string).
Context (approval_params : string → string → string) (debug dispatched : string → string)
  (error_json : Z → string → string) (workspace : string).
Abbreviation call_tool := (call_tool is_i64 is_u64 num_to_string json_parse error_text approval_params debug
  dispatched error_json workspace).

(** The relay the harness asks is this one: an answer it gets was waited for on
    a oneshot that was made for its question. *)
Definition this_relay (w : World H) (asked : gmap nat (string * string))
    (answer : RequestCall → result (result ServerRequestOutcome ServerRequestError) string) : Prop :=
  ∀ q out, answer q = Ok (Ok out) → ∃ slot timed_out g', asked !! slot = Some (rq_workspace q, rq_request_id q) ∧
    await_server_request (rq_workspace q) (rq_request_id q) slot timed_out (w_gateway w) = (g', Some (Ok out)).

End approval.

(** ** Witness *)

(** A client says what it supports, the relay is asked, the client answers. *)
Lemma run_exchange {H} `{HarnessControl H} kube dial env awaited req hello yes (w : World H) ws rid method params slot :
  no_requests (w_gateway w) →
  let send ig w := (channel_stream_ingest kube dial env awaited req ig w).1 in
  let asking := send_server_request ws rid method params (w_gateway (send hello w)) in
  let asked := mkWorld asking.1 (w_harness (send hello w)) in
  asking.2 = Ok slot →
  relay_run (send yes asked) {[ slot := (ws, rid) ]} [mkIngestCall kube req hello w; mkIngestCall kube req yes asked].
Proof.
  intros Hw send asking asked Hs. eapply (RunIngest asked _ _ [_] kube dial env awaited); [|apply surjective_pairing].
  apply (RunAsk (send hello w) asking.1 ∅ [_] ws rid method params (Ok slot)).
  - eapply (RunIngest w _ ∅ [] kube dial env awaited); [by apply RunStart|apply surjective_pairing].
  - rewrite <- Hs. apply surjective_pairing.
Qed.

(** Alice's client says it can approve; the harness asks; alice answers. *)
Module Demo.
Definition send (ig : IngestRequest) (w : World SampleService) : World SampleService :=
  (channel_stream_ingest (H := SampleService) (Some sample_kube) no_dial (sample_env "") true (sample_req "alice") ig w).1.
Definition hello : IngestRequest :=
  mkIngest "stream-1" "conv-1" [APPROVAL_METHOD] (Some (text_content "hi", "alice", [])) None.
Definition yes : IngestRequest := mkIngest "stream-1" "" [] None (Some (mkClientResponse "req" "yes" None)).
Definition advertised : World SampleService := send hello world2.
Definition asked : World SampleService :=
  mkWorld (send_server_request "home" "req" APPROVAL_METHOD "deploy" (w_gateway advertised)).1 (w_harness advertised).
Definition answered : World SampleService := send yes asked.
Definition answer (q : RequestCall) : result (result ServerRequestOutcome ServerRequestError) string :=
  if decide ((rq_workspace q, rq_request_id q) = ("home", "req")) then Ok (Ok (OutResult "yes")) else Err "no such request".
Definition router : RouterEnv :=
  mkRouterEnv (λ _, catalog_of (served_by "a")) true (Some (relay_of answer no_notify)) "req" false (λ _ _ _ _, Ok "call")
    (DrainFrames [failed_terminal]) (λ _ _, Err (DispatchError "")).
Definition called : list Effect * result CallToolResponse DispatchAbort :=
  call_tool (λ _, true) (λ _, true) (λ _, "") yes_json (λ _, "") (λ t i, t) (λ s, s) (λ s, s) (λ _ s, s) "home"
    router "deploy" "{}" {[ "a" := "prod" ]} None "tc".
Definition ingests : list (Ingest (H := SampleService)) :=
  [mkIngestCall (Some sample_kube) (sample_req "alice") hello world2;
   mkIngestCall (Some sample_kube) (sample_req "alice") yes asked].

Lemma answered_run : relay_run answered {[ 0 := ("home", "req") ]} ingests.
Proof.
  apply (run_exchange (Some sample_kube) no_dial (sample_env "") true (sample_req "alice") hello yes world2 "home" "req"
           APPROVAL_METHOD "deploy" 0); [split|]; by vm_compute.
Qed.

Lemma answered_here : this_relay answered {[ 0 := ("home", "req") ]} answer.
Proof.
  intros q out. unfold answer. case_decide as E; [|done]. injection E as -> ->. intros [= <-].
  exists 0, false, (w_gateway answered). split; [by rewrite lookup_singleton_eq|]. unfold await_server_request.
  assert (gs_outcomes (w_gateway answered) !! 0 = Some (OutResult "yes")) as -> by by vm_compute. done.
Qed.
End Demo.

