(* ===== verification/Credentials.v ===== *)
(** * Where a credential goes

    Follows the answer of a tool call from the pod that gives it to the client
    that awaits it: the Job of a granted call ([Jobs]), the pod that starts from
    it and redacts what its tool prints ([Pods], [Builtins]), the dispatcher that
    picks the pod and forwards its frames ([Dispatch]), and the session that
    serves them ([ClientCalls]). *)

From S2P Require Import Prelude Text Proto Scrub Auth Toolset Dispatch DispatchLive ToolRouter ClientCalls ToolFrames Builtins Jobs Pods.

(** ** Runs with what the pods sent *)

(** Which pod ran which call, and what it sent. *)
Abbreviation Served := (list (string * PendingCall * PodRun)).

Definition run_of (e : StepEnv) (t : Task) : Served :=
  match t with
  | TDriver _ job _ (DRun call _ _) => [(job, call, ev_run e)]
  | _ => []
  end.

(** The steps of the dispatcher, with the answers of the pods on record. *)
Inductive sys_run (P : StepEnv → Prop) : Shared * list Task → Served → Prop :=
| RunInit : sys_run P sys_init []
| RunBegin r w ts served :
    sys_run P (w, ts) served → sh_calls w !! cr_id r = None → cr_id r ≠ "" →
    sys_run P (begin_call r w, ts ++ [TBegin r BLock]) served
| RunTask e ts1 t ts2 w w' new served :
    sys_run P (w, ts1 ++ t :: ts2) served → P e → order_ok e w → task_step e t w = Some (w', new) →
    sys_run P (w', ts1 ++ new ++ ts2) (served ++ run_of e t)
| RunCancel id w ts served :
    sys_run P (w, ts) served → sys_run P (with_state (λ s, (fire_call_cancel id s).1) w, ts) served.

Lemma sys_run_reach P sys served : sys_run P sys served → sys_reach P sys.
Proof.
  induction 1; [apply rtc_refl|eapply rtc_r; [done|]..].
  - by apply StepBegin.
  - by eapply StepTask.
  - apply StepCancel.
Qed.

(** Every run of the dispatcher is one with its answers. *)
Lemma sys_reach_run P sys : sys_reach P sys → ∃ served, sys_run P sys served.
Proof.
  revert sys. apply (rtc_ind_r (λ sys, ∃ served, sys_run P sys served)); [exists []; constructor|].
  intros y z _ Hs [served IH]. destruct Hs; eexists; by econstructor.
Qed.

Lemma task_step_ran e t w w' new : task_step e t w = Some (w', new) → sh_ran w' = sh_ran w ++ (run_of e t).*1.
Proof.
  intros H. destruct t as [r ph|tool job name ph]; simpl in H.
  - rewrite app_nil_r. unfold begin_step in H. destruct ph; split_step H; done.
  - unfold driver_step in H. destruct ph; split_step H; by rewrite ?app_nil_r.
Qed.

Lemma sys_run_ran P sys served : sys_run P sys served → sh_ran sys.1 = served.*1.
Proof.
  induction 1 as [| |e ts1 t ts2 w w' new served _ IH _ _ Hs|]; simpl in *; [done..| |done].
  by rewrite fmap_app, <- IH, (task_step_ran _ _ _ _ _ Hs).
Qed.

Lemma sys_run_env P sys served job call run :
  sys_run P sys served → (job, call, run) ∈ served → ∃ e, P e ∧ ev_run e = run.
Proof.
  induction 1 as [| |e ts1 t ts2 w w' new served _ IH He _ _|]; [by intros ?%elem_of_nil|done| |done].
  intros [?|Hin]%elem_of_app; [auto|]. exists e. split; [done|]. destruct t as [|tool j name []]; simpl in Hin; set_solver.
Qed.

(** ** The frames of a call *)

(** [f] was made up by the dispatcher, or sent for [c] by the pod it ran on. *)
Definition from_pod (served : Served) (c : string) (f : ToolResultFrame) : Prop :=
  f = failed_terminal ∨
  ∃ job call run frames, (job, call, run) ∈ served ∧ pc_call_id call = c ∧ pr_run run = Ok frames ∧ Ok f ∈ frames.

Lemma guard_drop_in room f : f ∈ guard_drop room → f = failed_terminal.
Proof. destruct room; set_solver. Qed.

Lemma forward_frames_in frames f : f ∈ (forward_frames frames).1 → Ok f ∈ frames.
Proof.
  induction frames as [|[g|e] frames IH]; simpl; [set_solver| |set_solver].
  destruct (is_terminal_frame g); simpl; [set_solver|]. destruct (forward_frames frames); simpl in *; set_solver.
Qed.

Lemma dial_and_run_in p f :
  f ∈ (dial_and_run p).1 → f = failed_terminal ∨ ∃ frames, pr_run p = Ok frames ∧ Ok f ∈ frames.
Proof.
  unfold dial_and_run. destruct (dial _); [|intros; left; by eapply guard_drop_in].
  destruct (pr_run p) as [frames|e]; [|intros; left; by eapply guard_drop_in].
  pose proof (forward_frames_in frames f) as Hf. destruct (forward_frames frames) as [fs [|]]; simpl in *.
  - rewrite app_nil_r. eauto.
  - intros [?|?%guard_drop_in]%elem_of_app; eauto.
Qed.

(** Frames of [s'] that were not in [s] satisfy [Q]. *)
Definition adds (Q : string → ToolResultFrame → Prop) (s s' : DispatchState) : Prop :=
  ∀ c ch f, ds_channels s' !! c = Some ch → f ∈ ch_frames ch →
    Q c f ∨ ∃ ch0, ds_channels s !! c = Some ch0 ∧ f ∈ ch_frames ch0.

Lemma adds_same Q s s' : ds_channels s' = ds_channels s → adds Q s s'.
Proof. intros E c ch f. rewrite E. eauto. Qed.

Lemma adds_alter Q s id g :
  (∀ ch f, f ∈ ch_frames (g ch) → Q id f ∨ f ∈ ch_frames ch) → adds Q s (set_channels (alter g id) s).
Proof.
  intros Hg c ch f. simpl. intros [(<- & ch0 & E & ->)|[_ E]]%lookup_alter_Some Hin; [|eauto].
  destruct (Hg _ _ Hin); eauto.
Qed.

Lemma adds_trans Q s1 s2 s3 : adds Q s1 s2 → adds Q s2 s3 → adds Q s1 s3.
Proof. intros H1 H2 c ch f E Hin. destruct (H2 _ _ _ E Hin) as [|(ch0 & E0 & Hin0)]; eauto. Qed.

Lemma adds_drop_guards served ids s : adds (from_pod served) s (drop_guards ids s).
Proof.
  revert s. induction ids as [|id ids IH]; intros s; [by apply adds_same|].
  eapply adds_trans; [|apply IH]. apply adds_alter. intros ch f [?|Hin%guard_drop_in]%elem_of_app; [by right|left; by left].
Qed.

Lemma task_step_adds e t w w' new :
  task_step e t w = Some (w', new) → adds (from_pod (run_of e t)) (sh_state w) (sh_state w').
Proof.
  intros H. destruct t as [r ph|tool job name ph]; simpl in H.
  - unfold begin_step in H. destruct ph; split_step H; try (by apply adds_same).
    + intros c ch f. simpl. intros [[<- <-]|[_ E]]%lookup_insert_Some; [set_solver|eauto].
    + apply remove_pending_call_spec in Heqp as [-> _]. by apply adds_same.
    + apply remove_pending_call_spec in Heqp as [-> _]. by apply adds_same.
    + apply (adds_drop_guards _ [cr_id r]).
  - unfold driver_step in H. destruct ph; split_step H; try (by apply adds_same).
    + apply dequeue_call_spec in Heqp as (k & cs & rest & _ & _ & _ & _ & ->). by apply adds_same.
    + apply dequeue_call_spec in Heqp as [-> _]. by apply adds_same.
    + apply adds_alter. intros ch f [?|Hin]%elem_of_app; [by right|]. left.
      pose proof (dial_and_run_in (ev_run e) f) as Hd. rewrite Heqp in Hd.
      destruct (Hd Hin) as [->|(frames & Hr & Hf)]; [by left|]. right. exists job, call, (ev_run e), frames. set_solver.
    + apply remove_active_job_named_spec in Heqp as (f & -> & _). by apply adds_same.
    + apply remove_active_job_named_spec in Heqp as (f & -> & _). by apply adds_same.
    + apply remove_active_job_named_spec in Heqp as (f & -> & _). by apply adds_same.
    + eapply adds_trans; [|apply adds_drop_guards]. by apply adds_same.
    + destruct (fire_call_cancel_other (pc_call_id p) (sh_state w)) as (_ & _ & _ & _ & Ec). by apply adds_same.
Qed.

Lemma from_pod_weaken served served' c f : served ⊆ served' → from_pod served c f → from_pod served' c f.
Proof. intros Hs [->|(job & call & run & frames & Hin & ?)]; [by left|]. right. exists job, call, run, frames. set_solver. Qed.

Lemma sys_run_frames P sys served c ch f :
  sys_run P sys served → ds_channels (sh_state sys.1) !! c = Some ch → f ∈ ch_frames ch → from_pod served c f.
Proof.
  intros H. revert c ch f. induction H as [|r w ts served _ IH|e ts1 t ts2 w w' new served _ IH _ _ Hs|id w ts served _ IH];
    intros c ch f; simpl in *; [done|apply IH| |].
  - intros E Hin. destruct (task_step_adds _ _ _ _ _ Hs _ _ _ E Hin) as [Hp|(ch0 & E0 & Hin0)].
    + eapply from_pod_weaken; [|exact Hp]. set_solver.
    + eapply from_pod_weaken; [|by eapply IH]. set_solver.
  - destruct (fire_call_cancel_other id (sh_state w)) as (_ & _ & _ & _ & ->). apply IH.
Qed.

(** What a client is served of a session was in the session, or is made up. *)
Lemma served_from_session s out f :
  call_reach s → se_sub s = SubDone out → f ∈ out → f = failed_terminal ∨ f ∈ se_frames s.
Proof.
  intros (_ & Hl & Hs)%call_reach_inv E. rewrite E in Hs.
  destruct Hs as [[[-> _]|(pre & rest & -> & _ & -> & _)]|(_ & _ & ->)]; [auto|set_solver|].
  unfold serve_persisted. intros [Hin|Hin]%elem_of_app.
  - right. by eapply elem_of_sublist.
  - left. case_match; set_solver.
Qed.

(** ** The pods of granted calls *)

Section pods.
Context {Num T : Type} (json_to_string : Json Num → string).
Context (faults : FsFaults) (parse_map : string → result (list CredentialMapEntry) string).
Context (parse_entries : string → option (list ScrubEntry)) (b64 url : string → string).
Hypothesis map_round_trip : ∀ staging target,
  parse_map (credential_map json_to_string staging target) = Ok [mkCredentialMapEntry staging target].
Hypothesis registry_round_trip : ∀ name file,
  parse_entries (json_to_string (JArray [scrub_entry_json (mkSecretMapping name file)])) =
  Some [mkScrubEntry name None (Some file)].
Hypothesis array_printed : ∀ l, json_to_string (JArray l) ≠ "".

(** What a granted call's Job is built from, and the pod it becomes: its
    container's environment, its files, and the mounted Secret among them. *)
Record GrantedPod : Type := mkGrantedPod {
  gp_toolset : string; gp_entry : ToolsetEntry; gp_namespace : string; gp_service : string; gp_workspace : string;
  gp_pvc : string; gp_scheduling : SchedulingConfig T; gp_grant_name : string; gp_grant : CapabilityGrant;
  gp_env : string → option string; gp_files : PodFs; gp_secret : PodFile }.

(** The pod runs the Job that [begin_call] builds for [r], with the Secret
    mounted where the Job says. *)
Definition started (r : CallReq) (p : GrantedPod) : Prop :=
  cr_grant r = Some (gp_grant_name p) ∧
  (∃ job c, build_tool_job json_to_string (cr_tool r) (gp_toolset p) (gp_entry p) (cr_id r) (gp_namespace p)
      (gp_service p) (gp_workspace p) (gp_pvc p) (gp_scheduling p) (Some (gp_grant_name p, gp_grant p)) = Some job ∧
    c ∈ ps_containers (job_pod job) ∧ runs_with (gp_env p) (c_env c)) ∧
  te_env (gp_entry p) !! "TOOLSET_TOOL_NAME" = None ∧
  gp_files p !! grant_staging (gp_grant p) = Some (gp_secret p) ∧ utf8_valid (pf_content (gp_secret p)) = true ∧
  copy_allowed faults (grant_staging (gp_grant p)) (grant_target (gp_grant p)).

(** What came over the wire was sent by calls the pod ran. *)
Definition answers_for (p : GrantedPod) (run : PodRun) : Prop :=
  ∀ s keepalive files frames f,
    tool_main faults parse_map (gp_env p) b64 url parse_entries (gp_files p) = Some (Ok (s, keepalive, files)) →
    pr_run run = Ok frames → Ok f ∈ frames →
    tags_opaque (tj_scrub s) = true ∧
    ∃ env to_lowercase shell rg removable builtin_names a fs sent,
      run_call env to_lowercase shell rg (tj_scrub s) removable builtin_names (tj_tool_name s) a fs sent ∧ f ∈ sent.

Definition credential (p : GrantedPod) : string := str_trim (str_of (pf_content (gp_secret p))).

Lemma pod_answer_redacted r p run frames f text v :
  started r p → answers_for p run → pr_run run = Ok frames → Ok f ∈ frames → frame_text f = Some text →
  credential p ≠ "" → v ∈ [credential p; b64 (credential p); url (credential p)] → ¬ sub (B v) (B text).
Proof using map_round_trip registry_round_trip array_printed.
  intros (_ & (job & c & Hjob & Hc & Henv) & Htn & Hf & Hu & Hcopy) Hans Hr Hin Ht Hne Hv.
  destruct (granted_pod_redacts_credential json_to_string faults parse_map parse_entries b64 url map_round_trip
              registry_round_trip array_printed _ _ _ _ _ _ _ _ _ _ _ _ _ _ _ _ Hjob Hc Henv Htn Hf Hu Hcopy)
    as (s & keepalive & files & Hmain & _ & _ & _ & Hred).
  destruct (Hans _ _ _ _ _ Hmain Hr Hin) as (Ho & env & lower & shell & rg & removable & names & a & fs & sent & Hcall & Hs).
  by eapply (Hred Ho Hne).
Qed.

End pods.

(** ** Witness *)

(** A call of [Shell] with a grant prints the credential; its client awaits it. *)
Module Demo.
Definition pod : GrantedPod (T:=unit) :=
  mkGrantedPod "github" Witness.entry "ns" "svc" "ws" "pvc" Witness.sched "main" Witness.grant
    (env_last (tool_env "Shell" Witness.entry (stage_grant Witness.print (Some ("main", Witness.grant)))))
    {[ grant_staging Witness.grant := Witness.secret_file ]} Witness.secret_file.
Definition request : CallReq := mkCallReq "0123456789" "Shell" ∅ (Some "main") true.
Definition line : ToolResultFrame := stdout_frame "pw [REDACTED:gh]".
Definition finish : ToolResultFrame := complete_frame OutcomeDone 0.
Definition run : PodRun := answered [line; finish].
Definition acts : list Act := ActBegin request :: steps 17 0 run.
Definition this_run (e : StepEnv) : Prop := ev_run e = run.
Definition session : CallSession := mkSession [line; finish] [] true (SubDone [line; finish]).
End Demo.

Lemma demo_reach : sys_reach Demo.this_run ((end_of Demo.acts).1, []).
Proof.
  apply (act_run_sound _ Demo.acts); [|by vm_compute]. intros i now run Hin w. red. simpl.
  unfold Demo.acts, steps in Hin. apply elem_of_cons in Hin as [|Hin]; [done|].
  apply elem_of_replicate in Hin as [[= _ _ ->] _]. done.
Qed.

Lemma demo_ran : sh_ran (end_of Demo.acts).1 = [("0123456789", pending_of Demo.request "0123456789")].
Proof. by vm_compute. Qed.

Lemma demo_session : call_reach Demo.session.
Proof.
  eapply rtc_l; [apply (StepPush Demo.line false); constructor|].
  eapply rtc_l; [apply (StepPush Demo.finish false); by repeat constructor|].
  eapply rtc_l; [apply StepFind|]. eapply rtc_l; [apply StepSubscribe|]. apply rtc_refl.
Qed.

Lemma demo_started : started Witness.print Witness.no_faults Demo.request Demo.pod.
Proof.
  split_and!; [done| |by vm_compute..]. eexists _, _. split; [reflexivity|]. split; [left|by intros n v].
Qed.

Definition service (started : option (result (ToolJobService * bool * PodFs) string)) : option ToolJobService :=
  match started with Some (Ok (s, _, _)) => Some s | _ => None end.

Lemma demo_answers :
  answers_for Witness.no_faults Witness.read_map Witness.read_registry Witness.b64 id Demo.pod Demo.run.
Proof.
  intros s keepalive files frames f Hmain [= <-] Hin.
  assert (service (tool_main Witness.no_faults Witness.read_map (gp_env Demo.pod) Witness.b64 id Witness.read_registry
                     (gp_files Demo.pod))
          = Some (mkToolJobService "Shell" (from_secrets Witness.b64 id [("gh", str_of (pf_content Witness.secret_file))]))) as E
    by by vm_compute.
  rewrite Hmain in E. simpl in E.
  injection E as ->. split; [by vm_compute|].
  exists calm, (λ s, s), (printing (B "pw s3cret")), no_rg, (λ _, true), ["Shell"], shell_call, ∅. eexists. split.
  - apply (RunBuiltin _ _ _ _ _ _ _ _ _ _ ∅ (mkCommandResult "pw s3cret" "" 0 None)); [left|by vm_compute].
  - clear Hmain. match goal with |- _ ∈ ?sent => assert (sent = [Demo.line; Demo.finish]) as -> by by vm_compute end.
    change (Ok f ∈ Ok (E := Status) <$> [Demo.line; Demo.finish]) in Hin.
    apply list_elem_of_fmap in Hin as (f0 & [= ->] & Hin). exact Hin.
Qed.


(** ** Grants of the same name *)

(** A warm pod is recorded by its tool and the name of its grant, while grants are
    declared per toolset. When a tool moves from one toolset to another and both
    declare a grant of that name, a call under the second runs on the pod that
    was created under the first, with the first one's Secret. *)
Theorem grant_name_crosses_toolsets :
  let entry := mkToolsetEntry (Some "img") true None ∅ [] in
  let grant secret := Some ("prod", mkGrant secret None None) in
  ∃ w r1 r2,
    begin_lookup {[ "a" := entry ]} "sh" "a" ∅ (grant "secret-a") "c1" = Ok r1 ∧
    begin_lookup {[ "a" := entry; "b" := entry ]} "sh" "b" ∅ (grant "secret-b") "c2" = Ok r2 ∧
    sys_reach room (w, []) ∧ sh_ran w = [("c1", pending_of r1 "c1"); ("c1", pending_of r2 "c1")].
Proof.
  set (acts := ActBegin (call_on "c1" (Some "prod")) :: steps 17 0 (answered [done_frame]) ++
               ActBegin (call_on "c2" (Some "prod")) :: steps 15 0 (answered [done_frame])).
  exists (end_of acts).1, (call_on "c1" (Some "prod")), (call_on "c2" (Some "prod")). split_and!; [by vm_compute..| |by vm_compute].
  apply (act_run_room acts); by vm_compute.
Qed.
